(* ===== verification/_CoqProject ===== *)
-Q . S2P
Prelude.v
Float64.v
Float64Facts.v
Text.v
Eviction.v
HttpApi.v
UriText.v
Errors.v
Redaction.v
UriResolve.v
Extensions.v
Tls.v
Redirect.v
Proxy.v
Dns.v
Headers.v
ContentEncoding.v
Timing.v
Responses.v
Retry.v
RetryBudget.v
CircuitBreaker.v
Adaptive.v
RateLimit.v
Execution.v
Upload.v
Limiters.v
Metrics.v
Otel.v
Interleaving.v
InterleavingTheorems.v
Lifecycle.v
Program.v
Blocking.v
BlockingFacts.v
BlockingTheorems.v
Walk.v
Returns.v
BlockingReturns.v
System.v
BlockingStream.v
BlockingStreamTheorems.v
BlockingDemo.v
ClientBuilder.v
RequestBuilder.v
Async.v
AsyncFacts.v
AsyncTheorems.v
AsyncWalk.v
AsyncLimiters.v
AsyncSystem.v
AsyncReturns.v
AsyncStream.v
AsyncStreamTheorems.v
AsyncProxy.v
AsyncTls.v
AsyncBuilder.v
AsyncRequest.v
AsyncUpload.v
AsyncDemo.v
SystemDemo.v
