(* ===== verification/Prelude.v ===== *)
(** * A verification development of reqx

    reqx is an HTTP client library: a blocking and an async client over a shared
    core that retries, follows redirects, keeps deadlines, and protects the servers
    it calls with a retry budget, a circuit breaker, an adaptive concurrency limit and
    a rate limiter.  The files below translate that core from [src/src/] into
    executable definitions and prove what makes it correct.

    ** The parts and how they meet

    A client is built once ([core/client_builder.rs], [blocking_client/builder.rs],
    [async_client/builder.rs]):
    the settings are validated, the controls created, the transport configured.  A
    call is prepared ([core/execution.rs], [prepare_retry_request_input]): the
    endpoint is selected, the URI resolved, headers merged, framing and timeouts
    validated.  The client's loop ([blocking_client/execute.rs],
    [async_client/client.rs]) then keeps a [RequestExecutionState]: each attempt waits for the rate limiter, takes a host
    permit, a circuit attempt and an adaptive permit (the two attempt guards), runs
    the interceptors, sends, and classifies the outcome into a retry, a redirect or a
    completion, which settles the guards, charges the retry budget and advances the
    state.  The result is a buffered response, decoded and within its limit, or a
    stream that owns the permits, the guards and the accounting of its request until
    it is consumed or dropped.  The async client is the same loop with an await at
    every wait, where its future may be dropped.

    ** Files

    - [Prelude]: results with [let?], saturating integers, durations and instants in
      nanoseconds, counting, Boolean-reflection tactics, invariants of [rtc].
    - [Float64]: IEEE double arithmetic on [SpecFloat] (the [f64] of the code);
      [Float64Facts]: bounds and monotonicity of the rounded operations.
    - [Text]: strings as lists of code points, with the [str] methods the code uses.
    - [Eviction]: [core/limiters.rs], the eviction of idle per-host entries, against an
      interface that the limiters and the rate limiter implement.
    - [HttpApi]: the http and httpdate crates as classes [Http] and [HttpDate], with
      [HttpLaws] for documented behaviour, and a reference instance [ref_http] that
      satisfies them.
    - [UriText], [UriResolve]: [core/util/uri.rs]; the url crate is the class
      [UrlCrate].
    - [Errors]: [core/error.rs] and [core/util/transport_error.rs].
    - [Redaction]: [core/util/redaction.rs].
    - [Extensions]: [core/extensions.rs], the rotating endpoint selector and the normalizer of
      the paths in telemetry.
    - [Tls]: [tls.rs] and the TLS configuration of [blocking_client/transport.rs]; the
      TLS crates are the class [TlsCrates].
    - [Redirect]: [core/util/redirect.rs].
    - [Proxy]: [core/proxy.rs]; [Dns]: [core/dns.rs] and [blocking_client/dns.rs].
    - [Headers]: [core/util/headers.rs].
    - [ContentEncoding]: [core/content_encoding.rs], [core/util/io.rs] and the bounded
      body reader of [blocking_client/transport.rs]; the decompressors are the class
      [Codecs].
    - [Timing]: [core/util/timing.rs] and [core/util/backoff.rs].
    - [Responses]: [http/response.rs], with UTF-8 decoding written out.
    - [Retry]: [core/retry.rs].
    - [RetryBudget], [CircuitBreaker], [Adaptive]: the three controls of
      [resilience.rs]; [Adaptive] also holds the blocking controller of
      [blocking_client/mod.rs] and the async one of [async_client/adaptive.rs].
    - [RateLimit]: [rate_limit.rs].
    - [Execution]: [core/execution.rs] with [core/policy.rs], [core/request_body.rs],
      [core/request_builder.rs] and the timeout validation of [core/config.rs].
    - [Upload]: [upload/mod.rs], [upload/session.rs] and [upload/blocking.rs].
    - [Limiters]: [blocking_client/limiters.rs].
    - [Metrics]: [core/metrics.rs]; [Lifecycle]: [core/execution/lifecycle.rs] and the
      stream hooks of [core/execution.rs].
    - [Otel]: [core/otel.rs], and the operations of [core/metrics.rs] with the telemetry
      they emit.
    - [Interleaving]: the same operations as lists of updates of single atomics and maps
      and of calls into OpenTelemetry, threads that perform them one at a time, snapshots
      that load one cell at a time, and the simulation of their runs by runs of whole
      operations; [InterleavingTheorems]: what follows for counters, snapshots and spans.
    - [Program]: the effects of a driver: a state monad over the surroundings (class
      [Surroundings]: clock, sleep, sampler, controls, limiters), the metrics and a log
      of events; the callbacks of [core/policy.rs] and [core/observe.rs].
    - [Blocking]: [blocking_client/execute.rs] and the error classification of
      [blocking_client/transport.rs], over the class [Ureq].
    - [BlockingFacts]: a logic of postconditions over a tally of the log, and a rule
      for every operation of the driver; [BlockingTheorems]: what a request leaves
      behind.
    - [Walk]: properties that a request inherits from the operations it is made of;
      [Returns], [BlockingReturns]: that requests return.
    - [System]: requests and the controls they share, composed: the interface [Control]
      of a control's transition system with its instances for every control, what it
      means for surroundings to be connected to one, and that a request is then a run
      of it.
    - [BlockingStream], [BlockingStreamTheorems]:
      [http/response/blocking_stream.rs].
    - [BlockingDemo]: a scripted transport and the runs the theorems are applied to.
    - [ClientBuilder]: [core/client_builder.rs], [core/config.rs],
      [blocking_client/builder.rs] and [make_agent_configs].
    - [Async]: [async_client/client.rs], [async_client/transport_error.rs] and the body
      reader of [async_client/body.rs], over the class [Tokio]; [AsyncFacts],
      [AsyncTheorems]: the rules and guarantees of [BlockingFacts] and
      [BlockingTheorems] for futures that can be dropped; [AsyncWalk],
      [AsyncReturns], [AsyncSystem]: the counterparts of [Walk], [BlockingReturns], [System].
    - [AsyncStream], [AsyncStreamTheorems]: [http/response/async_stream.rs], over the
      class [HyperBody].
    - [AsyncProxy]: [async_client/proxy.rs] and [async_client/dns.rs], where connections
      lead.
    - [AsyncTls]: the TLS stacks and the transport of [async_client/transport.rs], over
      the class [AsyncTlsCrates].
    - [AsyncLimiters]: [async_client/limiters.rs], over the class [TokioSemaphore].
    - [AsyncBuilder]: [async_client/builder.rs]; [AsyncRequest]: [async_client/request.rs].
    - [AsyncUpload]: [upload/asynchronous.rs] and [read_chunk_async] of
      [upload/session.rs].
    - [AsyncDemo]: runs of the async client, dropped ones included; [SystemDemo]: both
      clients wired to all their controls.
    - [RequestBuilder]: [blocking_client/request.rs]; serialisation and form encoding are
      the classes [Serialize] and [FormUrlencoded].

    ** How code becomes definitions

    Structs are records and enums inductive types with the source's names; a method
    that takes [&mut self] (or locks a mutex) is a function from state to state, and
    one lock region is one step.  Clock readings and random samples are arguments, so
    every theorem holds for every clock and sampler it quantifies over.  [usize] and
    [u64] are [Z] with the saturation or range check the code performs; a [Duration]
    is a count of nanoseconds up to [DURATION_MAX], an [Instant] a count of
    nanoseconds up to [INSTANT_MAX]; [f64] is the 64-bit instance of [spec_float].
    Hash maps are [gmap].  [Arc] identities used as generations by the circuit
    breaker are numbers drawn from an allocation counter.  The interleavings of
    callers are transition systems: a breaker with its unfinished attempts, a
    controller with its permits and its waiting callers, a request with its life of
    tightenings, retries and redirects.

    ** What the theorems show

    - The two clients (C1-C9): over a request every circuit attempt, adaptive
      permit and limiter permit is given back once, also when the async future is
      dropped at an await, and otherwise none by a destructor; the terminal error of the
      attempt driver is shown to the error interceptors once, and an error before the
      first attempt (preparation, the global queue) never; exchanges are bounded by attempts and redirects, and a
      streamed body is sent at most once; requests with a total timeout return; and a
      request starts one account in the metrics and closes it once, with its result.
    - The clients and the controls they share (C10, C11): with any other requests acting
      in between, a request is a run of the transition systems of the circuit breaker,
      the adaptive controller, the request limiters, the retry budget and the rate
      limiter, and ends what it took and nothing else.  So C20-C25, C29 and C30 hold
      whatever the clients do.
    - Streams (C12-C16): whatever is done with a stream, nothing of its request is left
      behind; copies, buffers and reads hand over the bytes of the transport, in order
      and within the limit.
    - The builders (C17-C19): what validation guarantees of the requests, the controls
      and the transport of a client, and that a built request has consistent framing.
      That the blocking transport leaves redirects and statuses to reqx is
      [built_controls_validated].
    - Retry scheduling: that a retry is scheduled under exactly the stated conditions is
      [retry_schedule_spec], that guards are reported to each control once is
      [guards_settle_by_control_steps].
    - Circuit breaker (C20, C21): the probe limit and freedom from wedging; inertness of
      stale outcomes and the opening threshold are lemmas of [CircuitBreaker].
    - Adaptive concurrency (C22; [adaptive_no_lost_wakeup], [adaptive_async_no_lost_wakeup])
      and limiters (C23-C25): bounds of the limit and of the permits, no lost
      wakeups, permits conserved when futures are dropped.
    - Uploads (C26-C28): a successful upload completes with exactly the parts of its
      source, the driver returns, and the async driver implements the blocking one.
      [resume_skips_completed_parts]: resuming from an error's checkpoint goes on at the
      first missing part.
    - Retry budget (C29) and rate limiter (C30): grants per window, cleanup.
    - Metrics and telemetry (C31-C33): under threads, the counts and what the calls under
      way still owe them balance, a snapshot shows each count of some moment while it was
      taken, and at rest it balances itself; every span is closed by exactly one outcome,
      whether the client counts or not, and at rest both sets of counters agree; what a
      span says of a request is bounded.
    - Credentials and secrets (C34-C36): redirects to another origin, credentials of the
      proxy, redaction.
    - TLS (C37-C39) and content encoding (C40).

    ** Bounds and fuel

    Loops that are not structural run on fuel bounded by the length of the text they
    scan ([Redaction], [Headers], [Tls]), by the number of reads left ([ContentEncoding]), by
    the size of the map they shrink ([Eviction]), or by the length of the source and the
    number of attempts ([Upload]); the lemmas beside them show that this suffices.  The
    request loop and the wait for the rate limiter take fuel as arguments:
    [blocking_requests_return] and [async_requests_return] give amounts that are enough.  The loops over a stream
    take the number of chunks and of interrupted reads or polls, which the transport
    decides; their theorems hold for every such number with which they return.
    [retry_budget_window_bounds] asks for fewer than [2 ^ 53] operations in a window, up
    to which counts are exact in a double; [adaptive_accepted] and [bucket_inv] bound the
    greatest limit and the burst by the same number.  The bounds on sends and turns ask
    for a redirect limit below [usize::MAX], where the count of redirects saturates.  The
    reader of an upload is the finite list of what its reads return.

    ** Not modelled

    What [Relaxed] ordering lets a load miss of another thread's updates: the threads of
    [Interleaving] see each other's updates at once.
    The network exchange of ureq and hyper, decompressors, certificates and the
    opentelemetry crate behind the calls, which are I/O or other crates.  Accessors, [Debug] output, verb shorthands and
    re-exports have no definitions.  The functions of [async_client/client.rs] that do not
    wait do what their namesakes of [blocking_client/execute.rs] do, and are the
    definitions of [Blocking]. *)

(** ** Shared vocabulary *)
From Stdlib Require Export ZArith Lia.
From stdpp Require Export prelude gmap list sorting strings.

#[export] Set Default Goal Selector "!".
#[export] Set Warnings "-clear-no-such-hyp".
Global Open Scope Z_scope.

(** ** Results

    [Result<T, E>] of the Rust standard library, with the [?] operator as a
    bind notation: [let? x := c in k] runs [c] and returns its error early. *)
Inductive result (A E : Type) : Type :=
| Ok (a : A)
| Err (e : E).
Arguments Ok {A E} a.
Arguments Err {A E} e.

Definition result_bind {A B E} (c : result A E) (k : A -> result B E) : result B E :=
  match c with
  | Ok a => k a
  | Err e => Err e
  end.

Definition result_map_err {A E F} (f : E -> F) (c : result A E) : result A F :=
  match c with
  | Ok a => Ok a
  | Err e => Err (f e)
  end.

Definition is_some {A} (o : option A) : bool := match o with Some _ => true | None => false end.

Lemma is_some_fmap {A B} (f : A -> B) (o : option A) : is_some (f <$> o) = is_some o.
Proof. by destruct o. Qed.

Definition is_ok {A E} (c : result A E) : bool :=
  match c with Ok _ => true | Err _ => false end.

Declare Scope rust_scope.
Delimit Scope rust_scope with rust.
Notation "'let?' x := c 'in' k" := (result_bind c (fun x => k))
  (at level 10, x pattern, c at level 200, k at level 200) : rust_scope.
Global Open Scope rust_scope.

Lemma result_bind_Ok_inv {A B E} (c : result A E) (k : A -> result B E) b :
  (let? x := c in k x) = Ok b -> exists a, c = Ok a /\ k a = Ok b.
Proof. destruct c; naive_solver. Qed.

Lemma is_ok_true {A E} (c : result A E) : is_ok c = true <-> exists a, c = Ok a.
Proof. destruct c; simpl; split; naive_solver. Qed.

(** ** Machine integers

    Every integer is a [Z] kept inside the range of its Rust type.  [usize] is
    64 bits wide. *)
Definition u16_max : Z := 2 ^ 16 - 1.
Definition u32_max : Z := 2 ^ 32 - 1.
Definition u64_max : Z := 2 ^ 64 - 1.
Definition u128_max : Z := 2 ^ 128 - 1.
Definition usize_max : Z := u64_max.

Definition in_width (top n : Z) : Prop := 0 <= n <= top.
Abbreviation is_usize := (in_width usize_max).
Abbreviation is_u64 := (in_width u64_max).
Abbreviation is_u32 := (in_width u32_max).

(** [saturating_add], [saturating_sub] and [saturating_mul] at width [top]. *)
Definition sat_add (top a b : Z) : Z := Z.min (a + b) top.
Definition sat_sub (a b : Z) : Z := Z.max (a - b) 0.
Definition sat_mul (top a b : Z) : Z := Z.min (a * b) top.

Lemma sat_add_width top a b :
  in_width top a -> in_width top b -> in_width top (sat_add top a b).
Proof. unfold in_width, sat_add. lia. Qed.

Lemma sat_sub_width top a b :
  in_width top a -> in_width top b -> in_width top (sat_sub a b).
Proof. unfold in_width, sat_sub. lia. Qed.

Lemma sat_add_exact top a b : a + b <= top -> sat_add top a b = a + b.
Proof. unfold sat_add. lia. Qed.

Lemma sat_sub_exact a b : b <= a -> sat_sub a b = a - b.
Proof. unfold sat_sub. lia. Qed.

(** ** Durations and instants

    A [std::time::Duration] is its number of nanoseconds, at most
    [u64::MAX] seconds and 999_999_999 nanoseconds.  An [Instant] is the number
    of nanoseconds since the origin of the monotonic clock, whose seconds are an
    [i64] on Unix. *)
Definition NANOS_PER_SEC : Z := 1000000000.
Definition NANOS_PER_MILLI : Z := 1000000.

Definition Duration := Z.
Definition Instant := Z.

Definition DURATION_MAX : Duration := u64_max * NANOS_PER_SEC + 999999999.
Definition INSTANT_MAX : Instant := (2 ^ 63 - 1) * NANOS_PER_SEC + 999999999.

Definition is_duration (d : Duration) : Prop := 0 <= d <= DURATION_MAX.

Definition duration_from_secs (s : Z) : Duration := s * NANOS_PER_SEC.
Definition duration_from_millis (ms : Z) : Duration := ms * NANOS_PER_MILLI.
Definition duration_is_zero (d : Duration) : bool := d =? 0.
Definition duration_as_millis (d : Duration) : Z := d / NANOS_PER_MILLI.

(** [Instant::saturating_duration_since]: zero when [earlier] is later. *)
Definition saturating_duration_since (now earlier : Instant) : Duration :=
  Z.max (now - earlier) 0.

(** [Instant::checked_add]. *)
Definition instant_checked_add (t : Instant) (d : Duration) : option Instant :=
  if t + d <=? INSTANT_MAX then Some (t + d) else None.

Lemma saturating_duration_since_nonneg now t : 0 <= saturating_duration_since now t.
Proof. unfold saturating_duration_since. lia. Qed.

(** ** Counting

    The number of elements of a list that satisfy a test. *)
Definition countb {A} (f : A -> bool) (l : list A) : Z := Z.of_nat (length (List.filter f l)).

Lemma countb_nil {A} (f : A -> bool) : countb f [] = 0.
Proof. done. Qed.

Lemma countb_cons {A} (f : A -> bool) x l :
  countb f (x :: l) = (if f x then 1 else 0) + countb f l.
Proof. unfold countb. simpl. destruct (f x); simpl; lia. Qed.

Lemma countb_app {A} (f : A -> bool) l1 l2 : countb f (l1 ++ l2) = countb f l1 + countb f l2.
Proof. unfold countb. rewrite List.filter_app, length_app. lia. Qed.

Lemma countb_nonneg {A} (f : A -> bool) l : 0 <= countb f l.
Proof. unfold countb. lia. Qed.

Lemma countb_zero {A} (f : A -> bool) l : (forall x, x ∈ l -> f x = false) -> countb f l = 0.
Proof.
  induction l as [|x l IH]; intros Hf; [done|]. rewrite countb_cons, (Hf x) by set_solver.
  rewrite IH; [done|]. set_solver.
Qed.

Lemma countb_pos {A} (f : A -> bool) l x : x ∈ l -> f x = true -> 1 <= countb f l.
Proof.
  intros (l1 & l2 & ->)%list_elem_of_split Hf. rewrite countb_app, countb_cons, Hf.
  pose proof (countb_nonneg f l1). pose proof (countb_nonneg f l2). lia.
Qed.

Lemma countb_mono {A} (f g : A -> bool) l :
  (forall x, x ∈ l -> f x = true -> g x = true) -> countb f l <= countb g l.
Proof.
  induction l as [|x l IH]; intros Hf; [done|]. rewrite !countb_cons.
  specialize (IH ltac:(set_solver)). specialize (Hf x ltac:(set_solver)).
  destruct (f x); [rewrite Hf by done|destruct (g x)]; lia.
Qed.

(** ** Transition systems

    A property of the initial state that every step preserves holds of every
    reachable state. *)
Lemma rtc_invariant {S} (R : relation S) (P : S -> Prop) x y :
  P x -> (forall a b, R a b -> P a -> P b) -> rtc R x y -> P y.
Proof. intros Hx Hstep Hr. induction Hr as [|a b c Hab _ IH]; [done|]. eauto. Qed.

(** ** Automation

    [zbool] turns boolean comparisons of the code into propositions, [crush]
    splits every [if] and [match] of the goal and closes what arithmetic and
    congruence close. *)
Create HintDb reqx.
#[export] Hint Resolve sat_add_width sat_sub_width saturating_duration_since_nonneg : reqx.

Ltac zbool :=
  repeat match goal with
  | H : _ && _ = true |- _ => apply andb_true_iff in H; destruct H
  | H : _ || _ = false |- _ => apply orb_false_iff in H; destruct H
  | H : negb _ = true |- _ => apply negb_true_iff in H
  | H : negb _ = false |- _ => apply negb_false_iff in H
  | H : (_ <=? _) = true |- _ => apply Z.leb_le in H
  | H : (_ <=? _) = false |- _ => apply Z.leb_gt in H
  | H : (_ <? _) = true |- _ => apply Z.ltb_lt in H
  | H : (_ <? _) = false |- _ => apply Z.ltb_ge in H
  | H : (_ =? _) = true |- _ => apply Z.eqb_eq in H
  | H : (_ =? _) = false |- _ => apply Z.eqb_neq in H
  end.

Ltac crush :=
  repeat (case_match; simplify_eq/=); zbool; try done; try lia.
