(* ===== verification/Float64.v ===== *)
(** * IEEE 754 binary64

    The [f64] arithmetic of the crate (retry ratios, token counts, smoothed
    latencies), computed bit for bit with the [SpecFloat] reference
    implementation at precision 53 and maximal exponent 1024, rounding to nearest
    even.  This file holds the operations, [Float64Facts] what is proved of them. *)
From Stdlib Require Import ZArith Lia SpecFloat.
From S2P Require Import Prelude.

Definition f64 := spec_float.
Definition f64_prec : Z := 53.
Definition f64_emax : Z := 1024.

Definition f64_add : f64 -> f64 -> f64 := SFadd f64_prec f64_emax.
Definition f64_sub : f64 -> f64 -> f64 := SFsub f64_prec f64_emax.
Definition f64_mul : f64 -> f64 -> f64 := SFmul f64_prec f64_emax.
Definition f64_div : f64 -> f64 -> f64 := SFdiv f64_prec f64_emax.
Definition f64_leb : f64 -> f64 -> bool := SFleb.
Definition f64_ltb : f64 -> f64 -> bool := SFltb.

(** The cast [n as f64] of an integer. *)
Definition f64_of_Z (n : Z) : f64 := binary_normalize f64_prec f64_emax n 0 false.

(** A decimal literal [num/den] with exactly representable numerator and
    denominator: the correctly rounded quotient. *)
Definition f64_lit (num den : Z) : f64 := f64_div (f64_of_Z num) (f64_of_Z den).

Definition f64_zero : f64 := S754_zero false.
Definition f64_one : f64 := f64_of_Z 1.
(** [f64::EPSILON], that is 2^-52. *)
Definition f64_epsilon : f64 := S754_finite false (2 ^ 52)%positive (-104).

Definition f64_is_nan (x : f64) : bool :=
  match x with S754_nan => true | _ => false end.

Definition f64_is_finite (x : f64) : bool :=
  match x with S754_nan | S754_infinity _ => false | _ => true end.

(** [f64::max] and [f64::min]: a NaN operand is ignored. *)
Definition f64_max (x y : f64) : f64 :=
  if f64_is_nan x then y else if f64_is_nan y then x
  else if f64_ltb x y then y else x.

Definition f64_min (x y : f64) : f64 :=
  if f64_is_nan x then y else if f64_is_nan y then x
  else if f64_ltb y x then y else x.

(** [f64::clamp] with [lo <= hi]: a NaN stays a NaN. *)
Definition f64_clamp (x lo hi : f64) : f64 :=
  if f64_ltb x lo then lo else if f64_ltb hi x then hi else x.

(** The integer part below [|x|], the fractional part as a flag, for [x = m * 2^e]. *)
Definition pos_floor (m : positive) (e : Z) : Z :=
  if 0 <=? e then Zpos m * 2 ^ e else Zpos m / 2 ^ (- e).

(** [f64::floor]. *)
Definition f64_floor (x : f64) : f64 :=
  match x with
  | S754_finite s m e =>
    if 0 <=? e then x
    else if s then
      binary_normalize f64_prec f64_emax (Zneg m / 2 ^ (- e)) 0 s
    else binary_normalize f64_prec f64_emax (Zpos m / 2 ^ (- e)) 0 s
  | _ => x
  end.

(** [f64::round]: half-way cases away from zero. *)
Definition f64_round (x : f64) : f64 :=
  match x with
  | S754_finite s m e =>
    if 0 <=? e then x
    else
      let r := (2 * Zpos m + 2 ^ (- e)) / 2 ^ (1 - e) in
      binary_normalize f64_prec f64_emax (if s then - r else r) 0 s
  | _ => x
  end.

(** The saturating cast [x as uN] to an unsigned integer with maximum [top]. *)
Definition f64_to_uint (top : Z) (x : f64) : Z :=
  match x with
  | S754_nan | S754_zero _ => 0
  | S754_infinity s => if s then 0 else top
  | S754_finite s m e => if s then 0 else Z.min (pos_floor m e) top
  end.

(** [Duration::as_secs_f64]. *)
Definition as_secs_f64 (d : Duration) : f64 :=
  f64_add (f64_of_Z (d / NANOS_PER_SEC))
          (f64_div (f64_of_Z (d mod NANOS_PER_SEC)) (f64_of_Z NANOS_PER_SEC)).

(** Nanoseconds nearest to [m * 2^e] seconds, ties to even, the rounding of
    [Duration::from_secs_f64]. *)
Definition nanos_of_finite (m : positive) (e : Z) : Z :=
  if 0 <=? e then Zpos m * 2 ^ e * NANOS_PER_SEC
  else
    let n := Zpos m * NANOS_PER_SEC in
    let q := n / 2 ^ (- e) in
    let r := n mod 2 ^ (- e) in
    if 2 * r <? 2 ^ (- e) then q
    else if 2 ^ (- e) <? 2 * r then q + 1
    else if Z.even q then q else q + 1.

(** [Duration::from_secs_f64] on a finite, non-negative argument in range (the
    panicking cases of the library function are excluded by its only caller). *)
Definition duration_from_secs_f64 (x : f64) : Duration :=
  match x with
  | S754_finite false m e => nanos_of_finite m e
  | _ => 0
  end.
