(* ===== verification/Float64Facts.v ===== *)
(** * Rounding facts on binary64

    What the resilience components rely on: rounding to nearest never passes a
    representable bound, results stay canonical, comparisons agree with the exact
    values, integers up to 2^53 are exact. *)
From Stdlib Require Import ZArith Lia SpecFloat.
From S2P Require Import Prelude Float64.

Abbreviation fe := (fexp f64_prec f64_emax).

Lemma fe_eq e : fe e = Z.max (e - 53) (-1074).
Proof. reflexivity. Qed.

(** ** Digits *)
Lemma digits2_bounds (p : positive) :
  2 ^ (Zpos (digits2_pos p) - 1) <= Zpos p < 2 ^ Zpos (digits2_pos p).
Proof.
  induction p as [p IH|p IH|]; cbn [digits2_pos]; rewrite ?Pos2Z.inj_succ; [| |cbn; lia];
    replace (Z.succ (Zpos (digits2_pos p)) - 1) with (Z.succ (Zpos (digits2_pos p) - 1)) by lia;
    rewrite !Z.pow_succ_r by lia; lia.
Qed.

Lemma Zdigits2_bounds m : 0 < m -> 2 ^ (Zdigits2 m - 1) <= m < 2 ^ Zdigits2 m.
Proof. destruct m as [|p|p]; try lia. intros _. apply digits2_bounds. Qed.

Lemma Zdigits2_pos m : 0 < m -> 1 <= Zdigits2 m.
Proof. destruct m; cbn; lia. Qed.

Lemma Zdigits2_unique m d : 0 < m -> 2 ^ (d - 1) <= m < 2 ^ d -> Zdigits2 m = d.
Proof.
  intros Hm [Hlo Hhi]. pose proof (Zdigits2_bounds m Hm) as [Hl Hh].
  pose proof (Zdigits2_pos m Hm).
  assert (0 <= d) by (destruct (Z.neg_nonneg_cases d); [rewrite Z.pow_neg_r in Hhi by lia; lia|lia]).
  assert (d - 1 < Zdigits2 m) by (apply (Z.pow_lt_mono_r_iff 2); lia).
  assert (Zdigits2 m - 1 < d) by (apply (Z.pow_lt_mono_r_iff 2); lia). lia.
Qed.

Lemma Zdigits2_le_bound m d : 0 < m -> 0 <= d -> m < 2 ^ d -> Zdigits2 m <= d.
Proof.
  intros Hm Hd Hlt. pose proof (Zdigits2_bounds m Hm) as [Hl _].
  assert (Zdigits2 m - 1 < d) by (apply (Z.pow_lt_mono_r_iff 2); lia). lia.
Qed.

(** ** Exact values

    [scaled m e] is [m * 2^e] multiplied by [2^2200], an integer for every
    exponent that occurs (products of two subnormals go down to -2148). *)
Definition scaled (m e : Z) : Z := m * 2 ^ (e + 2200).
#[global] Arguments scaled : simpl never.
#[local] Arguments Z.compare : simpl never.

Lemma scaled_split m e e' : -2200 <= e' <= e -> scaled m e = scaled (m * 2 ^ (e - e')) e'.
Proof.
  intros H. unfold scaled. rewrite <- Z.mul_assoc, <- Z.pow_add_r by lia.
  do 2 f_equal. lia.
Qed.

Lemma scaled_pow_pos e : -2200 <= e -> 0 < 2 ^ (e + 2200).
Proof. intros. apply Z.pow_pos_nonneg; lia. Qed.

Lemma scaled_le_mono m m' e : -2200 <= e -> m <= m' <-> scaled m e <= scaled m' e.
Proof. intros. pose proof (scaled_pow_pos e). unfold scaled. split; nia. Qed.

Lemma scaled_lt_mono m m' e : -2200 <= e -> m < m' <-> scaled m e < scaled m' e.
Proof. intros. pose proof (scaled_pow_pos e). unfold scaled. split; nia. Qed.

Lemma scaled_mag_le m e m' e' :
  0 < m -> 0 < m' -> -2200 <= e -> -2200 <= e' -> scaled m e <= scaled m' e' ->
  Zdigits2 m + e <= Zdigits2 m' + e'.
Proof.
  intros Hm Hm' He He' Hle.
  pose proof (Zdigits2_bounds m Hm) as [Hl _]. pose proof (Zdigits2_bounds m' Hm') as [_ Hh].
  pose proof (Zdigits2_pos m Hm). pose proof (Zdigits2_pos m' Hm').
  assert (2 ^ (Zdigits2 m - 1 + (e + 2200)) < 2 ^ (Zdigits2 m' + (e' + 2200))) as Hlt.
  { rewrite (Z.pow_add_r 2 (Zdigits2 m - 1)), (Z.pow_add_r 2 (Zdigits2 m')) by lia.
    unfold scaled in Hle.
    eapply Z.le_lt_trans; [apply Z.mul_le_mono_nonneg_r, Hl; apply Z.lt_le_incl, scaled_pow_pos, He|].
    eapply Z.le_lt_trans; [exact Hle|]. apply Z.mul_lt_mono_pos_r; [by apply scaled_pow_pos|done]. }
  apply Z.pow_lt_mono_r_iff in Hlt; lia.
Qed.

(** ** Shifting right with a sticky bit *)
Definition shr_inv (inexact : bool) (m0 n : Z) (mrs : shr_record) : Prop :=
  0 <= shr_m mrs /\ 0 <= n /\
  exists rem, m0 = shr_m mrs * 2 ^ n + rem /\ 0 <= rem < 2 ^ n /\
    (shr_r mrs || shr_s mrs = true <-> rem <> 0 \/ inexact = true).

Lemma shr_1_inv x m0 n mrs : shr_inv x m0 n mrs -> shr_inv x m0 (n + 1) (shr_1 mrs).
Proof.
  destruct mrs as [m r s]; unfold shr_inv; cbn [shr_m shr_r shr_s].
  intros (Hm & Hn & rem & -> & Hrem & Hrs).
  assert (2 ^ (n + 1) = 2 * 2 ^ n) as Hp by (rewrite Z.pow_add_r by lia; lia).
  assert (0 < 2 ^ n) by (apply Z.pow_pos_nonneg; lia).
  destruct m as [|[p|p|]|p]; cbn [shr_1 shr_m shr_r shr_s]; try lia.
  all: split; [lia|split; [lia|]].
  1: exists rem. 2: exists (2 ^ n + rem). 3: exists rem. 4: exists (2 ^ n + rem).
  all: rewrite Hp; split; [lia|split; [lia|]].
  all: destruct r, s; cbn in *; intuition (try lia; try discriminate).
Qed.

Lemma iter_shr_1_inv x m0 p n mrs :
  shr_inv x m0 n mrs -> shr_inv x m0 (n + Zpos p) (SpecFloat.iter_pos shr_1 p mrs).
Proof.
  revert n mrs. induction p as [p IH|p IH|]; intros n mrs H; cbn [SpecFloat.iter_pos].
  - replace (n + Zpos p~1) with (n + 1 + Zpos p + Zpos p) by lia. auto using shr_1_inv.
  - replace (n + Zpos p~0) with (n + Zpos p + Zpos p) by lia. auto.
  - auto using shr_1_inv.
Qed.

Definition inexact_loc (l : location) : bool :=
  match l with loc_Exact => false | loc_Inexact _ => true end.

Lemma shr_loc_inv m e k l : 0 <= m ->
  let (mrs, e') := shr (shr_record_of_loc m l) e k in
  e' = e + Z.max k 0 /\ shr_inv (inexact_loc l) m (Z.max k 0) mrs.
Proof.
  intros Hm.
  assert (shr_inv (inexact_loc l) m 0 (shr_record_of_loc m l)) as H0.
  { destruct l as [|[]]; (split; [done|split; [lia|]]; exists 0; cbn);
      intuition (try lia; try discriminate). }
  destruct k as [|p|p]; cbn [shr].
  - split; [lia|]. exact H0.
  - split; [lia|]. replace (Z.max (Zpos p) 0) with (0 + Zpos p) by lia.
    by apply iter_shr_1_inv.
  - split; [lia|]. exact H0.
Qed.

(** ** Rounding to nearest *)
Definition canonical (m e : Z) : Prop := 0 < m /\ fe (Zdigits2 m + e) = e.

Lemma canonical_exp m e : canonical m e -> -1074 <= e.
Proof. intros [_ H]. rewrite fe_eq in H. lia. Qed.

Lemma canonical_bound m e : canonical m e -> m < 2 ^ 53.
Proof.
  intros [Hm H]. rewrite fe_eq in H. pose proof (Zdigits2_bounds m Hm) as [_ Hh].
  eapply Z.lt_le_trans; [exact Hh|]. apply Z.pow_le_mono_r; lia.
Qed.

Lemma canonical_normal m e : canonical m e -> -1074 < e -> 2 ^ 52 <= m.
Proof.
  intros [Hm H] He. rewrite fe_eq in H. pose proof (Zdigits2_bounds m Hm) as [Hl _].
  replace (Zdigits2 m - 1) with 52 in Hl by lia. done.
Qed.

Lemma canonical_intro m e :
  0 < m < 2 ^ 53 -> -1074 <= e -> (-1074 < e -> 2 ^ 52 <= m) -> canonical m e.
Proof.
  intros [Hm Hlt] He Hn. split; [done|]. rewrite fe_eq.
  pose proof (Zdigits2_le_bound m 53 Hm). 
  destruct (decide (-1074 < e)) as [Hgt|]; [|lia].
  rewrite (Zdigits2_unique m 53); [lia|done|]. specialize (Hn Hgt). lia.
Qed.

Lemma round_nearest_even_cases mrs :
  let m1 := shr_m mrs in
  let m2 := round_nearest_even m1 (loc_of_shr_record mrs) in
  m2 = m1 \/ m2 = m1 + 1 /\ shr_r mrs || shr_s mrs = true.
Proof.
  destruct mrs as [m [] []]; cbn; auto. destruct (Z.even m); auto.
Qed.

(** Truncating a mantissa does not pass below a canonical number. *)
Lemma canonical_below_truncated m e m1 e1 mB eB :
  -2200 <= e <= e1 -> -1074 <= e1 -> 0 <= m1 -> m < (m1 + 1) * 2 ^ (e1 - e) -> (-1074 < e1 -> 2 ^ 52 <= m1) ->
  canonical mB eB -> scaled mB eB <= scaled m e -> scaled mB eB <= scaled m1 e1.
Proof.
  intros He He1 Hm1 Hm Hnorm HB Hle. assert (-1074 <= eB) by (by apply (canonical_exp mB)).
  destruct (Z.le_gt_cases e1 eB) as [Hee|Hee].
  - rewrite (scaled_split mB eB e1) in * by lia. apply scaled_le_mono; [lia|].
    cut (mB * 2 ^ (eB - e1) < m1 + 1); [lia|]. apply (scaled_lt_mono _ _ e1); [lia|].
    eapply Z.le_lt_trans; [exact Hle|]. rewrite (scaled_split (m1 + 1) e1 e) by lia.
    apply scaled_lt_mono; lia.
  - pose proof (canonical_bound _ _ HB). rewrite (scaled_split m1 e1 eB) by lia.
    apply scaled_le_mono; [lia|].
    assert (2 ^ 1 <= 2 ^ (e1 - eB)) by (apply Z.pow_le_mono_r; lia).
    assert (2 ^ 53 = 2 ^ 52 * 2 ^ 1) by reflexivity. nia.
Qed.

Lemma round_mantissa m e l mrs e1 :
  0 <= m -> -2200 <= e <= fe (Zdigits2 m + e) ->
  shr_fexp f64_prec f64_emax m e l = (mrs, e1) ->
  let m2 := round_nearest_even (shr_m mrs) (loc_of_shr_record mrs) in
  -1074 <= e1 /\ 0 <= m2 <= 2 ^ 53 /\ (-1074 < e1 -> 2 ^ 52 <= m2) /\
  (forall mB eB, l = loc_Exact -> 0 < m -> canonical mB eB -> scaled m e <= scaled mB eB ->
    scaled m2 e1 <= scaled mB eB) /\
  forall mB eB, 0 < m -> canonical mB eB -> scaled mB eB <= scaled m e ->
    scaled mB eB <= scaled m2 e1.
Proof.
  intros Hm He Hshr m2. unfold shr_fexp in Hshr.
  pose proof (shr_loc_inv m e (fe (Zdigits2 m + e) - e) l) as Hs.
  rewrite Hshr in Hs. destruct Hs as [He1 (Hm1 & Hk & rem & Hdec & Hrem & Hrs)]; [lia|].
  assert (e1 = fe (Zdigits2 m + e)) as He1' by lia.
  replace (Z.max (fe (Zdigits2 m + e) - e) 0) with (e1 - e) in * by lia. clear He1.
  assert (m < 2 ^ Zdigits2 m /\ 0 <= Zdigits2 m /\
          (m = 0 /\ Zdigits2 m = 0 \/ 2 ^ (Zdigits2 m - 1) <= m)) as (Hhi & Hd0 & Hlo).
  { destruct (decide (m = 0)) as [->|]; [cbn; lia|].
    pose proof (Zdigits2_bounds m). pose proof (Zdigits2_pos m). lia. }
  set (m1 := shr_m mrs) in *. set (k := e1 - e) in *.
  assert (0 < 2 ^ k) by (apply Z.pow_pos_nonneg; lia).
  rewrite fe_eq in He1'.
  assert (m1 < 2 ^ 53) as Hm1hi.
  { assert (m1 * 2 ^ k < 2 ^ 53 * 2 ^ k); [|nia].
    rewrite <- Z.pow_add_r by lia. eapply Z.le_lt_trans; [|eapply Z.lt_le_trans; [exact Hhi|]]; [lia|].
    apply Z.pow_le_mono_r; lia. }
  assert (-1074 < e1 -> 2 ^ 52 <= m1) as Hm1lo.
  { intros Hn. assert (2 ^ 52 * 2 ^ k < (m1 + 1) * 2 ^ k); [|nia].
    rewrite <- Z.pow_add_r by lia. replace (52 + k) with (Zdigits2 m - 1) by lia. lia. }
  assert (m2 = m1 \/ m2 = m1 + 1 /\ (l = loc_Exact -> 0 < rem)) as Hm2.
  { destruct (round_nearest_even_cases mrs) as [Hc|[Hc Hf]]; [by left|right].
    split; [exact Hc|]. intros ->. apply Hrs in Hf as [|]; [lia|done]. }
  split; [lia|]. split; [lia|]. split; [lia|].
  assert (scaled m1 e1 = scaled (m1 * 2 ^ k) e) as Hm1e by (apply scaled_split; lia).
  split; intros mB eB; [intros Hl Hmpos HB Hle|intros Hmpos HB Hle]; last first.
  { apply Z.le_trans with (scaled m1 e1); [|apply scaled_le_mono; lia].
    apply (canonical_below_truncated m e); [lia|lia|lia|fold k; lia|done|done|done]. }
  destruct HB as [HmB HeB].
  assert (-1074 <= eB) by (apply (canonical_exp mB); split; auto).
  assert (e1 <= eB) as Hee.
  { pose proof (scaled_mag_le m e mB eB Hmpos HmB). rewrite fe_eq in HeB. lia. }
  rewrite (scaled_split mB eB e1) by lia. apply scaled_le_mono; [lia|].
  rewrite (scaled_split mB eB e1) in Hle by lia.
  destruct Hm2 as [->|[-> Hpos%(fun H => H Hl)]].
  - apply (scaled_le_mono _ _ e1); [lia|]. rewrite Hm1e.
    etransitivity; [|exact Hle]. apply scaled_le_mono; lia.
  - cut (m1 < mB * 2 ^ (eB - e1)); [lia|]. apply (scaled_lt_mono _ _ e1); [lia|].
    rewrite Hm1e. eapply Z.lt_le_trans; [|exact Hle]. apply scaled_lt_mono; lia.
Qed.

Definition rounded_ok (s : bool) (m e : Z) (x : f64) : Prop :=
  match x with
  | S754_zero s' => s' = s /\ forall mB eB, canonical mB eB -> ~ scaled mB eB <= scaled m e
  | S754_infinity s' =>
    s' = s /\ forall mB eB, canonical mB eB -> eB <= 971 -> ~ scaled m e <= scaled mB eB
  | S754_finite s' p e' =>
    s' = s /\ canonical (Zpos p) e' /\ e' <= 971 /\
    (forall mB eB, canonical mB eB -> scaled m e <= scaled mB eB -> scaled (Zpos p) e' <= scaled mB eB) /\
    forall mB eB, canonical mB eB -> scaled mB eB <= scaled m e -> scaled mB eB <= scaled (Zpos p) e'
  | S754_nan => False
  end.

Lemma shr_fexp_canonical m e :
  canonical m e -> shr_fexp f64_prec f64_emax m e loc_Exact = (shr_record_of_loc m loc_Exact, e).
Proof. intros [Hm H]. unfold shr_fexp. rewrite H, Z.sub_diag. reflexivity. Qed.

Lemma shr_fexp_carry e :
  -1074 <= e ->
  shr_fexp f64_prec f64_emax (2 ^ 53) e loc_Exact = (shr_record_of_loc (2 ^ 52) loc_Exact, e + 1).
Proof.
  intros He. unfold shr_fexp. change (Zdigits2 (2 ^ 53)) with 54.
  replace (fe (54 + e) - e) with 1 by (rewrite fe_eq; lia). reflexivity.
Qed.

Lemma shr_fexp_zero e :
  -1074 <= e -> shr_fexp f64_prec f64_emax 0 e loc_Exact = (shr_record_of_loc 0 loc_Exact, e).
Proof.
  intros He. unfold shr_fexp. change (Zdigits2 0) with 0.
  assert (fe (0 + e) - e <= 0) by (rewrite fe_eq; lia).
  destruct (fe (0 + e) - e); [done|lia|done].
Qed.

(** The second normalisation of [binary_round_aux], after a mantissa of at most
    2^53: the value is kept, a carry moves the exponent up by one. *)
Definition round_finish (s : bool) (m2 e1 : Z) : f64 :=
  let '(mrs, e2) := shr_fexp f64_prec f64_emax m2 e1 loc_Exact in
  match shr_m mrs with
  | Z0 => S754_zero s
  | Zpos m => if e2 <=? f64_emax - f64_prec then S754_finite s m e2 else S754_infinity s
  | _ => S754_nan
  end.

Lemma round_finish_spec s m2 e1 :
  -1074 <= e1 -> 0 <= m2 <= 2 ^ 53 -> (-1074 < e1 -> 2 ^ 52 <= m2) ->
  m2 = 0 /\ round_finish s m2 e1 = S754_zero s \/
  exists p e2, canonical (Zpos p) e2 /\ scaled (Zpos p) e2 = scaled m2 e1 /\
    round_finish s m2 e1 = if e2 <=? 971 then S754_finite s p e2 else S754_infinity s.
Proof.
  intros He1 Hm2 Hn. unfold round_finish. change (f64_emax - f64_prec) with 971.
  destruct (decide (m2 = 0)) as [->|Hnz]; [left; by rewrite shr_fexp_zero|right].
  destruct (decide (m2 = 2 ^ 53)) as [->|Hc].
  - exists (2 ^ 52)%positive, (e1 + 1). rewrite shr_fexp_carry by done.
    split; [apply (canonical_intro (2 ^ 52)); lia|]. split; [|done].
    rewrite (scaled_split _ _ e1) by lia. by replace (e1 + 1 - e1) with 1 by lia.
  - assert (canonical m2 e1) as Hcan by (apply canonical_intro; lia).
    rewrite shr_fexp_canonical by done. cbn [shr_record_of_loc shr_m].
    destruct m2 as [|p|p]; [done| |lia]. by exists p, e1.
Qed.

(** Rounding to nearest even: the result is canonical, keeps the sign, and stays
    below every representable value above the exact one. *)
Lemma binary_round_aux_ok s m e :
  0 < m -> -2200 <= e <= fe (Zdigits2 m + e) ->
  rounded_ok s m e (binary_round_aux f64_prec f64_emax s m e loc_Exact).
Proof.
  intros Hm He. unfold binary_round_aux.
  destruct (shr_fexp f64_prec f64_emax m e loc_Exact) as [mrs e1] eqn:Hshr.
  destruct (round_mantissa m e loc_Exact mrs e1 ltac:(lia) He Hshr) as (He1 & Hm2 & Hn & HB & HA).
  set (m2 := round_nearest_even (shr_m mrs) (loc_of_shr_record mrs)) in *.
  change (rounded_ok s m e (round_finish s m2 e1)).
  destruct (round_finish_spec s m2 e1 He1 Hm2 Hn) as [[H0 ->]|(p & e2 & Hc & Hv & ->)].
  { split; [done|]. intros mB eB Hb Hle. pose proof (HA mB eB Hm Hb Hle) as Hz.
    rewrite H0 in Hz. pose proof (canonical_exp _ _ Hb). destruct Hb as [Hb _].
    pose proof (scaled_pow_pos eB). unfold scaled in Hz. nia. }
  destruct (Z.leb_spec e2 971); (split; [done|]).
  - split; [exact Hc|]. split; [done|]. split; intros; rewrite Hv; auto.
  - intros mB eB Hb Hlim Hle. pose proof (HB mB eB eq_refl Hm Hb Hle) as Hsc. rewrite <- Hv in Hsc.
    pose proof (canonical_exp _ _ Hb). pose proof (canonical_exp _ _ Hc).
    apply scaled_mag_le in Hsc; [|apply Hc|apply Hb|lia|lia].
    destruct Hc as [_ Hc], Hb as [? Hb]. rewrite fe_eq in Hc, Hb. lia.
Qed.

(** Whatever was lost before rounding, the result is canonical and keeps its sign. *)
Lemma binary_round_aux_sign s m e l :
  0 <= m -> -2200 <= e <= fe (Zdigits2 m + e) ->
  binary_round_aux f64_prec f64_emax s m e l = S754_zero s \/
  binary_round_aux f64_prec f64_emax s m e l = S754_infinity s \/
  exists p e', binary_round_aux f64_prec f64_emax s m e l = S754_finite s p e' /\
    canonical (Zpos p) e' /\ e' <= 971.
Proof.
  intros Hm He. unfold binary_round_aux.
  destruct (shr_fexp f64_prec f64_emax m e l) as [mrs e1] eqn:Hshr.
  destruct (round_mantissa m e l mrs e1 Hm He Hshr) as (He1 & Hm2 & Hn & _).
  set (m2 := round_nearest_even (shr_m mrs) (loc_of_shr_record mrs)) in *.
  change (let '(mrs'', e'') := shr_fexp f64_prec f64_emax m2 e1 loc_Exact in
          match shr_m mrs'' with Z0 => S754_zero s
          | Zpos m => if e'' <=? f64_emax - f64_prec then S754_finite s m e'' else S754_infinity s
          | _ => S754_nan end) with (round_finish s m2 e1).
  destruct (round_finish_spec s m2 e1 He1 Hm2 Hn) as [[_ ->]|(p & e2 & Hc & Hv & ->)]; [by left|right].
  destruct (Z.leb_spec e2 971); [right|by left]. by exists p, e2.
Qed.

(** ** Exact results *)
Lemma binary_round_aux_exact s m e :
  canonical m e -> e <= 971 ->
  binary_round_aux f64_prec f64_emax s m e loc_Exact =
  S754_finite s (Z.to_pos m) e.
Proof.
  intros Hc He. unfold binary_round_aux. rewrite shr_fexp_canonical by done.
  cbn [shr_record_of_loc shr_m loc_of_shr_record round_nearest_even].
  rewrite shr_fexp_canonical by done. cbn [shr_record_of_loc shr_m].
  change (f64_emax - f64_prec) with 971.
  destruct Hc as [Hm _]. destruct m as [|p|p]; [lia| |lia].
  rewrite (proj2 (Z.leb_le _ _) He). done.
Qed.

Lemma iter_xO (p d : positive) : Zpos (Pos.iter xO p d) = Zpos p * 2 ^ Zpos d.
Proof.
  induction d as [|d IH] using Pos.peano_ind; [cbn; lia|].
  rewrite Pos.iter_succ, Pos2Z.inj_xO, IH, Pos2Z.inj_succ, Z.pow_succ_r by lia. lia.
Qed.

Lemma shl_align_spec m e e' :
  let (mz, ez) := shl_align m e e' in
  ez = Z.min e e' /\ Zpos mz = Zpos m * 2 ^ (e - ez).
Proof.
  unfold shl_align. destruct (e' - e) eqn:H.
  - replace (Z.min e e') with e by lia. rewrite Z.sub_diag. split; [done|lia].
  - replace (Z.min e e') with e by lia. rewrite Z.sub_diag. split; [done|lia].
  - split; [lia|]. rewrite iter_xO. do 2 f_equal. lia.
Qed.

Lemma Zdigits2_shift m k : 0 < m -> 0 <= k -> Zdigits2 (m * 2 ^ k) = Zdigits2 m + k.
Proof.
  intros Hm Hk. pose proof (Zdigits2_bounds m Hm) as [Hl Hh]. pose proof (Zdigits2_pos m Hm).
  assert (0 < 2 ^ k) by (apply Z.pow_pos_nonneg; lia).
  apply Zdigits2_unique; [nia|]. replace (Zdigits2 m + k - 1) with (Zdigits2 m - 1 + k) by lia.
  rewrite !Z.pow_add_r by lia. nia.
Qed.

Lemma binary_round_align s p e :
  -1074 <= e ->
  exists m' e', binary_round f64_prec f64_emax s p e =
      binary_round_aux f64_prec f64_emax s m' e' loc_Exact /\
    0 < m' /\ -1074 <= e' <= fe (Zdigits2 m' + e') /\ e' <= e /\ scaled m' e' = scaled (Zpos p) e /\
    fe (Zdigits2 m' + e') = fe (Zdigits2 (Zpos p) + e) /\ e' = Z.min e (fe (Zdigits2 m' + e')).
Proof.
  intros He. unfold binary_round. change (Zpos (digits2_pos p)) with (Zdigits2 (Zpos p)).
  pose proof (shl_align_spec p e (fe (Zdigits2 (Zpos p) + e))) as Ha.
  destruct (shl_align p e (fe (Zdigits2 (Zpos p) + e))) as [mz ez]. destruct Ha as [Hez Hmz].
  assert (Zdigits2 (Zpos mz) + ez = Zdigits2 (Zpos p) + e) as Hd
    by (rewrite Hmz, Zdigits2_shift by lia; lia).
  exists (Zpos mz), ez. rewrite Hd. rewrite !fe_eq in *.
  split_and!; try done; try lia.
  rewrite (scaled_split (Zpos p) e ez) by lia. by rewrite Hmz.
Qed.

Lemma binary_round_ok s p e :
  -1074 <= e -> rounded_ok s (Zpos p) e (binary_round f64_prec f64_emax s p e).
Proof.
  intros He. destruct (binary_round_align s p e He) as (m' & e' & -> & Hm & He' & _ & Hv & _).
  assert (rounded_ok s m' e' (binary_round_aux f64_prec f64_emax s m' e' loc_Exact)) as H
    by (apply binary_round_aux_ok; lia).
  unfold rounded_ok in *. destruct (binary_round_aux _ _ _ _ _ _); by rewrite ?Hv in H.
Qed.

(** A value of at most 53 significant bits is not rounded. *)
Lemma binary_round_exact s p e :
  Zpos p < 2 ^ 53 -> -1074 <= e <= 971 ->
  exists p' e', binary_round f64_prec f64_emax s p e = S754_finite s p' e' /\
    canonical (Zpos p') e' /\ e' <= e /\ scaled (Zpos p') e' = scaled (Zpos p) e.
Proof.
  intros Hp He. destruct (binary_round_align s p e) as (m' & e' & -> & Hm & He' & Hle & Hv & Hf & Hmin);
    [lia|].
  pose proof (Zdigits2_le_bound (Zpos p) 53).
  assert (canonical m' e') as Hc by (split; [done|]; rewrite !fe_eq in *; lia).
  rewrite binary_round_aux_exact by (done || lia).
  exists (Z.to_pos m'), e'. rewrite Z2Pos.id by done. done.
Qed.

(** ** Non-negative floats

    [nonneg x]: [x] is a canonical float, zero, positive or +inf; [fin x] adds that
    it is finite.  [val] is the exact value of a finite one, scaled by [2^2200]. *)
Definition nonneg (x : f64) : Prop :=
  match x with
  | S754_zero _ => True
  | S754_infinity s => s = false
  | S754_finite s m e => s = false /\ canonical (Zpos m) e /\ e <= 971
  | S754_nan => False
  end.

Definition fin (x : f64) : Prop := nonneg x /\ f64_is_finite x = true.

Definition val (x : f64) : Z :=
  match x with S754_finite _ m e => scaled (Zpos m) e | _ => 0 end.

Lemma scaled_pos m e : 0 < m -> -2200 <= e -> 0 < scaled m e.
Proof. intros. pose proof (scaled_pow_pos e). unfold scaled. nia. Qed.

Lemma val_nonneg x : fin x -> 0 <= val x.
Proof.
  destruct x; unfold fin; simpl; try lia. intros [(_ & Hc & _) _].
  pose proof (canonical_exp _ _ Hc). apply Z.lt_le_incl, scaled_pos; lia.
Qed.

Lemma canonical_lt_exp m e m' e' :
  canonical m e -> canonical m' e' -> e < e' -> scaled m e < scaled m' e'.
Proof.
  intros Hc Hc' He. pose proof (canonical_exp _ _ Hc).
  pose proof (canonical_bound _ _ Hc). pose proof (canonical_normal _ _ Hc' ltac:(lia)).
  rewrite (scaled_split m' e' e) by lia. apply scaled_lt_mono; [lia|].
  assert (2 ^ 1 <= 2 ^ (e' - e)) by (apply Z.pow_le_mono_r; lia).
  assert (2 ^ 53 = 2 ^ 52 * 2 ^ 1) by reflexivity. nia.
Qed.

(** The comparison of canonical floats is the comparison of their values. *)
Lemma SFcompare_val x y : fin x -> fin y -> SFcompare x y = Some (val x ?= val y).
Proof.
  intros [Hx Hfx] [Hy Hfy]. destruct x as [| | |s m e], y as [| | |s' m' e']; try done; simpl in *.
  - destruct Hy as (-> & Hc & _). pose proof (canonical_exp _ _ Hc).
    pose proof (scaled_pos (Zpos m') e'). f_equal. symmetry. apply Z.compare_lt_iff. lia.
  - destruct Hx as (-> & Hc & _). pose proof (canonical_exp _ _ Hc).
    pose proof (scaled_pos (Zpos m) e). f_equal. symmetry. apply Z.compare_gt_iff. lia.
  - destruct Hx as (-> & Hc & _), Hy as (-> & Hc' & _). f_equal.
    pose proof (canonical_exp _ _ Hc).
    destruct (Z.compare_spec e e') as [->|Hlt|Hgt].
    + change (Pos.compare_cont Eq m m') with (Zpos m ?= Zpos m').
      unfold scaled. rewrite <- Zmult_compare_compat_r; [done|].
      apply Z.lt_gt, scaled_pow_pos. lia.
    + symmetry. apply Z.compare_lt_iff. by apply canonical_lt_exp.
    + symmetry. apply Z.compare_gt_iff. by apply canonical_lt_exp.
Qed.

Lemma f64_leb_val x y : fin x -> fin y -> f64_leb x y = (val x <=? val y).
Proof.
  intros Hx Hy. unfold f64_leb, SFleb. rewrite SFcompare_val by done.
  unfold Z.leb. by destruct (val x ?= val y).
Qed.

Lemma f64_ltb_val x y : fin x -> fin y -> f64_ltb x y = (val x <? val y).
Proof.
  intros Hx Hy. unfold f64_ltb, SFltb. rewrite SFcompare_val by done.
  unfold Z.ltb. by destruct (val x ?= val y).
Qed.

Lemma rounded_nonneg m e x : rounded_ok false m e x -> nonneg x.
Proof. destruct x; simpl; try done; naive_solver. Qed.

(** Rounding the exact value [m * 2^e] stays below a finite [b] above it. *)
Lemma rounded_le m e x b :
  0 < m -> -2200 <= e -> rounded_ok false m e x -> fin b -> scaled m e <= val b ->
  fin x /\ val x <= val b.
Proof.
  intros Hm He Hr [Hb Hfb] Hle. pose proof (scaled_pos m e Hm He).
  assert (exists p q, b = S754_finite false p q /\ canonical (Zpos p) q /\ q <= 971) as (p & q & -> & Hc & Hq).
  { destruct b as [| | |s p q]; simpl in *; try lia; try done. naive_solver. }
  destruct x as [| | |s p' q']; simpl in *; try done.
  - split; [done|]. lia.
  - destruct Hr as [_ Hr]. by destruct (Hr _ _ Hc Hq).
  - destruct Hr as (-> & Hc' & Hq' & Hr & _). split; [done|]. by apply Hr.
Qed.

(** ** Integers *)
Lemma f64_of_Z_exact n :
  0 <= n < 2 ^ 53 -> fin (f64_of_Z n) /\ val (f64_of_Z n) = scaled n 0 /\
  forall top, 0 <= top -> f64_to_uint top (f64_of_Z n) = Z.min n top.
Proof.
  intros [Hn Hlt]. destruct n as [|p|p]; [|..]; [|clear Hn|lia].
  { split; [done|]. split; [done|]. intros top Ht. cbn. lia. }
  unfold f64_of_Z, binary_normalize.
  destruct (binary_round_exact false p 0) as (p' & e' & -> & Hc & He & Hv); [done|lia|].
  pose proof (canonical_exp _ _ Hc).
  split; [split; [|done]; simpl; split_and!; try done; lia|]. split; [done|].
  intros top Ht.
  assert (pos_floor p' e' = Zpos p) as Hf; [|cbn; rewrite Hf; lia].
  rewrite (scaled_split (Zpos p) 0 e') in Hv by lia.
  unfold scaled in Hv. apply Z.mul_reg_r in Hv; [|pose proof (scaled_pow_pos e'); lia].
  unfold pos_floor. destruct (Z.leb_spec 0 e').
  - replace e' with 0 in * by lia. rewrite Hv. cbn. lia.
  - rewrite Hv. replace (0 - e') with (- e') by lia. apply Z.div_mul, Z.pow_nonzero; lia.
Qed.

Lemma f64_of_Z_nonneg n : 0 <= n -> nonneg (f64_of_Z n).
Proof.
  intros Hn. unfold f64_of_Z. destruct n as [|p|p]; [done| |lia]. cbn [binary_normalize].
  eapply rounded_nonneg, binary_round_ok. lia.
Qed.

(** ** Sums, products and quotients of non-negative floats *)
Lemma binary_normalize_nonneg m e b : 0 <= m -> -1074 <= e -> nonneg (binary_normalize f64_prec f64_emax m e b).
Proof.
  intros Hm He. destruct m as [|p|p]; [done| |lia]. cbn [binary_normalize].
  by eapply rounded_nonneg, binary_round_ok.
Qed.

Lemma f64_add_nonneg x y : nonneg x -> nonneg y -> nonneg (f64_add x y).
Proof.
  intros Hx Hy. destruct x as [s|s| |s m e], y as [s'|s'| |s' m' e']; simpl in *; subst; try done.
  - by destruct s, s'.
  - destruct Hx as (-> & Hc & _), Hy as (-> & Hc' & _).
    pose proof (canonical_exp _ _ Hc). pose proof (canonical_exp _ _ Hc').
    apply binary_normalize_nonneg; [simpl; lia|lia].
Qed.

Lemma canonical_product_exp m e m' e' :
  canonical m e -> canonical m' e' -> e + e' <= fe (Zdigits2 (m * m') + (e + e')).
Proof.
  intros [Hm Hc] [Hm' Hc'].
  pose proof (Zdigits2_bounds m Hm) as [Hl _]. pose proof (Zdigits2_bounds m' Hm') as [Hl' _].
  pose proof (Zdigits2_pos m Hm). pose proof (Zdigits2_pos m' Hm').
  assert (0 < m * m') as Hp by nia. pose proof (Zdigits2_bounds _ Hp) as [_ Hh].
  assert (Zdigits2 m - 1 + (Zdigits2 m' - 1) < Zdigits2 (m * m')) as Hd.
  { apply (Z.pow_lt_mono_r_iff 2); [lia|pose proof (Zdigits2_pos _ Hp); lia|].
    rewrite Z.pow_add_r by lia. eapply Z.le_lt_trans; [|exact Hh].
    apply Z.mul_le_mono_nonneg; auto; apply Z.pow_nonneg; lia. }
  rewrite fe_eq in *. lia.
Qed.

Lemma f64_mul_nonneg x y : fin x -> fin y -> nonneg (f64_mul x y).
Proof.
  intros [Hx Hfx] [Hy Hfy]. destruct x as [s|s| |s m e], y as [s'|s'| |s' m' e']; try done.
  destruct Hx as (-> & Hc & _), Hy as (-> & Hc' & _). cbn [f64_mul SFmul xorb].
  unfold f64_mul, SFmul. eapply rounded_nonneg, binary_round_aux_ok; [lia|].
  pose proof (canonical_product_exp _ _ _ _ Hc Hc'). rewrite Pos2Z.inj_mul.
  pose proof (canonical_exp _ _ Hc). pose proof (canonical_exp _ _ Hc'). lia.
Qed.

Lemma f64_mul_nonneg_inf x y : fin x -> 0 < val x -> nonneg y -> nonneg (f64_mul y x).
Proof.
  intros Hx Hpos Hy. destruct (f64_is_finite y) eqn:Hf; [by apply f64_mul_nonneg|].
  destruct y; try done. simpl in Hy. subst.
  destruct Hx as [Hx _]. destruct x; try done. by destruct Hx as (-> & _).
Qed.

(** A factor of at most one never increases a float. *)
Lemma f64_mul_le x r :
  fin x -> fin r -> val r <= scaled 1 0 -> fin (f64_mul x r) /\ val (f64_mul x r) <= val x.
Proof.
  intros Hx Hr Hle. pose proof (val_nonneg x Hx) as Hvx.
  destruct Hx as [Hx Hfx], Hr as [Hr Hfr].
  destruct x as [s|s| |s m e], r as [s'|s'| |s' m' e']; try done.
  destruct Hx as (-> & Hc & He), Hr as (-> & Hc' & He'). cbn [val] in *.
  pose proof (canonical_exp _ _ Hc). pose proof (canonical_exp _ _ Hc').
  pose proof (canonical_product_exp _ _ _ _ Hc Hc') as Hpe.
  unfold f64_mul, SFmul. cbn [xorb].
  apply (rounded_le (Zpos (m * m')) (e + e') _ (S754_finite false m e)); [lia|lia| |done|].
  - apply binary_round_aux_ok; [lia|]. rewrite Pos2Z.inj_mul. lia.
  - cbn [val]. rewrite Pos2Z.inj_mul. unfold scaled in *.
    pose proof (scaled_pow_pos (e + e') ltac:(lia)).
    assert (Zpos m' * 2 ^ (e' + 1100) <= 2 ^ 1100) as Hm'.
    { assert (Zpos m' * 2 ^ (e' + 1100) * 2 ^ 1100 <= 2 ^ 1100 * 2 ^ 1100); [|nia].
      rewrite <- Z.mul_assoc, <- !Z.pow_add_r by lia.
      replace (e' + 1100 + 1100) with (e' + 2200) by lia. done. }
    replace (e + e' + 2200) with (e + 1100 + (e' + 1100)) by lia.
    replace (e + 2200) with (e + 1100 + 1100) by lia.
    rewrite !Z.pow_add_r with (b := e + 1100) by lia.
    assert (0 < 2 ^ (e + 1100)) by (apply Z.pow_pos_nonneg; lia). nia.
Qed.

Lemma canonical_div_exp m e m' e' :
  canonical m e -> canonical m' e' -> e <= 971 -> e' <= 971 ->
  let '(q, ez, l) := SFdiv_core_binary f64_prec f64_emax m e m' e' in
  0 <= q /\ -2200 <= ez <= fe (Zdigits2 q + ez).
Proof.
  intros [Hm Hc] [Hm' Hc'] He He'. unfold SFdiv_core_binary.
  pose proof (canonical_exp m e ltac:(split; auto)). pose proof (canonical_exp m' e' ltac:(split; auto)).
  pose proof (Zdigits2_pos m Hm) as Hdm. pose proof (Zdigits2_pos m' Hm') as Hdm'.
  rewrite !fe_eq in *.
  set (ez := Z.min _ _). set (s := e - e' - ez).
  assert (0 <= s) as Hs by lia.
  assert (match s with Z0 => m | Zpos _ => Z.shiftl m s | Zneg _ => 0 end = m * 2 ^ s) as ->.
  { destruct s; [by rewrite Z.pow_0_r, Z.mul_1_r|by rewrite Z.shiftl_mul_pow2|lia]. }
  pose proof (Z.div_eucl_eq (m * 2 ^ s) m' ltac:(lia)) as Heq.
  pose proof (Z.mod_pos_bound (m * 2 ^ s) m' Hm') as Hr.
  assert (0 < 2 ^ s) by (apply Z.pow_pos_nonneg; lia).
  assert (0 <= m * 2 ^ s / m') as Hq by (apply Z.div_pos; nia).
  unfold Z.modulo, Z.div in Hr, Hq. destruct (Z.div_eucl (m * 2 ^ s) m') as [q r].
  split; [done|].
  assert (Zdigits2 m + s - Zdigits2 m' <= Zdigits2 q) as Hd.
  { pose proof (Zdigits2_bounds m Hm) as [Hl _]. pose proof (Zdigits2_bounds m' Hm') as [_ Hh'].
    destruct (Z.le_gt_cases (Zdigits2 m + s - Zdigits2 m') 0) as [|Hpos];
      [destruct q; simpl; lia|].
    assert (2 ^ (Zdigits2 m + s - Zdigits2 m' - 1) <= q) as Hqlo.
    { apply Z.lt_succ_r, (Z.mul_lt_mono_pos_l m'); [done|].
      apply Z.le_lt_trans with (m * 2 ^ s); [|lia].
      apply Z.le_trans with (2 ^ (Zdigits2 m - 1) * 2 ^ s); [|nia].
      apply Z.le_trans with (2 ^ Zdigits2 m' * 2 ^ (Zdigits2 m + s - Zdigits2 m' - 1)).
      - apply Z.mul_le_mono_nonneg_r; [apply Z.pow_nonneg|]; lia.
      - rewrite <- !Z.pow_add_r by lia. apply Z.pow_le_mono_r; lia. }
    assert (0 < q) as Hq0 by (pose proof (Z.pow_pos_nonneg 2 (Zdigits2 m + s - Zdigits2 m' - 1)); lia).
    pose proof (Zdigits2_bounds q Hq0) as [_ Hqh].
    assert (Zdigits2 m + s - Zdigits2 m' - 1 < Zdigits2 q); [|lia].
    apply (Z.pow_lt_mono_r_iff 2); [lia|apply Zdigits2_pos in Hq0; lia|lia]. }
  rewrite fe_eq. lia.
Qed.

Lemma f64_div_nonneg x y : fin x -> fin y -> 0 < val y -> nonneg (f64_div x y).
Proof.
  intros [Hx Hfx] [Hy Hfy] Hpos.
  destruct x as [s|s| |s m e], y as [s'|s'| |s' m' e']; try done.
  destruct Hx as (-> & Hc & He), Hy as (-> & Hc' & He').
  pose proof (canonical_div_exp _ _ _ _ Hc Hc' He He') as Hd.
  unfold f64_div, SFdiv. destruct (SFdiv_core_binary _ _ _ _ _ _) as [[q ez] l].
  destruct Hd as [Hq Hez].
  destruct (binary_round_aux_sign false q ez l Hq Hez) as [H|[H|(p & e2 & H & Hc2 & He2)]];
    cbn [xorb]; rewrite H; done.
Qed.

Lemma as_secs_f64_nonneg d : 0 <= d -> nonneg (as_secs_f64 d).
Proof.
  intros Hd. unfold as_secs_f64, NANOS_PER_SEC. apply f64_add_nonneg.
  - apply f64_of_Z_nonneg, Z.div_pos; lia.
  - pose proof (Z.mod_pos_bound d 1000000000).
    destruct (f64_of_Z_exact (d mod 1000000000)) as [Hf _]; [lia|].
    destruct (f64_of_Z_exact 1000000000) as (Hf' & Hv & _); [lia|].
    apply f64_div_nonneg; auto. rewrite Hv. apply scaled_pos; lia.
Qed.

(** ** Minimum, floor, and subtracting one *)
Lemma f64_min_fin x b : nonneg x -> fin b -> fin (f64_min x b) /\ val (f64_min x b) <= val b.
Proof.
  intros Hx Hb. unfold f64_min. pose proof (val_nonneg b Hb).
  destruct (f64_is_nan x) eqn:Hn; [by destruct x|].
  destruct (f64_is_nan b) eqn:Hnb; [by destruct b, Hb|].
  destruct (f64_is_finite x) eqn:Hf.
  - rewrite f64_ltb_val by done. destruct (Z.ltb_spec (val b) (val x)); (split; [done|lia]).
  - assert (f64_ltb b x = true) as ->; [|done].
    destruct x; try done. simpl in Hx; subst. by destruct b, Hb.
Qed.

Lemma f64_floor_cast top x : fin x -> 0 <= top -> f64_to_uint top (f64_floor x) = f64_to_uint top x.
Proof.
  intros [Hx Hf] Ht. destruct x as [| | |s m e]; try done. destruct Hx as (-> & Hc & _).
  cbn [f64_floor]. destruct (Z.leb_spec 0 e); [done|].
  pose proof (canonical_bound _ _ Hc).
  assert (0 < 2 ^ (- e)) by (apply Z.pow_pos_nonneg; lia).
  assert (0 <= Zpos m / 2 ^ (- e) < 2 ^ 53) as Hr.
  { split; [apply Z.div_pos; lia|]. eapply Z.le_lt_trans; [|done].
    apply Z.div_le_upper_bound; [done|]. nia. }
  destruct (f64_of_Z_exact _ Hr) as (_ & _ & Hu). unfold f64_of_Z in Hu. rewrite Hu by done.
  cbn [f64_to_uint]. unfold pos_floor. rewrite (proj2 (Z.leb_gt _ _)) by lia. done.
Qed.

Lemma f64_to_uint_le top x n :
  fin x -> 0 <= n -> val x <= scaled n 0 -> f64_to_uint top x <= n.
Proof.
  intros [Hx Hf] Hn Hv. destruct x as [| | |s m e]; try done. destruct Hx as (-> & Hc & _).
  pose proof (canonical_exp _ _ Hc). cbn [f64_to_uint val] in *.
  etransitivity; [apply Z.le_min_l|]. unfold pos_floor. destruct (Z.leb_spec 0 e).
  - rewrite (scaled_split _ _ 0) in Hv by lia. rewrite Z.sub_0_r in Hv.
    by apply scaled_le_mono in Hv; [|lia].
  - rewrite (scaled_split n 0 e) in Hv by lia. apply scaled_le_mono in Hv; [|lia].
    apply Z.div_le_upper_bound; [apply Z.pow_pos_nonneg; lia|].
    replace (0 - e) with (- e) in Hv by lia. lia.
Qed.

Lemma f64_to_uint_nonneg top x : 0 <= top -> 0 <= f64_to_uint top x <= top.
Proof.
  intros Ht. destruct x as [| [] | |[] m e]; cbn; try lia. unfold pos_floor.
  assert (0 <= (if 0 <=? e then Zpos m * 2 ^ e else Zpos m / 2 ^ (- e))); [|lia].
  destruct (Z.leb_spec 0 e); [apply Z.mul_nonneg_nonneg; [lia|by apply Z.pow_nonneg]|].
  apply Z.div_pos; [lia|apply Z.pow_pos_nonneg; lia].
Qed.

(** An exact value that is representable is the result. *)
Lemma rounded_exact m e x mB eB :
  0 < m -> -2200 <= e -> rounded_ok false m e x -> canonical mB eB -> eB <= 971 ->
  scaled m e = scaled mB eB -> fin x /\ val x = scaled mB eB.
Proof.
  intros Hm He Hr Hc HeB Heq. destruct x as [| | |s p q]; simpl in Hr.
  - destruct Hr as [_ Hr]. destruct (Hr mB eB Hc). lia.
  - destruct Hr as [_ Hr]. destruct (Hr mB eB Hc HeB). lia.
  - done.
  - destruct Hr as (-> & Hc' & Hq & Hup & Hlo). split; [done|]. cbn [val].
    apply Z.le_antisymm; [apply Hup|apply Hlo]; (done || lia).
Qed.

Lemma canonical_of m e :
  0 < m < 2 ^ 53 -> -1074 <= e <= 971 ->
  exists mB eB, canonical mB eB /\ eB <= 971 /\ scaled mB eB = scaled m e.
Proof.
  intros Hm He. destruct (binary_round_exact false (Z.to_pos m) e) as (p & q & _ & Hc & Hq & Hv).
  - rewrite Z2Pos.id; lia.
  - done.
  - rewrite Z2Pos.id in Hv by lia. exists (Zpos p), q. split_and!; try done. lia.
Qed.

Lemma f64_one_eq : f64_one = S754_finite false (2 ^ 52) (-52).
Proof. reflexivity. Qed.

Lemma f64_one_fin : fin f64_one /\ val f64_one = scaled 1 0.
Proof. destruct (f64_of_Z_exact 1) as (H & Hv & _); [lia|]. done. Qed.

Lemma canonical_below_2_53 m e : canonical (Zpos m) e -> scaled (Zpos m) e < scaled (2 ^ 53) 0 -> e <= 0.
Proof.
  intros Hc H2. destruct (Z.le_gt_cases e 0) as [|Hgt]; [done|].
  pose proof (canonical_normal _ _ Hc ltac:(lia)). rewrite (scaled_split _ e 0) in H2 by lia.
  apply scaled_lt_mono in H2; [|lia].
  assert (2 ^ 1 <= 2 ^ (e - 0)) by (apply Z.pow_le_mono_r; lia).
  assert (2 ^ 53 = 2 ^ 52 * 2 ^ 1) by reflexivity. nia.
Qed.

Lemma aligned_difference m e mx my ez : e <= 0 -> ez = Z.min e (-52) ->
  Zpos mx = Zpos m * 2 ^ (e - ez) -> Zpos my = Zpos (2 ^ 52) * 2 ^ (-52 - ez) ->
  -1074 <= e ->
  scaled (Zpos mx - Zpos my) ez = scaled (Zpos m - 2 ^ (0 - e)) e.
Proof.
  intros He0 -> Ha Hb Hmin.
  rewrite (scaled_split (Zpos m - _) e (Z.min e (-52))) by lia. f_equal. rewrite Ha, Hb, Z.mul_sub_distr_r.
    f_equal. rewrite <- Z.pow_add_r by lia. change (Zpos (2 ^ 52)) with (2 ^ 52).
    rewrite <- Z.pow_add_r by lia. f_equal. lia.
Qed.

Lemma scaled_sub a b e : scaled (a - b) e = scaled a e - scaled b e.
Proof. unfold scaled. apply Z.mul_sub_distr_r. Qed.

Lemma scaled_cancel_sign n ez m e : -2200 <= ez -> -2200 <= e -> scaled n ez = scaled m e -> (0 < n <-> 0 < m) /\ (n = 0 <-> m = 0).
Proof.
  intros Hz He Hs. pose proof (scaled_pow_pos ez Hz). pose proof (scaled_pow_pos e He).
  unfold scaled in Hs. split; split; nia.
Qed.

Lemma binary_normalize_exact n ez m e :
  0 <= m < 2 ^ 53 -> -1074 <= e <= 971 -> -1074 <= ez -> scaled n ez = scaled m e ->
  fin (binary_normalize f64_prec f64_emax n ez false) /\
  val (binary_normalize f64_prec f64_emax n ez false) = scaled m e.
Proof.
  intros Hm He Hez Hs. destruct (scaled_cancel_sign n ez m e) as [Hpos Hzero]; [lia|lia|done|].
  destruct n as [|p|p].
  - assert (m = 0) as -> by (by apply Hzero). by split.
  - destruct (canonical_of m e) as (mB & eB & HcB & HeB & HvB); [|done|].
    { split; [by apply Hpos|lia]. }
    rewrite <- HvB. cbn [binary_normalize].
    apply (rounded_exact (Zpos p) ez); [done|lia|by apply binary_round_ok|done|done|].
    by rewrite HvB.
  - lia.
Qed.

(** Taking one token from a bucket of fewer than 2^53 tokens is exact. *)
Lemma f64_sub_one x :
  fin x -> scaled 1 0 <= val x < scaled (2 ^ 53) 0 ->
  fin (f64_sub x f64_one) /\ val (f64_sub x f64_one) = val x - scaled 1 0.
Proof.
  intros Hx [H1 H2]. destruct Hx as [Hx Hf].
  destruct x as [| | |s m e]; [unfold val, scaled in H1; lia|done|done|].
  destruct Hx as (-> & Hc & He). cbn [val] in *. pose proof (canonical_exp _ _ Hc) as Hmin.
  pose proof (canonical_below_2_53 m e Hc H2) as He0. pose proof (canonical_bound _ _ Hc) as Hb53.
  rewrite (scaled_split 1 0 e) in * by lia. rewrite Z.mul_1_l in *.
  apply scaled_le_mono in H1; [|lia]. rewrite <- scaled_sub.
  rewrite f64_one_eq. unfold f64_sub, SFsub. cbn [cond_Zopp].
  pose proof (shl_align_spec m e (Z.min e (-52))) as Ha.
  pose proof (shl_align_spec (2 ^ 52) (-52) (Z.min e (-52))) as Hb.
  destruct (shl_align m e _) as [mx ex]. destruct (shl_align (2 ^ 52) (-52) _) as [my ey].
  destruct Ha as [-> Ha], Hb as [-> Hb]. cbn [fst].
  replace (Z.min e (Z.min e (-52))) with (Z.min e (-52)) in * by lia.
  replace (Z.min (-52) (Z.min e (-52))) with (Z.min e (-52)) in * by lia.
  pose proof (Z.pow_nonneg 2 (0 - e)).
  apply binary_normalize_exact; [lia|lia|lia|]. by apply aligned_difference.
Qed.

(** ** Well-formed floats

    The representations a 64-bit float can have: a finite number has the exponent
    its magnitude forces. *)
Definition f64_wf (x : f64) : Prop :=
  match x with S754_finite _ m e => canonical (Zpos m) e /\ e <= 971 | _ => True end.

Lemma f64_wf_fin x : f64_wf x -> f64_is_finite x = true -> f64_leb f64_zero x = true -> fin x.
Proof.
  intros Hw Hf Hl. split; [|done]. destruct x as [| | |[] m e]; done.
Qed.

(** A validated ratio, finite and between zero and one. *)
Lemma f64_wf_ratio x :
  f64_wf x -> f64_is_finite x = true -> f64_leb f64_zero x = true -> f64_leb x f64_one = true ->
  fin x /\ val x <= scaled 1 0.
Proof.
  intros Hw Hf Hl Hu. pose proof (f64_wf_fin x Hw Hf Hl) as Hx. split; [done|].
  destruct f64_one_fin as [H1 Hv]. rewrite f64_leb_val in Hu by done. zbool. lia.
Qed.

(** [(n as f64 * ratio).floor() as usize] is at most [n]. *)
Lemma f64_scale_down top n r :
  0 <= n < 2 ^ 53 -> 0 <= top -> fin r -> val r <= scaled 1 0 ->
  0 <= f64_to_uint top (f64_floor (f64_mul (f64_of_Z n) r)) <= n.
Proof.
  intros Hn Ht Hr Hle. destruct (f64_of_Z_exact n Hn) as (Hf & Hv & _).
  destruct (f64_mul_le _ _ Hf Hr Hle) as [Hm Hmv].
  rewrite f64_floor_cast by done. split; [by apply f64_to_uint_nonneg|].
  apply f64_to_uint_le; [done|lia|lia].
Qed.

(** ** Uniqueness and sums *)
Lemma canonical_unique m e m' e' :
  canonical m e -> canonical m' e' -> scaled m e = scaled m' e' -> m = m' /\ e = e'.
Proof.
  intros Hc Hc' Hv. pose proof (canonical_exp _ _ Hc).
  destruct (Z.lt_trichotomy e e') as [Hlt|[->|Hgt]].
  - pose proof (canonical_lt_exp _ _ _ _ Hc Hc' Hlt). lia.
  - split; [|done]. apply Z.le_antisymm; apply (scaled_le_mono _ _ e'); lia.
  - pose proof (canonical_lt_exp _ _ _ _ Hc' Hc Hgt). lia.
Qed.

(** Finite non-negative floats with the same positive value are the same float. *)
Lemma fin_val_eq x y : fin x -> fin y -> 0 < val x -> val x = val y -> x = y.
Proof.
  intros [Hx Hfx] [Hy Hfy] Hpos Hv. destruct x as [| | |s m e]; try done.
  destruct y as [| | |s' m' e']; try done; [simpl in *; lia|].
  destruct Hx as (-> & Hc & _), Hy as (-> & Hc' & _). cbn [val] in Hv.
  destruct (canonical_unique _ _ _ _ Hc Hc' Hv) as [? ->]. by simplify_eq.
Qed.

(** Capping at [b] a sum that starts at [b] gives [b]. *)
Lemma rounded_ge m e x b :
  0 < m -> -2200 <= e -> rounded_ok false m e x -> fin b -> val b <= scaled m e ->
  nonneg x /\ (f64_is_finite x = true -> val b <= val x).
Proof.
  intros Hm He Hr [Hb Hfb] Hle. split; [by eapply rounded_nonneg|].
  destruct x as [| | |s p q]; simpl in Hr; try done; intros _.
  - destruct Hr as [_ Hr]. destruct b as [| | |s' p' q']; try done.
    destruct Hb as (-> & Hc & _). cbn [val] in *. by destruct (Hr _ _ Hc).
  - destruct Hr as (-> & Hc & Hq & Hup & Hlo). cbn [val]. destruct b as [| | |s' p' q']; try done.
    + pose proof (canonical_exp _ _ Hc). simpl. apply Z.lt_le_incl, scaled_pos; lia.
    + destruct Hb as (-> & Hc' & _). cbn [val] in *. by apply Hlo.
Qed.

Lemma f64_add_ge x y :
  fin x -> nonneg y -> nonneg (f64_add x y) /\ (f64_is_finite (f64_add x y) = true -> val x <= val (f64_add x y)).
Proof.
  intros Hx Hy. split; [apply f64_add_nonneg; [apply Hx|done]|].
  destruct Hx as [Hx Hfx]. destruct x as [s|s| |s m e], y as [s'|s'| |s' m' e']; try done; simpl in Hy.
  - intros _. by destruct s, s'.
  - intros _. destruct Hy as (-> & Hc & _). pose proof (canonical_exp _ _ Hc). cbn [val].
    apply Z.lt_le_incl, scaled_pos; lia.
  - destruct Hx as (-> & Hc & He), Hy as (-> & Hc' & _). unfold f64_add, SFadd.
    pose proof (canonical_exp _ _ Hc). pose proof (canonical_exp _ _ Hc').
    set (ez := Z.min e e').
    pose proof (shl_align_spec m e ez) as Ha. pose proof (shl_align_spec m' e' ez) as Hb.
    destruct (shl_align m e ez) as [mx ex], (shl_align m' e' ez) as [my ey].
    destruct Ha as [-> Ha], Hb as [-> Hb]. cbn [fst cond_Zopp].
    replace (Z.min e ez) with ez in * by lia. replace (Z.min e' ez) with ez in * by lia.
    assert (0 < Zpos mx + Zpos my) as Hpos by lia.
    destruct (Zpos mx + Zpos my) as [|p|p] eqn:Hp; [lia| |lia]. cbn [binary_normalize].
    apply (rounded_ge (Zpos p) ez); [lia|lia|apply binary_round_ok; lia|done|].
    cbn [val]. rewrite (scaled_split _ e ez), <- Ha by lia. apply scaled_le_mono; lia.
Qed.

(** A bucket that is full stays full. *)
Lemma f64_min_add_full b y :
  fin b -> 0 < val b -> nonneg y -> f64_min (f64_add b y) b = b.
Proof.
  intros Hb Hpos Hy. destruct (f64_add_ge b y Hb Hy) as [Hs Hge].
  destruct (f64_min_fin _ _ Hs Hb) as [Hf Hle]. symmetry. apply fin_val_eq; try done.
  unfold f64_min in *. destruct (f64_is_nan (f64_add b y)) eqn:Hn; [done|].
  destruct (f64_is_nan b) eqn:Hnb; [by destruct b, Hb|].
  destruct (f64_is_finite (f64_add b y)) eqn:Hfin.
  - rewrite f64_ltb_val in * by done. specialize (Hge eq_refl).
    destruct (Z.ltb_spec (val b) (val (f64_add b y))); [done|lia].
  - destruct (f64_ltb b (f64_add b y)) eqn:Hlt; [done|]. destruct Hf as [_ Hf]. congruence.
Qed.

(** Closes the well-formedness of a concrete float. *)
Ltac f64_concrete := vm_compute; repeat split; intros; discriminate.
