(* ===== verification/Text.v ===== *)
(** * Text

    A Rust [String] or [&str] is the list of its Unicode scalar values; byte
    lengths count their UTF-8 encodings.  Static messages ([&'static str]) stay
    Rocq [string]s.  This file translates the [str] and [char] operations of the
    standard library that the crate uses. *)
From Stdlib Require Import Ascii String.
From S2P Require Import Prelude.

Abbreviation str := (list Z).

(** A static string as text. *)
Fixpoint lit (s : string) : str :=
  match s with
  | EmptyString => []
  | String a s' => Z.of_N (N_of_ascii a) :: lit s'
  end.

Definition chr (a : ascii) : Z := Z.of_N (N_of_ascii a).

(** ** Characters *)
Definition char_len_utf8 (c : Z) : Z :=
  if c <? 128 then 1 else if c <? 2048 then 2 else if c <? 65536 then 3 else 4.

Definition str_len (s : str) : Z := foldr (fun c n => char_len_utf8 c + n) 0 s.

(** [char::is_whitespace]: the Unicode White_Space property. *)
Definition is_whitespace (c : Z) : bool :=
  ((9 <=? c) && (c <=? 13)) || (c =? 32) || (c =? 133) || (c =? 160) || (c =? 5760)
  || ((8192 <=? c) && (c <=? 8202)) || (c =? 8232) || (c =? 8233) || (c =? 8239)
  || (c =? 8287) || (c =? 12288).

Definition is_ascii_digit (c : Z) : bool := (48 <=? c) && (c <=? 57).
Definition is_ascii_upper (c : Z) : bool := (65 <=? c) && (c <=? 90).
Definition is_ascii_lower (c : Z) : bool := (97 <=? c) && (c <=? 122).
Definition is_ascii_alphanumeric (c : Z) : bool :=
  is_ascii_digit c || is_ascii_upper c || is_ascii_lower c.
Definition is_ascii_hexdigit (c : Z) : bool :=
  is_ascii_digit c || ((65 <=? c) && (c <=? 70)) || ((97 <=? c) && (c <=? 102)).

Definition to_ascii_lowercase_char (c : Z) : Z := if is_ascii_upper c then c + 32 else c.
Definition to_ascii_lowercase (s : str) : str := to_ascii_lowercase_char <$> s.
Definition eq_ignore_ascii_case (s t : str) : bool :=
  bool_decide (to_ascii_lowercase s = to_ascii_lowercase t).

(** ** Trimming *)
Fixpoint trim_start_with (p : Z -> bool) (s : str) : str :=
  match s with
  | [] => []
  | c :: s' => if p c then trim_start_with p s' else s
  end.

Definition trim_end_with (p : Z -> bool) (s : str) : str := reverse (trim_start_with p (reverse s)).
Definition trim (s : str) : str := trim_end_with is_whitespace (trim_start_with is_whitespace s).
Definition trim_start_matches (c : Z) : str -> str := trim_start_with (Z.eqb c).
Definition trim_end_matches (c : Z) : str -> str := trim_end_with (Z.eqb c).
Definition trim_matches (c : Z) (s : str) : str := trim_end_matches c (trim_start_matches c s).

(** ** Searching and splitting *)
Fixpoint strip_prefix (p s : str) : option str :=
  match p, s with
  | [], _ => Some s
  | c :: p', d :: s' => if c =? d then strip_prefix p' s' else None
  | _ :: _, [] => None
  end.

Definition starts_with (p s : str) : bool := match strip_prefix p s with Some _ => true | None => false end.
Definition strip_suffix (p s : str) : option str := reverse <$> strip_prefix (reverse p) (reverse s).
Definition ends_with (p s : str) : bool := match strip_suffix p s with Some _ => true | None => false end.

(** [str::split] at the characters satisfying [p]: always at least one piece. *)
Fixpoint split_with (p : Z -> bool) (s : str) : list str :=
  match s with
  | [] => [[]]
  | c :: s' =>
    if p c then [] :: split_with p s'
    else match split_with p s' with
         | piece :: rest => (c :: piece) :: rest
         | [] => [[c]]
         end
  end.

(** [str::find] as a split: the text before and from the first match. *)
Fixpoint span_until (p : Z -> bool) (s : str) : str * str :=
  match s with
  | [] => ([], [])
  | c :: s' => if p c then ([], s) else let '(a, b) := span_until p s' in (c :: a, b)
  end.

Definition contains_char (c : Z) (s : str) : bool := existsb (Z.eqb c) s.

(** [str::split_once] at a character. *)
Definition split_once (c : Z) (s : str) : option (str * str) :=
  match span_until (Z.eqb c) s with
  | (_, []) => None
  | (a, _ :: b) => Some (a, b)
  end.

(** [str::rsplit_once] at a character. *)
Definition rsplit_once (c : Z) (s : str) : option (str * str) :=
  match span_until (Z.eqb c) (reverse s) with
  | (_, []) => None
  | (b, _ :: a) => Some (reverse a, reverse b)
  end.

(** [str::parse] of an unsigned integer with maximum [top]: an optional plus
    sign, then at least one digit, within the range of the type. *)
Fixpoint parse_digits (acc : Z) (s : str) : option Z :=
  match s with
  | [] => Some acc
  | c :: s' => if is_ascii_digit c then parse_digits (acc * 10 + (c - 48)) s' else None
  end.

Definition parse_uint (top : Z) (s : str) : option Z :=
  let digits := match s with c :: s' => if c =? 43 then s' else s | [] => [] end in
  match digits with
  | [] => None
  | _ => n ← parse_digits 0 digits; if n <=? top then Some n else None
  end.

(** Lexicographic order, the [Ord] of strings (code point order agrees with the
    byte order of UTF-8). *)
Fixpoint str_leb (s t : str) : bool :=
  match s, t with
  | [], _ => true
  | _ :: _, [] => false
  | c :: s', d :: t' => (c <? d) || ((c =? d) && str_leb s' t')
  end.

(** ** Lemmas *)
Lemma trim_start_with_suffix p s : trim_start_with p s `suffix_of` s.
Proof.
  induction s as [|c s IH]; [done|]. simpl. case_match; [|done].
  by apply suffix_cons_r.
Qed.

Lemma to_ascii_lowercase_idem s : to_ascii_lowercase (to_ascii_lowercase s) = to_ascii_lowercase s.
Proof.
  unfold to_ascii_lowercase. rewrite <- list_fmap_compose. apply list_fmap_ext. intros _ c _.
  unfold compose, to_ascii_lowercase_char, is_ascii_upper.
  repeat case_match; zbool; lia.
Qed.

Lemma strip_prefix_Some p s t : strip_prefix p s = Some t <-> s = p ++ t.
Proof.
  revert s. induction p as [|c p IH]; intros s; simpl; [naive_solver|].
  destruct s as [|d s]; [naive_solver|]. destruct (Z.eqb_spec c d) as [->|Hne].
  - rewrite IH. naive_solver.
  - naive_solver.
Qed.

Lemma split_with_nonempty p s : split_with p s <> [].
Proof. destruct s; simpl; [done|]. repeat case_match; done. Qed.

Lemma starts_with_app p s : starts_with p s = true <-> exists t, s = p ++ t.
Proof.
  unfold starts_with. split.
  - destruct (strip_prefix p s) as [t|] eqn:Hs; [|done]. intros _. exists t. by apply strip_prefix_Some.
  - intros [t Ht%strip_prefix_Some]. by rewrite Ht.
Qed.
