(* ===== verification/Eviction.v ===== *)
(** * Eviction from per-host tables (core/limiters.rs)

    A table of per-host entries drops what is idle and stale, then the least recently
    used idle entries until it is within its capacity.  The trait
    [PerHostLimiterEntry] is a class; the rate limiter's table, whose idleness depends
    on the time, uses the same eviction loop.  A [BTreeMap] is a [gmap] whose
    iteration is sorted by key. *)
From S2P Require Import Prelude Text.

Module Eviction.

Definition PER_HOST_LIMITER_ENTRY_TTL : Duration := duration_from_secs 300.
Definition PER_HOST_LIMITER_MAX_ENTRIES : Z := 1024.

Class PerHostLimiterEntry (E : Type) := {
  is_idle : E -> bool;
  last_used_at : E -> Instant;
}.

Section Table.
Context `{entry : PerHostLimiterEntry E}.
Implicit Types (m : gmap str E) (k : str).

(** The entries in key order, as a [BTreeMap] iterates. *)
Definition key_order (a b : str * E) : Prop := Is_true (str_leb a.1 b.1).
#[global] Instance key_order_dec : RelDecision key_order.
Proof. intros a b. unfold key_order. apply _. Defined.
Definition iter (m : gmap str E) : list (str * E) := merge_sort key_order (map_to_list m).

(** [min_by_key] on [last_used_at]: the first of the least. *)
Definition pick (best : option (str * E)) (e : str * E) : option (str * E) :=
  match best with
  | None => Some e
  | Some b => if last_used_at e.2 <? last_used_at b.2 then Some e else Some b
  end.

Definition min_by_last_used (l : list (str * E)) : option (str * E) := fold_left pick l None.

Definition oldest_idle (m : gmap str E) : option str :=
  fst <$> min_by_last_used (List.filter (fun e => is_idle e.2) (iter m)).

(** The eviction loop; each round removes an entry, so [size m] rounds suffice. *)
Fixpoint evict_oldest (fuel : nat) (max_entries : Z) (m : gmap str E) : gmap str E :=
  if Z.of_nat (size m) <=? max_entries then m
  else match fuel with
  | O => m
  | S fuel =>
    match oldest_idle m with
    | None => m
    | Some oldest_key => evict_oldest fuel max_entries (delete oldest_key m)
    end
  end.

Definition retained (now : Instant) (entry_ttl : Duration) (e : E) : bool :=
  negb (is_idle e) || (saturating_duration_since now (last_used_at e) <=? entry_ttl).

Definition cleanup_stale_per_host_limiters (m : gmap str E) (now : Instant) (entry_ttl : Duration)
    (max_entries : Z) : gmap str E :=
  let m := filter (fun kv => Is_true (retained now entry_ttl kv.2)) m in
  evict_oldest (size m) max_entries m.

(** ** Lemmas *)
Lemma elem_of_iter m k e : (k, e) ∈ iter m <-> m !! k = Some e.
Proof. unfold iter. rewrite merge_sort_Permutation. apply elem_of_map_to_list. Qed.

Lemma pick_min l best :
  match fold_left pick l best with
  | None => best = None /\ l = []
  | Some r => (r ∈ l \/ best = Some r) /\
      Forall (fun e => last_used_at r.2 <= last_used_at e.2) l /\
      forall b, best = Some b -> last_used_at r.2 <= last_used_at b.2
  end.
Proof.
  revert best. induction l as [|e l IH]; intros best; simpl.
  { destruct best; [|done]. split; [by right|]. split; [done|]. intros ? [= ->]. done. }
  specialize (IH (pick best e)). destruct (fold_left pick l (pick best e)) as [r|].
  - destruct IH as (Hin & Hl & Hb). unfold pick in *. destruct best as [b|].
    + destruct (Z.ltb_spec (last_used_at e.2) (last_used_at b.2)); specialize (Hb _ eq_refl).
      * split; [destruct Hin as [|[= ->]]; left; set_solver|]. split; [by apply Forall_cons|].
        intros ? [= <-]. unfold Instant in *. lia.
      * split; [destruct Hin as [|[= ->]]; [left; set_solver|by right]|].
        split; [apply Forall_cons; split; [unfold Instant in *; lia|done]|]. by intros ? [= <-].
    + split; [left; destruct Hin as [|[= ->]]; set_solver|]. split; [|done]. apply Forall_cons. auto.
  - destruct IH as [IH _]. unfold pick in IH. by destruct best; [case_match|].
Qed.

Lemma oldest_idle_Some m k :
  oldest_idle m = Some k ->
  exists e, m !! k = Some e /\ is_idle e = true /\
    forall k' e', m !! k' = Some e' -> is_idle e' = true -> last_used_at e <= last_used_at e'.
Proof.
  unfold oldest_idle, min_by_last_used.
  pose proof (pick_min (List.filter (fun e => is_idle e.2) (iter m)) None) as Hp.
  destruct (fold_left pick _ None) as [[k' e]|]; [|done]. intros [= <-].
  destruct Hp as ([Hin|] & Hmin & _); [|done].
  apply list_elem_of_In, filter_In in Hin as [Hin%list_elem_of_In%elem_of_iter Hidle].
  exists e. split_and!; [done|done|]. intros k'' e'' Hk'' Hi. rewrite Forall_forall in Hmin.
  apply (Hmin (k'', e'')), list_elem_of_In, filter_In. split; [|done]. by apply list_elem_of_In, elem_of_iter.
Qed.

Lemma oldest_idle_None m k e : oldest_idle m = None -> m !! k = Some e -> is_idle e = false.
Proof.
  unfold oldest_idle, min_by_last_used.
  pose proof (pick_min (List.filter (fun e => is_idle e.2) (iter m)) None) as Hp.
  destruct (fold_left pick _ None) as [r|]; [done|]. intros _ Hk. destruct Hp as [_ Hp].
  apply not_true_iff_false. intros Hi.
  assert ((k, e) ∈ @nil (str * E)) as Hin; [|by apply not_elem_of_nil in Hin].
  rewrite <- Hp. apply list_elem_of_In, filter_In. split; [|done]. by apply list_elem_of_In, elem_of_iter.
Qed.

(** Eviction removes idle entries only, keeps the rest as they are, and stops at
    the bound or when no idle entry is left. *)
Lemma evict_oldest_spec fuel max m :
  (size m <= fuel)%nat -> 0 <= max ->
  let m' := evict_oldest fuel max m in
  m' ⊆ m /\
  (forall k e, m !! k = Some e -> m' !! k = None -> is_idle e = true) /\
  (Z.of_nat (size m') <= max \/ map_Forall (fun _ e => is_idle e = false) m').
Proof.
  intros Hf Hmax. revert m Hf. induction fuel as [|fuel IH]; intros m Hf; simpl;
    (destruct (Z.leb_spec (Z.of_nat (size m)) max);
     [split; [done|]; split; [intros; congruence|by left]|]).
  - lia.
  - destruct (oldest_idle m) as [k|] eqn:Ho.
    + apply oldest_idle_Some in Ho as (e & Hk & Hidle & _).
      destruct (IH (delete k m)) as (Hsub & Hrem & Hend).
      { rewrite map_size_delete_Some by eauto. lia. }
      split; [etransitivity; [done|apply delete_subseteq]|]. split; [|done].
      intros k' e' Hk' Hn. destruct (decide (k = k')) as [->|Hne]; [by simplify_eq|].
      apply (Hrem k'); [by rewrite lookup_delete_ne|done].
    + split; [done|]. split; [intros; congruence|]. right. intros k e Hk. by eapply oldest_idle_None.
Qed.

(** The whole clean-up does the same, whatever its time to live. *)
Lemma cleanup_limiters_spec m now ttl max :
  0 <= max ->
  let m' := cleanup_stale_per_host_limiters m now ttl max in
  m' ⊆ m /\
  (forall k e, m !! k = Some e -> m' !! k = None -> is_idle e = true) /\
  (Z.of_nat (size m') <= max \/ map_Forall (fun _ e => is_idle e = false) m').
Proof.
  intros Hmax. unfold cleanup_stale_per_host_limiters. set (m1 := filter _ _).
  destruct (evict_oldest_spec (size m1) max m1) as (Hsub & Hrem & Hend); [done|done|].
  assert (m1 ⊆ m) as Hm1 by apply map_filter_subseteq.
  split; [by etransitivity|]. split; [|done].
  intros k e Hk Hn. destruct (m1 !! k) as [e1|] eqn:He1.
  - assert (e1 = e) as -> by (eapply lookup_weaken in He1; [|done]; congruence). by eapply Hrem.
  - unfold m1 in He1. rewrite map_lookup_filter_None in He1. destruct He1 as [He1|He1]; [congruence|].
    specialize (He1 _ Hk). unfold retained in He1. simpl in He1. destruct (is_idle e); [done|]. by destruct He1.
Qed.

End Table.
End Eviction.
