(* ===== verification/HttpApi.v ===== *)
(** * The [http] crate

    The types and operations of the third-party [http] crate the program is
    written against, as a class: every definition that uses them takes an instance.
    [HttpLaws] states the documented behaviour the proofs rely on; the end of the
    file gives an instance, so the laws can hold together. *)
From Stdlib Require Import Ascii String.
From S2P Require Import Prelude Text.

Class Http := {
  Method : Type;
  Method_eq_dec :: EqDecision Method;
  method_as_str : Method -> str;
  GET : Method;
  HEAD : Method;
  POST : Method;
  PUT : Method;
  DELETE : Method;
  OPTIONS : Method;
  TRACE : Method;

  StatusCode : Type;
  StatusCode_eq_dec :: EqDecision StatusCode;
  as_u16 : StatusCode -> Z;
  from_u16 : Z -> option StatusCode;
  is_success : StatusCode -> bool;
  is_informational : StatusCode -> bool;
  NO_CONTENT : StatusCode;
  MOVED_PERMANENTLY : StatusCode;
  FOUND : StatusCode;
  SEE_OTHER : StatusCode;
  NOT_MODIFIED : StatusCode;
  TEMPORARY_REDIRECT : StatusCode;
  PERMANENT_REDIRECT : StatusCode;
  TOO_MANY_REQUESTS : StatusCode;

  HeaderName : Type;
  HeaderName_eq_dec :: EqDecision HeaderName;
  header_name_as_str : HeaderName -> str;
  (** a name constant such as [AUTHORIZATION], or a literal key *)
  header_name : string -> HeaderName;
  header_name_from_bytes : str -> option HeaderName;

  HeaderValue : Type;
  to_str : HeaderValue -> option str;
  header_value_from_str : str -> option HeaderValue;
  is_sensitive : HeaderValue -> bool;
  set_sensitive : HeaderValue -> HeaderValue;

  HeaderMap : Type;
  hm_new : HeaderMap;
  hm_get_all : HeaderMap -> HeaderName -> list HeaderValue;
  hm_insert : HeaderMap -> HeaderName -> HeaderValue -> HeaderMap;
  hm_remove : HeaderMap -> HeaderName -> HeaderMap;
  hm_extend : HeaderMap -> HeaderMap -> HeaderMap;
  hm_iter : HeaderMap -> list (HeaderName * HeaderValue);
  (** [iter_mut], applying a function to every entry *)
  hm_iter_mut : (HeaderName -> HeaderValue -> HeaderValue) -> HeaderMap -> HeaderMap;

  Uri : Type;
  uri_parse : str -> option Uri;
  uri_to_string : Uri -> str;
  uri_scheme_str : Uri -> option str;
  uri_authority : Uri -> option str;
  uri_path : Uri -> str;
  (** path and query of [path_and_query()] *)
  uri_path_and_query : Uri -> option (str * option str);
  uri_host : Uri -> option str;
  uri_port_u16 : Uri -> option Z;
}.

Section Derived.
Context `{Http}.

(** [HeaderMap::get] and [contains_key]: the first value of a name, if any. *)
Definition hm_get (m : HeaderMap) (n : HeaderName) : option HeaderValue := head (hm_get_all m n).
Definition hm_contains_key (m : HeaderMap) (n : HeaderName) : bool :=
  match hm_get_all m n with [] => false | _ => true end.

End Derived.

(** Static header names: lowercase letters, digits and hyphens. *)
Definition static_name_char (c : Z) : bool := is_ascii_lower c || is_ascii_digit c || (c =? 45).

Class HttpLaws `{Http} : Prop := {
  method_as_str_inj m m' : method_as_str m = method_as_str m' -> m = m';
  method_GET : method_as_str GET = lit "GET";
  method_HEAD : method_as_str HEAD = lit "HEAD";
  method_POST : method_as_str POST = lit "POST";
  method_PUT : method_as_str PUT = lit "PUT";
  method_DELETE : method_as_str DELETE = lit "DELETE";
  method_OPTIONS : method_as_str OPTIONS = lit "OPTIONS";
  method_TRACE : method_as_str TRACE = lit "TRACE";

  as_u16_inj s s' : as_u16 s = as_u16 s' -> s = s';
  from_u16_Some n s : from_u16 n = Some s <-> as_u16 s = n;
  from_u16_valid n : is_Some (from_u16 n) <-> 100 <= n < 1000;
  is_success_spec s : is_success s = (200 <=? as_u16 s) && (as_u16 s <? 300);
  is_informational_spec s : is_informational s = (100 <=? as_u16 s) && (as_u16 s <? 200);
  status_NO_CONTENT : as_u16 NO_CONTENT = 204;
  status_MOVED_PERMANENTLY : as_u16 MOVED_PERMANENTLY = 301;
  status_FOUND : as_u16 FOUND = 302;
  status_SEE_OTHER : as_u16 SEE_OTHER = 303;
  status_NOT_MODIFIED : as_u16 NOT_MODIFIED = 304;
  status_TEMPORARY_REDIRECT : as_u16 TEMPORARY_REDIRECT = 307;
  status_PERMANENT_REDIRECT : as_u16 PERMANENT_REDIRECT = 308;
  status_TOO_MANY_REQUESTS : as_u16 TOO_MANY_REQUESTS = 429;

  header_name_static s :
    forallb static_name_char (lit s) = true -> header_name_as_str (header_name s) = lit s;
  is_sensitive_set v : is_sensitive (set_sensitive v) = true;
  to_str_set v : to_str (set_sensitive v) = to_str v;

  hm_get_all_new n : hm_get_all hm_new n = [];
  hm_get_all_insert m n v n' :
    hm_get_all (hm_insert m n v) n' = if decide (n = n') then [v] else hm_get_all m n';
  hm_get_all_remove m n n' :
    hm_get_all (hm_remove m n) n' = if decide (n = n') then [] else hm_get_all m n';
  hm_get_all_extend m m' n :
    hm_get_all (hm_extend m m') n =
    match hm_get_all m' n with [] => hm_get_all m n | vs => vs end;
  hm_iter_spec m n v : (n, v) ∈ hm_iter m <-> v ∈ hm_get_all m n;
  hm_get_all_iter_mut f m n : hm_get_all (hm_iter_mut f m) n = f n <$> hm_get_all m n;
}.

(** ** A reference instance

    Methods and header names as their texts, a header map as the list of its
    entries, a URI split into scheme, authority, host and port.  It shows that the
    laws can hold and lets concrete inputs be evaluated. *)
Module RefHttp.

Definition status := { n : Z | (100 <=? n) && (n <? 1000) = true }.
Definition status_of (n : Z) : option status :=
  match decide ((100 <=? n) && (n <? 1000) = true) with
  | left p => Some (n ↾ p)
  | right _ => None
  end.

Record value := { text : str; sensitive : bool }.
Abbreviation map := (list (str * value)).

Definition get_all (m : map) (n : str) : list value :=
  snd <$> filter (fun p => p.1 = n) m.
Definition remove (m : map) (n : str) : map := filter (fun p => p.1 <> n) m.
Definition extend (m m' : map) : map :=
  filter (fun p => get_all m' p.1 = []) m ++ m'.

#[global] Instance value_eq_dec : EqDecision value.
Proof. solve_decision. Defined.

Record uri := { scheme : option str; authority : option str; host : option str;
                port : option Z; path : str; whole : str }.

Definition split_host (a : str) : str * option Z :=
  let hp := match rsplit_once (chr "@"%char) a with Some (_, hp) => hp | None => a end in
  match rsplit_once (chr ":"%char) hp with
  | Some (h, p) => (h, parse_uint u16_max p)
  | None => (hp, None)
  end.

Definition path_of (s : str) : str := (span_until (Z.eqb (chr "?"%char)) s).1.

Definition query_of (u : uri) : option str := snd <$> split_once (chr "?"%char) (whole u).

Definition after_scheme (sch : str) (s : str) : option uri :=
  rest ← strip_prefix (sch ++ lit "://") s;
  let '(a, rest) := span_until (fun c => (c =? chr "/"%char) || (c =? chr "?"%char)) rest in
  let '(h, p) := split_host a in
  Some {| scheme := Some sch; authority := Some a; host := Some h; port := p;
          path := match path_of rest with [] => lit "/" | q => q end; whole := s |}.

Definition parse (s : str) : option uri :=
  match after_scheme (lit "https") s, after_scheme (lit "http") s with
  | Some u, _ => Some u
  | None, Some u => Some u
  | None, None =>
    if starts_with (lit "/") s
    then Some {| scheme := None; authority := None; host := None; port := None;
                 path := path_of s; whole := s |}
    else None
  end.

End RefHttp.

#[export] Instance ref_http : Http := {
  Method := str; method_as_str := id;
  GET := lit "GET"; HEAD := lit "HEAD"; POST := lit "POST"; PUT := lit "PUT";
  DELETE := lit "DELETE"; OPTIONS := lit "OPTIONS"; TRACE := lit "TRACE";
  StatusCode := RefHttp.status; as_u16 := proj1_sig; from_u16 := RefHttp.status_of;
  is_success s := (200 <=? `s) && (`s <? 300);
  is_informational s := (100 <=? `s) && (`s <? 200);
  NO_CONTENT := 204 ↾ eq_refl; MOVED_PERMANENTLY := 301 ↾ eq_refl; FOUND := 302 ↾ eq_refl;
  SEE_OTHER := 303 ↾ eq_refl; NOT_MODIFIED := 304 ↾ eq_refl;
  TEMPORARY_REDIRECT := 307 ↾ eq_refl; PERMANENT_REDIRECT := 308 ↾ eq_refl;
  TOO_MANY_REQUESTS := 429 ↾ eq_refl;
  HeaderName := str; header_name_as_str := id; header_name := lit;
  header_name_from_bytes s :=
    if forallb static_name_char (to_ascii_lowercase s) then Some (to_ascii_lowercase s) else None;
  HeaderValue := RefHttp.value; to_str v := Some (RefHttp.text v);
  header_value_from_str s := Some {| RefHttp.text := s; RefHttp.sensitive := false |};
  is_sensitive := RefHttp.sensitive;
  set_sensitive v := {| RefHttp.text := RefHttp.text v; RefHttp.sensitive := true |};
  HeaderMap := RefHttp.map; hm_new := []; hm_get_all := RefHttp.get_all;
  hm_insert m n v := RefHttp.remove m n ++ [(n, v)];
  hm_remove := RefHttp.remove; hm_extend := RefHttp.extend; hm_iter := id;
  hm_iter_mut f m := (fun p => (p.1, f p.1 p.2)) <$> m;
  Uri := RefHttp.uri; uri_parse := RefHttp.parse; uri_to_string := RefHttp.whole;
  uri_scheme_str := RefHttp.scheme; uri_authority := RefHttp.authority;
  uri_path := RefHttp.path; uri_path_and_query u := Some (RefHttp.path u, RefHttp.query_of u); uri_host := RefHttp.host; uri_port_u16 := RefHttp.port;
}.

Lemma ref_get_all_app (m m' : RefHttp.map) n :
  RefHttp.get_all (m ++ m') n = RefHttp.get_all m n ++ RefHttp.get_all m' n.
Proof. unfold RefHttp.get_all. by rewrite filter_app, fmap_app. Qed.

Lemma ref_get_all_filter (P : str -> Prop) `{!forall k, Decision (P k)}
    `{!forall p : str * RefHttp.value, Decision (P p.1)} (m : RefHttp.map) n :
  RefHttp.get_all (filter (fun p => P p.1) m) n =
  if decide (P n) then RefHttp.get_all m n else [].
Proof.
  unfold RefHttp.get_all in *. induction m as [|[k v] m IH]; [by case_decide|].
  rewrite !filter_cons. simpl. destruct (decide (P k)), (decide (k = n)) as [->|];
    rewrite ?filter_cons; simpl; repeat case_decide; simplify_eq/=; by rewrite ?IH.
Qed.

#[export] Instance ref_http_laws : HttpLaws.
Proof.
  split; try done.
  - intros [s p] [s' p'] ->%(fun H : s = s' => H). f_equal. apply proof_irrel.
  - intros n [s p]. simpl. unfold RefHttp.status_of.
    destruct (decide _) as [Hp|Hp]; simpl; (split; [intros Hs; by simplify_eq/=|intros ->]).
    + do 2 f_equal. apply proof_irrel.
    + by destruct Hp.
  - intros n. simpl. unfold RefHttp.status_of, is_Some.
    destruct (decide _) as [Hp|Hp]; split; [| |intros []; done|].
    + intros _. zbool. lia.
    + eauto.
    + intros Hn. destruct Hp. apply andb_true_iff. split; [apply Z.leb_le|apply Z.ltb_lt]; lia.
  - intros m n v n'. simpl. unfold RefHttp.remove. rewrite ref_get_all_app.
    rewrite (ref_get_all_filter (fun k => k <> n)). unfold RefHttp.get_all.
    rewrite filter_cons, filter_nil. simpl. repeat case_decide; simplify_eq/=; try done.
    by rewrite app_nil_r.
  - intros m n n'. simpl. unfold RefHttp.remove.
    rewrite (ref_get_all_filter (fun k => k <> n)). repeat case_decide; simplify_eq/=; done.
  - intros m m' n. simpl. unfold RefHttp.extend. rewrite ref_get_all_app.
    rewrite (ref_get_all_filter (fun k => RefHttp.get_all m' k = [])).
    case_decide as He; [by rewrite He, app_nil_r|]. by destruct (RefHttp.get_all m' n).
  - intros m n v. simpl. unfold RefHttp.get_all. rewrite list_elem_of_fmap.
    split; [intros Hin; exists (n, v); split; [done|]; by apply list_elem_of_filter|].
    intros ([k w] & -> & [Hk Hin]%list_elem_of_filter). simpl in *. by subst.
  - intros f m n. simpl. unfold RefHttp.get_all.
    induction m as [|[k v] m IH]; [done|]. rewrite fmap_cons, !filter_cons. simpl.
    case_decide; simpl; [subst; by f_equal|done].
Qed.
