(* ===== verification/UriText.v ===== *)
(** * URI text (core/util/uri.rs, text-level part)

    Host keys, the raw authority syntax check, query appending and joining a path
    to a base URL.  The [url] crate is a parameter, [UrlCrate]; a small instance at
    the end parses plain HTTP URLs so that concrete inputs can be evaluated. *)
From Stdlib Require Import Ascii String.
From S2P Require Import Prelude Text HttpApi.

(** ** The [url] crate *)
Class UrlCrate := {
  Url : Type;
  url_parse : str -> option Url;
  url_join : Url -> str -> option Url;
  url_as_str : Url -> str;
  url_scheme : Url -> str;
  url_host_str : Url -> option str;
  url_username : Url -> str;
  url_password : Url -> option str;
  url_path : Url -> str;
  url_path_segments : Url -> option (list str);
  url_query : Url -> option str;
  url_fragment : Url -> option str;
  (** the setters, as the value after the call *)
  url_set_username : Url -> str -> Url;
  url_set_password : Url -> option str -> Url;
  url_set_query : Url -> option str -> Url;
  url_set_fragment : Url -> option str -> Url;
  url_set_path : Url -> str -> Url;
}.

(** ** Hosts *)
Definition normalize_host_key (host : str) : option str :=
  let normalized := to_ascii_lowercase (trim_end_matches (chr "."%char) (trim host)) in
  match normalized with [] => None | _ => Some normalized end.

Definition normalized_uri_host `{Http} (uri : Uri) : option str :=
  host ← uri_host uri; normalize_host_key host.

Definition uri_has_userinfo `{Http} (uri : Uri) : bool :=
  match uri_authority uri with Some authority => contains_char (chr "@"%char) authority | None => false end.

(** ** Raw syntax *)

(** [bytes.get(..n).is_some_and(|prefix| prefix.eq_ignore_ascii_case(p))]. *)
Definition has_prefix_ignore_case (p s : str) : bool :=
  eq_ignore_ascii_case (take (length p) s) p.

Definition looks_like_malformed_http_absolute_uri (value : str) : bool :=
  has_prefix_ignore_case (lit "http:") value || has_prefix_ignore_case (lit "https:") value.

Definition is_authority_end (c : Z) : bool :=
  (c =? chr "/"%char) || (c =? chr "?"%char) || (c =? chr "#"%char).

Definition all_digits (s : str) : bool := forallb is_ascii_digit s.
Definition nonempty {A} (l : list A) : bool := match l with [] => false | _ => true end.

Definition raw_http_prefix_len (uri_text : str) (allow_network_path_reference : bool) : option nat :=
  if has_prefix_ignore_case (lit "http://") uri_text then Some 7%nat
  else if has_prefix_ignore_case (lit "https://") uri_text then Some 8%nat
  else if allow_network_path_reference && starts_with (lit "//") uri_text then Some 2%nat
  else None.

(** The check of the host and port after the prefix and the userinfo. *)
Definition valid_raw_host_port (host_port : str) : bool :=
  match host_port with
  | [] => false
  | c :: stripped =>
    if c =? chr "["%char then
      match span_until (Z.eqb (chr "]"%char)) stripped with
      | (_, []) => false
      | ([], _) => false
      | (_, _ :: suffix) =>
        match suffix with
        | [] => true
        | d :: port => (d =? chr ":"%char) && nonempty port && all_digits port
        end
      end
    else if c =? chr "."%char then false
    else if (1 <? length (filter (fun d => d = chr ":"%char) host_port))%nat then false
    else match rsplit_once (chr ":"%char) host_port with
    | Some (host, port) => nonempty host && nonempty port && all_digits port
    | None => true
    end
  end.

Definition has_valid_raw_http_authority_syntax (uri_text : str) (allow_network_path_reference : bool)
    : bool :=
  match raw_http_prefix_len uri_text allow_network_path_reference with
  | None => false
  | Some prefix_len =>
    let remainder := skipn prefix_len uri_text in
    if negb (nonempty remainder) || starts_with (lit "/") remainder then false
    else
      let authority := (span_until is_authority_end remainder).1 in
      if negb (nonempty authority) then false
      else
        let host_port :=
          match rsplit_once (chr "@"%char) authority with Some (_, hp) => hp | None => authority end in
        valid_raw_host_port host_port
  end.

Definition is_valid_http_network_path_reference (uri_text : str) : bool :=
  has_valid_raw_http_authority_syntax uri_text true.

Definition is_http_scheme (scheme : str) : bool :=
  bool_decide (scheme = lit "http") || bool_decide (scheme = lit "https").

Definition is_valid_absolute_http_uri_text `{UrlCrate} (uri_text : str) : bool :=
  if negb (has_valid_raw_http_authority_syntax uri_text false) then false
  else match url_parse uri_text with
  | None => false
  | Some parsed =>
    is_http_scheme (url_scheme parsed)
    && match url_host_str parsed with Some _ => true | None => false end
  end.

(** ** Composition *)
Definition append_query (path query : str) : str :=
  match query with
  | [] => path
  | _ =>
    let '(path, fragment) := span_until (Z.eqb (chr "#"%char)) path in
    let path :=
      match split_once (chr "?"%char) path with
      | None => path ++ lit "?"
      | Some (_, q) => if nonempty q && negb (ends_with (lit "&") q) then path ++ lit "&" else path
      end in
    path ++ query ++ fragment
  end.

Definition join_base_path (base_url path : str) : str :=
  let base := trim_end_matches (chr "/"%char) base_url in
  match strip_prefix (lit "?") path with
  | Some suffix => match base with [] => lit "?" ++ suffix | _ => base ++ lit "?" ++ suffix end
  | None =>
    match strip_prefix (lit "#") path with
    | Some suffix => match base with [] => lit "#" ++ suffix | _ => base ++ lit "#" ++ suffix end
    | None =>
      let relative := match strip_prefix (lit "/") path with Some r => r | None => path end in
      match base, relative with
      | [], [] => []
      | [], _ => relative
      | _, [] => base
      | _, _ => base ++ lit "/" ++ relative
      end
    end
  end.

(** ** Lemmas *)
Lemma trim_start_with_head p s : match trim_start_with p s with [] => True | c :: _ => p c = false end.
Proof. induction s as [|c s IH]; simpl; [done|]. destruct (p c) eqn:Hc; [done|]. by rewrite Hc. Qed.

Lemma trim_start_with_id p s :
  match s with [] => True | c :: _ => p c = false end -> trim_start_with p s = s.
Proof. destruct s as [|c s]; simpl; [done|]. by intros ->. Qed.

Lemma span_until_app p s : let '(a, b) := span_until p s in s = a ++ b /\ Forall (fun c => p c = false) a /\
  match b with [] => True | c :: _ => p c = true end.
Proof.
  induction s as [|c s IH]; [done|]. simpl. destruct (p c) eqn:Hc; [done|].
  destruct (span_until p s) as [a b]. destruct IH as (-> & Ha & Hb). split; [done|].
  split; [by apply Forall_cons|done].
Qed.

Lemma normalize_host_key_nonempty h k : normalize_host_key h = Some k -> k <> [].
Proof. unfold normalize_host_key. case_match; naive_solver. Qed.

(** ** An instance for concrete inputs

    Absolute [http] and [https] URLs without userinfo, kept as their text. *)
Module RefUrl.

Definition rest (s : str) : option (str * str) :=
  match strip_prefix (lit "https://") s, strip_prefix (lit "http://") s with
  | Some r, _ => Some (lit "https", r)
  | None, Some r => Some (lit "http", r)
  | None, None => None
  end.

Definition authority (s : str) : str :=
  match rest s with Some (_, r) => (span_until is_authority_end r).1 | None => [] end.

Definition parse (s : str) : option str :=
  match authority s with
  | [] => None
  | a => if contains_char (chr "@"%char) a then None else Some s
  end.

Definition scheme (s : str) : str := match rest s with Some (sch, _) => sch | None => [] end.

Definition origin (s : str) : str := scheme s ++ lit "://" ++ authority s.

Definition after_authority (s : str) : str :=
  match rest s with Some (_, r) => (span_until is_authority_end r).2 | None => [] end.

Definition path (s : str) : str :=
  (span_until (fun c => (c =? chr "?"%char) || (c =? chr "#"%char)) (after_authority s)).1.

Definition query (s : str) : option str :=
  snd <$> split_once (chr "?"%char) (span_until (Z.eqb (chr "#"%char)) (after_authority s)).1.

Definition fragment (s : str) : option str := snd <$> split_once (chr "#"%char) (after_authority s).

Definition build (o p : str) (q f : option str) : str :=
  o ++ p ++ (match q with Some q => lit "?" ++ q | None => [] end)
    ++ (match f with Some f => lit "#" ++ f | None => [] end).

End RefUrl.

#[export] Instance ref_url : UrlCrate := {
  Url := str;
  url_parse := RefUrl.parse;
  url_join base r :=
    if starts_with (lit "/") r then RefUrl.parse (RefUrl.origin base ++ r) else RefUrl.parse r;
  url_as_str := id;
  url_scheme := RefUrl.scheme;
  url_host_str s := Some (RefUrl.authority s);
  url_username _ := [];
  url_password _ := None;
  url_path := RefUrl.path;
  url_path_segments s := Some (split_with (Z.eqb (chr "/"%char)) (drop 1 (RefUrl.path s)));
  url_query := RefUrl.query;
  url_fragment := RefUrl.fragment;
  url_set_username s _ := s;
  url_set_password s _ := s;
  url_set_query s q := RefUrl.build (RefUrl.origin s) (RefUrl.path s) q (RefUrl.fragment s);
  url_set_fragment s f := RefUrl.build (RefUrl.origin s) (RefUrl.path s) (RefUrl.query s) f;
  url_set_path s p := RefUrl.build (RefUrl.origin s) p (RefUrl.query s) (RefUrl.fragment s);
}.

(** ** Properties *)

(** The parts of a relative reference: before the first query or fragment mark,
    between them, and from the fragment mark on. *)
Definition before_fragment (s : str) : str := (span_until (Z.eqb (chr "#"%char)) s).1.
Definition ref_fragment (s : str) : str := (span_until (Z.eqb (chr "#"%char)) s).2.
Definition ref_path (s : str) : str := (span_until (Z.eqb (chr "?"%char)) (before_fragment s)).1.
Definition ref_query (s : str) : option str := snd <$> split_once (chr "?"%char) (before_fragment s).

Lemma span_until_app_l p a b :
  Forall (fun c => p c = false) a -> span_until p (a ++ b) = (a ++ (span_until p b).1, (span_until p b).2).
Proof.
  induction 1 as [|c a Hc Ha IH]; simpl; [by destruct (span_until p b)|].
  rewrite Hc, IH. done.
Qed.

Lemma span_until_stop p c b : p c = true -> span_until p (c :: b) = ([], c :: b).
Proof. simpl. by intros ->. Qed.

Lemma span_until_none p a : Forall (fun c => p c = false) a -> span_until p a = (a, []).
Proof. intros Ha. rewrite <- (app_nil_r a) at 1. rewrite span_until_app_l by done. by rewrite app_nil_r. Qed.

(** The fragment cut of a text without a mark followed by a fragment. *)
Lemma fragment_cut a f :
  Forall (fun c => Z.eqb (chr "#"%char) c = false) a ->
  match f with [] => True | c :: _ => Z.eqb (chr "#"%char) c = true end ->
  span_until (Z.eqb (chr "#"%char)) (a ++ f) = (a, f).
Proof.
  intros Ha Hf. rewrite span_until_app_l by done. destruct f as [|c f]; [by rewrite app_nil_r|].
  rewrite span_until_stop by done. by rewrite app_nil_r.
Qed.

Lemma append_query_text path query :
  query <> [] -> Forall (fun c => Z.eqb (chr "#"%char) c = false) query ->
  exists sep, append_query path query = (before_fragment path ++ sep ++ query) ++ ref_fragment path /\
    Forall (fun c => Z.eqb (chr "#"%char) c = false) (before_fragment path ++ sep ++ query) /\
    sep = match ref_query path with
          | None => lit "?"
          | Some q => if nonempty q && negb (ends_with (lit "&") q) then lit "&" else []
          end.
Proof.
  intros Hq Hh. unfold append_query, before_fragment, ref_fragment, ref_query, before_fragment.
  destruct query as [|c query]; [done|]. set (q := c :: query) in *.
  pose proof (span_until_app (Z.eqb (chr "#"%char)) path) as Hs.
  destruct (span_until (Z.eqb (chr "#"%char)) path) as [base frag]. destruct Hs as (_ & Hb & _). simpl fst. simpl snd.
  destruct (split_once (chr "?"%char) base) as [[l r]|]; simpl.
  - destruct (nonempty r && _).
    + exists (lit "&"). rewrite <- !app_assoc. split; [done|]. split; [|done].
      apply Forall_app_2; [done|]. by apply Forall_cons.
    + exists []. rewrite <- !app_assoc. split; [done|]. split; [|done]. by apply Forall_app_2.
  - exists (lit "?"). rewrite <- !app_assoc. split; [done|]. split; [|done].
    apply Forall_app_2; [done|]. by apply Forall_cons.
Qed.

Lemma split_once_app_l c a l r t :
  split_once c a = Some (l, r) -> split_once c (a ++ t) = Some (l, r ++ t).
Proof.
  unfold split_once. pose proof (span_until_app (Z.eqb c) a) as Hs.
  destruct (span_until (Z.eqb c) a) as [x [|y z]]; [done|]. destruct Hs as (-> & Hx & Hy).
  intros [= <- <-]. rewrite <- app_assoc. simpl. rewrite span_until_app_l by done.
  rewrite span_until_stop by done. by rewrite app_nil_r.
Qed.

Lemma split_once_none c a : split_once c a = None -> Forall (fun d => Z.eqb c d = false) a.
Proof.
  unfold split_once. pose proof (span_until_app (Z.eqb c) a) as Hs.
  destruct (span_until (Z.eqb c) a) as [x [|y z]]; [|done]. destruct Hs as (-> & Hx & _).
  by rewrite app_nil_r.
Qed.

(** append_query, parsed back, has the path and the fragment of the input and the
    query of the input extended by exactly the new query, with a single ampersand
    between them where one is needed. *)
Lemma append_query_parts path query :
  query <> [] -> chr "#"%char ∉ query ->
  ref_path (append_query path query) = ref_path path /\
  ref_fragment (append_query path query) = ref_fragment path /\
  ref_query (append_query path query) =
    Some (match ref_query path with
          | None | Some [] => query
          | Some q => if ends_with (lit "&") q then q ++ query else q ++ lit "&" ++ query
          end).
Proof.
  intros Hq Hh.
  assert (Forall (fun c => Z.eqb (chr "#"%char) c = false) query) as Hf.
  { apply Forall_forall. intros c Hc. apply Z.eqb_neq. by intros <-. }
  destruct (append_query_text path query Hq Hf) as (sep & -> & Hno & Hsep).
  unfold ref_path, ref_query, ref_fragment, before_fragment in *.
  pose proof (span_until_app (Z.eqb (chr "#"%char)) path) as Hs.
  destruct (span_until (Z.eqb (chr "#"%char)) path) as [base frag]. destruct Hs as (_ & Hb & Hfr).
  simpl in Hno, Hsep |- *. rewrite fragment_cut by done. simpl.
  destruct (split_once (chr "?"%char) base) as [[l r]|] eqn:Hsp; simpl in Hsep.
  - rewrite (split_once_app_l _ _ _ _ _ Hsp). simpl.
    unfold split_once in Hsp. pose proof (span_until_app (Z.eqb (chr "?"%char)) base) as Hs.
    destruct (span_until (Z.eqb (chr "?"%char)) base) as [x [|y z]]; simplify_eq.
    destruct Hs as (-> & Hx & Hy). rewrite <- app_assoc, span_until_app_l by done.
    rewrite <- app_comm_cons, span_until_stop by done. simpl. rewrite app_nil_r. split; [done|]. split; [done|]. f_equal.
    destruct r as [|c r]; [done|]. simpl. by destruct (ends_with _ _).
  - apply split_once_none in Hsp. subst sep. unfold split_once.
    rewrite span_until_app_l by done. simpl. rewrite app_nil_r, span_until_none by done. done.
Qed.

(** ** Witnesses *)
Lemma append_query_parts_witness :
  ref_query (append_query (lit "/v1?a=1#top") (lit "b=2")) = Some (lit "a=1&b=2") /\
  ref_fragment (append_query (lit "/v1?a=1#top") (lit "b=2")) = lit "#top".
Proof.
  destruct (append_query_parts (lit "/v1?a=1#top") (lit "b=2")) as (_ & Hf & Hq).
  - discriminate.
  - apply (bool_decide_unpack (chr "#"%char ∉ lit "b=2")). exact I.
  - exact (conj Hq Hf).
Defined.
