(* ===== verification/Errors.v ===== *)
(** * Errors (core/error.rs, core/util/transport_error.rs)

    The typed failures of the crate: [Error.t] with one constructor per variant of
    [enum Error], the stable [ErrorCode], and the accessors of [impl Error].  The
    theorems show that codes and their texts identify each other, that [ALL] lists
    every code once, that every code is the code of some error, and that an error
    that names a request names both its method and its URI. *)
From Stdlib Require Import Ascii String.
From S2P Require Import Prelude Float64 Text HttpApi.

(** ** Categories *)
Module TransportErrorKind.

Inductive t := Dns | Connect | Tls | Read | Other.

#[global] Instance eq_dec : EqDecision t.
Proof. solve_decision. Defined.

#[global] Instance countable : Countable t.
Proof.
  refine (inj_countable' (fun k => match k with Dns => 0 | Connect => 1 | Tls => 2 | Read => 3 | Other => 4 end)
    (fun n : Z => if n =? 0 then Dns else if n =? 1 then Connect else if n =? 2 then Tls
              else if n =? 3 then Read else Other) _).
  by intros [].
Defined.

(** [Display for TransportErrorKind]. *)
Definition fmt (k : t) : string :=
  match k with
  | Dns => "dns" | Connect => "connect" | Tls => "tls" | Read => "read" | Other => "other"
  end.

End TransportErrorKind.

Module TimeoutPhase.

Inductive t := Transport | ResponseBody.

#[global] Instance eq_dec : EqDecision t.
Proof. solve_decision. Defined.

#[global] Instance countable : Countable t.
Proof.
  refine (inj_countable' (fun p => match p with Transport => true | ResponseBody => false end)
    (fun b : bool => if b then Transport else ResponseBody) _).
  by intros [].
Defined.

(** [Display for TimeoutPhase]. *)
Definition fmt (p : t) : string :=
  match p with Transport => "transport" | ResponseBody => "response_body" end.

End TimeoutPhase.

Module ErrorCode.

Inductive t :=
| InvalidUri | InvalidEndpointConfig | InvalidNoProxyRule | InvalidDnsOverrideConfig
| InvalidProxyConfig | InvalidTimeoutConfig | InvalidClientNameConfig
| InvalidConcurrencyLimitConfig | InvalidRetryPolicy | InvalidRetryBudgetPolicy
| InvalidAdaptiveConcurrencyPolicy | InvalidCircuitBreakerPolicy | InvalidRateLimitPolicy
| SerializeJson | SerializeQuery | SerializeForm | RequestBuild | Transport | Timeout
| DeadlineExceeded | ReadBody | WriteBody | ResponseBodyTooLarge | HttpStatus | DeserializeJson
| DecodeText | InvalidHeaderName | InvalidHeaderValue | DecodeContentEncoding
| ConcurrencyLimitClosed | TlsBackendUnavailable | TlsBackendInit | TlsConfig
| RetryBudgetExhausted | CircuitOpen | MissingRedirectLocation | InvalidRedirectLocation
| RedirectLimitExceeded | RedirectBodyNotReplayable | FeatureUnavailable.

#[global] Instance eq_dec : EqDecision t.
Proof. solve_decision. Defined.

Definition ALL : list t := [
  InvalidUri; InvalidEndpointConfig; InvalidNoProxyRule; InvalidDnsOverrideConfig;
  InvalidProxyConfig; InvalidTimeoutConfig; InvalidClientNameConfig;
  InvalidConcurrencyLimitConfig; InvalidRetryPolicy; InvalidRetryBudgetPolicy;
  InvalidAdaptiveConcurrencyPolicy; InvalidCircuitBreakerPolicy; InvalidRateLimitPolicy;
  SerializeJson; SerializeQuery; SerializeForm; RequestBuild; Transport; Timeout;
  DeadlineExceeded; ReadBody; WriteBody; ResponseBodyTooLarge; HttpStatus; DeserializeJson;
  DecodeText; InvalidHeaderName; InvalidHeaderValue; DecodeContentEncoding;
  ConcurrencyLimitClosed; TlsBackendUnavailable; TlsBackendInit; TlsConfig;
  RetryBudgetExhausted; CircuitOpen; MissingRedirectLocation; InvalidRedirectLocation;
  RedirectLimitExceeded; RedirectBodyNotReplayable; FeatureUnavailable
].

Definition as_str (c : t) : string :=
  match c with
  | InvalidUri => "invalid_uri"
  | InvalidEndpointConfig => "invalid_endpoint_config"
  | InvalidNoProxyRule => "invalid_no_proxy_rule"
  | InvalidDnsOverrideConfig => "invalid_dns_override_config"
  | InvalidProxyConfig => "invalid_proxy_config"
  | InvalidTimeoutConfig => "invalid_timeout_config"
  | InvalidClientNameConfig => "invalid_client_name_config"
  | InvalidConcurrencyLimitConfig => "invalid_concurrency_limit_config"
  | InvalidRetryPolicy => "invalid_retry_policy"
  | InvalidRetryBudgetPolicy => "invalid_retry_budget_policy"
  | InvalidAdaptiveConcurrencyPolicy => "invalid_adaptive_concurrency_policy"
  | InvalidCircuitBreakerPolicy => "invalid_circuit_breaker_policy"
  | InvalidRateLimitPolicy => "invalid_rate_limit_policy"
  | FeatureUnavailable => "feature_unavailable"
  | SerializeJson => "serialize_json"
  | SerializeQuery => "serialize_query"
  | SerializeForm => "serialize_form"
  | RequestBuild => "request_build"
  | Transport => "transport"
  | Timeout => "timeout"
  | DeadlineExceeded => "deadline_exceeded"
  | ReadBody => "read_body"
  | WriteBody => "write_body"
  | ResponseBodyTooLarge => "response_body_too_large"
  | HttpStatus => "http_status"
  | DeserializeJson => "deserialize_json"
  | DecodeText => "decode_text"
  | InvalidHeaderName => "invalid_header_name"
  | InvalidHeaderValue => "invalid_header_value"
  | DecodeContentEncoding => "decode_content_encoding"
  | ConcurrencyLimitClosed => "concurrency_limit_closed"
  | TlsBackendUnavailable => "tls_backend_unavailable"
  | TlsBackendInit => "tls_backend_init"
  | TlsConfig => "tls_config"
  | RetryBudgetExhausted => "retry_budget_exhausted"
  | CircuitOpen => "circuit_open"
  | MissingRedirectLocation => "missing_redirect_location"
  | InvalidRedirectLocation => "invalid_redirect_location"
  | RedirectLimitExceeded => "redirect_limit_exceeded"
  | RedirectBodyNotReplayable => "redirect_body_not_replayable"
  end.

End ErrorCode.

(** ** Source errors

    The kinds of [std::io::Error] the crate distinguishes, and a boxed
    [dyn Error]: its concrete type, its [Display] text, the error an [io::Error]
    wraps ([get_ref]) and its [source()]. *)
Module IoErrorKind.

Inductive t :=
| NotFound | ConnectionRefused | ConnectionReset | HostUnreachable | NetworkUnreachable
| ConnectionAborted | NotConnected | AddrNotAvailable | NetworkDown | BrokenPipe
| WouldBlock | TimedOut | Interrupted | UnexpectedEof | Other.

#[global] Instance eq_dec : EqDecision t.
Proof. solve_decision. Defined.

End IoErrorKind.

Inductive ErrorType :=
| IoError (kind : IoErrorKind.t)
| TlsError
| OtherError.

#[local] Set Warnings "-register-all".
Inductive BoxError :=
| Dyn (ty : ErrorType) (display : str) (get_ref : option BoxError) (source : option BoxError).

Definition classify_io_transport_error_kind (kind : IoErrorKind.t) (is_connect_path : bool)
    : option TransportErrorKind.t :=
  match kind with
  | IoErrorKind.TimedOut | IoErrorKind.WouldBlock =>
    Some (if is_connect_path then TransportErrorKind.Connect else TransportErrorKind.Read)
  | IoErrorKind.NotFound => Some TransportErrorKind.Dns
  | IoErrorKind.ConnectionRefused | IoErrorKind.ConnectionAborted | IoErrorKind.NotConnected
  | IoErrorKind.AddrNotAvailable | IoErrorKind.HostUnreachable | IoErrorKind.NetworkUnreachable
  | IoErrorKind.NetworkDown => Some TransportErrorKind.Connect
  | IoErrorKind.ConnectionReset | IoErrorKind.BrokenPipe | IoErrorKind.UnexpectedEof =>
    Some TransportErrorKind.Read
  | _ => None
  end.

(** The walk of [is_tls_error]: through [get_ref] below an [io::Error], through
    [source] elsewhere. *)
Fixpoint is_tls_error (e : BoxError) : bool :=
  match e with
  | Dyn TlsError _ _ _ => true
  | Dyn (IoError _) _ get_ref _ =>
    match get_ref with Some inner => is_tls_error inner | None => false end
  | Dyn OtherError _ _ source =>
    match source with Some inner => is_tls_error inner | None => false end
  end.

(** ** The error enum *)
Module Error.
Section Error.
Context `{Http}.

Inductive t :=
| InvalidUri (uri : str)
| InvalidEndpointConfig (message : string)
| InvalidNoProxyRule (rule : str)
| InvalidDnsOverrideConfig (message : string)
| InvalidProxyConfig (proxy_uri : str) (message : str)
| ProxyAuthorizationRequiresHttpProxy
| InvalidTimeoutConfig
    (request_timeout_ms : Z) (total_timeout_ms : option Z) (connect_timeout_ms : option Z)
    (message : string)
| InvalidClientNameConfig (client_name_len : Z) (message : string)
| InvalidConcurrencyLimitConfig
    (max_in_flight : option Z) (max_in_flight_per_host : option Z) (message : string)
| InvalidRetryPolicy
    (max_attempts : Z) (base_backoff_ms : Z) (max_backoff_ms : Z) (jitter_ratio : f64)
    (message : string)
| InvalidRetryBudgetPolicy
    (window_ms : Z) (retry_ratio : f64) (min_retries_per_window : Z) (message : string)
| InvalidAdaptiveConcurrencyPolicy
    (min_limit : Z) (initial_limit : Z) (max_limit : Z) (message : string)
| InvalidCircuitBreakerPolicy
    (failure_threshold : Z) (open_timeout_ms : Z) (half_open_max_requests : Z)
    (half_open_success_threshold : Z) (message : string)
| InvalidRateLimitPolicy (requests_per_second : f64) (burst : Z) (message : string)
| SerializeJson (source : BoxError)
| SerializeQuery (source : BoxError)
| SerializeForm (source : BoxError)
| RequestBuild (source : BoxError)
| InvalidRequestFraming (method : Method) (uri : str) (message : string)
| Transport
    (kind : TransportErrorKind.t) (method : Method) (uri : str) (message : str)
    (source : BoxError)
| Timeout (phase : TimeoutPhase.t) (timeout_ms : Z) (method : Method) (uri : str)
| DeadlineExceeded (timeout_ms : Z) (method : Method) (uri : str)
| ReadBody (source : BoxError)
| WriteBody (method : Method) (uri : str) (source : BoxError)
| ResponseBodyTooLarge (limit_bytes : Z) (actual_bytes : Z) (method : Method) (uri : str)
| HttpStatus (status : Z) (method : Method) (uri : str) (headers : HeaderMap) (body : str)
| DeserializeJson (source : BoxError) (body : str)
| DecodeText (source : BoxError) (body : str)
| InvalidHeaderName (name : str) (source : BoxError)
| InvalidHeaderValue (name : str) (source : BoxError)
| DecodeContentEncoding (encoding : str) (method : Method) (uri : str) (message : str)
| ConcurrencyLimitClosed
| FeatureUnavailable (feature : string) (capability : string)
| TlsBackendUnavailable (backend : string)
| TlsBackendInit (backend : string) (message : str)
| TlsConfig (backend : string) (message : str)
| RetryBudgetExhausted (method : Method) (uri : str)
| CircuitOpen (method : Method) (uri : str) (retry_after_ms : Z)
| MissingRedirectLocation (status : Z) (method : Method) (uri : str)
| InvalidRedirectLocation (location : str) (method : Method) (uri : str)
| RedirectLimitExceeded (max_redirects : Z) (method : Method) (uri : str)
| RedirectBodyNotReplayable (method : Method) (uri : str).

Definition code (e : t) : ErrorCode.t :=
  match e with
  | InvalidUri _ => ErrorCode.InvalidUri
  | InvalidEndpointConfig _ => ErrorCode.InvalidEndpointConfig
  | InvalidNoProxyRule _ => ErrorCode.InvalidNoProxyRule
  | InvalidDnsOverrideConfig _ => ErrorCode.InvalidDnsOverrideConfig
  | InvalidProxyConfig _ _ => ErrorCode.InvalidProxyConfig
  | ProxyAuthorizationRequiresHttpProxy => ErrorCode.InvalidProxyConfig
  | InvalidTimeoutConfig _ _ _ _ => ErrorCode.InvalidTimeoutConfig
  | InvalidClientNameConfig _ _ => ErrorCode.InvalidClientNameConfig
  | InvalidConcurrencyLimitConfig _ _ _ => ErrorCode.InvalidConcurrencyLimitConfig
  | InvalidRetryPolicy _ _ _ _ _ => ErrorCode.InvalidRetryPolicy
  | InvalidRetryBudgetPolicy _ _ _ _ => ErrorCode.InvalidRetryBudgetPolicy
  | InvalidAdaptiveConcurrencyPolicy _ _ _ _ => ErrorCode.InvalidAdaptiveConcurrencyPolicy
  | InvalidCircuitBreakerPolicy _ _ _ _ _ => ErrorCode.InvalidCircuitBreakerPolicy
  | InvalidRateLimitPolicy _ _ _ => ErrorCode.InvalidRateLimitPolicy
  | SerializeJson _ => ErrorCode.SerializeJson
  | SerializeQuery _ => ErrorCode.SerializeQuery
  | SerializeForm _ => ErrorCode.SerializeForm
  | RequestBuild _ => ErrorCode.RequestBuild
  | InvalidRequestFraming _ _ _ => ErrorCode.RequestBuild
  | Transport _ _ _ _ _ => ErrorCode.Transport
  | Timeout _ _ _ _ => ErrorCode.Timeout
  | DeadlineExceeded _ _ _ => ErrorCode.DeadlineExceeded
  | ReadBody _ => ErrorCode.ReadBody
  | WriteBody _ _ _ => ErrorCode.WriteBody
  | ResponseBodyTooLarge _ _ _ _ => ErrorCode.ResponseBodyTooLarge
  | HttpStatus _ _ _ _ _ => ErrorCode.HttpStatus
  | DeserializeJson _ _ => ErrorCode.DeserializeJson
  | DecodeText _ _ => ErrorCode.DecodeText
  | InvalidHeaderName _ _ => ErrorCode.InvalidHeaderName
  | InvalidHeaderValue _ _ => ErrorCode.InvalidHeaderValue
  | DecodeContentEncoding _ _ _ _ => ErrorCode.DecodeContentEncoding
  | ConcurrencyLimitClosed => ErrorCode.ConcurrencyLimitClosed
  | FeatureUnavailable _ _ => ErrorCode.FeatureUnavailable
  | TlsBackendUnavailable _ => ErrorCode.TlsBackendUnavailable
  | TlsBackendInit _ _ => ErrorCode.TlsBackendInit
  | TlsConfig _ _ => ErrorCode.TlsConfig
  | RetryBudgetExhausted _ _ => ErrorCode.RetryBudgetExhausted
  | CircuitOpen _ _ _ => ErrorCode.CircuitOpen
  | MissingRedirectLocation _ _ _ => ErrorCode.MissingRedirectLocation
  | InvalidRedirectLocation _ _ _ => ErrorCode.InvalidRedirectLocation
  | RedirectLimitExceeded _ _ _ => ErrorCode.RedirectLimitExceeded
  | RedirectBodyNotReplayable _ _ => ErrorCode.RedirectBodyNotReplayable
  end.

Definition status_code (e : t) : option Z :=
  match e with HttpStatus status _ _ _ _ => Some status | _ => None end.

Definition response_headers (e : t) : option HeaderMap :=
  match e with HttpStatus _ _ _ headers _ => Some headers | _ => None end.

Definition request_id (e : t) : option str :=
  headers ← response_headers e;
  value ← match hm_get headers (header_name "x-request-id") with
          | Some v => Some v
          | None => match hm_get headers (header_name "x-amz-request-id") with
                    | Some v => Some v
                    | None => hm_get headers (header_name "x-amz-id-2")
                    end
          end;
  to_str value.

Definition request_method (e : t) : option Method :=
  match e with
  | InvalidRequestFraming method _ _ => Some method
  | Transport _ method _ _ _ => Some method
  | Timeout _ _ method _ => Some method
  | DeadlineExceeded _ method _ => Some method
  | WriteBody method _ _ => Some method
  | ResponseBodyTooLarge _ _ method _ => Some method
  | HttpStatus _ method _ _ _ => Some method
  | DecodeContentEncoding _ method _ _ => Some method
  | RetryBudgetExhausted method _ => Some method
  | CircuitOpen method _ _ => Some method
  | MissingRedirectLocation _ method _ => Some method
  | InvalidRedirectLocation _ method _ => Some method
  | RedirectLimitExceeded _ method _ => Some method
  | RedirectBodyNotReplayable method _ => Some method
  | _ => None
  end.

Definition request_uri_redacted (e : t) : option str :=
  match e with
  | InvalidUri uri => Some uri
  | InvalidProxyConfig proxy_uri _ => Some proxy_uri
  | InvalidRequestFraming _ uri _ => Some uri
  | Transport _ _ uri _ _ => Some uri
  | Timeout _ _ _ uri => Some uri
  | DeadlineExceeded _ _ uri => Some uri
  | WriteBody _ uri _ => Some uri
  | ResponseBodyTooLarge _ _ _ uri => Some uri
  | HttpStatus _ _ uri _ _ => Some uri
  | DecodeContentEncoding _ _ uri _ => Some uri
  | RetryBudgetExhausted _ uri => Some uri
  | CircuitOpen _ uri _ => Some uri
  | MissingRedirectLocation _ _ uri => Some uri
  | InvalidRedirectLocation _ _ uri => Some uri
  | RedirectLimitExceeded _ _ uri => Some uri
  | RedirectBodyNotReplayable _ uri => Some uri
  | _ => None
  end.

Definition request_path (e : t) : option str :=
  uri ← request_uri_redacted e;
  let textual :=
    let without_query := match split_once (chr "?"%char) uri with Some (l, _) => l | None => uri end in
    let without_fragment :=
      match split_once (chr "#"%char) without_query with Some (l, _) => l | None => without_query end in
    match without_fragment with [] => None | _ => Some without_fragment end in
  match uri_parse uri with
  | Some parsed =>
    match uri_path parsed with
    | [] => textual
    | path => Some path
    end
  | None => textual
  end.

End Error.
End Error.

(** ** Theorems *)
Section Theorems.
Context `{Http}.

Lemma error_code_all_complete c : c ∈ ErrorCode.ALL.
Proof. destruct c; apply list_elem_of_In; vm_compute; tauto. Qed.

Lemma error_code_all_nodup : NoDup ErrorCode.ALL.
Proof. apply (bool_decide_unpack (NoDup ErrorCode.ALL)). vm_compute. exact I. Qed.

Lemma error_code_as_str_inj : Inj (=) (=) ErrorCode.as_str.
Proof. intros [] []; (reflexivity || discriminate). Qed.

Lemma error_code_realised c : exists e : Error.t, Error.code e = c.
Proof.
  pose (b := Dyn OtherError [] None None).
  destruct c.
  all: first
    [ by exists (Error.InvalidUri []) | by exists (Error.InvalidEndpointConfig "")
    | by exists (Error.InvalidNoProxyRule []) | by exists (Error.InvalidDnsOverrideConfig "")
    | by exists (Error.InvalidProxyConfig [] []) | by exists (Error.InvalidTimeoutConfig 0 None None "")
    | by exists (Error.InvalidClientNameConfig 0 "")
    | by exists (Error.InvalidConcurrencyLimitConfig None None "")
    | by exists (Error.InvalidRetryPolicy 0 0 0 f64_zero "")
    | by exists (Error.InvalidRetryBudgetPolicy 0 f64_zero 0 "")
    | by exists (Error.InvalidAdaptiveConcurrencyPolicy 0 0 0 "")
    | by exists (Error.InvalidCircuitBreakerPolicy 0 0 0 0 "")
    | by exists (Error.InvalidRateLimitPolicy f64_zero 0 "")
    | by exists (Error.SerializeJson b) | by exists (Error.SerializeQuery b)
    | by exists (Error.SerializeForm b) | by exists (Error.RequestBuild b)
    | by exists (Error.Transport TransportErrorKind.Dns GET [] [] b)
    | by exists (Error.Timeout TimeoutPhase.Transport 0 GET [])
    | by exists (Error.DeadlineExceeded 0 GET []) | by exists (Error.ReadBody b)
    | by exists (Error.WriteBody GET [] b) | by exists (Error.ResponseBodyTooLarge 0 0 GET [])
    | by exists (Error.HttpStatus 0 GET [] hm_new []) | by exists (Error.DeserializeJson b [])
    | by exists (Error.DecodeText b []) | by exists (Error.InvalidHeaderName [] b)
    | by exists (Error.InvalidHeaderValue [] b)
    | by exists (Error.DecodeContentEncoding [] GET [] []) | by exists Error.ConcurrencyLimitClosed
    | by exists (Error.FeatureUnavailable "" "") | by exists (Error.TlsBackendUnavailable "")
    | by exists (Error.TlsBackendInit "" []) | by exists (Error.TlsConfig "" [])
    | by exists (Error.RetryBudgetExhausted GET []) | by exists (Error.CircuitOpen GET [] 0)
    | by exists (Error.MissingRedirectLocation 0 GET [])
    | by exists (Error.InvalidRedirectLocation [] GET [])
    | by exists (Error.RedirectLimitExceeded 0 GET [])
    | by exists (Error.RedirectBodyNotReplayable GET []) ].
Qed.

(** The stable error codes form a faithful enumeration: ALL lists every code once,
    the textual names are injective, and every code is the code of some error. *)
Lemma error_codes_stable c :
  c ∈ ErrorCode.ALL /\ NoDup ErrorCode.ALL /\
  (forall c', ErrorCode.as_str c = ErrorCode.as_str c' -> c = c') /\
  exists e : Error.t, Error.code e = c.
Proof.
  split_and!; [apply error_code_all_complete|apply error_code_all_nodup| |apply error_code_realised].
  intros c'. apply error_code_as_str_inj.
Qed.

Lemma request_method_has_uri (e : Error.t) :
  is_Some (Error.request_method e) -> is_Some (Error.request_uri_redacted e).
Proof. destruct e; simpl; intros [? ?]; simplify_eq; eauto. Qed.

(** Only an [HttpStatus] error carries a status, headers or a request id. *)
Lemma request_id_of_http_status (e : Error.t) r :
  Error.request_id e = Some r -> Error.code e = ErrorCode.HttpStatus.
Proof. by destruct e. Qed.

Lemma request_path_nonempty (e : Error.t) p : Error.request_path e = Some p -> p <> [].
Proof.
  unfold Error.request_path. destruct (Error.request_uri_redacted e) as [uri|]; simpl; [|done].
  intros Hp ->. repeat case_match; simplify_eq.
Qed.

End Theorems.
