(* ===== verification/Redaction.v ===== *)
(** * Redaction for logs (core/util/redaction.rs)

    Removal of queries, fragments, userinfo and credential-like path segments from
    the URIs that reach logs and errors.  Byte offsets of the code are code-point
    offsets here: every slice boundary the code computes lies on a character. *)
From Stdlib Require Import Ascii String.
From S2P Require Import Prelude Text HttpApi UriText Errors.

(** [str::find] of a substring. *)
Fixpoint find_sub (p s : str) : option nat :=
  if starts_with p s then Some 0%nat
  else match s with [] => None | _ :: s' => S <$> find_sub p s' end.

(** [str::find] of a character. *)
Fixpoint find_char (p : Z -> bool) (s : str) : option nat :=
  match s with
  | [] => None
  | c :: s' => if p c then Some 0%nat else S <$> find_char p s'
  end.

(** ** Without URL parsing *)
Definition strip_query_and_fragment (uri_text : str) : str :=
  let query_index := find_char (Z.eqb (chr "?"%char)) uri_text in
  let fragment_index := find_char (Z.eqb (chr "#"%char)) uri_text in
  let cutoff :=
    match query_index, fragment_index with
    | Some query, Some fragment => Nat.min query fragment
    | Some query, None => query
    | None, Some fragment => fragment
    | None, None => length uri_text
    end in
  take cutoff uri_text.

Definition redact_with_prefix (prefix rest : str) : option str :=
  let '(authority, suffix) := span_until (Z.eqb (chr "/"%char)) rest in
  '(_, host_port) ← rsplit_once (chr "@"%char) authority;
  match host_port with
  | [] => Some (prefix ++ lit "<redacted>@" ++ suffix)
  | _ => Some (prefix ++ host_port ++ suffix)
  end.

Definition redact_userinfo_in_authority (uri_text : str) : str :=
  match find_sub (lit "://") uri_text with
  | Some scheme_separator =>
    let prefix_end := (scheme_separator + 3)%nat in
    match redact_with_prefix (take prefix_end uri_text) (skipn prefix_end uri_text) with
    | Some redacted => redacted
    | None => uri_text
    end
  | None =>
    match strip_prefix (lit "//") uri_text with
    | Some rest =>
      match redact_with_prefix (lit "//") rest with Some redacted => redacted | None => uri_text end
    | None => uri_text
    end
  end.

Definition contains_sub (p s : str) : bool := match find_sub p s with Some _ => true | None => false end.

Definition redact_non_authority_credentials (uri_text : str) : str :=
  match split_once (chr ":"%char) uri_text with
  | None => uri_text
  | Some (scheme, remainder) =>
    let redactable_scheme :=
      existsb (fun s => bool_decide (to_ascii_lowercase scheme = lit s)) ["mailto"; "sip"; "sips"]%string in
    if negb redactable_scheme then uri_text
    else if starts_with (lit "//") remainder then uri_text
    else match rsplit_once (chr "@"%char) remainder with
    | None => uri_text
    | Some ([], _) => uri_text
    | Some (credential_like_prefix, suffix) =>
      if negb (contains_char (chr ":"%char) credential_like_prefix)
         && negb (contains_sub (lit "%3a") (to_ascii_lowercase credential_like_prefix))
      then uri_text
      else scheme ++ lit ":<redacted>@" ++ suffix
    end
  end.

Definition redact_uri_without_url_normalization (uri_text : str) : str :=
  redact_non_authority_credentials
    (redact_userinfo_in_authority (strip_query_and_fragment uri_text)).

(** ** Path segments *)
Definition is_token_char (c : Z) : bool :=
  is_ascii_alphanumeric c || existsb (Z.eqb c) (lit "-_.~+=").

Definition is_token_like (segment : str) : bool := nonempty segment && forallb is_token_char segment.

Definition credential_separator (segment : str) : option (nat * nat) :=
  let plain := (fun i => (i, 1%nat)) <$> find_char (Z.eqb (chr ":"%char)) segment in
  let encoded := (fun i => (i, 3%nat)) <$> find_sub (lit "%3a") (to_ascii_lowercase segment) in
  match plain, encoded with
  | Some plain, Some encoded => Some (if (plain.1 <=? encoded.1)%nat then plain else encoded)
  | Some separator, None | None, Some separator => Some separator
  | None, None => None
  end.

Definition split_credential_like_segment (segment : str) : option (str * str) :=
  '(separator_index, separator_len) ← credential_separator segment;
  let left := take separator_index segment in
  let right := skipn (separator_index + separator_len) segment in
  if negb (nonempty left) || negb (nonempty right) then None
  else if (str_len left <? 3) || (str_len right <? 6) then None
  else if negb (is_token_like left) || negb (is_token_like right) then None
  else Some (left, right).

Definition redact_segment (segment : str) : str :=
  match split_credential_like_segment segment with
  | Some (kept, _) => kept ++ lit ":redacted"
  | None => segment
  end.

Section WithUrl.
Context `{UrlCrate}.

Definition redact_sensitive_path_segments (parsed : Url) : Url :=
  match url_path_segments parsed with
  | None | Some [] => parsed
  | Some path_segments =>
    if forallb (fun s => match split_credential_like_segment s with Some _ => false | None => true end)
         path_segments
    then parsed
    else
      let has_trailing_slash := ends_with (lit "/") (url_path parsed) in
      let rebuilt_path := concat ((fun s => lit "/" ++ redact_segment s) <$> path_segments) in
      let rebuilt_path :=
        if negb (nonempty rebuilt_path) || (has_trailing_slash && negb (ends_with (lit "/") rebuilt_path))
        then rebuilt_path ++ lit "/" else rebuilt_path in
      url_set_path parsed rebuilt_path
  end.

Definition looks_like_http_absolute (uri_text : str) : bool :=
  has_prefix_ignore_case (lit "http://") uri_text || has_prefix_ignore_case (lit "https://") uri_text.

Definition redact_uri_for_logs (uri_text : str) : str :=
  if looks_like_http_absolute uri_text && negb (is_valid_absolute_http_uri_text uri_text)
  then redact_uri_without_url_normalization uri_text
  else match url_parse uri_text with
  | None => redact_uri_without_url_normalization uri_text
  | Some parsed =>
    let parsed := url_set_username parsed [] in
    let parsed := url_set_password parsed None in
    let parsed := url_set_query parsed None in
    let parsed := url_set_fragment parsed None in
    let parsed := redact_sensitive_path_segments parsed in
    redact_non_authority_credentials (redact_userinfo_in_authority (url_as_str parsed))
  end.

(** ** Free text *)
Definition uri_like_patterns : list string := ["https://"; "http://"; "mailto:"; "sips:"; "sip:"]%string.

(** [min_by_key] on the index: the first pattern of the least index. *)
Definition uri_pattern_step (lower : str) (offset : nat) (best : option (nat * nat)) (pattern : string)
    : option (nat * nat) :=
  match find_sub (lit pattern) (skipn offset lower) with
  | None => best
  | Some index =>
    match best with
    | Some (best_index, _) =>
      if (offset + index <? best_index)%nat then Some ((offset + index)%nat, length (lit pattern)) else best
    | None => Some ((offset + index)%nat, length (lit pattern))
    end
  end.

Definition find_uri_like_start (lower : str) (offset : nat) : option (nat * nat) :=
  fold_left (uri_pattern_step lower offset) uri_like_patterns None.

(** The index of the last character satisfying [p]. *)
Definition rfind_char (p : Z -> bool) (s : str) : option nat :=
  (fun i => (length s - 1 - i)%nat) <$> find_char p (reverse s).

Definition is_uri_delimiter (c : Z) : bool :=
  (c =? chr ","%char) || (c =? chr ";"%char) || (c =? chr "|"%char).

Definition uri_like_span_end (core lower : str) (uri_start pattern_len : nat) : nat :=
  match find_uri_like_start lower (uri_start + pattern_len) with
  | None => length core
  | Some (next_uri_start, _) =>
    match rfind_char is_uri_delimiter (take (next_uri_start - uri_start) (skipn uri_start core)) with
    | Some index => (uri_start + index)%nat
    | None => next_uri_start
    end
  end.

Definition slice (a b : nat) (s : str) : str := take (b - a) (skipn a s).

(** The loop of [redact_uri_like_core_for_logs] from [copied_until = search_from]. *)
Fixpoint redact_core_from (fuel : nat) (core lower : str) (from : nat) : str :=
  match fuel with
  | O => skipn from core
  | S fuel =>
    match find_uri_like_start lower from with
    | None => skipn from core
    | Some (uri_start, pattern_len) =>
      let uri_end := uri_like_span_end core lower uri_start pattern_len in
      slice from uri_start core ++ redact_uri_for_logs (slice uri_start uri_end core)
        ++ redact_core_from fuel core lower uri_end
    end
  end.

Definition redact_uri_like_core_for_logs (core : str) : str :=
  redact_core_from (S (length core)) core (to_ascii_lowercase core) 0.

Definition LEADING_PUNCTUATION : str := lit "([{<'" ++ [34].
Definition TRAILING_PUNCTUATION : str := lit ")]}>',;" ++ [34].

Definition redact_uri_like_token_for_logs (token : str) : str :=
  let '(leading, without_leading) :=
    span_until (fun c => negb (existsb (Z.eqb c) LEADING_PUNCTUATION)) token in
  let core := trim_end_with (fun c => existsb (Z.eqb c) TRAILING_PUNCTUATION) without_leading in
  let trailing := skipn (length core) without_leading in
  match find_uri_like_start (to_ascii_lowercase core) 0 with
  | None => token
  | Some _ => leading ++ redact_uri_like_core_for_logs core ++ trailing
  end.

(** [split_inclusive(char::is_whitespace)]. *)
Fixpoint split_inclusive (p : Z -> bool) (s : str) : list str :=
  match s with
  | [] => []
  | c :: s' =>
    if p c then [c] :: split_inclusive p s'
    else match split_inclusive p s' with
         | piece :: rest => (c :: piece) :: rest
         | [] => [[c]]
         end
  end.

Definition redact_token_with_space (token : str) : str :=
  let body := trim_end_with is_whitespace token in
  redact_uri_like_token_for_logs body ++ skipn (length body) token.

Definition redact_uri_like_text_for_logs (text : str) : str :=
  concat (redact_token_with_space <$> split_inclusive is_whitespace text).

(** ** Error summaries (core/error.rs) *)
Fixpoint error_chain (e : BoxError) : list str :=
  match e with
  | Dyn _ display _ source =>
    redact_uri_like_text_for_logs display :: match source with Some inner => error_chain inner | None => [] end
  end.

(** Consecutive repetitions are kept once: a message is compared with the last pushed. *)
Definition push_distinct (messages : list str) (message : str) : list str :=
  if bool_decide (last messages = Some message) then messages else messages ++ [message].

Fixpoint join (sep : str) (l : list str) : str :=
  match l with
  | [] => []
  | [x] => x
  | x :: l => x ++ sep ++ join sep l
  end.

Definition summarize_error_chain (e : BoxError) : str :=
  join (lit ": ") (fold_left push_distinct (error_chain e) []).

Definition transport_error `{Http} (kind : TransportErrorKind.t) (method : Method) (uri : str)
    (source : BoxError) : Error.t :=
  Error.Transport kind method uri (summarize_error_chain source) source.

End WithUrl.

(** ** Lemmas *)
Lemma find_char_take p s :
  match find_char p s with
  | Some i => Forall (fun c => p c = false) (take i s)
  | None => Forall (fun c => p c = false) s
  end.
Proof.
  induction s as [|c s IH]; simpl; [done|]. destruct (p c) eqn:Hc; [done|].
  destruct (find_char p s); simpl; by apply Forall_cons.
Qed.

Lemma Forall_take_le {A} (P : A -> Prop) i j (l : list A) : (i <= j)%nat -> Forall P (take j l) -> Forall P (take i l).
Proof. intros Hij Hl. replace i with (i `min` j)%nat by lia. rewrite <- take_take. by apply Forall_take. Qed.

Lemma strip_query_and_fragment_clean s :
  Forall (fun c => c <> chr "?"%char /\ c <> chr "#"%char) (strip_query_and_fragment s).
Proof.
  apply Forall_and. unfold strip_query_and_fragment.
  pose proof (find_char_take (Z.eqb (chr "?"%char)) s) as Hq.
  pose proof (find_char_take (Z.eqb (chr "#"%char)) s) as Hf.
  assert (forall c l, Forall (fun d => Z.eqb c d = false) l -> Forall (fun d => d <> c) l) as Hne.
  { intros c l Hl. eapply Forall_impl; [exact Hl|]. intros d Hd. apply Z.eqb_neq in Hd. congruence. }
  destruct (find_char (Z.eqb (chr "?"%char)) s) as [i|], (find_char (Z.eqb (chr "#"%char)) s) as [j|];
    split; apply Hne; rewrite ?take_ge by done; try done; try by apply Forall_take.
  - eapply Forall_take_le; [|exact Hq]. lia.
  - eapply Forall_take_le; [|exact Hf]. lia.
Qed.

Lemma rsplit_once_spec c s :
  match rsplit_once c s with
  | Some (a, b) => s = a ++ c :: b /\ c ∉ b
  | None => c ∉ s
  end.
Proof.
  unfold rsplit_once. pose proof (span_until_app (Z.eqb c) (reverse s)) as Hs.
  destruct (span_until (Z.eqb c) (reverse s)) as [x [|y z]]; destruct Hs as (Hr & Hx & Hy).
  - rewrite app_nil_r in Hr. intros Hin. rewrite Forall_forall in Hx.
    assert (c ∈ x) as Hin' by (rewrite <- Hr; by apply elem_of_reverse).
    apply Hx in Hin'. zbool. done.
  - zbool. subst y. split.
    + rewrite <- (reverse_involutive s), Hr, reverse_app, reverse_cons, <- app_assoc. done.
    + intros Hin. rewrite elem_of_reverse in Hin. rewrite Forall_forall in Hx. apply Hx in Hin. zbool. done.
Qed.

Lemma redact_with_prefix_spec prefix rest :
  let '(authority, suffix) := span_until (Z.eqb (chr "/"%char)) rest in
  match redact_with_prefix prefix rest with
  | None => chr "@"%char ∉ authority
  | Some out => exists host,
      out = prefix ++ host ++ suffix /\
      (host = lit "<redacted>@" \/ (chr "@"%char ∉ host) /\ exists user, authority = user ++ (chr "@"%char :: host))
  end.
Proof.
  unfold redact_with_prefix. destruct (span_until (Z.eqb (chr "/"%char)) rest) as [authority suffix].
  pose proof (rsplit_once_spec (chr "@"%char) authority) as Hr.
  destruct (rsplit_once (chr "@"%char) authority) as [[user host]|]; [|done].
  destruct Hr as [-> Hno]. destruct host as [|c host].
  - exists (lit "<redacted>@"). split; [done|]. by left.
  - exists (c :: host). split; [done|]. right. split; [done|]. by exists user.
Qed.

Lemma find_sub_Some p s i : find_sub p s = Some i -> starts_with p (skipn i s) = true.
Proof.
  revert i. induction s as [|c s IH]; intros i; simpl.
  - destruct (starts_with p []) eqn:Hs; [|done]. by intros [= <-].
  - destruct (starts_with p (c :: s)) eqn:Hs; [by intros [= <-]|].
    destruct (find_sub p s) as [j|]; simpl; [|done]. intros [= <-]. simpl. by apply IH.
Qed.

(** Cutting at the first slash a text whose part before the slash has none. *)
Lemma authority_cut host suffix :
  chr "/"%char ∉ host ->
  match suffix with [] => True | c :: _ => Z.eqb (chr "/"%char) c = true end ->
  span_until (Z.eqb (chr "/"%char)) (host ++ suffix) = (host, suffix).
Proof.
  intros Hh Hs. assert (Forall (fun c => Z.eqb (chr "/"%char) c = false) host) as Hf.
  { apply Forall_forall. intros c Hc. apply Z.eqb_neq. by intros <-. }
  rewrite span_until_app_l by done. destruct suffix as [|c suffix]; [by rewrite app_nil_r|].
  rewrite span_until_stop by done. by rewrite app_nil_r.
Qed.

Lemma not_elem_suffix {A} (x y : A) l1 l2 : x ∉ l1 ++ y :: l2 -> x ∉ l2.
Proof. set_solver. Qed.

(** *** URIs in free text *)
Lemma find_sub_first p s j :
  match find_sub p s with
  | Some i => (j < i)%nat -> starts_with p (skipn j s) = false
  | None => starts_with p (skipn j s) = false
  end.
Proof.
  revert j. induction s as [|c s IH]; intros j; simpl.
  - destruct (starts_with p []) eqn:Hs; [lia|]. by rewrite drop_nil.
  - destruct (starts_with p (c :: s)) eqn:Hs; [lia|]. destruct j as [|j].
    + destruct (find_sub p s); simpl; auto.
    + specialize (IH j). destruct (find_sub p s); simpl; [|done]. intros ?. apply IH. lia.
Qed.

(** A pattern of [find_uri_like_start] occurs at an index of the lowered text. *)
Definition uri_at (lower : str) (j : nat) : Prop :=
  exists pattern, pattern ∈ uri_like_patterns /\ starts_with (lit pattern) (skipn j lower) = true.

Definition match_of (lower : str) (offset : nat) (ps : list string) (i n : nat) : Prop :=
  exists pattern k, pattern ∈ ps /\ find_sub (lit pattern) (skipn offset lower) = Some k /\
    i = (offset + k)%nat /\ n = length (lit pattern).

Lemma match_of_snoc lower offset ps p i n :
  match_of lower offset (ps ++ [p]) i n <->
  match_of lower offset ps i n \/
  exists k, find_sub (lit p) (skipn offset lower) = Some k /\ i = (offset + k)%nat /\ n = length (lit p).
Proof.
  split.
  - intros (q & k & [Hq| ->%list_elem_of_singleton]%elem_of_app & Hk & -> & ->).
    + left. by exists q, k.
    + right. by exists k.
  - intros [(q & k & Hq & Hr)|(k & Hk & -> & ->)]; [exists q, k|exists p, k]; (split; [|done]); set_solver.
Qed.

(** The fold over the patterns, from no match, keeps the least match. *)
Lemma least_match_spec lower offset ps :
  match fold_left (uri_pattern_step lower offset) ps None with
  | Some (i, n) => match_of lower offset ps i n /\ forall bi bn, match_of lower offset ps bi bn -> (i <= bi)%nat
  | None => forall bi bn, ~ match_of lower offset ps bi bn
  end.
Proof.
  induction ps as [|p ps IH] using rev_ind.
  { simpl. by intros ? ? (? & ? & []%not_elem_of_nil & _). }
  pose proof (match_of_snoc lower offset ps p) as Hsnoc. rewrite fold_left_app. simpl.
  destruct (fold_left (uri_pattern_step lower offset) ps None) as [[i n]|]; unfold uri_pattern_step;
    destruct (find_sub (lit p) (skipn offset lower)) as [k|].
  - destruct IH as [Hm Hle]. destruct (Nat.ltb_spec (offset + k) i); (split; [apply Hsnoc; eauto|]);
      intros bi bn [?%Hle|(? & [= <-] & -> & _)]%Hsnoc; lia.
  - destruct IH as [Hm Hle]. split; [apply Hsnoc; eauto|].
    by intros bi bn [?%Hle|(? & ? & _)]%Hsnoc.
  - split; [apply Hsnoc; eauto|]. by intros bi bn [[]%IH|(? & [= <-] & -> & _)]%Hsnoc.
  - by intros bi bn [[]%IH|(? & ? & _)]%Hsnoc.
Qed.

Lemma find_uri_like_start_spec lower offset :
  match find_uri_like_start lower offset with
  | Some (i, n) =>
    (offset <= i)%nat /\ (forall j, (offset <= j < i)%nat -> ~ uri_at lower j) /\
    exists pattern, pattern ∈ uri_like_patterns /\ n = length (lit pattern) /\
      starts_with (lit pattern) (skipn i lower) = true
  | None => forall j, (offset <= j)%nat -> ~ uri_at lower j
  end.
Proof.
  assert (forall j p, p ∈ uri_like_patterns -> (offset <= j)%nat ->
    starts_with (lit p) (skipn j lower) = true ->
    exists i n, match_of lower offset uri_like_patterns i n /\ (i <= j)%nat) as Hfind.
  { intros j p Hp Hj Hs. pose proof (find_sub_first (lit p) (skipn offset lower) (j - offset)) as Hf.
    rewrite drop_drop, Nat.add_comm, Nat.sub_add in Hf by done.
    destruct (find_sub (lit p) (skipn offset lower)) as [k|] eqn:Hk; [|congruence].
    exists (offset + k)%nat, (length (lit p)). split; [by exists p, k|].
    destruct (Nat.le_gt_cases (offset + k) j); [done|]. rewrite Hf in Hs by lia. done. }
  unfold find_uri_like_start. pose proof (least_match_spec lower offset uri_like_patterns) as Hl.
  destruct (fold_left _ _ _) as [[i n]|].
  - destruct Hl as [(p & k & Hp & Hk & -> & ->) Hle]. split_and!; [lia| |].
    + intros j Hj (q & Hq & Hs). destruct (Hfind j q) as (i & n & ?%Hle & ?); [done|lia|done|lia].
    + exists p. split_and!; [done..|]. apply find_sub_Some in Hk. by rewrite drop_drop in Hk.
  - intros j Hj (q & Hq & Hs). destruct (Hfind j q) as (i & n & []%Hl & _); done.
Qed.

(** The patterns are not empty and have no delimiter, in either case. *)
Lemma pattern_facts p c :
  p ∈ uri_like_patterns ->
  (0 < length (lit p))%nat /\ (to_ascii_lowercase_char c ∈ lit p -> is_uri_delimiter c = false).
Proof.
  intros Hp. assert (forall d, d ∈ lit p -> 47 <= d /\ d <> 59 /\ d <> 124 /\ (d <= 58 \/ 97 <= d)) as Hd.
  { intros d. unfold uri_like_patterns in Hp. repeat (apply elem_of_cons in Hp as [->|Hp]; [
      simpl; rewrite !elem_of_cons; intros Hd; repeat destruct Hd as [->|Hd]; try lia; set_solver|]).
    set_solver. }
  split; [unfold uri_like_patterns in Hp; set_solver by (simpl; lia)|].
  intros Hc%Hd. revert Hc. unfold to_ascii_lowercase_char, is_uri_delimiter, is_ascii_upper.
  change (chr ","%char) with 44. change (chr ";"%char) with 59. change (chr "|"%char) with 124.
  case_match; zbool; intros; repeat (apply orb_false_iff; split); apply Z.eqb_neq; lia.
Qed.

Lemma find_char_split p s :
  match find_char p s with
  | Some i => exists l c r, s = l ++ c :: r /\ length l = i /\ p c = true /\ Forall (fun d => p d = false) l
  | None => Forall (fun d => p d = false) s
  end.
Proof.
  induction s as [|c s IH]; simpl; [constructor|]. destruct (p c) eqn:Hc.
  - exists [], c, s. by split_and!.
  - destruct (find_char p s) as [i|]; simpl; [|by constructor].
    destruct IH as (l & d & r & -> & <- & Hd & Hl). exists (c :: l), d, r. split_and!; [done..|]. by constructor.
Qed.

(** The last character satisfying [p] splits the text. *)
Lemma rfind_char_split p s :
  match rfind_char p s with
  | Some i => exists l c r, s = l ++ c :: r /\ length l = i /\ p c = true /\ Forall (fun d => p d = false) r
  | None => Forall (fun d => p d = false) s
  end.
Proof.
  unfold rfind_char. pose proof (find_char_split p (reverse s)) as Hf.
  destruct (find_char p (reverse s)) as [i|]; simpl; [|by rewrite <- (reverse_involutive s); apply Forall_reverse].
  destruct Hf as (l & c & r & Hs & <- & Hc & Hl).
  assert (s = reverse r ++ c :: reverse l) as ->.
  { rewrite <- (reverse_involutive s), Hs, reverse_app, reverse_cons, <- app_assoc. done. }
  exists (reverse r), c, (reverse l). split_and!; [done| |done|by apply Forall_reverse].
  rewrite length_app, !length_cons, !length_reverse. lia.
Qed.

Lemma rfind_char_spec p s :
  match rfind_char p s with
  | Some i => (i < length s)%nat /\ exists c, s !! i = Some c /\ p c = true
  | None => True
  end.
Proof.
  pose proof (rfind_char_split p s) as Hr. destruct (rfind_char p s) as [i|]; [|done].
  destruct Hr as (l & c & r & -> & <- & Hc & _). rewrite length_app. simpl. split; [lia|].
  exists c. by rewrite list_lookup_middle.
Qed.

Lemma length_to_ascii_lowercase s : length (to_ascii_lowercase s) = length s.
Proof. apply length_fmap. Qed.

(** The span of a URI covers its pattern and stays inside the text. *)
Lemma uri_span core from i n :
  let lower := to_ascii_lowercase core in
  find_uri_like_start lower from = Some (i, n) ->
  (from <= i /\ 0 < n /\ i + n <= uri_like_span_end core lower i n <= length core)%nat.
Proof.
  intros lower Hf. pose proof (find_uri_like_start_spec lower from) as Hs. rewrite Hf in Hs.
  destruct Hs as (Hle & _ & p & Hp & -> & [t Ht]%starts_with_app).
  destruct (pattern_facts p 0 Hp) as [Hpos _].
  assert (i + length (lit p) <= length core)%nat as Hin.
  { rewrite <- (length_to_ascii_lowercase core). fold lower. apply (f_equal length) in Ht.
    rewrite length_drop, length_app in Ht. lia. }
  split_and!; [done|done|..]; unfold uri_like_span_end;
    pose proof (find_uri_like_start_spec lower (i + length (lit p))) as Hn;
    destruct (find_uri_like_start lower (i + length (lit p))) as [[next m]|]; try lia.
  - destruct Hn as (Hnext & _). pose proof (rfind_char_spec is_uri_delimiter (take (next - i) (skipn i core))) as Hr.
    destruct (rfind_char _ _) as [k|]; [|lia]. destruct Hr as (_ & c & Hc & Hd).
    destruct (Nat.le_gt_cases (length (lit p)) k) as [|Hk]; [lia|]. exfalso.
    apply lookup_take_Some in Hc as [Hc _]. 
    assert (to_ascii_lowercase_char c ∈ lit p) as Hel.
    { apply list_elem_of_lookup. exists k. rewrite <- (lookup_app_l (lit p) t) by done. rewrite <- Ht.
      unfold lower, to_ascii_lowercase. rewrite <- fmap_drop, list_lookup_fmap, Hc. done. }
    apply (proj2 (pattern_facts p c Hp)) in Hel. congruence.
  - destruct Hn as (_ & _ & q & Hq & _ & [u Hu]%starts_with_app).
    destruct (pattern_facts q 0 Hq) as [Hqpos _].
    apply (f_equal length) in Hu. rewrite length_drop, length_app in Hu.
    unfold lower in Hu. rewrite length_to_ascii_lowercase in Hu.
    pose proof (rfind_char_spec is_uri_delimiter (take (next - i) (skipn i core))) as Hr.
    destruct (rfind_char _ _) as [k|].
    + destruct Hr as [Hk _]. rewrite length_take, length_drop in Hk. lia.
    + lia.
Qed.

Lemma uri_at_drop lower a j : uri_at (skipn a lower) j <-> uri_at lower (a + j).
Proof. unfold uri_at. by setoid_rewrite drop_drop. Qed.

Lemma slice_app a b s : (a <= b)%nat -> skipn a s = slice a b s ++ skipn b s.
Proof.
  intros Hab. unfold slice. rewrite <- (take_drop (b - a) (skipn a s)) at 1. rewrite drop_drop.
  by replace (a + (b - a))%nat with b by lia.
Qed.

(** ** What redacted free text is

    A grammar of the text with its redaction.  A URI opens with a pattern. *)
Definition opens (text : str) (n : nat) : Prop :=
  exists pattern, pattern ∈ uri_like_patterns /\ n = length (lit pattern) /\
    starts_with (lit pattern) (to_ascii_lowercase text) = true.

(** What lies between a URI and the next one: it starts with the last delimiter
    between the two; without any delimiter the one ends where the other begins. *)
Definition separates (uri gap : str) : Prop :=
  match gap with
  | [] => Forall (fun c => is_uri_delimiter c = false) uri
  | c :: rest => is_uri_delimiter c = true /\ Forall (fun c => is_uri_delimiter c = false) rest
  end.

(** Text that opens with a URI: the URI reaches to the end, no other begins in it; or
    it is set apart from the next one. *)
Inductive uris_redacted `{UrlCrate} : str -> str -> Prop :=
| uris_last uri n :
    opens uri n -> (forall j, (n <= j)%nat -> ~ uri_at (to_ascii_lowercase uri) j) ->
    uris_redacted uri (redact_uri_for_logs uri)
| uris_next uri gap next out n :
    opens (uri ++ gap ++ next) n -> (n <= length uri)%nat ->
    (forall j, (n <= j < length (uri ++ gap))%nat -> ~ uri_at (to_ascii_lowercase (uri ++ gap ++ next)) j) ->
    separates uri gap -> uris_redacted next out ->
    uris_redacted (uri ++ gap ++ next) (redact_uri_for_logs uri ++ gap ++ out).

Inductive core_redacted `{UrlCrate} : str -> str -> Prop :=
| core_plain core : (forall j, ~ uri_at (to_ascii_lowercase core) j) -> core_redacted core core
| core_uris plain uris out :
    (forall j, (j < length plain)%nat -> ~ uri_at (to_ascii_lowercase (plain ++ uris)) j) ->
    uris_redacted uris out -> core_redacted (plain ++ uris) (plain ++ out).

Definition among (set : str) (c : Z) : Prop := existsb (Z.eqb c) set = true.

(** A word: its punctuation stays, as much of it as there is. *)
Inductive word_redacted `{UrlCrate} : str -> str -> Prop :=
| word_of leading core trailing out :
    Forall (among LEADING_PUNCTUATION) leading -> Forall (among TRAILING_PUNCTUATION) trailing ->
    (forall c, head (core ++ trailing) = Some c -> ~ among LEADING_PUNCTUATION c) ->
    (forall c, last core = Some c -> ~ among TRAILING_PUNCTUATION c) ->
    core_redacted core out ->
    word_redacted (leading ++ core ++ trailing) (leading ++ out ++ trailing).

(** Text: words, and white space that stays. *)
Inductive text_redacted `{UrlCrate} : str -> str -> Prop :=
| text_end word out :
    Forall (fun c => is_whitespace c = false) word -> word_redacted word out -> text_redacted word out
| text_more word c text out out' :
    Forall (fun c => is_whitespace c = false) word -> is_whitespace c = true ->
    word_redacted word out -> text_redacted text out' ->
    text_redacted (word ++ c :: text) (out ++ c :: out').

Lemma uri_at_none lower : find_uri_like_start lower 0 = None -> forall j, ~ uri_at lower j.
Proof.
  intros Hf j. pose proof (find_uri_like_start_spec lower 0) as Hs. rewrite Hf in Hs. apply Hs. lia.
Qed.

(** Searching from anywhere up to the next URI finds it. *)
Lemma find_uri_like_start_from lower a b x m :
  find_uri_like_start lower a = Some (x, m) -> (a <= b <= x)%nat ->
  exists m', find_uri_like_start lower b = Some (x, m').
Proof.
  intros Hf Hb. pose proof (find_uri_like_start_spec lower a) as Ha. rewrite Hf in Ha.
  destruct Ha as (_ & Ha & p & Hp & _ & Hx). pose proof (find_uri_like_start_spec lower b) as Hs.
  destruct (find_uri_like_start lower b) as [[x' m']|].
  - destruct Hs as (Hle & Hs & p' & Hp' & _ & Hx'). exists m'. do 2 f_equal.
    destruct (Nat.lt_trichotomy x x') as [Hlt|[->|Hlt]]; [|done|]; exfalso.
    + apply (Hs x); [lia|]. by exists p.
    + apply (Ha x'); [lia|]. by exists p'.
  - exfalso. apply (Hs x); [lia|]. by exists p.
Qed.

Lemma slice_to_end a s : slice a (length s) s = skipn a s.
Proof. unfold slice. apply take_ge. rewrite length_drop. lia. Qed.

Lemma lowercase_drop a s : to_ascii_lowercase (skipn a s) = skipn a (to_ascii_lowercase s).
Proof. apply fmap_drop. Qed.

Lemma found_opens core from i n :
  find_uri_like_start (to_ascii_lowercase core) from = Some (i, n) -> opens (skipn i core) n.
Proof.
  intros Hf. pose proof (find_uri_like_start_spec (to_ascii_lowercase core) from) as Hs. rewrite Hf in Hs.
  destruct Hs as (_ & _ & p & Hp & -> & Hi). exists p. by rewrite lowercase_drop.
Qed.

Lemma slice_split a b c s : (a <= b <= c)%nat -> slice a c s = slice a b s ++ slice b c s.
Proof.
  intros Hle. apply (app_inv_tail (skipn c s)). rewrite <- app_assoc, <- !slice_app by lia. done.
Qed.

(** The span and the gap after it, when another URI follows. *)
Lemma uri_like_span_gap core i n next m :
  let e := uri_like_span_end core (to_ascii_lowercase core) i n in
  find_uri_like_start (to_ascii_lowercase core) (i + n) = Some (next, m) -> (i <= next <= length core)%nat ->
  (i <= e <= next)%nat /\ separates (slice i e core) (slice e next core).
Proof.
  cbn zeta. intros Hf Hi. unfold uri_like_span_end. rewrite Hf. fold (slice i next core).
  pose proof (rfind_char_split is_uri_delimiter (slice i next core)) as Hr.
  destruct (rfind_char _ _) as [k|].
  - destruct Hr as (l & c & r & Hs & <- & Hc & Hr).
    assert (length (slice i next core) = next - i)%nat as Hlen.
    { unfold slice. rewrite length_take, length_drop. lia. }
    assert (i + length l <= next)%nat as Hle by (rewrite Hs, length_app in Hlen; simpl in Hlen; lia).
    split; [lia|]. rewrite (slice_split i (i + length l) next) in Hs by lia.
    apply app_inj_1 in Hs as [_ ->]; [done|]. unfold slice. rewrite length_take, length_drop. lia.
  - split; [lia|]. unfold slice at 2. by rewrite Nat.sub_diag.
Qed.

Lemma find_uri_like_start_length core from i n :
  find_uri_like_start (to_ascii_lowercase core) from = Some (i, n) -> (i < length core)%nat.
Proof. intros Hf. destruct (uri_span core from i n Hf) as (_ & ? & ? & ?). lia. Qed.

(** The loop, from any point: plain text up to the next URI, and the URIs from there. *)
Lemma redact_core_from_spec `{UrlCrate} fuel core from :
  (length core < fuel + from)%nat ->
  match find_uri_like_start (to_ascii_lowercase core) from with
  | None => redact_core_from fuel core (to_ascii_lowercase core) from = skipn from core
  | Some (i, _) => exists out, uris_redacted (skipn i core) out /\
      redact_core_from fuel core (to_ascii_lowercase core) from = slice from i core ++ out
  end.
Proof.
  revert from. induction fuel as [|fuel IH]; intros from Hfuel; simpl.
  { destruct (find_uri_like_start _ _) as [[i n]|] eqn:Hf; [|done]. exfalso.
    destruct (uri_span core from i n Hf) as (? & ? & ? & ?). lia. }
  destruct (find_uri_like_start (to_ascii_lowercase core) from) as [[i n]|] eqn:Hf; [|done].
  pose proof (found_opens core from i n Hf) as Ho.
  destruct (uri_span core from i n Hf) as (Hle & Hpos & Hend & Hmax).
  set (e := uri_like_span_end core (to_ascii_lowercase core) i n) in *.
  specialize (IH e ltac:(lia)). pose proof (find_uri_like_start_spec (to_ascii_lowercase core) (i + n)) as Hs.
  destruct (find_uri_like_start (to_ascii_lowercase core) (i + n)) as [[next m]|] eqn:Hn.
  - pose proof (find_uri_like_start_length core (i + n) next m Hn) as Hnext. destruct Hs as (Hin & Hs & _).
    destruct (uri_like_span_gap core i n next m Hn ltac:(lia)) as [He Hsep]. fold e in He, Hsep.
    destruct (find_uri_like_start_from _ _ e _ _ Hn ltac:(lia)) as [m' Hm']. rewrite Hm' in IH.
    destruct IH as (out & Hout & ->). exists (redact_uri_for_logs (slice i e core) ++ slice e next core ++ out).
    split; [|done]. rewrite (slice_app i e), (slice_app e next) by lia.
    assert (length (slice i e core) = (e - i)%nat /\ length (slice e next core) = (next - e)%nat) as [L1 L2].
    { unfold slice. rewrite !length_take, !length_drop. lia. }
    apply (uris_next _ _ _ _ n); [|lia| |done|done]; rewrite <- !slice_app by lia; [done|].
    intros j Hj. rewrite length_app in Hj. rewrite lowercase_drop, uri_at_drop. apply Hs. lia.
  - assert (e = length core) as He by (unfold e, uri_like_span_end; by rewrite Hn).
    rewrite He in IH |- *. rewrite slice_to_end.
    assert (find_uri_like_start (to_ascii_lowercase core) (length core) = None) as Hnone.
    { destruct (find_uri_like_start _ (length core)) as [[i' n']|] eqn:Hf'; [|done]. exfalso.
      pose proof (uri_span core _ i' n' Hf'). lia. }
    rewrite Hnone in IH. exists (redact_uri_for_logs (skipn i core)). rewrite IH, drop_all, app_nil_r. split; [|done].
    apply (uris_last _ n); [done|]. intros j Hj. rewrite lowercase_drop, uri_at_drop. apply Hs. lia.
Qed.

Lemma redact_uri_like_core_spec `{UrlCrate} core : core_redacted core (redact_uri_like_core_for_logs core).
Proof.
  pose proof (redact_core_from_spec (S (length core)) core 0 ltac:(lia)) as Hr. unfold redact_uri_like_core_for_logs.
  pose proof (find_uri_like_start_spec (to_ascii_lowercase core) 0) as Hs.
  destruct (find_uri_like_start _ 0) as [[i n]|].
  - destruct Hr as (out & Hout & ->). rewrite <- (take_drop i core) at 1.
    replace (slice 0 i core) with (take i core) by (unfold slice; by rewrite Nat.sub_0_r, skipn_O).
    apply core_uris; [|done]. rewrite take_drop. intros j Hj. apply Hs. rewrite length_take in Hj. lia.
  - rewrite Hr, skipn_O. apply core_plain. intros j. apply Hs. lia.
Qed.

Lemma span_until_split p s :
  let '(a, b) := span_until p s in
  s = a ++ b /\ Forall (fun c => p c = false) a /\ (forall c, head b = Some c -> p c = true).
Proof.
  induction s as [|c s IH]; simpl; [done|]. destruct (p c) eqn:Hc; [by split_and!; [| |intros ? [= <-]]|].
  destruct (span_until p s) as [a b]. destruct IH as (-> & Ha & Hb). split_and!; [done|by constructor|done].
Qed.

Lemma trim_start_with_split p s :
  exists a, s = a ++ trim_start_with p s /\ Forall (fun c => p c = true) a /\
    (forall c, head (trim_start_with p s) = Some c -> p c = false).
Proof.
  induction s as [|c s IH]; simpl; [by exists []|]. destruct (p c) eqn:Hc.
  - destruct IH as (a & Hs & Ha & Hh). exists (c :: a). simpl. split_and!; [by f_equal|by constructor|done].
  - exists []. split_and!; [done|done|]. by intros ? [= <-].
Qed.

Lemma trim_end_with_split p s :
  exists b, s = trim_end_with p s ++ b /\ skipn (length (trim_end_with p s)) s = b /\
    Forall (fun c => p c = true) b /\ (forall c, last (trim_end_with p s) = Some c -> p c = false).
Proof.
  destruct (trim_start_with_split p (reverse s)) as (a & Hs & Ha & Hh). unfold trim_end_with.
  set (t := trim_start_with p (reverse s)) in *.
  assert (s = reverse t ++ reverse a) as Hst by (rewrite <- reverse_app, <- Hs; by rewrite reverse_involutive).
  exists (reverse a). split_and!; [done| |by apply Forall_reverse|].
  - transitivity (skipn (length (reverse t)) (reverse t ++ reverse a)); [by f_equal|apply drop_app_length].
  - intros c. rewrite last_reverse. apply Hh.
Qed.

Lemma redact_uri_like_token_spec `{UrlCrate} token : word_redacted token (redact_uri_like_token_for_logs token).
Proof.
  unfold redact_uri_like_token_for_logs.
  pose proof (span_until_split (fun c => negb (existsb (Z.eqb c) LEADING_PUNCTUATION)) token) as Hl.
  destruct (span_until _ token) as [leading rest]. destruct Hl as (-> & Hl & Hh).
  destruct (trim_end_with_split (fun c => existsb (Z.eqb c) TRAILING_PUNCTUATION) rest) as (trailing & Hr & -> & Ht & Hc).
  set (core := trim_end_with _ rest) in *.
  assert (forall out, core_redacted core out -> word_redacted (leading ++ rest) (leading ++ out ++ trailing)) as Hw.
  { intros out Hout. rewrite Hr. apply word_of; [|done|..|done].
    - eapply Forall_impl; [exact Hl|]. intros c Hn. simpl in Hn. by apply negb_false_iff in Hn.
    - intros c. rewrite <- Hr. intros Hn%Hh. unfold among. by apply negb_true_iff in Hn as ->.
    - intros c Hn%Hc. unfold among. by rewrite Hn. }
  destruct (find_uri_like_start (to_ascii_lowercase core) 0) as [[i n]|] eqn:Hf.
  - apply Hw, redact_uri_like_core_spec.
  - rewrite Hr at 2. apply Hw, core_plain. by apply uri_at_none.
Qed.

Lemma trim_end_with_none p s : Forall (fun c => p c = false) s -> trim_end_with p s = s.
Proof.
  intros Hs%Forall_reverse. unfold trim_end_with. rewrite <- (reverse_involutive s) at 2. f_equal.
  destruct Hs as [|c r Hc _]; simpl; [done|]. by rewrite Hc.
Qed.

Lemma trim_end_with_one p s c : Forall (fun c => p c = false) s -> p c = true -> trim_end_with p (s ++ [c]) = s.
Proof.
  intros Hs Hc. unfold trim_end_with. rewrite reverse_snoc. simpl. rewrite Hc. by apply trim_end_with_none.
Qed.

Lemma redact_token_with_space_word `{UrlCrate} word :
  Forall (fun c => is_whitespace c = false) word ->
  redact_token_with_space word = redact_uri_like_token_for_logs word /\
  forall c, is_whitespace c = true -> redact_token_with_space (word ++ [c]) = redact_uri_like_token_for_logs word ++ [c].
Proof.
  intros Hw. unfold redact_token_with_space. split; [|intros c Hc].
  - by rewrite trim_end_with_none, drop_all, app_nil_r.
  - by rewrite trim_end_with_one, drop_app_length.
Qed.

(** The first piece of the text. *)
Lemma split_inclusive_first p word :
  Forall (fun c => p c = false) word ->
  split_inclusive p word = (if word is [] then [] else [word]) /\
  forall c text, p c = true -> split_inclusive p (word ++ c :: text) = (word ++ [c]) :: split_inclusive p text.
Proof.
  induction 1 as [|d word Hd _ [IH1 IH2]]; simpl; [split; [done|by intros c text ->]|]. rewrite Hd. split.
  - rewrite IH1. by destruct word.
  - intros c text Hc. by rewrite IH2.
Qed.

(** ** Properties *)

(** After redact_userinfo_in_authority the authority of the URI is either the
    redaction marker or contains no at-sign, while the scheme before it and the path
    after it are kept. *)
Lemma redaction_leaves_no_userinfo s i :
  find_sub (lit "://") s = Some i ->
  let out := redact_userinfo_in_authority s in
  exists rest, out = take (i + 3) s ++ rest /\
    let '(authority, suffix) := span_until (Z.eqb (chr "/"%char)) rest in
    (authority = lit "<redacted>@" \/ chr "@"%char ∉ authority) /\
    suffix = (span_until (Z.eqb (chr "/"%char)) (skipn (i + 3) s)).2.
Proof.
  intros Hi. unfold redact_userinfo_in_authority. rewrite Hi.
  pose proof (redact_with_prefix_spec (take (i + 3) s) (skipn (i + 3) s)) as Hr.
  pose proof (span_until_app (Z.eqb (chr "/"%char)) (skipn (i + 3) s)) as Hs.
  destruct (span_until (Z.eqb (chr "/"%char)) (skipn (i + 3) s)) as [authority suffix] eqn:Hsp.
  destruct Hs as (Hrest & Ha & Hsuf).
  assert (chr "/"%char ∉ authority) as Hslash.
  { intros Hin. rewrite Forall_forall in Ha. apply Ha in Hin. by rewrite Z.eqb_refl in Hin. }
  destruct (redact_with_prefix _ _) as [out|].
  - destruct Hr as (host & -> & Hhost). exists (host ++ suffix). split; [done|].
    rewrite authority_cut; [|destruct Hhost as [->|(_ & user & ->)]; [by apply (bool_decide_unpack (chr "/"%char ∉ lit "<redacted>@"))|
      by eapply not_elem_suffix]|done]. split; [naive_solver|done].
  - exists (skipn (i + 3) s). split; [by rewrite take_drop|]. rewrite Hsp. auto.
Qed.

(** Characters the redaction steps add. *)
Definition mark_char (c : Z) : Prop := c <> chr "?"%char /\ c <> chr "#"%char.

Lemma Forall_lit_mark s : forallb (fun c => negb (c =? 63) && negb (c =? 35)) (lit s) = true -> Forall mark_char (lit s).
Proof.
  intros Hs. apply Forall_forall. intros c Hc. rewrite forallb_forall in Hs.
  apply list_elem_of_In, Hs, andb_true_iff in Hc as [H1 H2]. zbool. by split.
Qed.

Lemma redact_userinfo_mark s : Forall mark_char s -> Forall mark_char (redact_userinfo_in_authority s).
Proof.
  assert (forall prefix rest, Forall mark_char prefix -> Forall mark_char rest ->
    match redact_with_prefix prefix rest with Some out => Forall mark_char out | None => True end) as Hrp.
  { intros prefix rest Hp Hr. pose proof (redact_with_prefix_spec prefix rest) as Hs.
    pose proof (span_until_app (Z.eqb (chr "/"%char)) rest) as Ha.
    destruct (span_until _ rest) as [authority suffix]. destruct Ha as (-> & _).
    apply Forall_app in Hr as [Hau Hsu]. destruct (redact_with_prefix _ _) as [out|]; [|done].
    destruct Hs as (host & -> & [->|(_ & user & ->)]); rewrite !Forall_app; (split; [done|]; split; [|done]).
    - by apply Forall_lit_mark.
    - by apply Forall_app in Hau as [_ [_ Hau]%Forall_cons]. }
  intros Hs. unfold redact_userinfo_in_authority. destruct (find_sub _ s) as [i|].
  - specialize (Hrp (take (i + 3) s) (skipn (i + 3) s)). destruct (redact_with_prefix _ _); [|done].
    apply Hrp; [by apply Forall_take|by apply Forall_drop].
  - destruct (strip_prefix (lit "//") s) as [rest|] eqn:Hp; [|done].
    apply strip_prefix_Some in Hp. subst. apply Forall_app in Hs as [_ Hs].
    specialize (Hrp (lit "//") rest). destruct (redact_with_prefix _ _).
    + apply Hrp; [by apply Forall_lit_mark|done].
    + apply Forall_app. split; [by apply Forall_lit_mark|done].
Qed.

Lemma split_once_spec c s a b : split_once c s = Some (a, b) -> s = a ++ c :: b.
Proof.
  unfold split_once. pose proof (span_until_app (Z.eqb c) s) as Hs.
  destruct (span_until (Z.eqb c) s) as [x [|y z]]; [done|]. destruct Hs as (-> & _ & Hy). zbool.
  intros [= <- <-]. by subst.
Qed.

Lemma redact_non_authority_mark s :
  Forall mark_char s -> Forall mark_char (redact_non_authority_credentials s).
Proof.
  intros Hs. unfold redact_non_authority_credentials.
  destruct (split_once (chr ":"%char) s) as [[scheme remainder]|] eqn:Hsp; [|done].
  apply split_once_spec in Hsp. subst s. pose proof Hs as Hall.
  apply Forall_app in Hs as [Hscheme [_ Hrem]%Forall_cons].
  do 2 (case_match; [done|]).
  pose proof (rsplit_once_spec (chr "@"%char) remainder) as Hr.
  destruct (rsplit_once (chr "@"%char) remainder) as [[[|c p] suffix]|]; [done| |done].
  destruct Hr as [-> _]. case_match; [done|]. rewrite !Forall_app. split; [done|].
  split; [by apply Forall_lit_mark|]. by apply Forall_app in Hrem as [_ [_ Hrem]%Forall_cons].
Qed.

(** The textual redaction of any input whatsoever contains neither a question mark
    nor a hash sign: query and fragment never reach the logs. *)
Lemma redaction_drops_query_and_fragment s :
  Forall (fun c => c <> chr "?"%char /\ c <> chr "#"%char) (redact_uri_without_url_normalization s).
Proof.
  apply redact_non_authority_mark, redact_userinfo_mark, strip_query_and_fragment_clean.
Qed.

(** C36: Redacting free text covers every URI in it, each by itself: the output is
    the text word by word, with white space and the punctuation around a word kept.
    In a word, what comes before the first URI pattern is kept; a URI reaches from
    its pattern to the last delimiter before the next pattern, or to the next
    pattern when there is no delimiter between, or to the end of the word when no
    other pattern follows; each such span, and nothing else, is replaced by its
    redaction. *)
Theorem free_text_uris_redacted `{UrlCrate} text : text_redacted text (redact_uri_like_text_for_logs text).
Proof.
  unfold redact_uri_like_text_for_logs. remember (length text) as len eqn:Hlen.
  revert text Hlen. induction (lt_wf len) as [len _ IH]. intros text ->.
  pose proof (span_until_split is_whitespace text) as Hs. destruct (span_until is_whitespace text) as [word [|c rest]].
  - destruct Hs as (-> & Hw & _). rewrite app_nil_r. destruct (split_inclusive_first _ _ Hw) as [-> _].
    assert (text_redacted word (redact_uri_like_token_for_logs word)) as Ht
      by (apply text_end; [done|apply redact_uri_like_token_spec]).
    destruct word as [|d word]; [exact Ht|]. cbn [fmap list_fmap concat]. rewrite app_nil_r.
    by destruct (redact_token_with_space_word _ Hw) as [-> _].
  - destruct Hs as (-> & Hw & Hc). specialize (Hc c eq_refl).
    destruct (split_inclusive_first _ _ Hw) as [_ ->]; [|done]. cbn [fmap list_fmap concat].
    destruct (redact_token_with_space_word _ Hw) as [_ ->]; [|done]. rewrite <- app_assoc. simpl.
    apply text_more; [done|done|apply redact_uri_like_token_spec|]. eapply IH; [|done]. rewrite length_app. simpl. lia.
Qed.

(** ** Witnesses *)
Lemma redaction_leaves_no_userinfo_witness :
  exists rest, redact_userinfo_in_authority (lit "http://user:pw@host/p") =
    take (4 + 3) (lit "http://user:pw@host/p") ++ rest /\
    let '(authority, suffix) := span_until (Z.eqb (chr "/"%char)) rest in
    (authority = lit "<redacted>@" \/ chr "@"%char ∉ authority) /\
    suffix = (span_until (Z.eqb (chr "/"%char)) (skipn (4 + 3) (lit "http://user:pw@host/p"))).2.
Proof. exact (redaction_leaves_no_userinfo (lit "http://user:pw@host/p") 4 eq_refl). Defined.
