(* ===== verification/UriResolve.v ===== *)
(** * URI resolution and validation (core/util/uri.rs)

    Base URLs, proxy URIs and the resolution of a request path against a base.
    What each function accepts is stated as properties of the accepted URI. *)
From Stdlib Require Import Ascii String.
From S2P Require Import Prelude Text HttpApi UriText Errors Redaction.

Section Resolve.
Context `{Http} `{UrlCrate}.

Definition invalid_base_url_error (base_url : str) : Error.t :=
  Error.InvalidUri (redact_uri_for_logs base_url).

Definition invalid_proxy_uri_error (proxy_uri : Uri) (message : string) : Error.t :=
  Error.InvalidProxyConfig (redact_uri_for_logs (uri_to_string proxy_uri)) (lit message).

(** The text [resolve_uri] parses, from the classification of the path. *)
Definition resolve_uri_text (base_url path : str) : result str Error.t :=
  let joined := Ok (join_base_path base_url path) in
  match uri_parse path with
  | Some uri =>
    match uri_host uri with
    | Some _ =>
      match uri_scheme_str uri with
      | None => Err (Error.InvalidUri (redact_uri_without_url_normalization path))
      | Some scheme =>
        if uri_has_userinfo uri then Err (Error.InvalidUri (redact_uri_for_logs path))
        else if (eq_ignore_ascii_case scheme (lit "http") || eq_ignore_ascii_case scheme (lit "https"))
                && is_valid_absolute_http_uri_text path
        then Ok path
        else Err (Error.InvalidUri (redact_uri_for_logs path))
      end
    | None =>
      match uri_scheme_str uri with
      | Some _ => Err (Error.InvalidUri (redact_uri_for_logs path))
      | None => joined
      end
    end
  | None =>
    if looks_like_malformed_http_absolute_uri path
    then Err (Error.InvalidUri (redact_uri_without_url_normalization path))
    else joined
  end.

Definition resolve_uri (base_url path : str) : result (str * Uri) Error.t :=
  let? uri_text := resolve_uri_text base_url path in
  match uri_parse uri_text with
  | None => Err (Error.InvalidUri (redact_uri_for_logs uri_text))
  | Some uri =>
    if uri_has_userinfo uri then Err (Error.InvalidUri (redact_uri_for_logs uri_text))
    else Ok (uri_text, uri)
  end.


Definition validate_base_url (base_url : str) : result unit Error.t :=
  let normalized := trim base_url in
  let invalid := Err (invalid_base_url_error base_url) in
  if negb (str_len normalized =? str_len base_url) then invalid
  else if negb (nonempty normalized) then invalid
  else match url_parse normalized with
  | None => invalid
  | Some parsed =>
    if negb (is_http_scheme (url_scheme parsed)) then invalid
    else if negb (is_some (url_host_str parsed)) then invalid
    else if nonempty (url_username parsed) || is_some (url_password parsed) then invalid
    else if is_some (url_query parsed) || is_some (url_fragment parsed) then invalid
    else if negb (is_valid_absolute_http_uri_text normalized) then invalid
    else match uri_parse normalized with
    | None => invalid
    | Some uri =>
      if negb (is_some (uri_scheme_str uri)) || negb (is_some (uri_host uri)) then invalid else Ok tt
    end
  end.

Definition validate_http_proxy_uri (proxy_uri : Uri) : result unit Error.t :=
  let invalid message := Err (invalid_proxy_uri_error proxy_uri message) in
  match uri_scheme_str proxy_uri with
  | None => invalid "http_proxy URI must include an explicit scheme"
  | Some scheme =>
    if negb (eq_ignore_ascii_case scheme (lit "http")) then invalid "http_proxy URI must use http scheme"
    else if negb (is_some (uri_host proxy_uri)) then invalid "http_proxy URI must include host"
    else
      let? _ :=
        match uri_path_and_query proxy_uri with
        | None => Ok tt
        | Some (path, query) =>
          if nonempty path && negb (bool_decide (path = lit "/"))
          then invalid "http_proxy URI must not include path segments"
          else if is_some query then invalid "http_proxy URI must not include query parameters"
          else Ok tt
        end in
      if negb (is_valid_absolute_http_uri_text (uri_to_string proxy_uri))
      then invalid "http_proxy URI must include a valid authority and numeric port"
      else Ok tt
  end.

(** ** Lemmas *)
Lemma resolve_uri_Ok base path text uri :
  resolve_uri base path = Ok (text, uri) ->
  uri_parse text = Some uri /\ uri_has_userinfo uri = false /\
  (text = path \/ text = join_base_path base path).
Proof.
  unfold resolve_uri. intros (t & Ht & Hr)%result_bind_Ok_inv.
  destruct (uri_parse t) as [u|] eqn:Hp; [|done]. destruct (uri_has_userinfo u) eqn:Hu; [done|].
  simplify_eq. split; [done|]. split; [done|]. unfold resolve_uri_text in Ht. repeat case_match; naive_solver.
Qed.

End Resolve.
