(* ===== verification/Extensions.v ===== *)
(** * Extension points (core/extensions.rs)

    The two implementations the crate ships: the endpoint selector that rotates
    through a list of base URLs, and the normalizer of the paths that reach telemetry.
    The traits themselves are function arguments where they are used ([EndpointSelector],
    [BackoffSource] in [Execution] and [Retry], the clock in [Surroundings]). *)
From Stdlib Require Import Ascii String.
From S2P Require Import Prelude Text HttpApi UriText Errors Redaction UriResolve.

Definition slash : Z := chr "/"%char.
Arguments slash : simpl never.

Module Extensions.

(** ** Rotating through endpoints *)
Section Endpoints.
Context `{Http} `{Url : UrlCrate}.

(** The counter is an [AtomicUsize]: a call takes its value and adds one, wrapping. *)
Record RoundRobinEndpointSelector := { endpoints : list str; next : Z }.

Fixpoint validate_endpoints (l : list str) : result unit Error.t :=
  match l with
  | [] => Ok tt
  | endpoint :: l => let? _ := validate_base_url endpoint in validate_endpoints l
  end.

Definition selector_new (l : list str) : result RoundRobinEndpointSelector Error.t :=
  if negb (nonempty l) then Err (Error.InvalidEndpointConfig "at least one endpoint is required")
  else
    let? _ := validate_endpoints l in
    Ok {| endpoints := l; next := 0 |}.

(** The selected endpoint; [None] is the panic of an index out of range. *)
Definition select_base_url (s : RoundRobinEndpointSelector) : option str * RoundRobinEndpointSelector :=
  let index := next s in
  (endpoints s !! Z.to_nat (index mod Z.of_nat (length (endpoints s))),
   {| endpoints := endpoints s; next := (index + 1) mod (usize_max + 1) |}).

(** [n] calls, one after another. *)
Fixpoint selections (n : nat) (s : RoundRobinEndpointSelector) : list (option str) * RoundRobinEndpointSelector :=
  match n with
  | O => ([], s)
  | S n => let '(e, s) := select_base_url s in let '(es, s) := selections n s in (e :: es, s)
  end.

End Endpoints.

(** ** Normalizing paths *)
Definition is_uuid_like (segment : str) : bool :=
  (str_len segment =? 36) &&
  forallb (fun '(index, character) =>
      if existsb (Nat.eqb index) [8; 13; 18; 23]%nat then character =? chr "-"%char else is_ascii_hexdigit character)
    (imap pair segment).

Definition looks_like_token (segment : str) : bool :=
  forallb (fun c => is_ascii_alphanumeric c || existsb (Z.eqb c) (lit "-_~.=+")) segment.

Definition normalize_path_segment (segment : str) : str :=
  if is_uuid_like segment then lit ":uuid"
  else if nonempty segment && forallb is_ascii_digit segment then lit ":int"
  else if (16 <=? str_len segment) && forallb is_ascii_hexdigit segment then lit ":hex"
  else if (24 <=? str_len segment) && looks_like_token segment then lit ":token"
  else segment.

(** The text before and from the largest character boundary at or below byte [n]. *)
Fixpoint split_at_boundary (n : Z) (s : str) : str * str :=
  match s with
  | [] => ([], [])
  | c :: s' =>
    if char_len_utf8 c <=? n then let '(a, b) := split_at_boundary (n - char_len_utf8 c) s' in (c :: a, b)
    else ([], s)
  end.

Definition truncate_path_at_segment_boundary (path : str) (max_len : Z) : str :=
  if str_len path <=? max_len then path
  else
    let '(head, rest) := split_at_boundary (Z.min max_len (str_len path)) path in
    if negb (nonempty head) then [slash]
    else
      let cut_in_middle_of_segment := nonempty rest && negb (starts_with [slash] rest) in
      if negb cut_in_middle_of_segment then
        let kept := trim_end_matches slash head in
        if negb (nonempty kept) then [slash] else kept
      else
        let prefix := trim_end_matches slash head in
        if negb (nonempty prefix) then [slash]
        else match rsplit_once slash prefix with
        | Some (before, _) => if negb (nonempty before) then [slash] else before
        | None => [slash]
        end.

(** The loop over the segments; the Boolean is [first]. *)
Definition push_segment (normalized : str) (state : str * bool) (segment : str) : str * bool :=
  let '(collapsed, first) := state in
  let collapsed :=
    if first then if starts_with [slash] normalized then collapsed ++ [slash] else collapsed
    else if negb (ends_with [slash] collapsed) then collapsed ++ [slash] else collapsed in
  if negb (nonempty segment) then (collapsed, false)
  else (collapsed ++ normalize_path_segment segment, false).

Definition collapse (normalized : str) : str :=
  (fold_left (push_segment normalized) (split_with (Z.eqb slash) normalized) ([], true)).1.

Definition normalize_path (path : str) : str :=
  let normalized := if negb (nonempty path) then [slash] else path in
  let collapsed := collapse normalized in
  let collapsed := if negb (nonempty collapsed) then [slash] else collapsed in
  if 128 <? str_len collapsed then truncate_path_at_segment_boundary collapsed 128 else collapsed.

End Extensions.

(** ** Lemmas on texts *)
Section Texts.
Import Extensions.
Implicit Types (s p : str).

Definition slashless s : Prop := slash ∉ s.

Lemma split_app p s : split_with (Z.eqb slash) (p ++ slash :: s) =
  split_with (Z.eqb slash) p ++ split_with (Z.eqb slash) s.
Proof.
  induction p as [|c p IH]; [done|]. cbn [app split_with]. destruct (slash =? c); [by rewrite IH|].
  rewrite IH. pose proof (split_with_nonempty (Z.eqb slash) p) as Hne.
  by destruct (split_with (Z.eqb slash) p).
Qed.

Lemma split_slashless s : slashless s -> split_with (Z.eqb slash) s = [s].
Proof.
  induction s as [|c s IH]; intros Hs; [done|]. cbn [split_with]. rewrite (proj2 (Z.eqb_neq slash c)) by (intros <-; apply Hs; left).
  rewrite IH; [done|]. intros Hin. apply Hs. by right.
Qed.

Lemma split_pieces s : Forall slashless (split_with (Z.eqb slash) s).
Proof.
  induction s as [|c s IH]; cbn [split_with]; [by repeat constructor; intros ?%not_elem_of_nil|].
  destruct (Z.eqb_spec slash c) as [|Hc]; [constructor; [intros ?%not_elem_of_nil; done|done]|].
  pose proof (split_with_nonempty (Z.eqb slash) s) as Hne.
  destruct (split_with (Z.eqb slash) s) as [|piece rest]; [done|].
  inversion_clear IH as [|?? Hp Hr]. constructor; [|done]. intros [?|Hin]%elem_of_cons; [done|by apply Hp].
Qed.

Lemma ends_with_slash p : ends_with [slash] p = true <-> exists q, p = q ++ [slash].
Proof.
  unfold ends_with, strip_suffix. change (reverse [slash]) with [slash].
  destruct p as [|c q _] using rev_ind; [split; [done|]; intros (q & Hq); by destruct q|].
  rewrite reverse_snoc. cbn [strip_prefix]. destruct (Z.eqb_spec slash c) as [<-|Hc]; simpl.
  - split; [by exists q|done].
  - split; [done|]. intros (q' & [_ [= Heq]]%app_inj_2); [|done]. by rewrite Heq in Hc.
Qed.

Lemma starts_with_slash p : starts_with [slash] p = true <-> exists q, p = slash :: q.
Proof. apply starts_with_app. Qed.

Lemma str_len_cons c s : str_len (c :: s) = char_len_utf8 c + str_len s.
Proof. done. Qed.
Arguments str_len : simpl never.
Lemma str_len_app s p : str_len (s ++ p) = str_len s + str_len p.
Proof. induction s as [|c s IH]; [done|]. cbn [app]. rewrite !str_len_cons, IH. lia. Qed.
Lemma str_len_nonneg s : 0 <= str_len s.
Proof. induction s as [|c s IH]; [done|]. rewrite str_len_cons. unfold char_len_utf8. repeat case_match; lia. Qed.

Lemma split_at_boundary_spec n s : 0 <= n ->
  s = (split_at_boundary n s).1 ++ (split_at_boundary n s).2 /\ str_len (split_at_boundary n s).1 <= n.
Proof.
  revert n. induction s as [|c s IH]; intros n Hn; [done|]. simpl.
  destruct (Z.leb_spec (char_len_utf8 c) n) as [Hc|Hc]; [|done].
  destruct (IH (n - char_len_utf8 c)) as [Hs Hl]; [lia|]. destruct (split_at_boundary _ s) as [a b]. simpl in *.
  rewrite str_len_cons. split; [by f_equal|]. lia.
Qed.

(** The text without its last slashes is a prefix, and ends in another character. *)
Lemma trim_end_slash p : exists q, p = trim_end_matches slash p ++ q /\ (q <> [] -> exists q', q = slash :: q').
Proof.
  unfold trim_end_matches, trim_end_with. induction p as [|c p IH] using rev_ind; [by exists []|].
  rewrite reverse_snoc. cbn [trim_start_with]. destruct (Z.eqb_spec slash c) as [<-|Hc].
  - destruct IH as (q & Hp & Hq). exists (q ++ [slash]). split; [by rewrite app_assoc, <- Hp|].
    intros _. destruct q as [|d q]; [by exists []|]. destruct Hq as (q' & [= -> ->]); [done|]. by exists (q' ++ [slash]).
  - exists []. rewrite reverse_cons, reverse_involutive, app_nil_r. done.
Qed.

(** ** The shape of a normalized path *)
Definition slashed p : str := if negb (ends_with [slash] p) then p ++ [slash] else p.
Definition good s : Prop := s <> [] /\ slashless s /\ normalize_path_segment s = s.

(** A path without repeated slashes, none of whose segments is an identifier. *)
Inductive canonical : str -> Prop :=
| canonical_root : canonical [slash]
| canonical_first s : good s -> canonical s
| canonical_next p s : canonical p -> good s -> canonical (slashed p ++ s)
| canonical_trail p : canonical p -> canonical (slashed p).

Lemma slashed_cases p : (exists q, p = q ++ [slash] /\ slashed p = p) \/ slashed p = p ++ [slash].
Proof.
  unfold slashed. destruct (ends_with [slash] p) eqn:He; simpl; [|by right].
  left. apply ends_with_slash in He as (q & ->). by exists q.
Qed.

Lemma slashed_ends p : exists q, slashed p = q ++ [slash].
Proof. destruct (slashed_cases p) as [(q & -> & Hs)| ->]; [|by exists p]. exists q. by rewrite Hs. Qed.

Lemma slashed_snoc q : slashed (q ++ [slash]) = q ++ [slash].
Proof. unfold slashed. rewrite (proj2 (ends_with_slash _)); [done|by exists q]. Qed.

Lemma slashed_slashed p : slashed (slashed p) = slashed p.
Proof. destruct (slashed_ends p) as (q & ->). apply slashed_snoc. Qed.

Lemma normalize_segment_nil : normalize_path_segment [] = [].
Proof. done. Qed.

Lemma normalize_segment_good s : s <> [] -> slashless s -> good (normalize_path_segment s).
Proof.
  intros Hne Hs. unfold normalize_path_segment at 1.
  assert (forall t, bool_decide (slash ∈ t) = false -> slashless t) as Hdec by (intros t Ht; by apply bool_decide_eq_false in Ht).
  repeat (case_match; [by split; [done|split; [apply Hdec; vm_compute; reflexivity|vm_compute; reflexivity]]|]).
  split; [done|]. split; [done|]. unfold normalize_path_segment.
  by repeat match goal with H : _ = false |- _ => rewrite H; clear H end.
Qed.

Lemma canonical_nonempty p : canonical p -> p <> [].
Proof.
  destruct 1 as [|s [? _]|p s _ [? _]|p _]; try done.
  - by intros [_ ?]%app_nil.
  - destruct (slashed_ends p) as (q & ->). by intros [_ ?]%app_nil.
Qed.

Lemma push_rest w p s : push_segment w (p, false) s = (slashed p ++ normalize_path_segment s, false).
Proof.
  unfold push_segment. fold (slashed p). destruct s; [|done].
  by rewrite normalize_segment_nil, app_nil_r.
Qed.

Lemma push_rest_canonical w p s : canonical p -> slashless s -> canonical (push_segment w (p, false) s).1.
Proof.
  intros Hp Hs. rewrite push_rest. cbn [fst]. destruct s as [|c s].
  - rewrite normalize_segment_nil, app_nil_r. by constructor.
  - constructor; [done|]. by apply normalize_segment_good.
Qed.

Lemma fold_first w l acc : (fold_left (push_segment w) l (acc, false)).2 = false.
Proof. revert acc. induction l as [|s l IH]; intros acc; [done|]. cbn [fold_left]. rewrite push_rest. apply IH. Qed.

Lemma fold_canonical w l p : Forall slashless l -> canonical p -> canonical (fold_left (push_segment w) l (p, false)).1.
Proof.
  intros Hl. revert p. induction Hl as [|s l Hs Hl IH]; intros p Hp; [done|]. cbn [fold_left].
  pose proof (push_rest_canonical w p s Hp Hs) as Hc. rewrite push_rest in *. by apply IH.
Qed.

Lemma collapse_canonical p : p <> [] -> canonical (collapse p).
Proof.
  unfold collapse. intros Hne. destruct p as [|c p]; [done|]. pose proof (split_pieces (c :: p)) as Hpieces.
  cbn [split_with] in *. destruct (Z.eqb_spec slash c) as [<-|Hc].
  - inversion_clear Hpieces as [|?? _ Hl]. cbn [fold_left]. unfold push_segment at 2.
    rewrite (proj2 (starts_with_slash (slash :: p))) by (by exists p). apply fold_canonical; [done|constructor].
  - pose proof (split_with_nonempty (Z.eqb slash) p) as Hsplit. destruct (split_with (Z.eqb slash) p) as [|s l]; [done|].
    inversion_clear Hpieces as [|?? Hs Hl]. cbn [fold_left]. unfold push_segment at 2.
    destruct (starts_with [slash] (c :: p)) eqn:Hst; [apply starts_with_slash in Hst as (q & [= -> ->]); done|].
    apply fold_canonical; [done|]. apply canonical_first, normalize_segment_good; done.
Qed.

Lemma fold_left_same w w' l state : starts_with [slash] w = starts_with [slash] w' ->
  fold_left (push_segment w) l state = fold_left (push_segment w') l state.
Proof.
  intros Hw. revert state. induction l as [|s l IH]; intros [acc first]; [done|]. cbn [fold_left].
  rewrite IH. unfold push_segment at 2 4. by rewrite Hw.
Qed.

Lemma starts_with_more p q : p <> [] -> starts_with [slash] (p ++ q) = starts_with [slash] p.
Proof. destruct p as [|c p]; [done|]. intros _. unfold starts_with. cbn [app strip_prefix]. by destruct (slash =? c). Qed.

Lemma collapse_first w p : p <> [] -> (fold_left (push_segment w) (split_with (Z.eqb slash) p) ([], true)).2 = false.
Proof.
  intros Hne. pose proof (split_with_nonempty (Z.eqb slash) p) as Hsplit.
  destruct (split_with (Z.eqb slash) p) as [|s l]; [done|]. cbn [fold_left].
  unfold push_segment at 2. case_match; apply fold_first.
Qed.

Lemma collapse_snoc p s : p <> [] -> slashless s ->
  collapse (p ++ slash :: s) = slashed (collapse p) ++ normalize_path_segment s.
Proof.
  intros Hp Hs. unfold collapse. rewrite split_app, (split_slashless s Hs), fold_left_app.
  rewrite !(fold_left_same (p ++ slash :: s) p) by (by apply starts_with_more).
  pose proof (collapse_first p p Hp) as Hf. destruct (fold_left _ _ _) as [acc first]. cbn in Hf. subst first.
  cbn [fold_left fst]. by rewrite push_rest.
Qed.

Lemma collapse_root s : slashless s -> collapse (slash :: s) = slash :: normalize_path_segment s.
Proof.
  intros Hs. unfold collapse. cbn [split_with]. rewrite Z.eqb_refl, (split_slashless s Hs). cbn [fold_left].
  assert (push_segment (slash :: s) ([], true) [] = ([slash], false)) as ->.
  { unfold push_segment. by rewrite (proj2 (starts_with_slash (slash :: s))) by (by exists s). }
  by rewrite push_rest.
Qed.

Lemma collapse_slashed p s : p <> [] -> slashless s ->
  collapse (slashed p ++ s) = slashed (collapse p) ++ normalize_path_segment s.
Proof.
  intros Hp Hs. destruct (slashed_cases p) as [(q & -> & ->)| ->]; rewrite <- app_assoc; cbn [app].
  - destruct q as [|c q]; [cbn [app]; by rewrite collapse_root|].
    rewrite !collapse_snoc by (done || intros ?%not_elem_of_nil; done).
    by rewrite normalize_segment_nil, app_nil_r, slashed_slashed.
  - by apply collapse_snoc.
Qed.

Lemma slashless_nil : slashless [].
Proof. by intros ?%not_elem_of_nil. Qed.

Lemma canonical_collapse p : canonical p -> collapse p = p.
Proof.
  induction 1 as [|s (Hne & Hs & Hn)|p s Hp IH (Hne & Hs & Hn)|p Hp IH].
  - done.
  - unfold collapse. rewrite (split_slashless s Hs). cbn [fold_left]. unfold push_segment.
    destruct (starts_with [slash] s) eqn:Hst; [apply starts_with_slash in Hst as (q & ->); by destruct Hs; left|].
    destruct s; [done|]. cbn [nonempty negb]. by rewrite Hn.
  - rewrite collapse_slashed by (done || by apply canonical_nonempty). by rewrite IH, Hn.
  - rewrite <- (app_nil_r (slashed p)) at 1. rewrite collapse_slashed by (apply slashless_nil || by apply canonical_nonempty).
    by rewrite IH, normalize_segment_nil, app_nil_r.
Qed.

Lemma canonical_segments p : canonical p -> Forall (fun s => normalize_path_segment s = s) (split_with (Z.eqb slash) p).
Proof.
  assert (forall p s, Forall (fun s => normalize_path_segment s = s) (split_with (Z.eqb slash) p) ->
    slashless s -> normalize_path_segment s = s ->
    Forall (fun s => normalize_path_segment s = s) (split_with (Z.eqb slash) (slashed p ++ s))) as Hstep.
  { intros q s Hq Hs Hn. destruct (slashed_cases q) as [(r & -> & ->)| ->]; rewrite <- app_assoc; cbn [app];
      rewrite split_app, (split_slashless s Hs); apply Forall_app; (split; [|by repeat constructor]); [|done].
    rewrite split_app in Hq. by apply Forall_app in Hq as [??]. }
  induction 1 as [|s (Hne & Hs & Hn)|p s Hp IH (Hne & Hs & Hn)|p Hp IH].
  - by repeat constructor.
  - rewrite (split_slashless s Hs). by repeat constructor.
  - by apply Hstep.
  - rewrite <- (app_nil_r (slashed p)). apply Hstep; [done|apply slashless_nil|done].
Qed.

(** Cutting at a slash leaves nothing or a canonical path. *)
Lemma canonical_cut w a b : canonical w -> w = a ++ slash :: b -> a = [] \/ canonical a.
Proof.
  intros Hw. revert a b.
  assert (forall p a b, canonical p -> (forall a b, p = a ++ slash :: b -> a = [] \/ canonical a) ->
    slashed p = a ++ slash :: b -> a = [] \/ canonical a) as Hstep.
  { intros p a b Hp IH Heq. destruct (slashed_cases p) as [(q & -> & Hs)|Hs]; rewrite Hs in Heq; [by eapply IH|].
    destruct b as [|c b _] using rev_ind; [apply app_inj_2 in Heq as [-> _]; [by right|done]|].
    rewrite app_comm_cons, app_assoc in Heq. apply app_inj_2 in Heq as [Heq _]; [|done]. by eapply IH. }
  induction Hw as [|s (Hne & Hs & Hn)|p s Hp IH (Hne & Hs & Hn)|p Hp IH]; intros a b Heq.
  - destruct a as [|? a]; [by left|]. destruct a; done.
  - exfalso. apply Hs. rewrite Heq. apply elem_of_app. right. left.
  - assert (exists b', slashed p = a ++ slash :: b') as (b' & Heq').
    { apply app_eq_inv in Heq as [(k & Hk & Hb)|(k & Hk & Hb)].
      - destruct k as [|c k]; [|].
        + rewrite app_nil_r in Hk. cbn in Hb. exfalso. apply Hs. rewrite <- Hb. left.
        + injection Hb as <- Hb. by exists k.
      - exfalso. apply Hs. rewrite Hb. apply elem_of_app. right. left. }
    by eapply Hstep.
  - by eapply Hstep.
Qed.

Lemma nonempty_ne {A} (l : list A) : negb (nonempty l) = false -> l <> [].
Proof. by destruct l. Qed.

Lemma trim_end_canonical p rest : canonical (p ++ rest) -> (rest = [] \/ exists q, rest = slash :: q) ->
  trim_end_matches slash p <> [] -> canonical (trim_end_matches slash p).
Proof.
  intros Hc Hrest Hne. destruct (trim_end_slash p) as (q & Hp & Hq). rewrite Hp in Hc at 1. rewrite <- app_assoc in Hc.
  destruct q as [|c q].
  - destruct Hrest as [->|(r & ->)]; [by rewrite !app_nil_r in Hc|].
    by destruct (canonical_cut _ _ r Hc eq_refl).
  - destruct Hq as (q' & Hq); [done|]. rewrite Hq in Hc.
    by destruct (canonical_cut _ _ (q' ++ rest) Hc eq_refl).
Qed.

Lemma trim_end_len p : str_len (trim_end_matches slash p) <= str_len p.
Proof.
  destruct (trim_end_slash p) as (q & Hp & _). rewrite Hp at 2. rewrite str_len_app. pose proof (str_len_nonneg q). lia.
Qed.

Lemma truncate_spec p n : 1 <= n -> canonical p ->
  canonical (truncate_path_at_segment_boundary p n) /\ str_len (truncate_path_at_segment_boundary p n) <= n.
Proof.
  intros Hn Hp. assert (canonical [slash] /\ str_len [slash] <= n) as Hroot by (split; [constructor|done]).
  unfold truncate_path_at_segment_boundary. destruct (Z.leb_spec (str_len p) n) as [Hle|Hgt]; [done|].
  rewrite Z.min_l by lia. destruct (split_at_boundary_spec n p) as [Hsplit Hlen]; [lia|].
  destruct (split_at_boundary n p) as [head rest]. cbn in Hsplit, Hlen. rewrite Hsplit in Hp.
  case_match; [done|]. pose proof (trim_end_len head) as Htrim.
  destruct (nonempty rest && negb (starts_with [slash] rest)) eqn:Hcut; cbn [negb].
  - destruct (negb (nonempty (trim_end_matches slash head))); [done|].
    pose proof (rsplit_once_spec slash (trim_end_matches slash head)) as Hr.
    destruct (rsplit_once slash (trim_end_matches slash head)) as [[before after]|]; [|done].
    destruct (negb (nonempty before)) eqn:Hb; [done|]. apply nonempty_ne in Hb. destruct Hr as [Hr _].
    destruct (trim_end_slash head) as (q & Hh & _). rewrite Hr in Hh.
    assert (canonical before) as Hcanon.
    { rewrite Hh, <- !app_assoc in Hp. cbn [app] in Hp. by destruct (canonical_cut _ _ _ Hp eq_refl). }
    split; [done|]. rewrite Hr, str_len_app in Htrim. pose proof (str_len_nonneg (slash :: after)). lia.
  - destruct (negb (nonempty (trim_end_matches slash head))) eqn:Hk; [done|]. apply nonempty_ne in Hk.
    split; [|lia]. apply (trim_end_canonical head rest); [done| |done].
    destruct rest as [|c rest]; [by left|]. right. apply starts_with_slash.
    by destruct (starts_with [slash] (c :: rest)).
Qed.

Lemma normalize_path_spec path : canonical (normalize_path path) /\ str_len (normalize_path path) <= 128.
Proof.
  unfold normalize_path.
  assert (forall p, p <> [] -> canonical (if negb (nonempty (collapse p)) then [slash] else collapse p)) as Hc.
  { intros p Hp. pose proof (collapse_canonical p Hp) as Hc. by case_match; [constructor|]. }
  set (w := if negb (nonempty path) then [slash] else path).
  assert (w <> []) as Hw by (by destruct path). specialize (Hc w Hw).
  destruct (Z.ltb_spec 128 (str_len (if negb (nonempty (collapse w)) then [slash] else collapse w))) as [Hl|Hl];
    [by apply truncate_spec|done].
Qed.

Lemma canonical_normalize p : canonical p -> str_len p <= 128 -> normalize_path p = p.
Proof.
  intros Hc Hl. pose proof (canonical_nonempty p Hc) as Hne. unfold normalize_path.
  destruct p as [|c p]; [done|]. cbn [nonempty negb]. rewrite (canonical_collapse _ Hc). cbn [nonempty negb].
  by rewrite (proj2 (Z.ltb_ge _ _)).
Qed.

(** What reaches telemetry instead of a path is not empty, has at most 128 bytes and no
    segment that reads as an identifier (a number, a UUID, a long run of hexadecimal
    digits, a token); and normalizing it again changes nothing. *)
Lemma normalized_path_bounded path :
  let out := normalize_path path in
  out <> [] /\ str_len out <= 128 /\
  Forall (fun s => normalize_path_segment s = s) (split_with (Z.eqb slash) out) /\
  normalize_path out = out.
Proof.
  destruct (normalize_path_spec path) as [Hc Hl].
  split_and!; [by apply canonical_nonempty|done|by apply canonical_segments|by apply canonical_normalize].
Qed.

End Texts.

(** ** The rotation *)
Section Rotation.
Context `{Http} `{Url : UrlCrate}.
Import Extensions.
Implicit Types (s : RoundRobinEndpointSelector).

Definition rotation s : list str :=
  let r := Z.to_nat (next s mod Z.of_nat (length (endpoints s))) in drop r (endpoints s) ++ take r (endpoints s).

Lemma selections_endpoints n s : endpoints (selections n s).2 = endpoints s.
Proof.
  revert s. induction n as [|n IH]; intros s; [done|]. cbn [selections].
  specialize (IH (select_base_url s).2). cbn in *. destruct (selections n _) as [es s']. exact IH.
Qed.

(** The [i]th of a run of calls takes the endpoint [i] places after the counter, as long
    as the counter does not wrap. *)
Lemma selections_nth n s i : (i < n)%nat -> 0 <= next s -> next s + Z.of_nat n <= usize_max + 1 ->
  (selections n s).1 !! i = Some (endpoints s !! Z.to_nat ((next s + Z.of_nat i) mod Z.of_nat (length (endpoints s)))).
Proof.
  revert s i. induction n as [|n IH]; intros s i Hi Hn Hmax; [lia|]. cbn [selections select_base_url].
  destruct i as [|i].
  - destruct (selections n _) as [es s']. cbn. by rewrite Z.add_0_r.
  - specialize (IH (select_base_url s).2 i). cbn [select_base_url snd endpoints next] in *.
    destruct (decide (n = O)) as [->|Hn0]; [lia|].
    rewrite Z.mod_small in * by (pose proof (Zgt_pos_0 1); lia).
    destruct (selections n _) as [es s']. cbn [fst] in *.
    transitivity (es !! i); [done|]. rewrite IH by lia. do 4 f_equal. lia.
Qed.

Lemma selections_length n s : length (selections n s).1 = n.
Proof.
  revert s. induction n as [|n IH]; intros s; [done|]. cbn [selections]. specialize (IH (select_base_url s).2).
  cbn in *. destruct (selections n _) as [es s']. cbn in *. by rewrite IH.
Qed.

Lemma rotation_length s : length (rotation s) = length (endpoints s).
Proof. unfold rotation. rewrite length_app, length_drop, length_take. lia. Qed.

Lemma rotation_nth s i : (i < length (endpoints s))%nat ->
  rotation s !! i = endpoints s !! Z.to_nat ((next s + Z.of_nat i) mod Z.of_nat (length (endpoints s))).
Proof.
  intros Hi. unfold rotation. set (len := Z.of_nat (length (endpoints s))).
  pose proof (Z.mod_pos_bound (next s) len) as Hr. rewrite Zplus_mod. rewrite (Z.mod_small (Z.of_nat i) len) by lia.
  set (r := next s mod len) in *. destruct (decide (Z.of_nat i < len - r)) as [Hlt|Hge].
  - rewrite Z.mod_small by lia. rewrite lookup_app_l by (rewrite length_drop; lia).
    rewrite lookup_drop. f_equal. lia.
  - rewrite lookup_app_r by (rewrite length_drop; lia). rewrite length_drop, lookup_take_lt by lia. f_equal.
    rewrite <- (Z_mod_plus_full _ (-1)), Z.mod_small by lia. lia.
Qed.

Lemma selector_new_spec l s : selector_new l = Ok s ->
  s = {| endpoints := l; next := 0 |} /\ l <> [] /\ Forall (fun e => validate_base_url e = Ok tt) l.
Proof.
  unfold selector_new. destruct l as [|e l]; [done|]. cbn [nonempty negb].
  intros Hs. destruct (validate_endpoints (e :: l)) as [[]|] eqn:Hv; [|done]. injection Hs as <-.
  split; [done|]. split; [done|]. clear -Hv. revert Hv. generalize (e :: l) as es. clear e l.
  induction es as [|e es IH]; intros Hv; [constructor|]. cbn in Hv.
  destruct (validate_base_url e) as [[]|] eqn:He; [|done]. constructor; [done|by apply IH].
Qed.

(** A selector that was built has at least one endpoint, all of them valid base URLs; a
    call always yields one; and as many calls in a row as there are endpoints, without the
    counter wrapping, yield each of them once, in the order of the list. *)
Lemma selector_rotates l s n :
  selector_new l = Ok s -> Z.of_nat n + Z.of_nat (length l) <= usize_max ->
  Forall (fun e => validate_base_url e = Ok tt) l /\
  let s' := (selections n s).2 in
  is_Some (select_base_url s').1 /\
  (selections (length l) s').1 = Some <$> rotation s' /\ rotation s' ≡ₚ l.
Proof.
  intros (-> & Hne & Hv)%selector_new_spec Hmax. split; [done|].
  assert (forall m s, 0 <= next s -> next s + Z.of_nat m <= usize_max -> next (selections m s).2 = next s + Z.of_nat m) as Hnext.
  { induction m as [|m IH]; intros s Hn Hm; [cbn; lia|]. cbn [selections]. specialize (IH (select_base_url s).2).
    cbn [select_base_url snd next endpoints] in *. rewrite Z.mod_small in * by lia.
    destruct (selections m _) as [es s']. cbn [snd] in *. rewrite IH by lia. lia. }
  set (s0 := {| endpoints := l; next := 0 |}). specialize (Hnext n s0). cbn [next s0] in Hnext.
  pose proof (selections_endpoints n s0) as He. cbn [endpoints s0] in He. cbn zeta.
  destruct (selections n s0) as [es s']. cbn [snd] in *. assert (0 < Z.of_nat (length l)) as Hlen by (destruct l; cbn in *; [done|lia]).
  split_and!.
  - cbn. apply lookup_lt_is_Some_2. rewrite He. pose proof (Z.mod_pos_bound (next s') _ Hlen). lia.
  - apply list_eq_same_length with (length l); [by rewrite length_fmap, rotation_length, He|by rewrite selections_length|].
    intros i x y Hi Hx Hy. rewrite selections_nth in Hx by lia. rewrite list_lookup_fmap, rotation_nth in Hy by (rewrite He; lia).
    injection Hx as <-. destruct (endpoints s' !! _) as [e|]; [by injection Hy as <-|done].
  - unfold rotation. rewrite He, (comm (++)). by rewrite take_drop.
Qed.

End Rotation.

(** Three endpoints, after two calls. *)
Section Example.
Import Extensions.

Definition three_endpoints : list str := [lit "http://a/"; lit "http://b/"; lit "http://c/"].
Definition three_selector : RoundRobinEndpointSelector := {| endpoints := three_endpoints; next := 0 |}.

Lemma selector_rotates_witness :
  (selections 3 (selections 2 three_selector).2).1 = [Some (lit "http://c/"); Some (lit "http://a/"); Some (lit "http://b/")].
Proof.
  assert (selector_new (H := ref_http) (Url := ref_url) three_endpoints = Ok three_selector) as Hn by (vm_compute; reflexivity).
  assert (Z.of_nat 2 + Z.of_nat (length three_endpoints) <= usize_max) as Hm by (vm_compute; discriminate).
  destruct (selector_rotates (H := ref_http) (Url := ref_url) three_endpoints three_selector 2 Hn Hm) as (_ & _ & Hs & _).
  etransitivity; [exact Hs|]. vm_compute. reflexivity.
Defined.

End Example.
