(* ===== verification/Tls.v ===== *)
(** * TLS settings (tls.rs, and the configuration of blocking_client/transport.rs)

    The options of a client's TLS stack, the parser of PEM certificate bundles, and
    the checks and choices of [build_sync_tls_config].  Certificates, keys, trust
    stores and crypto providers (ureq, rustls, native-tls) are the class [TlsCrates];
    the Cargo features that enable the backends are a record. *)
From stdpp Require Import pretty.
From Stdlib Require Import Ascii String.
From S2P Require Import Prelude Float64 Text HttpApi UriText Errors Redaction.

(** ** Options *)
Inductive TlsBackend := RustlsRing | RustlsAwsLcRs | RustlsGraviola | RustlsNoProvider | NativeTls.

#[global] Instance TlsBackend_eq_dec : EqDecision TlsBackend.
Proof. solve_decision. Defined.

Definition backend_as_str (b : TlsBackend) : string :=
  match b with
  | RustlsRing => "rustls-ring"
  | RustlsAwsLcRs => "rustls-aws-lc-rs"
  | RustlsGraviola => "rustls-graviola"
  | RustlsNoProvider => "rustls-no-provider"
  | NativeTls => "native-tls"
  end.

Inductive TlsVersion := V1_2 | V1_3.

Definition version_as_str (v : TlsVersion) : string := match v with V1_2 => "TLS1.2" | V1_3 => "TLS1.3" end.

(** The derived order. *)
Definition version_leb (v w : TlsVersion) : bool := match v, w with V1_3, V1_2 => false | _, _ => true end.

Inductive TlsRootStore := BackendDefault | WebPki | System | Specific.

#[global] Instance TlsRootStore_eq_dec : EqDecision TlsRootStore.
Proof. solve_decision. Defined.

Inductive TlsRootCertificate := RootPem (pem : list Z) | RootDer (der : list Z).

Inductive TlsClientIdentity :=
| IdentityPem (cert_chain_pem private_key_pem : list Z)
| IdentityPkcs12 (identity_der : list Z) (password : str).

Record TlsOptions := {
  root_store : TlsRootStore;
  root_certificates : list TlsRootCertificate;
  client_identity : option TlsClientIdentity;
  min_protocol_version : option TlsVersion;
  max_protocol_version : option TlsVersion;
}.

Definition tls_options_default : TlsOptions :=
  {| root_store := BackendDefault; root_certificates := []; client_identity := None;
     min_protocol_version := None; max_protocol_version := None |}.

Record TlsVersionBounds := { bound_min : option TlsVersion; bound_max : option TlsVersion }.

Definition bounds_contains (version : TlsVersion) (b : TlsVersionBounds) : bool :=
  match bound_min b with Some min => version_leb min version | None => true end &&
  match bound_max b with Some max => version_leb version max | None => true end.

Section Tls.
Context `{Http}.

Definition tls_config_error (backend : TlsBackend) (message : str) : Error.t :=
  Error.TlsConfig (backend_as_str backend) message.

Definition tls_version_bounds (backend : TlsBackend) (o : TlsOptions) : result TlsVersionBounds Error.t :=
  let bounds := {| bound_min := min_protocol_version o; bound_max := max_protocol_version o |} in
  match bound_min bounds, bound_max bounds with
  | Some min, Some max =>
    if negb (version_leb min max) then
      Err (tls_config_error backend
        (lit "invalid TLS version range: min version " ++ lit (version_as_str min)
         ++ lit " is greater than max version " ++ lit (version_as_str max)))
    else Ok bounds
  | _, _ => Ok bounds
  end.

(** ** PEM bundles *)

(** The first position at which [needle] starts. *)
Fixpoint find_from (haystack needle : list Z) : option nat :=
  if starts_with needle haystack then Some O
  else match haystack with [] => None | _ :: rest => S <$> find_from rest needle end.

Definition find_subslice (haystack needle : list Z) : option nat :=
  if bool_decide (needle = []) || (length haystack <? length needle)%nat then None
  else find_from haystack needle.

Definition contains_pem_marker (haystack marker : list Z) : bool := is_some (find_subslice haystack marker).

Definition is_ascii_whitespace (b : Z) : bool :=
  (b =? 32) || (b =? 9) || (b =? 10) || (b =? 12) || (b =? 13).

Definition is_pem_outer_padding (value : list Z) : bool := forallb is_ascii_whitespace value.

Definition PEM_BEGIN_PREFIX : list Z := lit "-----BEGIN ".
Definition PEM_END_PREFIX : list Z := lit "-----END ".
Definition PEM_BEGIN : list Z := lit "-----BEGIN CERTIFICATE-----".
Definition PEM_END : list Z := lit "-----END CERTIFICATE-----".

Definition is_line_end (b : Z) : bool := (b =? 10) || (b =? 13).

(** The loop of the parser.  [remaining] is the bundle from the cursor on; a turn that
    continues moves the cursor past a block, so the length of the bundle bounds the
    turns. *)
Fixpoint pem_loop (fuel : nat) (backend : TlsBackend) (context : str) (remaining : list Z)
    (blocks : list (list Z)) : result (list (list Z)) Error.t :=
  let fail message := Err (tls_config_error backend (lit "PEM " ++ context ++ lit message)) in
  let next_begin := find_subslice remaining PEM_BEGIN_PREFIX in
  let next_end := find_subslice remaining PEM_END_PREFIX in
  match next_begin with
  | None =>
    match next_end with
    | None =>
      if negb (is_pem_outer_padding remaining) then fail " contains data outside certificate blocks"
      else Ok blocks
    | Some _ => fail " contains an end marker without a matching begin marker"
    end
  | Some begin =>
    if match next_end with Some end_offset => (end_offset <? begin)%nat | None => false end
    then fail " contains an end marker without a matching begin marker"
    else if negb (is_pem_outer_padding (take begin remaining))
    then fail " contains data outside certificate blocks"
    else
      let block := drop begin remaining in
      if negb (starts_with PEM_BEGIN block) then fail " contains a non-certificate block"
      else
        let rest := drop (length PEM_BEGIN) block in
        match find_subslice rest PEM_END with
        | None => fail " block is missing its END CERTIFICATE marker"
        | Some end_offset =>
          if contains_pem_marker (take end_offset rest) PEM_BEGIN_PREFIX
          then fail " contains a nested begin marker"
          else
            let after := drop (end_offset + length PEM_END) rest in
            let line_ends := (length after - length (trim_start_with is_line_end after))%nat in
            let block_len := (length PEM_BEGIN + (end_offset + length PEM_END) + line_ends)%nat in
            match fuel with
            | O => fail " block is missing its END CERTIFICATE marker"
            | S fuel =>
              pem_loop fuel backend context (drop line_ends after) (blocks ++ [take block_len block])
            end
        end
  end.

Definition parse_pem_certificate_blocks (backend : TlsBackend) (pem_bundle : list Z) (context : str)
    : result (list (list Z)) Error.t :=
  let? blocks := pem_loop (length pem_bundle) backend context pem_bundle [] in
  match blocks with
  | [] => Err (tls_config_error backend (lit "no certificate blocks found in PEM " ++ context))
  | _ => Ok blocks
  end.

End Tls.

(** ** What the parser accepts *)
Section Pem.
Context `{Http}.

(** Padding and blocks, each block from its BEGIN marker to the line ends after its
    END marker, with no BEGIN marker inside and its END marker the first one. *)
Inductive pem_text : list (list Z) -> list Z -> Prop :=
| pem_end pad : is_pem_outer_padding pad = true -> pem_text [] pad
| pem_block pad content nl tail bs :
    is_pem_outer_padding pad = true ->
    find_subslice (content ++ PEM_END) PEM_END = Some (length content) ->
    contains_pem_marker content PEM_BEGIN_PREFIX = false ->
    forallb is_line_end nl = true ->
    match tail with b :: _ => is_line_end b = false | [] => True end ->
    pem_text bs tail ->
    pem_text ((PEM_BEGIN ++ content ++ PEM_END ++ nl) :: bs)
      (pad ++ PEM_BEGIN ++ content ++ PEM_END ++ nl ++ tail).

Lemma starts_with_prefix p t : starts_with p (p ++ t) = true.
Proof. apply starts_with_app. eauto. Qed.

Lemma find_from_Some h n i : find_from h n = Some i -> exists t, h = take i h ++ n ++ t /\ (i <= length h)%nat.
Proof.
  revert i. induction h as [|b h IH]; intros i; simpl.
  - destruct (starts_with n []) eqn:Hs; [|done]. intros [= <-]. apply starts_with_app in Hs as [t Ht]. by exists t.
  - destruct (starts_with n (b :: h)) eqn:Hs.
    + intros [= <-]. apply starts_with_app in Hs as [t Ht]. exists t. split; [done|lia].
    + destruct (find_from h n) as [j|] eqn:Hj; [|done]. intros [= <-]. destruct (IH j eq_refl) as (t & Ht & Hle).
      exists t. simpl. split; [by rewrite <- Ht|lia].
Qed.

Lemma find_subslice_eq h n : n <> [] -> find_subslice h n = find_from h n.
Proof.
  intros Hn. unfold find_subslice. rewrite bool_decide_false by done. simpl.
  destruct (Nat.ltb_spec (length h) (length n)) as [Hlt|]; [|done].
  destruct (find_from h n) as [i|] eqn:Hi; [|done]. apply find_from_Some in Hi as (t & Ht & _).
  apply (f_equal length) in Ht. rewrite !length_app in Ht. lia.
Qed.

Lemma starts_with_weaken p a b : starts_with p a = true -> starts_with p (a ++ b) = true.
Proof. intros [t ->]%starts_with_app. rewrite <- app_assoc. apply starts_with_prefix. Qed.

Lemma starts_with_strengthen p a b :
  (length p <= length a)%nat -> starts_with p (a ++ b) = true -> starts_with p a = true.
Proof.
  intros Hl [t Ht]%starts_with_app. assert (a = p ++ take (length a - length p) t) as ->.
  { apply (f_equal (take (length a))) in Ht. rewrite take_app_length, take_app in Ht. by rewrite take_ge in Ht by lia. }
  apply starts_with_prefix.
Qed.

(** Where a marker is found depends on the text up to its end only. *)
Lemma find_from_local a b n i :
  (i + length n <= length a)%nat -> find_from (a ++ b) n = Some i <-> find_from a n = Some i.
Proof.
  revert i. induction a as [|x a IH]; intros i Hi; simpl in *.
  - assert (i = O /\ n = []) as [-> ->] by (destruct n; simpl in *; split; lia || done). 
    split; intros _; [done|]. by destruct b.
  - destruct (starts_with n (x :: a)) eqn:Hs.
    + by rewrite (starts_with_weaken n (x :: a) b Hs : starts_with n (x :: a ++ b) = true).
    + destruct (starts_with n (x :: a ++ b)) eqn:Hs'.
      * split; [intros [= <-]|].
        -- exfalso. assert (starts_with n (x :: a) = true) by (apply (starts_with_strengthen n (x :: a) b); simpl; [lia|done]). congruence.
        -- destruct (find_from a n) as [j|] eqn:Hj; [|done]. intros [= <-]. exfalso.
           assert (starts_with n (x :: a) = true) by (apply (starts_with_strengthen n (x :: a) b); simpl; [lia|done]). congruence.
      * destruct i as [|i]; [by destruct (find_from (a ++ b) n), (find_from a n)|]. specialize (IH i ltac:(lia)).
        split; intros Hf; [destruct (find_from (a ++ b) n) eqn:He; [|done]|destruct (find_from a n) eqn:He; [|done]];
          simpl in Hf; simplify_eq; destruct IH as [IH1 IH2].
        -- by rewrite IH1.
        -- by rewrite IH2.
Qed.

(** No marker starts in text without dashes. *)
Definition no_dash (s : list Z) : Prop := Forall (fun b => b <> 45) s.

Lemma find_from_skip pre t n : no_dash pre -> find_from (pre ++ t) (45 :: n) = Nat.add (length pre) <$> find_from t (45 :: n).
Proof.
  induction 1 as [|b pre Hb _ IH]; [rewrite app_nil_l; by destruct (find_from t (45 :: n))|].
  change (find_from ((b :: pre) ++ t) (45 :: n)) with
    (if starts_with (45 :: n) (b :: pre ++ t) then Some O else S <$> find_from (pre ++ t) (45 :: n)).
  assert (starts_with (45 :: n) (b :: pre ++ t) = false) as ->.
  { unfold starts_with. cbn [strip_prefix]. by rewrite (proj2 (Z.eqb_neq 45 b)) by congruence. }
  rewrite IH. by destruct (find_from t (45 :: n)).
Qed.

Lemma padding_no_dash pad : is_pem_outer_padding pad = true -> no_dash pad.
Proof.
  unfold is_pem_outer_padding. rewrite forallb_forall. intros Hp. apply Forall_forall. intros b Hb%list_elem_of_In ->.
  by specialize (Hp 45 Hb).
Qed.

Lemma trim_start_split p s :
  exists pre, s = pre ++ trim_start_with p s /\ forallb p pre = true /\
    match trim_start_with p s with b :: _ => p b = false | [] => True end.
Proof.
  induction s as [|b s IH]; [by exists []|]. simpl. destruct (p b) eqn:Hb.
  - destruct IH as (pre & Hs & Hp & Ht). exists (b :: pre). simpl. rewrite Hb. split_and!; [by f_equal|done|done].
  - exists []. done.
Qed.

Lemma trim_start_app p pre t :
  forallb p pre = true -> match t with b :: _ => p b = false | [] => True end -> trim_start_with p (pre ++ t) = t.
Proof.
  intros Hp Ht. induction pre as [|b pre IH]; simpl in *.
  - destruct t as [|b t]; [done|]. simpl. by rewrite Ht.
  - apply andb_true_iff in Hp as [-> Hp]. by apply IH.
Qed.

(** A turn of the loop past padding and a block. *)
Lemma pem_loop_block fuel backend context pad content nl rest blocks :
  is_pem_outer_padding pad = true -> find_subslice (content ++ PEM_END) PEM_END = Some (length content) ->
  contains_pem_marker content PEM_BEGIN_PREFIX = false -> forallb is_line_end nl = true ->
  match rest with b :: _ => is_line_end b = false | [] => True end ->
  pem_loop (S fuel) backend context (pad ++ PEM_BEGIN ++ content ++ PEM_END ++ nl ++ rest) blocks
  = pem_loop fuel backend context rest (blocks ++ [PEM_BEGIN ++ content ++ PEM_END ++ nl]).
Proof.
  intros Hpad Hend Hbegin Hnl Htail. pose proof (padding_no_dash _ Hpad) as Hnd.
  set (text := PEM_BEGIN ++ content ++ PEM_END ++ nl ++ rest).
  assert (find_subslice (pad ++ text) PEM_BEGIN_PREFIX = Some (length pad)) as H1.
  { rewrite find_subslice_eq by done. etransitivity; [exact (find_from_skip pad text (tail PEM_BEGIN_PREFIX) Hnd)|].
    change (Nat.add (length pad) <$> Some O = Some (length pad)). simpl. by rewrite Nat.add_0_r. }
  assert (match find_subslice (pad ++ text) PEM_END_PREFIX with
          | Some e => (e <? length pad)%nat | None => false end = false) as H2.
  { rewrite find_subslice_eq by done. pose proof (find_from_skip pad text (tail PEM_END_PREFIX) Hnd) as Hs.
    change (45 :: tail PEM_END_PREFIX) with PEM_END_PREFIX in Hs. rewrite Hs. destruct (find_from text _) as [e|]; [|done]. simpl. apply Nat.ltb_ge. lia. }
  assert (find_subslice (content ++ PEM_END ++ nl ++ rest) PEM_END = Some (length content)) as H3.
  { rewrite find_subslice_eq in * by done. rewrite app_assoc. apply find_from_local; [rewrite length_app; lia|done]. }
  assert (length (nl ++ rest) - length (trim_start_with is_line_end (nl ++ rest)) = length nl)%nat as H4.
  { rewrite (trim_start_app _ _ _ Hnl Htail), length_app. lia. }
  cbn [pem_loop]. rewrite H1, H2, take_app_length, Hpad, drop_app_length. cbn [negb].
  unfold text at 1. rewrite starts_with_prefix. cbn [negb]. unfold text. rewrite drop_app_length, H3.
  rewrite take_app_length, Hbegin.
  assert (drop (length content + length PEM_END) (content ++ PEM_END ++ nl ++ rest) = nl ++ rest) as ->.
  { rewrite app_assoc, <- length_app. apply drop_app_length. }
  rewrite H4, drop_app_length. f_equal. f_equal. f_equal.
  replace (PEM_BEGIN ++ content ++ PEM_END ++ nl ++ rest) with ((PEM_BEGIN ++ content ++ PEM_END ++ nl) ++ rest)
    by by rewrite <- !app_assoc.
  replace (_ + _ + _)%nat with (length (PEM_BEGIN ++ content ++ PEM_END ++ nl)) by (rewrite !length_app; lia).
  apply take_app_length.
Qed.

Lemma pem_loop_complete backend context bs text fuel blocks :
  pem_text bs text -> (length text <= fuel)%nat ->
  pem_loop fuel backend context text blocks = Ok (blocks ++ bs).
Proof.
  intros Ht. revert fuel blocks. induction Ht as [pad Hpad|pad content nl rest bs Hpad Hend Hbegin Hnl Htail _ IH];
    intros fuel blocks Hfuel.
  - pose proof (padding_no_dash _ Hpad) as Hnd. rewrite app_nil_r.
    assert (find_subslice pad PEM_BEGIN_PREFIX = None /\ find_subslice pad PEM_END_PREFIX = None) as [H1 H2].
    { rewrite !find_subslice_eq by done. rewrite <- (app_nil_r pad).
      split; [exact (find_from_skip pad [] (tail PEM_BEGIN_PREFIX) Hnd)|exact (find_from_skip pad [] (tail PEM_END_PREFIX) Hnd)]. }
    destruct fuel; cbn [pem_loop]; by rewrite H1, H2, Hpad.
  - assert (1 <= length PEM_BEGIN)%nat as Hb by (vm_compute; lia). rewrite !length_app in Hfuel. destruct fuel as [|fuel]; [lia|].
    rewrite pem_loop_block by done. rewrite IH by lia. by rewrite <- app_assoc.
Qed.

(** What the checks of a turn that succeeds establish. *)
Lemma pem_loop_turn backend context fuel text blocks r :
  pem_loop fuel backend context text blocks = Ok r ->
  (is_pem_outer_padding text = true /\ r = blocks) \/
  exists pad content nl rest,
    text = pad ++ PEM_BEGIN ++ content ++ PEM_END ++ nl ++ rest /\
    is_pem_outer_padding pad = true /\ find_subslice (content ++ PEM_END) PEM_END = Some (length content) /\
    contains_pem_marker content PEM_BEGIN_PREFIX = false /\ forallb is_line_end nl = true /\
    match rest with b :: _ => is_line_end b = false | [] => True end /\ fuel <> O.
Proof.
  assert (pem_loop fuel backend context text blocks = Ok r -> fuel <> O \/
    find_subslice text PEM_BEGIN_PREFIX = None) as Hfuel.
  { destruct fuel; [|by left]. cbn [pem_loop]. destruct (find_subslice text PEM_BEGIN_PREFIX) as [begin|]; [|by right].
    repeat (case_match; try done). }
  intros Hr. specialize (Hfuel Hr). revert Hr. destruct fuel as [|fuel]; cbn [pem_loop];
    (destruct (find_subslice text PEM_BEGIN_PREFIX) as [begin|] eqn:H1;
     [|destruct (find_subslice text PEM_END_PREFIX); [done|];
       destruct (is_pem_outer_padding text) eqn:Hpad; [|done]; intros [= <-]; by left]); [by destruct Hfuel|].
  destruct (match find_subslice text PEM_END_PREFIX with Some _ => _ | None => _ end); [done|].
  destruct (is_pem_outer_padding (take begin text)) eqn:Hpad; [cbn [negb]|done].
  destruct (starts_with PEM_BEGIN (drop begin text)) eqn:Hs; [cbn [negb]|done].
  apply starts_with_app in Hs as [rest Hrest]. rewrite Hrest, drop_app_length.
  destruct (find_subslice rest PEM_END) as [off|] eqn:Hend; [|done].
  destruct (contains_pem_marker (take off rest) PEM_BEGIN_PREFIX) eqn:Hm; [done|]. intros _. right.
  rewrite find_subslice_eq in Hend by done. pose proof Hend as Hfind. apply find_from_Some in Hend as (after & Hafter & Hle).
  destruct (trim_start_split is_line_end after) as (nl & Hnl & Hall & Hstop).
  exists (take begin text), (take off rest), nl, (trim_start_with is_line_end after). split_and!; try done.
  - rewrite <- Hnl, <- Hafter, <- Hrest. by rewrite take_drop.
  - rewrite find_subslice_eq by done. rewrite length_take, Nat.min_l by done.
    rewrite Hafter, app_assoc in Hfind. apply find_from_local in Hfind; [done|]. rewrite length_app, length_take. lia.
Qed.

Lemma pem_loop_sound backend context fuel text blocks r :
  pem_loop fuel backend context text blocks = Ok r -> exists bs, r = blocks ++ bs /\ pem_text bs text.
Proof.
  revert text blocks. induction fuel as [|fuel IH]; intros text blocks Hr;
    destruct (pem_loop_turn _ _ _ _ _ _ Hr) as [[Hpad ->]|(pad & content & nl & rest & -> & Hpad & Hend & Hm & Hnl & Hrest & Hf)];
    try done; try (exists []; rewrite app_nil_r; split; [done|by constructor]).
  rewrite pem_loop_block in Hr by done. apply IH in Hr as (bs & -> & Ht).
  eexists. rewrite <- app_assoc. split; [done|]. by constructor.
Qed.

Lemma parsed_blocks_text backend bundle context bs :
  parse_pem_certificate_blocks backend bundle context = Ok bs -> pem_text bs bundle /\ bs <> [].
Proof.
  intros (blocks & Hl & Hb)%result_bind_Ok_inv. apply pem_loop_sound in Hl as (bs' & -> & Ht). simpl in Hb.
  destruct bs'; simplify_eq. done.
Qed.

(** C39: The PEM parser accepts exactly the well-formed bundles and loses nothing of
    them: it returns the blocks [bs] if and only if the bundle is made of those
    certificate blocks, in order, with nothing but whitespace around them, each from
    its BEGIN to its first END marker with no other BEGIN in between, and there is
    at least one. *)
Theorem pem_blocks_exact backend bundle context bs :
  parse_pem_certificate_blocks backend bundle context = Ok bs <-> pem_text bs bundle /\ bs <> [].
Proof.
  split; [apply parsed_blocks_text|]. unfold parse_pem_certificate_blocks.
  intros [Ht Hne]. rewrite (pem_loop_complete backend context bs bundle) by done. simpl. by destruct bs.
Qed.

End Pem.

(** ** The certificates that the options name

    All those of a bundle, read by [from_pem] from its blocks, and of every entry. *)
Section Named.
Context {X E : Type} (from_pem from_der : list Z -> result X E).

Definition bundle_holds (bundle : list Z) (certificates : list X) : Prop :=
  exists blocks, pem_text blocks bundle /\ blocks <> [] /\
    Forall2 (fun block certificate => from_pem block = Ok certificate) blocks certificates.

Definition entry_holds (entry : TlsRootCertificate) (certificates : list X) : Prop :=
  match entry with
  | RootPem pem => bundle_holds pem certificates
  | RootDer der => exists certificate, from_der der = Ok certificate /\ certificates = [certificate]
  end.

Definition custom_certificates (entries : list TlsRootCertificate) (certificates : list X) : Prop :=
  exists per_entry, Forall2 entry_holds entries per_entry /\ certificates = concat per_entry.

Lemma bundle_holds_nonempty bundle certificates : bundle_holds bundle certificates -> certificates <> [].
Proof. intros (blocks & _ & Hne & HF) ->. by apply Forall2_nil_inv_r in HF. Qed.

Lemma entry_nonempty entry certificates : entry_holds entry certificates -> certificates <> [].
Proof. destruct entry as [pem|der]; simpl; [apply bundle_holds_nonempty|by intros (c & _ & ->)]. Qed.

Lemma custom_certificates_nonempty entries certificates :
  custom_certificates entries certificates -> entries = [] <-> certificates = [].
Proof.
  intros (per & HF & ->). destruct HF as [|entry cs entries per He HF]; [done|]. apply entry_nonempty in He.
  by destruct cs.
Qed.

Lemma custom_certificates_cons entry entries certificates rest :
  entry_holds entry certificates -> custom_certificates entries rest ->
  custom_certificates (entry :: entries) (certificates ++ rest).
Proof. intros He (per & HF & ->). exists (certificates :: per). split; [by constructor|done]. Qed.

End Named.

(** A bundle of two blocks with blank lines around them. *)
Example pem_two_blocks :
  let block := PEM_BEGIN ++ [10] ++ lit "AQIDBA==" ++ [10] ++ PEM_END ++ [10] in
  match parse_pem_certificate_blocks (H := ref_http) RustlsRing ([32; 10] ++ block ++ [32] ++ block ++ [9]) [] with
  | Ok blocks => blocks
  | Err _ => []
  end = [block; block].
Proof. vm_compute. reflexivity. Qed.

(** ** The blocking transport's configuration *)
Record TlsCargoFeatures := {
  tls_rustls_ring : bool;
  tls_rustls_aws_lc_rs : bool;
  tls_rustls_graviola : bool;
  tls_rustls_no_provider : bool;
  tls_native : bool;
}.

Definition any_rustls (f : TlsCargoFeatures) : bool :=
  tls_rustls_ring f || tls_rustls_aws_lc_rs f || tls_rustls_graviola f || tls_rustls_no_provider f.

Definition default_tls_backend (f : TlsCargoFeatures) : TlsBackend :=
  if tls_rustls_ring f then RustlsRing
  else if tls_rustls_aws_lc_rs f then RustlsAwsLcRs
  else if tls_native f then NativeTls
  else if tls_rustls_graviola f then RustlsGraviola
  else if tls_rustls_no_provider f then RustlsNoProvider
  else RustlsRing.

Definition backend_is_available (f : TlsCargoFeatures) (backend : TlsBackend) : bool :=
  match backend with
  | RustlsRing => tls_rustls_ring f
  | RustlsAwsLcRs => tls_rustls_aws_lc_rs f
  | RustlsGraviola => tls_rustls_graviola f
  | NativeTls => tls_native f
  | RustlsNoProvider => tls_rustls_no_provider f
  end.

Class TlsCrates := {
  Certificate : Type;
  PrivateKey : Type;
  CryptoProvider : Type;
  certificate_from_pem : list Z -> result Certificate str;
  certificate_from_der : list Z -> Certificate;
  private_key_from_pem : list Z -> result PrivateKey str;
  (** what a trust store makes of a root: an error text, or nothing *)
  rustls_rejects_root : Certificate -> option str;
  native_rejects_root : Certificate -> option str;
  (** the certificates [load_native_certs] finds, and whether it reports errors *)
  native_certs : list Certificate * bool;
  webpki_root_certs : list Certificate;
  bundled_provider : TlsBackend -> CryptoProvider;
  installed_provider : option CryptoProvider;
  rejects_protocol_versions : CryptoProvider -> option str;
}.

Inductive TlsProvider := ProviderRustls | ProviderNativeTls.
Inductive RootCerts `{TlsCrates} := RootsWebPki | RootsPlatformVerifier | RootsGiven (certs : list Certificate).

Record TlsConfig `{TlsCrates} := {
  config_provider : TlsProvider;
  config_roots : RootCerts;
  config_client_cert : option (list Certificate * PrivateKey);
  config_crypto : option CryptoProvider;
}.

Section Config.
Context `{Http} `{TlsCrates} (f : TlsCargoFeatures) (backend : TlsBackend).

Definition tls_error (message : str) : Error.t := tls_config_error backend message.

Definition rustls_crypto_provider : result CryptoProvider Error.t :=
  let unavailable := Err (Error.TlsBackendUnavailable (backend_as_str backend)) in
  match backend with
  | RustlsRing => if tls_rustls_ring f then Ok (bundled_provider RustlsRing) else unavailable
  | RustlsAwsLcRs => if tls_rustls_aws_lc_rs f then Ok (bundled_provider RustlsAwsLcRs) else unavailable
  | RustlsGraviola => if tls_rustls_graviola f then Ok (bundled_provider RustlsGraviola) else unavailable
  | RustlsNoProvider =>
    if tls_rustls_no_provider f then
      match installed_provider with
      | Some provider => Ok provider
      | None => Err (Error.TlsBackendInit (backend_as_str backend)
          (lit "no rustls CryptoProvider is installed as the process-wide default; call CryptoProvider::install_default() before building a rustls-no-provider client"))
      end
    else unavailable
  | NativeTls => unavailable
  end.

(** Each block of a bundle as a certificate, stopping at the first failure. *)
Fixpoint parse_blocks (blocks : list (list Z)) (context : str) : result (list Certificate) Error.t :=
  match blocks with
  | [] => Ok []
  | block :: blocks =>
    match certificate_from_pem block with
    | Err source => Err (tls_error (lit "failed to parse PEM " ++ context ++ lit ": " ++ source))
    | Ok certificate => let? certificates := parse_blocks blocks context in Ok (certificate :: certificates)
    end
  end.

Definition parse_pem_certificates (pem_bundle : list Z) (context : str) : result (list Certificate) Error.t :=
  let? blocks := parse_pem_certificate_blocks backend pem_bundle context in parse_blocks blocks context.

Definition load_system_root_certificates : result (list Certificate) Error.t :=
  let '(certificates, errors) := native_certs in
  match certificates with
  | [] => if errors then Err (tls_error (lit "failed to load system root certificates")) else Ok []
  | _ => Ok certificates
  end.

(** The custom roots, in order. *)
Fixpoint custom_roots (certificates : list TlsRootCertificate) : result (list Certificate) Error.t :=
  match certificates with
  | [] => Ok []
  | RootPem pem :: rest =>
    let? parsed := parse_pem_certificates pem (lit "root certificate") in
    let? roots := custom_roots rest in Ok (parsed ++ roots)
  | RootDer der :: rest => let? roots := custom_roots rest in Ok (certificate_from_der der :: roots)
  end.

(** [validate_custom_rustls_root_certificates], [validate_custom_native_tls_root_certificates]. *)
Fixpoint validate_roots (rejects : Certificate -> option str) (roots : list Certificate) : result unit Error.t :=
  match roots with
  | [] => Ok tt
  | root :: roots =>
    match rejects root with
    | Some source => Err (tls_error (lit "failed to parse custom root certificate: " ++ source))
    | None => validate_roots rejects roots
    end
  end.

Definition is_rustls : bool := negb (bool_decide (backend = NativeTls)).

(** The trust store the options ask for. *)
Definition configured_roots (o : TlsOptions) (roots : list Certificate) : result RootCerts Error.t :=
  let unavailable := Err (Error.TlsBackendUnavailable (backend_as_str backend)) in
  match root_store o with
  | BackendDefault => Ok (if is_rustls then RootsWebPki else RootsPlatformVerifier)
  | WebPki =>
    if any_rustls f then
      Ok match roots with [] => RootsWebPki | _ => RootsGiven (webpki_root_certs ++ roots) end
    else unavailable
  | System =>
    match roots with
    | [] => Ok RootsPlatformVerifier
    | _ =>
      if any_rustls f then
        let? system := load_system_root_certificates in
        match system ++ roots with
        | [] => Err (tls_error (lit "failed to load system root certificates"))
        | combined => Ok (RootsGiven combined)
        end
      else unavailable
    end
  | Specific => Ok (RootsGiven roots)
  end.

Definition configured_identity (identity : option TlsClientIdentity)
    : result (option (list Certificate * PrivateKey)) Error.t :=
  match identity with
  | None => Ok None
  | Some (IdentityPem cert_chain_pem private_key_pem) =>
    let? cert_chain := parse_pem_certificates cert_chain_pem (lit "mTLS certificate chain") in
    match private_key_from_pem private_key_pem with
    | Err source => Err (tls_error (lit "failed to parse mTLS private key PEM: " ++ source))
    | Ok private_key => Ok (Some (cert_chain, private_key))
    end
  | Some (IdentityPkcs12 identity_der password) =>
    Err (tls_error (lit "PKCS#12 identity is unsupported in sync ureq transport; use PEM cert+key (pkcs12_bytes="
      ++ lit (pretty (Z.of_nat (length identity_der))) ++ lit ", password_len="
      ++ lit (pretty (str_len password)) ++ lit ")"))
  end.

Definition configured_crypto : result (option CryptoProvider) Error.t :=
  if any_rustls f && is_rustls then
    let? provider := rustls_crypto_provider in
    if tls_rustls_no_provider f && bool_decide (backend = RustlsNoProvider) then
      match rejects_protocol_versions provider with
      | Some message => Err (Error.TlsBackendInit (backend_as_str backend) message)
      | None => Ok (Some provider)
      end
    else Ok (Some provider)
  else Ok None.

Definition check (bad : bool) (message : string) : result unit Error.t :=
  if bad then Err (tls_error (lit message)) else Ok tt.

Definition build_sync_tls_config (o : TlsOptions) : result TlsConfig Error.t :=
  if negb (backend_is_available f backend) then Err (Error.TlsBackendUnavailable (backend_as_str backend))
  else
    let? bounds := tls_version_bounds backend o in
    let? _ := check (is_some (bound_min bounds) || is_some (bound_max bounds))
      "TLS version bounds are unsupported for blocking ureq transport; protocol version overrides are currently available only for async backends" in
    let provider := match backend with NativeTls => ProviderNativeTls | _ => ProviderRustls end in
    let has_custom := negb (bool_decide (length (root_certificates o) = O)) in
    let? _ := check (has_custom && bool_decide (root_store o = BackendDefault))
      "custom root CAs require tls_root_store(TlsRootStore::WebPki), tls_root_store(TlsRootStore::System), or tls_root_store(TlsRootStore::Specific)" in
    let? _ := check (bool_decide (backend = NativeTls) && bool_decide (root_store o = WebPki))
      "tls_root_store(TlsRootStore::WebPki) is unsupported for native-tls backend; use BackendDefault, System, or Specific" in
    let? _ := check (bool_decide (backend = NativeTls) && bool_decide (root_store o = System) && has_custom)
      "blocking native-tls backend cannot combine system roots with custom root CAs; use tls_root_store(TlsRootStore::Specific) to trust only explicit roots" in
    let? _ := check (bool_decide (root_store o = Specific) && negb has_custom)
      "tls_root_store(TlsRootStore::Specific) requires at least one root CA" in
    let? roots := custom_roots (root_certificates o) in
    let? _ := if any_rustls f && is_rustls then validate_roots rustls_rejects_root roots else Ok tt in
    let? _ := if tls_native f && negb is_rustls then validate_roots native_rejects_root roots else Ok tt in
    let? trusted := configured_roots o roots in
    let? client_cert := configured_identity (client_identity o) in
    let? crypto := configured_crypto in
    Ok {| config_provider := provider; config_roots := trusted; config_client_cert := client_cert;
          config_crypto := crypto |}.

(** ** The configuration trusts what the options say *)
Lemma parse_pem_certificates_Ok bundle context certs :
  parse_pem_certificates bundle context = Ok certs -> bundle_holds certificate_from_pem bundle certs.
Proof.
  intros (blocks & [Ht Hne]%parsed_blocks_text & Hc)%result_bind_Ok_inv. exists blocks. split; [done|]. split; [done|].
  clear Ht Hne. revert certs Hc. induction blocks as [|b blocks IH]; intros certs; simpl; [by intros [= <-]|].
  destruct (certificate_from_pem b) eqn:Hb; [|done]. intros (cs & Hcs & [= <-])%result_bind_Ok_inv.
  constructor; [done|by apply IH].
Qed.

(** A certificate in DER is taken as it is. *)
Definition accepts_der (der : list Z) : result Certificate str := Ok (certificate_from_der der).

Lemma custom_roots_Ok certificates roots :
  custom_roots certificates = Ok roots -> custom_certificates certificate_from_pem accepts_der certificates roots.
Proof.
  revert roots. induction certificates as [|[pem|der] rest IH]; intros roots; simpl.
  - intros [= <-]. by exists [].
  - intros (parsed & Hp & (roots' & Hr & [= <-])%result_bind_Ok_inv)%result_bind_Ok_inv.
    apply custom_certificates_cons; [by eapply parse_pem_certificates_Ok|by apply IH].
  - intros (roots' & Hr & [= <-])%result_bind_Ok_inv. apply (custom_certificates_cons _ _ (RootDer der) _ [_]); [|by apply IH].
    by eexists.
Qed.

(** The identity of the configuration is the one that was set: its whole chain and
    its key. *)
Definition identity_used (identity : option TlsClientIdentity) (used : option (list Certificate * PrivateKey)) : Prop :=
  match identity, used with
  | None, None => True
  | Some (IdentityPem cert_chain_pem private_key_pem), Some (chain, key) =>
    bundle_holds certificate_from_pem cert_chain_pem chain /\ private_key_from_pem private_key_pem = Ok key
  | _, _ => False
  end.

Lemma configured_identity_Ok identity used : configured_identity identity = Ok used -> identity_used identity used.
Proof.
  destruct identity as [[chain key|]|]; simpl; [|done|by intros [= <-]].
  intros (certs & Hc%parse_pem_certificates_Ok & Hr)%result_bind_Ok_inv.
  destruct (private_key_from_pem key) eqn:Hk; [|done]. by injection Hr as <-.
Qed.

(** The cryptography of a rustls backend: the bundled one it names, or the one the
    process installed, which then supports the protocol versions. *)
Definition crypto_used (used : option CryptoProvider) : Prop :=
  match backend with
  | NativeTls => used = None
  | RustlsNoProvider => exists provider, used = Some provider /\ installed_provider = Some provider /\
      rejects_protocol_versions provider = None
  | _ => used = Some (bundled_provider backend)
  end.

Lemma configured_crypto_Ok used :
  backend_is_available f backend = true -> configured_crypto = Ok used -> crypto_used used.
Proof.
  unfold configured_crypto, crypto_used, is_rustls, any_rustls, rustls_crypto_provider.
  destruct backend; simpl; intros Ha; rewrite ?Ha, ?orb_true_r; simpl; rewrite ?andb_false_r; simpl;
    try (by intros [= <-]).
  destruct installed_provider as [provider|]; simpl; [|done].
  destruct (rejects_protocol_versions provider) eqn:Hr; [done|]. intros [= <-]. eauto.
Qed.

Lemma validate_roots_Ok rejects roots : validate_roots rejects roots = Ok tt -> Forall (fun root => rejects root = None) roots.
Proof. induction roots as [|root roots IH]; simpl; [by constructor|]. destruct (rejects root) eqn:Hr; [done|]. constructor; auto. Qed.

Lemma check_Ok bad message : check bad message = Ok tt -> bad = false.
Proof. unfold check. by destruct bad. Qed.

(** The trust store that the options name, with the custom roots [roots]. *)
Definition trusts (o : TlsOptions) (roots : list Certificate) (trusted : RootCerts) : Prop :=
  match root_store o with
  | BackendDefault => roots = [] /\ trusted = if is_rustls then RootsWebPki else RootsPlatformVerifier
  | WebPki => is_rustls = true /\
      trusted = match roots with [] => RootsWebPki | _ => RootsGiven (webpki_root_certs ++ roots) end
  | System =>
      (roots = [] /\ trusted = RootsPlatformVerifier) \/
      (roots <> [] /\ is_rustls = true /\ trusted = RootsGiven (native_certs.1 ++ roots))
  | Specific => roots <> [] /\ trusted = RootsGiven roots
  end.

Lemma configured_roots_Ok o roots trusted :
  configured_roots o roots = Ok trusted ->
  (root_store o = BackendDefault -> roots = []) -> (root_store o = WebPki -> is_rustls = true) ->
  (root_store o = System -> roots <> [] -> is_rustls = true) -> (root_store o = Specific -> roots <> []) ->
  trusts o roots trusted.
Proof.
  unfold configured_roots, trusts. intros Hc H1 H2 H3 H4. destruct (root_store o).
  - injection Hc as <-. auto.
  - destruct (any_rustls f); [|done]. injection Hc as <-. auto.
  - destruct roots as [|root roots]; [left; by injection Hc as <-|]. right. split; [done|]. split; [by apply H3|].
    destruct (any_rustls f); [|done]. apply result_bind_Ok_inv in Hc as (system & Hs & Hc).
    assert (system = native_certs.1) as ->.
    { unfold load_system_root_certificates in Hs. destruct native_certs as [[|c cs] []]; simpl in *; congruence. }
    destruct (native_certs.1 ++ root :: roots); [done|]. by injection Hc as <-.
  - injection Hc as <-. auto.
Qed.

(** C37: A TLS configuration that builds is what the options say and drops none of
    them: the backend is compiled in, its provider is used, with the cryptography it
    names, and no version bound is ignored; every certificate of every custom root,
    of a bundle all its blocks, parsed, was accepted by the backend and is trusted;
    the trust store is the one named, with the custom roots added where it takes
    any, and with the Specific store it holds exactly the custom roots, at least
    one; and the client identity that was set, and no other, is used, with its whole
    certificate chain. *)
Theorem tls_config_trusts_as_configured o config :
  build_sync_tls_config o = Ok config ->
  backend_is_available f backend = true /\ min_protocol_version o = None /\ max_protocol_version o = None /\
  config_provider config = (if is_rustls then ProviderRustls else ProviderNativeTls) /\
  crypto_used (config_crypto config) /\
  identity_used (client_identity o) (config_client_cert config) /\
  exists roots, custom_certificates certificate_from_pem accepts_der (root_certificates o) roots /\
    trusts o roots (config_roots config) /\
    Forall (fun root => (if is_rustls then rustls_rejects_root root else native_rejects_root root) = None) roots.
Proof.
  unfold build_sync_tls_config. destruct (backend_is_available f backend) eqn:Havail; [cbn [negb]|done].
  intros (bounds & Hb & Hr)%result_bind_Ok_inv. apply result_bind_Ok_inv in Hr as ([] & Hv%check_Ok & Hr).
  apply result_bind_Ok_inv in Hr as ([] & H1%check_Ok & Hr). apply result_bind_Ok_inv in Hr as ([] & H2%check_Ok & Hr).
  apply result_bind_Ok_inv in Hr as ([] & H3%check_Ok & Hr). apply result_bind_Ok_inv in Hr as ([] & H4%check_Ok & Hr).
  apply result_bind_Ok_inv in Hr as (roots & Hroots%custom_roots_Ok & Hr). apply result_bind_Ok_inv in Hr as ([] & Hrustls & Hr).
  apply result_bind_Ok_inv in Hr as ([] & Hnative & Hr). apply result_bind_Ok_inv in Hr as (trusted & Htrusted & Hr).
  apply result_bind_Ok_inv in Hr as (cert & Hcert%configured_identity_Ok & Hr).
  apply result_bind_Ok_inv in Hr as (crypto & Hcrypto%configured_crypto_Ok & [= <-]); [|done].
  assert (bound_min bounds = min_protocol_version o /\ bound_max bounds = max_protocol_version o) as [Hmin Hmax].
  { unfold tls_version_bounds in Hb. cbn in Hb. repeat case_match; by simplify_eq. }
  rewrite Hmin, Hmax in Hv. apply orb_false_iff in Hv as [Hv1 Hv2].
  pose proof (custom_certificates_nonempty _ _ _ _ Hroots) as [Hne1 Hne2].
  split_and!; [done|by destruct (min_protocol_version o)|by destruct (max_protocol_version o)|
    by unfold is_rustls; destruct backend|done|done|].
  exists roots. split_and!; [done| |].
  - apply configured_roots_Ok; [done| | | |]; intros Hstore; rewrite Hstore in *; unfold is_rustls.
    + destruct (root_certificates o); [by apply Hne1|done].
    + rewrite andb_true_r in H2. by rewrite H2.
    + intros Hr0. destruct (root_certificates o); [by destruct Hr0, Hne1|]. simpl in H3.
      rewrite !andb_true_r in H3. by rewrite H3.
    + simpl in H4. intros Hnil. rewrite (Hne2 Hnil) in H4. done.
  - unfold is_rustls, any_rustls, backend_is_available in *.
    destruct backend; simpl in *; rewrite Havail in *; rewrite ?orb_true_r in *; simpl in *; by apply validate_roots_Ok.
Qed.

End Config.

(** ** Witness

    Two custom roots, one in PEM and one in DER, as the only trust anchors, and an
    identity with a chain of two certificates. *)
Module TlsDemo.
#[export] Existing Instance ref_http.

#[export] Instance crates : TlsCrates := {
  Certificate := list Z; PrivateKey := list Z; CryptoProvider := unit;
  certificate_from_pem := Ok; certificate_from_der der := der; private_key_from_pem := Ok;
  rustls_rejects_root _ := None; native_rejects_root _ := None; native_certs := ([], false);
  webpki_root_certs := []; bundled_provider _ := tt; installed_provider := None; rejects_protocol_versions _ := None;
}.

Definition features : TlsCargoFeatures :=
  {| tls_rustls_ring := true; tls_rustls_aws_lc_rs := false; tls_rustls_graviola := false;
     tls_rustls_no_provider := false; tls_native := false |}.

Definition options : TlsOptions :=
  {| root_store := Specific; root_certificates := [RootPem (PEM_BEGIN ++ PEM_END); RootDer [1; 2]];
     client_identity := Some (IdentityPem (PEM_BEGIN ++ PEM_END ++ [10] ++ PEM_BEGIN ++ PEM_END) [5]);
     min_protocol_version := None; max_protocol_version := None |}.

End TlsDemo.
#[local] Existing Instance TlsDemo.crates.

Lemma tls_config_trusts_as_configured_witness :
  match build_sync_tls_config (H := ref_http) TlsDemo.features RustlsRing TlsDemo.options with
  | Ok config => min_protocol_version TlsDemo.options = None /\
      identity_used (client_identity TlsDemo.options) (config_client_cert config) /\
      (length <$> (fst <$> config_client_cert config)) = Some 2%nat /\
      exists roots, config_roots config = RootsGiven roots /\ roots <> []
  | Err _ => False
  end.
Proof.
  assert (match build_sync_tls_config (H := ref_http) TlsDemo.features RustlsRing TlsDemo.options with
          | Ok config => length <$> (fst <$> config_client_cert config) | Err _ => None end = Some 2%nat) as Hok
    by (vm_compute; reflexivity).
  destruct (build_sync_tls_config (H := ref_http) TlsDemo.features RustlsRing TlsDemo.options) as [config|e] eqn:Hc;
    [|discriminate Hok].
  destruct (tls_config_trusts_as_configured TlsDemo.features RustlsRing TlsDemo.options config Hc)
    as (_ & Hmin & _ & _ & _ & Hid & roots & _ & [Hne Ht] & _).
  split; [exact Hmin|]. split; [exact Hid|]. split; [exact Hok|]. exists roots. split; [exact Ht|exact Hne].
Defined.
