(* ===== verification/Redirect.v ===== *)
(** * Redirects (core/util/redirect.rs)

    Which statuses redirect, the method of the next request, origin comparison,
    resolution of the location and the header clean-up.  The theorems describe
    exactly which headers a redirect removes, and that a cross-origin redirect
    carries no credential. *)
From Stdlib Require Import Ascii String.
From S2P Require Import Prelude Text HttpApi UriText Errors Redaction UriResolve.

Section Redirect.
Context `{Http} `{UrlCrate}.

Definition is_redirect_status (status : StatusCode) : bool :=
  bool_decide (status = MOVED_PERMANENTLY) || bool_decide (status = FOUND)
  || bool_decide (status = SEE_OTHER) || bool_decide (status = TEMPORARY_REDIRECT)
  || bool_decide (status = PERMANENT_REDIRECT).

Definition redirect_method (method : Method) (status : StatusCode) : Method :=
  if bool_decide (status = SEE_OTHER) && negb (bool_decide (method = HEAD)) then GET
  else if (bool_decide (status = MOVED_PERMANENTLY) || bool_decide (status = FOUND))
          && bool_decide (method = POST) then GET
  else method.

Definition redirect_location (headers : HeaderMap) : option str :=
  value ← hm_get headers (header_name "location"); to_str value.

Definition default_port (uri : Uri) : option Z :=
  match uri_port_u16 uri with
  | Some port => Some port
  | None =>
    scheme ← uri_scheme_str uri;
    if eq_ignore_ascii_case scheme (lit "https") then Some 443
    else if eq_ignore_ascii_case scheme (lit "http") then Some 80
    else None
  end.

(** Decimal digits, least significant first. *)
Fixpoint digits_rev (fuel : nat) (n : Z) : str :=
  match fuel with
  | O => []
  | S fuel => (48 + n mod 10) :: if n <? 10 then [] else digits_rev fuel (n / 10)
  end.

(** [Display] of an integer below [10^20]. *)
Definition display_uint (n : Z) : str := reverse (digits_rev 20 n).

Definition rate_limit_bucket_key (uri : Uri) : option str :=
  host ← normalized_uri_host uri;
  match default_port uri with
  | None => Some host
  | Some port =>
    if contains_char (chr ":"%char) host && negb (starts_with (lit "[") host)
    then Some (lit "[" ++ host ++ lit "]:" ++ display_uint port)
    else Some (host ++ lit ":" ++ display_uint port)
  end.

Definition same_origin (l r : Uri) : bool :=
  let left_scheme := default [] (uri_scheme_str l) in
  let right_scheme := default [] (uri_scheme_str r) in
  if negb (eq_ignore_ascii_case left_scheme right_scheme) then false
  else match normalized_uri_host l, normalized_uri_host r with
  | Some left_host, Some right_host =>
    if negb (bool_decide (left_host = right_host)) then false
    else bool_decide (default_port l = default_port r)
  | _, _ => false
  end.

(** ** Headers *)
Definition hm_remove_all (names : list HeaderName) (headers : HeaderMap) : HeaderMap :=
  fold_left hm_remove names headers.

Definition connection_scoped_headers (headers : HeaderMap) : list HeaderName :=
  value ← hm_get_all headers (header_name "connection");
  token ← match to_str value with Some text => split_with (Z.eqb (chr ","%char)) text | None => [] end;
  match trim token with
  | [] => []
  | t => match header_name_from_bytes t with Some name => [name] | None => [] end
  end.

Definition hop_by_hop_headers : list HeaderName :=
  header_name <$> ["connection"; "keep-alive"; "proxy-connection"; "te"; "trailer";
                   "transfer-encoding"; "upgrade"]%string.

Definition remove_hop_by_hop_redirect_headers (headers : HeaderMap) : HeaderMap :=
  let headers := hm_remove_all (connection_scoped_headers headers) headers in
  hm_remove_all hop_by_hop_headers headers.

Definition body_headers : list HeaderName :=
  header_name <$> ["content-encoding"; "content-length"; "content-type"; "content-digest";
                   "content-md5"; "digest"; "expect"]%string.

Definition sanitize_headers_for_redirect (headers : HeaderMap) (drops_body same_origin_redirect : bool)
    : HeaderMap :=
  let headers := remove_hop_by_hop_redirect_headers headers in
  let headers := hm_remove headers (header_name "host") in
  let headers := if drops_body then hm_remove_all body_headers headers else headers in
  let headers :=
    if negb same_origin_redirect then
      let headers := hm_remove headers (header_name "authorization") in
      let headers := hm_remove headers (header_name "cookie") in
      let sensitive_headers :=
        fst <$> List.filter (fun nv => is_sensitive nv.2) (hm_iter headers) in
      hm_remove_all sensitive_headers headers
    else headers in
  hm_remove headers (header_name "proxy-authorization").

(** ** Locations *)
Definition resolve_relative_location (current_uri : Uri) (location : str) : option Uri :=
  if starts_with (lit "//") location && negb (is_valid_http_network_path_reference location) then None
  else
    base ← url_parse (uri_to_string current_uri);
    joined ← url_join base location;
    if negb (is_http_scheme (url_scheme joined)) then None
    else if nonempty (url_username joined) || is_some (url_password joined) then None
    else
      resolved ← uri_parse (url_as_str joined);
      if uri_has_userinfo resolved then None else Some resolved.

Definition resolve_redirect_uri (current_uri : Uri) (location : str) : option Uri :=
  match uri_parse location with
  | Some uri =>
    match uri_host uri with
    | Some _ =>
      match uri_scheme_str uri with
      | Some scheme =>
        if negb (eq_ignore_ascii_case scheme (lit "http") || eq_ignore_ascii_case scheme (lit "https"))
        then None
        else if uri_has_userinfo uri || negb (is_valid_absolute_http_uri_text location) then None
        else Some uri
      | None =>
        if negb (starts_with (lit "//") location) then None
        else resolve_relative_location current_uri location
      end
    | None =>
      match uri_scheme_str uri with
      | Some _ => None
      | None => resolve_relative_location current_uri location
      end
    end
  | None =>
    if looks_like_malformed_http_absolute_uri location then None
    else resolve_relative_location current_uri location
  end.

(** [redirect_drops_body] of core/execution.rs. *)
Definition redirect_drops_body (current_method : Method) (status : StatusCode) : bool :=
  bool_decide (status = SEE_OTHER)
  || ((bool_decide (status = MOVED_PERMANENTLY) || bool_decide (status = FOUND))
      && bool_decide (current_method = POST)).

End Redirect.

(** ** What is removed *)
Section Removed.
Context `{HttpLaws}.

Definition credential_headers : list HeaderName := header_name <$> ["authorization"; "cookie"]%string.

Lemma hm_get_all_remove_all names m n :
  hm_get_all (hm_remove_all names m) n = if decide (n ∈ names) then [] else hm_get_all m n.
Proof.
  unfold hm_remove_all. revert m. induction names as [|x names IH]; intros m; cbn [fold_left].
  - case_decide as Hin; [by apply not_elem_of_nil in Hin|done].
  - rewrite IH, hm_get_all_remove. repeat case_decide; set_solver.
Qed.

(** The headers a redirect removes. *)
Definition removed (headers : HeaderMap) (drops_body same : bool) (n : HeaderName) : Prop :=
  n ∈ connection_scoped_headers headers \/ n ∈ hop_by_hop_headers \/ n = header_name "host" \/
  n = header_name "proxy-authorization" \/
  (drops_body = true /\ n ∈ body_headers) \/
  (same = false /\
   (n ∈ credential_headers \/ exists v, v ∈ hm_get_all headers n /\ is_sensitive v = true)).

Lemma sensitive_names m n :
  n ∈ (fst <$> List.filter (fun nv => is_sensitive nv.2) (hm_iter m)) <->
  exists v, v ∈ hm_get_all m n /\ is_sensitive v = true.
Proof.
  rewrite list_elem_of_fmap. split.
  - intros ([k v] & -> & Hin). apply list_elem_of_In, filter_In in Hin as [Hin Hs].
    exists v. split; [|done]. by apply hm_iter_spec, list_elem_of_In.
  - intros (v & Hv & Hs). exists (n, v). split; [done|]. apply list_elem_of_In, filter_In.
    split; [|done]. by apply list_elem_of_In, hm_iter_spec.
Qed.

Lemma sanitize_get_all headers drops same n :
  (removed headers drops same n -> hm_get_all (sanitize_headers_for_redirect headers drops same) n = []) /\
  (~ removed headers drops same n ->
   hm_get_all (sanitize_headers_for_redirect headers drops same) n = hm_get_all headers n).
Proof.
  pose (m1 := hm_remove (remove_hop_by_hop_redirect_headers headers) (header_name "host")).
  pose (m2 := if drops then hm_remove_all body_headers m1 else m1).
  assert (hm_get_all m2 n = if decide (n ∈ connection_scoped_headers headers \/ n ∈ hop_by_hop_headers \/
    n = header_name "host" \/ drops = true /\ n ∈ body_headers) then [] else hm_get_all headers n) as Hm2.
  { unfold m2, m1, remove_hop_by_hop_redirect_headers.
    destruct drops; rewrite ?hm_get_all_remove_all, hm_get_all_remove, !hm_get_all_remove_all;
      repeat case_decide; naive_solver. }
  unfold sanitize_headers_for_redirect, removed. fold m1. fold m2. rewrite hm_get_all_remove.
  destruct same; simpl.
  - rewrite Hm2. repeat case_decide; naive_solver.
  - rewrite hm_get_all_remove_all. unfold credential_headers.
    set (m3 := hm_remove _ (header_name "cookie")).
    assert (hm_get_all m3 n = if decide (n ∈ credential_headers) then [] else hm_get_all m2 n) as Hm3.
    { unfold m3, credential_headers. rewrite !hm_get_all_remove. cbn [fmap list_fmap].
      repeat case_decide; set_solver. }
    pose proof (sensitive_names m3 n) as Hs. fold credential_headers.
    rewrite Hm3, Hm2 in *. repeat case_decide; naive_solver.
Qed.

End Removed.

Section Location.
Context `{Http} `{UrlCrate}.

Lemma resolve_redirect_no_userinfo current location uri :
  resolve_redirect_uri current location = Some uri -> uri_has_userinfo uri = false.
Proof.
  assert (resolve_relative_location current location = Some uri -> uri_has_userinfo uri = false) as Hrel.
  { unfold resolve_relative_location. case_match; [done|].
    destruct (url_parse _) as [base|]; simpl; [|done]. destruct (url_join base location) as [joined|]; simpl; [|done].
    do 2 (case_match; [done|]). destruct (uri_parse (url_as_str joined)) as [u|]; simpl; [|done].
    destruct (uri_has_userinfo u) eqn:Hu; [done|]. by intros [= <-]. }
  unfold resolve_redirect_uri. repeat case_match; try done; try by apply Hrel.
  intros [= <-]. zbool. done.
Qed.

End Location.

(** ** Properties *)
Section Properties.
Context `{HttpLaws} `{UrlCrate}.

(** A cross-origin redirect carries no credential. *)
Lemma cross_origin_redirect_carries_no_credentials headers drops n v :
  v ∈ hm_get_all (sanitize_headers_for_redirect headers drops false) n ->
  is_sensitive v = false /\
  (n ∉ header_name <$> ["authorization"; "cookie"; "proxy-authorization"; "host"]%string) /\
  v ∈ hm_get_all headers n.
Proof.
  intros Hv. destruct (sanitize_get_all headers drops false n) as [Hr Hk].
  assert (~ removed headers drops false n) as Hn.
  { intros Hrem. rewrite (Hr Hrem) in Hv. by apply not_elem_of_nil in Hv. }
  rewrite (Hk Hn) in Hv. split; [|split; [|done]].
  - apply not_true_iff_false. intros Hs. apply Hn. unfold removed. naive_solver.
  - intros Hin. apply Hn. unfold removed, credential_headers. set_solver.
Qed.

(** A same-origin redirect that keeps the body passes on every end-to-end header
    unchanged: all values of any name that is not hop-by-hop, not listed in
    Connection, not host and not proxy-authorization. *)
Lemma same_origin_redirect_keeps_end_to_end_headers headers n :
  n ∉ connection_scoped_headers headers -> n ∉ hop_by_hop_headers ->
  n <> header_name "host" -> n <> header_name "proxy-authorization" ->
  hm_get_all (sanitize_headers_for_redirect headers false true) n = hm_get_all headers n.
Proof.
  intros. apply sanitize_get_all. unfold removed. naive_solver.
Qed.

(** The method rewrite and the decision to drop the body agree: a redirect that
    keeps the body keeps the method, and one that drops it continues as GET, or as
    HEAD for a HEAD request. *)
Lemma redirect_method_matches_body_drop method status :
  (redirect_drops_body method status = false -> redirect_method method status = method) /\
  (redirect_drops_body method status = true ->
   redirect_method method status = GET \/ (method = HEAD /\ redirect_method method status = HEAD)).
Proof.
  unfold redirect_drops_body, redirect_method.
  destruct (bool_decide (status = SEE_OTHER)), (bool_decide (status = MOVED_PERMANENTLY)),
    (bool_decide (status = FOUND)), (bool_decide (method = POST)); simpl; try naive_solver.
  all: destruct (bool_decide (method = HEAD)) eqn:Hh; simpl; try naive_solver.
  all: apply bool_decide_eq_true in Hh; naive_solver.
Qed.

(** Two URIs of the same origin have the same rate-limit bucket key, and they have
    one. *)
Lemma same_origin_shares_bucket l r :
  same_origin l r = true ->
  rate_limit_bucket_key l = rate_limit_bucket_key r /\ is_Some (rate_limit_bucket_key l).
Proof.
  unfold same_origin, rate_limit_bucket_key. case_match; [done|].
  destruct (normalized_uri_host l) as [lh|], (normalized_uri_host r) as [rh|]; try done. simpl.
  case_match eqn:Hh; [done|]. apply negb_false_iff, bool_decide_eq_true in Hh. subst rh.
  intros ->%bool_decide_eq_true. split; [done|]. repeat case_match; eauto.
Qed.

End Properties.

(** ** Witnesses *)
Lemma same_origin_redirect_keeps_end_to_end_headers_witness :
  let v := {| RefHttp.text := lit "text/html"; RefHttp.sensitive := false |} in
  hm_get_all (sanitize_headers_for_redirect [(lit "accept", v); (lit "te", v)] false true) (lit "accept") = [v].
Proof.
  apply (@same_origin_redirect_keeps_end_to_end_headers ref_http ref_http_laws
    [(lit "accept", {| RefHttp.text := lit "text/html"; RefHttp.sensitive := false |});
     (lit "te", {| RefHttp.text := lit "text/html"; RefHttp.sensitive := false |})] (lit "accept")).
  - vm_compute. apply not_elem_of_nil.
  - refine (bool_decide_eq_true_1 (lit "accept" ∉ @hop_by_hop_headers ref_http) _). vm_compute. reflexivity.
  - vm_compute. discriminate.
  - vm_compute. discriminate.
Defined.

Lemma same_origin_shares_bucket_witness :
  let l := {| RefHttp.scheme := Some (lit "HTTP"); RefHttp.authority := Some (lit "A.example.");
              RefHttp.host := Some (lit "A.example."); RefHttp.port := None; RefHttp.path := lit "/";
              RefHttp.whole := [] |} in
  let r := {| RefHttp.scheme := Some (lit "http"); RefHttp.authority := Some (lit "a.example:80");
              RefHttp.host := Some (lit "a.example"); RefHttp.port := Some 80; RefHttp.path := lit "/x";
              RefHttp.whole := [] |} in
  rate_limit_bucket_key l = rate_limit_bucket_key r.
Proof. intros l r. exact (proj1 (@same_origin_shares_bucket ref_http l r eq_refl)). Defined.
