(* ===== verification/Proxy.v ===== *)
(** * Proxy exclusions (core/proxy.rs)

    Parsing and matching of [no_proxy] rules.  The IP address parser of the standard
    library is the module [Ip]; IP networks are those of the ipnet crate, which with
    the port lookup of the url crate are the class [ProxyCrates]. *)
From Stdlib Require Import Ascii String.
From S2P Require Import Prelude Float64 Text HttpApi UriText Errors Redaction Redirect.

(** ** IP literals, as [core::net::parser] reads them *)
Module Ip.

Inductive IpAddr := V4 (bits : Z) | V6 (bits : Z).
#[global] Instance ip_eq_dec : EqDecision IpAddr.
Proof. solve_decision. Defined.

Definition parser (A : Type) : Type := str -> option (A * str).

Definition to_digit (radix c : Z) : option Z :=
  let d := if is_ascii_digit c then c - 48
           else if (97 <=? c) && (c <=? 122) then c - 87
           else if (65 <=? c) && (c <=? 90) then c - 55 else radix in
  if d <? radix then Some d else None.

Fixpoint read_digits (radix max_digits top acc count : Z) (s : str) : option (Z * Z * str) :=
  match s with
  | [] => Some (acc, count, s)
  | c :: s' =>
    match to_digit radix c with
    | None => Some (acc, count, s)
    | Some d =>
      let acc := acc * radix + d in
      if (top <? acc) || (max_digits <? count + 1) then None
      else read_digits radix max_digits top acc (count + 1) s'
    end
  end.

Definition read_number (radix max_digits top : Z) (allow_zero_prefix : bool) : parser Z := fun s =>
  let has_leading_zero := match s with c :: _ => c =? 48 | [] => false end in
  match read_digits radix max_digits top 0 0 s with
  | None => None
  | Some (n, count, s) =>
    if (count =? 0) || (negb allow_zero_prefix && has_leading_zero && (1 <? count)) then None
    else Some (n, s)
  end.

Definition read_given_char (c : Z) : parser unit := fun s =>
  match s with d :: s => if d =? c then Some (tt, s) else None | [] => None end.

Definition read_separator {A} (sep : Z) (index : nat) (inner : parser A) : parser A := fun s =>
  match index with
  | O => inner s
  | S _ => match read_given_char sep s with Some (_, s) => inner s | None => None end
  end.

(** [read_ipv4_addr]: four octets without leading zeros. *)
Fixpoint read_octets (todo i : nat) (acc : Z) (s : str) : option (Z * str) :=
  match todo with
  | O => Some (acc, s)
  | S todo =>
    match read_separator (chr "."%char) i (read_number 10 3 255 false) s with
    | None => None
    | Some (octet, s) => read_octets todo (S i) (acc * 256 + octet) s
    end
  end.

Definition read_ipv4_addr : parser Z := read_octets 4 0 0.

(** [read_groups]: up to [limit] groups, the last two possibly as an IPv4 address;
    the groups, whether they end in an IPv4 address, and the rest. *)
Fixpoint read_groups (todo i limit : nat) (s : str) : list Z * bool * str :=
  match todo with
  | O => ([], false, s)
  | S todo =>
    match (if (S i <? limit)%nat then read_separator (chr ":"%char) i read_ipv4_addr s else None) with
    | Some (v4, s) => ([v4 / 65536; v4 mod 65536], true, s)
    | None =>
      match read_separator (chr ":"%char) i (read_number 16 4 65535 true) s with
      | Some (group, s) => let '(groups, v4, s) := read_groups todo (S i) limit s in (group :: groups, v4, s)
      | None => ([], false, s)
      end
    end
  end.

Definition from_groups (groups : list Z) : Z := foldl (fun acc g => acc * 65536 + g) 0 groups.

Definition read_ipv6_addr : parser Z := fun s =>
  let '(head, head_ipv4, s) := read_groups 8 0 8 s in
  if (length head =? 8)%nat then Some (from_groups head, s)
  else if head_ipv4 then None
  else match read_given_char (chr ":"%char) s with
  | None => None
  | Some (_, s) =>
    match read_given_char (chr ":"%char) s with
    | None => None
    | Some (_, s) =>
      let limit := (8 - (length head + 1))%nat in
      let '(tail, _, s) := read_groups limit 0 limit s in
      Some (from_groups (head ++ replicate (8 - (length head + length tail)) 0 ++ tail), s)
    end
  end.

(** [parse_with]: the whole input. *)
Definition parse_with {A} (inner : parser A) (s : str) : option A :=
  match inner s with Some (a, []) => Some a | _ => None end.

Definition read_ip_addr : parser IpAddr := fun s =>
  match read_ipv4_addr s with
  | Some (bits, s) => Some (V4 bits, s)
  | None => match read_ipv6_addr s with Some (bits, s) => Some (V6 bits, s) | None => None end
  end.

Definition parse_ip_addr : str -> option IpAddr := parse_with read_ip_addr.
Definition parse_ipv6_addr (s : str) : option IpAddr := V6 <$> parse_with read_ipv6_addr s.

End Ip.

(** ** The crates *)
Class ProxyCrates `{UrlCrate} := {
  IpNet : Type;
  ipnet_parse : str -> option IpNet;
  ipnet_trunc : IpNet -> IpNet;
  ipnet_contains : IpNet -> Ip.IpAddr -> bool;
  url_port_or_known_default : Url -> option Z;
}.

Section Proxy.
Context `{Http} `{UrlCrate} `{!ProxyCrates}.

Record ProxyConfigOf (Rule : Type) := {
  proxy_uri : Uri;
  authorization : option HeaderValue;
  no_proxy_rules : list Rule;
}.

Inductive NoProxyRule :=
| Any
| Cidr (network : IpNet)
| Domain (host : str) (port : option Z).

Definition ProxyConfig : Type := ProxyConfigOf NoProxyRule.

(** [strip_prefix('[')] then [strip_suffix(']')]. *)
Definition unbracket (host : str) : option str :=
  strip_prefix (lit "[") host ≫= strip_suffix (lit "]").

Definition normalize_no_proxy_host (host : str) : option str :=
  normalized ← normalize_host_key host;
  match unbracket normalized with
  | Some unbracketed =>
    if is_some (Ip.parse_ip_addr unbracketed) then Some unbracketed else Some normalized
  | None => Some normalized
  end.

Definition parse_ip_literal (host : str) : option Ip.IpAddr :=
  match unbracket host with
  | Some inner => Ip.parse_ipv6_addr inner
  | None => Ip.parse_ip_addr host
  end.

Definition forbidden_in_rule (c : Z) : bool :=
  existsb (Z.eqb c) (lit "/?#@\*").

Definition plain_no_proxy_host_is_valid (host : str) : bool :=
  if negb (nonempty host) || existsb forbidden_in_rule host || existsb is_whitespace host then false
  else if contains_char (chr ":"%char) host then is_some (Ip.parse_ip_addr host)
  else true.

Definition host_matches_no_proxy_rule (host rule_host : str) : bool :=
  let host_ip := parse_ip_literal host in
  let rule_ip := parse_ip_literal rule_host in
  if is_some host_ip || is_some rule_ip then is_some host_ip && bool_decide (host_ip = rule_ip)
  else
    bool_decide (host = rule_host)
    || match strip_suffix rule_host host with
       | Some prefix => ends_with (lit ".") prefix
       | None => false
       end.

(** [str::contains] of a text. *)
Fixpoint contains_text (p s : str) : bool :=
  starts_with p s || match s with [] => false | _ :: s' => contains_text p s' end.

Definition looks_like_url_rule (value : str) : bool :=
  contains_text (lit "://") value || has_prefix_ignore_case (lit "http:") value
  || has_prefix_ignore_case (lit "https:") value.

(** The host after a leading wildcard label or leading dots. *)
Definition strip_wildcard (host : str) : str :=
  match strip_prefix (lit "*.") host with
  | Some host => host
  | None => trim_start_matches (chr "."%char) host
  end.

Definition parse_url_rule (candidate : str) (url : Url) (host : str) : option NoProxyRule :=
  if negb (is_http_scheme (url_scheme url)) || negb (is_valid_absolute_http_uri_text candidate) then None
  else if nonempty (url_username url) || is_some (url_password url) || is_some (url_query url)
          || is_some (url_fragment url) || negb (bool_decide (url_path url = lit "/")) then None
  else
    host ← normalize_no_proxy_host (strip_wildcard host);
    if plain_no_proxy_host_is_valid host then Some (Domain host (url_port_or_known_default url))
    else None.

(** The host and the port of a rule that is neither a URL nor a network. *)
Definition split_rule_port (candidate : str) : option (str * option Z) :=
  match strip_prefix (lit "[") candidate with
  | Some stripped =>
    '(host, suffix) ← split_once (chr "]"%char) stripped;
    if negb (is_some (Ip.parse_ip_addr host)) then None
    else match suffix with
    | [] => Some (host, None)
    | _ =>
      raw_port ← strip_prefix (lit ":") suffix;
      port ← parse_uint u16_max raw_port;
      Some (host, Some port)
    end
  | None =>
    if (length (List.filter (Z.eqb (chr ":"%char)) candidate) =? 1)%nat then
      '(host, raw_port) ← rsplit_once (chr ":"%char) candidate;
      if negb (nonempty host) then None
      else port ← parse_uint u16_max raw_port; Some (host, Some port)
    else Some (candidate, None)
  end.

Definition parse_host_rule (candidate : str) : option NoProxyRule :=
  let candidate := strip_wildcard candidate in
  if negb (nonempty candidate) then None
  else
    '(candidate, port) ← split_rule_port candidate;
    if negb (plain_no_proxy_host_is_valid candidate) then None
    else host ← normalize_no_proxy_host candidate; Some (Domain host port).

(** [NoProxyRule::parse]. *)
Definition parse_rule (text : str) : option NoProxyRule :=
  let candidate := trim text in
  if negb (nonempty candidate) then None
  else if bool_decide (candidate = lit "*") then Some Any
  else match url_parse candidate ≫= (fun url => host ← url_host_str url; Some (url, host)) with
  | Some (url, host) => parse_url_rule candidate url host
  | None =>
    if looks_like_url_rule candidate then None
    else if contains_char (chr "/"%char) candidate
    then (fun net => Cidr (ipnet_trunc net)) <$> ipnet_parse candidate
    else parse_host_rule candidate
  end.

(** [NoProxyRule::matches]. *)
Definition rule_matches (rule : NoProxyRule) (host : str) (port : option Z) : bool :=
  match rule with
  | Any => true
  | Cidr network =>
    match parse_ip_literal host with Some ip => ipnet_contains network ip | None => false end
  | Domain domain rule_port =>
    match normalize_no_proxy_host host with
    | None => false
    | Some host =>
      if negb (host_matches_no_proxy_rule host domain) then false
      else match rule_port with
      | Some rule_port => bool_decide (port = Some rule_port)
      | None => true
      end
    end
  end.

Definition redact_no_proxy_rule_for_logs (rule : str) : str :=
  redact_uri_without_url_normalization (trim rule).

Definition should_bypass_proxy_uri (rules : list NoProxyRule) (uri : Uri) : bool :=
  match uri_host uri with
  | None => false
  | Some host =>
    let port := match uri_port_u16 uri with Some p => Some p | None => default_port uri end in
    existsb (fun rule => rule_matches rule host port) rules
  end.

Definition parse_no_proxy_rule (rule : str) : result NoProxyRule Error.t :=
  match parse_rule rule with
  | Some rule => Ok rule
  | None => Err (Error.InvalidNoProxyRule (redact_no_proxy_rule_for_logs rule))
  end.

(** [collect] into a [Result]: the first error ends it. *)
Fixpoint parse_no_proxy_rules (rules : list str) : result (list NoProxyRule) Error.t :=
  match rules with
  | [] => Ok []
  | rule :: rules =>
    let? rule := parse_no_proxy_rule rule in
    let? rest := parse_no_proxy_rules rules in
    Ok (rule :: rest)
  end.

End Proxy.

(** ** Properties *)
Lemma strip_suffix_Some p s r : strip_suffix p s = Some r <-> s = r ++ p.
Proof.
  unfold strip_suffix. rewrite fmap_Some. setoid_rewrite strip_prefix_Some. split.
  - intros (x & Hs & ->). apply (f_equal reverse) in Hs. by rewrite reverse_app, !reverse_involutive in Hs.
  - intros ->. exists (reverse r). by rewrite reverse_app, reverse_involutive.
Qed.

Lemma ends_with_spec p s : ends_with p s = true <-> exists r, s = r ++ p.
Proof.
  unfold ends_with. destruct (strip_suffix p s) as [r|] eqn:Hs.
  - apply strip_suffix_Some in Hs. naive_solver.
  - split; [done|]. intros [r Hr]. apply strip_suffix_Some in Hr. congruence.
Qed.

Section Properties.
Context `{Http} `{UrlCrate} `{!ProxyCrates}.

(** A domain rule matches at label boundaries only: a host that is not an IP
    literal matches exactly when it is, after case and trailing-dot normalisation,
    the rule's domain or ends in a dot and that domain, on the rule's port if it has
    one; an IP literal never matches. *)
Lemma domain_rule_matches_labels domain rule_port host port :
  parse_ip_literal domain = None ->
  rule_matches (Domain domain rule_port) host port = true <->
  exists h, normalize_no_proxy_host host = Some h /\ parse_ip_literal h = None /\
    (h = domain \/ exists labels, h = labels ++ lit "." ++ domain) /\
    (forall p, rule_port = Some p -> port = Some p).
Proof.
  intros Hd. simpl. destruct (normalize_no_proxy_host host) as [h|]; [|naive_solver].
  transitivity (host_matches_no_proxy_rule h domain = true /\ (forall p, rule_port = Some p -> port = Some p)).
  { destruct (host_matches_no_proxy_rule h domain); simpl; [|naive_solver].
    destruct rule_port as [p|]; [case_bool_decide|]; naive_solver. }
  unfold host_matches_no_proxy_rule. rewrite Hd. destruct (parse_ip_literal h) as [ip|] eqn:Hip; simpl.
  { split; [by intros [? _]|]. intros (h0 & [= <-] & ? & _). congruence. }
  assert ((bool_decide (h = domain) || match strip_suffix domain h with
    | Some prefix => ends_with (lit ".") prefix | None => false end) = true <->
    (h = domain \/ exists labels, h = labels ++ lit "." ++ domain)) as Hm.
  { rewrite orb_true_iff, bool_decide_eq_true. f_equiv.
    destruct (strip_suffix domain h) as [prefix|] eqn:Hs.
    - apply strip_suffix_Some in Hs as ->. rewrite ends_with_spec. split.
      + intros [r ->]. exists r. by rewrite <- app_assoc.
      + intros [r Hr]. exists r. rewrite app_assoc in Hr. by apply app_inv_tail in Hr.
    - split; [done|]. intros [r Hr]. rewrite app_assoc in Hr. apply strip_suffix_Some in Hr. congruence. }
  rewrite Hm. naive_solver.
Qed.

End Properties.

(** ** Witness

    The rule [example.com:443] against [API.Example.com.] on port 443. *)
Module ProxyDemo.
Existing Instance ref_http.
Existing Instance ref_url.

#[export] Instance crates : ProxyCrates := {
  IpNet := unit; ipnet_parse _ := None; ipnet_trunc n := n; ipnet_contains _ _ := false;
  url_port_or_known_default _ := None;
}.

End ProxyDemo.
#[local] Existing Instance ProxyDemo.crates.

Lemma domain_rule_matches_labels_witness :
  rule_matches (Domain (lit "example.com") (Some 443)) (lit "API.Example.com.") (Some 443)
    = true.
Proof.
  apply domain_rule_matches_labels; [vm_compute; reflexivity|].
  exists (lit "api.example.com"). split; [vm_compute; reflexivity|]. split; [vm_compute; reflexivity|].
  split; [right; exists (lit "api"); vm_compute; reflexivity|]. intros p Hp. exact Hp.
Defined.
