(* ===== verification/Dns.v ===== *)
(** * DNS overrides (core/dns.rs, blocking_client/dns.rs)

    The table of names with fixed addresses, and the resolver of the blocking client that
    answers from it.  [url::Host::parse] is the class
    [HostCrate]; socket addresses are any type with decidable equality. *)
From Stdlib Require Import Ascii String.
From S2P Require Import Prelude Float64 Text HttpApi UriText Errors.

Module Dns.

Definition MAX_ADDRESSES : Z := 16.

(** ** [url::Host] *)
Inductive Host := HostDomain (ascii : str) | HostIpv4 | HostIpv6.

Class HostCrate := { host_parse : str -> option Host }.

Section Dns.
Context `{Http} `{HostCrate} {SocketAddr : Type} `{!EqDecision SocketAddr}.

Record DnsOverridesBuilder := { entries : gmap str (list SocketAddr) }.

Definition default : DnsOverridesBuilder := {| entries := ∅ |}.

Definition valid_label (label : str) : bool :=
  nonempty label && (str_len label <=? 63) && negb (starts_with (lit "-") label)
  && negb (ends_with (lit "-") label)
  && forallb (fun byte => is_ascii_alphanumeric byte || (byte =? chr "-"%char)) label.

Definition normalize_domain (domain : str) : option str :=
  if negb (nonempty domain) || existsb is_whitespace domain
     || existsb (fun c => existsb (Z.eqb c) (lit "/:?#@\%*[]")) domain
  then None
  else match host_parse domain with
  | Some (HostDomain ascii) =>
    let normalized :=
      to_ascii_lowercase (match strip_suffix (lit ".") ascii with Some a => a | None => ascii end) in
    if negb (nonempty normalized) || (253 <? str_len normalized) then None
    else if forallb valid_label (split_with (Z.eqb (chr "."%char)) normalized) then Some normalized
    else None
  | _ => None
  end.

(** The loop that keeps the first of each address. *)
Definition push_unique (unique : list SocketAddr) (address : SocketAddr) : list SocketAddr :=
  if bool_decide (address ∈ unique) then unique else unique ++ [address].

Definition insert (b : DnsOverridesBuilder) (domain : str) (addresses : list SocketAddr)
    : result DnsOverridesBuilder Error.t :=
  match normalize_domain domain with
  | None =>
    Err (Error.InvalidDnsOverrideConfig
           "override key must be a valid DNS hostname, not a URL or IP literal")
  | Some domain =>
    if negb (nonempty addresses) || (MAX_ADDRESSES <? Z.of_nat (length addresses))
    then Err (Error.InvalidDnsOverrideConfig
                "each DNS override must contain between 1 and 16 addresses")
    else Ok {| entries := <[domain := fold_left push_unique addresses []]> (entries b) |}
  end.

Record DnsOverrides := { overrides : gmap str (list SocketAddr) }.

Definition build (b : DnsOverridesBuilder) (has_proxy : bool) : result DnsOverrides Error.t :=
  if has_proxy && negb (bool_decide (entries b = ∅))
  then Err (Error.InvalidDnsOverrideConfig
              "DNS overrides cannot be combined with http_proxy, even with no_proxy rules")
  else Ok {| overrides := entries b |}.

Definition lookup (o : DnsOverrides) (domain : str) : option (list SocketAddr) :=
  normalize_domain domain ≫= (fun d => overrides o !! d).

(** ** Lemmas *)
Lemma push_unique_fold l acc :
  NoDup acc ->
  NoDup (fold_left push_unique l acc) /\
  (length (fold_left push_unique l acc) <= length acc + length l)%nat /\
  forall a, a ∈ fold_left push_unique l acc <-> a ∈ acc \/ a ∈ l.
Proof.
  revert acc. induction l as [|x l IH]; intros acc Hacc; simpl; [set_solver by lia|].
  unfold push_unique at 2 4 6. case_bool_decide as Hx.
  - destruct (IH acc Hacc) as (? & ? & Hin). split; [done|]. split; [lia|]. intros a. rewrite Hin. set_solver.
  - destruct (IH (acc ++ [x])) as (? & Hlen & Hin).
    { apply NoDup_app. split; [done|]. split; [set_solver|apply NoDup_singleton]. }
    rewrite length_app in Hlen. simpl in Hlen. split; [done|]. split; [lia|].
    intros a. rewrite Hin. set_solver.
Qed.

(** What every entry of a table satisfies. *)
Definition entry_ok (addresses : list SocketAddr) : Prop :=
  addresses <> [] /\ NoDup addresses /\ Z.of_nat (length addresses) <= MAX_ADDRESSES.

Definition table_ok (b : DnsOverridesBuilder) : Prop := map_Forall (fun _ => entry_ok) (entries b).

(** An override that was accepted answers every spelling of its name with its
    addresses, each once and in the order they were first given, and leaves the
    other names as they were; the table keeps between one and [MAX_ADDRESSES]
    addresses per name. *)
Theorem dns_insert_lookup b domain addresses b' o :
  table_ok b -> insert b domain addresses = Ok b' -> build b' false = Ok o ->
  table_ok b' /\
  (forall name, normalize_domain name = normalize_domain domain ->
     lookup o name = Some (fold_left push_unique addresses [])) /\
  (forall a, a ∈ fold_left push_unique addresses [] <-> a ∈ addresses) /\
  (forall name, normalize_domain name <> normalize_domain domain ->
     lookup o name = lookup {| overrides := entries b |} name).
Proof.
  intros Hb. unfold insert. destruct (normalize_domain domain) as [d|] eqn:Hd; [|done].
  destruct (_ || _) eqn:Hn; [done|]. zbool. intros [= <-] [= <-].
  destruct (push_unique_fold addresses [] (NoDup_nil_2)) as (Hnd & Hlen & Hin). split_and!.
  - apply map_Forall_insert_2; [|done]. split; [|split; [done|simpl in Hlen; lia]].
    intros He. destruct addresses as [|a addresses]; [done|]. specialize (Hin a). rewrite He in Hin. set_solver.
  - intros name Hname. unfold lookup. rewrite Hname. simpl. by rewrite lookup_insert_eq.
  - intros a. rewrite Hin. set_solver.
  - intros name Hname. unfold lookup. destruct (normalize_domain name) as [n|]; [|done]. simpl.
    rewrite lookup_insert_ne; [done|]. congruence.
Qed.

End Dns.

(** ** The resolver of the blocking client

    A socket address is a port and everything else of it ([ip] holds the scope and flow
    label of an IPv6 address too). *)
Section Resolver.
Context `{Http} `{HostCrate} {Ip UreqError : Type} `{!EqDecision Ip}.

Record Address := { ip : Ip; port : Z }.
#[export] Instance Address_eq_dec : EqDecision Address.
Proof. solve_decision. Defined.

Definition set_port (p : Z) (a : Address) : Address := {| ip := ip a; port := p |}.

Definition with_port (uri : Uri) (a : Address) : Address :=
  match uri_port_u16 uri with
  | Some p => set_port p a
  | None =>
    if port a =? 0
    then set_port (if bool_decide (uri_scheme_str uri = Some (lit "https")) then 443 else 80) a
    else a
  end.

(** [ResolvedSocketAddrs::push] of ureq, an array of [MAX_ADDRESSES] places; [None] is its
    panic when the array is full. *)
Definition push (resolved : list Address) (a : Address) : option (list Address) :=
  if Z.of_nat (length resolved) <? MAX_ADDRESSES then Some (resolved ++ [a]) else None.

Fixpoint push_all (uri : Uri) (resolved addresses : list Address) : option (list Address) :=
  match addresses with
  | [] => Some resolved
  | a :: addresses => resolved ← push resolved (with_port uri a); push_all uri resolved addresses
  end.

(** [fallback] is the resolver of ureq. *)
Definition resolve (o : DnsOverrides (SocketAddr := Address)) (fallback : Uri -> result (list Address) UreqError)
    (uri : Uri) : option (result (list Address) UreqError) :=
  match uri_host uri ≫= lookup o with
  | Some addresses => Ok <$> push_all uri [] addresses
  | None => Some (fallback uri)
  end.

Lemma push_all_fits uri resolved addresses :
  Z.of_nat (length resolved) + Z.of_nat (length addresses) <= MAX_ADDRESSES ->
  push_all uri resolved addresses = Some (resolved ++ (with_port uri <$> addresses)).
Proof.
  revert resolved. induction addresses as [|a addresses IH]; intros resolved Hl; cbn [push_all length] in *; [by rewrite app_nil_r|].
  unfold push. rewrite (proj2 (Z.ltb_lt _ _)) by lia. cbn [mbind option_bind].
  rewrite IH by (rewrite length_app; cbn [length]; lia). by rewrite <- app_assoc.
Qed.

(** A table that was built never overflows the array of ureq; a name in it resolves to its
    addresses in order, with the port of the URI or, where both have none, the port of the
    scheme; every other name goes to the resolver of ureq. *)
Lemma resolve_answers b has_proxy o fallback uri :
  table_ok b -> build b has_proxy = Ok o ->
  resolve o fallback uri =
  Some (match uri_host uri ≫= lookup o with
        | Some addresses => Ok (with_port uri <$> addresses)
        | None => fallback uri
        end).
Proof.
  intros Hb. unfold build. case_match; [done|]. intros [= <-]. unfold resolve.
  destruct (uri_host uri ≫= lookup _) as [addresses|] eqn:Hl; [|done].
  apply bind_Some in Hl as (host & _ & Hl). apply bind_Some in Hl as (d & _ & Hd).
  apply Hb in Hd as (_ & _ & Hlen). by rewrite push_all_fits by (cbn [length]; lia).
Qed.

End Resolver.
End Dns.

(** ** Witness *)
Module DnsDemo.

#[export] Instance plain_hosts : Dns.HostCrate := { Dns.host_parse s := Some (Dns.HostDomain s) }.

Definition table : Dns.DnsOverridesBuilder := {| Dns.entries := {[ lit "example.com" := [2; 3] ]} |}.

End DnsDemo.
#[local] Existing Instance DnsDemo.plain_hosts.
#[local] Existing Instance ref_http.

Lemma dns_insert_lookup_witness :
  exists o, Dns.build DnsDemo.table false = Ok o /\
    Dns.lookup o (lit "EXAMPLE.com.") = Some [2; 3] /\ Dns.table_ok DnsDemo.table.
Proof.
  destruct (Dns.dns_insert_lookup Dns.default (lit "Example.com") [2; 3; 2] DnsDemo.table
    {| Dns.overrides := Dns.entries DnsDemo.table |}) as (Hok & Hl & _);
    [apply map_Forall_empty|vm_compute; reflexivity|reflexivity|].
  eexists. split; [reflexivity|]. split; [|exact Hok].
  rewrite (Hl (lit "EXAMPLE.com.")) by (vm_compute; reflexivity). reflexivity.
Defined.
