(* ===== verification/Headers.v ===== *)
(** * Request headers and error excerpts (core/util/headers.rs)

    Merging, content negotiation, sensitive marking, framing validation, and the
    truncated body excerpt of status errors, with the lossy UTF-8 decoding of the
    standard library.  The theorems characterise the accepted framings and show
    that the excerpt, computed from a bounded prefix, is the excerpt of the whole
    body. *)
From Stdlib Require Import Ascii String.
From S2P Require Import Prelude Text HttpApi UriText Errors.

(** The Cargo features that enable codecs. *)
Record Features := { compression_gzip : bool; compression_brotli : bool; compression_zstd : bool }.

Section Headers.
Context `{Http}.

Definition merge_headers (default_headers request_headers : HeaderMap) : HeaderMap :=
  hm_extend default_headers request_headers.

Definition enabled_accept_encoding (f : Features) : option string :=
  match compression_gzip f, compression_brotli f, compression_zstd f with
  | true, true, true => Some "gzip, br, deflate, zstd"
  | true, true, false => Some "gzip, br, deflate"
  | true, false, true => Some "gzip, deflate, zstd"
  | true, false, false => Some "gzip, deflate"
  | false, true, true => Some "br, zstd"
  | false, true, false => Some "br"
  | false, false, true => Some "zstd"
  | false, false, false => None
  end%string.

Definition ensure_accept_encoding (f : Features) (method : Method) (headers : HeaderMap) : HeaderMap :=
  if bool_decide (method = HEAD) || hm_contains_key headers (header_name "accept-encoding")
     || hm_contains_key headers (header_name "range")
  then headers
  else match enabled_accept_encoding f with
  | Some value =>
    match header_value_from_str (lit value) with
    | Some v => hm_insert headers (header_name "accept-encoding") v
    | None => headers
    end
  | None => headers
  end.

Definition is_sensitive_header_name (name : HeaderName) : bool :=
  bool_decide (name = header_name "authorization") || bool_decide (name = header_name "cookie")
  || bool_decide (name = header_name "proxy-authorization")
  || bool_decide (name = header_name "set-cookie").

Definition mark_sensitive_header_value (name : HeaderName) (value : HeaderValue) : HeaderValue :=
  if is_sensitive_header_name name then set_sensitive value else value.

Definition mark_sensitive_headers (headers : HeaderMap) : HeaderMap :=
  hm_iter_mut mark_sensitive_header_value headers.

Definition is_sensitive_header_name_text (name : str) : bool :=
  match header_name_from_bytes name with Some n => is_sensitive_header_name n | None => false end.

(** [source] is the parse error of the [http] crate. *)
Definition parse_header_name (source : BoxError) (name : str) : result HeaderName Error.t :=
  match header_name_from_bytes name with
  | Some n => Ok n
  | None => Err (Error.InvalidHeaderName name source)
  end.

Definition parse_header_value (source : BoxError) (name value : str) : result HeaderValue Error.t :=
  match header_value_from_str value with
  | None => Err (Error.InvalidHeaderValue name source)
  | Some v => Ok (if is_sensitive_header_name_text name then set_sensitive v else v)
  end.

Definition validate_request_framing_headers (headers : HeaderMap) (expected_body_len : option Z)
    (method : Method) (redacted_uri : str) : result unit Error.t :=
  let invalid message := Err (Error.InvalidRequestFraming method redacted_uri message) in
  let CONTENT_LENGTH := header_name "content-length" in
  let TRANSFER_ENCODING := header_name "transfer-encoding" in
  if hm_contains_key headers CONTENT_LENGTH && hm_contains_key headers TRANSFER_ENCODING
  then invalid "content-length and transfer-encoding cannot be combined"
  else if hm_contains_key headers TRANSFER_ENCODING
  then invalid "transfer-encoding is managed by the transport"
  else match hm_get_all headers CONTENT_LENGTH with
  | [] => Ok tt
  | _ :: _ :: _ => invalid "content-length must contain exactly one value"
  | [content_length] =>
    let content_length :=
      text ← to_str content_length;
      if nonempty text && all_digits text then parse_uint u64_max text else None in
    match content_length with
    | None => invalid "content-length must be an unsigned decimal integer within the u64 range"
    | Some content_length =>
      if match expected_body_len with Some expected => negb (content_length =? expected) | None => false end
      then invalid "content-length does not match the buffered request body"
      else Ok tt
    end
  end.

End Headers.

(** ** Lossy UTF-8 ([String::from_utf8_lossy])

    One character from the front of a byte sequence and the bytes it takes: an
    ill-formed sequence becomes U+FFFD for its longest valid beginning. *)
Definition REPLACEMENT : Z := 65533.

Definition in_range (lo hi b : Z) : bool := (lo <=? b) && (b <=? hi).
Definition is_cont (b : Z) : bool := in_range 128 191 b.

(** Bounds of the second byte after the lead [b0], for three and four byte forms. *)
Definition second_lo (b0 : Z) : Z := if b0 =? 224 then 160 else if b0 =? 240 then 144 else 128.
Definition second_hi (b0 : Z) : Z := if b0 =? 237 then 159 else if b0 =? 244 then 143 else 191.

Definition decode_char (bs : list Z) : Z * nat :=
  match bs with
  | [] => (REPLACEMENT, 1%nat)
  | b0 :: rest =>
    if b0 <? 128 then (b0, 1%nat)
    else if in_range 194 223 b0 then
      match rest with
      | b1 :: _ => if is_cont b1 then ((b0 - 192) * 64 + (b1 - 128), 2%nat) else (REPLACEMENT, 1%nat)
      | [] => (REPLACEMENT, 1%nat)
      end
    else if in_range 224 239 b0 then
      match rest with
      | b1 :: rest =>
        if in_range (second_lo b0) (second_hi b0) b1 then
          match rest with
          | b2 :: _ =>
            if is_cont b2 then ((b0 - 224) * 4096 + (b1 - 128) * 64 + (b2 - 128), 3%nat)
            else (REPLACEMENT, 2%nat)
          | [] => (REPLACEMENT, 2%nat)
          end
        else (REPLACEMENT, 1%nat)
      | [] => (REPLACEMENT, 1%nat)
      end
    else if in_range 240 244 b0 then
      match rest with
      | b1 :: rest =>
        if in_range (second_lo b0) (second_hi b0) b1 then
          match rest with
          | b2 :: rest =>
            if is_cont b2 then
              match rest with
              | b3 :: _ =>
                if is_cont b3
                then ((b0 - 240) * 262144 + (b1 - 128) * 4096 + (b2 - 128) * 64 + (b3 - 128), 4%nat)
                else (REPLACEMENT, 3%nat)
              | [] => (REPLACEMENT, 3%nat)
              end
            else (REPLACEMENT, 2%nat)
          | [] => (REPLACEMENT, 2%nat)
          end
        else (REPLACEMENT, 1%nat)
      | [] => (REPLACEMENT, 1%nat)
      end
    else (REPLACEMENT, 1%nat)
  end.

(** The first [n] characters. *)
Fixpoint decode_chars (n : nat) (bs : list Z) : str :=
  match n, bs with
  | O, _ | _, [] => []
  | S n, _ => let '(c, k) := decode_char bs in c :: decode_chars n (skipn k bs)
  end.

Definition from_utf8_lossy (bs : list Z) : str := decode_chars (length bs) bs.

Definition MAX_ERROR_BODY_LEN : nat := 2048.

Definition truncate_body (body : list Z) : str :=
  let prefix := take ((MAX_ERROR_BODY_LEN + 1) * 4) body in
  let text := from_utf8_lossy prefix in
  if (MAX_ERROR_BODY_LEN <? length text)%nat
  then take MAX_ERROR_BODY_LEN text ++ lit "...(truncated)"
  else text.

(** ** Lemmas *)
Lemma decode_char_taken bs : bs <> [] -> (1 <= (decode_char bs).2 <= 4)%nat /\ ((decode_char bs).2 <= length bs)%nat.
Proof.
  destruct bs as [|b0 [|b1 [|b2 [|b3 rest]]]]; [done|..]; intros _; cbn [decode_char length];
    repeat (case_match; cbn [snd length] in *; try (split; lia)); simplify_eq; cbn [snd length]; lia.
Qed.

(** Decoding looks at four bytes at most. *)
Lemma decode_char_local bs n : decode_char (take (4 + n) bs) = decode_char bs.
Proof. destruct bs as [|b0 [|b1 [|b2 [|b3 rest]]]]; done. Qed.

Lemma decode_chars_cons n bs :
  bs <> [] -> decode_chars (S n) bs = (decode_char bs).1 :: decode_chars n (skipn (decode_char bs).2 bs).
Proof. destruct bs; [done|]. intros _. cbn [decode_chars]. by destruct (decode_char _). Qed.

Lemma decode_chars_prefix n m bs : (4 * n <= m)%nat -> decode_chars n (take m bs) = decode_chars n bs.
Proof.
  revert m bs. induction n as [|n IH]; intros m bs Hm; [done|].
  destruct bs as [|b bs]; [by rewrite take_nil|].
  replace m with (4 + (m - 4))%nat by lia.
  rewrite (decode_chars_cons n (b :: bs)), decode_chars_cons, decode_char_local by done. f_equal.
  destruct (decode_char_taken (b :: bs)) as [Hk _]; [done|].
  rewrite skipn_firstn_comm. apply IH. lia.
Qed.

Lemma decode_chars_take n m bs : (n <= m)%nat -> decode_chars n bs = take n (decode_chars m bs).
Proof.
  revert m bs. induction n as [|n IH]; intros m bs Hm; [done|].
  destruct m as [|m]; [lia|]. destruct bs as [|b bs]; [done|].
  rewrite !decode_chars_cons by done. simpl take. f_equal. apply IH. lia.
Qed.

Lemma decode_chars_enough n bs : (length bs <= n)%nat -> decode_chars n bs = from_utf8_lossy bs.
Proof.
  unfold from_utf8_lossy. remember (length bs) as len eqn:Hlen.
  revert n bs Hlen. induction len as [len IH] using lt_wf_ind. intros n bs Hlen Hn.
  destruct bs as [|b bs]; [by destruct n, len|]. destruct n as [|n]; [simpl in *; lia|].
  destruct len as [|len]; [done|].
  destruct (decode_char_taken (b :: bs)) as [Hk Hl]; [done|].
  rewrite !decode_chars_cons by done. f_equal.
  set (rest := skipn _ _). assert (length rest = (S len - (decode_char (b :: bs)).2)%nat) as Hr.
  { unfold rest. rewrite length_drop, <- Hlen. done. }
  rewrite (IH (length rest)) by lia. symmetry. apply (IH (length rest)); lia.
Qed.

Lemma from_utf8_lossy_take n bs : decode_chars n bs = take n (from_utf8_lossy bs).
Proof.
  destruct (Nat.le_gt_cases n (length bs)) as [|Hgt].
  - by apply decode_chars_take.
  - rewrite decode_chars_enough by lia. rewrite take_ge; [done|].
    rewrite <- (decode_chars_enough n) by lia. clear Hgt.
    revert bs. induction n as [|n IH]; intros bs; [done|]. destruct bs; [simpl; lia|].
    rewrite decode_chars_cons by done. cbn [length]. apply le_n_S, IH.
Qed.

Lemma from_utf8_lossy_length bs : (length bs <= 4 * length (from_utf8_lossy bs))%nat.
Proof.
  remember (length bs) as len eqn:Hlen. revert bs Hlen.
  induction len as [len IH] using lt_wf_ind. intros bs Hlen. destruct bs as [|b bs]; [simpl in *; lia|].
  destruct (decode_char_taken (b :: bs)) as [Hk Hl]; [done|].
  rewrite <- (decode_chars_enough (S (length (b :: bs)))) by lia. rewrite decode_chars_cons by done.
  set (rest := skipn _ _). assert (length rest = (len - (decode_char (b :: bs)).2)%nat) as Hr.
  { unfold rest. by rewrite length_drop, <- Hlen. }
  rewrite (decode_chars_enough _ rest) by lia. specialize (IH (length rest) ltac:(lia) rest eq_refl).
  cbn [length]. lia.
Qed.

(** ** Properties *)

(** The body excerpt of an error is the lossy UTF-8 decoding, cut to its first
    MAX_ERROR_BODY_LEN characters with a marker exactly when it is longer. *)
Lemma truncate_body_excerpt body :
  truncate_body body =
  if (MAX_ERROR_BODY_LEN <? length (from_utf8_lossy body))%nat
  then take MAX_ERROR_BODY_LEN (from_utf8_lossy body) ++ lit "...(truncated)"
  else from_utf8_lossy body.
Proof.
  unfold truncate_body. set (m := ((MAX_ERROR_BODY_LEN + 1) * 4)%nat). set (n := MAX_ERROR_BODY_LEN).
  assert (take (S n) (from_utf8_lossy (take m body)) = take (S n) (from_utf8_lossy body)) as Hpre.
  { rewrite <- !from_utf8_lossy_take. apply decode_chars_prefix. unfold m, n. lia. }
  assert (take n (from_utf8_lossy (take m body)) = take n (from_utf8_lossy body)) as Hpre'.
  { apply (f_equal (take n)) in Hpre. by rewrite !take_take, !Nat.min_l in Hpre by lia. }
  apply (f_equal length) in Hpre as Hlen. rewrite !length_take in Hlen.
  destruct (Nat.ltb_spec n (length (from_utf8_lossy (take m body)))),
    (Nat.ltb_spec n (length (from_utf8_lossy body))); try lia; [by rewrite Hpre'|].
  by rewrite (take_ge (from_utf8_lossy (take m body))), (take_ge (from_utf8_lossy body)) in Hpre by lia.
Qed.

(** A request's framing headers are accepted exactly when there is no transfer-
    encoding and either no content-length or a single all-digit one that fits u64
    and equals the body's length when it is known. *)
Lemma accepted_framing `{Http} headers expected method uri :
  validate_request_framing_headers headers expected method uri = Ok tt <->
  hm_get_all headers (header_name "transfer-encoding") = [] /\
  (hm_get_all headers (header_name "content-length") = [] \/
   exists value text n,
     hm_get_all headers (header_name "content-length") = [value] /\ to_str value = Some text /\
     text <> [] /\ all_digits text = true /\ parse_uint u64_max text = Some n /\
     (forall len, expected = Some len -> n = len)).
Proof.
  unfold validate_request_framing_headers, hm_contains_key.
  destruct (hm_get_all headers (header_name "transfer-encoding")) as [|te tes].
  2: { split; [|naive_solver]. by destruct (hm_get_all headers (header_name "content-length")). }
  rewrite andb_false_r.
  destruct (hm_get_all headers (header_name "content-length")) as [|v [|v' vs]]; [naive_solver| |naive_solver].
  destruct (to_str v) as [text|] eqn:Ht; simpl; [|naive_solver].
  destruct (nonempty text && all_digits text) eqn:Hd.
  - apply andb_true_iff in Hd as [Hne Hd]. assert (text <> []) by by destruct text.
    destruct (parse_uint u64_max text) as [n|] eqn:Hp; [|naive_solver].
    destruct expected as [len|]; [|naive_solver].
    destruct (Z.eqb_spec n len); simpl; naive_solver.
  - split; [done|]. intros [_ [?|(? & ? & ? & ? & ? & Hne & Had & _)]]; simplify_eq.
    rewrite Had in Hd. by destruct text.
Qed.
