(* ===== verification/ContentEncoding.v ===== *)
(** * Reading and decoding bodies (core/content_encoding.rs, core/util/io.rs, and the
    body readers of blocking_client/transport.rs)

    A [std::io::Read] is the sequence of results its [read] calls return, each within
    the buffer it was given; an empty read is the end of the stream, as is the end of
    the sequence.  The decompressors (flate2, brotli, zstd) are the class [Codecs]:
    each turns a body into such a reader. *)
From Stdlib Require Import Ascii String.
From S2P Require Import Prelude Text HttpApi Errors Headers.

(** ** Readers *)
Abbreviation reader := (list (result (list Z) BoxError)).

Definition io_error_kind (e : BoxError) : option IoErrorKind.t :=
  match e with Dyn (IoError kind) _ _ _ => Some kind | _ => None end.

Definition error_to_string (e : BoxError) : str := match e with Dyn _ display _ _ => display end.

Fixpoint read_retry_interrupted (r : reader) : result (list Z) BoxError * reader :=
  match r with
  | [] => (Ok [], [])
  | Ok bytes :: r => (Ok bytes, r)
  | Err error :: r =>
    if bool_decide (io_error_kind error = Some IoErrorKind.Interrupted)
    then read_retry_interrupted r
    else (Err error, r)
  end.

(** The loop both limited readers share: collect until an empty read, stop at an
    error or past the limit.  Every turn takes an element of the sequence, so its
    length bounds the turns. *)
Inductive limited_read := Collected (bytes : list Z) | TooLong (actual_bytes : Z) | Broken (e : BoxError).

Fixpoint read_limited (fuel : nat) (r : reader) (max_bytes : Z) (collected : list Z) : limited_read :=
  match read_retry_interrupted r with
  | (Err error, _) => Broken error
  | (Ok [], _) => Collected collected
  | (Ok chunk, r) =>
    let next_size := sat_add usize_max (Z.of_nat (length collected)) (Z.of_nat (length chunk)) in
    if max_bytes <? next_size then TooLong next_size
    else match fuel with
    | O => Collected collected
    | S fuel => read_limited fuel r max_bytes (collected ++ chunk)
    end
  end.

(** The blocking client's reader of a whole body. *)
Inductive ReadBodyError := Read (source : BoxError) | TooLarge (actual_bytes : Z).

Definition read_reader_limited (r : reader) (max_bytes : Z) : result (list Z) ReadBodyError :=
  match read_limited (length r) r max_bytes [] with
  | Collected bytes => Ok bytes
  | TooLong actual_bytes => Err (TooLarge actual_bytes)
  | Broken source => Err (Read source)
  end.

(** ** Decoding *)
Module DecodeContentEncodingError.
Inductive t :=
| Decode (encoding : str) (message : str)
| TooLarge (actual_bytes : Z).
End DecodeContentEncodingError.

Class Codecs := {
  multi_gz_decoder : list Z -> reader;
  zlib_decoder : list Z -> reader;
  deflate_decoder : list Z -> reader;
  brotli_decompressor : list Z -> reader;
  zstd_decoder : list Z -> result reader BoxError;
}.

Section Decoding.
Context `{Http} `{Codecs} (features : Features).

Definition into_error (e : DecodeContentEncodingError.t) (method : Method) (uri : str) (max_bytes : Z)
    : Error.t :=
  match e with
  | DecodeContentEncodingError.Decode encoding message =>
    Error.DecodeContentEncoding encoding method uri message
  | DecodeContentEncodingError.TooLarge actual_bytes =>
    Error.ResponseBodyTooLarge max_bytes actual_bytes method uri
  end.

Definition read_to_end_limited (r : reader) (encoding : str) (max_bytes : Z)
    : result (list Z) DecodeContentEncodingError.t :=
  match read_limited (length r) r max_bytes [] with
  | Collected bytes => Ok bytes
  | TooLong actual_bytes => Err (DecodeContentEncodingError.TooLarge actual_bytes)
  | Broken error => Err (DecodeContentEncodingError.Decode encoding (error_to_string error))
  end.

Definition decode_deflate_limited (body : list Z) (encoding : str) (max_bytes : Z)
    : result (list Z) DecodeContentEncodingError.t :=
  match read_to_end_limited (zlib_decoder body) encoding max_bytes with
  | Ok decoded => Ok decoded
  | Err (DecodeContentEncodingError.Decode _ _) =>
    read_to_end_limited (deflate_decoder body) encoding max_bytes
  | Err error => Err error
  end.

Definition should_decode_content_encoded_body (method : Method) (status : StatusCode) (body_len : Z) : bool :=
  if body_len =? 0 then false
  else if bool_decide (method = HEAD) then false
  else if is_informational status || bool_decide (status = NO_CONTENT) || bool_decide (status = NOT_MODIFIED)
  then false
  else true.

(** The [Content-Encoding] tokens of all header values, in the order they were
    applied. *)
Definition value_encodings (text : str) : list str :=
  List.filter (fun item => negb (bool_decide (item = []))) (trim <$> split_with (Z.eqb (chr ","%char)) text).

Fixpoint collect_encodings (values : list HeaderValue) : result (list str) DecodeContentEncodingError.t :=
  match values with
  | [] => Ok []
  | value :: values =>
    match to_str value with
    | None =>
      Err (DecodeContentEncodingError.Decode (lit "content-encoding")
             (lit "failed to convert header to a str"))
    | Some text => let? rest := collect_encodings values in Ok (value_encodings text ++ rest)
    end
  end.

(** One round of the decoding loop. *)
Definition decode_one (encoding : str) (body : list Z) (max_bytes : Z)
    : result (list Z) DecodeContentEncodingError.t :=
  let name := to_ascii_lowercase encoding in
  if bool_decide (name = lit "identity") then Ok body
  else if compression_gzip features && bool_decide (name = lit "gzip")
  then read_to_end_limited (multi_gz_decoder body) encoding max_bytes
  else if compression_gzip features && bool_decide (name = lit "deflate")
  then decode_deflate_limited body encoding max_bytes
  else if compression_brotli features && bool_decide (name = lit "br")
  then read_to_end_limited (brotli_decompressor body) encoding max_bytes
  else if compression_zstd features && bool_decide (name = lit "zstd")
  then match zstd_decoder body with
       | Err error => Err (DecodeContentEncodingError.Decode encoding (error_to_string error))
       | Ok r => read_to_end_limited r encoding max_bytes
       end
  else Err (DecodeContentEncodingError.Decode name (lit "unsupported content-encoding")).

(** [while let Some(encoding) = encodings.pop()]: the last applied comes first. *)
Fixpoint decode_all (popped : list str) (body : list Z) (max_bytes : Z)
    : result (list Z) DecodeContentEncodingError.t :=
  match popped with
  | [] => Ok body
  | encoding :: popped =>
    let? body := decode_one encoding body max_bytes in
    decode_all popped body max_bytes
  end.

Definition decode_content_encoded_body_limited (body : list Z) (headers : HeaderMap) (max_bytes : Z)
    : result (list Z) DecodeContentEncodingError.t :=
  if max_bytes <? Z.of_nat (length body)
  then Err (DecodeContentEncodingError.TooLarge (Z.of_nat (length body)))
  else
    let? encodings := collect_encodings (hm_get_all headers (header_name "content-encoding")) in
    match encodings with
    | [] => Ok body
    | _ => decode_all (reverse encodings) body max_bytes
    end.

(** ** Lemmas *)

(** A reader that yields the bytes [data]: non-empty reads and interruptions. *)
Inductive yields : reader -> list Z -> Prop :=
| yields_end : yields [] []
| yields_eof r : yields (Ok [] :: r) []
| yields_chunk chunk r data : chunk <> [] -> yields r data -> yields (Ok chunk :: r) (chunk ++ data)
| yields_interrupted e r data :
    io_error_kind e = Some IoErrorKind.Interrupted -> yields r data -> yields (Err e :: r) data.

Lemma read_retry_interrupted_length r :
  match read_retry_interrupted r with
  | (Ok [], _) => True
  | (_, r') => (length r' < length r)%nat
  end.
Proof.
  induction r as [|[bytes|e] r IH]; simpl; [done|by destruct bytes; simpl; lia|].
  case_bool_decide; [|simpl; lia]. destruct (read_retry_interrupted r) as [[[|b bytes]|e'] r']; simpl in *; lia || done.
Qed.

(** Whatever the reader does, no more than the limit is collected. *)
Lemma read_limited_bound fuel r max collected bytes :
  read_limited fuel r max collected = Collected bytes ->
  Z.of_nat (length collected) <= max < usize_max -> Z.of_nat (length bytes) <= max.
Proof.
  revert r collected. induction fuel as [|fuel IH]; intros r collected; simpl;
    destruct (read_retry_interrupted r) as [[[|b chunk]|e] r'] eqn:Hr; intros Hc Hl; simplify_eq; try lia.
  - case_match; [done|]. simplify_eq. lia.
  - case_match; [done|]. zbool. apply IH in Hc; [done|]. rewrite length_app.
    unfold sat_add in *. simpl in *. lia.
Qed.

(** A reader that yields its data is read to the end, when the data fits. *)
Lemma read_limited_yields fuel r max collected data :
  yields r data -> (length r <= fuel)%nat -> Z.of_nat (length (collected ++ data)) <= max <= usize_max ->
  read_limited fuel r max collected = Collected (collected ++ data).
Proof.
  intros Hy. revert fuel collected.
  induction Hy as [|r|chunk r data Hne _ IH|e r data Hint Hy IH]; intros fuel collected Hf Hmax.
  - rewrite app_nil_r. by destruct fuel.
  - rewrite app_nil_r. by destruct fuel.
  - simpl in Hf. destruct fuel as [|fuel]; [lia|]. destruct chunk as [|b chunk]; [done|]. simpl read_limited.
    rewrite !length_app in Hmax. simpl in Hmax. unfold sat_add. simpl.
    destruct (Z.ltb_spec max ((Z.of_nat (length collected) + Z.of_nat (S (length chunk))) `min` usize_max)); [lia|].
    rewrite IH; [by rewrite <- app_assoc|lia|]. rewrite !length_app. simpl. lia.
  - specialize (IH fuel collected ltac:(simpl in Hf; lia) Hmax). rewrite <- IH.
    assert (read_retry_interrupted (Err e :: r) = read_retry_interrupted r) as Heq
      by (simpl; by rewrite bool_decide_true).
    destruct fuel; simpl read_limited; simpl in Heq; by rewrite Heq.
Qed.

(** A decoding step or chain keeps within the limit. *)
Lemma read_to_end_bound r encoding max bytes :
  0 <= max < usize_max -> read_to_end_limited r encoding max = Ok bytes -> Z.of_nat (length bytes) <= max.
Proof.
  unfold read_to_end_limited. intros Hm. destruct (read_limited _ _ _ _) eqn:Hr; intros [= <-].
  eapply read_limited_bound; [done|]. simpl. lia.
Qed.

Lemma decode_one_bound encoding body max bytes :
  0 <= max < usize_max -> Z.of_nat (length body) <= max ->
  decode_one encoding body max = Ok bytes -> Z.of_nat (length bytes) <= max.
Proof.
  intros Hm Hb. unfold decode_one, decode_deflate_limited.
  repeat case_match; intros; simplify_eq; eauto using read_to_end_bound.
Qed.

Lemma decode_all_bound popped body max bytes :
  0 <= max < usize_max -> Z.of_nat (length body) <= max ->
  decode_all popped body max = Ok bytes -> Z.of_nat (length bytes) <= max.
Proof.
  intros Hm. revert body. induction popped as [|e popped IH]; intros body Hb; simpl; [by intros [= <-]|].
  intros (b & Hd & Hr)%result_bind_Ok_inv. apply (IH b); [|done]. by eapply decode_one_bound.
Qed.

(** ** Encoders

    What a compressor of the other side does, per token: its decoder yields the bytes
    back. A raw deflate body is one the zlib decoder rejects. *)
Definition decodes_to (max_bytes : Z) (encoding : str) (encoded data : list Z) : Prop :=
  let name := to_ascii_lowercase encoding in
  (name = lit "identity" /\ encoded = data) \/
  (name = lit "gzip" /\ compression_gzip features = true /\ yields (multi_gz_decoder encoded) data) \/
  (name = lit "deflate" /\ compression_gzip features = true /\
     (yields (zlib_decoder encoded) data \/
      (exists e, read_limited (length (zlib_decoder encoded)) (zlib_decoder encoded) max_bytes [] = Broken e) /\
      yields (deflate_decoder encoded) data)) \/
  (name = lit "br" /\ compression_brotli features = true /\ yields (brotli_decompressor encoded) data) \/
  (name = lit "zstd" /\ compression_zstd features = true /\
     exists r, zstd_decoder encoded = Ok r /\ yields r data).

(** A body that arose from [data] by the encodings, the last applied first. *)
Fixpoint encoded_as (max_bytes : Z) (popped : list str) (data body : list Z) : Prop :=
  match popped with
  | [] => body = data
  | encoding :: popped =>
    exists inner, decodes_to max_bytes encoding body inner /\ Z.of_nat (length inner) <= max_bytes /\
      encoded_as max_bytes popped data inner
  end.

Lemma read_to_end_yields r encoding max data :
  yields r data -> Z.of_nat (length data) <= max <= usize_max -> read_to_end_limited r encoding max = Ok data.
Proof. intros Hy Hm. unfold read_to_end_limited. by rewrite (read_limited_yields _ _ _ _ data). Qed.

Lemma decode_one_inverts encoding max body data :
  decodes_to max encoding body data -> Z.of_nat (length data) <= max <= usize_max ->
  decode_one encoding body max = Ok data.
Proof.
  unfold decodes_to, decode_one. intros Hd Hm.
  destruct Hd as [[-> ->]|[(-> & -> & Hy)|[(-> & -> & Hy)|[(-> & -> & Hy)|(-> & -> & r & -> & Hy)]]]];
    rewrite ?andb_true_l; repeat (rewrite bool_decide_false by done); rewrite ?andb_false_r; rewrite ?bool_decide_true by done; simpl;
    try by apply read_to_end_yields.
  - done.
  - destruct Hy as [Hy|[[e He] Hy]]; unfold decode_deflate_limited.
    + by rewrite (read_to_end_yields _ _ _ data).
    + unfold read_to_end_limited at 1. rewrite He. by apply read_to_end_yields.
Qed.

Lemma decode_all_inverts popped max data body :
  encoded_as max popped data body -> max <= usize_max -> decode_all popped body max = Ok data.
Proof.
  revert body. induction popped as [|e popped IH]; intros body; simpl; [by intros ->|].
  intros (inner & Hd & Hl & Hrest) Hm. rewrite (decode_one_inverts _ _ _ _ Hd) by lia. simpl. by apply IH.
Qed.

(** A decoded body never exceeds the limit, whatever the decompressors produce: a
    small body cannot expand past [max_bytes]. *)
Lemma decoded_body_within_limit body headers max_bytes decoded :
  0 <= max_bytes < usize_max ->
  decode_content_encoded_body_limited body headers max_bytes = Ok decoded ->
  Z.of_nat (length decoded) <= max_bytes.
Proof.
  intros Hm. unfold decode_content_encoded_body_limited. case_match; [done|]. zbool.
  intros ([|e encodings] & _ & Hd)%result_bind_Ok_inv; [by simplify_eq|]. by eapply decode_all_bound.
Qed.

(** C40: Decoding undoes the encodings the headers list, in reverse order of their
    application, when every stage fits the limit. *)
Theorem decode_inverts_encodings body headers max_bytes encodings data :
  max_bytes <= usize_max -> Z.of_nat (length body) <= max_bytes ->
  collect_encodings (hm_get_all headers (header_name "content-encoding")) = Ok encodings ->
  encoded_as max_bytes (reverse encodings) data body ->
  decode_content_encoded_body_limited body headers max_bytes = Ok data.
Proof.
  intros Hm Hb Hc He. unfold decode_content_encoded_body_limited. rewrite Hc.
  destruct (Z.ltb_spec max_bytes (Z.of_nat (length body))); [lia|]. simpl.
  destruct encodings as [|e encodings]; [by rewrite He|]. by apply decode_all_inverts.
Qed.

End Decoding.

(** ** Witnesses

    A gzip decoder that doubles every byte, and one that yields its input in two
    reads with an interruption between them. *)
Module EncodingDemo.
Existing Instance ref_http.

Definition interrupted : BoxError := Dyn (IoError IoErrorKind.Interrupted) (lit "interrupted") None None.

#[export] Instance codecs : Codecs := {
  multi_gz_decoder body := [Ok body; Err interrupted; Ok body];
  zlib_decoder body := [Err (Dyn OtherError (lit "corrupt") None None)];
  deflate_decoder body := [Ok (reverse body)];
  brotli_decompressor body := [];
  zstd_decoder body := Err (Dyn OtherError (lit "corrupt") None None);
}.

Definition features : Features :=
  {| compression_gzip := true; compression_brotli := false; compression_zstd := false |}.

Definition headers : HeaderMap :=
  [(lit "content-encoding", {| RefHttp.text := lit "GZip , deflate"; RefHttp.sensitive := false |})].

End EncodingDemo.
#[local] Existing Instance EncodingDemo.codecs.

Lemma decoded_body_within_limit_witness :
  Z.of_nat (length [7; 8; 7; 8]) <= 16 /\ (length [7; 8; 7; 8] = 4)%nat.
Proof.
  split; [|reflexivity].
  apply (decoded_body_within_limit (H := ref_http) EncodingDemo.features [8; 7] EncodingDemo.headers 16).
  - vm_compute. split; [discriminate|reflexivity].
  - reflexivity.
Defined.

Lemma decode_inverts_encodings_witness :
  decode_content_encoded_body_limited EncodingDemo.features [8; 7] EncodingDemo.headers 16 = Ok [7; 8; 7; 8] /\
  collect_encodings (hm_get_all EncodingDemo.headers (header_name "content-encoding"))
    = Ok [lit "GZip"; lit "deflate"].
Proof.
  split; [|reflexivity].
  apply (decode_inverts_encodings EncodingDemo.features _ _ _ [lit "GZip"; lit "deflate"]);
    [vm_compute; discriminate|vm_compute; discriminate|reflexivity|].
  exists [7; 8]. split; [|split; [vm_compute; discriminate|]].
  - right. right. left. split; [reflexivity|]. split; [reflexivity|]. right.
    split; [eexists; reflexivity|]. exact (yields_chunk [7; 8] [] [] ltac:(discriminate) yields_end).
  - exists [7; 8; 7; 8]. split; [|split; [vm_compute; discriminate|reflexivity]].
    right. left. split; [reflexivity|]. split; [reflexivity|].
    exact (yields_chunk [7; 8] _ _ ltac:(discriminate)
      (yields_interrupted EncodingDemo.interrupted _ _ eq_refl
        (yields_chunk [7; 8] [] [] ltac:(discriminate) yields_end))).
Defined.
