(* ===== verification/Timing.v ===== *)
(** * Deadlines, retry delays and backoff (core/util/timing.rs, core/util/backoff.rs)

    Clock reads are arguments: [now] is the instant [Instant::now()] (or
    [elapsed()]) observes.  The HTTP date parser of the [httpdate] crate and the
    random generator of the [rand] crate are parameters.  The theorems show that a
    phase timeout or a retry delay never outlives the total timeout, that the
    saturating conversions are the exact ones clamped to [Duration::MAX], and that
    the backoff doubles from its base, is capped, and stays capped under jitter. *)
From Stdlib Require Import Ascii String.
From S2P Require Import Prelude Float64 Float64Facts Text HttpApi Errors.

(** Nanoseconds since the epoch of the wall clock. *)
Abbreviation SystemTime := Z.

(** [Instant::elapsed], with the instant the clock shows. *)
Definition elapsed (started_at now : Instant) : Duration := saturating_duration_since now started_at.

(** ** Conversions *)
Definition duration_millis_u64_saturating (d : Duration) : Z :=
  Z.min (duration_as_millis d) u64_max.

Definition duration_millis_ceil (d : Duration) : Z := (d + (NANOS_PER_MILLI - 1)) / NANOS_PER_MILLI.

Definition duration_from_millis_saturating (ms : Z) : Duration :=
  let seconds := ms / 1000 in
  if u64_max <? seconds then DURATION_MAX
  else seconds * NANOS_PER_SEC + ms mod 1000 * NANOS_PER_MILLI.

Definition duration_from_nanos_saturating (ns : Z) : Duration :=
  let seconds := ns / NANOS_PER_SEC in
  if u64_max <? seconds then DURATION_MAX
  else seconds * NANOS_PER_SEC + ns mod NANOS_PER_SEC.

Definition saturating_u64_to_usize (value : Z) : Z :=
  if usize_max <? value then usize_max else value.

Definition duration_from_secs_f64_saturating (seconds : f64) : Duration :=
  if f64_leb seconds f64_zero then 0
  else if negb (f64_is_finite seconds) || f64_leb (as_secs_f64 DURATION_MAX) seconds
  then DURATION_MAX
  else duration_from_secs_f64 seconds.

(** ** Deadlines *)
Definition phase_timeout (per_attempt_timeout : Duration) (total_timeout : option Duration)
    (request_started_at now : Instant) : option Duration :=
  match total_timeout with
  | None => Some per_attempt_timeout
  | Some total =>
    let elapsed := elapsed request_started_at now in
    if total <=? elapsed then None else Some (Z.min per_attempt_timeout (total - elapsed))
  end.

Definition total_timeout_expired (total_timeout : option Duration)
    (request_started_at now : Instant) : bool :=
  match total_timeout with
  | None => false
  | Some timeout => timeout <=? elapsed request_started_at now
  end.

Definition total_timeout_deadline (total_timeout : option Duration) (request_started_at : Instant)
    : option Instant :=
  timeout ← total_timeout; instant_checked_add request_started_at timeout.

Definition bounded_retry_delay (retry_delay : Duration) (total_timeout : option Duration)
    (request_started_at now : Instant) : option Duration :=
  match total_timeout with
  | None => Some retry_delay
  | Some total =>
    let elapsed := elapsed request_started_at now in
    if total <=? elapsed then None
    else if total - elapsed <=? retry_delay then None
    else Some retry_delay
  end.

Definition deadline_exceeded_error `{Http} (total_timeout : option Duration) (method : Method)
    (uri : str) : Error.t :=
  Error.DeadlineExceeded (match total_timeout with Some t => duration_millis_ceil t | None => 0 end)
    method uri.

(** ** Retry-After *)
Class HttpDate := parse_http_date : str -> option SystemTime.

Section RetryAfter.
Context `{Http} `{HttpDate}.

Definition parse_retry_after (headers : HeaderMap) (now : SystemTime) : option Duration :=
  value ← hm_get headers (header_name "retry-after");
  text ← to_str value;
  let raw_value := trim text in
  match parse_uint u64_max raw_value with
  | Some seconds => Some (duration_from_secs seconds)
  | None =>
    date ← parse_http_date raw_value;
    if now <=? date then Some (date - now) else Some 0
  end.

Definition parse_retry_after_capped (headers : HeaderMap) (now : SystemTime) (max_delay : Duration)
    : option Duration :=
  (fun delay => Z.min delay max_delay) <$> parse_retry_after headers now.

(** [Error::retry_after] of core/error.rs. *)
Definition error_retry_after (e : Error.t) (now : SystemTime) : option Duration :=
  headers ← Error.response_headers e; parse_retry_after headers now.

End RetryAfter.

(** ** Backoff *)

(** What one call of [rng.random_range(low..=high)] returns. *)
Definition sampler := Z -> Z -> Z.
Definition sampler_ok (random_range : sampler) : Prop :=
  forall low high, low <= high -> low <= random_range low high <= high.

Definition clamp_f64_or_fallback (value min max nan_fallback : f64) : f64 :=
  if f64_is_nan value then f64_clamp nan_fallback min max else f64_clamp value min max.

Definition apply_backoff_jitter (random_range : sampler) (backoff max_backoff : Duration)
    (jitter_ratio : f64) : Duration :=
  let jitter_ratio := clamp_f64_or_fallback jitter_ratio f64_zero f64_one f64_zero in
  if f64_leb jitter_ratio f64_epsilon then backoff
  else if backoff <=? 1 then backoff
  else
    let max_backoff_nanos := Z.max max_backoff 1 in
    let jitter_span :=
      f64_to_uint u128_max
        (f64_max (f64_round (f64_mul (f64_of_Z backoff) jitter_ratio)) f64_one) in
    let low := sat_sub backoff jitter_span in
    let high := Z.max (sat_add u128_max backoff jitter_span) low in
    let sampled_nanos := Z.min (random_range low high) max_backoff_nanos in
    duration_from_nanos_saturating sampled_nanos.

Definition exponential_backoff_with_jitter (random_range : sampler) (retry_index : Z)
    (base_backoff max_backoff : Duration) (jitter_ratio : f64) : Duration :=
  let capped_exponent := Z.min (sat_sub retry_index 1) 31 in
  let multiplier := Z.shiftl 1 capped_exponent in
  let base_nanos := Z.max base_backoff 1 in
  let max_nanos := Z.max max_backoff base_nanos in
  let delay_nanos := Z.min (sat_mul u128_max base_nanos multiplier) max_nanos in
  apply_backoff_jitter random_range
    (duration_from_nanos_saturating delay_nanos) (duration_from_nanos_saturating max_nanos)
    jitter_ratio.

(** ** Lemmas on conversions *)
Lemma u64_lt_u128 : u64_max < u128_max.
Proof. done. Qed.

Lemma DURATION_MAX_u128 : DURATION_MAX < u128_max.
Proof. done. Qed.

Lemma duration_from_nanos_clamp ns :
  0 <= ns -> duration_from_nanos_saturating ns = Z.min ns DURATION_MAX.
Proof.
  intros Hn. unfold duration_from_nanos_saturating, DURATION_MAX, NANOS_PER_SEC, u64_max.
  pose proof (Z.div_mod ns 1000000000 ltac:(lia)).
  pose proof (Z.mod_pos_bound ns 1000000000). case_match; zbool; lia.
Qed.

Lemma duration_from_millis_clamp ms :
  0 <= ms -> duration_from_millis_saturating ms = Z.min (ms * NANOS_PER_MILLI) DURATION_MAX.
Proof.
  intros Hn. unfold duration_from_millis_saturating, DURATION_MAX, NANOS_PER_SEC, NANOS_PER_MILLI,
    u64_max.
  pose proof (Z.div_mod ms 1000 ltac:(lia)). pose proof (Z.mod_pos_bound ms 1000).
  case_match; zbool; lia.
Qed.

Lemma duration_millis_ceil_bounds d :
  d <= duration_millis_ceil d * NANOS_PER_MILLI < d + NANOS_PER_MILLI.
Proof.
  unfold duration_millis_ceil, NANOS_PER_MILLI.
  pose proof (Z.div_mod (d + (1000000 - 1)) 1000000 ltac:(lia)).
  pose proof (Z.mod_pos_bound (d + (1000000 - 1)) 1000000). lia.
Qed.

Lemma duration_millis_ceil_exact ms : duration_millis_ceil (ms * NANOS_PER_MILLI) = ms.
Proof. pose proof (duration_millis_ceil_bounds (ms * NANOS_PER_MILLI)). unfold NANOS_PER_MILLI in *. lia. Qed.

Lemma elapsed_nonneg t now : 0 <= elapsed t now.
Proof. apply saturating_duration_since_nonneg. Qed.
#[export] Hint Resolve elapsed_nonneg : reqx.

(** ** Lemmas on deadlines *)
Lemma phase_timeout_None p total started now :
  phase_timeout p total started now = None <-> total_timeout_expired total started now = true.
Proof. unfold phase_timeout, total_timeout_expired. destruct total; [|done]. case_match; naive_solver. Qed.

Lemma elapsed_later started now d :
  started <= now -> 0 <= d -> elapsed started (now + d) = elapsed started now + d.
Proof. unfold elapsed, saturating_duration_since, Instant, Duration. lia. Qed.

(** ** Lemmas on backoff *)
Lemma sat_sub_le a b : 0 <= b -> 0 <= a -> 0 <= sat_sub a b <= a.
Proof. unfold sat_sub. lia. Qed.

Lemma jitter_zero : clamp_f64_or_fallback f64_zero f64_zero f64_one f64_zero = f64_zero.
Proof. done. Qed.

(** Jitter keeps a delay under the cap it is given. *)
Lemma apply_backoff_jitter_bounds rng backoff cap ratio :
  sampler_ok rng -> 0 <= backoff <= cap -> 1 <= cap <= DURATION_MAX ->
  0 <= apply_backoff_jitter rng backoff cap ratio <= cap.
Proof.
  intros Hrng Hb Hc. unfold apply_backoff_jitter. set (r := clamp_f64_or_fallback _ _ _ _).
  case_match; [lia|]. case_match; [lia|].
  set (span := f64_to_uint _ _). assert (0 <= span <= u128_max) as Hs by (by apply f64_to_uint_nonneg).
  set (low := sat_sub _ _). set (high := Z.max _ _).
  assert (0 <= low) by (unfold low, sat_sub; lia).
  assert (low <= rng low high <= high) by (apply Hrng; unfold high; lia).
  rewrite duration_from_nanos_clamp by lia. lia.
Qed.

(** The delay before jitter. *)
Definition backoff_delay (retry_index base cap : Z) : Z :=
  Z.min (base * 2 ^ Z.min (retry_index - 1) 31) cap.

Lemma backoff_delay_bounds i base cap :
  1 <= i -> 1 <= base <= cap -> 1 <= backoff_delay i base cap <= cap.
Proof.
  intros Hi Hb. unfold backoff_delay.
  assert (0 < 2 ^ Z.min (i - 1) 31) by (apply Z.pow_pos_nonneg; lia). nia.
Qed.

Lemma backoff_delay_mono i j base cap :
  1 <= i <= j -> 1 <= base -> backoff_delay i base cap <= backoff_delay j base cap.
Proof.
  intros Hi Hb. unfold backoff_delay. apply Z.min_le_compat_r.
  apply Z.mul_le_mono_nonneg_l; [lia|]. apply Z.pow_le_mono_r; lia.
Qed.

Lemma exponential_backoff_unjittered rng i base cap ratio :
  1 <= i -> 1 <= base <= cap -> cap <= DURATION_MAX ->
  exponential_backoff_with_jitter rng i base cap ratio =
  apply_backoff_jitter rng (backoff_delay i base cap) cap ratio.
Proof.
  intros Hi Hb Hc. unfold exponential_backoff_with_jitter.
  rewrite sat_sub_exact, Z.shiftl_mul_pow2, Z.mul_1_l by lia.
  rewrite (Z.max_l base), (Z.max_l cap) by lia.
  pose proof (backoff_delay_bounds i base cap Hi Hb) as Hd. pose proof DURATION_MAX_u128.
  replace (Z.min (sat_mul u128_max base (2 ^ Z.min (i - 1) 31)) cap) with (backoff_delay i base cap)
    by (unfold backoff_delay, sat_mul; lia).
  rewrite !duration_from_nanos_clamp by lia. f_equal; lia.
Qed.

(** ** Properties *)

(** [bounded_retry_delay] keeps the delay, or refuses it exactly when it would pass the
    total deadline. *)
Lemma bounded_retry_delay_spec d total started now :
  0 <= d -> started <= now ->
  bounded_retry_delay d total started now =
  if total_timeout_expired total started (now + d) then None else Some d.
Proof.
  intros Hd Hs. unfold bounded_retry_delay, total_timeout_expired. destruct total as [t|]; [|done].
  rewrite elapsed_later by done. pose proof (elapsed_nonneg started now).
  unfold Duration in *. repeat case_match; zbool; done || lia.
Qed.

(** The timeout of a phase never exceeds the configured phase timeout nor the time
    left to the total deadline, and is positive when the configured one is. *)
Lemma phase_timeout_within_deadline p total started now d :
  started <= now -> phase_timeout p (Some total) started now = Some d ->
  d <= p /\ now + d <= started + total /\ (0 < p -> 0 < d).
Proof.
  unfold phase_timeout, elapsed, saturating_duration_since, Instant, Duration.
  intros Hs Hd. case_match; simplify_eq; zbool. lia.
Qed.

(** Without jitter, the backoff is exactly min(base * 2^min(i-1,31), cap)
    nanoseconds for every base, cap and retry index, floating-point operations
    included. *)
Lemma backoff_exact_without_jitter rng i base cap :
  1 <= i -> 1 <= base <= cap -> cap <= DURATION_MAX ->
  exponential_backoff_with_jitter rng i base cap f64_zero =
  Z.min (base * 2 ^ Z.min (i - 1) 31) cap.
Proof.
  intros Hi Hb Hc. rewrite exponential_backoff_unjittered by done.
  unfold apply_backoff_jitter. by rewrite jitter_zero.
Qed.

Lemma backoff_never_exceeds_cap rng i base cap ratio :
  sampler_ok rng -> 1 <= i -> 1 <= base <= cap -> cap <= DURATION_MAX ->
  0 <= exponential_backoff_with_jitter rng i base cap ratio <= cap.
Proof.
  intros Hrng Hi Hb Hc. rewrite exponential_backoff_unjittered by done.
  pose proof (backoff_delay_bounds i base cap Hi Hb).
  apply apply_backoff_jitter_bounds; [done|lia|lia].
Qed.

(** ** Witnesses *)

Lemma backoff_exact_without_jitter_witness :
  exponential_backoff_with_jitter (fun low _ => low) 3 200 500 f64_zero = 500.
Proof. rewrite (backoff_exact_without_jitter (fun low _ => low) 3 200 500); [reflexivity|lia|lia|done]. Defined.
