(* ===== verification/Responses.v ===== *)
(** * Buffered responses (http/response.rs)

    [Response] with its text and JSON conversions, and the helpers both response
    streams share: the deadline comparisons and the [io::Error] a stream's reader
    reports.  [serde_json] is the class [Serde]. *)
From stdpp Require Import pretty.
From Stdlib Require Import Ascii String.
From S2P Require Import Prelude Float64 Text HttpApi Errors Headers Timing ContentEncoding.

(** ** Strict UTF-8 ([str::from_utf8])

    [decode_char] marks an ill-formed sequence with U+FFFD, which is also a character
    of its own, the three bytes EF BF BD. *)
Definition well_formed (bs : list Z) : bool :=
  let '(c, k) := decode_char bs in
  negb (c =? REPLACEMENT) || match bs with b0 :: _ => (b0 =? 239) && (k =? 3)%nat | [] => false end.

(** The sequence stops where a continuation byte was still to come. *)
Definition incomplete (bs : list Z) : bool :=
  match bs with b0 :: _ => in_range 194 244 b0 && ((decode_char bs).2 =? length bs)%nat | [] => false end.

Definition utf8_error (valid_up_to : nat) (rest : list Z) : BoxError :=
  let index := lit (pretty (Z.of_nat valid_up_to)) in
  Dyn OtherError
    (if incomplete rest then lit "incomplete utf-8 byte sequence from index " ++ index
     else lit "invalid utf-8 sequence of " ++ lit (pretty (Z.of_nat (decode_char rest).2))
          ++ lit " bytes from index " ++ index) None None.

(** [fuel] bounds the characters, of which there are at most as many as bytes. *)
Fixpoint decode_strict (fuel : nat) (at_byte : nat) (bs : list Z) : result str BoxError :=
  match bs, fuel with
  | [], _ => Ok []
  | _, O => Err (utf8_error at_byte bs)
  | _, S fuel =>
    if well_formed bs then
      let '(c, k) := decode_char bs in
      match decode_strict fuel (at_byte + k) (skipn k bs) with
      | Ok s => Ok (c :: s)
      | Err e => Err e
      end
    else Err (utf8_error at_byte bs)
  end.

Definition from_utf8 (bs : list Z) : result str BoxError := decode_strict (length bs) 0 bs.

(** ** Responses *)
Class Serde (T : Type) := { from_slice : list Z -> result T BoxError }.

Section Responses.
Context `{Http}.

Record Response := { status : StatusCode; headers : HeaderMap; body : list Z }.

Definition text (r : Response) : result str Error.t :=
  match from_utf8 (body r) with
  | Ok s => Ok s
  | Err source => Err (Error.DecodeText source (truncate_body (body r)))
  end.

Definition text_lossy (r : Response) : str := from_utf8_lossy (body r).

Definition into_text (r : Response) : result str Error.t :=
  match from_utf8 (body r) with
  | Ok s => Ok s
  | Err source => Err (Error.DecodeText source (truncate_body (body r)))
  end.

Definition into_text_lossy (r : Response) : str := from_utf8_lossy (body r).

Definition json {T} `{!Serde T} (r : Response) : result T Error.t :=
  match from_slice (body r) with
  | Ok value => Ok value
  | Err source => Err (Error.DeserializeJson source (truncate_body (body r)))
  end.

(** ** Shared by the streams *)
Definition deadline_elapsed (deadline_at now : Instant) : bool := deadline_at <=? now.

Definition deadline_limits_wait (phase_timeout : Duration) (deadline_at now : Instant) : bool :=
  saturating_duration_since deadline_at now <=? phase_timeout.

Definition deadline_within_slack (deadline_at now : Instant) (deadline_slack : Duration) : bool :=
  saturating_duration_since deadline_at now <=? deadline_slack.

Fixpoint io_error_kind_in_chain (e : BoxError) : option IoErrorKind.t :=
  match e with
  | Dyn (IoError kind) _ _ _ => Some kind
  | Dyn _ _ _ source => match source with Some s => io_error_kind_in_chain s | None => None end
  end.

(** [hyper_kind] is what an async build makes of a [hyper::Error]. *)
Definition stream_read_io_error_kind (hyper_kind : BoxError -> option IoErrorKind.t) (error : Error.t)
    : IoErrorKind.t :=
  match error with
  | Error.Timeout _ _ _ _ | Error.DeadlineExceeded _ _ _ => IoErrorKind.TimedOut
  | Error.ReadBody source =>
    match io_error_kind_in_chain source with
    | Some kind => kind
    | None => default IoErrorKind.Other (hyper_kind source)
    end
  | Error.WriteBody _ _ source => default IoErrorKind.Other (io_error_kind_in_chain source)
  | _ => IoErrorKind.Other
  end.

(** The [io::Error] of a stream's reader: its kind, and the typed error it wraps. *)
Record StreamIoError := { io_kind : IoErrorKind.t; io_inner : Error.t }.

Definition into_stream_read_io_error (hyper_kind : BoxError -> option IoErrorKind.t) (error : Error.t)
    : StreamIoError :=
  {| io_kind := stream_read_io_error_kind hyper_kind error; io_inner := error |}.

Definition write_body_error (method : Method) (uri : str) (source : BoxError) : Error.t :=
  Error.WriteBody method uri source.

End Responses.

(** ** The encoding [from_utf8] decodes *)
Definition is_scalar (c : Z) : bool := in_range 0 55295 c || in_range 57344 1114111 c.

Definition encode_char (c : Z) : list Z :=
  if c <? 128 then [c]
  else if c <? 2048 then [192 + c / 64; 128 + c mod 64]
  else if c <? 65536 then [224 + c / 4096; 128 + c / 64 mod 64; 128 + c mod 64]
  else [240 + c / 262144; 128 + c / 4096 mod 64; 128 + c / 64 mod 64; 128 + c mod 64].

Definition encode_utf8 (s : str) : list Z := concat (encode_char <$> s).

(** ** Encoding and decoding are inverse *)

(** The comparisons of a decoder, decided by the bounds at hand. *)
Ltac decide_tests :=
  unfold decode_char; simpl; unfold is_cont, second_lo, second_hi, REPLACEMENT; unfold in_range; simpl;
  repeat (match goal with
  | |- context [?a =? ?b] => destruct (Z.eqb_spec a b)
  | |- context [?a <? ?b] => destruct (Z.ltb_spec a b)
  | |- context [?a <=? ?b] => destruct (Z.leb_spec a b)
  end; simpl; try (exfalso; lia)).

(** The base-64 digits of a character. *)
Lemma digits c : 0 <= c ->
  c = 64 * (c / 64) + c mod 64 /\ 0 <= c mod 64 < 64 /\
  c / 64 = 64 * (c / 4096) + c / 64 mod 64 /\ 0 <= c / 64 mod 64 < 64 /\
  c / 4096 = 64 * (c / 262144) + c / 4096 mod 64 /\ 0 <= c / 4096 mod 64 < 64 /\ 0 <= c / 262144.
Proof. intros Hc. Z.to_euclidean_division_equations. lia. Qed.

Lemma is_scalar_spec c : is_scalar c = true <-> 0 <= c <= 55295 \/ 57344 <= c <= 1114111.
Proof. unfold is_scalar, in_range. rewrite orb_true_iff, !andb_true_iff, !Z.leb_le. done. Qed.

Lemma decode_encode_char c rest :
  is_scalar c = true ->
  decode_char (encode_char c ++ rest) = (c, length (encode_char c)) /\ well_formed (encode_char c ++ rest) = true.
Proof.
  intros Hc%is_scalar_spec. destruct (digits c ltac:(lia)) as (D1 & D2 & D3 & D4 & D5 & D6 & D7). unfold well_formed, encode_char.
  destruct (Z.ltb_spec c 128); [|destruct (Z.ltb_spec c 2048); [|destruct (Z.ltb_spec c 65536)]];
    generalize dependent (c mod 64); generalize dependent (c / 64 mod 64); generalize dependent (c / 4096 mod 64); 
    generalize dependent (c / 64); generalize dependent (c / 4096); generalize dependent (c / 262144); intros; 
    split; decide_tests; try done; try (f_equal; lia).
Qed.

Lemma encode_one b0 : b0 < 128 -> encode_char b0 = [b0].
Proof. intros. unfold encode_char. by rewrite (proj2 (Z.ltb_lt _ _)). Qed.

Lemma encode_two b0 b1 :
  194 <= b0 <= 223 -> 128 <= b1 <= 191 -> encode_char ((b0 - 192) * 64 + (b1 - 128)) = [b0; b1].
Proof.
  intros. unfold encode_char. rewrite (proj2 (Z.ltb_ge _ _)), (proj2 (Z.ltb_lt _ _)) by lia.
  repeat f_equal; Z.to_euclidean_division_equations; lia.
Qed.

Lemma encode_three b0 b1 b2 (v := (b0 - 224) * 4096 + (b1 - 128) * 64 + (b2 - 128)) :
  2048 <= v < 65536 -> 128 <= b1 <= 191 -> 128 <= b2 <= 191 -> encode_char v = [b0; b1; b2].
Proof.
  intros. unfold encode_char. rewrite !(proj2 (Z.ltb_ge _ _)), (proj2 (Z.ltb_lt _ _)) by lia. subst v.
  repeat f_equal; Z.to_euclidean_division_equations; lia.
Qed.

Lemma encode_four b0 b1 b2 b3 (v := (b0 - 240) * 262144 + (b1 - 128) * 4096 + (b2 - 128) * 64 + (b3 - 128)) :
  65536 <= v -> 128 <= b1 <= 191 -> 128 <= b2 <= 191 -> 128 <= b3 <= 191 -> encode_char v = [b0; b1; b2; b3].
Proof.
  intros. unfold encode_char. rewrite !(proj2 (Z.ltb_ge _ _)) by lia. subst v.
  repeat f_equal; Z.to_euclidean_division_equations; lia.
Qed.

Lemma encode_well_formed bs :
  Forall (fun b => 0 <= b) bs -> bs <> [] -> well_formed bs = true ->
  is_scalar (decode_char bs).1 = true /\
  bs = encode_char (decode_char bs).1 ++ skipn (decode_char bs).2 bs.
Proof.
  intros Hb Hne. rewrite is_scalar_spec. unfold well_formed.
  destruct bs as [|b0 rest]; [done|]. inversion Hb as [|? ? H0 Hrest]; subst.
  destruct rest as [|b1 [|b2 [|b3 rest]]]; decide_tests; intros Hw; try done; (split; [lia|]);
    rewrite ?encode_one, ?encode_two, ?encode_three, ?encode_four by lia; done.
Qed.

Lemma decode_strict_encode n at_byte s :
  (length (encode_utf8 s) <= n)%nat -> Forall (fun c => is_scalar c = true) s ->
  decode_strict n at_byte (encode_utf8 s) = Ok s.
Proof.
  revert n at_byte. induction s as [|c s IH]; intros n at_byte Hn Hs; [by destruct n|].
  inversion Hs as [|? ? Hc Hs']; subst. destruct (decode_encode_char c (encode_utf8 s) Hc) as [Hd Hw].
  unfold encode_utf8 in *. cbn [fmap list_fmap concat] in *. fold (encode_utf8 s) in *.
  assert (1 <= length (encode_char c))%nat as Hl by (unfold encode_char; repeat case_match; simpl; lia).
  rewrite length_app in Hn. destruct n as [|n]; [lia|].
  destruct (encode_char c ++ encode_utf8 s) as [|b bs] eqn:Hbs; [by destruct (encode_char c)|].
  cbn [decode_strict]. rewrite Hw, Hd. rewrite <- Hbs, skipn_app, skipn_all, Nat.sub_diag. cbn [app skipn].
  rewrite IH; [done|lia|done].
Qed.

Lemma decode_strict_Ok n at_byte bs s :
  Forall (fun b => 0 <= b) bs -> decode_strict n at_byte bs = Ok s ->
  bs = encode_utf8 s /\ Forall (fun c => is_scalar c = true) s.
Proof.
  revert at_byte bs s. induction n as [|n IH]; intros at_byte bs s Hb Hd; (destruct bs as [|b0 bs0] eqn:Hbs;
    [simpl in Hd; simplify_eq; by split; [|constructor]|]); [done|].
  rewrite <- Hbs in *. assert (bs <> []) as Hne by (by subst). 
  assert (decode_strict (S n) at_byte bs = if well_formed bs then
    match decode_strict n (at_byte + (decode_char bs).2) (skipn (decode_char bs).2 bs) with
    | Ok s => Ok ((decode_char bs).1 :: s) | Err e => Err e end
    else Err (utf8_error at_byte bs)) as Hstep.
  { rewrite Hbs. cbn [decode_strict]. by destruct (decode_char (b0 :: bs0)). }
  rewrite Hstep in Hd. destruct (well_formed bs) eqn:Hw; [|done].
  destruct (encode_well_formed bs Hb Hne Hw) as [Hc He].
  destruct (decode_strict n _ _) as [s'|e] eqn:Hrec; [|done]. injection Hd as <-.
  apply IH in Hrec as [Hr Hs]; [|by apply Forall_drop]. split; [|by constructor].
  rewrite He at 1. unfold encode_utf8. cbn [fmap list_fmap concat]. by rewrite Hr at 1.
Qed.

(** ** Properties *)
Section Properties.
Context `{Http}.

(** Text conversion decodes UTF-8 and nothing else: a body converts to the text
    [s] exactly when it is the UTF-8 encoding of [s], a sequence of Unicode scalar
    values; otherwise the conversion is a DecodeText error that carries the lossy
    excerpt of the body. *)
Theorem response_text_is_utf8 (r : Response) s :
  Forall (fun b => 0 <= b) (body r) ->
  (into_text r = Ok s <-> body r = encode_utf8 s /\ Forall (fun c => is_scalar c = true) s) /\
  (is_ok (into_text r) = false -> exists source, into_text r = Err (Error.DecodeText source (truncate_body (body r)))).
Proof.
  intros Hb. unfold into_text. split.
  - destruct (from_utf8 (body r)) as [s'|e] eqn:Hd; unfold from_utf8 in Hd.
    + pose proof (decode_strict_Ok _ _ _ _ Hb Hd) as [He Hs]. split; [intros [= ->]; done|]. intros [Hs1 Hs2].
      rewrite Hs1 in Hd. rewrite decode_strict_encode in Hd by done. congruence.
    + split; [done|]. intros [Hs1 Hs2]. rewrite Hs1, decode_strict_encode in Hd by done. done.
  - destruct (from_utf8 (body r)) as [s'|e]; [done|]. intros _. by exists e.
Qed.

End Properties.

(** "h", e with an acute accent, and a sign of four bytes. *)
Lemma response_text_is_utf8_witness :
  into_text {| status := NO_CONTENT; headers := hm_new; body := [104; 195; 169; 240; 159; 146; 169] |}
    = Ok [104; 233; 128169].
Proof.
  apply (response_text_is_utf8 {| status := NO_CONTENT; headers := hm_new; body := [104; 195; 169; 240; 159; 146; 169] |}).
  - simpl. repeat (apply Forall_cons; split; [lia|]). apply Forall_nil_2.
  - split; [reflexivity|]. repeat (apply Forall_cons; split; [reflexivity|]). apply Forall_nil_2.
Defined.
