(* ===== verification/Retry.v ===== *)
(** * Retry policy (core/retry.rs)

    [RetryPolicy] with its defaults, its builder methods ([with_...], since the
    Rust methods share the fields' names), validation, the retry decision and the
    eligibility predicates.  The ordered sets and maps of the code are only
    tested for membership, so they are [gset] and [gmap].  A custom
    [RetryClassifier] or [RetryEligibility] is a function argument.  The theorems
    characterise [validate] and the built-in decision, and show that a validated
    policy's backoff respects its cap. *)
From Stdlib Require Import Ascii String.
From S2P Require Import Prelude Float64 Float64Facts Text HttpApi Errors Timing.

Section Retry.
Context `{Http}.

Inductive RetryReason :=
| Status (status : StatusCode)
| Transport (kind : TransportErrorKind.t)
| Timeout (phase : TimeoutPhase.t)
| ResponseBodyRead.

Record RetryDecision := {
  attempt : Z;
  decision_max_attempts : Z;
  method : Method;
  uri : str;
  reason : RetryReason;
}.

Definition decision_status (d : RetryDecision) : option StatusCode :=
  match reason d with Status status => Some status | _ => None end.

Definition transport_error_kind (d : RetryDecision) : option TransportErrorKind.t :=
  match reason d with Transport kind => Some kind | _ => None end.

Definition timeout_phase (d : RetryDecision) : option TimeoutPhase.t :=
  match reason d with Timeout phase => Some phase | _ => None end.

Definition is_response_body_read_error (d : RetryDecision) : bool :=
  match reason d with ResponseBodyRead => true | _ => false end.

Record RetryPolicy := {
  max_attempts : Z;
  base_backoff : Duration;
  max_backoff : Duration;
  jitter_ratio : f64;
  retryable_status_codes : gset Z;
  retryable_transport_error_kinds : gset TransportErrorKind.t;
  retryable_timeout_phases : gset TimeoutPhase.t;
  retry_on_response_body_read_error : bool;
  status_retry_windows : gmap Z Z;
  transport_retry_windows : gmap TransportErrorKind.t Z;
  timeout_retry_windows : gmap TimeoutPhase.t Z;
  response_body_read_retry_window : option Z;
  retry_classifier : option (RetryDecision -> bool);
}.

(** ** Defaults *)
Definition default_retryable_status_codes : gset Z := list_to_set [429; 500; 502; 503; 504].

Definition default_retryable_transport_error_kinds : gset TransportErrorKind.t :=
  list_to_set [TransportErrorKind.Dns; TransportErrorKind.Connect; TransportErrorKind.Read].

Definition default_retryable_timeout_phases : gset TimeoutPhase.t :=
  list_to_set [TimeoutPhase.Transport; TimeoutPhase.ResponseBody].

Definition standard : RetryPolicy :=
  {| max_attempts := 3;
     base_backoff := duration_from_millis 200;
     max_backoff := duration_from_secs 2;
     jitter_ratio := f64_lit 2 10;
     retryable_status_codes := default_retryable_status_codes;
     retryable_transport_error_kinds := default_retryable_transport_error_kinds;
     retryable_timeout_phases := default_retryable_timeout_phases;
     retry_on_response_body_read_error := true;
     status_retry_windows := ∅;
     transport_retry_windows := ∅;
     timeout_retry_windows := ∅;
     response_body_read_retry_window := None;
     retry_classifier := None |}.

(** ** Builder methods *)
Definition with_max_attempts (p : RetryPolicy) (v : Z) : RetryPolicy :=
  {| max_attempts := v;
     base_backoff := base_backoff p;
     max_backoff := max_backoff p;
     jitter_ratio := jitter_ratio p;
     retryable_status_codes := retryable_status_codes p;
     retryable_transport_error_kinds := retryable_transport_error_kinds p;
     retryable_timeout_phases := retryable_timeout_phases p;
     retry_on_response_body_read_error := retry_on_response_body_read_error p;
     status_retry_windows := status_retry_windows p;
     transport_retry_windows := transport_retry_windows p;
     timeout_retry_windows := timeout_retry_windows p;
     response_body_read_retry_window := response_body_read_retry_window p;
     retry_classifier := retry_classifier p |}.

Definition with_base_backoff (p : RetryPolicy) (v : Duration) : RetryPolicy :=
  {| max_attempts := max_attempts p;
     base_backoff := v;
     max_backoff := max_backoff p;
     jitter_ratio := jitter_ratio p;
     retryable_status_codes := retryable_status_codes p;
     retryable_transport_error_kinds := retryable_transport_error_kinds p;
     retryable_timeout_phases := retryable_timeout_phases p;
     retry_on_response_body_read_error := retry_on_response_body_read_error p;
     status_retry_windows := status_retry_windows p;
     transport_retry_windows := transport_retry_windows p;
     timeout_retry_windows := timeout_retry_windows p;
     response_body_read_retry_window := response_body_read_retry_window p;
     retry_classifier := retry_classifier p |}.

Definition with_max_backoff (p : RetryPolicy) (v : Duration) : RetryPolicy :=
  {| max_attempts := max_attempts p;
     base_backoff := base_backoff p;
     max_backoff := v;
     jitter_ratio := jitter_ratio p;
     retryable_status_codes := retryable_status_codes p;
     retryable_transport_error_kinds := retryable_transport_error_kinds p;
     retryable_timeout_phases := retryable_timeout_phases p;
     retry_on_response_body_read_error := retry_on_response_body_read_error p;
     status_retry_windows := status_retry_windows p;
     transport_retry_windows := transport_retry_windows p;
     timeout_retry_windows := timeout_retry_windows p;
     response_body_read_retry_window := response_body_read_retry_window p;
     retry_classifier := retry_classifier p |}.

Definition with_jitter_ratio (p : RetryPolicy) (v : f64) : RetryPolicy :=
  {| max_attempts := max_attempts p;
     base_backoff := base_backoff p;
     max_backoff := max_backoff p;
     jitter_ratio := v;
     retryable_status_codes := retryable_status_codes p;
     retryable_transport_error_kinds := retryable_transport_error_kinds p;
     retryable_timeout_phases := retryable_timeout_phases p;
     retry_on_response_body_read_error := retry_on_response_body_read_error p;
     status_retry_windows := status_retry_windows p;
     transport_retry_windows := transport_retry_windows p;
     timeout_retry_windows := timeout_retry_windows p;
     response_body_read_retry_window := response_body_read_retry_window p;
     retry_classifier := retry_classifier p |}.

Definition with_retry_on_response_body_read_error (p : RetryPolicy) (v : bool) : RetryPolicy :=
  {| max_attempts := max_attempts p;
     base_backoff := base_backoff p;
     max_backoff := max_backoff p;
     jitter_ratio := jitter_ratio p;
     retryable_status_codes := retryable_status_codes p;
     retryable_transport_error_kinds := retryable_transport_error_kinds p;
     retryable_timeout_phases := retryable_timeout_phases p;
     retry_on_response_body_read_error := v;
     status_retry_windows := status_retry_windows p;
     transport_retry_windows := transport_retry_windows p;
     timeout_retry_windows := timeout_retry_windows p;
     response_body_read_retry_window := response_body_read_retry_window p;
     retry_classifier := retry_classifier p |}.

Definition with_retryable_status_codes (p : RetryPolicy) (v : list Z) : RetryPolicy :=
  {| max_attempts := max_attempts p;
     base_backoff := base_backoff p;
     max_backoff := max_backoff p;
     jitter_ratio := jitter_ratio p;
     retryable_status_codes := list_to_set v;
     retryable_transport_error_kinds := retryable_transport_error_kinds p;
     retryable_timeout_phases := retryable_timeout_phases p;
     retry_on_response_body_read_error := retry_on_response_body_read_error p;
     status_retry_windows := status_retry_windows p;
     transport_retry_windows := transport_retry_windows p;
     timeout_retry_windows := timeout_retry_windows p;
     response_body_read_retry_window := response_body_read_retry_window p;
     retry_classifier := retry_classifier p |}.

Definition with_retryable_transport_error_kinds (p : RetryPolicy) (v : list TransportErrorKind.t) : RetryPolicy :=
  {| max_attempts := max_attempts p;
     base_backoff := base_backoff p;
     max_backoff := max_backoff p;
     jitter_ratio := jitter_ratio p;
     retryable_status_codes := retryable_status_codes p;
     retryable_transport_error_kinds := list_to_set v;
     retryable_timeout_phases := retryable_timeout_phases p;
     retry_on_response_body_read_error := retry_on_response_body_read_error p;
     status_retry_windows := status_retry_windows p;
     transport_retry_windows := transport_retry_windows p;
     timeout_retry_windows := timeout_retry_windows p;
     response_body_read_retry_window := response_body_read_retry_window p;
     retry_classifier := retry_classifier p |}.

Definition with_retryable_timeout_phases (p : RetryPolicy) (v : list TimeoutPhase.t) : RetryPolicy :=
  {| max_attempts := max_attempts p;
     base_backoff := base_backoff p;
     max_backoff := max_backoff p;
     jitter_ratio := jitter_ratio p;
     retryable_status_codes := retryable_status_codes p;
     retryable_transport_error_kinds := retryable_transport_error_kinds p;
     retryable_timeout_phases := list_to_set v;
     retry_on_response_body_read_error := retry_on_response_body_read_error p;
     status_retry_windows := status_retry_windows p;
     transport_retry_windows := transport_retry_windows p;
     timeout_retry_windows := timeout_retry_windows p;
     response_body_read_retry_window := response_body_read_retry_window p;
     retry_classifier := retry_classifier p |}.

Definition with_status_retry_window (p : RetryPolicy) (k : Z) (limit : Z) : RetryPolicy :=
  {| max_attempts := max_attempts p;
     base_backoff := base_backoff p;
     max_backoff := max_backoff p;
     jitter_ratio := jitter_ratio p;
     retryable_status_codes := retryable_status_codes p;
     retryable_transport_error_kinds := retryable_transport_error_kinds p;
     retryable_timeout_phases := retryable_timeout_phases p;
     retry_on_response_body_read_error := retry_on_response_body_read_error p;
     status_retry_windows := <[k := limit]> (status_retry_windows p);
     transport_retry_windows := transport_retry_windows p;
     timeout_retry_windows := timeout_retry_windows p;
     response_body_read_retry_window := response_body_read_retry_window p;
     retry_classifier := retry_classifier p |}.

Definition with_transport_retry_window (p : RetryPolicy) (k : TransportErrorKind.t) (limit : Z) : RetryPolicy :=
  {| max_attempts := max_attempts p;
     base_backoff := base_backoff p;
     max_backoff := max_backoff p;
     jitter_ratio := jitter_ratio p;
     retryable_status_codes := retryable_status_codes p;
     retryable_transport_error_kinds := retryable_transport_error_kinds p;
     retryable_timeout_phases := retryable_timeout_phases p;
     retry_on_response_body_read_error := retry_on_response_body_read_error p;
     status_retry_windows := status_retry_windows p;
     transport_retry_windows := <[k := limit]> (transport_retry_windows p);
     timeout_retry_windows := timeout_retry_windows p;
     response_body_read_retry_window := response_body_read_retry_window p;
     retry_classifier := retry_classifier p |}.

Definition with_timeout_retry_window (p : RetryPolicy) (k : TimeoutPhase.t) (limit : Z) : RetryPolicy :=
  {| max_attempts := max_attempts p;
     base_backoff := base_backoff p;
     max_backoff := max_backoff p;
     jitter_ratio := jitter_ratio p;
     retryable_status_codes := retryable_status_codes p;
     retryable_transport_error_kinds := retryable_transport_error_kinds p;
     retryable_timeout_phases := retryable_timeout_phases p;
     retry_on_response_body_read_error := retry_on_response_body_read_error p;
     status_retry_windows := status_retry_windows p;
     transport_retry_windows := transport_retry_windows p;
     timeout_retry_windows := <[k := limit]> (timeout_retry_windows p);
     response_body_read_retry_window := response_body_read_retry_window p;
     retry_classifier := retry_classifier p |}.

Definition with_response_body_read_retry_window (p : RetryPolicy) (limit : Z) : RetryPolicy :=
  {| max_attempts := max_attempts p;
     base_backoff := base_backoff p;
     max_backoff := max_backoff p;
     jitter_ratio := jitter_ratio p;
     retryable_status_codes := retryable_status_codes p;
     retryable_transport_error_kinds := retryable_transport_error_kinds p;
     retryable_timeout_phases := retryable_timeout_phases p;
     retry_on_response_body_read_error := retry_on_response_body_read_error p;
     status_retry_windows := status_retry_windows p;
     transport_retry_windows := transport_retry_windows p;
     timeout_retry_windows := timeout_retry_windows p;
     response_body_read_retry_window := Some limit;
     retry_classifier := retry_classifier p |}.

Definition with_retry_classifier (p : RetryPolicy) (c : RetryDecision -> bool) : RetryPolicy :=
  {| max_attempts := max_attempts p;
     base_backoff := base_backoff p;
     max_backoff := max_backoff p;
     jitter_ratio := jitter_ratio p;
     retryable_status_codes := retryable_status_codes p;
     retryable_transport_error_kinds := retryable_transport_error_kinds p;
     retryable_timeout_phases := retryable_timeout_phases p;
     retry_on_response_body_read_error := retry_on_response_body_read_error p;
     status_retry_windows := status_retry_windows p;
     transport_retry_windows := transport_retry_windows p;
     timeout_retry_windows := timeout_retry_windows p;
     response_body_read_retry_window := response_body_read_retry_window p;
     retry_classifier := Some c |}.

Definition disabled : RetryPolicy := with_jitter_ratio (with_max_attempts standard 1) f64_zero.

(** ** Validation *)
Definition is_valid_retryable_status_code (status : Z) : bool :=
  match from_u16 status with Some s => negb (is_success s) | None => false end.

Definition invalid_policy (p : RetryPolicy) (message : string) : Error.t :=
  Error.InvalidRetryPolicy (max_attempts p) (duration_millis_ceil (base_backoff p))
    (duration_millis_ceil (max_backoff p)) (jitter_ratio p) message.

Definition has_zero {K} `{Countable K} (windows : gmap K Z) : bool :=
  existsb (fun kv => kv.2 =? 0) (map_to_list windows).

Definition validate (p : RetryPolicy) : result unit Error.t :=
  if max_attempts p =? 0
  then Err (invalid_policy p "max_attempts must be greater than zero")
  else if duration_is_zero (base_backoff p)
  then Err (invalid_policy p "base_backoff must be greater than zero")
  else if duration_is_zero (max_backoff p)
  then Err (invalid_policy p "max_backoff must be greater than zero")
  else if max_backoff p <? base_backoff p
  then Err (invalid_policy p "max_backoff must be greater than or equal to base_backoff")
  else if negb (f64_is_finite (jitter_ratio p)) ||
          negb (f64_leb f64_zero (jitter_ratio p) && f64_leb (jitter_ratio p) f64_one)
  then Err (invalid_policy p "jitter_ratio must be finite and between 0.0 and 1.0")
  else if existsb (fun s => negb (is_valid_retryable_status_code s))
            (elements (retryable_status_codes p))
  then Err (invalid_policy p "retryable status codes must be valid non-success statuses")
  else if existsb (fun kv => negb (is_valid_retryable_status_code kv.1))
            (map_to_list (status_retry_windows p))
  then Err (invalid_policy p "status retry windows must target valid non-success statuses")
  else if has_zero (status_retry_windows p)
  then Err (invalid_policy p "status retry windows must be greater than zero")
  else if has_zero (transport_retry_windows p)
  then Err (invalid_policy p "transport retry windows must be greater than zero")
  else if has_zero (timeout_retry_windows p)
  then Err (invalid_policy p "timeout retry windows must be greater than zero")
  else if bool_decide (response_body_read_retry_window p = Some 0)
  then Err (invalid_policy p "response body read retry window must be greater than zero")
  else Ok tt.

(** ** Decisions *)
Definition is_retryable_status (p : RetryPolicy) (status : StatusCode) : bool :=
  bool_decide (as_u16 status ∈ retryable_status_codes p).

Definition is_within_retry_window (limit : option Z) (attempt : Z) : bool :=
  match limit with Some limit => attempt <? limit | None => true end.

Definition should_retry_decision (p : RetryPolicy) (d : RetryDecision) : bool :=
  match retry_classifier p with
  | Some should_retry => should_retry d
  | None =>
    match reason d with
    | Status status =>
      is_retryable_status p status
      && is_within_retry_window (status_retry_windows p !! as_u16 status) (attempt d)
    | Transport kind =>
      bool_decide (kind ∈ retryable_transport_error_kinds p)
      && is_within_retry_window (transport_retry_windows p !! kind) (attempt d)
    | Timeout phase =>
      bool_decide (phase ∈ retryable_timeout_phases p)
      && is_within_retry_window (timeout_retry_windows p !! phase) (attempt d)
    | ResponseBodyRead =>
      retry_on_response_body_read_error p
      && is_within_retry_window (response_body_read_retry_window p) (attempt d)
    end
  end.

Definition backoff_for_retry (random_range : sampler) (p : RetryPolicy) (retry_index : Z) : Duration :=
  exponential_backoff_with_jitter random_range retry_index (base_backoff p) (max_backoff p)
    (jitter_ratio p).

(** ** Eligibility *)
Definition is_method_idempotent (m : Method) : bool :=
  bool_decide (m = GET) || bool_decide (m = HEAD) || bool_decide (m = PUT)
  || bool_decide (m = DELETE) || bool_decide (m = OPTIONS) || bool_decide (m = TRACE).

Definition request_supports_retry (m : Method) (headers : HeaderMap) : bool :=
  is_method_idempotent m || hm_contains_key headers (header_name "idempotency-key").

Definition RetryEligibility := Method -> HeaderMap -> bool.
Definition StrictRetryEligibility : RetryEligibility := request_supports_retry.
Definition PermissiveRetryEligibility : RetryEligibility := fun _ _ => true.

End Retry.

(** ** Validity

    What a policy accepted by [validate] guarantees. *)
Record valid_policy `{Http} (p : RetryPolicy) : Prop := {
  valid_attempts : max_attempts p <> 0;
  valid_base : base_backoff p <> 0;
  valid_backoff : max_backoff p <> 0 /\ base_backoff p <= max_backoff p;
  valid_jitter : f64_is_finite (jitter_ratio p) = true /\
    f64_leb f64_zero (jitter_ratio p) = true /\ f64_leb (jitter_ratio p) f64_one = true;
  valid_statuses s : s ∈ retryable_status_codes p -> 100 <= s < 1000 /\ ~ 200 <= s < 300;
  valid_status_windows s n :
    status_retry_windows p !! s = Some n -> (100 <= s < 1000 /\ ~ 200 <= s < 300) /\ n <> 0;
  valid_transport_windows k n : transport_retry_windows p !! k = Some n -> n <> 0;
  valid_timeout_windows ph n : timeout_retry_windows p !! ph = Some n -> n <> 0;
  valid_body_window : response_body_read_retry_window p <> Some 0;
}.

Section Lemmas.
Context `{HttpLaws}.

Lemma is_valid_retryable_status_code_spec s :
  is_valid_retryable_status_code s = true <-> 100 <= s < 1000 /\ ~ 200 <= s < 300.
Proof.
  unfold is_valid_retryable_status_code. pose proof (from_u16_valid s) as Hv.
  destruct (from_u16 s) as [c|] eqn:Hs.
  - apply from_u16_Some in Hs. rewrite is_success_spec, Hs, negb_true_iff, andb_false_iff,
      Z.leb_gt, Z.ltb_ge.
    assert (100 <= s < 1000) by (apply Hv; eauto). lia.
  - split; [done|]. intros [Hr _]. apply Hv in Hr. by destruct Hr.
Qed.

Lemma existsb_false_iff {A} (f : A -> bool) l : existsb f l = false <-> forall x, x ∈ l -> f x = false.
Proof.
  rewrite <- not_true_iff_false, existsb_exists. setoid_rewrite <- not_true_iff_false.
  setoid_rewrite list_elem_of_In. naive_solver.
Qed.

Lemma has_zero_false {K} `{Countable K} (m : gmap K Z) :
  has_zero m = false <-> forall k n, m !! k = Some n -> n <> 0.
Proof.
  unfold has_zero. rewrite existsb_false_iff. split.
  - intros Hm k n Hk. apply Z.eqb_neq. by apply (Hm (k, n)), elem_of_map_to_list.
  - intros Hm [k n] Hin%elem_of_map_to_list. apply Z.eqb_neq. eauto.
Qed.

Lemma invalid_statuses_false (s : gset Z) :
  existsb (fun c => negb (is_valid_retryable_status_code c)) (elements s) = false <->
  forall c, c ∈ s -> 100 <= c < 1000 /\ ~ 200 <= c < 300.
Proof.
  rewrite existsb_false_iff. setoid_rewrite elem_of_elements. setoid_rewrite negb_false_iff.
  by setoid_rewrite is_valid_retryable_status_code_spec.
Qed.

Lemma invalid_windows_false (m : gmap Z Z) :
  existsb (fun kv => negb (is_valid_retryable_status_code kv.1)) (map_to_list m) = false <->
  forall c n, m !! c = Some n -> 100 <= c < 1000 /\ ~ 200 <= c < 300.
Proof.
  rewrite existsb_false_iff. setoid_rewrite negb_false_iff.
  setoid_rewrite is_valid_retryable_status_code_spec. split.
  - intros Hm c n Hc. by apply (Hm (c, n)), elem_of_map_to_list.
  - intros Hm [c n] Hin%elem_of_map_to_list. eauto.
Qed.

Lemma validate_valid p : validate p = Ok tt <-> valid_policy p.
Proof.
  unfold validate, duration_is_zero. split.
  - intros Hv. repeat (case_match; [discriminate|]). zbool.
    repeat match goal with
    | Hm : has_zero _ = false |- _ => rewrite has_zero_false in Hm
    | Hm : existsb _ (elements _) = false |- _ => rewrite invalid_statuses_false in Hm
    | Hm : existsb _ (map_to_list _) = false |- _ => rewrite invalid_windows_false in Hm
    | Hm : bool_decide _ = false |- _ => apply bool_decide_eq_false in Hm
    end.
    split; eauto.
  - intros [Ha Hb [Hm Hle] (Hf & Hl & Hh) Hs Hsw Htw Hpw Hbw].
    rewrite (proj2 (Z.eqb_neq _ _) Ha), (proj2 (Z.eqb_neq _ _) Hb), (proj2 (Z.eqb_neq _ _) Hm),
      (proj2 (Z.ltb_ge _ _) Hle), Hf, Hl, Hh; simpl.
    rewrite (proj2 (invalid_statuses_false _) Hs).
    rewrite (proj2 (invalid_windows_false _)) by naive_solver.
    rewrite !(proj2 (has_zero_false _)) by naive_solver.
    by rewrite bool_decide_eq_false_2.
Qed.

End Lemmas.

(** ** Properties *)
Section Properties.
Context `{HttpLaws}.

(** RetryPolicy::validate accepts exactly the policies that satisfy the documented
    constraints on attempts, backoffs, jitter, status codes and retry windows. *)
Lemma validate_iff_valid p : validate p = Ok tt <-> valid_policy p.
Proof. apply validate_valid. Qed.

(** For a validated policy every backoff, at any retry index and whatever the
    jitter sample, is non-negative and at most max_backoff. *)
Lemma validated_backoff_bounded rng p i :
  sampler_ok rng -> is_duration (base_backoff p) -> is_duration (max_backoff p) -> 1 <= i ->
  validate p = Ok tt -> 0 <= backoff_for_retry rng p i <= max_backoff p.
Proof.
  intros Hrng Hb Hm Hi [_ Hb0 [_ Hle] _ _ _ _ _ _]%validate_valid.
  unfold is_duration, Duration in *. pose proof (backoff_delay_bounds i (base_backoff p) (max_backoff p)).
  unfold backoff_for_retry. rewrite exponential_backoff_unjittered by lia.
  apply apply_backoff_jitter_bounds; [done|lia|lia].
Qed.

(** A built-in decision only gets stricter as attempts are used. *)
Lemma retry_decision_antitone p d d' :
  retry_classifier p = None -> reason d' = reason d -> attempt d' <= attempt d ->
  should_retry_decision p d = true -> should_retry_decision p d' = true.
Proof.
  unfold should_retry_decision. intros -> Hr Ha. rewrite Hr.
  destruct (reason d); rewrite !andb_true_iff; intros [-> Hw]; (split; [done|]);
    unfold is_within_retry_window in *; case_match; zbool; try done; apply Z.ltb_lt; lia.
Qed.

End Properties.

(** ** Witnesses *)
Lemma validate_iff_valid_witness : valid_policy standard.
Proof. apply (validate_iff_valid standard). vm_compute. reflexivity. Defined.

Lemma validated_backoff_bounded_witness :
  0 <= backoff_for_retry (fun low _ => low) standard 2 <= max_backoff standard.
Proof.
  apply (validated_backoff_bounded (fun low _ => low) standard 2).
  - intros low high. lia.
  - split; vm_compute; discriminate.
  - split; vm_compute; discriminate.
  - lia.
  - vm_compute. reflexivity.
Defined.
