(* ===== verification/RetryBudget.v ===== *)
(** * Retry budget (resilience.rs, lines 8-149)

    A window of accounting: successes recorded since the window opened buy
    retries at [retry_ratio], on top of [min_retries_per_window].  Each operation
    takes the clock reading it makes under the lock.  The theorems bound the
    retries granted within a window from both sides and show that a new window
    starts from nothing. *)
From Stdlib Require Import Ascii String.
From S2P Require Import Prelude Float64 Float64Facts Text HttpApi Errors Timing.

Module RetryBudget.

Record RetryBudgetPolicy := {
  window : Duration;
  retry_ratio : f64;
  min_retries_per_window : Z;
}.

Definition standard : RetryBudgetPolicy :=
  {| window := duration_from_secs 10; retry_ratio := f64_lit 2 10; min_retries_per_window := 3 |}.

Definition with_window (p : RetryBudgetPolicy) (w : Duration) : RetryBudgetPolicy :=
  {| window := w; retry_ratio := retry_ratio p;
     min_retries_per_window := min_retries_per_window p |}.

Definition with_retry_ratio (p : RetryBudgetPolicy) (r : f64) : RetryBudgetPolicy :=
  {| window := window p; retry_ratio := r;
     min_retries_per_window := min_retries_per_window p |}.

Definition with_min_retries_per_window (p : RetryBudgetPolicy) (n : Z) : RetryBudgetPolicy :=
  {| window := window p; retry_ratio := retry_ratio p; min_retries_per_window := n |}.

Definition invalid_policy `{Http} (p : RetryBudgetPolicy) (message : string) : Error.t :=
  Error.InvalidRetryBudgetPolicy (duration_millis_ceil (window p)) (retry_ratio p)
    (min_retries_per_window p) message.

Definition validate `{Http} (p : RetryBudgetPolicy) : result unit Error.t :=
  if duration_is_zero (window p) then Err (invalid_policy p "window must be greater than zero")
  else if negb (f64_is_finite (retry_ratio p)) ||
          negb (f64_leb f64_zero (retry_ratio p) && f64_leb (retry_ratio p) f64_one)
  then Err (invalid_policy p "retry_ratio must be finite and between 0.0 and 1.0")
  else Ok tt.

Record RetryBudgetState := {
  window_started_at : Instant;
  requests_succeeded : Z;
  retries_consumed : Z;
}.

Definition new (now : Instant) : RetryBudgetState :=
  {| window_started_at := now; requests_succeeded := 0; retries_consumed := 0 |}.

Definition refresh_retry_budget_window (p : RetryBudgetPolicy) (now : Instant)
    (st : RetryBudgetState) : RetryBudgetState :=
  if window p <=? saturating_duration_since now (window_started_at st)
  then {| window_started_at := now; requests_succeeded := 0; retries_consumed := 0 |}
  else st.

Definition record_success (p : RetryBudgetPolicy) (now : Instant) (st : RetryBudgetState)
    : RetryBudgetState :=
  let st := refresh_retry_budget_window p now st in
  {| window_started_at := window_started_at st;
     requests_succeeded := sat_add usize_max (requests_succeeded st) 1;
     retries_consumed := retries_consumed st |}.

Definition total_allowance (p : RetryBudgetPolicy) (st : RetryBudgetState) : Z :=
  let dynamic_allowance :=
    f64_to_uint usize_max (f64_floor (f64_mul (f64_of_Z (requests_succeeded st)) (retry_ratio p))) in
  sat_add usize_max dynamic_allowance (min_retries_per_window p).

Definition try_consume_retry (p : RetryBudgetPolicy) (now : Instant) (st : RetryBudgetState)
    : bool * RetryBudgetState :=
  let st := refresh_retry_budget_window p now st in
  if total_allowance p st <=? retries_consumed st then (false, st)
  else (true, {| window_started_at := window_started_at st;
                 requests_succeeded := requests_succeeded st;
                 retries_consumed := sat_add usize_max (retries_consumed st) 1 |}).

(** ** Traces

    A sequence of calls with the clock readings they make. *)
Inductive op := Success (now : Instant) | Retry (now : Instant).

Definition op_time (o : op) : Instant := match o with Success t | Retry t => t end.

Definition step (p : RetryBudgetPolicy) (o : op) (st : RetryBudgetState) : bool * RetryBudgetState :=
  match o with
  | Success now => (false, record_success p now st)
  | Retry now => try_consume_retry p now st
  end.

(** The retries granted along a trace, and the final state. *)
Fixpoint run (p : RetryBudgetPolicy) (ops : list op) (st : RetryBudgetState) : Z * RetryBudgetState :=
  match ops with
  | [] => (0, st)
  | o :: ops =>
    let '(granted, st) := step p o st in
    let '(n, st) := run p ops st in
    ((if granted then 1 else 0) + n, st)
  end.

Fixpoint successes (ops : list op) : Z :=
  match ops with [] => 0 | Success _ :: ops => 1 + successes ops | Retry _ :: ops => successes ops end.
Fixpoint retries (ops : list op) : Z :=
  match ops with [] => 0 | Retry _ :: ops => 1 + retries ops | Success _ :: ops => retries ops end.

(** ** Lemmas *)
Record wf (p : RetryBudgetPolicy) : Prop := {
  wf_ratio : fin (retry_ratio p) /\ val (retry_ratio p) <= scaled 1 0;
  wf_min : is_usize (min_retries_per_window p);
}.

Lemma budget_validate_wf `{Http} p :
  validate p = Ok tt -> f64_wf (retry_ratio p) -> is_usize (min_retries_per_window p) ->
  wf p /\ window p <> 0.
Proof.
  unfold validate, duration_is_zero. intros Hv Hw Hm. repeat (case_match; [discriminate|]). zbool.
  split; [split; [by apply f64_wf_ratio|done]|done].
Qed.

Lemma refresh_same p now st :
  now - window_started_at st < window p -> 0 < window p ->
  refresh_retry_budget_window p now st = st.
Proof.
  intros Ht Hw. unfold refresh_retry_budget_window, saturating_duration_since, Instant, Duration in *.
  case_match; [|done]. zbool. lia.
Qed.

Lemma total_allowance_bounds p st :
  wf p -> 0 <= requests_succeeded st < 2 ^ 53 ->
  min_retries_per_window p <= total_allowance p st
    <= requests_succeeded st + min_retries_per_window p.
Proof.
  intros [[Hr Hle] Hm] Hs. unfold total_allowance, in_width in *.
  pose proof (f64_scale_down usize_max _ _ Hs ltac:(done) Hr Hle) as Hd.
  unfold sat_add. lia.
Qed.

Lemma successes_retries_length ops :
  0 <= successes ops /\ 0 <= retries ops /\ successes ops + retries ops = Z.of_nat (length ops).
Proof. induction ops as [|[] ops IH]; cbn [successes retries length]; lia. Qed.

(** One call within the current window. *)
Lemma step_in_window p o st :
  wf p -> 0 < window p -> op_time o - window_started_at st < window p ->
  0 <= requests_succeeded st < 2 ^ 53 - 1 -> 0 <= retries_consumed st < 2 ^ 53 ->
  let '(granted, st') := step p o st in
  window_started_at st' = window_started_at st /\
  requests_succeeded st' = requests_succeeded st + successes [o] /\
  retries_consumed st' = retries_consumed st + (if granted then 1 else 0) /\
  (granted = true -> retries_consumed st < total_allowance p st) /\
  (granted = false -> retries [o] = 1 -> total_allowance p st <= retries_consumed st).
Proof.
  intros Hp Hw Ht Hs Hc. destruct o as [now|now]; simpl in *.
  - unfold record_success. rewrite refresh_same by done. simpl.
    rewrite sat_add_exact by (unfold usize_max, u64_max; lia).
    repeat split; try lia; done.
  - unfold try_consume_retry. rewrite refresh_same by done.
    destruct (Z.leb_spec (total_allowance p st) (retries_consumed st)); simpl.
    + repeat split; intros; done || lia.
    + rewrite sat_add_exact by (unfold usize_max, u64_max; lia). repeat split; intros; done || lia.
Qed.

(** A trace within the current window, from any state of it. *)
Lemma run_in_window p ops st :
  wf p -> 0 < window p -> Forall (fun o => op_time o - window_started_at st < window p) ops ->
  0 <= requests_succeeded st -> 0 <= retries_consumed st ->
  requests_succeeded st + Z.of_nat (length ops) < 2 ^ 53 ->
  retries_consumed st + Z.of_nat (length ops) < 2 ^ 53 ->
  let '(n, st') := run p ops st in
  0 <= n /\
  requests_succeeded st' = requests_succeeded st + successes ops /\
  retries_consumed st' = retries_consumed st + n /\
  retries_consumed st' <=
    Z.max (retries_consumed st) (requests_succeeded st' + min_retries_per_window p) /\
  Z.min (retries_consumed st + retries ops) (min_retries_per_window p) <= retries_consumed st'.
Proof.
  intros Hp Hw. revert st. induction ops as [|o ops IH]; intros st Ht Hs Hc Hl Hl'.
  { simpl. lia. }
  apply Forall_cons in Ht as [Ho Ht]. cbn [run]. rewrite length_cons in Hl, Hl'.
  pose proof (step_in_window p o st Hp Hw Ho ltac:(lia) ltac:(lia)) as Hstep.
  destruct (step p o st) as [granted st1]. destruct Hstep as (Hw1 & Hs1 & Hc1 & Hg & Hr).
  pose proof (successes_retries_length [o]) as Hlen1. cbn [length] in Hlen1.
  pose proof (total_allowance_bounds p st Hp ltac:(lia)) as Hallow.
  specialize (IH st1). rewrite Hw1, Hs1, Hc1 in IH.
  destruct (run p ops st1) as [n st2].
  pose proof (successes_retries_length ops).
  assert (successes (o :: ops) = successes [o] + successes ops) as -> by (destruct o; simpl; lia).
  assert (retries (o :: ops) = retries [o] + retries ops) as -> by (destruct o; simpl; lia).
  destruct IH as (Hn & Hs2 & Hc2 & Hb & Hm); [done|lia|destruct granted; lia|lia|destruct granted; lia|].
  destruct granted.
  - specialize (Hg eq_refl). lia.
  - specialize (Hr eq_refl). split; [lia|]. split; [lia|]. split; [lia|]. split; [lia|].
    destruct o; simpl in *; [lia|]. specialize (Hr eq_refl). lia.
Qed.

End RetryBudget.

(** ** Properties *)
Section Properties.
Context `{Http}.
Import RetryBudget.

(** C29: Over any interleaving of fewer than 2^53 successes and retry requests
    inside one window, the retries granted are at least the requested ones up to
    min_retries_per_window and at most the successes plus min_retries_per_window,
    for every accepted floating-point ratio. *)
Theorem retry_budget_window_bounds p started ops :
  validate p = Ok tt -> f64_wf (retry_ratio p) -> is_usize (min_retries_per_window p) ->
  0 <= window p ->
  Forall (fun o => op_time o - started < window p) ops -> Z.of_nat (length ops) < 2 ^ 53 ->
  Z.min (retries ops) (min_retries_per_window p) <= (run p ops (new started)).1
    <= successes ops + min_retries_per_window p.
Proof.
  intros Hv Hw Hm Hw0 Ht Hl. destruct (budget_validate_wf p Hv Hw Hm) as [Hp Hne].
  unfold Duration in *. pose proof (run_in_window p ops (new started) Hp ltac:(lia) Ht) as Hr.
  simpl in Hr. destruct (run p ops (new started)) as [n st]. simpl.
  destruct Hm. pose proof (successes_retries_length ops). lia.
Qed.

(** The first operation at or after the window's end starts a new window at its own
    instant with both counters reset: a retry is then granted exactly when
    min_retries_per_window is positive. *)
Lemma retry_budget_new_window p o st :
  validate p = Ok tt -> f64_wf (retry_ratio p) -> is_usize (min_retries_per_window p) ->
  0 <= window p ->
  window_started_at st + window p <= op_time o ->
  let '(granted, st') := step p o st in
  window_started_at st' = op_time o /\
  requests_succeeded st' = successes [o] /\
  retries_consumed st' = (if granted then 1 else 0) /\
  (retries [o] = 1 -> granted = bool_decide (0 < min_retries_per_window p)).
Proof.
  intros Hv Hw Hm Hw0 Ht. destruct (budget_validate_wf p Hv Hw Hm) as [Hp Hne].
  assert (refresh_retry_budget_window p (op_time o) st = new (op_time o)) as Hr.
  { unfold refresh_retry_budget_window, saturating_duration_since, Instant, Duration in *.
    case_match; [done|]. zbool. lia. }
  pose proof (total_allowance_bounds p (new (op_time o)) Hp ltac:(simpl; lia)) as Ha. simpl in Ha.
  destruct o as [now|now]; simpl in *; unfold record_success, try_consume_retry; rewrite Hr.
  - simpl. by repeat split.
  - destruct (Z.leb_spec (total_allowance p (new now)) (retries_consumed (new now)));
      simpl in *; (repeat split; [..|intros _]).
    + by rewrite bool_decide_eq_false_2 by lia.
    + by rewrite bool_decide_eq_true_2 by lia.
Qed.

End Properties.

(** ** Witnesses *)
Lemma retry_budget_window_bounds_witness :
  let ops := [RetryBudget.Retry 1; RetryBudget.Success 2; RetryBudget.Retry 3; RetryBudget.Retry 4;
              RetryBudget.Retry 5] in
  3 <= (RetryBudget.run RetryBudget.standard ops (RetryBudget.new 0)).1 <= 1 + 3.
Proof.
  apply (retry_budget_window_bounds RetryBudget.standard 0
    [RetryBudget.Retry 1; RetryBudget.Success 2; RetryBudget.Retry 3; RetryBudget.Retry 4; RetryBudget.Retry 5]).
  - vm_compute. reflexivity.
  - f64_concrete.
  - split; vm_compute; discriminate.
  - vm_compute. discriminate.
  - repeat constructor.
  - vm_compute. reflexivity.
Defined.

Lemma retry_budget_new_window_witness :
  let st := {| RetryBudget.window_started_at := 0; RetryBudget.requests_succeeded := 7;
               RetryBudget.retries_consumed := 4 |} in
  RetryBudget.retries_consumed
    (RetryBudget.step RetryBudget.standard (RetryBudget.Retry (duration_from_secs 11)) st).2 = 1.
Proof.
  pose proof (retry_budget_new_window RetryBudget.standard (RetryBudget.Retry (duration_from_secs 11))
    {| RetryBudget.window_started_at := 0; RetryBudget.requests_succeeded := 7;
       RetryBudget.retries_consumed := 4 |}) as Hw.
  destruct Hw as (_ & _ & Hc & _).
  - vm_compute. reflexivity.
  - f64_concrete.
  - split; vm_compute; discriminate.
  - vm_compute. discriminate.
  - vm_compute. discriminate.
  - exact Hc.
Defined.
