(* ===== verification/CircuitBreaker.v ===== *)
(** * Circuit breaker (resilience.rs, lines 151-502)

    The breaker's state machine, the attempts it hands out, and the system of a
    breaker with its live attempts as a step relation.  Every operation runs under
    the breaker's mutex, so operations are atomic steps; those that read the clock
    take the reading [now].  The identity of an [Arc<()>] generation token is an
    allocation number: [Arc::new(())] yields a number never used before, and an
    attempt keeps its token alive, so [Arc::ptr_eq] is equality of numbers. *)
From Stdlib Require Import Ascii String.
From S2P Require Import Prelude Float64 Text HttpApi Errors Timing.

Module CircuitBreaker.

Record CircuitBreakerPolicy := {
  failure_threshold : Z;
  open_timeout : Duration;
  half_open_max_requests : Z;
  half_open_success_threshold : Z;
}.

Definition standard : CircuitBreakerPolicy :=
  {| failure_threshold := 5; open_timeout := duration_from_secs 10;
     half_open_max_requests := 2; half_open_success_threshold := 2 |}.

Definition with_failure_threshold (p : CircuitBreakerPolicy) (v : Z) : CircuitBreakerPolicy :=
  {| failure_threshold := v; open_timeout := open_timeout p;
     half_open_max_requests := half_open_max_requests p;
     half_open_success_threshold := half_open_success_threshold p |}.

Definition with_open_timeout (p : CircuitBreakerPolicy) (v : Duration) : CircuitBreakerPolicy :=
  {| failure_threshold := failure_threshold p; open_timeout := v;
     half_open_max_requests := half_open_max_requests p;
     half_open_success_threshold := half_open_success_threshold p |}.

Definition with_half_open_max_requests (p : CircuitBreakerPolicy) (v : Z) : CircuitBreakerPolicy :=
  {| failure_threshold := failure_threshold p; open_timeout := open_timeout p;
     half_open_max_requests := v;
     half_open_success_threshold := half_open_success_threshold p |}.

Definition with_half_open_success_threshold (p : CircuitBreakerPolicy) (v : Z)
    : CircuitBreakerPolicy :=
  {| failure_threshold := failure_threshold p; open_timeout := open_timeout p;
     half_open_max_requests := half_open_max_requests p;
     half_open_success_threshold := v |}.

Definition validate `{Http} (p : CircuitBreakerPolicy) : result unit Error.t :=
  let invalid := Error.InvalidCircuitBreakerPolicy (failure_threshold p)
    (duration_millis_ceil (open_timeout p)) (half_open_max_requests p)
    (half_open_success_threshold p) in
  if failure_threshold p =? 0 then Err (invalid "failure_threshold must be >= 1")
  else if duration_is_zero (open_timeout p) then Err (invalid "open_timeout must be greater than zero")
  else if half_open_max_requests p =? 0 then Err (invalid "half_open_max_requests must be >= 1")
  else if half_open_success_threshold p =? 0
  then Err (invalid "half_open_success_threshold must be >= 1")
  else Ok tt.

Inductive CircuitAttemptKind := KClosed | KHalfOpen.

#[global] Instance CircuitAttemptKind_eq_dec : EqDecision CircuitAttemptKind.
Proof. solve_decision. Defined.

Abbreviation generation_id := Z.

Inductive CircuitState :=
| Closed (generation : generation_id) (consecutive_failures : Z)
| Open (opened_at : Instant)
| HalfOpen (generation : generation_id) (active_requests successful_requests : Z).

Definition belongs_to (st : CircuitState) (attempt_generation : generation_id) : bool :=
  match st with
  | Closed generation _ | HalfOpen generation _ _ => generation =? attempt_generation
  | Open _ => false
  end.

(** The state behind the mutex, with the allocation counter for generations. *)
Record t := { state : CircuitState; next_generation : generation_id }.

Definition set_state (b : t) (st : CircuitState) : t :=
  {| state := st; next_generation := next_generation b |}.

Record CircuitAttempt := {
  generation : generation_id;
  kind : CircuitAttemptKind;
  completed : bool;
}.

#[global] Instance CircuitAttempt_eq_dec : EqDecision CircuitAttempt.
Proof. solve_decision. Defined.

Section Operations.
Context (policy : CircuitBreakerPolicy).

Definition new : t := {| state := Closed 0 0; next_generation := 1 |}.

Definition begin (now : Instant) (b : t) : result CircuitAttempt Duration * t :=
  match state b with
  | Closed generation _ =>
    (Ok {| generation := generation; kind := KClosed; completed := false |}, b)
  | Open opened_at =>
    let elapsed := saturating_duration_since now opened_at in
    if open_timeout policy <=? elapsed then
      let generation := next_generation b in
      (Ok {| generation := generation; kind := KHalfOpen; completed := false |},
       {| state := HalfOpen generation 1 0; next_generation := generation + 1 |})
    else (Err (open_timeout policy - elapsed), b)
  | HalfOpen generation active_requests successful_requests =>
    if (half_open_max_requests policy <=? active_requests)
       || (half_open_success_threshold policy <=? successful_requests)
    then (Err (duration_from_millis 0), b)
    else
      (Ok {| generation := generation; kind := KHalfOpen; completed := false |},
       set_state b (HalfOpen generation (sat_add usize_max active_requests 1) successful_requests))
  end.

Definition close_half_open_if_recovered (b : t) : t :=
  match state b with
  | HalfOpen _ active_requests successful_requests =>
    if (active_requests =? 0) && (half_open_success_threshold policy <=? successful_requests)
    then {| state := Closed (next_generation b) 0; next_generation := next_generation b + 1 |}
    else b
  | _ => b
  end.

Definition record_success (k : CircuitAttemptKind) (g : generation_id) (b : t) : t :=
  if negb (belongs_to (state b) g) then b
  else match state b, k with
  | Closed generation _, KClosed => set_state b (Closed generation 0)
  | HalfOpen generation active_requests successful_requests, KHalfOpen =>
    close_half_open_if_recovered
      (set_state b (HalfOpen generation (sat_sub active_requests 1)
                      (sat_add usize_max successful_requests 1)))
  | _, _ => b
  end.

Definition record_failure (now : Instant) (k : CircuitAttemptKind) (g : generation_id) (b : t) : t :=
  if negb (belongs_to (state b) g) then b
  else match state b, k with
  | Closed generation consecutive_failures, KClosed =>
    let consecutive_failures := sat_add usize_max consecutive_failures 1 in
    if failure_threshold policy <=? consecutive_failures then set_state b (Open now)
    else set_state b (Closed generation consecutive_failures)
  | HalfOpen _ _ _, KHalfOpen => set_state b (Open now)
  | _, _ => b
  end.

Definition record_cancel (k : CircuitAttemptKind) (g : generation_id) (b : t) : t :=
  if negb (belongs_to (state b) g) then b
  else match state b, k with
  | HalfOpen generation active_requests successful_requests, KHalfOpen =>
    close_half_open_if_recovered
      (set_state b (HalfOpen generation (sat_sub active_requests 1) successful_requests))
  | _, _ => b
  end.

(** ** Attempts: consuming one sets [completed], and its [Drop] runs last. *)
Definition complete (a : CircuitAttempt) : CircuitAttempt :=
  {| generation := generation a; kind := kind a; completed := true |}.

Definition drop (a : CircuitAttempt) (b : t) : t :=
  if completed a then b else record_cancel (kind a) (generation a) b.

Definition mark_success (a : CircuitAttempt) (b : t) : t :=
  drop (complete a) (record_success (kind a) (generation a) b).

Definition mark_failure (now : Instant) (a : CircuitAttempt) (b : t) : t :=
  drop (complete a) (record_failure now (kind a) (generation a) b).

Definition cancel (a : CircuitAttempt) (b : t) : t :=
  drop (complete a) (record_cancel (kind a) (generation a) b).

(** ** The system: a breaker and the attempts that have not ended. *)
Record system := { breaker : t; live : list CircuitAttempt }.

Inductive step : system -> system -> Prop :=
| step_begin now b l a b' :
    begin now b = (Ok a, b') ->
    step {| breaker := b; live := l |} {| breaker := b'; live := a :: l |}
| step_reject now b l d b' :
    begin now b = (Err d, b') ->
    step {| breaker := b; live := l |} {| breaker := b'; live := l |}
| step_success b l1 a l2 :
    step {| breaker := b; live := l1 ++ a :: l2 |}
         {| breaker := mark_success a b; live := l1 ++ l2 |}
| step_failure now b l1 a l2 :
    step {| breaker := b; live := l1 ++ a :: l2 |}
         {| breaker := mark_failure now a b; live := l1 ++ l2 |}
| step_cancel b l1 a l2 :
    step {| breaker := b; live := l1 ++ a :: l2 |}
         {| breaker := cancel a b; live := l1 ++ l2 |}
| step_drop b l1 a l2 :
    step {| breaker := b; live := l1 ++ a :: l2 |}
         {| breaker := drop a b; live := l1 ++ l2 |}.

Definition initial : system := {| breaker := new; live := [] |}.
Definition reachable (s : system) : Prop := rtc step initial s.

(** The live attempts of a generation. *)
Definition of_generation (g : generation_id) (l : list CircuitAttempt) : list CircuitAttempt :=
  filter (fun a => generation a = g) l.
Definition probes (g : generation_id) (l : list CircuitAttempt) : Z :=
  Z.of_nat (length (of_generation g l)).

(** One request after another: each begins, and ends with success or failure at
    the instant [now]. *)
Definition request (o : Instant * bool) (b : t) : t :=
  let '(now, ok) := o in
  match begin now b with
  | (Ok a, b) => if ok then mark_success a b else mark_failure now a b
  | (Err _, b) => b
  end.

Definition run_requests (os : list (Instant * bool)) (b : t) : t := fold_left (fun b o => request o b) os b.

(** The failures since the last success. *)
Definition streak (os : list (Instant * bool)) : Z :=
  fold_left (fun n (o : Instant * bool) => if o.2 then 0 else n + 1) os 0.

(** ** Invariant *)
Definition kinds_of (k : CircuitAttemptKind) (g : generation_id) (l : list CircuitAttempt) : Prop :=
  Forall (fun a => generation a = g -> kind a = k) l.

Definition state_inv (b : t) (l : list CircuitAttempt) : Prop :=
  match state b with
  | Closed g f => g < next_generation b /\ 0 <= f < failure_threshold policy /\ kinds_of KClosed g l
  | Open _ => True
  | HalfOpen g active successes =>
    g < next_generation b /\ kinds_of KHalfOpen g l /\
    active = probes g l /\ active <= half_open_max_requests policy /\
    is_usize successes /\
    (active = 0 -> successes < half_open_success_threshold policy)
  end.

Definition inv (s : system) : Prop :=
  Forall (fun a => generation a < next_generation (breaker s) /\ completed a = false) (live s) /\
  state_inv (breaker s) (live s).

End Operations.

Record wf (p : CircuitBreakerPolicy) : Prop := {
  wf_failure : 1 <= failure_threshold p <= usize_max;
  wf_timeout : 0 < open_timeout p;
  wf_probes : 1 <= half_open_max_requests p <= usize_max;
  wf_successes : 1 <= half_open_success_threshold p <= usize_max;
}.

(** ** Lemmas *)
#[global] Instance probes_perm g : Proper ((≡ₚ) ==> (=)) (probes g).
Proof. intros l l' Hl. unfold probes, of_generation. by rewrite Hl. Qed.

Lemma probes_cons_eq g a l : generation a = g -> probes g (a :: l) = probes g l + 1.
Proof. intros. unfold probes, of_generation. rewrite filter_cons_True by done. simpl. lia. Qed.

Lemma probes_cons_ne g a l : generation a <> g -> probes g (a :: l) = probes g l.
Proof. intros. unfold probes, of_generation. by rewrite filter_cons_False. Qed.

Lemma probes_nonneg g l : 0 <= probes g l.
Proof. unfold probes. lia. Qed.

Lemma probes_fresh g l : Forall (fun a => generation a < g) l -> probes g l = 0.
Proof.
  induction 1 as [|a l Ha Hl IH]; [done|]. by rewrite probes_cons_ne by lia.
Qed.

Lemma kinds_of_fresh k g l : Forall (fun a => generation a < g) l -> kinds_of k g l.
Proof. intros Hl. eapply Forall_impl; [done|]. simpl. lia. Qed.

#[global] Instance state_inv_perm p b : Proper ((≡ₚ) ==> iff) (state_inv p b).
Proof. intros l l' Hl. unfold state_inv, kinds_of. destruct (state b); by rewrite ?Hl. Qed.

Definition older (b : t) (l : list CircuitAttempt) : Prop :=
  Forall (fun a => generation a < next_generation b) l.

Lemma breaker_validate_wf `{Http} p :
  validate p = Ok tt -> is_usize (failure_threshold p) -> 0 <= open_timeout p ->
  is_usize (half_open_max_requests p) -> is_usize (half_open_success_threshold p) -> wf p.
Proof.
  unfold validate, duration_is_zero, in_width. intros Hv ????. repeat (case_match; [discriminate|]).
  zbool. unfold Duration in *. split; lia.
Qed.

Section Preservation.
Context (p : CircuitBreakerPolicy) (Hp : wf p).

(** Ending an attempt of another generation keeps the invariant. *)
Lemma state_inv_stale b a l :
  belongs_to (state b) (generation a) = false -> state_inv p b (a :: l) -> state_inv p b l.
Proof.
  unfold state_inv, kinds_of. destruct (state b) as [g f|t0|g n s]; simpl; [| done |].
  - rewrite Forall_cons. tauto.
  - intros Hne Hi. zbool. rewrite Forall_cons, probes_cons_ne in Hi by lia. tauto.
Qed.

Definition ends (b b' : t) (l : list CircuitAttempt) : Prop :=
  state_inv p b' l /\ next_generation b <= next_generation b'.

Lemma close_inv b g active successes l :
  older b l -> g < next_generation b -> kinds_of KHalfOpen g l -> active = probes g l ->
  active <= half_open_max_requests p -> is_usize successes ->
  ends b (close_half_open_if_recovered p (set_state b (HalfOpen g active successes))) l.
Proof.
  intros Ho Hg Hk Ha Hm Hs. unfold ends, close_half_open_if_recovered. simpl.
  destruct ((active =? 0) && _) eqn:Hc; unfold state_inv; simpl.
  - pose proof (wf_failure p Hp). split; [|lia]. split; [lia|]. split; [lia|].
    by apply kinds_of_fresh.
  - apply andb_false_iff in Hc. unfold in_width in *. split; [|lia].
    destruct Hc; zbool; repeat split; done || lia.
Qed.

Lemma record_success_inv b a l :
  older b l -> state_inv p b (a :: l) -> ends b (record_success p (kind a) (generation a) b) l.
Proof.
  intros Ho Hi. unfold record_success. destruct (belongs_to _ _) eqn:Hb; simpl;
    [|split; [by eapply state_inv_stale|lia]].
  unfold state_inv in Hi. destruct (state b) as [g f|t0|g n s] eqn:Hst; simpl in Hb; [| done |].
  - destruct Hi as (Hg & Hf & [Hka Hk]%Forall_cons). zbool. subst g. rewrite Hka by done.
    unfold ends, state_inv; simpl.
    pose proof (wf_failure p Hp). repeat split; done || lia.
  - destruct Hi as (Hg & [Hka Hk]%Forall_cons & Hn & Hm & Hs & _). zbool. subst g.
    rewrite Hka by done. rewrite probes_cons_eq in Hn by done. pose proof (probes_nonneg (generation a) l).
    apply close_inv; [done|done|done| | |by apply sat_add_width].
    + unfold sat_sub. lia.
    + unfold sat_sub. lia.
Qed.

Lemma record_cancel_inv b a l :
  older b l -> state_inv p b (a :: l) -> ends b (record_cancel p (kind a) (generation a) b) l.
Proof.
  intros Ho Hi. unfold record_cancel. destruct (belongs_to _ _) eqn:Hb; simpl;
    [|split; [by eapply state_inv_stale|lia]].
  unfold state_inv in Hi. destruct (state b) as [g f|t0|g n s] eqn:Hst; simpl in Hb; [| done |].
  - destruct Hi as (Hg & Hf & [Hka Hk]%Forall_cons).
    unfold ends, state_inv. by rewrite Hst.
  - destruct Hi as (Hg & [Hka Hk]%Forall_cons & Hn & Hm & Hs & _). zbool. subst g.
    rewrite Hka by done. rewrite probes_cons_eq in Hn by done. pose proof (probes_nonneg (generation a) l).
    apply close_inv; [done|done|done| | |done].
    + unfold sat_sub. lia.
    + unfold sat_sub. lia.
Qed.

Lemma record_failure_inv now b a l :
  state_inv p b (a :: l) -> ends b (record_failure p now (kind a) (generation a) b) l.
Proof.
  intros Hi. unfold record_failure. destruct (belongs_to _ _) eqn:Hb; simpl;
    [|split; [by eapply state_inv_stale|lia]].
  unfold state_inv in Hi. destruct (state b) as [g f|t0|g n s] eqn:Hst; simpl in Hb; [| done |].
  - destruct Hi as (Hg & Hf & [Hka Hk]%Forall_cons). zbool. subst g. rewrite Hka by done.
    pose proof (wf_failure p Hp). rewrite sat_add_exact by lia.
    unfold ends, state_inv. destruct (Z.leb_spec (failure_threshold p) (f + 1)); simpl;
      repeat split; done || lia.
  - destruct Hi as (Hg & [Hka Hk]%Forall_cons & _). zbool. subst g. by rewrite Hka.
Qed.

Lemma begin_inv now b l :
  older b l -> state_inv p b l ->
  match begin p now b with
  | (Ok a, b') => ends b b' (a :: l) /\ generation a < next_generation b' /\ completed a = false
  | (Err _, b') => b' = b
  end.
Proof.
  intros Ho Hi. unfold begin, ends, state_inv in *. destruct (state b) as [g f|t0|g n s] eqn:Hst.
  - rewrite Hst. simpl. destruct Hi as (Hg & Hf & Hk). repeat split; try lia; try done.
    by apply Forall_cons.
  - destruct (_ <=? _); [|done]. simpl.
    assert (Forall (fun a => generation a < next_generation b) l) as Ho' by done.
    pose proof (wf_probes p Hp). pose proof (wf_successes p Hp).
    repeat split; try lia; try done.
    + apply Forall_cons. split; [done|by apply kinds_of_fresh].
    + by rewrite probes_cons_eq, probes_fresh.
  - destruct (_ || _) eqn:Hc; [done|]. zbool. destruct Hi as (Hg & Hk & Hn & Hm & Hs & Hz). simpl.
    pose proof (wf_probes p Hp). rewrite sat_add_exact by lia.
    pose proof (probes_nonneg g l).
    repeat split; try lia; try done.
    + by apply Forall_cons.
    + rewrite probes_cons_eq by done. lia.
    + apply Hs.
    + apply Hs.
Qed.

Lemma inv_initial : inv p initial.
Proof.
  split; [done|]. unfold state_inv. simpl. pose proof (wf_failure p Hp).
  repeat split; try lia. by apply kinds_of_fresh.
Qed.

Lemma inv_end b b' l a l' :
  l ≡ₚ a :: l' ->
  (older b l' -> state_inv p b (a :: l') -> ends b b' l') ->
  inv p {| breaker := b; live := l |} -> inv p {| breaker := b'; live := l' |}.
Proof.
  intros Hl Hend [Hlive Hi]. simpl in *. rewrite Hl in Hlive. rewrite Hl in Hi.
  apply Forall_cons in Hlive as [_ Hlive].
  destruct Hend as [Hi' Hn]; [|done|].
  - eapply Forall_impl; [done|]. naive_solver.
  - split; [|done]. eapply Forall_impl; [done|]. simpl. intros x [? ?]. split; [lia|done].
Qed.

Lemma breaker_inv_step s s' : step p s s' -> inv p s -> inv p s'.
Proof.
  intros Hstep. destruct Hstep as [now b l a b' Hb|now b l d b' Hb|b l1 a l2|now b l1 a l2|b l1 a l2|b l1 a l2].
  - intros [Hl Hi]. simpl in *. pose proof (begin_inv now b l) as Hbi. rewrite Hb in Hbi.
    destruct Hbi as ([Hi' Hn] & Hg & Hc); [|done|].
    { eapply Forall_impl; [done|]. naive_solver. }
    split; [|done]. apply Forall_cons. split; [done|].
    eapply Forall_impl; [done|]. simpl. intros x [? ?]. split; [lia|done].
  - intros [Hl Hi]. simpl in *. pose proof (begin_inv now b l) as Hbi. rewrite Hb in Hbi.
    rewrite Hbi; [done| |done]. eapply Forall_impl; [done|]. naive_solver.
  - eapply inv_end; [symmetry; apply Permutation_middle|]. apply record_success_inv.
  - eapply inv_end; [symmetry; apply Permutation_middle|]. intros _. apply record_failure_inv.
  - eapply inv_end; [symmetry; apply Permutation_middle|]. apply record_cancel_inv.
  - intros Hi. assert (completed a = false) as Hc.
    { destruct Hi as [Hl _]. simpl in Hl. rewrite Forall_app, Forall_cons in Hl. tauto. }
    revert Hi. eapply inv_end; [symmetry; apply Permutation_middle|].
    unfold drop. rewrite Hc. apply record_cancel_inv.
Qed.

Lemma breaker_inv_reachable s : reachable p s -> inv p s.
Proof.
  apply rtc_invariant; [apply inv_initial|apply breaker_inv_step].
Qed.

End Preservation.

(** ** Stale generations *)
Lemma stale_unchanged p now a b :
  belongs_to (state b) (generation a) = false -> completed a = false ->
  mark_success p a b = b /\ mark_failure p now a b = b /\ cancel p a b = b /\ drop p a b = b.
Proof.
  intros Hb Hc. unfold mark_success, mark_failure, cancel, drop, record_success, record_failure,
    record_cancel. rewrite Hc, Hb. done.
Qed.

(** A generation that has been left is never current again. *)
Definition retired (g : generation_id) (b : t) : Prop :=
  g < next_generation b /\ belongs_to (state b) g = false.

Lemma close_retired p g b : retired g b -> retired g (close_half_open_if_recovered p b).
Proof.
  unfold retired, close_half_open_if_recovered. intros [Hg Hb].
  destruct (state b) as [| |g' n s] eqn:Hst; [by rewrite Hst|by rewrite Hst|].
  case_match; [|by rewrite Hst]. simpl. split; [lia|]. apply Z.eqb_neq. lia.
Qed.

Lemma set_state_retired g b st :
  retired g b -> belongs_to st g = belongs_to (state b) g -> retired g (set_state b st).
Proof. unfold retired. simpl. by intros [? ->] ->. Qed.

Lemma record_retired p now k g' g b :
  retired g b ->
  retired g (record_success p k g' b) /\ retired g (record_failure p now k g' b) /\
  retired g (record_cancel p k g' b).
Proof.
  intros Hr. unfold record_success, record_failure, record_cancel.
  destruct (belongs_to (state b) g'); simpl; [|done].
  destruct (state b) as [g0 f|t0|g0 n s] eqn:Hst, k; try done.
  - split_and!; [| |done].
    + apply set_state_retired; [done|by rewrite Hst].
    + pose proof (set_state_retired g b (Closed g0 (sat_add usize_max f 1)) Hr).
      rewrite Hst in *. case_match; [by destruct Hr|auto].
  - split_and!; [apply close_retired, set_state_retired; [done|by rewrite Hst]|by destruct Hr|].
    apply close_retired, set_state_retired; [done|by rewrite Hst].
Qed.

Lemma step_retired p g s s' : step p s s' -> retired g (breaker s) -> retired g (breaker s').
Proof.
  intros Hstep Hr. destruct Hstep as [now b l a b' Hb|now b l d b' Hb|b l1 a l2|now b l1 a l2|b l1 a l2|b l1 a l2];
    simpl in *.
  1-2: unfold begin in Hb; destruct (state b) eqn:Hst; repeat case_match; simplify_eq; try done.
  1: unfold retired in *; simpl; split; [lia|]; apply Z.eqb_neq; lia.
  1: apply set_state_retired; [done|by rewrite Hst].
  all: unfold mark_success, mark_failure, cancel, drop; simpl; try case_match; try done.
  all: by apply (record_retired p 0) || by apply record_retired.
Qed.

(** ** Sequential requests *)
Lemma streak_snoc os o : streak (os ++ [o]) = if o.2 then 0 else streak os + 1.
Proof. unfold streak. by rewrite fold_left_app. Qed.

Lemma streak_nonneg os : 0 <= streak os.
Proof. induction os as [|o os IH] using rev_ind; [done|]. rewrite streak_snoc. case_match; lia. Qed.

Lemma request_closed p g f now ok n :
  request p (now, ok) {| state := Closed g f; next_generation := n |} =
  {| state := if ok then Closed g 0
              else if failure_threshold p <=? sat_add usize_max f 1 then Open now
              else Closed g (sat_add usize_max f 1);
     next_generation := n |}.
Proof.
  unfold request, begin, mark_success, mark_failure, drop, record_success, record_failure, set_state.
  simpl. rewrite Z.eqb_refl. simpl. destruct ok; [done|]. by case_match.
Qed.

Lemma run_requests_closed p os :
  1 <= failure_threshold p <= usize_max ->
  (forall os' rest, os = os' ++ rest -> streak os' < failure_threshold p) ->
  run_requests p os new = {| state := Closed 0 (streak os); next_generation := 1 |}.
Proof.
  intros Ht. induction os as [|[now ok] os IH] using rev_ind; [done|]. intros Hpre.
  unfold run_requests in *. rewrite fold_left_app, IH; cbn [fold_left].
  - rewrite request_closed, streak_snoc. simpl. destruct ok; [done|].
    pose proof (streak_nonneg os). specialize (Hpre (os ++ [(now, false)]) [] (eq_sym (app_nil_r _))).
    rewrite streak_snoc in Hpre. simpl in Hpre.
    rewrite sat_add_exact by lia. destruct (Z.leb_spec (failure_threshold p) (streak os + 1)); [lia|done].
  - intros os' rest ->. apply (Hpre os' (rest ++ [(now, ok)])). by rewrite app_assoc.
Qed.

End CircuitBreaker.

(** ** Properties *)
Section Properties.
Context `{Http}.
Import CircuitBreaker.

Context (p : CircuitBreakerPolicy).

(** The policies a client builder accepts, with fields in range. *)
Definition accepted : Prop :=
  validate p = Ok tt /\ is_usize (failure_threshold p) /\ 0 <= open_timeout p /\
  is_usize (half_open_max_requests p) /\ is_usize (half_open_success_threshold p).

Lemma accepted_wf : accepted -> wf p.
Proof. intros (? & ? & ? & ? & ?). by apply breaker_validate_wf. Qed.

(** C20: In every reachable half-open state of an accepted circuit breaker the
    active counter is exactly the number of unfinished attempts of the current
    generation, all of them half-open probes, and they never exceed
    half_open_max_requests. *)
Theorem breaker_probe_limit s g active successes :
  accepted -> reachable p s -> state (breaker s) = HalfOpen g active successes ->
  active = probes g (live s) /\ probes g (live s) <= half_open_max_requests p /\
  Forall (fun a => generation a = g -> kind a = KHalfOpen) (live s).
Proof.
  intros Hp%accepted_wf [_ Hi]%breaker_inv_reachable Hst; [|done].
  unfold state_inv in Hi. rewrite Hst in Hi. destruct Hi as (_ & Hk & Ha & Hm & _).
  split; [done|]. split; [lia|done].
Qed.

(** C21: A circuit breaker is never stuck rejecting: in every reachable state with
    no unfinished attempt there is an instant from which on begin admits a request.
    *)
Theorem breaker_never_wedged s :
  accepted -> reachable p s -> live s = [] ->
  exists t0, forall now, t0 <= now -> is_ok (begin p now (breaker s)).1 = true.
Proof.
  intros Hp%accepted_wf [_ Hi]%breaker_inv_reachable Hl; [|done].
  unfold state_inv in Hi. rewrite Hl in Hi. unfold begin.
  destruct (state (breaker s)) as [g f|t0|g n m].
  - by exists 0.
  - exists (t0 + open_timeout p). intros now Hn. destruct Hp.
    unfold saturating_duration_since, Instant, Duration in *.
    destruct (Z.leb_spec (open_timeout p) (Z.max (now - t0) 0)); [done|lia].
  - destruct Hi as (_ & _ & Hn & _ & _ & Hz). destruct Hp. exists 0. intros now _.
    change (probes g []) with 0 in Hn. specialize (Hz Hn).
    rewrite (proj2 (Z.leb_gt _ n)), (proj2 (Z.leb_gt _ m)) by lia. done.
Qed.

(** Once an attempt's generation is over, it stays over: in every later state
    its success, failure, cancellation or drop leaves the breaker exactly as it was.
    *)
Lemma breaker_stale_outcome_ignored s s' a now :
  accepted -> reachable p s -> a ∈ live s -> belongs_to (state (breaker s)) (generation a) = false ->
  rtc (step p) s s' ->
  mark_success p a (breaker s') = breaker s' /\ mark_failure p now a (breaker s') = breaker s' /\
  cancel p a (breaker s') = breaker s' /\ drop p a (breaker s') = breaker s'.
Proof.
  intros Hp%accepted_wf [Hl _]%breaker_inv_reachable Ha Hb Hs; [|done].
  rewrite Forall_forall in Hl. destruct (Hl a Ha) as [Hg Hc].
  apply stale_unchanged; [|done].
  eapply (rtc_invariant (step p) (fun s => retired (generation a) (breaker s))); [| |done].
  - by split.
  - intros x y. apply step_retired.
Qed.

(** An open breaker rejects, with exactly the remaining time, until open_timeout
    has elapsed since it opened; from then on the next request is admitted as the
    first probe of a fresh half-open generation. *)
Lemma breaker_open_rejects_until_timeout b opened_at now :
  state b = Open opened_at -> opened_at <= now -> 0 < open_timeout p ->
  begin p now b =
  if now <? opened_at + open_timeout p
  then (Err (opened_at + open_timeout p - now), b)
  else (Ok {| generation := next_generation b; kind := KHalfOpen; completed := false |},
        {| state := HalfOpen (next_generation b) 1 0; next_generation := next_generation b + 1 |}).
Proof.
  intros Hst Ho Hp. unfold begin. rewrite Hst.
  unfold saturating_duration_since, Instant, Duration in *. rewrite Z.max_l by lia.
  destruct (Z.leb_spec (open_timeout p) (now - opened_at)),
    (Z.ltb_spec now (opened_at + open_timeout p)); try lia; [done|].
  do 2 f_equal. lia.
Qed.

(** Run over any sequence of sequential requests, a closed breaker counts the
    failures since the last success and opens, at the instant of the failure,
    exactly when that streak first reaches failure_threshold. *)
Lemma breaker_opens_at_threshold os now ok :
  accepted ->
  (forall os' rest, os = os' ++ rest -> streak os' < failure_threshold p) ->
  state (run_requests p (os ++ [(now, ok)]) new) =
  if streak (os ++ [(now, ok)]) <? failure_threshold p
  then Closed 0 (streak (os ++ [(now, ok)]))
  else Open now.
Proof.
  intros Hp%accepted_wf Hpre. destruct Hp as [Ht _ _ _]. pose proof (streak_nonneg os).
  pose proof (run_requests_closed p os Ht Hpre) as Hr. unfold run_requests in *.
  specialize (Hpre os [] (eq_sym (app_nil_r _))).
  rewrite fold_left_app, Hr. cbn [fold_left]. rewrite request_closed, streak_snoc. simpl.
  destruct ok; simpl.
  - destruct (Z.ltb_spec 0 (failure_threshold p)); [done|lia].
  - rewrite sat_add_exact by lia.
    destruct (Z.leb_spec (failure_threshold p) (streak os + 1)),
      (Z.ltb_spec (streak os + 1) (failure_threshold p)); done || lia.
Qed.

(** What the end of a probe does in any reachable half-open state: success and
    cancellation release its slot and close the circuit (under a fresh generation)
    exactly when no probe is left and the success threshold is met, dropping is
    cancelling, and a failure reopens the circuit at once. *)
Lemma breaker_probe_outcomes b l1 a l2 g active successes now :
  accepted -> reachable p {| breaker := b; live := l1 ++ a :: l2 |} ->
  state b = HalfOpen g active successes -> generation a = g ->
  let left := probes g (l1 ++ l2) in
  let ended n :=
    if (left =? 0) && (half_open_success_threshold p <=? n)
    then Closed (next_generation b) 0 else HalfOpen g left n in
  state (mark_success p a b) = ended (sat_add usize_max successes 1) /\
  state (cancel p a b) = ended successes /\
  drop p a b = cancel p a b /\
  state (mark_failure p now a b) = Open now.
Proof.
  intros Hp%accepted_wf [Hl Hi]%breaker_inv_reachable Hst Hg left ended; [|done]. simpl in *.
  unfold state_inv in Hi. rewrite Hst in Hi. destruct Hi as (_ & Hk & Ha & _).
  rewrite Forall_app, Forall_cons in Hl. destruct Hl as (_ & [_ Hc] & _).
  assert (kind a = KHalfOpen) as Hka.
  { unfold kinds_of in Hk. rewrite Forall_app, Forall_cons in Hk. by apply Hk. }
  assert (sat_sub active 1 = left) as Hleft.
  { rewrite <- Permutation_middle, probes_cons_eq in Ha by done.
    pose proof (probes_nonneg g (l1 ++ l2)). unfold sat_sub, left. lia. }
  unfold mark_success, mark_failure, cancel, drop, record_success, record_failure, record_cancel,
    close_half_open_if_recovered, ended. rewrite Hc, Hka, Hst, Hg. simpl. rewrite Z.eqb_refl, Hleft. simpl.
  split_and!; [by case_match|by case_match|done|done].
Qed.

End Properties.

(** ** Witnesses

    A breaker that opens at its first failure and probes one request at a time. *)
Module BreakerDemo.
Import CircuitBreaker.

Definition policy : CircuitBreakerPolicy :=
  {| failure_threshold := 1; open_timeout := 10; half_open_max_requests := 1;
     half_open_success_threshold := 1 |}.

Definition first : CircuitAttempt := {| generation := 0; kind := KClosed; completed := false |}.
Definition probe : CircuitAttempt := {| generation := 1; kind := KHalfOpen; completed := false |}.

(** Opened by [first] at 5 while another attempt of the same cycle was running. *)
Definition opened : system :=
  {| breaker := {| state := Open 5; next_generation := 1 |}; live := [first] |}.
Definition probing : system :=
  {| breaker := {| state := HalfOpen 1 1 0; next_generation := 2 |}; live := [probe; first] |}.

Lemma breaker_policy_accepted : accepted policy.
Proof. repeat split; vm_compute; (reflexivity || discriminate). Qed.

Lemma opened_reachable : reachable policy opened.
Proof.
  eapply rtc_l; [exact (step_begin policy 0 new [] first new eq_refl)|].
  eapply rtc_l; [exact (step_begin policy 0 new [first] first new eq_refl)|].
  apply rtc_once. exact (step_failure policy 5 new [] first [first]).
Qed.

Lemma probing_reachable : reachable policy probing.
Proof.
  eapply rtc_r; [exact opened_reachable|].
  exact (step_begin policy 20 (breaker opened) [first] probe (breaker probing) eq_refl).
Qed.

End BreakerDemo.

Lemma breaker_probe_limit_witness :
  1 = CircuitBreaker.probes 1 (CircuitBreaker.live BreakerDemo.probing) /\
  CircuitBreaker.probes 1 (CircuitBreaker.live BreakerDemo.probing) <= 1.
Proof.
  destruct (breaker_probe_limit BreakerDemo.policy BreakerDemo.probing 1 1 0 BreakerDemo.breaker_policy_accepted
    BreakerDemo.probing_reachable eq_refl) as (Ha & Hm & _). exact (conj Ha Hm).
Defined.

Lemma breaker_never_wedged_witness :
  exists t0, forall now, t0 <= now ->
    is_ok (CircuitBreaker.begin BreakerDemo.policy now
      (CircuitBreaker.breaker CircuitBreaker.initial)).1 = true.
Proof.
  exact (breaker_never_wedged BreakerDemo.policy CircuitBreaker.initial BreakerDemo.breaker_policy_accepted
    (rtc_refl _ _) eq_refl).
Defined.

Lemma breaker_stale_outcome_ignored_witness :
  CircuitBreaker.mark_failure BreakerDemo.policy 30 BreakerDemo.first
    (CircuitBreaker.breaker BreakerDemo.probing) = CircuitBreaker.breaker BreakerDemo.probing.
Proof.
  refine (proj1 (proj2 (breaker_stale_outcome_ignored BreakerDemo.policy BreakerDemo.opened
    BreakerDemo.probing BreakerDemo.first 30 BreakerDemo.breaker_policy_accepted BreakerDemo.opened_reachable
    _ eq_refl _))).
  - apply list_elem_of_here.
  - apply rtc_once.
    exact (CircuitBreaker.step_begin BreakerDemo.policy 20 (CircuitBreaker.breaker BreakerDemo.opened)
      [BreakerDemo.first] BreakerDemo.probe (CircuitBreaker.breaker BreakerDemo.probing) eq_refl).
Defined.

Lemma breaker_open_rejects_until_timeout_witness :
  CircuitBreaker.begin BreakerDemo.policy 12 (CircuitBreaker.breaker BreakerDemo.opened) =
  (Err 3, CircuitBreaker.breaker BreakerDemo.opened).
Proof.
  rewrite (breaker_open_rejects_until_timeout BreakerDemo.policy (CircuitBreaker.breaker BreakerDemo.opened) 5 12);
    [reflexivity|reflexivity|vm_compute; discriminate|reflexivity].
Defined.

Lemma breaker_opens_at_threshold_witness :
  CircuitBreaker.state (CircuitBreaker.run_requests CircuitBreaker.standard
    [(1, false); (2, false); (3, true); (4, false)] CircuitBreaker.new) = CircuitBreaker.Closed 0 1.
Proof.
  refine (eq_trans (breaker_opens_at_threshold CircuitBreaker.standard
    [(1, false); (2, false); (3, true)] 4 false _ _) eq_refl).
  - repeat split; vm_compute; (reflexivity || discriminate).
  - intros os' rest Heq. destruct os' as [|? [|? [|? [|? os']]]]; simplify_eq/=; done.
Defined.

Lemma breaker_probe_outcomes_witness :
  CircuitBreaker.state (CircuitBreaker.mark_success BreakerDemo.policy BreakerDemo.probe
    (CircuitBreaker.breaker BreakerDemo.probing)) = CircuitBreaker.Closed 2 0.
Proof.
  exact (proj1 (breaker_probe_outcomes BreakerDemo.policy (CircuitBreaker.breaker BreakerDemo.probing) []
    BreakerDemo.probe [BreakerDemo.first] 1 1 0 30 BreakerDemo.breaker_policy_accepted
    BreakerDemo.probing_reachable eq_refl eq_refl)).
Defined.
