(* ===== verification/Adaptive.v ===== *)
(** * Adaptive concurrency (resilience.rs lines 504-718, blocking_client/mod.rs
    lines 32-139, async_client/adaptive.rs)

    The limit's additive increase and multiplicative decrease, the permits, and the
    two controllers: the blocking one with a condition variable, the asynchronous
    one with a [Notify].  A controller with its waiting callers is a step relation
    whose steps are the critical sections of the mutex. *)
From Stdlib Require Import Ascii String.
From S2P Require Import Prelude Float64 Float64Facts Text HttpApi Errors Timing.

Module Adaptive.

Record AdaptiveConcurrencyPolicy := {
  min_limit : Z;
  initial_limit : Z;
  max_limit : Z;
  increase_step : Z;
  decrease_ratio : f64;
  high_latency_threshold : Duration;
}.

Record AdaptiveConcurrencyState := {
  in_flight : Z;
  current_limit : Z;
  ewma_latency_ms : f64;
}.

Inductive AdaptiveConcurrencyOutcome := Success | Failure.

Definition standard : AdaptiveConcurrencyPolicy :=
  {| min_limit := 1; initial_limit := 8; max_limit := 64; increase_step := 1;
     decrease_ratio := f64_lit 8 10; high_latency_threshold := duration_from_millis 300 |}.

Definition with_min_limit (p : AdaptiveConcurrencyPolicy) (v : Z)
    : AdaptiveConcurrencyPolicy :=
  {| min_limit := v;
     initial_limit := initial_limit p;
     max_limit := max_limit p;
     increase_step := increase_step p;
     decrease_ratio := decrease_ratio p;
     high_latency_threshold := high_latency_threshold p |}.

Definition with_initial_limit (p : AdaptiveConcurrencyPolicy) (v : Z)
    : AdaptiveConcurrencyPolicy :=
  {| min_limit := min_limit p;
     initial_limit := v;
     max_limit := max_limit p;
     increase_step := increase_step p;
     decrease_ratio := decrease_ratio p;
     high_latency_threshold := high_latency_threshold p |}.

Definition with_max_limit (p : AdaptiveConcurrencyPolicy) (v : Z)
    : AdaptiveConcurrencyPolicy :=
  {| min_limit := min_limit p;
     initial_limit := initial_limit p;
     max_limit := v;
     increase_step := increase_step p;
     decrease_ratio := decrease_ratio p;
     high_latency_threshold := high_latency_threshold p |}.

Definition with_increase_step (p : AdaptiveConcurrencyPolicy) (v : Z)
    : AdaptiveConcurrencyPolicy :=
  {| min_limit := min_limit p;
     initial_limit := initial_limit p;
     max_limit := max_limit p;
     increase_step := v;
     decrease_ratio := decrease_ratio p;
     high_latency_threshold := high_latency_threshold p |}.

Definition with_decrease_ratio (p : AdaptiveConcurrencyPolicy) (v : f64)
    : AdaptiveConcurrencyPolicy :=
  {| min_limit := min_limit p;
     initial_limit := initial_limit p;
     max_limit := max_limit p;
     increase_step := increase_step p;
     decrease_ratio := v;
     high_latency_threshold := high_latency_threshold p |}.

Definition with_high_latency_threshold (p : AdaptiveConcurrencyPolicy) (v : Duration)
    : AdaptiveConcurrencyPolicy :=
  {| min_limit := min_limit p;
     initial_limit := initial_limit p;
     max_limit := max_limit p;
     increase_step := increase_step p;
     decrease_ratio := decrease_ratio p;
     high_latency_threshold := v |}.

Definition validate `{Http} (p : AdaptiveConcurrencyPolicy) : result unit Error.t :=
  let invalid :=
    Error.InvalidAdaptiveConcurrencyPolicy (min_limit p) (initial_limit p) (max_limit p) in
  if min_limit p =? 0 then Err (invalid "min_limit must be >= 1")
  else if max_limit p =? 0 then Err (invalid "max_limit must be >= 1")
  else if initial_limit p =? 0 then Err (invalid "initial_limit must be >= 1")
  else if increase_step p =? 0 then Err (invalid "increase_step must be >= 1")
  else if duration_is_zero (high_latency_threshold p)
  then Err (invalid "high_latency_threshold must be greater than zero")
  else if negb (f64_is_finite (decrease_ratio p)) ||
          negb (f64_leb f64_zero (decrease_ratio p) && f64_ltb (decrease_ratio p) f64_one)
  then Err (invalid "decrease_ratio must be finite and between 0.0 and 1.0")
  else if max_limit p <? min_limit p then Err (invalid "min_limit must be <= max_limit")
  else if initial_limit p <? min_limit p then Err (invalid "initial_limit must be >= min_limit")
  else if max_limit p <? initial_limit p then Err (invalid "initial_limit must be <= max_limit")
  else Ok tt.

Definition new (p : AdaptiveConcurrencyPolicy) : AdaptiveConcurrencyState :=
  {| in_flight := 0; current_limit := initial_limit p; ewma_latency_ms := f64_zero |}.

Definition try_acquire (st : AdaptiveConcurrencyState) : bool * AdaptiveConcurrencyState :=
  if current_limit st <=? in_flight st then (false, st)
  else (true, {| in_flight := sat_add usize_max (in_flight st) 1;
                 current_limit := current_limit st; ewma_latency_ms := ewma_latency_ms st |}).

Definition release_and_record (p : AdaptiveConcurrencyPolicy) (outcome : AdaptiveConcurrencyOutcome)
    (latency : Duration) (st : AdaptiveConcurrencyState) : AdaptiveConcurrencyState :=
  let in_flight := sat_sub (in_flight st) 1 in
  let latency_ms := f64_mul (as_secs_f64 latency) (f64_of_Z 1000) in
  let ewma :=
    if f64_leb (ewma_latency_ms st) f64_epsilon then latency_ms
    else f64_add (f64_mul (ewma_latency_ms st) (f64_lit 8 10)) (f64_mul latency_ms (f64_lit 2 10)) in
  let threshold_ms := f64_mul (as_secs_f64 (high_latency_threshold p)) (f64_of_Z 1000) in
  let should_decrease :=
    match outcome with Failure => true | Success => false end || f64_ltb threshold_ms ewma in
  let limit :=
    if should_decrease then
      let decreased :=
        f64_to_uint usize_max
          (f64_floor (f64_mul (f64_of_Z (current_limit st)) (decrease_ratio p))) in
      Z.max decreased (min_limit p)
    else Z.min (sat_add usize_max (current_limit st) (increase_step p)) (max_limit p) in
  {| in_flight := in_flight; current_limit := limit; ewma_latency_ms := ewma |}.

Definition release_without_record (st : AdaptiveConcurrencyState) : AdaptiveConcurrencyState :=
  {| in_flight := sat_sub (in_flight st) 1; current_limit := current_limit st;
     ewma_latency_ms := ewma_latency_ms st |}.

(** ** Permits *)
Record AdaptiveConcurrencyPermit := { started_at : Instant; completed : bool }.

Definition latency (now : Instant) (permit : AdaptiveConcurrencyPermit) : Duration :=
  saturating_duration_since now (started_at permit).

Definition complete (permit : AdaptiveConcurrencyPermit) : AdaptiveConcurrencyPermit :=
  {| started_at := started_at permit; completed := true |}.

Definition drop (permit : AdaptiveConcurrencyPermit) (st : AdaptiveConcurrencyState)
    : AdaptiveConcurrencyState :=
  if completed permit then st else release_without_record st.

(** The ways a permit ends; each consumes it, so its [Drop] runs last. *)
Inductive ending := MarkSuccess (now : Instant) | MarkFailure (now : Instant) | Cancel | Dropped.

Definition finish (p : AdaptiveConcurrencyPolicy) (e : ending) (permit : AdaptiveConcurrencyPermit)
    (st : AdaptiveConcurrencyState) : AdaptiveConcurrencyState :=
  match e with
  | MarkSuccess now =>
    drop (complete permit) (release_and_record p Success (latency now permit) st)
  | MarkFailure now =>
    drop (complete permit) (release_and_record p Failure (latency now permit) st)
  | Cancel => drop (complete permit) (release_without_record st)
  | Dropped => drop permit st
  end.

(** ** The blocking controller

    A caller of [acquire] is about to test the limit ([Testing]), or sleeps on the
    condition variable with the mutex released ([Sleeping]).  It leaves with a
    permit, or without one when its deadline has passed. *)
Inductive caller := Testing (deadline_at : option Instant) | Sleeping (deadline_at : option Instant).

Record controller := {
  limits : AdaptiveConcurrencyState;
  permits : list AdaptiveConcurrencyPermit;
  callers : list caller;
}.

(** [notify_all]: every sleeper returns to its test. *)
Definition wake (c : caller) : caller := match c with Sleeping d => Testing d | Testing d => Testing d end.

Definition deadline_passed (deadline_at : option Instant) (now : Instant) : bool :=
  match deadline_at with Some d => d <=? now | None => false end.

Inductive step (p : AdaptiveConcurrencyPolicy) : controller -> controller -> Prop :=
| step_call st ps cs d :
    step p {| limits := st; permits := ps; callers := cs |}
           {| limits := st; permits := ps; callers := Testing d :: cs |}
| step_acquired st st' ps cs1 cs2 d now :
    try_acquire st = (true, st') ->
    step p {| limits := st; permits := ps; callers := cs1 ++ Testing d :: cs2 |}
           {| limits := st'; permits := {| started_at := now; completed := false |} :: ps;
              callers := cs1 ++ cs2 |}
| step_gave_up st st' ps cs1 cs2 d now :
    try_acquire st = (false, st') -> deadline_passed d now = true ->
    step p {| limits := st; permits := ps; callers := cs1 ++ Testing d :: cs2 |}
           {| limits := st'; permits := ps; callers := cs1 ++ cs2 |}
| step_sleep st st' ps cs1 cs2 d now :
    try_acquire st = (false, st') -> deadline_passed d now = false ->
    step p {| limits := st; permits := ps; callers := cs1 ++ Testing d :: cs2 |}
           {| limits := st'; permits := ps; callers := cs1 ++ Sleeping d :: cs2 |}
| step_woken st ps cs1 cs2 d :
    (** a spurious wake-up, or a time-out before the deadline *)
    step p {| limits := st; permits := ps; callers := cs1 ++ Sleeping d :: cs2 |}
           {| limits := st; permits := ps; callers := cs1 ++ Testing d :: cs2 |}
| step_timed_out st ps cs1 cs2 d now :
    deadline_passed d now = true ->
    step p {| limits := st; permits := ps; callers := cs1 ++ Sleeping d :: cs2 |}
           {| limits := st; permits := ps; callers := cs1 ++ cs2 |}
| step_finish st ps1 permit ps2 cs e :
    step p {| limits := st; permits := ps1 ++ permit :: ps2; callers := cs |}
           {| limits := finish p e permit st; permits := ps1 ++ ps2; callers := wake <$> cs |}.

Definition initial (p : AdaptiveConcurrencyPolicy) : controller :=
  {| limits := new p; permits := []; callers := [] |}.

(** ** The asynchronous controller

    A task first enables its [Notified] future, then tests the limit under the
    lock, then awaits the notification; [notify_waiters] marks every enabled
    future. *)
Inductive task := Enabled (notified : bool) | Awaiting (notified : bool).

Definition notify (t : task) : task :=
  match t with Enabled _ => Enabled true | Awaiting _ => Awaiting true end.

Record async_controller := {
  async_limits : AdaptiveConcurrencyState;
  async_permits : list AdaptiveConcurrencyPermit;
  tasks : list task;
}.

Inductive async_step (p : AdaptiveConcurrencyPolicy) : async_controller -> async_controller -> Prop :=
| async_call st ps ts :
    async_step p {| async_limits := st; async_permits := ps; tasks := ts |}
                 {| async_limits := st; async_permits := ps; tasks := Enabled false :: ts |}
| async_acquired st st' ps ts1 ts2 b now :
    try_acquire st = (true, st') ->
    async_step p {| async_limits := st; async_permits := ps; tasks := ts1 ++ Enabled b :: ts2 |}
                 {| async_limits := st';
                    async_permits := {| started_at := now; completed := false |} :: ps;
                    tasks := ts1 ++ ts2 |}
| async_blocked st st' ps ts1 ts2 b :
    try_acquire st = (false, st') ->
    async_step p {| async_limits := st; async_permits := ps; tasks := ts1 ++ Enabled b :: ts2 |}
                 {| async_limits := st'; async_permits := ps; tasks := ts1 ++ Awaiting b :: ts2 |}
| async_resumed st ps ts1 ts2 :
    async_step p {| async_limits := st; async_permits := ps; tasks := ts1 ++ Awaiting true :: ts2 |}
                 {| async_limits := st; async_permits := ps; tasks := ts1 ++ Enabled false :: ts2 |}
| async_cancelled st ps ts1 t ts2 :
    async_step p {| async_limits := st; async_permits := ps; tasks := ts1 ++ t :: ts2 |}
                 {| async_limits := st; async_permits := ps; tasks := ts1 ++ ts2 |}
| async_finish st ps1 permit ps2 ts e :
    async_step p {| async_limits := st; async_permits := ps1 ++ permit :: ps2; tasks := ts |}
                 {| async_limits := finish p e permit st; async_permits := ps1 ++ ps2;
                    tasks := notify <$> ts |}.

Definition async_initial (p : AdaptiveConcurrencyPolicy) : async_controller :=
  {| async_limits := new p; async_permits := []; tasks := [] |}.

(** ** Invariants *)
Record wf (p : AdaptiveConcurrencyPolicy) : Prop := {
  wf_limits : 1 <= min_limit p /\ min_limit p <= initial_limit p <= max_limit p;
  wf_exact : max_limit p < 2 ^ 53;
  wf_step : 1 <= increase_step p;
  wf_ratio : fin (decrease_ratio p) /\ val (decrease_ratio p) <= scaled 1 0;
}.

(** What both controllers keep of their limits and permits. *)
Record limits_inv (p : AdaptiveConcurrencyPolicy) (st : AdaptiveConcurrencyState)
    (ps : list AdaptiveConcurrencyPermit) : Prop := {
  inv_limit : min_limit p <= current_limit st <= max_limit p;
  inv_in_flight : in_flight st = Z.of_nat (length ps);
  inv_bound : in_flight st <= max_limit p;
  inv_permits : Forall (fun permit => completed permit = false) ps;
}.

(** No capacity: a caller that waits now waits for a permit to end. *)
Definition full (st : AdaptiveConcurrencyState) : Prop := current_limit st <= in_flight st.

Definition waits (c : caller) : Prop := match c with Sleeping _ => True | Testing _ => False end.
Definition inv (p : AdaptiveConcurrencyPolicy) (c : controller) : Prop :=
  limits_inv p (limits c) (permits c) /\ Forall (fun x => waits x -> full (limits c)) (callers c).

Definition awaits (t : task) : Prop := t = Awaiting false.
Definition async_inv (p : AdaptiveConcurrencyPolicy) (c : async_controller) : Prop :=
  limits_inv p (async_limits c) (async_permits c) /\
  Forall (fun x => awaits x -> full (async_limits c)) (tasks c).

(** ** Lemmas *)
Lemma f64_ltb_leb_one x : f64_ltb x f64_one = true -> f64_leb x f64_one = true.
Proof.
  unfold f64_ltb, f64_leb, SpecFloat.SFltb, SpecFloat.SFleb. by destruct (SpecFloat.SFcompare _ _) as [[]|].
Qed.

Lemma adaptive_validate_wf `{Http} p :
  validate p = Ok tt -> f64_wf (decrease_ratio p) ->
  0 <= min_limit p -> 0 <= increase_step p -> max_limit p < 2 ^ 53 -> wf p.
Proof.
  unfold validate, duration_is_zero. intros Hv Hw H1 H2 H3. repeat (case_match; [discriminate|]).
  zbool. split; try lia. apply f64_wf_ratio; try done. by apply f64_ltb_leb_one.
Qed.

Section Preservation.
Context (p : AdaptiveConcurrencyPolicy) (Hp : wf p).

Lemma usize_large : 2 ^ 53 < usize_max.
Proof. done. Qed.

Lemma release_and_record_limit outcome d st :
  min_limit p <= current_limit st <= max_limit p ->
  min_limit p <= current_limit (release_and_record p outcome d st) <= max_limit p /\
  (outcome = Failure -> current_limit (release_and_record p outcome d st) <= current_limit st).
Proof.
  intros Hl. destruct Hp as [[Hm Hi] He Hs [Hr Hr']].
  pose proof (f64_scale_down usize_max (current_limit st) (decrease_ratio p)
    ltac:(lia) ltac:(done) Hr Hr') as Hd.
  unfold release_and_record. cbn [current_limit].
  destruct (_ || _) eqn:Hdec.
  - lia.
  - unfold sat_add. pose proof usize_large. split; [lia|]. by intros ->.
Qed.

Lemma release_and_record_in_flight outcome d st :
  in_flight (release_and_record p outcome d st) = sat_sub (in_flight st) 1.
Proof. done. Qed.

Lemma finish_inv e st ps1 permit ps2 :
  limits_inv p st (ps1 ++ permit :: ps2) -> limits_inv p (finish p e permit st) (ps1 ++ ps2).
Proof.
  intros [Hl Hi Hb Hc]. rewrite Forall_app, Forall_cons in Hc. destruct Hc as (Hc1 & Hc & Hc2).
  rewrite length_app in Hi. simpl in Hi.
  assert (sat_sub (in_flight st) 1 = Z.of_nat (length (ps1 ++ ps2))) as Hn.
  { rewrite length_app. unfold sat_sub. lia. }
  assert (Forall (fun permit => completed permit = false) (ps1 ++ ps2)) by by apply Forall_app.
  assert (sat_sub (in_flight st) 1 <= max_limit p) by (unfold sat_sub; lia).
  destruct e; cbn [finish drop complete completed]; unfold drop; rewrite ?Hc; split; try done;
    by apply release_and_record_limit.
Qed.

Lemma try_acquire_inv st st' ps now :
  limits_inv p st ps -> try_acquire st = (true, st') ->
  limits_inv p st' ({| started_at := now; completed := false |} :: ps) /\ ~ full st.
Proof.
  unfold try_acquire, full. intros [Hl Hi Hb Hc] Ht.
  destruct (Z.leb_spec (current_limit st) (in_flight st)); simplify_eq.
  pose proof usize_large. pose proof (wf_exact p Hp). split; [|lia].
  split; cbn [current_limit in_flight length]; rewrite ?sat_add_exact by lia; try lia.
  by apply Forall_cons.
Qed.

Lemma try_acquire_full st st' : try_acquire st = (false, st') -> st' = st /\ full st.
Proof.
  unfold try_acquire, full. destruct (Z.leb_spec (current_limit st) (in_flight st)); naive_solver.
Qed.

Lemma initial_limits : limits_inv p (new p) [].
Proof. destruct Hp as [[? ?] ? ? ?]. split; simpl; try lia. done. Qed.

Lemma adaptive_inv_step c c' : step p c c' -> inv p c -> inv p c'.
Proof.
  intros Hstep [Hl Hw]. destruct Hstep as [st ps cs d|st st' ps cs1 cs2 d now Ht|st st' ps cs1 cs2 d now Ht _
    |st st' ps cs1 cs2 d now Ht _|st ps cs1 cs2 d|st ps cs1 cs2 d now _|st ps1 permit ps2 cs e];
    simpl in *; rewrite ?Forall_app, ?Forall_cons in Hw.
  - split; [done|]. by apply Forall_cons.
  - destruct (try_acquire_inv _ _ _ now Hl Ht) as [Hl' Hfull]. split; [done|]. simpl.
    destruct Hw as (Hw1 & _ & Hw2). apply Forall_app. split; (eapply Forall_impl; [done|]; intros ? Hx ?; by destruct Hfull; apply Hx).
  - apply try_acquire_full in Ht as [-> _]. split; [done|]. simpl. apply Forall_app. tauto.
  - apply try_acquire_full in Ht as [-> Hf]. split; [done|]. simpl.
    rewrite Forall_app, Forall_cons. tauto.
  - split; [done|]. simpl. rewrite Forall_app, Forall_cons. naive_solver.
  - split; [done|]. simpl. rewrite Forall_app. naive_solver.
  - split; [by apply finish_inv|]. simpl. apply Forall_fmap, Forall_true.
    by intros [] [].
Qed.

Lemma async_inv_step c c' : async_step p c c' -> async_inv p c -> async_inv p c'.
Proof.
  intros Hstep [Hl Hw]. destruct Hstep as [st ps ts|st st' ps ts1 ts2 b now Ht|st st' ps ts1 ts2 b Ht
    |st ps ts1 ts2|st ps ts1 t ts2|st ps1 permit ps2 ts e];
    simpl in *; rewrite ?Forall_app, ?Forall_cons in Hw.
  - split; [done|]. by apply Forall_cons.
  - destruct (try_acquire_inv _ _ _ now Hl Ht) as [Hl' Hfull]. split; [done|]. simpl.
    destruct Hw as (Hw1 & _ & Hw2). apply Forall_app. split; (eapply Forall_impl; [done|]; intros ? Hx ?; by destruct Hfull; apply Hx).
  - apply try_acquire_full in Ht as [-> Hf]. split; [done|]. simpl.
    rewrite Forall_app, Forall_cons. tauto.
  - split; [done|]. simpl. rewrite Forall_app, Forall_cons. destruct Hw as (? & _ & ?).
    split_and!; [done|by inversion 1|done].
  - split; [done|]. simpl. rewrite Forall_app. tauto.
  - split; [by apply finish_inv|]. simpl. apply Forall_fmap, Forall_true.
    intros []; by inversion 1.
Qed.

Lemma adaptive_inv_reachable c : rtc (step p) (initial p) c -> inv p c.
Proof. apply rtc_invariant; [|apply adaptive_inv_step]. split; [apply initial_limits|done]. Qed.

Lemma async_inv_reachable c : rtc (async_step p) (async_initial p) c -> async_inv p c.
Proof. apply rtc_invariant; [|apply async_inv_step]. split; [apply initial_limits|done]. Qed.

End Preservation.

End Adaptive.

(** ** Properties *)
Section Properties.
Context `{Http}.
Import Adaptive.
Context (p : AdaptiveConcurrencyPolicy).

(** The policies a client builder accepts, with limits exact in [f64]. *)
Definition adaptive_accepted : Prop :=
  validate p = Ok tt /\ f64_wf (decrease_ratio p) /\ 0 <= min_limit p /\ 0 <= increase_step p /\
  max_limit p < 2 ^ 53.

Lemma adaptive_accepted_wf : adaptive_accepted -> wf p.
Proof. intros (? & ? & ? & ? & ?). by apply adaptive_validate_wf. Qed.

(** C22: In every reachable state of the blocking adaptive controller under a
    validated policy whose max_limit is below 2^53, the current limit lies between
    min_limit and max_limit, the in-flight count is the number of permits held, and
    it never exceeds max_limit. *)
Theorem adaptive_limit_bounds c :
  adaptive_accepted -> rtc (step p) (initial p) c ->
  min_limit p <= current_limit (limits c) <= max_limit p /\
  in_flight (limits c) = Z.of_nat (length (permits c)) /\
  in_flight (limits c) <= max_limit p.
Proof. intros Hp%adaptive_accepted_wf [[] _]%adaptive_inv_reachable; [|done]. done. Qed.

(** No wakeup is lost in the blocking controller: whenever a caller is asleep
    on the condition variable, the limit is exhausted and some permit is held, whose
    release will wake it. *)
Lemma adaptive_no_lost_wakeup c d :
  adaptive_accepted -> rtc (step p) (initial p) c -> Sleeping d ∈ callers c ->
  current_limit (limits c) <= in_flight (limits c) /\ permits c <> [].
Proof.
  intros Hp%adaptive_accepted_wf [[Hl Hi _ _] Hw]%adaptive_inv_reachable Hin; [|done].
  rewrite Forall_forall in Hw. specialize (Hw _ Hin I). unfold full in Hw.
  destruct Hp. split; [done|]. intros Hn. rewrite Hn in Hi. simpl in Hi. lia.
Qed.

(** No wakeup is lost in the async controller: whenever a task awaits an
    unsignalled notification, the limit is exhausted and some permit is held, whose
    release will notify it. *)
Lemma adaptive_async_no_lost_wakeup c :
  adaptive_accepted -> rtc (async_step p) (async_initial p) c -> Awaiting false ∈ tasks c ->
  current_limit (async_limits c) <= in_flight (async_limits c) /\ async_permits c <> [].
Proof.
  intros Hp%adaptive_accepted_wf [[Hl Hi _ _] Hw]%async_inv_reachable Hin; [|done].
  rewrite Forall_forall in Hw. specialize (Hw _ Hin eq_refl). unfold full in Hw.
  destruct Hp. split; [done|]. intros Hn. rewrite Hn in Hi. simpl in Hi. lia.
Qed.

(** Recording a failure of any latency never raises the concurrency limit and never
    takes it below min_limit. *)
Lemma adaptive_failure_never_raises d st :
  adaptive_accepted -> min_limit p <= current_limit st <= max_limit p ->
  min_limit p <= current_limit (release_and_record p Failure d st) <= current_limit st.
Proof.
  intros Hp%adaptive_accepted_wf Hl.
  destruct (release_and_record_limit p Hp Failure d st Hl) as [? Hd]. specialize (Hd eq_refl). lia.
Qed.

End Properties.

(** ** Witnesses

    One permit at a time, one caller holding it and one waiting. *)
Module AdaptiveDemo.
Import Adaptive.

Definition policy : AdaptiveConcurrencyPolicy :=
  {| min_limit := 1; initial_limit := 1; max_limit := 4; increase_step := 1;
     decrease_ratio := f64_lit 8 10; high_latency_threshold := duration_from_millis 300 |}.

Definition permit : AdaptiveConcurrencyPermit := {| started_at := 7; completed := false |}.
Definition busy : AdaptiveConcurrencyState :=
  {| in_flight := 1; current_limit := 1; ewma_latency_ms := f64_zero |}.
Definition waiting : controller :=
  {| limits := busy; permits := [permit]; callers := [Sleeping None] |}.
Definition async_waiting : async_controller :=
  {| async_limits := busy; async_permits := [permit]; tasks := [Awaiting false] |}.

Lemma adaptive_policy_accepted : adaptive_accepted policy.
Proof.
  split; [vm_compute; reflexivity|]. split; [f64_concrete|]. repeat split; vm_compute; (reflexivity || discriminate).
Qed.

Lemma waiting_reachable : rtc (step policy) (initial policy) waiting.
Proof.
  eapply rtc_l; [apply (step_call policy (new policy) [] [] None)|].
  eapply rtc_l; [exact (step_acquired policy (new policy) busy [] [] [] None 7 eq_refl)|].
  eapply rtc_l; [apply (step_call policy busy [permit] [] None)|].
  apply rtc_once. exact (step_sleep policy busy busy [permit] [] [] None 9 eq_refl eq_refl).
Qed.

Lemma async_waiting_reachable : rtc (async_step policy) (async_initial policy) async_waiting.
Proof.
  eapply rtc_l; [apply (async_call policy (new policy) [] [])|].
  eapply rtc_l; [exact (async_acquired policy (new policy) busy [] [] [] false 7 eq_refl)|].
  eapply rtc_l; [apply (async_call policy busy [permit] [])|].
  apply rtc_once. exact (async_blocked policy busy busy [permit] [] [] false eq_refl).
Qed.

End AdaptiveDemo.

Lemma adaptive_limit_bounds_witness :
  1 <= Adaptive.current_limit (Adaptive.limits AdaptiveDemo.waiting) <= 4 /\
  Adaptive.in_flight (Adaptive.limits AdaptiveDemo.waiting) = 1.
Proof.
  destruct (adaptive_limit_bounds AdaptiveDemo.policy AdaptiveDemo.waiting AdaptiveDemo.adaptive_policy_accepted
    AdaptiveDemo.waiting_reachable) as (Hl & Hi & _). exact (conj Hl Hi).
Defined.

Lemma adaptive_no_lost_wakeup_witness :
  Adaptive.current_limit (Adaptive.limits AdaptiveDemo.waiting)
    <= Adaptive.in_flight (Adaptive.limits AdaptiveDemo.waiting) /\
  Adaptive.permits AdaptiveDemo.waiting <> [].
Proof.
  exact (adaptive_no_lost_wakeup AdaptiveDemo.policy AdaptiveDemo.waiting None AdaptiveDemo.adaptive_policy_accepted
    AdaptiveDemo.waiting_reachable (list_elem_of_here _ _)).
Defined.

Lemma adaptive_async_no_lost_wakeup_witness :
  Adaptive.current_limit (Adaptive.async_limits AdaptiveDemo.async_waiting)
    <= Adaptive.in_flight (Adaptive.async_limits AdaptiveDemo.async_waiting) /\
  Adaptive.async_permits AdaptiveDemo.async_waiting <> [].
Proof.
  exact (adaptive_async_no_lost_wakeup AdaptiveDemo.policy AdaptiveDemo.async_waiting
    AdaptiveDemo.adaptive_policy_accepted AdaptiveDemo.async_waiting_reachable (list_elem_of_here _ _)).
Defined.
