(* ===== verification/RateLimit.v ===== *)
(** * Rate limiting (rate_limit.rs)

    The token bucket in [f64] arithmetic, the limiter with its global and per-host
    buckets, the server throttle scopes, and the eviction of idle hosts.  The clock
    reading of each operation is the argument [now].  The map of hosts is a [gmap];
    where the code iterates it in key order (the choice of the oldest idle entry)
    the entries are sorted by key.  Both users of the cleanup timestamp hold the map's
    lock, so its compare-exchange loop ends in the first round. *)
From Stdlib Require Import Ascii String.
From S2P Require Import Prelude Float64 Float64Facts Text HttpApi Errors UriText Timing Eviction.

Module RateLimit.

Definition PER_HOST_RATE_LIMIT_ENTRY_TTL : Duration := duration_from_secs 300.
Definition PER_HOST_RATE_LIMIT_MAX_ENTRIES : Z := 1024.
Definition PER_HOST_RATE_LIMIT_CLEANUP_INTERVAL : Duration := duration_from_secs 5.

(** ** Scopes *)
Inductive ServerThrottleScope := Auto | Host | Global | Both.

Definition resolve_auto_server_throttle_scope (header_scope_hint : option ServerThrottleScope)
    (has_host has_global_rate_limit has_per_host_rate_limit : bool) : ServerThrottleScope :=
  let host_available := has_host && has_per_host_rate_limit in
  match header_scope_hint with
  | Some Both =>
    match has_global_rate_limit, host_available with
    | true, true => Both
    | true, false => Global
    | false, true => Host
    | false, false => Both
    end
  | Some Global =>
    if has_global_rate_limit then Global else if host_available then Host else Global
  | Some Host =>
    if host_available then Host else if has_global_rate_limit then Global else Host
  | _ => if host_available then Host else if has_global_rate_limit then Global else Host
  end.

Definition resolve_server_throttle_scope (configured_scope : ServerThrottleScope)
    (header_scope_hint : option ServerThrottleScope)
    (has_host has_global_rate_limit has_per_host_rate_limit : bool) : ServerThrottleScope :=
  match configured_scope with
  | Auto => resolve_auto_server_throttle_scope header_scope_hint has_host has_global_rate_limit
              has_per_host_rate_limit
  | other => other
  end.

Definition apply_host (s : ServerThrottleScope) : bool :=
  match s with Host | Both => true | _ => false end.
Definition apply_global (s : ServerThrottleScope) : bool :=
  match s with Global | Both => true | _ => false end.

Definition contains_scope_token (value : str) (tokens : list string) : bool :=
  existsb (fun token => existsb (fun t => bool_decide (token = lit t)) tokens)
    (split_with (fun c => negb (is_ascii_alphanumeric c)) value).

Definition server_throttle_scope_from_header_value (value : str) : option ServerThrottleScope :=
  let normalized := to_ascii_lowercase (trim value) in
  match normalized with
  | [] => None
  | _ =>
    let has_both_scope := contains_scope_token normalized ["both"; "all"]%string in
    let has_global_scope := contains_scope_token normalized ["global"; "shared"]%string in
    let has_host_scope :=
      contains_scope_token normalized ["host"; "resource"; "bucket"; "user"; "local"]%string in
    if has_both_scope || (has_global_scope && has_host_scope) then Some Both
    else if has_global_scope then Some Global
    else if has_host_scope then Some Host
    else None
  end.

Fixpoint first_some {A B} (f : A -> option B) (l : list A) : option B :=
  match l with
  | [] => None
  | x :: l => match f x with Some y => Some y | None => first_some f l end
  end.

Definition server_throttle_scope_from_headers `{Http} (headers : HeaderMap)
    : option ServerThrottleScope :=
  first_some
    (fun name =>
       first_some (fun value => text ← to_str value; server_throttle_scope_from_header_value text)
         (hm_get_all headers (header_name name)))
    ["x-ratelimit-scope"; "ratelimit-scope"; "x-rate-limit-scope"]%string.

(** ** Policy *)
Record RateLimitPolicy := {
  requests_per_second : f64;
  burst : Z;
  max_throttle_delay : Duration;
}.

Definition standard : RateLimitPolicy :=
  {| requests_per_second := f64_of_Z 50; burst := 50; max_throttle_delay := duration_from_secs 30 |}.

Definition with_requests_per_second (p : RateLimitPolicy) (v : f64) : RateLimitPolicy :=
  {| requests_per_second := v; burst := burst p; max_throttle_delay := max_throttle_delay p |}.
Definition with_burst (p : RateLimitPolicy) (v : Z) : RateLimitPolicy :=
  {| requests_per_second := requests_per_second p; burst := v;
     max_throttle_delay := max_throttle_delay p |}.
Definition with_max_throttle_delay (p : RateLimitPolicy) (v : Duration) : RateLimitPolicy :=
  {| requests_per_second := requests_per_second p; burst := burst p; max_throttle_delay := v |}.

Definition validate `{Http} (p : RateLimitPolicy) : result unit Error.t :=
  if negb (f64_is_finite (requests_per_second p)) || f64_leb (requests_per_second p) f64_zero
  then Err (Error.InvalidRateLimitPolicy (requests_per_second p) (burst p)
              "requests_per_second must be finite and > 0")
  else if burst p =? 0
  then Err (Error.InvalidRateLimitPolicy (requests_per_second p) (burst p) "burst must be >= 1")
  else Ok tt.

(** ** Token bucket *)
Record TokenBucket := {
  policy : RateLimitPolicy;
  tokens : f64;
  last_refill_at : Instant;
  throttle_until : option Instant;
}.

Definition bucket_new (p : RateLimitPolicy) (now : Instant) : TokenBucket :=
  {| policy := p; tokens := f64_of_Z (burst p); last_refill_at := now; throttle_until := None |}.

Definition refill (now : Instant) (b : TokenBucket) : TokenBucket :=
  if now <=? last_refill_at b then b
  else
    let elapsed_secs := as_secs_f64 (now - last_refill_at b) in
    let replenished := f64_mul elapsed_secs (requests_per_second (policy b)) in
    {| policy := policy b;
       tokens := f64_min (f64_add (tokens b) replenished) (f64_of_Z (burst (policy b)));
       last_refill_at := now;
       throttle_until :=
         match throttle_until b with
         | Some until => if until <=? now then None else Some until
         | None => None
         end |}.

(** The throttle test shared by [wait_duration] and [can_consume_now]. *)
Definition throttled (now : Instant) (b : TokenBucket) : option Instant :=
  until ← throttle_until b; if now <? until then Some until else None.

Definition wait_duration (now : Instant) (b : TokenBucket) : Duration * TokenBucket :=
  let b := refill now b in
  match throttled now b with
  | Some until => (saturating_duration_since until now, b)
  | None =>
    if f64_leb f64_one (tokens b) then (0, b)
    else
      let rate := requests_per_second (policy b) in
      let needed_tokens := f64_max (f64_sub f64_one (tokens b)) f64_zero in
      let delay_secs := f64_div needed_tokens rate in
      (Z.max (duration_from_secs_f64_saturating delay_secs) 1, b)
  end.

Definition can_consume_now (now : Instant) (b : TokenBucket) : bool * TokenBucket :=
  let b := refill now b in
  match throttled now b with
  | Some _ => (false, b)
  | None => (f64_leb f64_one (tokens b), b)
  end.

Definition consume_ready_token (b : TokenBucket) : TokenBucket :=
  {| policy := policy b; tokens := f64_max (f64_sub (tokens b) f64_one) f64_zero;
     last_refill_at := last_refill_at b; throttle_until := throttle_until b |}.

Definition is_idle (now : Instant) (b : TokenBucket) : bool :=
  f64_leb (f64_of_Z (burst (policy b))) (tokens b)
  && match throttle_until b with None => true | Some until => until <=? now end.

Definition apply_throttle (now : Instant) (delay : Duration) (b : TokenBucket) : TokenBucket :=
  let capped_delay := Z.min delay (max_throttle_delay (policy b)) in
  if duration_is_zero capped_delay then b
  else match instant_checked_add now capped_delay with
  | None => b
  | Some until =>
    {| policy := policy b; tokens := tokens b; last_refill_at := last_refill_at b;
       throttle_until := Some (match throttle_until b with
                               | Some existing => Z.max existing until
                               | None => until
                               end) |}
  end.

(** ** Per-host entries *)
Record PerHostRateLimitEntry := { bucket : TokenBucket; last_used_at : Instant }.

Abbreviation entries := (gmap str PerHostRateLimitEntry).

Definition refill_entry (now : Instant) (e : PerHostRateLimitEntry) : PerHostRateLimitEntry :=
  {| bucket := refill now (bucket e); last_used_at := last_used_at e |}.

Definition retained (now : Instant) (e : PerHostRateLimitEntry) : bool :=
  negb (is_idle now (bucket e))
  || (saturating_duration_since now (last_used_at e) <=? PER_HOST_RATE_LIMIT_ENTRY_TTL).

(** Idleness at an instant, as the eviction loop of [Eviction] reads it. *)
Definition entry_at (now : Instant) : Eviction.PerHostLimiterEntry PerHostRateLimitEntry :=
  {| Eviction.is_idle := fun e => is_idle now (bucket e); Eviction.last_used_at := last_used_at |}.

Definition oldest_idle (now : Instant) (m : entries) : option str :=
  Eviction.oldest_idle (entry := entry_at now) m.

(** The eviction loop; each round removes an entry, so [size m] rounds suffice. *)
Definition evict_oldest (fuel : nat) (now : Instant) (m : entries) : entries :=
  Eviction.evict_oldest (entry := entry_at now) fuel PER_HOST_RATE_LIMIT_MAX_ENTRIES m.

Definition cleanup_stale_per_host_rate_limits (now : Instant) (m : entries) : entries :=
  let m := filter (fun kv => Is_true (retained now kv.2)) (refill_entry now <$> m) in
  evict_oldest (size m) now m.

(** ** The limiter *)
Record RateLimiter := {
  global : option TokenBucket;
  per_host_policy : option RateLimitPolicy;
  per_host : entries;
  per_host_cleanup_origin : Instant;
  per_host_last_cleanup_ms : Z;
}.

Definition new (global_policy per_host_policy : option RateLimitPolicy) (now : Instant)
    : option RateLimiter :=
  match global_policy, per_host_policy with
  | None, None => None
  | _, _ =>
    Some {| global := (fun p => bucket_new p now) <$> global_policy;
            per_host_policy := per_host_policy; per_host := ∅;
            per_host_cleanup_origin := now; per_host_last_cleanup_ms := 0 |}
  end.

Definition set_buckets (rl : RateLimiter) (g : option TokenBucket) (m : entries) : RateLimiter :=
  {| global := g; per_host_policy := per_host_policy rl; per_host := m;
     per_host_cleanup_origin := per_host_cleanup_origin rl;
     per_host_last_cleanup_ms := per_host_last_cleanup_ms rl |}.

Definition maybe_cleanup_stale_per_host_rate_limits (now : Instant) (rl : RateLimiter) : RateLimiter :=
  let now_ms :=
    Z.min (duration_as_millis (saturating_duration_since now (per_host_cleanup_origin rl))) u64_max in
  let cleaned :=
    {| global := global rl; per_host_policy := per_host_policy rl;
       per_host := cleanup_stale_per_host_rate_limits now (per_host rl);
       per_host_cleanup_origin := per_host_cleanup_origin rl; per_host_last_cleanup_ms := now_ms |} in
  if PER_HOST_RATE_LIMIT_MAX_ENTRIES <? Z.of_nat (size (per_host rl)) then cleaned
  else
    let cleanup_interval_ms :=
      Z.min (duration_as_millis PER_HOST_RATE_LIMIT_CLEANUP_INTERVAL) u64_max in
    if sat_sub now_ms (per_host_last_cleanup_ms rl) <? cleanup_interval_ms then rl else cleaned.

(** [entries.entry(host).or_insert_with(..)], and [last_used_at = now]. *)
Definition host_entry (p : RateLimitPolicy) (now : Instant) (host : str) (m : entries) : TokenBucket :=
  match m !! host with Some e => bucket e | None => bucket_new p now end.

Definition host_key (rl : RateLimiter) (host : option str) : option (RateLimitPolicy * str) :=
  p ← per_host_policy rl; h ← host; key ← normalize_host_key h; Some (p, key).

Definition store_host (now : Instant) (key : str) (b : TokenBucket) (m : entries) : entries :=
  <[key := {| bucket := b; last_used_at := now |}]> m.

Definition ready_opt (now : Instant) (b : option TokenBucket) : bool * option TokenBucket :=
  match b with
  | None => (true, None)
  | Some b => let '(r, b) := can_consume_now now b in (r, Some b)
  end.

Definition wait_opt (now : Instant) (b : option TokenBucket) : Duration * option TokenBucket :=
  match b with
  | None => (0, None)
  | Some b => let '(d, b) := wait_duration now b in (d, Some b)
  end.

Definition put_host (now : Instant) (key : option (RateLimitPolicy * str)) (b : option TokenBucket)
    (m : entries) : entries :=
  match key, b with
  | Some (_, key), Some b => store_host now key b m
  | _, _ => m
  end.

Definition acquire_delay (host : option str) (now : Instant) (rl : RateLimiter)
    : Duration * RateLimiter :=
  let rl :=
    match per_host_policy rl with
    | Some _ => maybe_cleanup_stale_per_host_rate_limits now rl
    | None => rl
    end in
  let key := host_key rl host in
  let host_bucket := (fun '(p, key) => host_entry p now key (per_host rl)) <$> key in
  let '(global_ready, global_bucket) := ready_opt now (global rl) in
  let '(host_ready, host_bucket) := ready_opt now host_bucket in
  if negb global_ready || negb host_ready then
    let '(global_wait, global_bucket) := wait_opt now global_bucket in
    let '(host_wait, host_bucket) := wait_opt now host_bucket in
    (Z.max global_wait host_wait,
     set_buckets rl global_bucket (put_host now key host_bucket (per_host rl)))
  else
    (0, set_buckets rl (consume_ready_token <$> global_bucket)
          (put_host now key (consume_ready_token <$> host_bucket) (per_host rl))).

Definition observe_server_throttle (host : option str) (delay : Duration)
    (configured_scope : ServerThrottleScope) (header_scope_hint : option ServerThrottleScope)
    (now : Instant) (rl : RateLimiter) : ServerThrottleScope * RateLimiter :=
  let host_key := h ← host; normalize_host_key h in
  let resolved_scope :=
    resolve_server_throttle_scope configured_scope header_scope_hint
      (match host_key with Some _ => true | None => false end)
      (match global rl with Some _ => true | None => false end)
      (match per_host_policy rl with Some _ => true | None => false end) in
  if duration_is_zero delay then (resolved_scope, rl)
  else
    let rl :=
      if apply_global resolved_scope
      then set_buckets rl (apply_throttle now delay <$> global rl) (per_host rl)
      else rl in
    let rl :=
      match apply_host resolved_scope, per_host_policy rl, host_key with
      | true, Some p, Some key =>
        let rl := maybe_cleanup_stale_per_host_rate_limits now rl in
        set_buckets rl (global rl)
          (store_host now key (apply_throttle now delay (host_entry p now key (per_host rl)))
             (per_host rl))
      | _, _, _ => rl
      end in
    (resolved_scope, rl).

(** ** Operation sequences *)
Inductive op :=
| Acquire (host : option str) (now : Instant)
| Observe (host : option str) (delay : Duration) (scope : ServerThrottleScope)
    (hint : option ServerThrottleScope) (now : Instant).

Definition run_op (o : op) (rl : RateLimiter) : RateLimiter :=
  match o with
  | Acquire host now => (acquire_delay host now rl).2
  | Observe host delay scope hint now => (observe_server_throttle host delay scope hint now rl).2
  end.

Definition run (ops : list op) (rl : RateLimiter) : RateLimiter := fold_left (fun rl o => run_op o rl) ops rl.

(** The acquisitions granted at once, for callers arriving at one instant. *)
Fixpoint grants (hosts : list (option str)) (now : Instant) (rl : RateLimiter) : Z :=
  match hosts with
  | [] => 0
  | host :: hosts =>
    let '(delay, rl) := acquire_delay host now rl in
    (if delay =? 0 then 1 else 0) + grants hosts now rl
  end.

(** ** Invariants *)
Record policy_wf (p : RateLimitPolicy) : Prop := {
  wf_rate : fin (requests_per_second p) /\ 0 < val (requests_per_second p);
  wf_burst : 1 <= burst p < 2 ^ 53;
}.

(** A bucket never holds more than its burst, and never a negative or undefined
    number of tokens. *)
Record bucket_inv (b : TokenBucket) : Prop := {
  inv_policy : policy_wf (policy b);
  inv_tokens : fin (tokens b) /\ val (tokens b) <= scaled (burst (policy b)) 0;
}.

Record limiter_inv (rl : RateLimiter) : Prop := {
  inv_global : forall b, global rl = Some b -> bucket_inv b;
  inv_host_policy : forall p, per_host_policy rl = Some p -> policy_wf p;
  inv_hosts : map_Forall (fun _ e => bucket_inv (bucket e)) (per_host rl);
}.

Lemma rate_validate_wf `{Http} p :
  validate p = Ok tt -> f64_wf (requests_per_second p) -> 0 <= burst p < 2 ^ 53 -> policy_wf p.
Proof.
  unfold validate. intros Hv Hw Hb. repeat (case_match; [discriminate|]). zbool.
  split; [|lia]. destruct (requests_per_second p) as [| | |[] m e]; try done.
  destruct Hw as [Hc He]. pose proof (canonical_exp _ _ Hc). split; [done|]. apply scaled_pos; lia.
Qed.

Lemma burst_float p : policy_wf p -> fin (f64_of_Z (burst p)) /\ val (f64_of_Z (burst p)) = scaled (burst p) 0.
Proof. intros [_ Hb]. destruct (f64_of_Z_exact (burst p)) as (? & ? & _); [lia|done]. Qed.

Lemma bucket_new_inv p now : policy_wf p -> bucket_inv (bucket_new p now).
Proof. intros Hp. destruct (burst_float p Hp) as [? Hv]. split; simpl; [done|]. by rewrite Hv. Qed.

Lemma refill_policy now b : policy (refill now b) = policy b.
Proof. unfold refill. by case_match. Qed.

Lemma replenished_nonneg b d :
  bucket_inv b -> 0 <= d -> nonneg (f64_mul (as_secs_f64 d) (requests_per_second (policy b))).
Proof.
  intros [[[Hr Hpos] _] _] Hd. apply f64_mul_nonneg_inf; [done|done|by apply as_secs_f64_nonneg].
Qed.

Lemma refill_inv now b : bucket_inv b -> bucket_inv (refill now b).
Proof.
  intros Hb. unfold refill. destruct (Z.leb_spec now (last_refill_at b)); [done|].
  destruct (burst_float (policy b)) as [Hf Hv]; [apply Hb|].
  split; simpl; [apply Hb|]. rewrite <- Hv. apply f64_min_fin; [|done].
  apply f64_add_nonneg; [apply Hb|]. apply replenished_nonneg; [done|]. unfold Instant in *. lia.
Qed.

(** A second reading of the clock at the same instant changes nothing. *)
Lemma refill_idem now b : refill now (refill now b) = refill now b.
Proof.
  unfold refill. destruct (Z.leb_spec now (last_refill_at b)) as [H|H].
  - by rewrite (proj2 (Z.leb_le _ _) H).
  - simpl. by rewrite Z.leb_refl.
Qed.

Lemma refill_consume now b : refill now (consume_ready_token (refill now b)) = consume_ready_token (refill now b).
Proof.
  unfold refill at 1. destruct (Z.leb_spec now (last_refill_at (consume_ready_token (refill now b)))) as [|H];
    [done|]. simpl in H. unfold refill in H. destruct (Z.leb_spec now (last_refill_at b)); simpl in H; lia.
Qed.

Lemma zero_fin : fin f64_zero /\ val f64_zero = 0.
Proof. done. Qed.

(** Taking a token takes exactly one. *)
Lemma consume_exact b :
  bucket_inv b -> f64_leb f64_one (tokens b) = true ->
  bucket_inv (consume_ready_token b) /\
  val (tokens (consume_ready_token b)) = val (tokens b) - scaled 1 0.
Proof.
  intros [Hp [Hf Hv]] Hone. destruct f64_one_fin as [H1 Hv1]. rewrite f64_leb_val, Hv1 in Hone by done. zbool.
  destruct (f64_sub_one (tokens b)) as [Hsf Hsv]; [done| |].
  { split; [done|]. eapply Z.le_lt_trans; [done|]. apply scaled_lt_mono; [lia|]. apply Hp. }
  assert (tokens (consume_ready_token b) = f64_sub (tokens b) f64_one) as Heq.
  { simpl. unfold f64_max. destruct (f64_is_nan _) eqn:Hn.
    - destruct Hsf as [Hsf _]. by destruct (f64_sub (tokens b) f64_one).
    - simpl. rewrite f64_ltb_val by done. destruct (Z.ltb_spec (val (f64_sub (tokens b) f64_one)) (val f64_zero)) as [H|H]; [|done].
      simpl in H. lia. }
  pose proof (scaled_pos 1 0). split; [split|]; rewrite ?Heq; [done| |done].
  split; [done|]. simpl policy. lia.
Qed.

(** ** Readiness *)
Definition ready (now : Instant) (b : TokenBucket) : bool := (can_consume_now now b).1.

Lemma can_consume_now_eq now b : can_consume_now now b = (ready now b, refill now b).
Proof. unfold ready, can_consume_now. by case_match. Qed.

Lemma ready_tokens now b : ready now b = true -> f64_leb f64_one (tokens (refill now b)) = true.
Proof. unfold ready, can_consume_now. by case_match. Qed.

Lemma wait_duration_spec now b :
  (wait_duration now b).2 = refill now b /\ 0 <= (wait_duration now b).1 /\
  ((wait_duration now b).1 = 0 <-> ready now b = true).
Proof.
  unfold wait_duration, ready, can_consume_now. destruct (throttled now (refill now b)) as [u|] eqn:Ht; simpl.
  - split; [done|]. unfold throttled in Ht. destruct (throttle_until (refill now b)) as [v|]; [|done].
    simpl in Ht. destruct (Z.ltb_spec now v); [|done]. simplify_eq.
    unfold saturating_duration_since, Instant in *. split; [lia|]. split; [lia|done].
  - destruct (f64_leb f64_one _); simpl; [done|]. split; [done|]. split; [lia|]. split; [lia|done].
Qed.

Lemma ready_refill now b : ready now (refill now b) = ready now b.
Proof. unfold ready, can_consume_now. by rewrite refill_idem. Qed.

(** ** Acquisition *)
Definition after_cleanup (now : Instant) (rl : RateLimiter) : RateLimiter :=
  match per_host_policy rl with
  | Some _ => maybe_cleanup_stale_per_host_rate_limits now rl
  | None => rl
  end.

Definition host_bucket (host : option str) (now : Instant) (rl : RateLimiter) : option TokenBucket :=
  (fun '(p, key) => host_entry p now key (per_host (after_cleanup now rl))) <$>
    host_key (after_cleanup now rl) host.

Definition all_ready (now : Instant) (b : option TokenBucket) : bool :=
  match b with Some b => ready now b | None => true end.

Lemma ready_opt_eq now b : ready_opt now b = (all_ready now b, refill now <$> b).
Proof. destruct b; simpl; [|done]. by rewrite can_consume_now_eq. Qed.

Definition opt_wait (now : Instant) (b : option TokenBucket) : Duration := (wait_opt now b).1.

Lemma wait_opt_eq now b :
  wait_opt now (refill now <$> b) = (opt_wait now (refill now <$> b), refill now <$> b).
Proof.
  unfold opt_wait. destruct b as [b|]; simpl; [|done].
  destruct (wait_duration_spec now (refill now b)) as [Hs _].
  destruct (wait_duration now (refill now b)) as [d b']. simpl in *. by rewrite Hs, refill_idem.
Qed.

Lemma opt_wait_spec now b :
  0 <= opt_wait now (refill now <$> b) /\
  (opt_wait now (refill now <$> b) = 0 <-> all_ready now b = true).
Proof.
  unfold opt_wait. destruct b as [b|]; simpl; [|done].
  destruct (wait_duration_spec now (refill now b)) as (_ & Hn & Hz). rewrite ready_refill in Hz.
  by destruct (wait_duration now (refill now b)).
Qed.

(** [acquire_delay], with the lookups named. *)
Lemma acquire_delay_eq host now rl :
  let rl1 := after_cleanup now rl in
  let hb := host_bucket host now rl in
  let key := host_key rl1 host in
  acquire_delay host now rl =
  if all_ready now (global rl1) && all_ready now hb
  then (0, set_buckets rl1 (consume_ready_token <$> (refill now <$> global rl1))
             (put_host now key (consume_ready_token <$> (refill now <$> hb)) (per_host rl1)))
  else (Z.max (opt_wait now (refill now <$> global rl1)) (opt_wait now (refill now <$> hb)),
        set_buckets rl1 (refill now <$> global rl1) (put_host now key (refill now <$> hb) (per_host rl1))).
Proof.
  unfold acquire_delay, host_bucket. fold (after_cleanup now rl). simpl.
  rewrite !ready_opt_eq, !wait_opt_eq.
  destruct (all_ready now (global _)), (all_ready now (_ <$> _)); done.
Qed.

Lemma acquire_delay_zero host now rl :
  0 <= (acquire_delay host now rl).1 /\
  ((acquire_delay host now rl).1 = 0 <->
   all_ready now (global (after_cleanup now rl)) && all_ready now (host_bucket host now rl) = true).
Proof.
  rewrite acquire_delay_eq.
  destruct (opt_wait_spec now (global (after_cleanup now rl))) as [Hg Hgz].
  destruct (opt_wait_spec now (host_bucket host now rl)) as [Hh Hhz].
  unfold Duration in *. destruct (_ && _) eqn:Hr; simpl; [done|]. split; [lia|].
  split; [|done]. intros H0. exfalso. rewrite <- not_true_iff_false, andb_true_iff in Hr. apply Hr.
  split; [apply Hgz|apply Hhz]; lia.
Qed.

(** ** Eviction *)
Lemma cleanup_spec now m :
  let m' := cleanup_stale_per_host_rate_limits now m in
  (forall k e', m' !! k = Some e' -> exists e, m !! k = Some e /\ e' = refill_entry now e) /\
  (forall k e, m !! k = Some e -> m' !! k = None -> is_idle now (refill now (bucket e)) = true) /\
  (Z.of_nat (size m') <= PER_HOST_RATE_LIMIT_MAX_ENTRIES \/
   map_Forall (fun _ e => is_idle now (bucket e) = false) m').
Proof.
  unfold cleanup_stale_per_host_rate_limits. set (m1 := filter _ _).
  destruct (Eviction.evict_oldest_spec (entry := entry_at now) (size m1) PER_HOST_RATE_LIMIT_MAX_ENTRIES m1)
    as (Hsub & Hrem & Hend); [done|done|].
  split; [|split; [|done]].
  - intros k e' Hk. eapply lookup_weaken in Hk; [|done].
    apply map_lookup_filter_Some in Hk as [Hk _]. rewrite lookup_fmap, fmap_Some in Hk. done.
  - intros k e Hk Hn. destruct (m1 !! k) as [e1|] eqn:He1.
    + pose proof He1 as Hl. apply map_lookup_filter_Some in Hl as [Hl _].
      rewrite lookup_fmap, Hk in Hl. simplify_eq/=. exact (Hrem k _ He1 Hn).
    + unfold m1 in He1. rewrite map_lookup_filter_None in He1. destruct He1 as [He1|He1].
      * by rewrite lookup_fmap, Hk in He1.
      * specialize (He1 (refill_entry now e)). rewrite lookup_fmap, Hk in He1. specialize (He1 eq_refl).
        simpl in He1. unfold retained in He1. destruct (is_idle now (bucket (refill_entry now e))) eqn:Hi; [done|].
        by destruct He1.
Qed.

(** ** The invariant of the limiter *)
Lemma refill_entry_inv now e : bucket_inv (bucket e) -> bucket_inv (bucket (refill_entry now e)).
Proof. apply refill_inv. Qed.

Lemma maybe_cleanup_inv now rl :
  limiter_inv rl -> limiter_inv (maybe_cleanup_stale_per_host_rate_limits now rl).
Proof.
  intros [Hg Hp Hh].
  assert (map_Forall (fun _ e => bucket_inv (bucket e)) (cleanup_stale_per_host_rate_limits now (per_host rl))).
  { intros k e' Hk. destruct (cleanup_spec now (per_host rl)) as [Hc _].
    destruct (Hc k e' Hk) as (e & He & ->). by apply refill_entry_inv, (Hh k). }
  unfold maybe_cleanup_stale_per_host_rate_limits. repeat case_match; by split.
Qed.

Lemma after_cleanup_inv now rl : limiter_inv rl -> limiter_inv (after_cleanup now rl).
Proof. unfold after_cleanup. case_match; [apply maybe_cleanup_inv|done]. Qed.

Lemma host_entry_inv p now key m :
  policy_wf p -> map_Forall (fun _ e => bucket_inv (bucket e)) m -> bucket_inv (host_entry p now key m).
Proof.
  intros Hp Hm. unfold host_entry. destruct (m !! key) as [e|] eqn:Hk; [by apply (Hm key)|].
  by apply bucket_new_inv.
Qed.

Lemma host_bucket_inv host now rl b :
  limiter_inv rl -> host_bucket host now rl = Some b -> bucket_inv b.
Proof.
  intros Hi%(after_cleanup_inv now). unfold host_bucket, host_key.
  destruct (per_host_policy (after_cleanup now rl)) as [p|] eqn:Hp; simpl; [|done].
  destruct host as [h|]; simpl; [|done]. destruct (normalize_host_key h); simpl; [|done].
  intros [= <-]. apply host_entry_inv; [by apply Hi|apply Hi].
Qed.

Lemma put_host_inv now key b m :
  (forall b', b = Some b' -> bucket_inv b') -> map_Forall (fun _ e => bucket_inv (bucket e)) m ->
  map_Forall (fun _ e => bucket_inv (bucket e)) (put_host now key b m).
Proof.
  intros Hb Hm. unfold put_host, store_host. destruct key as [[p key]|], b as [b|]; try done.
  apply map_Forall_insert_2; [by apply Hb|done].
Qed.

Lemma acquire_inv host now rl : limiter_inv rl -> limiter_inv (acquire_delay host now rl).2.
Proof.
  intros Hi. rewrite acquire_delay_eq. pose proof (after_cleanup_inv now rl Hi) as [Hg Hp Hh].
  pose proof (fun b => host_bucket_inv host now rl b Hi) as Hb.
  destruct (_ && _) eqn:Hr; simpl.
  - apply andb_true_iff in Hr as [Hrg Hrh]. split; simpl; [|done|].
    + intros b. destruct (global (after_cleanup now rl)) as [b0|]; simpl in *; [|done]. intros [= <-].
      apply consume_exact; [apply refill_inv; auto|by apply ready_tokens].
    + apply put_host_inv; [|done]. intros b'. destruct (host_bucket host now rl) as [b0|]; simpl in *; [|done].
      intros [= <-]. apply consume_exact; [apply refill_inv; auto|by apply ready_tokens].
  - split; simpl; [|done|].
    + intros b. destruct (global (after_cleanup now rl)); simpl; [|done]. intros [= <-]. apply refill_inv; auto.
    + apply put_host_inv; [|done]. intros b'. destruct (host_bucket host now rl); simpl; [|done].
      intros [= <-]. apply refill_inv; auto.
Qed.

Lemma apply_throttle_inv now d b : bucket_inv b -> bucket_inv (apply_throttle now d b).
Proof. intros Hb. unfold apply_throttle. repeat (case_match; try done). all: split; apply Hb. Qed.

Lemma observe_inv host d scope hint now rl :
  limiter_inv rl -> limiter_inv (observe_server_throttle host d scope hint now rl).2.
Proof.
  intros Hi. unfold observe_server_throttle. case_match; [done|]. simpl.
  set (rl1 := if apply_global _ then _ else _).
  assert (limiter_inv rl1) as Hi1.
  { unfold rl1. case_match; [|done]. split; simpl; [|apply Hi|apply Hi].
    intros b. destruct (global rl) as [b0|] eqn:Hg; simpl; [|done]. intros [= <-].
    by apply apply_throttle_inv, Hi. }
  destruct (apply_host _); [|done]. destruct (per_host_policy rl1) as [p|] eqn:Hp; [|done].
  destruct (h ← host; _) as [key|]; [|done].
  pose proof (maybe_cleanup_inv now rl1 Hi1) as [Hg Hpp Hh]. split; simpl; [done|done|].
  apply map_Forall_insert_2; [|done]. apply apply_throttle_inv, host_entry_inv; [by apply Hi1|done].
Qed.

Lemma run_inv ops rl : limiter_inv rl -> limiter_inv (run ops rl).
Proof.
  unfold run. revert rl. induction ops as [|o ops IH]; intros rl Hi; simpl; [done|].
  apply IH. destruct o; simpl; [by apply acquire_inv|by apply observe_inv].
Qed.

Lemma new_inv g h now rl :
  (forall p, g = Some p -> policy_wf p) -> (forall p, h = Some p -> policy_wf p) ->
  new g h now = Some rl -> limiter_inv rl.
Proof.
  intros Hg Hh Hn. unfold new in Hn.
  assert (limiter_inv {| global := (fun p => bucket_new p now) <$> g; per_host_policy := h; per_host := ∅;
    per_host_cleanup_origin := now; per_host_last_cleanup_ms := 0 |}) as Hi.
  { split; simpl; [|done|apply map_Forall_empty].
    intros b. destruct g; simpl; [|done]. intros [= <-]. by apply bucket_new_inv, Hg. }
  destruct g, h; simplify_eq; done.
Qed.

(** ** One instant *)
Lemma after_cleanup_global now rl : global (after_cleanup now rl) = global rl.
Proof.
  unfold after_cleanup, maybe_cleanup_stale_per_host_rate_limits. by repeat case_match.
Qed.

Lemma acquire_global host now rl b :
  global rl = Some b ->
  let '(d, rl') := acquire_delay host now rl in
  if d =? 0 then ready now b = true /\ global rl' = Some (consume_ready_token (refill now b))
  else global rl' = Some (refill now b).
Proof.
  intros Hg. pose proof (acquire_delay_zero host now rl) as [_ Hz].
  rewrite acquire_delay_eq in *. rewrite after_cleanup_global, Hg in *. simpl in *.
  destruct (ready now b && _) eqn:Hr; simpl in *.
  - apply andb_true_iff in Hr. tauto.
  - destruct (Z.eqb_spec (Z.max (opt_wait now (Some (refill now b)))
      (opt_wait now (refill now <$> host_bucket host now rl))) 0) as [H0|]; [|done].
    apply Hz in H0. done.
Qed.

Lemma grants_tokens hosts now rl b :
  limiter_inv rl -> global rl = Some b ->
  0 <= grants hosts now rl /\ scaled (grants hosts now rl) 0 <= val (tokens (refill now b)).
Proof.
  revert rl b. induction hosts as [|host hosts IH]; intros rl b Hi Hg.
  - split; [done|]. change (scaled (grants [] now rl) 0) with 0.
    apply val_nonneg, refill_inv. by apply Hi.
  - cbn [grants]. pose proof (acquire_global host now rl b Hg) as Ha.
    pose proof (acquire_inv host now rl Hi) as Hi'. destruct (acquire_delay host now rl) as [d rl'].
    simpl in Hi'. destruct (d =? 0).
    + destruct Ha as [Hr Hg']. destruct (IH rl' _ Hi' Hg') as [Hn Hle].
      rewrite refill_consume in Hle.
      destruct (consume_exact (refill now b)) as [_ Hv]; [apply refill_inv; by apply Hi|by apply ready_tokens|].
      rewrite Hv in Hle. split; [lia|]. unfold scaled in *. lia.
    + destruct (IH rl' _ Hi' Ha) as [Hn Hle]. rewrite refill_idem in Hle. split; [lia|].
      by rewrite Z.add_0_l.
Qed.

Lemma apply_throttle_policy now d b : policy (apply_throttle now d b) = policy b.
Proof. unfold apply_throttle. by repeat case_match. Qed.

(** The global bucket stays, with its policy. *)
Lemma run_op_global o rl b :
  global rl = Some b -> exists b', global (run_op o rl) = Some b' /\ policy b' = policy b.
Proof.
  intros Hg. destruct o as [host now|host d scope hint now]; simpl.
  - pose proof (acquire_global host now rl b Hg) as Ha. destruct (acquire_delay host now rl) as [d rl'].
    simpl. case_match; [destruct Ha as [_ Ha]|]; eexists; (split; [exact Ha|]); by rewrite <- (refill_policy now b).
  - unfold observe_server_throttle. case_match; [eauto|]. simpl.
    set (rl1 := if apply_global _ then _ else _).
    assert (exists b', global rl1 = Some b' /\ policy b' = policy b) as Hrl1.
    { unfold rl1. case_match; [|eauto]. simpl. rewrite Hg. simpl. eauto using apply_throttle_policy. }
    clearbody rl1. destruct (apply_host _); [|done]. destruct (per_host_policy rl1); [|done].
    destruct (h ← host; _); [|done]. simpl.
    unfold maybe_cleanup_stale_per_host_rate_limits. by repeat case_match.
Qed.

Lemma run_global ops rl b :
  global rl = Some b -> exists b', global (run ops rl) = Some b' /\ policy b' = policy b.
Proof.
  unfold run. revert rl b. induction ops as [|o ops IH]; intros rl b Hg; simpl; [eauto|].
  destruct (run_op_global o rl b Hg) as (b' & Hb' & <-). eauto.
Qed.

(** ** Full buckets *)
Lemma full_refill t b :
  bucket_inv b -> tokens b = f64_of_Z (burst (policy b)) -> tokens (refill t b) = f64_of_Z (burst (policy b)).
Proof.
  intros Hb Hf. unfold refill. destruct (Z.leb_spec t (last_refill_at b)); [done|]. simpl. rewrite Hf.
  destruct (burst_float (policy b)) as [Hbf Hbv]; [apply Hb|]. apply f64_min_add_full; [done| |].
  - rewrite Hbv. apply scaled_pos; [|lia]. destruct (inv_policy _ Hb) as [_ ?]. lia.
  - apply replenished_nonneg; [done|]. unfold Instant in *. lia.
Qed.

Lemma idle_full now b :
  bucket_inv b -> is_idle now b = true -> tokens b = f64_of_Z (burst (policy b)).
Proof.
  intros Hb Hi. unfold is_idle in Hi. apply andb_true_iff in Hi as [Hi _].
  destruct (burst_float (policy b)) as [Hbf Hbv]; [apply Hb|]. destruct (inv_tokens _ Hb) as [Hf Hv].
  rewrite f64_leb_val in Hi by done. zbool. symmetry. apply fin_val_eq; [done|done| |lia].
  rewrite Hbv. apply scaled_pos; [|lia]. destruct (inv_policy _ Hb) as [_ ?]. lia.
Qed.

Lemma idle_unthrottled now t b :
  is_idle now b = true -> now <= t -> throttled t (refill t b) = None.
Proof.
  unfold is_idle, refill, throttled. intros Hi Ht. apply andb_true_iff in Hi as [_ Hi].
  destruct (Z.leb_spec t (last_refill_at b)); simpl; destruct (throttle_until b) as [u|]; simpl; try done; zbool.
  - destruct (Z.ltb_spec t u); [unfold Instant in *; lia|done].
  - destruct (Z.leb_spec u t); simpl; [done|unfold Instant in *; lia].
Qed.

Lemma ready_unthrottled t b : throttled t (refill t b) = None -> ready t b = f64_leb f64_one (tokens (refill t b)).
Proof. unfold ready, can_consume_now. by intros ->. Qed.

End RateLimit.

(** ** Properties *)
Section Properties.
Context `{Http}.
Import RateLimit.

(** A policy a client builder accepts, with a burst exact in [f64]. *)
Definition rate_accepted (p : RateLimitPolicy) : Prop :=
  validate p = Ok tt /\ f64_wf (requests_per_second p) /\ 0 <= burst p < 2 ^ 53.

Lemma rate_accepted_wf p : rate_accepted p -> policy_wf p.
Proof. intros (? & ? & ?). by apply rate_validate_wf. Qed.

(** The tokens lie between zero and the burst, in the comparisons of the code. *)
Definition tokens_in_range (b : TokenBucket) : Prop :=
  f64_leb f64_zero (tokens b) = true /\ f64_leb (tokens b) (f64_of_Z (burst (policy b))) = true.

Lemma bucket_inv_range b : bucket_inv b -> tokens_in_range b.
Proof.
  intros [Hp [Hf Hv]]. destruct (burst_float _ Hp) as [Hbf Hbv]. pose proof (val_nonneg _ Hf).
  unfold tokens_in_range. rewrite !f64_leb_val, Hbv, !Z.leb_le by done. done.
Qed.

(** From construction with accepted policies and over any sequence of
    acquisitions and server throttles, every bucket, global and per host, holds a
    finite token count between zero and its burst. *)
Lemma rate_limiter_tokens_in_range g h now rl ops :
  (forall p, g = Some p -> rate_accepted p) -> (forall p, h = Some p -> rate_accepted p) ->
  new g h now = Some rl ->
  (forall b, global (run ops rl) = Some b -> tokens_in_range b) /\
  map_Forall (fun _ e => tokens_in_range (bucket e)) (per_host (run ops rl)).
Proof.
  intros Hg Hh Hn.
  assert (limiter_inv (run ops rl)) as [Hig _ Hih].
  { apply run_inv. eapply new_inv; [..|done]; eauto using rate_accepted_wf. }
  split; [eauto using bucket_inv_range|]. intros k e Hk. by eapply bucket_inv_range, Hih.
Qed.

(** At any one instant, after any history, the limiter grants at most the
    global burst of requests, whatever hosts they go to. *)
Lemma rate_limiter_burst_at_one_instant g h t0 rl ops hosts now :
  rate_accepted g -> (forall p, h = Some p -> rate_accepted p) ->
  new (Some g) h t0 = Some rl ->
  grants hosts now (run ops rl) <= burst g.
Proof.
  intros Hg Hh Hn.
  assert (limiter_inv (run ops rl)) as Hi.
  { apply run_inv. eapply new_inv; [..|done]; [intros ? [= <-]|]; eauto using rate_accepted_wf. }
  assert (global rl = Some (bucket_new g t0)) as Hrl by (simpl in Hn; by simplify_eq).
  destruct (run_global ops rl _ Hrl) as (b & Hb & Hpol). simpl in Hpol.
  destruct (grants_tokens hosts now _ _ Hi Hb) as [_ Hle].
  destruct (refill_inv now b) as [_ [_ Hv]]; [by apply Hi|].
  rewrite refill_policy, Hpol in Hv. apply (scaled_le_mono _ _ 0); lia.
Qed.

(** acquire_delay is all or nothing: it returns zero exactly when both the global
    bucket and the host's bucket are ready after refilling, and only then takes one
    token from each; otherwise both are only refilled. *)
Lemma acquire_delay_all_or_nothing host now rl :
  let hb := host_bucket host now rl in
  let '(delay, rl') := acquire_delay host now rl in
  let granted := all_ready now (global rl) && all_ready now hb in
  (delay = 0 <-> granted = true) /\ 0 <= delay /\
  global rl' =
    (if granted then consume_ready_token <$> (refill now <$> global rl) else refill now <$> global rl) /\
  forall p key, host_key (after_cleanup now rl) host = Some (p, key) ->
    bucket <$> (per_host rl' !! key) =
    (if granted then consume_ready_token <$> (refill now <$> hb) else refill now <$> hb).
Proof.
  simpl. pose proof (acquire_delay_zero host now rl) as [Hn Hz]. rewrite acquire_delay_eq in *.
  rewrite after_cleanup_global in *. unfold host_bucket in *.
  destruct (all_ready now (global rl) && _); simpl in *; (split; [done|]; split; [done|]; split; [done|]);
    intros p key Hk; rewrite Hk; simpl; unfold store_host; by rewrite lookup_insert_eq.
Qed.

(** A server throttle capped by max_throttle_delay holds: the bucket is then
    blocked at least until the capped instant, never beyond an earlier longer
    throttle, and neither readiness nor refilling lifts it earlier. *)
Lemma throttle_holds_until_cap now delay b :
  let cap := Z.min delay (max_throttle_delay (policy b)) in
  let b' := apply_throttle now delay b in
  0 < cap -> now + cap <= INSTANT_MAX ->
  exists until, throttle_until b' = Some until /\ now + cap <= until /\
    (throttle_until b = Some until \/ until = now + cap) /\
    forall t, t < until -> ready t b' = false /\ throttle_until (refill t b') = Some until.
Proof.
  intros cap b' Hcap Hmax. unfold b', apply_throttle. fold cap.
  unfold duration_is_zero, instant_checked_add.
  rewrite (proj2 (Z.eqb_neq _ _)), (proj2 (Z.leb_le _ _)) by lia. cbn [throttle_until].
  eexists. split; [done|]. split; [destruct (throttle_until b); lia|].
  split; [destruct (throttle_until b) as [u|]; [|by right];
          destruct (Z.max_spec u (now + cap)) as [[_ ->]|[_ ->]]; auto|].
  intros t Ht. match goal with |- ready t ?x = _ /\ _ => set (b1 := x) in * end.
  assert (throttle_until (refill t b1) = throttle_until b1) as Hr.
  { unfold refill. destruct (t <=? last_refill_at b1); [done|]. cbn [throttle_until].
    subst b1; cbn [throttle_until]. by rewrite (proj2 (Z.leb_gt _ _) Ht). }
  split; [|done]. unfold ready, can_consume_now, throttled. rewrite Hr. simpl.
  by rewrite (proj2 (Z.ltb_lt _ _) Ht).
Qed.

(** C30: An entry that cleanup removes, of a bucket with a burst below 2^53, is
    indistinguishable from the bucket that would replace it: at every later instant
    it would have held the same tokens, no throttle, and the same readiness. *)
Theorem cleanup_evicts_only_fresh_equivalents now m k e t :
  bucket_inv (bucket e) ->
  m !! k = Some e -> cleanup_stale_per_host_rate_limits now m !! k = None -> now <= t ->
  let b := refill now (bucket e) in
  let fresh := bucket_new (policy (bucket e)) now in
  tokens (refill t b) = tokens (refill t fresh) /\ throttled t (refill t b) = None /\
  ready t b = ready t fresh.
Proof.
  intros Hb Hk Hn Ht b fresh.
  assert (is_idle now b = true) as Hidle by by eapply cleanup_spec.
  assert (bucket_inv b) as Hbi by by apply refill_inv.
  assert (bucket_inv fresh) as Hfi by apply bucket_new_inv, Hb.
  assert (is_idle now fresh = true) as Hfidle.
  { unfold is_idle, fresh. simpl. destruct (burst_float (policy (bucket e))) as [Hbf _]; [apply Hb|].
    rewrite f64_leb_val, Z.leb_refl by done. done. }
  assert (policy b = policy fresh) as Hpol by (unfold b; by rewrite refill_policy).
  assert (tokens (refill t b) = tokens (refill t fresh)) as Htok.
  { rewrite (full_refill t b), (full_refill t fresh), Hpol; [done|done| |done|];
      by apply (idle_full now). }
  pose proof (idle_unthrottled now t b Hidle Ht). pose proof (idle_unthrottled now t fresh Hfidle Ht).
  split; [done|]. split; [done|]. by rewrite !ready_unthrottled, Htok.
Qed.

(** After a cleanup the per-host table has at most PER_HOST_RATE_LIMIT_MAX_ENTRIES
    entries, or every remaining entry is in use (not idle). *)
Lemma cleanup_bounds_entries now m :
  let m' := cleanup_stale_per_host_rate_limits now m in
  Z.of_nat (size m') <= PER_HOST_RATE_LIMIT_MAX_ENTRIES \/
  map_Forall (fun _ e => is_idle now (bucket e) = false) m'.
Proof. apply cleanup_spec. Qed.


(** With automatic scope, a server throttle is applied only to limiters that exist,
    and to at least one of them when any exists, whatever scope the response headers
    hint at. *)
Lemma auto_scope_uses_available_limiters hint has_host has_global has_per_host :
  let scope := resolve_server_throttle_scope Auto hint has_host has_global has_per_host in
  has_global = true \/ has_host && has_per_host = true ->
  (apply_global scope = true -> has_global = true) /\
  (apply_host scope = true -> has_host && has_per_host = true) /\
  apply_global scope || apply_host scope = true.
Proof.
  intros scope. unfold scope, resolve_server_throttle_scope, resolve_auto_server_throttle_scope.
  destruct has_global, (has_host && has_per_host), hint as [[]|]; simpl; intuition congruence.
Qed.

End Properties.

(** ** Witnesses *)
Module RateDemo.
Import RateLimit.

Definition limiter : RateLimiter :=
  {| global := Some (bucket_new standard 0); per_host_policy := Some standard; per_host := ∅;
     per_host_cleanup_origin := 0; per_host_last_cleanup_ms := 0 |}.

Lemma standard_accepted : rate_accepted standard.
Proof. split; [vm_compute; reflexivity|]. split; [f64_concrete|]. split; vm_compute; (reflexivity || discriminate). Qed.

Lemma some_accepted p : Some standard = Some p -> rate_accepted p.
Proof. intros [= <-]. apply standard_accepted. Qed.

(** An entry not used for longer than the time to live. *)
Definition idle_entries : entries :=
  {[ lit "a" := {| bucket := bucket_new standard 0; last_used_at := 0 |} ]}.

End RateDemo.

Lemma rate_limiter_tokens_in_range_witness :
  let rl := RateLimit.run [RateLimit.Acquire (Some (lit "a")) 1; RateLimit.Acquire None 5] RateDemo.limiter in
  (forall b, RateLimit.global rl = Some b -> tokens_in_range b) /\
  map_Forall (fun _ e => tokens_in_range (RateLimit.bucket e)) (RateLimit.per_host rl).
Proof.
  exact (rate_limiter_tokens_in_range (Some RateLimit.standard) (Some RateLimit.standard) 0
    RateDemo.limiter [RateLimit.Acquire (Some (lit "a")) 1; RateLimit.Acquire None 5]
    RateDemo.some_accepted RateDemo.some_accepted eq_refl).
Defined.

Lemma rate_limiter_burst_at_one_instant_witness :
  RateLimit.grants (repeat None 60) 3 (RateLimit.run [RateLimit.Acquire None 1] RateDemo.limiter) <= 50.
Proof.
  exact (rate_limiter_burst_at_one_instant RateLimit.standard (Some RateLimit.standard) 0 RateDemo.limiter
    [RateLimit.Acquire None 1] (repeat None 60) 3 RateDemo.standard_accepted RateDemo.some_accepted eq_refl).
Defined.

Lemma throttle_holds_until_cap_witness :
  exists until, RateLimit.throttle_until
      (RateLimit.apply_throttle 7 (duration_from_secs 90) (RateLimit.bucket_new RateLimit.standard 0)) = Some until /\
    7 + duration_from_secs 30 <= until.
Proof.
  destruct (throttle_holds_until_cap 7 (duration_from_secs 90) (RateLimit.bucket_new RateLimit.standard 0))
    as (until & Hu & Hc & _); [vm_compute; reflexivity|vm_compute; discriminate|].
  exists until. exact (conj Hu Hc).
Defined.

Lemma cleanup_evicts_only_fresh_equivalents_witness :
  RateLimit.ready (duration_from_secs 401)
    (RateLimit.refill (duration_from_secs 400) (RateLimit.bucket_new RateLimit.standard 0)) =
  RateLimit.ready (duration_from_secs 401)
    (RateLimit.bucket_new RateLimit.standard (duration_from_secs 400)).
Proof.
  refine (proj2 (proj2 (cleanup_evicts_only_fresh_equivalents (duration_from_secs 400) RateDemo.idle_entries
    (lit "a") {| RateLimit.bucket := RateLimit.bucket_new RateLimit.standard 0; RateLimit.last_used_at := 0 |}
    (duration_from_secs 401) _ _ _ _))).
  - apply RateLimit.bucket_new_inv, rate_accepted_wf, RateDemo.standard_accepted.
  - vm_compute. reflexivity.
  - vm_compute. reflexivity.
  - vm_compute. discriminate.
Defined.
