(* ===== verification/Execution.v ===== *)
(** * Request execution (core/execution.rs, core/policy.rs, core/request_builder.rs,
    core/request_body.rs, and the timeout validation of core/config.rs)

    The state of one logical request across attempts and redirects, the retry
    schedule, the failure classification, the attempt guards that settle the circuit
    and concurrency controls, and the redirect decision.  The client around it is
    abstract: eligibility, endpoint selection and backoff sources are functions,
    clock readings and random samples are arguments, and the controls a guard settles
    are any two instances of [AttemptOutcome]. *)
From Stdlib Require Import Ascii String.
From S2P Require Import Prelude Float64 Text HttpApi UriText Errors Redaction UriResolve Redirect.
From S2P Require Import Headers Timing Retry RetryBudget CircuitBreaker Adaptive.

(** ** Policies *)
Record RedirectPolicy := { max_redirects : Z }.
Definition redirect_none : RedirectPolicy := {| max_redirects := 0 |}.
Definition limited (n : Z) : RedirectPolicy := {| max_redirects := n |}.
Definition follow : RedirectPolicy := limited 10.
Definition redirect_enabled (p : RedirectPolicy) : bool := 0 <? max_redirects p.

Inductive StatusPolicy := StatusError | StatusResponse.

Definition should_return_non_success_response (p : StatusPolicy) : bool :=
  match p with StatusResponse => true | StatusError => false end.

(** ** Bodies *)
Inductive RequestBody (Stream : Type) :=
| Buffered (bytes : list Z)
| Streaming (stream : Stream).
Arguments Buffered {Stream} bytes.
Arguments Streaming {Stream} stream.

Definition body_default {Stream} : RequestBody Stream := Buffered [].

Definition is_replayable {Stream} (b : RequestBody Stream) : bool :=
  match b with Buffered _ => true | Streaming _ => false end.

Definition known_length {Stream} (b : RequestBody Stream) : option Z :=
  match b with Buffered bytes => Some (Z.of_nat (length bytes)) | Streaming _ => None end.

(** The body of this attempt, and what remains. *)
Definition take_for_attempt {Stream} (b : RequestBody Stream) : RequestBody Stream * RequestBody Stream :=
  match b with Buffered bytes => (Buffered bytes, b) | Streaming _ => (b, body_default) end.

Section Execution.
Context `{Http} `{UrlCrate} `{HttpDate}.

(** ** Options *)
Record RequestExecutionOptions := {
  request_timeout : Duration;
  total_timeout : option Duration;
  retry_policy : RetryPolicy;
  max_response_body_bytes : Z;
  redirect_policy : RedirectPolicy;
  status_policy : StatusPolicy;
}.

Record RequestExecutionOverrides := {
  o_request_timeout : option Duration;
  o_total_timeout : option (option Duration);
  o_retry_policy : option RetryPolicy;
  o_max_response_body_bytes : option Z;
  o_redirect_policy : option RedirectPolicy;
  o_status_policy : option StatusPolicy;
  o_auto_accept_encoding : option bool;
}.

Definition invalid_timeout_config (request_timeout : Duration)
    (total_timeout connect_timeout : option Duration) (message : string) : Error.t :=
  Error.InvalidTimeoutConfig (duration_millis_ceil request_timeout)
    (duration_millis_ceil <$> total_timeout) (duration_millis_ceil <$> connect_timeout) message.

Definition is_zero_opt (d : option Duration) : bool :=
  match d with Some d => duration_is_zero d | None => false end.

Definition validate_timeout_config (request_timeout : Duration)
    (total_timeout connect_timeout : option Duration) : result unit Error.t :=
  let invalid m := Err (invalid_timeout_config request_timeout total_timeout connect_timeout m) in
  if duration_is_zero request_timeout then invalid "request_timeout must be greater than zero"
  else if is_zero_opt total_timeout then invalid "total_timeout must be greater than zero"
  else if is_zero_opt connect_timeout then invalid "connect_timeout must be greater than zero"
  else Ok tt.

Definition resolve_overrides (o : RequestExecutionOverrides) (defaults : RequestExecutionOptions)
    : result RequestExecutionOptions Error.t :=
  let rt := default (request_timeout defaults) (o_request_timeout o) in
  let tt_ := default (total_timeout defaults) (o_total_timeout o) in
  let? _ :=
    if is_some (o_request_timeout o) || is_some (o_total_timeout o)
    then validate_timeout_config rt tt_ None else Ok tt in
  let? policy :=
    match o_retry_policy o with
    | Some policy => let? _ := validate policy in Ok policy
    | None => Ok (retry_policy defaults)
    end in
  Ok {| request_timeout := rt; total_timeout := tt_; retry_policy := policy;
        max_response_body_bytes := default (max_response_body_bytes defaults) (o_max_response_body_bytes o);
        redirect_policy := default (redirect_policy defaults) (o_redirect_policy o);
        status_policy := default (status_policy defaults) (o_status_policy o) |}.

(** ** Preparation *)
Definition EndpointSelector := Method -> str -> str -> result str Error.t.

Definition select_base_url (selector : option EndpointSelector) (method : Method)
    (path configured_base_url : str) : result str Error.t :=
  match selector with
  | None => Ok configured_base_url
  | Some select =>
    let? selected := select method path configured_base_url in
    let? _ := validate_base_url selected in
    Ok selected
  end.

Record RetryRequestInput (Body : Type) := {
  in_method : Method;
  in_uri : Uri;
  in_redacted_uri_text : str;
  in_merged_headers : HeaderMap;
  in_body : Body;
  in_execution_options : RequestExecutionOptions;
}.

Definition prepare_retry_request_input {Stream} (features : Features)
    (endpoint_selector : option EndpointSelector) (configured_base_url : str) (method : Method)
    (path : str) (default_headers headers : HeaderMap) (body : option (RequestBody Stream))
    (execution_options : RequestExecutionOverrides) (defaults : RequestExecutionOptions)
    (default_auto_accept_encoding : bool) : result (RetryRequestInput (RequestBody Stream)) Error.t :=
  let? base_url := select_base_url endpoint_selector method path configured_base_url in
  let? (uri_text, uri) := resolve_uri base_url path in
  let redacted_uri_text := redact_uri_for_logs uri_text in
  let auto_accept_encoding :=
    default default_auto_accept_encoding (o_auto_accept_encoding execution_options) in
  let? execution_options := resolve_overrides execution_options defaults in
  let has_request_content_length := hm_contains_key headers (header_name "content-length") in
  let merged_headers := merge_headers default_headers headers in
  let merged_headers :=
    if has_request_content_length then merged_headers
    else hm_remove merged_headers (header_name "content-length") in
  let merged_headers :=
    if auto_accept_encoding then ensure_accept_encoding features method merged_headers
    else merged_headers in
  Ok {| in_method := method; in_uri := uri; in_redacted_uri_text := redacted_uri_text;
        in_merged_headers := merged_headers; in_body := default body_default body;
        in_execution_options := execution_options |}.

(** ** Retry delays *)
Definition BackoffSource := RetryPolicy -> Z -> Duration.

Definition retry_backoff (rng : sampler) (policy : RetryPolicy) (source : option BackoffSource)
    (attempt : Z) : Duration :=
  match source with
  | Some source => source policy attempt
  | None => backoff_for_retry rng policy attempt
  end.

Definition status_retry_delay (now_system : SystemTime) (headers : HeaderMap)
    (fallback max_delay : Duration) : Duration :=
  let retry_after_cap := if duration_is_zero max_delay then duration_from_millis 1 else max_delay in
  let fallback := Z.min fallback retry_after_cap in
  default fallback (parse_retry_after_capped headers now_system retry_after_cap).

Definition server_throttle_delay (now_system : SystemTime) (headers : HeaderMap) (fallback : Duration)
    : Duration :=
  default fallback (parse_retry_after headers now_system).

(** ** State *)
Record RequestExecutionState := {
  options : RequestExecutionOptions;
  request_started_at : Instant;
  attempt : Z;
  max_attempts : Z;
  redirect_count : Z;
  current_method : Method;
  current_uri : Uri;
  current_redacted_uri : str;
  current_headers : HeaderMap;
  body_replayable : bool;
}.

Definition from_request {Stream} (input : RetryRequestInput (RequestBody Stream))
    (started_at : Instant) (supports_retry : RetryEligibility)
    : RequestExecutionState * RequestBody Stream :=
  let body_replayable := is_replayable (in_body _ input) in
  let max_attempts :=
    if supports_retry (in_method _ input) (in_merged_headers _ input) && body_replayable
    then Retry.max_attempts (retry_policy (in_execution_options _ input)) else 1 in
  ({| options := in_execution_options _ input; request_started_at := started_at; attempt := 1;
      max_attempts := max_attempts; redirect_count := 0; current_method := in_method _ input;
      current_uri := in_uri _ input; current_redacted_uri := in_redacted_uri_text _ input;
      current_headers := in_merged_headers _ input; body_replayable := body_replayable |},
   in_body _ input).

Definition can_attempt (s : RequestExecutionState) : bool := attempt s <=? max_attempts s.

Definition set_attempts (s : RequestExecutionState) (n m : Z) : RequestExecutionState :=
  {| options := options s; request_started_at := request_started_at s; attempt := n;
     max_attempts := m; redirect_count := redirect_count s; current_method := current_method s;
     current_uri := current_uri s; current_redacted_uri := current_redacted_uri s;
     current_headers := current_headers s; body_replayable := body_replayable s |}.

Definition tighten_retry_eligibility (attempt_headers : HeaderMap) (supports_retry : RetryEligibility)
    (s : RequestExecutionState) : RequestExecutionState :=
  if (attempt s <? max_attempts s)
     && (negb (body_replayable s) || negb (supports_retry (current_method s) attempt_headers))
  then set_attempts s (attempt s) (attempt s)
  else s.

Definition state_phase_timeout (s : RequestExecutionState) (now : Instant) : option Duration :=
  phase_timeout (request_timeout (options s)) (total_timeout (options s)) (request_started_at s) now.

Definition deadline_error (s : RequestExecutionState) : Error.t :=
  deadline_exceeded_error (total_timeout (options s)) (current_method s) (current_redacted_uri s).

Definition transport_timeout_error (now : Instant) (timeout_ms : Z) (s : RequestExecutionState)
    : Error.t :=
  if total_timeout_expired (total_timeout (options s)) (request_started_at s) now
  then deadline_error s
  else Error.Timeout TimeoutPhase.Transport timeout_ms (current_method s) (current_redacted_uri s).

Definition state_retry_backoff (rng : sampler) (source : option BackoffSource)
    (s : RequestExecutionState) : Duration :=
  retry_backoff rng (retry_policy (options s)) source (attempt s).

Definition decision (s : RequestExecutionState) (r : RetryReason) : RetryDecision :=
  {| Retry.attempt := attempt s; decision_max_attempts := max_attempts s;
     method := current_method s; uri := current_redacted_uri s; reason := r |}.

Record RetryPlan := { plan_decision : RetryDecision; plan_delay : Duration }.

Definition status_retry_plan (rng : sampler) (status : StatusCode) (headers : HeaderMap)
    (now_system : SystemTime) (source : option BackoffSource) (s : RequestExecutionState) : RetryPlan :=
  {| plan_decision := decision s (Retry.Status status);
     plan_delay := status_retry_delay now_system headers (state_retry_backoff rng source s)
                     (max_backoff (retry_policy (options s))) |}.

Definition transport_retry_decision_from_error (s : RequestExecutionState) (error : Error.t)
    : option RetryDecision :=
  match error with
  | Error.Transport kind _ _ _ _ => Some (decision s (Retry.Transport kind))
  | Error.Timeout phase _ _ _ => Some (decision s (Retry.Timeout phase))
  | _ => None
  end.

Inductive AttemptDisposition := DispositionFailure | DispositionCancel.

Inductive TransportFailurePlan :=
| PlanRetry (plan : RetryPlan)
| PlanTerminal (attempt_disposition : AttemptDisposition).

Definition transport_failure_plan (rng : sampler) (source : option BackoffSource)
    (s : RequestExecutionState) (error : Error.t) : TransportFailurePlan :=
  match transport_retry_decision_from_error s error with
  | Some d => PlanRetry {| plan_decision := d; plan_delay := state_retry_backoff rng source s |}
  | None =>
    PlanTerminal (match error with Error.DeadlineExceeded _ _ _ => DispositionFailure
                  | _ => DispositionCancel end)
  end.

(** ** Scheduling a retry

    [consume_retry_budget] acts on the budget's state [B]. *)
Inductive RetrySchedule := NotScheduled | Scheduled (delay : Duration).

Definition prepare_retry_schedule {B} (now : Instant) (retry_decision : RetryDecision)
    (requested_delay : Duration)
    (consume_retry_budget : Method -> str -> B -> result unit Error.t * B)
    (s : RequestExecutionState) (budget : B)
    : result RetrySchedule Error.t * RequestExecutionState * B :=
  if (max_attempts s <=? attempt s)
     || negb (should_retry_decision (retry_policy (options s)) retry_decision)
  then (Ok NotScheduled, s, budget)
  else match bounded_retry_delay requested_delay (total_timeout (options s)) (request_started_at s) now with
  | None => (Err (deadline_error s), s, budget)
  | Some delay =>
    match consume_retry_budget (current_method s) (current_redacted_uri s) budget with
    | (Err e, budget) => (Err e, s, budget)
    | (Ok _, budget) =>
      (Ok (Scheduled delay), set_attempts s (attempt s + 1) (max_attempts s), budget)
    end
  end.

(** [try_consume_retry_budget] of the clients. *)
Definition try_consume_retry_budget (policy : RetryBudget.RetryBudgetPolicy) (now : Instant)
    (method : Method) (uri : str) (budget : option RetryBudget.RetryBudgetState)
    : result unit Error.t * option RetryBudget.RetryBudgetState :=
  match budget with
  | None => (Ok tt, None)
  | Some st =>
    let '(granted, st) := RetryBudget.try_consume_retry policy now st in
    (if granted then Ok tt else Err (Error.RetryBudgetExhausted method uri), Some st)
  end.

(** ** Reading the body *)
Inductive BodyReadFailure :=
| BodyTerminal (error : Error.t)
| BodyRetryable (error : Error.t) (retry_plan : RetryPlan).

Definition response_body_too_large_error (s : RequestExecutionState) (actual_bytes : Z) : Error.t :=
  Error.ResponseBodyTooLarge (max_response_body_bytes (options s)) actual_bytes (current_method s)
    (current_redacted_uri s).

Definition response_body_read_failure (rng : sampler) (source : option BackoffSource)
    (s : RequestExecutionState) (cause : BoxError) : BodyReadFailure :=
  BodyRetryable (Error.ReadBody cause)
    {| plan_decision := decision s Retry.ResponseBodyRead;
       plan_delay := state_retry_backoff rng source s |}.

Definition response_body_timeout_failure (rng : sampler) (source : option BackoffSource)
    (now : Instant) (read_timeout : Duration) (s : RequestExecutionState) : BodyReadFailure :=
  if total_timeout_expired (total_timeout (options s)) (request_started_at s) now
  then BodyTerminal (deadline_error s)
  else
    BodyRetryable
      (Error.Timeout TimeoutPhase.ResponseBody (duration_millis_ceil read_timeout) (current_method s)
         (current_redacted_uri s))
      {| plan_decision := decision s (Retry.Timeout TimeoutPhase.ResponseBody);
         plan_delay := state_retry_backoff rng source s |}.

(** ** Completion *)
Inductive RequestCompletion := CompletionSuccess | CompletionFailure.

Definition from_response_status (policy : RetryPolicy) (status : StatusCode) : RequestCompletion :=
  if is_retryable_status policy status then CompletionFailure else CompletionSuccess.

Definition http_status_error (status : StatusCode) (method : Method) (redacted_uri : str)
    (headers : HeaderMap) (body : str) : Error.t :=
  Error.HttpStatus (as_u16 status) method redacted_uri headers body.

Definition terminal_non_success (s : RequestExecutionState) (status : StatusCode)
    (headers : HeaderMap) (body : list Z) : Error.t * RequestCompletion :=
  (http_status_error status (current_method s) (current_redacted_uri s) headers (truncate_body body),
   from_response_status (retry_policy (options s)) status).

(** ** Redirects *)
Record RedirectAction := {
  next_method : Method;
  next_uri : Uri;
  next_redacted_uri : str;
  drops_body : bool;
  same_origin_redirect : bool;
}.

Definition next_redirect_action (status : StatusCode) (response_headers : HeaderMap)
    (s : RequestExecutionState) : result (option RedirectAction) Error.t :=
  let policy := redirect_policy (options s) in
  if negb (redirect_enabled policy) || negb (is_redirect_status status) then Ok None
  else if max_redirects policy <=? redirect_count s
  then Err (Error.RedirectLimitExceeded (max_redirects policy) (current_method s) (current_redacted_uri s))
  else
    let next_method := redirect_method (current_method s) status in
    let drops_body := redirect_drops_body (current_method s) status in
    if negb (body_replayable s) && negb drops_body
    then Err (Error.RedirectBodyNotReplayable (current_method s) (current_redacted_uri s))
    else match redirect_location response_headers with
    | None => Err (Error.MissingRedirectLocation (as_u16 status) (current_method s) (current_redacted_uri s))
    | Some location =>
      match resolve_redirect_uri (current_uri s) location with
      | None =>
        Err (Error.InvalidRedirectLocation (redact_uri_for_logs location) (current_method s)
               (current_redacted_uri s))
      | Some next_uri =>
        Ok (Some {| next_method := next_method; next_uri := next_uri;
                    next_redacted_uri := redact_uri_for_logs (uri_to_string next_uri);
                    drops_body := drops_body;
                    same_origin_redirect := same_origin (current_uri s) next_uri |})
      end
    end.

Definition apply_redirect (a : RedirectAction) (supports_retry : RetryEligibility)
    (s : RequestExecutionState) : bool * RequestExecutionState :=
  let headers := sanitize_headers_for_redirect (current_headers s) (drops_body a) (same_origin_redirect a) in
  let replayable := if drops_body a then true else body_replayable s in
  let attempts :=
    if (max_attempts s =? 1) && replayable && supports_retry (next_method a) headers
    then Retry.max_attempts (retry_policy (options s)) else max_attempts s in
  (drops_body a,
   {| options := options s; request_started_at := request_started_at s; attempt := attempt s;
      max_attempts := attempts; redirect_count := sat_add usize_max (redirect_count s) 1;
      current_method := next_method a; current_uri := next_uri a;
      current_redacted_uri := next_redacted_uri a; current_headers := headers;
      body_replayable := replayable |}).

End Execution.

(** ** Guards

    What a control promises to the executor: the three ways an attempt ends, each a
    transition of a state [S] that holds the control.  [CircuitAttempt] and the
    adaptive permit are the two instances, on a state that pairs the circuit breaker
    with the concurrency limit. *)
Class AttemptOutcome (A S : Type) := {
  outcome_success : Instant -> A -> S -> S;
  outcome_failure : Instant -> A -> S -> S;
  outcome_cancel : A -> S -> S;
}.

#[export] Instance circuit_outcome {X} (p : CircuitBreaker.CircuitBreakerPolicy)
    : AttemptOutcome CircuitBreaker.CircuitAttempt (CircuitBreaker.t * X) := {
  outcome_success _ a w := (CircuitBreaker.mark_success p a w.1, w.2);
  outcome_failure now a w := (CircuitBreaker.mark_failure p now a w.1, w.2);
  outcome_cancel a w := (CircuitBreaker.cancel p a w.1, w.2);
}.

#[export] Instance adaptive_outcome {X} (p : Adaptive.AdaptiveConcurrencyPolicy)
    : AttemptOutcome Adaptive.AdaptiveConcurrencyPermit (X * Adaptive.AdaptiveConcurrencyState) := {
  outcome_success now a w := (w.1, Adaptive.finish p (Adaptive.MarkSuccess now) a w.2);
  outcome_failure now a w := (w.1, Adaptive.finish p (Adaptive.MarkFailure now) a w.2);
  outcome_cancel a w := (w.1, Adaptive.finish p Adaptive.Cancel a w.2);
}.

Record AttemptGuards (C A : Type) := { circuit : option C; adaptive : option A }.
Arguments circuit {C A} _.
Arguments adaptive {C A} _.

Section Guards.
Context {C A S : Type} `{!AttemptOutcome C S} `{!AttemptOutcome A S}.

Definition no_guards : AttemptGuards C A := {| circuit := None; adaptive := None |}.

Definition guards_is_empty (g : AttemptGuards C A) : bool :=
  match circuit g, adaptive g with None, None => true | _, _ => false end.

Definition set_adaptive (g : AttemptGuards C A) (a : option A) : AttemptGuards C A :=
  {| circuit := circuit g; adaptive := a |}.

(** [take]: the guards move, an empty pair stays. *)
Definition guards_take (g : AttemptGuards C A) : AttemptGuards C A * AttemptGuards C A := (g, no_guards).

(** Every settling operation takes both guards, the circuit attempt first. *)
Definition settle (fc : C -> S -> S) (fa : A -> S -> S) (g : AttemptGuards C A) (w : S)
    : AttemptGuards C A * S :=
  let w := match circuit g with Some c => fc c w | None => w end in
  let w := match adaptive g with Some a => fa a w | None => w end in
  (no_guards, w).

Definition guards_mark_success (now : Instant) : AttemptGuards C A -> S -> AttemptGuards C A * S :=
  settle (outcome_success now) (outcome_success now).
Definition guards_mark_failure (now : Instant) : AttemptGuards C A -> S -> AttemptGuards C A * S :=
  settle (outcome_failure now) (outcome_failure now).
Definition guards_cancel : AttemptGuards C A -> S -> AttemptGuards C A * S :=
  settle outcome_cancel outcome_cancel.

Definition apply_disposition (d : AttemptDisposition) (now : Instant)
    : AttemptGuards C A -> S -> AttemptGuards C A * S :=
  match d with DispositionFailure => guards_mark_failure now | DispositionCancel => guards_cancel end.

Definition record_failure_for_retry_schedule {E} (now : Instant) (schedule : result RetrySchedule E)
    (g : AttemptGuards C A) (w : S) : AttemptGuards C A * S :=
  match schedule with
  | Ok (Scheduled _) => guards_mark_failure now g w
  | Ok NotScheduled => (g, w)
  | Err _ => guards_mark_failure now g w
  end.

Definition record_failure_on_error {T E} (now : Instant) (r : result T E) (g : AttemptGuards C A)
    (w : S) : AttemptGuards C A * S :=
  match r with Ok _ => (g, w) | Err _ => guards_mark_failure now g w end.

Definition record_attempt (c : RequestCompletion) (now : Instant)
    : AttemptGuards C A -> S -> AttemptGuards C A * S :=
  match c with CompletionSuccess => guards_mark_success now | CompletionFailure => guards_mark_failure now end.

(** [record_completed]: settling, and crediting the retry budget on success. *)
Definition record_completed (c : RequestCompletion) (policy : RetryBudget.RetryBudgetPolicy)
    (now : Instant) (g : AttemptGuards C A) (w : S) (budget : option RetryBudget.RetryBudgetState)
    : AttemptGuards C A * S * option RetryBudget.RetryBudgetState :=
  let '(g, w) := record_attempt c now g w in
  (g, w, match c with
         | CompletionSuccess => RetryBudget.record_success policy now <$> budget
         | CompletionFailure => budget
         end).

End Guards.

(** ** The life of a request

    What a client's loop does to the state between attempts: interceptors tighten
    the eligibility, a retry is scheduled, a redirect is followed. *)
Section Life.
Context `{Http} `{UrlCrate}.

Inductive exec_step (supports_retry : RetryEligibility) (s : RequestExecutionState)
    : RequestExecutionState -> Prop :=
| exec_tighten headers :
    exec_step supports_retry s (tighten_retry_eligibility headers supports_retry s)
| exec_retry B now d delay consume (budget budget' : B) granted s' :
    prepare_retry_schedule now d delay consume s budget = (Ok (Scheduled granted), s', budget') ->
    exec_step supports_retry s s'
| exec_redirect status headers action :
    next_redirect_action status headers s = Ok (Some action) ->
    exec_step supports_retry s (apply_redirect action supports_retry s).2.

Definition configured (s : RequestExecutionState) : Z := Retry.max_attempts (retry_policy (options s)).

Record exec_inv (o : RequestExecutionOptions) (s : RequestExecutionState) : Prop := {
  inv_options : options s = o;
  inv_attempt : 1 <= attempt s <= max_attempts s;
  inv_max : max_attempts s <= Z.max 1 (Retry.max_attempts (retry_policy o));
  inv_redirects : 0 <= redirect_count s <= max_redirects (redirect_policy o);
  inv_replayable : 1 < max_attempts s -> body_replayable s = true;
}.

Lemma schedule_Scheduled {B} now d delay consume s (budget : B) granted s' budget' :
  prepare_retry_schedule now d delay consume s budget = (Ok (Scheduled granted), s', budget') ->
  attempt s < max_attempts s /\ s' = set_attempts s (attempt s + 1) (max_attempts s) /\
  should_retry_decision (retry_policy (options s)) d = true /\
  bounded_retry_delay delay (total_timeout (options s)) (request_started_at s) now = Some granted /\
  exists r, consume (current_method s) (current_redacted_uri s) budget = (Ok r, budget').
Proof.
  unfold prepare_retry_schedule. destruct (_ || _) eqn:Hc; [done|]. zbool.
  destruct (bounded_retry_delay _ _ _ _); [|done]. destruct (consume _ _ _) as [[r|e] b]; [|done].
  intros [= <- <- <-]. split_and!; try done. eauto.
Qed.

Lemma exec_inv_step supports_retry o s s' :
  1 <= Retry.max_attempts (retry_policy o) -> max_redirects (redirect_policy o) <= usize_max ->
  exec_step supports_retry s s' -> exec_inv o s -> exec_inv o s'.
Proof.
  intros Hc Hr Hstep [Ho Ha Hm Hrd Hrp].
  destruct Hstep as [headers|B now d delay consume b b' granted s' Hs|status headers action Hact].
  - unfold tighten_retry_eligibility. destruct (_ && _) eqn:Ht; [|done].
    split; simpl; try done; try lia. intros Hgt. apply Hrp. lia.
  - apply schedule_Scheduled in Hs as (Hlt & -> & _). split; simpl; try done; lia.
  - unfold next_redirect_action in Hact. rewrite Ho in Hact. destruct (_ || _); [done|].
    destruct (Z.leb_spec (max_redirects (redirect_policy o)) (redirect_count s)); [done|].
    destruct (negb _ && negb _) eqn:Hbody; [done|].
    destruct (redirect_location headers); [|done]. destruct (resolve_redirect_uri _ _); [|done].
    simplify_eq/=. split; simpl; [done| | | |].
    + destruct (Z.eqb_spec (max_attempts s) 1); simpl; [|lia]. case_match; lia.
    + case_match; lia.
    + rewrite sat_add_exact by lia. lia.
    + destruct (redirect_drops_body _ _); [done|].
      destruct (Z.eqb_spec (max_attempts s) 1); simpl; [|intros; apply Hrp; lia].
      destruct (body_replayable s); [done|]. simpl. lia.
Qed.

Lemma exec_inv_initial {Stream} (input : RetryRequestInput (RequestBody Stream)) started supports_retry :
  1 <= Retry.max_attempts (retry_policy (in_execution_options _ input)) ->
  0 <= max_redirects (redirect_policy (in_execution_options _ input)) ->
  exec_inv (in_execution_options _ input) (from_request input started supports_retry).1.
Proof.
  intros Hc Hr. split; simpl; try done; try lia; destruct (_ && _) eqn:Hs; try lia.
  by apply andb_true_iff in Hs as [_ ?].
Qed.

End Life.

(** ** Rounds of the loop

    A round that ends in another attempt: interceptors may tighten the eligibility,
    then a retry is scheduled or a redirect is followed. *)
Section Rounds.
Context `{Http} `{UrlCrate}.

Inductive round (supports_retry : RetryEligibility) (s : RequestExecutionState)
    : RequestExecutionState -> Prop :=
| round_retry headers B now d delay consume (budget budget' : B) granted s' :
    prepare_retry_schedule now d delay consume (tighten_retry_eligibility headers supports_retry s) budget
      = (Ok (Scheduled granted), s', budget') ->
    round supports_retry s s'
| round_redirect headers status response_headers action :
    next_redirect_action status response_headers (tighten_retry_eligibility headers supports_retry s)
      = Ok (Some action) ->
    round supports_retry s
      (apply_redirect action supports_retry (tighten_retry_eligibility headers supports_retry s)).2.

Definition progress (s : RequestExecutionState) : Z := attempt s + redirect_count s.

Lemma tighten_progress headers supports_retry s :
  progress (tighten_retry_eligibility headers supports_retry s) = progress s.
Proof. unfold tighten_retry_eligibility. by case_match. Qed.

Lemma round_steps supports_retry s s' :
  round supports_retry s s' -> rtc (exec_step supports_retry) s s'.
Proof.
  intros [headers B now d delay consume b b' g s1 Hs|headers status rh action Ha].
  - eapply rtc_l; [apply (exec_tighten _ _ headers)|]. eapply rtc_once, exec_retry, Hs.
  - eapply rtc_l; [apply (exec_tighten _ _ headers)|]. eapply rtc_once, exec_redirect, Ha.
Qed.

Lemma round_progress supports_retry s s' :
  0 <= redirect_count s < usize_max -> round supports_retry s s' -> progress s' = progress s + 1.
Proof.
  intros Hr [headers B now d delay consume b b' g s1 Hs|headers status rh action Ha].
  - apply schedule_Scheduled in Hs as (_ & -> & _). rewrite <- (tighten_progress headers supports_retry s).
    unfold progress. simpl. lia.
  - rewrite <- (tighten_progress headers supports_retry s). unfold progress. simpl.
    assert (redirect_count (tighten_retry_eligibility headers supports_retry s) = redirect_count s) as ->
      by (unfold tighten_retry_eligibility; by case_match).
    rewrite sat_add_exact by lia. lia.
Qed.

Lemma exec_inv_rtc supports_retry o s s' :
  1 <= Retry.max_attempts (retry_policy o) -> max_redirects (redirect_policy o) <= usize_max ->
  rtc (exec_step supports_retry) s s' -> exec_inv o s -> exec_inv o s'.
Proof.
  intros Hc Hr Hs Hi. eapply rtc_invariant; [exact Hi| |exact Hs].
  intros a b Hab. by eapply exec_inv_step.
Qed.

(** The options a client accepts. *)
Definition options_ok (o : RequestExecutionOptions) : Prop :=
  validate (retry_policy o) = Ok tt /\ 0 <= Retry.max_attempts (retry_policy o) /\
  is_usize (max_redirects (redirect_policy o)).

Lemma options_ok_bounds o :
  options_ok o -> 1 <= Retry.max_attempts (retry_policy o) /\ 0 <= max_redirects (redirect_policy o) <= usize_max.
Proof.
  intros (Hv & Hm & Hr). split; [|done]. unfold validate in Hv. case_match; [done|]. zbool. lia.
Qed.

(** In every state a request can reach from its creation, by any sequence of
    eligibility tightenings, scheduled retries and followed redirects, the current
    attempt lies between 1 and the attempt limit in force, that limit never exceeds
    the validated policy's max_attempts, and the redirect count never exceeds the
    redirect policy's limit. *)
Lemma execution_attempts_and_redirects_bounded {Stream} (input : RetryRequestInput (RequestBody Stream))
    started supports_retry s :
  options_ok (in_execution_options _ input) ->
  rtc (exec_step supports_retry) (from_request input started supports_retry).1 s ->
  1 <= attempt s <= max_attempts s /\
  max_attempts s <= Retry.max_attempts (retry_policy (in_execution_options _ input)) /\
  0 <= redirect_count s <= max_redirects (redirect_policy (in_execution_options _ input)).
Proof.
  intros [Hc Hr]%options_ok_bounds Hs.
  destruct (exec_inv_rtc supports_retry (in_execution_options _ input) _ _ ltac:(lia) ltac:(lia) Hs) as [_ Ha Hm Hrd _].
  { apply exec_inv_initial; lia. }
  lia.
Qed.

(** The request loop terminates: from a fresh request with validated options, the
    number of rounds that end in another attempt (a retry or a redirect, each after
    the interceptors' tightening) is below max_attempts plus the redirect limit, so
    no infinite sequence of rounds exists. *)
Lemma execution_loop_terminates {Stream} (input : RetryRequestInput (RequestBody Stream))
    started supports_retry n s :
  options_ok (in_execution_options _ input) ->
  max_redirects (redirect_policy (in_execution_options _ input)) < usize_max ->
  nsteps (round supports_retry) n (from_request input started supports_retry).1 s ->
  Z.of_nat n < Retry.max_attempts (retry_policy (in_execution_options _ input))
               + max_redirects (redirect_policy (in_execution_options _ input)).
Proof.
  intros [Hc Hr]%options_ok_bounds Hlt Hs. set (o := in_execution_options _ input) in *.
  assert (exec_inv o (from_request input started supports_retry).1) as Hi by (apply exec_inv_initial; fold o; lia).
  assert (progress (from_request input started supports_retry).1 = 1) as Hp by done.
  assert (exec_inv o s /\ progress s = 1 + Z.of_nat n) as [[_ Ha Hm Hrd _] Hps]; [|unfold progress in Hps; lia].
  rewrite <- Hp. clear Hp. induction Hs as [s0|n s0 s1 s2 H01 _ IH].
  - split; [done|lia].
  - assert (exec_inv o s1) as Hi1
      by (eapply exec_inv_rtc; [lia|lia|by apply round_steps|done]).
    destruct (IH Hi1) as [Hi2 ->]. split; [done|]. destruct Hi as [_ _ _ Hrd _].
    rewrite (round_progress supports_retry s0 s1) by (done || lia). lia.
Qed.

(** While the request's body is not replayable, in any reachable state, no retry can
    be scheduled (whatever the decision, the delay, the clock and the budget) and
    every redirect that is followed drops the body: a streamed body is sent at most
    once. *)
Lemma streamed_body_never_resent {Stream} (input : RetryRequestInput (RequestBody Stream))
    started supports_retry s :
  options_ok (in_execution_options _ input) ->
  rtc (exec_step supports_retry) (from_request input started supports_retry).1 s ->
  body_replayable s = false ->
  (forall B now d delay consume (budget budget' : B) g s',
     prepare_retry_schedule now d delay consume s budget <> (Ok (Scheduled g), s', budget')) /\
  (forall status headers action,
     next_redirect_action status headers s = Ok (Some action) -> drops_body action = true).
Proof.
  intros [Hc Hr]%options_ok_bounds Hs Hb.
  destruct (exec_inv_rtc supports_retry (in_execution_options _ input) _ _ ltac:(lia) ltac:(lia) Hs) as [_ Ha _ _ Hrp].
  { apply exec_inv_initial; lia. }
  split.
  - intros B now d delay consume b b' g s' Hsch. apply schedule_Scheduled in Hsch as (Hlt & _).
    rewrite Hrp in Hb by lia. done.
  - intros status headers action. unfold next_redirect_action. rewrite Hb.
    destruct (_ || _); [done|]. destruct (_ <=? _); [done|]. simpl.
    destruct (redirect_drops_body _ _) eqn:Hd; simpl; [|done].
    destruct (redirect_location headers); [|done]. destruct (resolve_redirect_uri _ _); [|done].
    intros [= <-]. done.
Qed.

(** The outcome of prepare_retry_schedule on every branch: a retry is scheduled
    only under the attempt limit, when the policy accepts the decision, when the
    whole delay ends before the total deadline, and after the retry budget was
    charged, and then exactly the attempt number grows by one; a refusal leaves
    state and budget as they were; a deadline error leaves the budget uncharged; any
    other error is the budget's own. *)
Lemma retry_schedule_spec {B} now d delay consume s (budget : B) :
  0 <= delay -> request_started_at s <= now ->
  let '(r, s', budget') := prepare_retry_schedule now d delay consume s budget in
  match r with
  | Ok (Scheduled granted) =>
    granted = delay /\ attempt s < max_attempts s /\
    should_retry_decision (retry_policy (options s)) d = true /\
    total_timeout_expired (total_timeout (options s)) (request_started_at s) (now + delay) = false /\
    s' = set_attempts s (attempt s + 1) (max_attempts s) /\
    exists ok, consume (current_method s) (current_redacted_uri s) budget = (Ok ok, budget')
  | Ok NotScheduled =>
    s' = s /\ budget' = budget /\
    (max_attempts s <= attempt s \/ should_retry_decision (retry_policy (options s)) d = false)
  | Err e =>
    s' = s /\
    ((e = deadline_error s /\ budget' = budget /\
      total_timeout_expired (total_timeout (options s)) (request_started_at s) (now + delay) = true) \/
     consume (current_method s) (current_redacted_uri s) budget = (Err e, budget'))
  end.
Proof.
  intros Hd Hs. unfold prepare_retry_schedule, bounded_retry_delay, total_timeout_expired.
  pose proof (elapsed_nonneg (request_started_at s) now).
  destruct (_ || _) eqn:Hc.
  { apply orb_true_iff in Hc as [Hc|Hc]; zbool; auto. }
  zbool. destruct (total_timeout (options s)) as [total|].
  - rewrite elapsed_later by done. unfold Duration in *.
    destruct (Z.leb_spec total (elapsed (request_started_at s) now)),
      (Z.leb_spec (total - elapsed (request_started_at s) now) delay),
      (Z.leb_spec total (elapsed (request_started_at s) now + delay)); try lia; try by auto.
    destruct (consume _ _ _) as [[ok|e] b]; [|by auto]. split_and!; eauto.
  - destruct (consume _ _ _) as [[ok|e] b]; [|by auto]. split_and!; eauto.
Qed.

End Rounds.

(** ** Settling the controls *)
Section Controls.
Context (pc : CircuitBreaker.CircuitBreakerPolicy) (pa : Adaptive.AdaptiveConcurrencyPolicy).
#[local] Existing Instance circuit_outcome.
#[local] Existing Instance adaptive_outcome.

(** The ways the executor settles a pair of guards. *)
Inductive settling := SettleSuccess (now : Instant) | SettleFailure (now : Instant) | SettleCancel.

Definition settle_with (e : settling)
    (g : AttemptGuards CircuitBreaker.CircuitAttempt Adaptive.AdaptiveConcurrencyPermit)
    (w : CircuitBreaker.t * Adaptive.AdaptiveConcurrencyState) :=
  match e with
  | SettleSuccess now =>
    @guards_mark_success _ _ _ (circuit_outcome pc) (adaptive_outcome pa) now g w
  | SettleFailure now =>
    @guards_mark_failure _ _ _ (circuit_outcome pc) (adaptive_outcome pa) now g w
  | SettleCancel => @guards_cancel _ _ _ (circuit_outcome pc) (adaptive_outcome pa) g w
  end.

(** Settling a pair of attempt guards by success, failure or cancellation is
    exactly one end-of-attempt step of the circuit breaker's transition system and
    one release step of the adaptive controller's, empties the pair, and makes every
    later settling a no-op, so each attempt is reported to each control once. *)
Lemma guards_settle_by_control_steps e b c l1 l2 st a ps1 ps2 cs :
  let '(g, (b', st')) := settle_with e {| circuit := Some c; adaptive := Some a |} (b, st) in
  guards_is_empty g = true /\
  CircuitBreaker.step pc
    {| CircuitBreaker.breaker := b; CircuitBreaker.live := l1 ++ c :: l2 |}
    {| CircuitBreaker.breaker := b'; CircuitBreaker.live := l1 ++ l2 |} /\
  Adaptive.step pa
    {| Adaptive.limits := st; Adaptive.permits := ps1 ++ a :: ps2; Adaptive.callers := cs |}
    {| Adaptive.limits := st'; Adaptive.permits := ps1 ++ ps2; Adaptive.callers := Adaptive.wake <$> cs |} /\
  forall e' w, settle_with e' g w = (g, w).
Proof.
  destruct e as [now|now|]; simpl; (split; [done|]; split; [constructor|]; split).
  1: exact (Adaptive.step_finish pa st ps1 a ps2 cs (Adaptive.MarkSuccess now)).
  2: exact (Adaptive.step_finish pa st ps1 a ps2 cs (Adaptive.MarkFailure now)).
  3: exact (Adaptive.step_finish pa st ps1 a ps2 cs Adaptive.Cancel).
  all: by intros [] [].
Qed.

End Controls.

Section Delays.
Context `{Http} `{HttpDate}.

(** Neither a Retry-After hint nor the fallback outlasts the configured ceiling. *)
Lemma status_retry_delay_capped now headers fallback max_delay :
  0 < max_delay -> status_retry_delay now headers fallback max_delay <= max_delay.
Proof.
  intros Hm. unfold status_retry_delay, duration_is_zero, parse_retry_after_capped.
  rewrite (proj2 (Z.eqb_neq _ _)) by lia. destruct (parse_retry_after headers now); simpl; lia.
Qed.

End Delays.

Section RedirectState.
Context `{HttpLaws} `{UrlCrate} `{HttpDate}.

(** C34: The URI a redirect leads to carries no userinfo; and after following a
    redirect to another origin, no header of the next request is marked sensitive
    and none is authorization, cookie or proxy-authorization. *)
Theorem redirect_step_drops_credentials supports_retry status rh action s :
  next_redirect_action status rh s = Ok (Some action) ->
  let s' := (apply_redirect action supports_retry s).2 in
  uri_has_userinfo (current_uri s') = false /\
  (same_origin (current_uri s) (current_uri s') = false ->
   forall n v, v ∈ hm_get_all (current_headers s') n ->
   is_sensitive v = false /\ n <> header_name "authorization" /\ n <> header_name "cookie" /\
   n <> header_name "proxy-authorization").
Proof.
  intros Hact s'. unfold next_redirect_action in Hact.
  destruct (_ || _); [done|]. destruct (_ <=? _); [done|]. destruct (negb _ && negb _); [done|].
  destruct (redirect_location rh) as [location|]; [|done].
  destruct (resolve_redirect_uri (current_uri s) location) as [next|] eqn:Hres; [|done].
  simplify_eq/=. split; [by eapply resolve_redirect_no_userinfo|]. intros Hso n v Hv. rewrite Hso in Hv.
  destruct (sanitize_get_all (current_headers s) (redirect_drops_body (current_method s) status) false n) as [Hr Hk].
  assert (~ removed (current_headers s) (redirect_drops_body (current_method s) status) false n) as Hn.
  { intros Hrem. rewrite (Hr Hrem) in Hv. by apply not_elem_of_nil in Hv. }
  rewrite (Hk Hn) in Hv. unfold removed, credential_headers in Hn. split.
  - apply not_true_iff_false. intros Hs. apply Hn. naive_solver.
  - split_and!; [set_solver|set_solver|naive_solver].
Qed.

Lemma header_names_distinct a b :
  forallb static_name_char (lit a) = true -> forallb static_name_char (lit b) = true ->
  lit a <> lit b -> header_name a <> header_name b.
Proof.
  intros Ha Hb Hne Heq. apply Hne. rewrite <- (header_name_static a Ha), <- (header_name_static b Hb).
  by rewrite Heq.
Qed.

Lemma contains_key_nil m n : hm_contains_key m n = false <-> hm_get_all m n = [].
Proof. unfold hm_contains_key. by destruct (hm_get_all m n). Qed.

(** A request that passes preparation has a URI without userinfo, and its content-
    length values are exactly those the caller set on the request, never a client
    default. *)
Lemma prepared_request_is_sound {Stream} features sel base method path dh h (body : option (RequestBody Stream))
    overrides defaults auto input :
  prepare_retry_request_input features sel base method path dh h body overrides defaults auto = Ok input ->
  uri_has_userinfo (in_uri _ input) = false /\
  hm_get_all (in_merged_headers _ input) (header_name "content-length") =
    hm_get_all h (header_name "content-length").
Proof.
  unfold prepare_retry_request_input.
  intros (b & _ & ([text uri] & Hres & Hin)%result_bind_Ok_inv)%result_bind_Ok_inv.
  apply result_bind_Ok_inv in Hin as (o & _ & Hin). simplify_eq. simpl.
  split; [by eapply resolve_uri_Ok in Hres as (_ & ? & _)|].
  set (cl := header_name "content-length"). set (m := if hm_contains_key h cl then _ else _).
  assert (hm_get_all m cl = hm_get_all h cl) as Hm.
  { unfold m, hm_contains_key, merge_headers. destruct (hm_get_all h cl) as [|v vs] eqn:Hcl.
    - rewrite hm_get_all_remove. by case_decide.
    - by rewrite hm_get_all_extend, Hcl. }
  rewrite <- Hm. clearbody m. destruct (default _ _); [|done]. unfold ensure_accept_encoding.
  destruct (_ || _); [done|]. destruct (enabled_accept_encoding _) as [enc|]; [|done].
  destruct (header_value_from_str _); [|done]. rewrite hm_get_all_insert. case_decide as Heq; [|done].
  by apply (header_names_distinct "accept-encoding" "content-length") in Heq.
Qed.

(** What preparation makes of a header other than the two it manages. *)
Lemma prepared_header {Stream} features sel base method path dh h (body : option (RequestBody Stream)) overrides
    defaults auto input name :
  prepare_retry_request_input features sel base method path dh h body overrides defaults auto = Ok input ->
  name <> header_name "content-length" -> name <> header_name "accept-encoding" ->
  hm_get_all (in_merged_headers _ input) name =
    match hm_get_all h name with [] => hm_get_all dh name | vs => vs end /\
  in_body _ input = default body_default body.
Proof.
  unfold prepare_retry_request_input.
  intros (b & _ & ([text uri] & _ & (o & _ & [= <-])%result_bind_Ok_inv)%result_bind_Ok_inv)%result_bind_Ok_inv Hn Ha.
  simpl. split; [|done].
  rewrite <- (hm_get_all_extend dh h name). fold (merge_headers dh h). set (m := merge_headers dh h).
  transitivity (hm_get_all (if hm_contains_key h (header_name "content-length") then m else
    hm_remove m (header_name "content-length")) name).
  - destruct (default _ _); [|done]. unfold ensure_accept_encoding.
    destruct (_ || _); [done|]. destruct (enabled_accept_encoding _); [|done].
    destruct (header_value_from_str _); [|done]. by rewrite hm_get_all_insert, decide_False.
  - destruct (hm_contains_key h _); [done|]. by rewrite hm_get_all_remove, decide_False.
Qed.

End RedirectState.

(** ** Witnesses

    A GET that failed to connect, with the standard policy and redirects enabled. *)
Module ExecutionDemo.
#[export] Existing Instance ref_http.
#[export] Existing Instance ref_url.
#[export] Instance no_dates : HttpDate := fun _ => None.

Definition demo_options : RequestExecutionOptions :=
  {| request_timeout := duration_from_secs 10; total_timeout := Some (duration_from_secs 60);
     retry_policy := Retry.standard; max_response_body_bytes := 1024; redirect_policy := follow;
     status_policy := StatusError |}.

Definition demo_uri (text : string) (host : string) : Uri :=
  {| RefHttp.scheme := Some (lit "http"); RefHttp.authority := Some (lit host);
     RefHttp.host := Some (lit host); RefHttp.port := None; RefHttp.path := lit "/";
     RefHttp.whole := lit text |}.

Definition value (text : string) : HeaderValue :=
  {| RefHttp.text := lit text; RefHttp.sensitive := false |}.

Definition input (body : RequestBody unit) : RetryRequestInput (RequestBody unit) :=
  {| in_method := GET; in_uri := demo_uri "http://a.example/" "a.example";
     in_redacted_uri_text := lit "http://a.example/";
     in_merged_headers := [(lit "accept", value "*/*"); (lit "authorization", value "secret")];
     in_body := body; in_execution_options := demo_options |}.

Definition start (body : RequestBody unit) : RequestExecutionState :=
  (from_request (input body) 0 PermissiveRetryEligibility).1.

Definition free_budget (_ : Method) (_ : str) (b : unit) : result unit Error.t * unit := (Ok tt, b).

Definition connect_failure (s : RequestExecutionState) : RetryDecision :=
  decision s (Retry.Transport TransportErrorKind.Connect).

Definition second : RequestExecutionState := set_attempts (start (Buffered [])) 2 3.

Lemma demo_options_ok : options_ok demo_options.
Proof. split; [vm_compute; reflexivity|]. repeat split; vm_compute; discriminate. Qed.

Lemma second_scheduled :
  prepare_retry_schedule 9 (connect_failure (start (Buffered []))) 5 free_budget (start (Buffered [])) tt
  = (Ok (Scheduled 5), second, tt).
Proof.
  unfold prepare_retry_schedule.
  replace (max_attempts (start (Buffered [])) <=? attempt (start (Buffered []))) with false by reflexivity.
  replace (should_retry_decision _ _) with true by (vm_compute; reflexivity).
  reflexivity.
Qed.

Definition response_headers : HeaderMap := [(lit "location", value "http://b.example/")].

Definition redirected : RedirectAction :=
  {| next_method := GET; next_uri := demo_uri "http://b.example/" "b.example";
     next_redacted_uri := lit "http://b.example/"; drops_body := false; same_origin_redirect := false |}.

End ExecutionDemo.

Lemma execution_attempts_and_redirects_bounded_witness :
  1 <= attempt ExecutionDemo.second <= max_attempts ExecutionDemo.second /\
  max_attempts ExecutionDemo.second <= 3 /\ 0 <= redirect_count ExecutionDemo.second <= 10.
Proof.
  apply (@execution_attempts_and_redirects_bounded ref_http ref_url unit (ExecutionDemo.input (Buffered [])) 0
    PermissiveRetryEligibility ExecutionDemo.second ExecutionDemo.demo_options_ok).
  apply rtc_once. eapply exec_retry. exact ExecutionDemo.second_scheduled.
Defined.

Lemma execution_loop_terminates_witness : Z.of_nat 1 < 3 + 10.
Proof.
  apply (@execution_loop_terminates ref_http ref_url unit (ExecutionDemo.input (Buffered [])) 0
    PermissiveRetryEligibility 1 ExecutionDemo.second ExecutionDemo.demo_options_ok).
  - vm_compute. reflexivity.
  - apply nsteps_once. eapply (round_retry _ _ hm_new). exact ExecutionDemo.second_scheduled.
Defined.

Lemma streamed_body_never_resent_witness :
  body_replayable (ExecutionDemo.start (Streaming tt)) = false /\
  forall status headers action,
    next_redirect_action status headers (ExecutionDemo.start (Streaming tt)) = Ok (Some action) ->
    drops_body action = true.
Proof.
  split; [reflexivity|]. exact (proj2 (@streamed_body_never_resent ref_http ref_url unit (ExecutionDemo.input (Streaming tt)) 0
    PermissiveRetryEligibility (ExecutionDemo.start (Streaming tt)) ExecutionDemo.demo_options_ok
    (rtc_refl _ _) eq_refl)).
Defined.

Lemma retry_schedule_spec_witness :
  total_timeout_expired (Some (duration_from_secs 60)) 0 (9 + 5) = false.
Proof.
  pose proof (@retry_schedule_spec ref_http unit 9
    (ExecutionDemo.connect_failure (ExecutionDemo.start (Buffered []))) 5 ExecutionDemo.free_budget
    (ExecutionDemo.start (Buffered [])) tt ltac:(lia) ltac:(vm_compute; discriminate)) as Hs.
  rewrite ExecutionDemo.second_scheduled in Hs. exact (proj1 (proj2 (proj2 (proj2 Hs)))).
Defined.

Lemma redirect_step_drops_credentials_witness :
  let s' := (apply_redirect ExecutionDemo.redirected PermissiveRetryEligibility
               (ExecutionDemo.start (Buffered []))).2 in
  uri_has_userinfo (current_uri s') = false /\
  hm_get_all (current_headers s') (lit "accept") = [ExecutionDemo.value "*/*"] /\
  is_sensitive (ExecutionDemo.value "*/*") = false.
Proof.
  destruct (@redirect_step_drops_credentials ref_http ref_http_laws ref_url PermissiveRetryEligibility FOUND
    ExecutionDemo.response_headers ExecutionDemo.redirected (ExecutionDemo.start (Buffered [])) eq_refl) as [Hu Hh].
  split; [exact Hu|]. split; [vm_compute; reflexivity|].
  refine (proj1 (Hh _ (lit "accept") (ExecutionDemo.value "*/*") _)).
  - vm_compute. reflexivity.
  - vm_compute. apply list_elem_of_here.
Defined.

Lemma prepared_request_is_sound_witness :
  match prepare_retry_request_input (Stream := unit)
          {| compression_gzip := true; compression_brotli := false; compression_zstd := false |} None
          (lit "http://a.example") (GET : @Method ref_http) (lit "/v1")
          [(lit "content-length", ExecutionDemo.value "9")] [] None
          {| o_request_timeout := None; o_total_timeout := None; o_retry_policy := None;
             o_max_response_body_bytes := None; o_redirect_policy := None; o_status_policy := None;
             o_auto_accept_encoding := None |} ExecutionDemo.demo_options true with
  | Ok input => hm_get_all (in_merged_headers _ input) (lit "content-length") = []
  | Err _ => False
  end.
Proof.
  match goal with |- match ?p with _ => _ end => assert (is_ok p = true) as Hok by (vm_compute; reflexivity) end.
  destruct (prepare_retry_request_input _ _ _ _ _ _ _ _ _ _ _) as [input|e] eqn:E; [|discriminate Hok].
  exact (proj2 (prepared_request_is_sound _ _ _ _ _ _ _ _ _ _ _ _ E)).
Defined.
