(* ===== verification/Upload.v ===== *)
(** * Resumable uploads (upload/mod.rs, upload/session.rs, upload/blocking.rs)

    The options with their validation, the checkpoint, the session that decides for
    each chunk of the source whether to skip or upload it, the retries of a part and
    the blocking driver.  The backend is a class of operations on a world [W]; the
    digests of the md5 and sha2 crates, the random source and the sleep are
    parameters.  The async driver of upload/asynchronous.rs is the same sequence of
    operations, each awaited.

    The theorems: the driver returns on every source; a successful upload completes
    with exactly the parts of the source; the checkpoint of a failed one is valid,
    describes parts of the source, and resuming from it goes on at the first missing
    part without calling the backend for the others; a part is tried at most
    [max_attempts] times. *)
From Stdlib Require Import Ascii String DecimalString.
From S2P Require Import Prelude Float64 Text Errors Timing.

Module Upload.

Definition RESUMABLE_UPLOAD_CHECKPOINT_VERSION : Z := 2.
Definition MAX_RESUMABLE_UPLOAD_PART_NUMBER : Z := u32_max.
Definition isize_max : Z := 2 ^ 63 - 1.

(** ** Checksums *)
Inductive PartChecksumAlgorithm := Md5 | Sha256.

#[global] Instance PartChecksumAlgorithm_eq_dec : EqDecision PartChecksumAlgorithm.
Proof. solve_decision. Defined.

Definition as_str (a : PartChecksumAlgorithm) : str :=
  match a with Md5 => lit "md5" | Sha256 => lit "sha256" end.

(** The digests: the lowercase hex form the md5 crate prints, and the bytes of SHA-256. *)
Class Digests := {
  md5_hex : list Z -> str;
  sha256_digest : list Z -> list Z;
}.

Definition HEX : str := lit "0123456789abcdef".
Definition hex_digit (n : Z) : Z := default 0 (HEX !! Z.to_nat n).

Definition encode_hex_lower (bytes : list Z) : str :=
  flat_map (fun byte => [hex_digit (Z.shiftr byte 4); hex_digit (Z.land byte 15)]) bytes.

Definition compute_hex `{Digests} (a : PartChecksumAlgorithm) (data : list Z) : str :=
  match a with Md5 => md5_hex data | Sha256 => encode_hex_lower (sha256_digest data) end.

Definition normalize_token (value : str) : str :=
  to_ascii_lowercase (trim_matches 39 (trim_matches 34 (trim value))).
#[global] Arguments normalize_token : simpl never.
#[global] Arguments compute_hex : simpl never.

(** [==] on strings. *)
Definition str_eqb (s t : str) : bool := bool_decide (s = t).
#[global] Arguments str_eqb : simpl never.

Lemma str_eqb_spec s t : reflect (s = t) (str_eqb s t).
Proof. apply bool_decide_reflect. Qed.

(** ** Parts, checkpoints and results *)
Record UploadedPart := {
  part_number : Z;
  etag : str;
  size : Z;
  checksum : option str;
}.

Definition part_new (number : Z) (tag : str) (bytes : Z) : UploadedPart :=
  {| part_number := number; etag := tag; size := bytes; checksum := None |}.

Definition with_checksum (p : UploadedPart) (c : str) : UploadedPart :=
  {| part_number := part_number p; etag := etag p; size := size p; checksum := Some c |}.

Record ResumableUploadCheckpoint := {
  version : Z;
  upload_id : str;
  checkpoint_part_size : Z;
  checksum_algorithm : option PartChecksumAlgorithm;
  completed_parts : gmap Z UploadedPart;
}.

Definition checkpoint_new (id : str) (part_size : Z) : ResumableUploadCheckpoint :=
  {| version := RESUMABLE_UPLOAD_CHECKPOINT_VERSION; upload_id := id;
     checkpoint_part_size := part_size; checksum_algorithm := None; completed_parts := ∅ |}.

Definition set_algorithm (c : ResumableUploadCheckpoint) (a : option PartChecksumAlgorithm) :=
  {| version := version c; upload_id := upload_id c; checkpoint_part_size := checkpoint_part_size c;
     checksum_algorithm := a; completed_parts := completed_parts c |}.

Definition set_parts (c : ResumableUploadCheckpoint) (m : gmap Z UploadedPart) :=
  {| version := version c; upload_id := upload_id c; checkpoint_part_size := checkpoint_part_size c;
     checksum_algorithm := checksum_algorithm c; completed_parts := m |}.

Record ResumableUploadResult := {
  result_upload_id : str;
  result_total_bytes : Z;
  result_total_parts : Z;
  result_resumed : bool;
  result_completed_parts : list UploadedPart;
}.

Record ResumableUploadOptions := {
  part_size : Z;
  max_attempts : Z;
  base_backoff : Duration;
  max_backoff : Duration;
  jitter_ratio : f64;
  abort_on_error : bool;
  part_checksum_algorithm : option PartChecksumAlgorithm;
  verify_remote_etag : bool;
}.

(** [Default for ResumableUploadOptions]. *)
Definition default_options : ResumableUploadOptions :=
  {| part_size := 8 * 1024 * 1024; max_attempts := 3; base_backoff := duration_from_millis 200;
     max_backoff := duration_from_secs 2; jitter_ratio := f64_lit 2 10; abort_on_error := false;
     part_checksum_algorithm := None; verify_remote_etag := false |}.

(** ** Errors

    [E] is the backend's error type; an [io::Error] is a [BoxError]. *)
Inductive ResumableUploadError (E : Type) :=
| InvalidOptions (part_size max_attempts base_backoff_ms max_backoff_ms : Z) (jitter_ratio : f64)
    (message : string)
| CreateFailed (source : E)
| CheckpointPartSizeMismatch (checkpoint_part_size options_part_size : Z)
| CheckpointChecksumAlgorithmMismatch (checkpoint_checksum_algorithm options_checksum_algorithm : str)
| UnsupportedCheckpointVersion (checkpoint_version supported_version : Z)
| InvalidCheckpointPartNumber (checkpoint_key part_number : Z)
| EmptyUploadId
| SourceRead (source : BoxError) (checkpoint : ResumableUploadCheckpoint)
| PartUploadFailed (part_number attempts : Z) (checkpoint : ResumableUploadCheckpoint) (source : E)
| PartNumberMismatch (expected_part_number actual_part_number : Z) (checkpoint : ResumableUploadCheckpoint)
| PartSizeMismatch (part_number expected_size actual_size : Z) (checkpoint : ResumableUploadCheckpoint)
| PartChecksumMismatch (part_number : Z) (expected_checksum actual_checksum : str)
    (checkpoint : ResumableUploadCheckpoint)
| PartEtagMismatch (part_number : Z) (expected_etag actual_etag : str)
    (checkpoint : ResumableUploadCheckpoint)
| CompleteFailed (checkpoint : ResumableUploadCheckpoint) (source : E)
| AbortFailed (upload_id : str) (original : ResumableUploadError E) (source : E)
| EmptyUploadBody (checkpoint : ResumableUploadCheckpoint)
| MissingCompletedPart (part_number : Z) (checkpoint : ResumableUploadCheckpoint)
| TooManyUploadParts (attempted_part_number max_part_number : Z) (checkpoint : ResumableUploadCheckpoint).
#[global] Arguments InvalidOptions {E}.
#[global] Arguments CreateFailed {E}.
#[global] Arguments CheckpointPartSizeMismatch {E}.
#[global] Arguments CheckpointChecksumAlgorithmMismatch {E}.
#[global] Arguments UnsupportedCheckpointVersion {E}.
#[global] Arguments InvalidCheckpointPartNumber {E}.
#[global] Arguments EmptyUploadId {E}.
#[global] Arguments SourceRead {E}.
#[global] Arguments PartUploadFailed {E}.
#[global] Arguments PartNumberMismatch {E}.
#[global] Arguments PartSizeMismatch {E}.
#[global] Arguments PartChecksumMismatch {E}.
#[global] Arguments PartEtagMismatch {E}.
#[global] Arguments CompleteFailed {E}.
#[global] Arguments AbortFailed {E}.
#[global] Arguments EmptyUploadBody {E}.
#[global] Arguments MissingCompletedPart {E}.
#[global] Arguments TooManyUploadParts {E}.

(** [checkpoint] and [into_checkpoint]. *)
Fixpoint error_checkpoint {E} (e : ResumableUploadError E) : option ResumableUploadCheckpoint :=
  match e with
  | SourceRead _ c | PartUploadFailed _ _ c _ | PartNumberMismatch _ _ c | PartSizeMismatch _ _ _ c
  | PartChecksumMismatch _ _ _ c | PartEtagMismatch _ _ _ c | CompleteFailed c _ | EmptyUploadBody c
  | MissingCompletedPart _ c | TooManyUploadParts _ _ c => Some c
  | AbortFailed _ original _ => error_checkpoint original
  | _ => None
  end.

(** ** Options *)
Definition with_part_size (o : ResumableUploadOptions) (v : Z) : ResumableUploadOptions :=
  {| part_size := v; max_attempts := max_attempts o; base_backoff := base_backoff o;
     max_backoff := max_backoff o; jitter_ratio := jitter_ratio o; abort_on_error := abort_on_error o;
     part_checksum_algorithm := part_checksum_algorithm o; verify_remote_etag := verify_remote_etag o |}.
Definition with_max_attempts (o : ResumableUploadOptions) (v : Z) : ResumableUploadOptions :=
  {| part_size := part_size o; max_attempts := v; base_backoff := base_backoff o;
     max_backoff := max_backoff o; jitter_ratio := jitter_ratio o; abort_on_error := abort_on_error o;
     part_checksum_algorithm := part_checksum_algorithm o; verify_remote_etag := verify_remote_etag o |}.
Definition with_base_backoff (o : ResumableUploadOptions) (v : Duration) : ResumableUploadOptions :=
  {| part_size := part_size o; max_attempts := max_attempts o; base_backoff := v;
     max_backoff := max_backoff o; jitter_ratio := jitter_ratio o; abort_on_error := abort_on_error o;
     part_checksum_algorithm := part_checksum_algorithm o; verify_remote_etag := verify_remote_etag o |}.
Definition with_max_backoff (o : ResumableUploadOptions) (v : Duration) : ResumableUploadOptions :=
  {| part_size := part_size o; max_attempts := max_attempts o; base_backoff := base_backoff o;
     max_backoff := v; jitter_ratio := jitter_ratio o; abort_on_error := abort_on_error o;
     part_checksum_algorithm := part_checksum_algorithm o; verify_remote_etag := verify_remote_etag o |}.
Definition with_jitter_ratio (o : ResumableUploadOptions) (v : f64) : ResumableUploadOptions :=
  {| part_size := part_size o; max_attempts := max_attempts o; base_backoff := base_backoff o;
     max_backoff := max_backoff o; jitter_ratio := v; abort_on_error := abort_on_error o;
     part_checksum_algorithm := part_checksum_algorithm o; verify_remote_etag := verify_remote_etag o |}.
Definition with_abort_on_error (o : ResumableUploadOptions) (v : bool) : ResumableUploadOptions :=
  {| part_size := part_size o; max_attempts := max_attempts o; base_backoff := base_backoff o;
     max_backoff := max_backoff o; jitter_ratio := jitter_ratio o; abort_on_error := v;
     part_checksum_algorithm := part_checksum_algorithm o; verify_remote_etag := verify_remote_etag o |}.
Definition with_part_checksum_algorithm (o : ResumableUploadOptions) (v : option PartChecksumAlgorithm)
    : ResumableUploadOptions :=
  {| part_size := part_size o; max_attempts := max_attempts o; base_backoff := base_backoff o;
     max_backoff := max_backoff o; jitter_ratio := jitter_ratio o; abort_on_error := abort_on_error o;
     part_checksum_algorithm := v; verify_remote_etag := verify_remote_etag o |}.
Definition with_verify_remote_etag (o : ResumableUploadOptions) (v : bool) : ResumableUploadOptions :=
  {| part_size := part_size o; max_attempts := max_attempts o; base_backoff := base_backoff o;
     max_backoff := max_backoff o; jitter_ratio := jitter_ratio o; abort_on_error := abort_on_error o;
     part_checksum_algorithm := part_checksum_algorithm o; verify_remote_etag := v |}.

Definition backoff_for_retry (random_range : sampler) (o : ResumableUploadOptions) (retry_index : Z)
    : Duration :=
  exponential_backoff_with_jitter random_range retry_index (base_backoff o) (max_backoff o)
    (jitter_ratio o).

Definition invalid_options {E} (o : ResumableUploadOptions) (message : string) : ResumableUploadError E :=
  InvalidOptions (part_size o) (max_attempts o) (duration_millis_ceil (base_backoff o))
    (duration_millis_ceil (max_backoff o)) (jitter_ratio o) message.

Definition validate {E} (o : ResumableUploadOptions) : result unit (ResumableUploadError E) :=
  if part_size o =? 0 then Err (invalid_options o "part_size must be greater than zero")
  else if isize_max <? part_size o then Err (invalid_options o "part_size must not exceed isize::MAX")
  else if max_attempts o =? 0 then Err (invalid_options o "max_attempts must be greater than zero")
  else if duration_is_zero (base_backoff o)
  then Err (invalid_options o "base_backoff must be greater than zero")
  else if duration_is_zero (max_backoff o)
  then Err (invalid_options o "max_backoff must be greater than zero")
  else if max_backoff o <? base_backoff o
  then Err (invalid_options o "max_backoff must be greater than or equal to base_backoff")
  else if negb (f64_is_finite (jitter_ratio o))
          || negb (f64_leb f64_zero (jitter_ratio o) && f64_leb (jitter_ratio o) f64_one)
  then Err (invalid_options o "jitter_ratio must be finite and between 0.0 and 1.0")
  else if verify_remote_etag o && negb (bool_decide (is_Some (part_checksum_algorithm o)))
  then Err (invalid_options o "verify_remote_etag requires part_checksum_algorithm")
  else Ok tt.

(** ** Checkpoints

    The iteration of a [BTreeMap]: entries by ascending key. *)
Definition key_le (a b : Z * UploadedPart) : Prop := a.1 <= b.1.
#[global] Instance key_le_dec : RelDecision key_le.
Proof. intros a b. unfold key_le. apply _. Defined.

Definition btree_iter (m : gmap Z UploadedPart) : list (Z * UploadedPart) :=
  merge_sort key_le (map_to_list m).

Fixpoint first_invalid_part (l : list (Z * UploadedPart)) : option (Z * UploadedPart) :=
  match l with
  | [] => None
  | (checkpoint_key, part) :: l =>
    if (checkpoint_key =? 0) || negb (part_number part =? checkpoint_key)
    then Some (checkpoint_key, part) else first_invalid_part l
  end.

Definition algorithm_name (a : option PartChecksumAlgorithm) : str :=
  match a with Some a => as_str a | None => lit "none" end.

Definition validate_checkpoint {E} (o : ResumableUploadOptions) (c : ResumableUploadCheckpoint)
    : result unit (ResumableUploadError E) :=
  if negb (version c =? RESUMABLE_UPLOAD_CHECKPOINT_VERSION)
  then Err (UnsupportedCheckpointVersion (version c) RESUMABLE_UPLOAD_CHECKPOINT_VERSION)
  else if negb (checkpoint_part_size c =? part_size o)
  then Err (CheckpointPartSizeMismatch (checkpoint_part_size c) (part_size o))
  else if bool_decide (trim (upload_id c) = []) then Err EmptyUploadId
  else if negb (bool_decide (checksum_algorithm c = part_checksum_algorithm o))
  then Err (CheckpointChecksumAlgorithmMismatch (algorithm_name (checksum_algorithm c))
              (algorithm_name (part_checksum_algorithm o)))
  else match first_invalid_part (btree_iter (completed_parts c)) with
  | Some (checkpoint_key, part) => Err (InvalidCheckpointPartNumber checkpoint_key (part_number part))
  | None => Ok tt
  end.

Definition checkpoint_part_matches (existing : UploadedPart) (expected_size : Z)
    (expected_checksum : option str) (verify : bool) : bool :=
  if negb (size existing =? expected_size) then false
  else match expected_checksum with
  | None => true
  | Some expected_checksum =>
    match checksum existing with
    | None => false
    | Some existing_checksum =>
      let normalized_expected := normalize_token expected_checksum in
      if negb (str_eqb (normalize_token existing_checksum) normalized_expected) then false
      else negb verify || str_eqb (normalize_token (etag existing)) normalized_expected
    end
  end.

Definition checkpoint_has_remaining_parts (c : ResumableUploadCheckpoint) (next_part_number : Z) : option Z :=
  if u32_max <? next_part_number then None
  else fst <$> head (filter (fun kp : Z * UploadedPart => next_part_number <= kp.1)
                       (btree_iter (completed_parts c))).

(** ** Reading

    A reader is the sequence of bytes and failures it still produces.
    [take(part_size).read_to_end] reads up to the limit or the end of the source,
    retries interrupted reads and stops at any other failure. *)
Inductive read_event := Byte (b : Z) | Fault (e : BoxError).

Definition is_interrupted (e : BoxError) : bool :=
  match e with Dyn (IoError IoErrorKind.Interrupted) _ _ _ => true | _ => false end.

Fixpoint read_chunk (reader : list read_event) (limit : Z)
    : result (list Z) BoxError * list read_event :=
  if limit <=? 0 then (Ok [], reader)
  else match reader with
  | [] => (Ok [], [])
  | Byte b :: reader =>
    let '(rest, reader) := read_chunk reader (limit - 1) in
    (let? bytes := rest in Ok (b :: bytes), reader)
  | Fault e :: reader => if is_interrupted e then read_chunk reader limit else (Err e, reader)
  end.

(** ** The session *)
Record ResumableUploadSession := {
  options : ResumableUploadOptions;
  checkpoint : ResumableUploadCheckpoint;
  resumed : bool;
  total_bytes : Z;
  next_part_number : Z;
}.

Definition session_new {E} (o : ResumableUploadOptions) (c : ResumableUploadCheckpoint) (r : bool)
    : result ResumableUploadSession (ResumableUploadError E) :=
  let? _ := validate_checkpoint o c in
  Ok {| options := o; checkpoint := c; resumed := r; total_bytes := 0; next_part_number := 1 |}.

Definition set_checkpoint_parts (s : ResumableUploadSession) (m : gmap Z UploadedPart) :=
  {| options := options s; checkpoint := set_parts (checkpoint s) m; resumed := resumed s;
     total_bytes := total_bytes s; next_part_number := next_part_number s |}.

Definition set_total_bytes (s : ResumableUploadSession) (n : Z) :=
  {| options := options s; checkpoint := checkpoint s; resumed := resumed s;
     total_bytes := n; next_part_number := next_part_number s |}.

Definition advance_part_number (s : ResumableUploadSession) : ResumableUploadSession :=
  {| options := options s; checkpoint := checkpoint s; resumed := resumed s;
     total_bytes := total_bytes s; next_part_number := next_part_number s + 1 |}.

Record UploadPartPlan := {
  plan_part_number : Z;
  chunk : list Z;
  expected_checksum : option str;
}.

Inductive UploadChunkAction := Finish | Skip | Upload (plan : UploadPartPlan).

Section Session.
Context `{Digests}.

Definition options_expected_checksum (o : ResumableUploadOptions) (chunk : list Z) : option str :=
  (fun algorithm => compute_hex algorithm chunk) <$> part_checksum_algorithm o.

Definition current_part_number {E} (s : ResumableUploadSession) : result Z (ResumableUploadError E) :=
  if next_part_number s <=? u32_max then Ok (next_part_number s)
  else Err (TooManyUploadParts (next_part_number s) MAX_RESUMABLE_UPLOAD_PART_NUMBER (checkpoint s)).

(** The [UnexpectedEof] of a source that is shorter than the checkpoint. *)
Definition source_ended_before (expected_part_number : Z) : BoxError :=
  Dyn (IoError IoErrorKind.UnexpectedEof)
    (lit "source ended before checkpointed part "
     ++ lit (NilZero.string_of_int (Z.to_int expected_part_number))) None None.

Definition next_chunk {E} (chunk : list Z) (s : ResumableUploadSession)
    : result UploadChunkAction (ResumableUploadError E) * ResumableUploadSession :=
  match chunk with
  | [] =>
    match checkpoint_has_remaining_parts (checkpoint s) (next_part_number s) with
    | Some expected_part_number => (Err (SourceRead (source_ended_before expected_part_number) (checkpoint s)), s)
    | None => (Ok Finish, s)
    end
  | _ =>
    match current_part_number s with
    | Err e => (Err e, s)
    | Ok number =>
      let len := Z.of_nat (length chunk) in
      let s := set_total_bytes s (sat_add u64_max (total_bytes s) len) in
      let expected := options_expected_checksum (options s) chunk in
      let plan := {| plan_part_number := number; chunk := chunk; expected_checksum := expected |} in
      match completed_parts (checkpoint s) !! number with
      | Some existing =>
        if checkpoint_part_matches existing len expected (verify_remote_etag (options s))
        then (Ok Skip, advance_part_number s)
        else (Ok (Upload plan), set_checkpoint_parts s (delete number (completed_parts (checkpoint s))))
      | None => (Ok (Upload plan), s)
      end
    end
  end.

Definition validate_uploaded_part {E} (o : ResumableUploadOptions) (c : ResumableUploadCheckpoint)
    (number : Z) (uploaded : UploadedPart) (expected_checksum : option str)
    : result unit (ResumableUploadError E) :=
  match expected_checksum with
  | None => Ok tt
  | Some expected_checksum =>
    let normalized_expected := normalize_token expected_checksum in
    let? _ :=
      match checksum uploaded with
      | Some actual_checksum =>
        let normalized_actual := normalize_token actual_checksum in
        if negb (str_eqb normalized_actual normalized_expected)
        then Err (PartChecksumMismatch number normalized_expected normalized_actual c)
        else Ok tt
      | None => Ok tt
      end in
    if verify_remote_etag o
    then
      let normalized_actual := normalize_token (etag uploaded) in
      if negb (str_eqb normalized_actual normalized_expected)
      then Err (PartEtagMismatch number normalized_expected normalized_actual c)
      else Ok tt
    else Ok tt
  end.

Definition accept_uploaded_part {E} (plan : UploadPartPlan) (uploaded : UploadedPart)
    (s : ResumableUploadSession) : result unit (ResumableUploadError E) * ResumableUploadSession :=
  let len := Z.of_nat (length (chunk plan)) in
  if negb (part_number uploaded =? plan_part_number plan)
  then (Err (PartNumberMismatch (plan_part_number plan) (part_number uploaded) (checkpoint s)), s)
  else if negb (size uploaded =? len)
  then (Err (PartSizeMismatch (plan_part_number plan) len (size uploaded) (checkpoint s)), s)
  else match validate_uploaded_part (options s) (checkpoint s) (plan_part_number plan) uploaded
               (expected_checksum plan) with
  | Err e => (Err e, s)
  | Ok _ =>
    let uploaded :=
      match checksum uploaded, expected_checksum plan with
      | None, Some c => with_checksum uploaded c
      | _, _ => uploaded
      end in
    (Ok tt, advance_part_number
              (set_checkpoint_parts s (<[plan_part_number plan := uploaded]> (completed_parts (checkpoint s)))))
  end.

Definition source_read_error {E} (s : ResumableUploadSession) (source : BoxError) : ResumableUploadError E :=
  SourceRead source (checkpoint s).
Definition part_upload_failed {E} (s : ResumableUploadSession) (plan : UploadPartPlan) (attempts : Z)
    (source : E) : ResumableUploadError E :=
  PartUploadFailed (plan_part_number plan) attempts (checkpoint s) source.
Definition complete_upload_failed {E} (s : ResumableUploadSession) (source : E) : ResumableUploadError E :=
  CompleteFailed (checkpoint s) source.

Definition total_parts (s : ResumableUploadSession) : Z :=
  Z.min (sat_sub (next_part_number s) 1) MAX_RESUMABLE_UPLOAD_PART_NUMBER.

(** The loop of [ordered_parts] over the remaining part numbers. *)
Fixpoint collect_parts {E} (c : ResumableUploadCheckpoint) (numbers : list Z)
    : result (list UploadedPart) (ResumableUploadError E) :=
  match numbers with
  | [] => Ok []
  | current :: numbers =>
    match completed_parts c !! current with
    | None => Err (MissingCompletedPart current c)
    | Some part => let? parts := collect_parts c numbers in Ok (part :: parts)
    end
  end.

Definition ordered_parts {E} (s : ResumableUploadSession)
    : result (list UploadedPart) (ResumableUploadError E) :=
  collect_parts (checkpoint s) (seqZ 1 (total_parts s)).

Definition ordered_completed_parts {E} (s : ResumableUploadSession)
    : result (list UploadedPart) (ResumableUploadError E) :=
  if total_parts s =? 0 then Err (EmptyUploadBody (checkpoint s)) else ordered_parts s.

Definition finish (s : ResumableUploadSession) (parts : list UploadedPart) : ResumableUploadResult :=
  {| result_upload_id := upload_id (checkpoint s); result_total_bytes := total_bytes s;
     result_total_parts := total_parts s; result_resumed := resumed s;
     result_completed_parts := parts |}.

End Session.

(** ** The backend and the runtime *)
Class UploadBackend (W E : Type) := {
  create_upload : W -> result str E * W;
  upload_part : str -> Z -> list Z -> W -> result UploadedPart E * W;
  complete_upload : str -> list UploadedPart -> W -> result unit E * W;
  abort_upload : str -> W -> result unit E * W;
}.

(** The random samples the world offers next, and sleeping. *)
Class Runtime (W : Type) := {
  random_range : W -> sampler;
  sleep : Duration -> W -> W;
}.

Section Driver.
Context `{Digests} {W E : Type} `{!UploadBackend W E} `{!Runtime W}.

(** [UploadPartRetry::record_failure]: the delay and the next attempt number. *)
Definition record_failure (random_range : sampler) (s : ResumableUploadSession) (plan : UploadPartPlan)
    (source : E) (attempt : Z) : result Duration (ResumableUploadError E) * Z :=
  if max_attempts (options s) <=? attempt
  then (Err (part_upload_failed s plan attempt source), attempt)
  else (Ok (backoff_for_retry random_range (options s) attempt), attempt + 1).

(** The loop of [upload_part_with_retries_blocking]; [None] when the fuel runs out. *)
Fixpoint part_attempts (fuel : nat) (s : ResumableUploadSession) (plan : UploadPartPlan) (attempt : Z)
    (w : W) : option (result UploadedPart (ResumableUploadError E) * W) :=
  match fuel with
  | O => None
  | S fuel =>
    match upload_part (upload_id (checkpoint s)) (plan_part_number plan) (chunk plan) w with
    | (Ok part, w) => Some (Ok part, w)
    | (Err source, w) =>
      match record_failure (random_range w) s plan source attempt with
      | (Err e, _) => Some (Err e, w)
      | (Ok delay, attempt) =>
        part_attempts fuel s plan attempt (if duration_is_zero delay then w else sleep delay w)
      end
    end
  end.

Definition upload_part_with_retries_blocking (s : ResumableUploadSession) (plan : UploadPartPlan) (w : W)
    : option (result UploadedPart (ResumableUploadError E) * W) :=
  part_attempts (Z.to_nat (Z.max 1 (max_attempts (options s)))) s plan 1 w.

(** The loop over the chunks of the source, up to [Finish] or an error. *)
Fixpoint upload_loop (fuel : nat) (s : ResumableUploadSession) (reader : list read_event) (w : W)
    : option (result unit (ResumableUploadError E) * ResumableUploadSession * W) :=
  match fuel with
  | O => None
  | S fuel =>
    match read_chunk reader (part_size (options s)) with
    | (Err source, _) => Some (Err (source_read_error s source), s, w)
    | (Ok bytes, reader) =>
      match next_chunk bytes s with
      | (Err e, s) => Some (Err e, s, w)
      | (Ok Finish, s) => Some (Ok tt, s, w)
      | (Ok Skip, s) => upload_loop fuel s reader w
      | (Ok (Upload plan), s) =>
        match upload_part_with_retries_blocking s plan w with
        | None => None
        | Some (Err e, w) => Some (Err e, s, w)
        | Some (Ok uploaded, w) =>
          match accept_uploaded_part plan uploaded s with
          | (Err e, s) => Some (Err e, s, w)
          | (Ok _, s) => upload_loop fuel s reader w
          end
        end
      end
    end
  end.

Definition abort_error_if_configured_blocking (o : ResumableUploadOptions) (id : str)
    (error : ResumableUploadError E) (w : W) : ResumableUploadError E * W :=
  if abort_on_error o
  then match abort_upload id w with
       | (Err source, w) => (AbortFailed id error source, w)
       | (Ok _, w) => (error, w)
       end
  else (error, w).

(** What follows the loop: completing the upload, then the abort of a failure. *)
Definition complete_session (s : ResumableUploadSession) (w : W)
    : result (list UploadedPart) (ResumableUploadError E) * W :=
  match ordered_completed_parts s with
  | Err e => (Err e, w)
  | Ok parts =>
    let '(r, w) := complete_upload (upload_id (checkpoint s)) parts w in
    (let? _ := result_map_err (complete_upload_failed s) r in Ok parts, w)
  end.

Definition conclude (o : ResumableUploadOptions)
    (outcome : result unit (ResumableUploadError E) * ResumableUploadSession * W)
    : result ResumableUploadResult (ResumableUploadError E) * W :=
  let '(r, s, w) := outcome in
  let '(r, w) := match r with Err e => (Err e, w) | Ok _ => complete_session s w end in
  match r with
  | Ok parts => (Ok (finish s parts), w)
  | Err e =>
    let '(e, w) := abort_error_if_configured_blocking o (upload_id (checkpoint s)) e w in (Err e, w)
  end.

Definition upload_with_checkpoint_blocking (o : ResumableUploadOptions) (reader : list read_event)
    (c : ResumableUploadCheckpoint) (r : bool) (w : W)
    : option (result ResumableUploadResult (ResumableUploadError E) * W) :=
  match session_new o c r with
  | Err e => Some (Err e, w)
  | Ok s => conclude o <$> upload_loop (S (length reader)) s reader w
  end.

Definition upload_blocking (o : ResumableUploadOptions) (reader : list read_event) (w : W)
    : option (result ResumableUploadResult (ResumableUploadError E) * W) :=
  match validate o with
  | Err e => Some (Err e, w)
  | Ok _ =>
    match create_upload w with
    | (Err source, w) => Some (Err (CreateFailed source), w)
    | (Ok id, w) =>
      upload_with_checkpoint_blocking o reader
        (set_algorithm (checkpoint_new id (part_size o)) (part_checksum_algorithm o)) false w
    end
  end.

Definition resume_blocking (o : ResumableUploadOptions) (reader : list read_event)
    (c : ResumableUploadCheckpoint) (w : W)
    : option (result ResumableUploadResult (ResumableUploadError E) * W) :=
  match validate o with
  | Err e => Some (Err e, w)
  | Ok _ => upload_with_checkpoint_blocking o reader c true w
  end.

End Driver.

(** ** Specification

    The bytes a reader yields, the part a number stands for, and metadata that
    describes it. *)
Definition payload (reader : list read_event) : list Z :=
  omap (fun ev => match ev with Byte b => Some b | Fault _ => None end) reader.

Definition part_len (o : ResumableUploadOptions) : nat := Z.to_nat (part_size o).

(** The bytes of the source before part [i], and those of part [i]. *)
Definition offset (o : ResumableUploadOptions) (i : Z) : nat := (Z.to_nat (i - 1) * part_len o)%nat.
Definition part_bytes (o : ResumableUploadOptions) (bytes : list Z) (i : Z) : list Z :=
  take (part_len o) (skipn (offset o i) bytes).

Section Spec.
Context `{Digests}.

Definition describes (o : ResumableUploadOptions) (chunk : list Z) (p : UploadedPart) : Prop :=
  size p = Z.of_nat (length chunk) /\
  forall algorithm, part_checksum_algorithm o = Some algorithm ->
    let expected := normalize_token (compute_hex algorithm chunk) in
    (exists c, checksum p = Some c /\ normalize_token c = expected) /\
    (verify_remote_etag o = true -> normalize_token (etag p) = expected).

(** A checkpoint the options accept. *)
Definition valid_checkpoint (o : ResumableUploadOptions) (c : ResumableUploadCheckpoint) : Prop :=
  version c = RESUMABLE_UPLOAD_CHECKPOINT_VERSION /\ checkpoint_part_size c = part_size o /\
  trim (upload_id c) <> [] /\ checksum_algorithm c = part_checksum_algorithm o /\
  map_Forall (fun k p => k <> 0 /\ part_number p = k) (completed_parts c).

(** Progress of an upload of [bytes] that began with checkpoint [c0]: the first [k]
    parts are done, later entries were there at the start. *)
Record progress (o : ResumableUploadOptions) (bytes : list Z) (c0 : ResumableUploadCheckpoint) (k : Z)
    (c : ResumableUploadCheckpoint) : Prop := {
  progress_valid : valid_checkpoint o c;
  progress_id : upload_id c = upload_id c0;
  progress_count : 0 <= k <= u32_max;
  progress_read : k = 0 \/ (offset o k < length bytes)%nat;
  progress_done : forall i, 1 <= i <= k ->
    exists p, completed_parts c !! i = Some p /\ part_number p = i /\ describes o (part_bytes o bytes i) p;
  progress_rest : forall i p, k < i -> completed_parts c !! i = Some p -> completed_parts c0 !! i = Some p;
}.

Record session_inv (o : ResumableUploadOptions) (bytes : list Z) (c0 : ResumableUploadCheckpoint)
    (s : ResumableUploadSession) (reader : list read_event) : Prop := {
  inv_options : options s = o;
  inv_progress : progress o bytes c0 (next_part_number s - 1) (checkpoint s);
  inv_payload : payload reader = skipn (offset o (next_part_number s)) bytes;
  inv_total :
    total_bytes s = Z.min (Z.of_nat (Nat.min (offset o (next_part_number s)) (length bytes))) u64_max;
}.

(** ** Lemmas *)
Lemma read_chunk_Ok reader limit bytes reader' :
  read_chunk reader limit = (Ok bytes, reader') ->
  bytes = take (Z.to_nat limit) (payload reader) /\
  payload reader' = skipn (Z.to_nat limit) (payload reader) /\
  (length bytes + length reader' <= length reader)%nat.
Proof.
  revert limit bytes. induction reader as [|ev reader IH]; intros limit bytes; simpl.
  { case_match; intros [= <- <-]; simpl; by rewrite take_nil, drop_nil. }
  destruct (Z.leb_spec limit 0) as [Hl|Hl].
  { intros [= <- <-]. rewrite (Z2Nat.nonpos limit) by done. simpl. split_and!; [done..|lia]. }
  destruct ev as [b|e]; simpl.
  - destruct (read_chunk reader (limit - 1)) as [[bs|e] r] eqn:Hr; simpl; intros [= <- <-].
    apply IH in Hr as (-> & -> & Hlen). replace (Z.to_nat limit) with (S (Z.to_nat (limit - 1))) by lia.
    simpl. split_and!; [done..|lia].
  - destruct (is_interrupted e); [|done]. intros (-> & -> & Hlen)%IH. split_and!; [done..|lia].
Qed.

Lemma read_chunk_bytes bs limit :
  read_chunk (Byte <$> bs) limit = (Ok (take (Z.to_nat limit) bs), Byte <$> skipn (Z.to_nat limit) bs).
Proof.
  revert limit. induction bs as [|b bs IH]; intros limit; simpl.
  { case_match; by rewrite take_nil, drop_nil. }
  destruct (Z.leb_spec limit 0) as [Hl|Hl]; [by rewrite (Z2Nat.nonpos limit) by done|].
  rewrite IH. simpl. by replace (Z.to_nat limit) with (S (Z.to_nat (limit - 1))) by lia.
Qed.

Lemma payload_bytes bs : payload (Byte <$> bs) = bs.
Proof. induction bs as [|b bs IH]; [done|]. exact (f_equal (cons b) IH). Qed.

Lemma first_invalid_part_None l :
  first_invalid_part l = None <-> Forall (fun kp : Z * UploadedPart => kp.1 <> 0 /\ part_number kp.2 = kp.1) l.
Proof.
  induction l as [|[k p] l IH]; simpl; [by split|].
  rewrite Forall_cons. simpl. destruct (Z.eqb_spec k 0), (Z.eqb_spec (part_number p) k); simpl; naive_solver.
Qed.

Lemma btree_iter_elem m k p : (k, p) ∈ btree_iter m <-> m !! k = Some p.
Proof. unfold btree_iter. by rewrite merge_sort_Permutation, elem_of_map_to_list. Qed.

Lemma validate_checkpoint_valid {E} o c : validate_checkpoint (E:=E) o c = Ok tt <-> valid_checkpoint o c.
Proof.
  unfold validate_checkpoint, valid_checkpoint.
  destruct (Z.eqb_spec (version c) RESUMABLE_UPLOAD_CHECKPOINT_VERSION); simpl; [|naive_solver].
  destruct (Z.eqb_spec (checkpoint_part_size c) (part_size o)); simpl; [|naive_solver].
  case_bool_decide; simpl; [naive_solver|]. case_bool_decide; simpl; [|naive_solver].
  assert (first_invalid_part (btree_iter (completed_parts c)) = None <->
    map_Forall (fun k p => k <> 0 /\ part_number p = k) (completed_parts c)) as Hf.
  { rewrite first_invalid_part_None, Forall_forall. unfold map_Forall. setoid_rewrite <- btree_iter_elem.
    split; [intros Hl k p Hk; by apply (Hl (k, p))|intros Hl [k p] Hk; by apply Hl]. }
  destruct (first_invalid_part _) as [[k p]|]; naive_solver.
Qed.

Lemma checkpoint_part_matches_spec o chunk p :
  checkpoint_part_matches p (Z.of_nat (length chunk)) (options_expected_checksum o chunk)
    (verify_remote_etag o) = true <-> describes o chunk p.
Proof.
  unfold checkpoint_part_matches, describes, options_expected_checksum.
  destruct (Z.eqb_spec (size p) (Z.of_nat (length chunk))) as [Hs|Hs]; simpl; [|naive_solver].
  destruct (part_checksum_algorithm o) as [a|]; simpl; [|naive_solver].
  destruct (checksum p) as [c|]; [|naive_solver].
  destruct (str_eqb_spec (normalize_token c) (normalize_token (compute_hex a chunk))); simpl; [|naive_solver].
  destruct (verify_remote_etag o); simpl; [|naive_solver].
  destruct (str_eqb_spec (normalize_token (etag p)) (normalize_token (compute_hex a chunk))); naive_solver.
Qed.

End Spec.

(** ** Steps of the session *)
Section Steps.
Context `{Digests}.
Context (o : ResumableUploadOptions) (bytes : list Z) (c0 : ResumableUploadCheckpoint).

Lemma offset_next i : 1 <= i -> offset o (i + 1) = (offset o i + part_len o)%nat.
Proof. intros Hi. unfold offset. replace (i + 1 - 1) with (i - 1 + 1) by lia. rewrite Z2Nat.inj_add by lia. lia. Qed.

Lemma part_bytes_nonempty i : part_bytes o bytes i <> [] -> (offset o i < length bytes)%nat.
Proof.
  intros Hne. destruct (Nat.lt_ge_cases (offset o i) (length bytes)) as [|Hge]; [done|].
  unfold part_bytes in Hne. by rewrite drop_ge, take_nil in Hne.
Qed.

Lemma progress_skip k c p :
  progress o bytes c0 k c -> k < u32_max -> part_bytes o bytes (k + 1) <> [] ->
  completed_parts c !! (k + 1) = Some p -> describes o (part_bytes o bytes (k + 1)) p ->
  progress o bytes c0 (k + 1) c.
Proof.
  intros [Hv Hid Hk Hr Hd Hrest] Hlt Hne%part_bytes_nonempty Hp Hdesc. split; try done; try lia.
  - intros i Hi. destruct (decide (i = k + 1)) as [->|]; [|apply Hd; lia].
    exists p. split_and!; try done. destruct Hv as (_ & _ & _ & _ & Hm). by apply Hm in Hp as [_ ->].
  - intros i q Hi. apply Hrest. lia.
Qed.

Lemma progress_delete k c :
  progress o bytes c0 k c -> progress o bytes c0 k (set_parts c (delete (k + 1) (completed_parts c))).
Proof.
  intros [Hv Hid Hk Hr Hd Hrest]. split; simpl; try done.
  - destruct Hv as (? & ? & ? & ? & Hm). split_and!; try done. by apply map_Forall_delete.
  - intros i Hi. destruct (Hd i Hi) as (p & Hp & ?). exists p. split; [|done].
    rewrite lookup_delete_ne; [done|lia].
  - intros i p Hi [_ Hp]%lookup_delete_Some. by apply Hrest.
Qed.

Lemma progress_insert k c p :
  progress o bytes c0 k c -> k < u32_max -> part_bytes o bytes (k + 1) <> [] ->
  part_number p = k + 1 -> describes o (part_bytes o bytes (k + 1)) p ->
  progress o bytes c0 (k + 1) (set_parts c (<[k + 1 := p]> (completed_parts c))).
Proof.
  intros [Hv Hid Hk Hr Hd Hrest] Hlt Hne%part_bytes_nonempty Hp Hdesc. split; simpl; try done; try lia.
  - destruct Hv as (? & ? & ? & ? & Hm). split_and!; try done. apply map_Forall_insert_2; [|done]. lia.
  - intros i Hi. destruct (decide (i = k + 1)) as [->|].
    + exists p. by rewrite lookup_insert_eq.
    + rewrite lookup_insert_ne by done. apply Hd. lia.
  - intros i q Hi. rewrite lookup_insert_ne by lia. apply Hrest. lia.
Qed.

(** After [next_chunk] asked for an upload. *)
Record planned (s : ResumableUploadSession) (plan : UploadPartPlan) (reader : list read_event) : Prop := {
  planned_options : options s = o;
  planned_number : plan_part_number plan = next_part_number s;
  planned_chunk : chunk plan = part_bytes o bytes (next_part_number s);
  planned_nonempty : chunk plan <> [];
  planned_checksum : expected_checksum plan = options_expected_checksum o (chunk plan);
  planned_progress : progress o bytes c0 (next_part_number s - 1) (checkpoint s);
  planned_width : next_part_number s <= u32_max;
  planned_payload : payload reader = skipn (offset o (next_part_number s + 1)) bytes;
  planned_total :
    total_bytes s = Z.min (Z.of_nat (Nat.min (offset o (next_part_number s + 1)) (length bytes))) u64_max;
}.

Lemma read_part s reader bs reader' :
  session_inv o bytes c0 s reader -> read_chunk reader (part_size (options s)) = (Ok bs, reader') ->
  bs = part_bytes o bytes (next_part_number s) /\
  payload reader' = skipn (offset o (next_part_number s + 1)) bytes.
Proof.
  intros [Ho [_ _ Hk _ _ _] Hp _] (-> & -> & _)%read_chunk_Ok. rewrite Ho, Hp, drop_drop.
  rewrite offset_next by lia. done.
Qed.

Lemma total_after n i :
  1 <= i -> n = Z.min (Z.of_nat (Nat.min (offset o i) (length bytes))) u64_max ->
  sat_add u64_max n (Z.of_nat (length (part_bytes o bytes i))) =
  Z.min (Z.of_nat (Nat.min (offset o (i + 1)) (length bytes))) u64_max.
Proof.
  intros Hi ->. unfold sat_add, part_bytes. rewrite length_take, length_drop, offset_next by done. lia.
Qed.

Lemma next_chunk_step {E} s reader bs reader' :
  session_inv o bytes c0 s reader -> read_chunk reader (part_size (options s)) = (Ok bs, reader') ->
  match next_chunk (E:=E) bs s with
  | (Err e, s') => s' = s /\ error_checkpoint e = Some (checkpoint s)
  | (Ok Finish, s') => s' = s /\ bs = []
  | (Ok Skip, s') => session_inv o bytes c0 s' reader' /\ bs <> [] /\ upload_id (checkpoint s') = upload_id (checkpoint s)
  | (Ok (Upload plan), s') => planned s' plan reader' /\ bs <> []
  end.
Proof.
  intros Hinv Hr. destruct (read_part _ _ _ _ Hinv Hr) as [Hbs Hpay].
  destruct Hinv as [Ho Hprog _ Htot]. pose proof (progress_count _ _ _ _ _ Hprog) as Hk.
  unfold next_chunk. destruct bs as [|b bs].
  { by destruct (checkpoint_has_remaining_parts _ _). }
  unfold current_part_number. destruct (Z.leb_spec (next_part_number s) u32_max) as [Hle|]; [|done].
  simpl options. rewrite Ho. set (i := next_part_number s) in *.
  assert (part_bytes o bytes (i - 1 + 1) <> []) as Hne by (replace (i - 1 + 1) with i by lia; by rewrite <- Hbs).
  pose proof (total_after _ i ltac:(lia) Htot) as Htot'. rewrite <- Hbs in Htot'.
  assert (forall c, progress o bytes c0 (i - 1) c ->
    planned {| options := o; checkpoint := c; resumed := resumed s;
               total_bytes := sat_add u64_max (total_bytes s) (Z.of_nat (length (b :: bs)));
               next_part_number := i |}
      {| plan_part_number := i; chunk := b :: bs; expected_checksum := options_expected_checksum o (b :: bs) |}
      reader') as Hplan.
  { intros c Hc. by split. }
  destruct (completed_parts (checkpoint (set_total_bytes s _)) !! i) as [p|] eqn:Hp.
  2:{ split; [|done]. unfold set_total_bytes. rewrite Ho. by apply Hplan. }
  destruct (checkpoint_part_matches _ _ _ _) eqn:Hm.
  - apply checkpoint_part_matches_spec in Hm. split_and!; [|done|done]. split; simpl; try done.
    + fold i. replace (i + 1 - 1) with (i - 1 + 1) by lia.
      apply (progress_skip _ _ p); [done|lia|done| |]; replace (i - 1 + 1) with i by lia; [done|].
      by rewrite <- Hbs.
  - split; [|done]. unfold set_total_bytes, set_checkpoint_parts. simpl. rewrite Ho. apply Hplan.
    pose proof (progress_delete _ _ Hprog) as Hdel. by replace (i - 1 + 1) with i in Hdel by lia.
Qed.

Lemma validated_describes {E} c number p expected chunk :
  size p = Z.of_nat (length chunk) -> expected = options_expected_checksum o chunk ->
  validate_uploaded_part (E:=E) o c number p expected = Ok tt ->
  describes o chunk
    match checksum p, expected with None, Some c => with_checksum p c | _, _ => p end.
Proof.
  intros Hs -> Hv. apply checkpoint_part_matches_spec.
  unfold validate_uploaded_part, options_expected_checksum, checkpoint_part_matches in *.
  destruct (part_checksum_algorithm o) as [a|]; cbn in *.
  2:{ destruct (checksum p); by rewrite Hs, Z.eqb_refl. }
  destruct (checksum p) as [sum|] eqn:Hc; cbn in *; rewrite Hs, Z.eqb_refl; cbn.
  - rewrite Hc. destruct (str_eqb (normalize_token sum) _); cbn in *; [|done].
    destruct (verify_remote_etag o); [|done]. by destruct (str_eqb (normalize_token (etag p)) _).
  - destruct (str_eqb_spec (normalize_token (compute_hex a chunk)) (normalize_token (compute_hex a chunk)));
      [|done]. cbn.
    destruct (verify_remote_etag o); [|done]. by destruct (str_eqb (normalize_token (etag p)) _).
Qed.

Lemma validate_uploaded_part_Err {E} c number p expected e :
  validate_uploaded_part (E:=E) o c number p expected = Err e -> error_checkpoint e = Some c.
Proof.
  unfold validate_uploaded_part. destruct expected as [x|]; [|done].
  destruct (checksum p) as [sum|]; cbn; [destruct (str_eqb (normalize_token sum) _); cbn; [|by intros [= <-]]|];
    (destruct (verify_remote_etag o); [|done]);
    destruct (str_eqb (normalize_token (etag p)) _); cbn; naive_solver.
Qed.

Lemma accept_step {E} s plan reader uploaded :
  planned s plan reader ->
  match accept_uploaded_part (E:=E) plan uploaded s with
  | (Err e, s') => s' = s /\ error_checkpoint e = Some (checkpoint s)
  | (Ok _, s') => session_inv o bytes c0 s' reader
  end.
Proof.
  intros [Ho Hn Hch Hne Hck Hprog Hw Hpay Htot]. unfold accept_uploaded_part.
  destruct (Z.eqb_spec (part_number uploaded) (plan_part_number plan)) as [Hnum|]; simpl; [|done].
  destruct (Z.eqb_spec (size uploaded) (Z.of_nat (length (chunk plan)))) as [Hsize|]; simpl; [|done].
  rewrite Ho. destruct (validate_uploaded_part _ _ _ _ _) as [[]|e] eqn:Hv.
  2:{ split; [done|]. by eapply validate_uploaded_part_Err. }
  apply (validated_describes _ _ _ _ (chunk plan)) in Hv; [|done|done].
  split; simpl; try done. rewrite Hn. set (i := next_part_number s) in *.
  pose proof (progress_count _ _ _ _ _ Hprog).
  replace (i + 1 - 1) with (i - 1 + 1) by lia. replace i with (i - 1 + 1) at 2 by lia.
  apply progress_insert; [done|lia| | |]; replace (i - 1 + 1) with i by lia; rewrite <- ?Hch; try done.
  rewrite <- Hn, <- Hnum. by destruct (checksum uploaded), (expected_checksum plan).
Qed.

Lemma session_new_inv {E} r reader s :
  payload reader = bytes -> session_new (E:=E) o c0 r = Ok s -> session_inv o bytes c0 s reader.
Proof.
  intros Hp. unfold session_new. destruct (validate_checkpoint o c0) as [[]|] eqn:Hv; [|done].
  simpl. intros [= <-]. apply validate_checkpoint_valid in Hv.
  split; simpl; try done. split; try done; [by left|]. intros i. simpl. lia.
Qed.

End Steps.

(** ** The driver *)
Section Loop.
Context `{Digests} {W E : Type} `{!UploadBackend W E} `{!Runtime W}.

Lemma part_attempts_total fuel s plan attempt w :
  1 <= Z.of_nat fuel -> max_attempts (options s) - attempt < Z.of_nat fuel ->
  is_Some (part_attempts fuel s plan attempt w).
Proof.
  revert attempt w. induction fuel as [|fuel IH]; intros attempt w Hf Ha; [lia|]. simpl.
  destruct (upload_part _ _ _ w) as [[p|e] w']; [done|]. unfold record_failure.
  destruct (Z.leb_spec (max_attempts (options s)) attempt); [done|]. apply IH; lia.
Qed.

Lemma part_attempts_Err fuel s plan attempt w e w' :
  part_attempts fuel s plan attempt w = Some (Err e, w') -> error_checkpoint e = Some (checkpoint s).
Proof.
  revert attempt w. induction fuel as [|fuel IH]; intros attempt w; simpl; [done|].
  destruct (upload_part _ _ _ w) as [[p|source] w1]; [done|]. unfold record_failure.
  destruct (Z.leb_spec (max_attempts (options s)) attempt); [by intros [= <- <-]|apply IH].
Qed.

Lemma upload_part_total s plan w : is_Some (upload_part_with_retries_blocking s plan w).
Proof. apply part_attempts_total; lia. Qed.

Lemma next_chunk_consumes bs s s' :
  (next_chunk (E:=E) bs s = (Ok Skip, s') -> bs <> []) /\
  (forall plan, next_chunk (E:=E) bs s = (Ok (Upload plan), s') -> bs <> []).
Proof.
  unfold next_chunk. split; [intros Hn ->|intros plan Hn ->]; by destruct (checkpoint_has_remaining_parts _ _).
Qed.

Lemma upload_loop_total fuel s reader w :
  (length reader < fuel)%nat -> is_Some (upload_loop fuel s reader w).
Proof.
  revert s reader w. induction fuel as [|fuel IH]; intros s reader w Hf; [lia|]. simpl.
  destruct (read_chunk reader _) as [[bs|e] reader'] eqn:Hr; [|done].
  apply read_chunk_Ok in Hr as (_ & _ & Hlen).
  assert (bs <> [] -> length reader' < fuel)%nat as Hless by (destruct bs; simpl in *; [done|lia]).
  destruct (next_chunk bs s) as [[[| |plan]|e] s'] eqn:Hn; [done| | |done].
  - apply IH, Hless, (proj1 (next_chunk_consumes _ _ _) Hn).
  - destruct (upload_part_total s' plan w) as [[[p|e] w'] ->]; [|done].
    destruct (accept_uploaded_part plan p s') as [[|] s'']; [|done].
    apply IH, Hless, (proj2 (next_chunk_consumes _ _ _) plan Hn).
Qed.

(** More fuel changes nothing. *)
Lemma upload_loop_fuel fuel fuel' s reader w r :
  upload_loop fuel s reader w = Some r -> (fuel <= fuel')%nat -> upload_loop fuel' s reader w = Some r.
Proof.
  revert fuel' s reader w. induction fuel as [|fuel IH]; intros fuel' s reader w; [done|].
  destruct fuel' as [|fuel']; [lia|]. intros Hl Hle. simpl in *.
  destruct (read_chunk reader _) as [[bs|e] reader']; [|done].
  destruct (next_chunk bs s) as [[[| |plan]|e] s']; [done| | |done].
  - apply IH; [done|lia].
  - destruct (upload_part_with_retries_blocking s' plan w) as [[[p|e] w']|]; [|done|done].
    destruct (accept_uploaded_part plan p s') as [[|] s'']; [|done]. apply IH; [done|lia].
Qed.

Lemma upload_loop_inv o bytes c0 fuel s reader w r s' w' :
  session_inv o bytes c0 s reader -> upload_loop fuel s reader w = Some (r, s', w') ->
  upload_id (checkpoint s') = upload_id c0 /\
  match r with
  | Ok _ => exists reader', session_inv o bytes c0 s' reader' /\ part_bytes o bytes (next_part_number s') = []
  | Err e => exists k c, error_checkpoint e = Some c /\ progress o bytes c0 k c
  end.
Proof.
  revert s reader w. induction fuel as [|fuel IH]; intros s reader w Hinv; [done|]. simpl.
  assert (forall s1 e, progress o bytes c0 (next_part_number s1 - 1) (checkpoint s1) ->
    error_checkpoint e = Some (checkpoint s1) ->
    upload_id (checkpoint s1) = upload_id c0 /\
    exists k c, error_checkpoint (E:=E) e = Some c /\ progress o bytes c0 k c) as Hfail.
  { intros s1 e Hp He. split; [apply Hp|eauto]. }
  destruct (read_chunk reader (part_size (options s))) as [[bs|e] reader'] eqn:Hr.
  2:{ intros [= <- <- <-]. apply Hfail; [apply Hinv|done]. }
  pose proof (next_chunk_step (E:=E) _ _ _ _ _ _ _ Hinv Hr) as Hn.
  destruct (next_chunk bs s) as [[[| |plan]|e] s1].
  - destruct Hn as [-> ->]. intros [= <- <- <-]. split; [apply Hinv|]. exists reader. split; [done|].
    by destruct (read_part _ _ _ _ _ _ _ Hinv Hr) as [<- _].
  - destruct Hn as [Hn _]. by apply IH.
  - destruct Hn as [Hn _]. destruct (upload_part_with_retries_blocking s1 plan w) as [[[p|e] w1]|] eqn:Hu; [| |done].
    + pose proof (accept_step (E:=E) _ _ _ _ _ _ p Hn) as Ha.
      destruct (accept_uploaded_part plan p s1) as [[|e] s2]; [by apply IH|].
      destruct Ha as [-> He]. intros [= <- <- <-]. apply Hfail; [apply Hn|done].
    + apply part_attempts_Err in Hu. intros [= <- <- <-]. apply Hfail; [apply Hn|done].
  - destruct Hn as [-> He]. intros [= <- <- <-]. apply Hfail; [apply Hinv|done].
Qed.

(** [k] calls of [upload_part] fail one after the other, each followed by its backoff. *)
Definition pause (s : ResumableUploadSession) (attempt : Z) (w : W) : W :=
  let delay := backoff_for_retry (random_range w) (options s) attempt in
  if duration_is_zero delay then w else sleep delay w.

Inductive failing (s : ResumableUploadSession) (plan : UploadPartPlan) (w : W) : Z -> W -> Prop :=
| failing_none : failing s plan w 0 w
| failing_more k w1 e w2 :
    failing s plan w k w1 ->
    upload_part (upload_id (checkpoint s)) (plan_part_number plan) (chunk plan) w1 = (Err e, w2) ->
    failing s plan w (k + 1) (pause s (k + 1) w2).

Lemma part_attempts_spec fuel s plan k w0 w r :
  failing s plan w0 k w -> 0 <= k < Z.max 1 (max_attempts (options s)) ->
  part_attempts fuel s plan (k + 1) w = Some r ->
  exists k' w', 0 <= k' < Z.max 1 (max_attempts (options s)) /\ failing s plan w0 k' w' /\
    match upload_part (upload_id (checkpoint s)) (plan_part_number plan) (chunk plan) w' with
    | (Ok part, w2) => r = (Ok part, w2)
    | (Err e, w2) =>
      k' + 1 = Z.max 1 (max_attempts (options s)) /\
      r = (Err (PartUploadFailed (plan_part_number plan) (k' + 1) (checkpoint s) e), w2)
    end.
Proof.
  revert k w. induction fuel as [|fuel IH]; intros k w Hf Hk; simpl; [done|].
  destruct (upload_part _ _ _ w) as [[p|e] w'] eqn:Hu.
  { intros [= <-]. exists k, w. by rewrite Hu. }
  unfold record_failure. destruct (Z.leb_spec (max_attempts (options s)) (k + 1)).
  - intros [= <-]. exists k, w. rewrite Hu. split_and!; try done; lia.
  - fold (pause s (k + 1) w'). apply IH; [by eapply failing_more|lia].
Qed.

(** The session a resumed upload reaches after [k] parts. *)
Definition session_at (o : ResumableUploadOptions) (c : ResumableUploadCheckpoint) (r : bool)
    (len k : nat) : ResumableUploadSession :=
  {| options := o; checkpoint := c; resumed := r;
     total_bytes := Z.min (Z.of_nat (Nat.min (k * part_len o) len)) u64_max;
     next_part_number := Z.of_nat k + 1 |}.

Lemma skip_part o bytes c0 c r K k fuel w :
  (0 < part_len o)%nat -> progress o bytes c0 K c -> Z.of_nat k < K ->
  upload_loop (S fuel) (session_at o c r (length bytes) k) (Byte <$> skipn (k * part_len o) bytes) w =
  upload_loop fuel (session_at o c r (length bytes) (S k)) (Byte <$> skipn (S k * part_len o) bytes) w.
Proof.
  intros Hlen [Hv _ HK Hread Hd _] Hk. cbn [upload_loop session_at options]. rewrite read_chunk_bytes.
  fold (part_len o). rewrite drop_drop. set (i := Z.of_nat k + 1).
  assert (offset o i = (k * part_len o)%nat) as Hoff by (unfold offset; f_equal; lia).
  assert (take (part_len o) (skipn (k * part_len o) bytes) = part_bytes o bytes i) as ->
    by (unfold part_bytes; by rewrite Hoff).
  destruct (Hd i) as (p & Hp & _ & Hdesc); [lia|].
  assert (part_bytes o bytes i <> []) as Hne.
  { destruct Hread as [|Hread]; [lia|]. intros Hnil%(f_equal length). revert Hnil. unfold part_bytes.
    assert (offset o i <= offset o K)%nat by (unfold offset; apply Nat.mul_le_mono_r; lia).
    rewrite length_take, length_drop. simpl. lia. }
  unfold next_chunk. destruct (part_bytes o bytes i) as [|b bs] eqn:Hpb; [done|].
  unfold current_part_number. cbn [session_at next_part_number]. fold i.
  destruct (Z.leb_spec i u32_max); [|lia]. simpl. rewrite Hp.
  change (Z.pos _) with (Z.of_nat (length (b :: bs))).
  rewrite (proj2 (checkpoint_part_matches_spec o (b :: bs) p)) by done.
  f_equal; [|f_equal; f_equal; lia].
  unfold session_at, advance_part_number, set_total_bytes. simpl. f_equal; [|lia].
  replace (S (length bs)) with (length (part_bytes o bytes i)) by (by rewrite Hpb).
  rewrite (total_after o bytes _ i); [|lia|by rewrite Hoff].
  rewrite offset_next by lia. rewrite Hoff. do 3 f_equal. lia.
Qed.

Lemma skip_parts o bytes c0 c r K k fuel w :
  (0 < part_len o)%nat -> progress o bytes c0 K c -> Z.of_nat k <= K ->
  upload_loop (k + fuel) (session_at o c r (length bytes) 0) (Byte <$> bytes) w =
  upload_loop fuel (session_at o c r (length bytes) k) (Byte <$> skipn (k * part_len o) bytes) w.
Proof.
  intros Hlen Hp. revert fuel. induction k as [|k IH]; intros fuel Hk; [done|].
  replace (S k + fuel)%nat with (k + S fuel)%nat by lia. rewrite IH by lia.
  eapply skip_part; [done|done|lia].
Qed.

(** Resuming from a checkpoint with [K] parts done. *)
Lemma resume_from_progress o bytes c0 c K w :
  (0 < part_len o)%nat -> progress o bytes c0 K c ->
  let k := Z.to_nat K in
  let rest := skipn (k * part_len o) bytes in
  upload_with_checkpoint_blocking o (Byte <$> bytes) c true w =
  conclude o <$> upload_loop (S (length rest)) (session_at o c true (length bytes) k) (Byte <$> rest) w.
Proof.
  intros Hlen Hp k rest. unfold upload_with_checkpoint_blocking, session_new.
  destruct Hp as [Hv Hid HK Hread Hd Hrest] eqn:Heq. clear Heq.
  rewrite (proj2 (validate_checkpoint_valid o c)) by done. simpl result_bind. f_equal.
  assert (Z.of_nat k <= K) as Hk by lia.
  assert (k <= length bytes)%nat as Hkb.
  { unfold offset, k in *. destruct Hread as [|Hread]; nia. }
  destruct (upload_loop_total (S (length rest)) (session_at o c true (length bytes) k) (Byte <$> rest) w)
    as [res Hres]; [rewrite length_fmap; lia|].
  rewrite Hres. rewrite <- (skip_parts o bytes c0 c true K k) in Hres by done.
  apply (upload_loop_fuel _ (S (length (Byte <$> bytes)))) in Hres; [exact Hres|].
  rewrite length_fmap. unfold rest. rewrite length_drop. nia.
Qed.

Lemma collect_parts_Ok c l parts :
  collect_parts (E:=E) c l = Ok parts <-> mapM (fun i => completed_parts c !! i) l = Some parts.
Proof.
  revert parts. induction l as [|i l IH]; intros parts; simpl; [split; by intros [= <-]|].
  destruct (completed_parts c !! i) as [p|]; simpl; [|done].
  destruct (collect_parts c l) as [ps|e]; simpl.
  - rewrite (proj1 (IH ps) eq_refl). simpl. split; by intros [= <-].
  - destruct (mapM _ l) as [ps|]; simpl; [|done]. by discriminate (proj2 (IH ps) eq_refl).
Qed.

Lemma abort_checkpoint o id e w : error_checkpoint (abort_error_if_configured_blocking (W:=W) o id e w).1 = error_checkpoint e.
Proof. unfold abort_error_if_configured_blocking. destruct (abort_on_error o); [|done]. by destruct (abort_upload id w) as [[]]. Qed.

Lemma complete_session_Err s w e w' :
  complete_session s w = (Err e, w') -> error_checkpoint e = Some (checkpoint s).
Proof.
  unfold complete_session, ordered_completed_parts.
  destruct (total_parts s =? 0); [by intros [= <- <-]|]. unfold ordered_parts.
  destruct (collect_parts _ _) as [parts|e'] eqn:Hc.
  - destruct (complete_upload _ _ w) as [[|source] w1]; simpl; [done|by intros [= <- <-]].
  - intros [= <- <-]. clear w. revert Hc. generalize (seqZ 1 (total_parts s)) as l.
    induction l as [|i l IH]; simpl; [done|]. destruct (completed_parts (checkpoint s) !! i); [|by intros [= <-]].
    destruct (collect_parts _ l); simpl; [done|]. by intros [= <-]; apply IH.
Qed.

End Loop.

End Upload.

(** ** Properties *)
Section Properties.
Import Upload.
Context `{Digests} {W E : Type} `{!UploadBackend W E} `{!Runtime W}.

Lemma validate_part_len o : validate (E:=E) o = Ok tt -> 0 <= part_size o -> (0 < part_len o)%nat.
Proof. unfold validate, part_len. destruct (Z.eqb_spec (part_size o) 0); [done|]. lia. Qed.

Lemma total_parts_inv o bytes c0 s reader :
  session_inv o bytes c0 s reader -> total_parts s = next_part_number s - 1 /\ 0 <= total_parts s <= u32_max.
Proof.
  intros [_ [_ _ Hk _ _ _] _ _]. unfold total_parts, MAX_RESUMABLE_UPLOAD_PART_NUMBER.
  rewrite sat_sub_exact by lia. lia.
Qed.

(** At the end of the source the parts cover it. *)
Lemma finished_bounds o bytes c0 s reader :
  (0 < part_len o)%nat -> session_inv o bytes c0 s reader ->
  part_bytes o bytes (next_part_number s) = [] -> total_parts s <> 0 ->
  (total_parts s - 1) * part_size o < Z.of_nat (length bytes) <= total_parts s * part_size o /\
  total_bytes s = Z.min (Z.of_nat (length bytes)) u64_max.
Proof.
  intros Hlen Hinv Hend Hn. destruct (total_parts_inv _ _ _ _ _ Hinv) as [Ht Hw].
  destruct Hinv as [_ [_ _ _ Hread _ _] _ ->]. rewrite <- Ht in Hread. destruct Hread as [|Hread]; [lia|].
  apply (f_equal length) in Hend. unfold part_bytes in Hend. rewrite length_take, length_drop in Hend.
  replace (next_part_number s) with (total_parts s + 1) in * by lia.
  rewrite offset_next in * by lia. unfold offset, part_len in *. simpl in Hend.
  set (n := total_parts s) in *. split; [|f_equal; lia].
  assert (Z.of_nat (Z.to_nat (n - 1) * Z.to_nat (part_size o)) = (n - 1) * part_size o)
    by (rewrite Nat2Z.inj_mul, !Z2Nat.id by lia; done). nia.
Qed.

Lemma finished_parts o bytes c0 s reader parts :
  session_inv o bytes c0 s reader ->
  collect_parts (E:=E) (checkpoint s) (seqZ 1 (total_parts s)) = Ok parts ->
  Z.of_nat (length parts) = total_parts s /\
  forall i p, parts !! i = Some p ->
    part_number p = Z.of_nat i + 1 /\ describes o (part_bytes o bytes (Z.of_nat i + 1)) p.
Proof.
  intros Hinv Hc%collect_parts_Ok%mapM_Some. destruct (total_parts_inv _ _ _ _ _ Hinv) as [Ht Hw].
  destruct Hinv as [_ [_ _ _ _ Hd _] _ _]. split.
  - apply Forall2_length in Hc. rewrite length_seqZ in Hc. lia.
  - intros i p Hp. destruct (Forall2_lookup_r _ _ _ _ _ Hc Hp) as (j & Hj & Hpj).
    apply lookup_seqZ in Hj as [-> Hi]. replace (1 + Z.of_nat i) with (Z.of_nat i + 1) in Hpj by lia.
    destruct (Hd (Z.of_nat i + 1)) as (q & Hq & ? & ?); [lia|]. rewrite Hq in Hpj. by simplify_eq.
Qed.

(** C27: The blocking upload driver returns on every source whose reads, interrupted
    ones included, come to an end, and on every checkpoint, set of options and
    backend: the loops over chunks and over the attempts of a part terminate. *)
Theorem upload_always_returns o reader c r w :
  exists outcome w', upload_with_checkpoint_blocking o reader c r w = Some (outcome, w').
Proof.
  unfold upload_with_checkpoint_blocking. destruct (session_new o c r) as [s|e]; [|eauto].
  destruct (upload_loop_total (S (length reader)) s reader w) as [res ->]; [lia|].
  simpl. destruct (conclude o res). eauto.
Qed.

(** C26: A successful upload, fresh or resumed, covers its source exactly: the parts
    are numbered 1 to n with n the least number of parts that hold all bytes, each
    part's size, recorded checksum and (when verified) ETag are those of its slice
    of the source, total_bytes is the source's length, and the backend completed the
    upload with exactly this list. *)
Theorem upload_completes_exact_parts o reader c r w res w' :
  validate (E:=E) o = Ok tt -> 0 <= part_size o ->
  upload_with_checkpoint_blocking o reader c r w = Some (Ok res, w') ->
  let bytes := payload reader in
  let n := result_total_parts res in
  bytes <> [] /\ 1 <= n <= u32_max /\ (n - 1) * part_size o < Z.of_nat (length bytes) <= n * part_size o /\
  result_total_bytes res = Z.min (Z.of_nat (length bytes)) u64_max /\
  Z.of_nat (length (result_completed_parts res)) = n /\
  (forall i p, result_completed_parts res !! i = Some p ->
     part_number p = Z.of_nat i + 1 /\ describes o (part_bytes o bytes (Z.of_nat i + 1)) p) /\
  exists w1, complete_upload (upload_id c) (result_completed_parts res) w1 = (Ok tt, w').
Proof.
  intros Hv Hps. pose proof (validate_part_len o Hv Hps) as Hlen. unfold upload_with_checkpoint_blocking.
  destruct (session_new o c r) as [s0|e] eqn:Hs; [|done].
  apply (session_new_inv o (payload reader) c r reader) in Hs; [|done].
  destruct (upload_loop _ s0 reader w) as [[[res1 s] w1]|] eqn:Hl; [|done].
  destruct (upload_loop_inv _ _ _ _ _ _ _ _ _ _ Hs Hl) as [Hid Hres]. simpl.
  destruct res1 as [[]|e].
  2:{ destruct (abort_error_if_configured_blocking _ _ _ _). intros [=]. }
  destruct Hres as (reader' & Hinv & Hend). unfold complete_session, ordered_completed_parts.
  destruct (Z.eqb_spec (total_parts s) 0) as [|Hn0].
  { destruct (abort_error_if_configured_blocking _ _ _ _). intros [=]. }
  unfold ordered_parts. destruct (collect_parts _ _) as [parts|e] eqn:Hc.
  2:{ destruct (abort_error_if_configured_blocking _ _ _ _). intros [=]. }
  destruct (complete_upload _ parts w1) as [[[]|source] w2] eqn:Hcomplete; simpl.
  2:{ destruct (abort_error_if_configured_blocking _ _ _ _). intros [=]. }
  intros [= <- <-]. simpl. destruct (total_parts_inv _ _ _ _ _ Hinv) as [_ Hw].
  destruct (finished_bounds _ _ _ _ _ Hlen Hinv Hend Hn0) as [Hbounds Htotal].
  destruct (finished_parts _ _ _ _ _ _ Hinv Hc) as [Hcount Hparts].
  split_and!; try done; try lia.
  - intros Hnil. rewrite Hnil in Hbounds. simpl in Hbounds. nia.
  - exists w1. by rewrite <- Hid.
Qed.

(** A failed upload ends in some progress of it. *)
Lemma failed_progress o reader c r w e w' c' :
  upload_with_checkpoint_blocking o reader c r w = Some (Err e, w') -> error_checkpoint e = Some c' ->
  exists k, progress o (payload reader) c k c'.
Proof.
  unfold upload_with_checkpoint_blocking. destruct (session_new o c r) as [s0|e0] eqn:Hs.
  2:{ intros [= -> <-] He. unfold session_new, validate_checkpoint in Hs. exfalso.
      repeat (case_match; simplify_eq/=). }
  apply (session_new_inv o (payload reader) c r reader) in Hs; [|done].
  destruct (upload_loop _ s0 reader w) as [[[res1 s] w1]|] eqn:Hl; [|done].
  destruct (upload_loop_inv _ _ _ _ _ _ _ _ _ _ Hs Hl) as [Hid Hres].
  assert (forall e0 w0 k c1, error_checkpoint e0 = Some c1 -> progress o (payload reader) c k c1 ->
    (let '(e, w) := abort_error_if_configured_blocking o (upload_id (checkpoint s)) e0 w0 in
     (Err (A:=ResumableUploadResult) e, w)) = (Err e, w') -> error_checkpoint e = Some c' ->
    exists k, progress o (payload reader) c k c') as Habort.
  { intros e0 w0 k c1 He0 Hp. pose proof (abort_checkpoint o (upload_id (checkpoint s)) e0 w0) as Ha.
    destruct (abort_error_if_configured_blocking _ _ _ _) as [e1 w2]. simpl in Ha. intros [= -> ->] He.
    exists k. congruence. }
  simpl. destruct res1 as [[]|e0].
  - destruct Hres as (reader' & Hinv & _). destruct (complete_session s w1) as [[parts|e0] w2] eqn:Hc; [done|].
    apply complete_session_Err in Hc. intros [= Hab]. eapply Habort; [done|apply Hinv|done].
  - destruct Hres as (k & c1 & He0 & Hp). intros [= Hab]. by eapply Habort.
Qed.

(** The checkpoint an error carries, whatever the failure, the backend and the
    abort setting, is accepted for resuming with the same options, keeps the session
    id, and its entries up to some k are exactly parts of the source while later
    ones were in the initial checkpoint. *)
Lemma error_checkpoint_is_resumable o reader c r w e w' c' :
  upload_with_checkpoint_blocking o reader c r w = Some (Err e, w') -> error_checkpoint e = Some c' ->
  validate_checkpoint (E:=E) o c' = Ok tt /\ upload_id c' = upload_id c /\
  exists k, 0 <= k <= u32_max /\
    (forall i, 1 <= i <= k -> exists p, completed_parts c' !! i = Some p /\ part_number p = i /\
       describes o (part_bytes o (payload reader) i) p) /\
    (forall i p, k < i -> completed_parts c' !! i = Some p -> completed_parts c !! i = Some p).
Proof.
  intros Hu He. destruct (failed_progress _ _ _ _ _ _ _ _ Hu He) as [k [Hv Hid Hk Hread Hd Hrest]].
  split_and!; [by apply validate_checkpoint_valid|done|]. by exists k.
Qed.

(** Resuming from the checkpoint of a failed upload over the same source goes
    on where it stopped: with k the number of parts done (all of the checkpoint's,
    when the upload was fresh), resume_blocking equals the driver started at part
    k+1 on the rest of the source with the backend untouched, so no completed part
    is sent again. *)
Lemma resume_skips_completed_parts o reader c r w e w' c' w2 :
  validate (E:=E) o = Ok tt -> 0 <= part_size o ->
  upload_with_checkpoint_blocking o reader c r w = Some (Err e, w') -> error_checkpoint e = Some c' ->
  let bytes := payload reader in
  exists k : nat,
    (forall i, 1 <= i <= Z.of_nat k -> is_Some (completed_parts c' !! i)) /\
    (completed_parts c = ∅ -> forall i, is_Some (completed_parts c' !! i) -> i <= Z.of_nat k) /\
    let rest := skipn (k * part_len o) bytes in
    resume_blocking o (Byte <$> bytes) c' w2 =
    conclude o <$> upload_loop (S (length rest)) (session_at o c' true (length bytes) k) (Byte <$> rest) w2.
Proof.
  intros Hv Hps Hu He bytes. destruct (failed_progress _ _ _ _ _ _ _ _ Hu He) as [k Hp].
  exists (Z.to_nat k). pose proof Hp as [_ _ Hk _ Hd Hrest]. split_and!.
  - intros i Hi. destruct (Hd i) as (p & -> & _); [lia|done].
  - intros Hempty i [p Hi]. rewrite Z2Nat.id by lia.
    destruct (Z.le_gt_cases i k) as [|Hgt]; [done|]. apply Hrest in Hi; [|done]. by rewrite Hempty in Hi.
  - unfold resume_blocking. rewrite Hv. eapply resume_from_progress; [by apply validate_part_len|done].
Qed.

(** A part is uploaded by at most max_attempts calls: some calls fail, each
    followed by its backoff, and the result is the first success, or
    PartUploadFailed with the number of calls and the last error when that number
    has reached max_attempts. *)
Lemma part_retries_spec s plan w :
  exists k w1, 0 <= k < Z.max 1 (max_attempts (options s)) /\ failing s plan w k w1 /\
    upload_part_with_retries_blocking s plan w =
    Some match upload_part (upload_id (checkpoint s)) (plan_part_number plan) (chunk plan) w1 with
         | (Ok part, w2) => (Ok part, w2)
         | (Err e, w2) => (Err (PartUploadFailed (plan_part_number plan) (k + 1) (checkpoint s) e), w2)
         end /\
    (is_ok (upload_part (upload_id (checkpoint s)) (plan_part_number plan) (chunk plan) w1).1 = false ->
     k + 1 = Z.max 1 (max_attempts (options s))).
Proof.
  destruct (upload_part_total s plan w) as [res Hres]. rewrite Hres. unfold upload_part_with_retries_blocking in Hres.
  destruct (part_attempts_spec _ s plan 0 w w res (failing_none s plan w) ltac:(lia) Hres)
    as (k & w1 & Hk & Hf & Hr).
  exists k, w1. split_and!; [lia|lia|done| |];
    destruct (upload_part _ _ _ w1) as [[p|e] w2]; simpl; naive_solver.
Qed.

End Properties.

(** ** Witnesses

    Five bytes in parts of two, against a backend whose world is a script of the
    outcomes of [upload_part]. *)
Module UploadDemo.
Import Upload.

#[global] Instance no_digests : Digests := {| md5_hex := fun _ => []; sha256_digest := fun _ => [] |}.

#[global] Instance scripted : UploadBackend (list bool) unit := {|
  create_upload w := (Ok (lit "id"), w);
  upload_part _ number chunk w :=
    match w with
    | false :: w => (Err tt, w)
    | _ => (Ok (part_new number (lit "tag") (Z.of_nat (length chunk))), tail w)
    end;
  complete_upload _ _ w := (Ok tt, w);
  abort_upload _ w := (Ok tt, w);
|}.

#[global] Instance quiet : Runtime (list bool) :=
  {| random_range := fun _ low _ => low; sleep := fun _ w => w |}.

Definition demo_options : ResumableUploadOptions := with_max_attempts (with_part_size default_options 2) 2.
Definition source : list read_event := Byte <$> [1; 2; 3; 4; 5].
Definition fresh : ResumableUploadCheckpoint := checkpoint_new (lit "id") 2.

Definition demo_result : ResumableUploadResult :=
  {| result_upload_id := lit "id"; result_total_bytes := 5; result_total_parts := 3;
     result_resumed := false;
     result_completed_parts := [part_new 1 (lit "tag") 2; part_new 2 (lit "tag") 2; part_new 3 (lit "tag") 1] |}.

(** The checkpoint after the second part failed twice. *)
Definition after_one : ResumableUploadCheckpoint := set_parts fresh {[ 1 := part_new 1 (lit "tag") 2 ]}.

Lemma demo_fails :
  upload_with_checkpoint_blocking demo_options source fresh false [true; false; false] =
  Some (Err (PartUploadFailed 2 2 after_one tt), []).
Proof. vm_compute. reflexivity. Qed.

End UploadDemo.

Lemma upload_completes_exact_parts_witness :
  (3 - 1) * 2 < 5 <= 3 * 2 /\
  exists w1, Upload.complete_upload (lit "id")
    (Upload.result_completed_parts UploadDemo.demo_result) w1 = (Ok tt : result unit unit, [] : list bool).
Proof.
  destruct (upload_completes_exact_parts UploadDemo.demo_options UploadDemo.source UploadDemo.fresh false
    [true; false; true] UploadDemo.demo_result []) as (_ & _ & Hbounds & _ & _ & _ & Hdone).
  - vm_compute. reflexivity.
  - vm_compute. discriminate.
  - vm_compute. reflexivity.
  - split; [exact Hbounds|exact Hdone].
Defined.

Lemma error_checkpoint_is_resumable_witness :
  Upload.validate_checkpoint (E:=unit) UploadDemo.demo_options UploadDemo.after_one = Ok tt.
Proof.
  apply (error_checkpoint_is_resumable UploadDemo.demo_options UploadDemo.source UploadDemo.fresh false
    [true; false; false] (Upload.PartUploadFailed 2 2 UploadDemo.after_one tt) [] UploadDemo.after_one
    UploadDemo.demo_fails eq_refl).
Defined.

Lemma resume_skips_completed_parts_witness :
  exists k : nat, 1 <= Z.of_nat k /\
    Upload.resume_blocking UploadDemo.demo_options UploadDemo.source UploadDemo.after_one [] =
    Upload.conclude UploadDemo.demo_options <$>
      Upload.upload_loop (S (length (skipn (k * 2) [1; 2; 3; 4; 5])))
        (Upload.session_at UploadDemo.demo_options UploadDemo.after_one true 5 k)
        (Upload.Byte <$> skipn (k * 2) [1; 2; 3; 4; 5]) [].
Proof.
  destruct (resume_skips_completed_parts UploadDemo.demo_options UploadDemo.source UploadDemo.fresh false
    [true; false; false] (Upload.PartUploadFailed 2 2 UploadDemo.after_one tt) [] UploadDemo.after_one [])
    as (k & _ & Hk & Heq).
  - vm_compute. reflexivity.
  - vm_compute. discriminate.
  - exact UploadDemo.demo_fails.
  - reflexivity.
  - exists k. split; [apply (Hk eq_refl 1); by exists (Upload.part_new 1 (lit "tag") 2)|exact Heq].
Defined.
