(* ===== verification/Limiters.v ===== *)
(** * Request limiters (blocking_client/limiters.rs)

    The counting semaphore behind a mutex and a condition variable, and the limiters
    built from it: one semaphore for all requests, one per host in a table that
    evicts idle entries.  Semaphores are shared ([Arc]), so they live in a store and
    entries, permits and waiting callers hold their number; [Arc::strong_count] is the
    number of such holders.  The callers and permits of the limiters form a step
    relation whose steps are the critical sections of the mutexes; the table's lock
    region is one step, because a handle can only be cloned under that lock and an
    entry judged idle stays idle until the lock is released. *)
From S2P Require Import Prelude Text UriText Eviction.

Module Limiters.

Inductive AcquirePermitError := Timeout.

(** ** The semaphore: the number behind its mutex *)
Abbreviation BlockingSemaphore := Z.

Definition semaphore_new (permits : Z) : BlockingSemaphore := permits.

Definition try_acquire (state : BlockingSemaphore) : option BlockingSemaphore :=
  if state =? 0 then None else Some (state - 1).

(** One turn of the loop of [acquire], up to the wait. *)
Inductive turn := Acquired (state : BlockingSemaphore) | GaveUp (e : AcquirePermitError)
  | Wait (wait_for : option Duration).

Definition acquire_turn (deadline_at : option Instant) (now : Instant) (state : BlockingSemaphore)
    : turn :=
  if 0 <? state then Acquired (state - 1)
  else match deadline_at with
  | Some deadline_at =>
    if deadline_at <=? now then GaveUp Timeout
    else Wait (Some (saturating_duration_since deadline_at now))
  | None => Wait None
  end.

(** What follows the wait: an error, or the next turn. *)
Definition after_wait (deadline_at : option Instant) (timed_out : bool) (now : Instant)
    (state : BlockingSemaphore) : option AcquirePermitError :=
  match deadline_at with
  | Some deadline_at =>
    if timed_out && (state =? 0) && (deadline_at <=? now) then Some Timeout else None
  | None => None
  end.

Definition release (state : BlockingSemaphore) : BlockingSemaphore := sat_add usize_max state 1.

Definition available_permits (state : BlockingSemaphore) : Z := state.

(** ** The limiters *)
Record PerHostLimiterEntry := {
  semaphore : nat;
  limit : Z;
  last_used_at : Instant;
}.

Record RequestLimiters := {
  global : option nat;
  per_host_limit : option Z;
  per_host : gmap str PerHostLimiterEntry;
}.

(** A permit belongs to the global limit or to a host; dropping one first releases
    its semaphore, then its handle. *)
Inductive scope := Global | PerHost (host : str).
#[global] Instance scope_eq_dec : EqDecision scope.
Proof. solve_decision. Defined.
Inductive permit_state := Held | Released.
Record permit := {
  permit_scope : scope;
  permit_semaphore : nat;
  permit_is : permit_state;
}.

(** A caller inside [acquire] is about to test the count or sleeps. *)
Inductive phase := Testing | Sleeping.
Record caller := {
  caller_scope : scope;
  caller_semaphore : nat;
  caller_deadline_at : option Instant;
  caller_is : phase;
}.

Record world := {
  limiters : RequestLimiters;
  semaphores : gmap nat BlockingSemaphore;
  next_semaphore : nat;
  permits : list permit;
  callers : list caller;
}.

Definition entries_with (m : gmap str PerHostLimiterEntry) (i : nat) : Z :=
  countb (fun kv => (semaphore kv.2 =? i)%nat) (map_to_list m).

Definition strong_count (w : world) (i : nat) : Z :=
  (if bool_decide (global (limiters w) = Some i) then 1 else 0)
  + entries_with (per_host (limiters w)) i
  + countb (fun p => (permit_semaphore p =? i)%nat) (permits w)
  + countb (fun c => (caller_semaphore c =? i)%nat) (callers w).

Definition is_idle (w : world) (e : PerHostLimiterEntry) : bool :=
  (strong_count w (semaphore e) =? 1)
  && bool_decide (available_permits <$> semaphores w !! semaphore e = Some (limit e)).

Definition entry_in (w : world) : Eviction.PerHostLimiterEntry PerHostLimiterEntry :=
  {| Eviction.is_idle := is_idle w; Eviction.last_used_at := last_used_at |}.

(** [RequestLimiters::new], with the store that holds its global semaphore. *)
Definition new (max_in_flight per_host_limit : option Z) : option world :=
  match max_in_flight, per_host_limit with
  | None, None => None
  | _, _ =>
    Some {| limiters := {| global := (fun _ => O) <$> max_in_flight;
                           per_host_limit := per_host_limit; per_host := ∅ |};
            semaphores := match max_in_flight with Some n => {[ O := semaphore_new n ]} | None => ∅ end;
            next_semaphore := 1; permits := []; callers := [] |}
  end.

Definition set_table (w : world) (m : gmap str PerHostLimiterEntry) : world :=
  {| limiters := {| global := global (limiters w); per_host_limit := per_host_limit (limiters w);
                    per_host := m |};
     semaphores := semaphores w; next_semaphore := next_semaphore w;
     permits := permits w; callers := callers w |}.

Definition put_semaphore (w : world) (i : nat) (state : BlockingSemaphore) : world :=
  {| limiters := limiters w; semaphores := <[i := state]> (semaphores w);
     next_semaphore := next_semaphore w; permits := permits w; callers := callers w |}.

Definition set_parties (w : world) (ps : list permit) (cs : list caller) : world :=
  {| limiters := limiters w; semaphores := semaphores w; next_semaphore := next_semaphore w;
     permits := ps; callers := cs |}.

Definition add_permit (s : scope) (i : nat) (w : world) : world :=
  set_parties w ({| permit_scope := s; permit_semaphore := i; permit_is := Held |} :: permits w) (callers w).

Definition add_caller (s : scope) (i : nat) (deadline_at : option Instant) (w : world) : world :=
  set_parties w (permits w)
    ({| caller_scope := s; caller_semaphore := i; caller_deadline_at := deadline_at;
        caller_is := Testing |} :: callers w).

(** [entry(host).or_insert_with(..)] and [last_used_at = now]. *)
Definition host_entry (host_limit : Z) (host : str) (now : Instant) (w : world) : nat * world :=
  match per_host (limiters w) !! host with
  | Some e =>
    (semaphore e, set_table w (<[host := {| semaphore := semaphore e; limit := limit e;
                                            last_used_at := now |}]> (per_host (limiters w))))
  | None =>
    let i := next_semaphore w in
    let table := <[host := {| semaphore := i; limit := host_limit; last_used_at := now |}]>
                   (per_host (limiters w)) in
    (i, {| limiters := {| global := global (limiters w); per_host_limit := per_host_limit (limiters w);
                          per_host := table |};
           semaphores := <[i := semaphore_new host_limit]> (semaphores w); next_semaphore := S i;
           permits := permits w; callers := callers w |})
  end.

(** How the first region of an acquisition ends: without a limit, with a permit, or
    as a caller of the semaphore's [acquire]. *)
Inductive entered := Unlimited | Granted | Waiting.

Definition acquire_global (deadline_at : option Instant) (w : world) : entered * world :=
  match global (limiters w) with
  | Some i => (Waiting, add_caller Global i deadline_at w)
  | None => (Unlimited, w)
  end.

Definition acquire_host (host : option str) (deadline_at : option Instant) (now : Instant) (w : world)
    : entered * world :=
  let host :=
    if bool_decide (is_Some (per_host_limit (limiters w))) then host ≫= normalize_host_key else None in
  match per_host_limit (limiters w), host with
  | Some host_limit, Some host =>
    let w := set_table w
      (Eviction.cleanup_stale_per_host_limiters (entry := entry_in w) (per_host (limiters w)) now
         Eviction.PER_HOST_LIMITER_ENTRY_TTL Eviction.PER_HOST_LIMITER_MAX_ENTRIES) in
    let '(i, w) := host_entry host_limit host now w in
    match semaphores w !! i ≫= try_acquire with
    | Some state => (Granted, add_permit (PerHost host) i (put_semaphore w i state))
    | None => (Waiting, add_caller (PerHost host) i deadline_at w)
    end
  | _, _ => (Unlimited, w)
  end.

(** ** Steps

    [notify_one] wakes one sleeper of the semaphore, if there is one. *)
Definition sleeps_on (i : nat) (c : caller) : bool :=
  (caller_semaphore c =? i)%nat && match caller_is c with Sleeping => true | Testing => false end.
Definition tests (i : nat) (c : caller) : bool :=
  (caller_semaphore c =? i)%nat && match caller_is c with Sleeping => false | Testing => true end.
Definition holds (i : nat) (p : permit) : bool :=
  (permit_semaphore p =? i)%nat && match permit_is p with Held => true | Released => false end.

Definition with_phase (ph : phase) (c : caller) : caller :=
  {| caller_scope := caller_scope c; caller_semaphore := caller_semaphore c;
     caller_deadline_at := caller_deadline_at c; caller_is := ph |}.

Inductive notify_one (i : nat) : list caller -> list caller -> Prop :=
| notify_none cs : Forall (fun c => sleeps_on i c = false) cs -> notify_one i cs cs
| notify_sleeper cs1 c cs2 :
    sleeps_on i c = true -> notify_one i (cs1 ++ c :: cs2) (cs1 ++ with_phase Testing c :: cs2).

Inductive step : world -> world -> Prop :=
| step_acquire_global deadline_at w w' r :
    acquire_global deadline_at w = (r, w') -> step w w'
| step_acquire_host host deadline_at now w w' r :
    acquire_host host deadline_at now w = (r, w') -> step w w'
| step_acquired w cs1 c cs2 state state' now :
    callers w = cs1 ++ c :: cs2 -> caller_is c = Testing ->
    semaphores w !! caller_semaphore c = Some state ->
    acquire_turn (caller_deadline_at c) now state = Acquired state' ->
    step w (add_permit (caller_scope c) (caller_semaphore c)
              (put_semaphore (set_parties w (permits w) (cs1 ++ cs2)) (caller_semaphore c) state'))
| step_gave_up w cs1 c cs2 state now e :
    callers w = cs1 ++ c :: cs2 -> caller_is c = Testing ->
    semaphores w !! caller_semaphore c = Some state ->
    acquire_turn (caller_deadline_at c) now state = GaveUp e ->
    step w (set_parties w (permits w) (cs1 ++ cs2))
| step_wait w cs1 c cs2 state now wait_for :
    callers w = cs1 ++ c :: cs2 -> caller_is c = Testing ->
    semaphores w !! caller_semaphore c = Some state ->
    acquire_turn (caller_deadline_at c) now state = Wait wait_for ->
    step w (set_parties w (permits w) (cs1 ++ with_phase Sleeping c :: cs2))
| step_woken w cs1 c cs2 state timed_out now :
    (** a time-out or a spurious wake-up *)
    callers w = cs1 ++ c :: cs2 -> caller_is c = Sleeping ->
    semaphores w !! caller_semaphore c = Some state ->
    after_wait (caller_deadline_at c) timed_out now state = None ->
    step w (set_parties w (permits w) (cs1 ++ with_phase Testing c :: cs2))
| step_timed_out w cs1 c cs2 state timed_out now e :
    callers w = cs1 ++ c :: cs2 -> caller_is c = Sleeping ->
    semaphores w !! caller_semaphore c = Some state ->
    after_wait (caller_deadline_at c) timed_out now state = Some e ->
    step w (set_parties w (permits w) (cs1 ++ cs2))
| step_release w ps1 p ps2 state cs' :
    permits w = ps1 ++ p :: ps2 -> permit_is p = Held ->
    semaphores w !! permit_semaphore p = Some state ->
    notify_one (permit_semaphore p) (callers w) cs' ->
    step w (put_semaphore
              (set_parties w
                 (ps1 ++ {| permit_scope := permit_scope p; permit_semaphore := permit_semaphore p;
                            permit_is := Released |} :: ps2) cs')
              (permit_semaphore p) (release state))
| step_drop_handle w ps1 p ps2 :
    permits w = ps1 ++ p :: ps2 -> permit_is p = Released ->
    step w (set_parties w (ps1 ++ ps2) (callers w)).

(** ** The invariant *)
Definition handle_of (l : RequestLimiters) (s : scope) : option nat :=
  match s with Global => global l | PerHost host => semaphore <$> per_host l !! host end.

(** The configured limit of a scope. *)
Definition limit_of (max_in_flight per_host_limit : option Z) (s : scope) : option Z :=
  match s with Global => max_in_flight | PerHost _ => per_host_limit end.

Definition semaphore_ok (w : world) (i : nat) (n : Z) : Prop :=
  exists available, semaphores w !! i = Some available /\ 0 <= available /\
    available + countb (holds i) (permits w) = n /\
    (countb (sleeps_on i) (callers w) = 0 \/ available <= countb (tests i) (callers w)).

Record inv (max_in_flight host_limit : option Z) (w : world) : Prop := {
  inv_limit : per_host_limit (limiters w) = host_limit;
  inv_entry : forall host e, per_host (limiters w) !! host = Some e -> host_limit = Some (limit e);
  inv_injective : forall s s' i,
    handle_of (limiters w) s = Some i -> handle_of (limiters w) s' = Some i -> s = s';
  inv_fresh : forall s i, handle_of (limiters w) s = Some i -> (i < next_semaphore w)%nat;
  inv_permits : Forall (fun p =>
    handle_of (limiters w) (permit_scope p) = Some (permit_semaphore p)) (permits w);
  inv_callers : Forall (fun c =>
    handle_of (limiters w) (caller_scope c) = Some (caller_semaphore c)) (callers w);
  inv_semaphores : forall s i, handle_of (limiters w) s = Some i ->
    exists n, limit_of max_in_flight host_limit s = Some n /\ semaphore_ok w i n;
}.

(** The limits a client builder accepts. *)
Definition limits_accepted (max_in_flight host_limit : option Z) : Prop :=
  forall s n, limit_of max_in_flight host_limit s = Some n -> 0 < n <= usize_max.

(** ** Preservation *)
Section Preservation.
Context (max_in_flight host_limit : option Z).
Context (Hlimits : limits_accepted max_in_flight host_limit).
Abbreviation inv := (inv max_in_flight host_limit).

(** A step at one semaphore leaves the others' counts alone. *)
Definition elsewhere (i : nat) (w w' : world) : Prop :=
  forall j, j <> i ->
    semaphores w' !! j = semaphores w !! j /\
    countb (holds j) (permits w') = countb (holds j) (permits w) /\
    countb (sleeps_on j) (callers w') = countb (sleeps_on j) (callers w) /\
    countb (tests j) (callers w') = countb (tests j) (callers w).

Lemma semaphore_ok_elsewhere i w w' j n :
  elsewhere i w w' -> j <> i -> semaphore_ok w j n -> semaphore_ok w' j n.
Proof.
  intros He Hj (a & ?). destruct (He j Hj) as (H1 & H2 & H3 & H4).
  exists a. by rewrite H1, H2, H3, H4.
Qed.

Lemma inv_at i w w' :
  limiters w' = limiters w -> next_semaphore w' = next_semaphore w ->
  Forall (fun p => handle_of (limiters w) (permit_scope p) = Some (permit_semaphore p)) (permits w') ->
  Forall (fun c => handle_of (limiters w) (caller_scope c) = Some (caller_semaphore c)) (callers w') ->
  elsewhere i w w' ->
  (forall n, 0 < n <= usize_max -> semaphore_ok w i n -> semaphore_ok w' i n) ->
  inv w -> inv w'.
Proof.
  intros Hl Hn Hp Hc He Hi [I1 I2 I3 I4 I5 I6 I7]. split; rewrite ?Hl, ?Hn; try done.
  intros s j Hs. destruct (I7 s j Hs) as (n & Hlim & Hok). exists n. split; [done|].
  destruct (decide (j = i)) as [->|Hj]; [apply Hi; [by eapply Hlimits|done]|].
  by eapply semaphore_ok_elsewhere.
Qed.

Ltac counts :=
  unfold holds, sleeps_on, tests in *;
  repeat first [rewrite countb_app in *|rewrite countb_cons in *]; simpl in *;
  repeat match goal with
  | H : caller_is _ = _ |- _ => rewrite H in *; clear H
  | H : permit_is _ = _ |- _ => rewrite H in *; clear H
  end;
  rewrite ?Nat.eqb_refl in *; simpl in *.

(** Counts at another semaphore: the party that changed does not count there. *)
Ltac away :=
  match goal with
  | |- elsewhere _ _ _ =>
    intros j Hj; simpl; rewrite ?lookup_insert_ne by congruence;
    repeat match goal with H : callers _ = _ |- _ => rewrite H | H : permits _ = _ |- _ => rewrite H end;
    counts;
    repeat match goal with |- context [(?i =? j)%nat] =>
      rewrite (proj2 (Nat.eqb_neq i j)) by congruence end; simpl; repeat split; lia
  end.

Ltac here :=
  let n := fresh "n" in let Hn := fresh "Hn" in
  intros n Hn (a & Ha & H0 & Hsum & Hw); simplify_eq; unfold semaphore_ok; simpl;
  rewrite ?lookup_insert_eq;
  repeat match goal with
  | H : callers _ = _ |- _ => rewrite H in *
  | H : permits _ = _ |- _ => rewrite H in *
  end; counts.

Lemma caller_refs w cs1 c cs2 :
  inv w -> callers w = cs1 ++ c :: cs2 ->
  handle_of (limiters w) (caller_scope c) = Some (caller_semaphore c) /\
  Forall (fun c => handle_of (limiters w) (caller_scope c) = Some (caller_semaphore c)) cs1 /\
  Forall (fun c => handle_of (limiters w) (caller_scope c) = Some (caller_semaphore c)) cs2.
Proof. intros [_ _ _ _ _ Hc _] He. rewrite He, Forall_app, Forall_cons in Hc. naive_solver. Qed.

Lemma permit_refs w ps1 p ps2 :
  inv w -> permits w = ps1 ++ p :: ps2 ->
  handle_of (limiters w) (permit_scope p) = Some (permit_semaphore p) /\
  Forall (fun p => handle_of (limiters w) (permit_scope p) = Some (permit_semaphore p)) ps1 /\
  Forall (fun p => handle_of (limiters w) (permit_scope p) = Some (permit_semaphore p)) ps2.
Proof. intros [_ _ _ _ Hp _ _] He. rewrite He, Forall_app, Forall_cons in Hp. naive_solver. Qed.

Lemma acquire_turn_spec d now state :
  match acquire_turn d now state with
  | Acquired state' => 0 < state /\ state' = state - 1
  | _ => state <= 0
  end.
Proof. unfold acquire_turn. repeat case_match; zbool; simplify_eq; lia. Qed.

Lemma inv_acquired w cs1 c cs2 state state' now :
  inv w -> callers w = cs1 ++ c :: cs2 -> caller_is c = Testing ->
  semaphores w !! caller_semaphore c = Some state ->
  acquire_turn (caller_deadline_at c) now state = Acquired state' ->
  inv (add_permit (caller_scope c) (caller_semaphore c)
         (put_semaphore (set_parties w (permits w) (cs1 ++ cs2)) (caller_semaphore c) state')).
Proof.
  intros Hinv Hc Ht Hs Hturn. pose proof (acquire_turn_spec (caller_deadline_at c) now state) as Hq.
  rewrite Hturn in Hq. destruct Hq as [Hpos ->]. destruct (caller_refs _ _ _ _ Hinv Hc) as (R & R1 & R2).
  apply (inv_at (caller_semaphore c) w); try done; simpl.
  - apply Forall_cons. split; [done|]. apply Hinv.
  - by apply Forall_app.
  - away.
  - here. eexists. split; [done|]. split; [lia|]. split; [lia|]. destruct Hw; [left|right]; lia.
Qed.

(** A caller that leaves, sleeps or wakes without touching the count. *)
Lemma inv_caller_leaves w cs1 c cs2 state :
  inv w -> callers w = cs1 ++ c :: cs2 ->
  semaphores w !! caller_semaphore c = Some state -> state <= 0 ->
  inv (set_parties w (permits w) (cs1 ++ cs2)).
Proof.
  intros Hinv Hc Hs Hz. destruct (caller_refs _ _ _ _ Hinv Hc) as (R & R1 & R2).
  apply (inv_at (caller_semaphore c) w); try done; simpl.
  - apply Hinv.
  - by apply Forall_app.
  - away.
  - here. eexists. pose proof (countb_nonneg (tests (caller_semaphore c)) cs1).
    pose proof (countb_nonneg (tests (caller_semaphore c)) cs2). counts. split; [done|]. lia.
Qed.

Lemma inv_caller_phase w cs1 c cs2 state ph :
  inv w -> callers w = cs1 ++ c :: cs2 ->
  semaphores w !! caller_semaphore c = Some state ->
  (ph = Sleeping -> caller_is c = Testing /\ state <= 0) ->
  (ph = Testing -> caller_is c = Sleeping) ->
  inv (set_parties w (permits w) (cs1 ++ with_phase ph c :: cs2)).
Proof.
  intros Hinv Hc Hs Hz Hp. destruct (caller_refs _ _ _ _ Hinv Hc) as (R & R1 & R2).
  apply (inv_at (caller_semaphore c) w); try done; simpl.
  - apply Hinv.
  - by rewrite Forall_app, Forall_cons.
  - away.
  - here. eexists. pose proof (countb_nonneg (tests (caller_semaphore c)) cs1).
    pose proof (countb_nonneg (tests (caller_semaphore c)) cs2).
    pose proof (countb_nonneg (sleeps_on (caller_semaphore c)) cs1).
    pose proof (countb_nonneg (sleeps_on (caller_semaphore c)) cs2). counts.
    split; [done|]. destruct ph; [rewrite (Hp eq_refl) in *|destruct (Hz eq_refl) as [Ht ?]; rewrite Ht in *]; simpl in *; lia.
Qed.

Lemma notify_one_callers i l cs cs' :
  notify_one i cs cs' ->
  Forall (fun c => handle_of l (caller_scope c) = Some (caller_semaphore c)) cs ->
  Forall (fun c => handle_of l (caller_scope c) = Some (caller_semaphore c)) cs'.
Proof. intros []; [done|]. by rewrite !Forall_app, !Forall_cons. Qed.

Lemma notify_one_counts i cs cs' :
  notify_one i cs cs' ->
  (forall j, j <> i -> countb (sleeps_on j) cs' = countb (sleeps_on j) cs /\
                       countb (tests j) cs' = countb (tests j) cs) /\
  (countb (sleeps_on i) cs' = 0 \/
   1 <= countb (sleeps_on i) cs /\ countb (tests i) cs' = countb (tests i) cs + 1).
Proof.
  intros [cs0 H0|cs1 c cs2 Hc]; (split; [intros j Hj|]).
  - done.
  - left. rewrite Forall_forall in H0. apply countb_zero. exact H0.
  - unfold sleeps_on in Hc. zbool. counts. rewrite (proj2 (Nat.eqb_neq _ j)); [simpl; lia|].
    apply Nat.eqb_eq in H. congruence.
  - right. split; [eapply countb_pos; [|exact Hc]; set_solver|].
    unfold sleeps_on in Hc. zbool. apply Nat.eqb_eq in H. destruct (caller_is c) eqn:E; [done|].
    counts. rewrite H, Nat.eqb_refl. simpl. lia.
Qed.

Lemma inv_release w ps1 p ps2 state cs' :
  inv w -> permits w = ps1 ++ p :: ps2 -> permit_is p = Held ->
  semaphores w !! permit_semaphore p = Some state ->
  notify_one (permit_semaphore p) (callers w) cs' ->
  inv (put_semaphore
         (set_parties w
            (ps1 ++ {| permit_scope := permit_scope p; permit_semaphore := permit_semaphore p;
                       permit_is := Released |} :: ps2) cs')
         (permit_semaphore p) (release state)).
Proof.
  intros Hinv Hp Hh Hs Hnot. destruct (permit_refs _ _ _ _ Hinv Hp) as (R & R1 & R2).
  destruct (notify_one_counts _ _ _ Hnot) as [Hfar Hnear].
  apply (inv_at (permit_semaphore p) w); try done; simpl.
  - by rewrite Forall_app, Forall_cons.
  - eapply notify_one_callers; [done|]. apply Hinv.
  - intros j Hj. destruct (Hfar j Hj) as [H1 H2]. simpl.
    rewrite lookup_insert_ne, H1, H2, Hp by congruence. counts.
    rewrite (proj2 (Nat.eqb_neq _ j)) by congruence. simpl. repeat split; lia.
  - here. pose proof (countb_nonneg (holds (permit_semaphore p)) ps1).
    pose proof (countb_nonneg (holds (permit_semaphore p)) ps2). counts.
    unfold release.  rewrite sat_add_exact by lia. eexists. split; [done|]. lia.
Qed.

Lemma inv_drop_handle w ps1 p ps2 :
  inv w -> permits w = ps1 ++ p :: ps2 -> permit_is p = Released ->
  inv (set_parties w (ps1 ++ ps2) (callers w)).
Proof.
  intros Hinv Hp Hh. destruct (permit_refs _ _ _ _ Hinv Hp) as (R & R1 & R2).
  apply (inv_at (permit_semaphore p) w); try done; simpl.
  - by apply Forall_app.
  - apply Hinv.
  - away.
  - here. eexists. split; [done|]. lia.
Qed.

Lemma inv_add_caller w s i d : inv w -> handle_of (limiters w) s = Some i -> inv (add_caller s i d w).
Proof.
  intros Hinv Hs. apply (inv_at i w); try done; simpl.
  - apply Hinv.
  - apply Forall_cons. split; [done|]. apply Hinv.
  - away.
  - here. eexists. split; [done|]. lia.
Qed.

Lemma inv_granted w s i state :
  inv w -> handle_of (limiters w) s = Some i ->
  semaphores w !! i ≫= try_acquire = Some state ->
  inv (add_permit s i (put_semaphore w i state)).
Proof.
  intros Hinv Hs (old & Ho & Ht)%bind_Some. unfold try_acquire in Ht. case_match; [done|]. zbool. simplify_eq.
  apply (inv_at i w); try done; simpl.
  - apply Forall_cons. split; [done|]. apply Hinv.
  - apply Hinv.
  - away.
  - here. eexists. split; [done|]. lia.
Qed.

(** ** The table *)
Lemma entries_with_pos (m : gmap str PerHostLimiterEntry) host e :
  m !! host = Some e -> 1 <= entries_with m (semaphore e).
Proof.
  intros Hm. unfold entries_with. eapply (countb_pos _ _ (host, e)); [by apply elem_of_map_to_list|].
  simpl. apply Nat.eqb_refl.
Qed.

(** An idle entry is held by nobody else. *)
Lemma idle_unreferenced w host e :
  per_host (limiters w) !! host = Some e -> is_idle w e = true ->
  (forall p, p ∈ permits w -> permit_semaphore p <> semaphore e) /\
  (forall c, c ∈ callers w -> caller_semaphore c <> semaphore e).
Proof.
  intros He [Hi%Z.eqb_eq _]%andb_true_iff. unfold strong_count in Hi.
  pose proof (entries_with_pos _ _ _ He).
  pose proof (countb_nonneg (fun p => (permit_semaphore p =? semaphore e)%nat) (permits w)).
  pose proof (countb_nonneg (fun c => (caller_semaphore c =? semaphore e)%nat) (callers w)).
  split; intros x Hx Heq.
  - pose proof (countb_pos (fun p => (permit_semaphore p =? semaphore e)%nat) _ x Hx
      (proj2 (Nat.eqb_eq _ _) Heq)). destruct (bool_decide _) in Hi; lia.
  - pose proof (countb_pos (fun c => (caller_semaphore c =? semaphore e)%nat) _ x Hx
      (proj2 (Nat.eqb_eq _ _) Heq)). destruct (bool_decide _) in Hi; lia.
Qed.

Lemma handle_of_subset l l' s i :
  global l' = global l -> per_host l' ⊆ per_host l ->
  handle_of l' s = Some i -> handle_of l s = Some i.
Proof.
  intros Hg Hm. destruct s; simpl; [by rewrite Hg|]. rewrite !fmap_Some.
  intros (e & He & ->). exists e. split; [|done]. by eapply lookup_weaken.
Qed.

(** Dropping idle entries keeps every handle in use. *)
Lemma inv_shrink w m :
  inv w -> m ⊆ per_host (limiters w) ->
  (forall k e, per_host (limiters w) !! k = Some e -> m !! k = None -> is_idle w e = true) ->
  inv (set_table w m).
Proof.
  intros [I1 I2 I3 I4 I5 I6 I7] Hsub Hidle.
  assert (forall s i, handle_of (limiters (set_table w m)) s = Some i -> handle_of (limiters w) s = Some i) as Hh.
  { intros s i. by apply handle_of_subset. }
  assert (forall s i, handle_of (limiters w) s = Some i ->
    (exists p, p ∈ permits w /\ permit_semaphore p = i) \/ (exists c, c ∈ callers w /\ caller_semaphore c = i) ->
    handle_of (limiters (set_table w m)) s = Some i) as Hkeep.
  { intros [|host] i; [done|]. simpl. rewrite fmap_Some. intros (e & He & ->) Href.
    destruct (m !! host) as [e'|] eqn:Hm.
    { eapply lookup_weaken in Hm; [|exact Hsub]. simplify_eq. done. }
    destruct (idle_unreferenced w host e He (Hidle _ _ He Hm)). naive_solver. }
  split; simpl; try done.
  - intros host e He. eapply I2, lookup_weaken; done.
  - intros s s' i H1%Hh H2%Hh. by eapply I3.
  - intros s i H1%Hh. by eapply I4.
  - rewrite Forall_forall in *. intros p Hp. apply Hkeep; [by apply I5|]. left. eauto.
  - rewrite Forall_forall in *. intros c Hc. apply Hkeep; [by apply I6|]. right. eauto.
  - intros s i H1%Hh. by apply I7.
Qed.

Lemma handle_of_insert l e host s :
  handle_of {| global := global l; per_host_limit := per_host_limit l; per_host := <[host := e]> (per_host l) |} s =
  if decide (s = PerHost host) then Some (semaphore e) else handle_of l s.
Proof.
  case_decide as Hd; [subst; simpl; by rewrite lookup_insert_eq|].
  destruct s as [|k]; [done|]. simpl. rewrite lookup_insert_ne; [done|]. congruence.
Qed.

(** Marking an entry as used keeps its handle. *)
Lemma inv_touch w host e now :
  inv w -> per_host (limiters w) !! host = Some e ->
  inv (set_table w (<[host := {| semaphore := semaphore e; limit := limit e; last_used_at := now |}]>
                      (per_host (limiters w)))).
Proof.
  intros [I1 I2 I3 I4 I5 I6 I7] He.
  set (e' := {| semaphore := semaphore e; limit := limit e; last_used_at := now |}).
  set (w' := set_table w (<[host := e']> (per_host (limiters w)))).
  assert (forall s, handle_of (limiters w') s = handle_of (limiters w) s) as Hh.
  { intros s. unfold w'. simpl. rewrite handle_of_insert. case_decide; [|done]. subst. simpl. by rewrite He. }
  split; try done; try (intros *; rewrite ?Hh; first [apply I3|apply I4|apply I7]).
  - intros k x. simpl. rewrite lookup_insert_Some. intros [[<- <-]|[_ Hx]]; [|by eapply I2].
    unfold e'. simpl. by eapply I2.
  - eapply Forall_impl; [exact I5|]. intros p. by rewrite Hh.
  - eapply Forall_impl; [exact I6|]. intros p. by rewrite Hh.
Qed.

(** A fresh semaphore starts with all its permits and no holders. *)
Lemma inv_insert w host n now :
  inv w -> host_limit = Some n -> per_host (limiters w) !! host = None ->
  inv (host_entry n host now w).2.
Proof.
  intros [I1 I2 I3 I4 I5 I6 I7] Hn Hnone. unfold host_entry. rewrite Hnone. simpl.
  assert (forall s i, handle_of (limiters w) s = Some i -> s <> PerHost host /\ i <> next_semaphore w) as Hold.
  { intros s i Hs. specialize (I4 s i Hs). split; [|lia]. intros ->. simpl in Hs. by rewrite Hnone in Hs. }
  assert (forall s i j, handle_of (limiters w) s = Some i ->
    (if decide (s = PerHost host) then Some j else handle_of (limiters w) s) = Some i) as Hlift.
  { intros s i j Hs. destruct (Hold s i Hs). by rewrite decide_False. }
  split; simpl; try done.
  - intros k x. rewrite lookup_insert_Some. intros [[<- <-]|[_ Hx]]; [done|by eapply I2].
  - intros s s' i. rewrite !handle_of_insert. simpl.
    do 2 case_decide; subst; naive_solver.
  - intros s i. rewrite handle_of_insert. simpl. case_decide; [naive_solver lia|]. intros Hs%I4. lia.
  - eapply Forall_impl; [exact I5|]. intros p Hp. rewrite handle_of_insert. by apply Hlift.
  - eapply Forall_impl; [exact I6|]. intros p Hp. rewrite handle_of_insert. by apply Hlift.
  - intros s i. rewrite handle_of_insert. simpl. case_decide as Hd.
    + intros [= <-]. subst s. exists n. split; [done|]. exists n. simpl. rewrite lookup_insert_eq.
      split; [done|]. destruct (Hlimits (PerHost host) n) as [? ?]; [done|].
      rewrite Forall_forall in I5. rewrite Forall_forall in I6.
      rewrite countb_zero, (countb_zero (sleeps_on _)); [lia|..]; intros x Hx;
        [apply I6, Hold in Hx|apply I5, Hold in Hx]; destruct Hx as [_ Hx];
        unfold sleeps_on, holds; by rewrite (proj2 (Nat.eqb_neq _ _) Hx).
    + intros Hs. destruct (I7 s i Hs) as (n' & Hl' & a & Ha & Hrest). exists n'. split; [done|].
      exists a. simpl. rewrite lookup_insert_ne; [done|]. destruct (Hold s i Hs). congruence.
Qed.

Lemma limiter_entry_inv w host n now i w' :
  inv w -> host_limit = Some n -> host_entry n host now w = (i, w') ->
  inv w' /\ handle_of (limiters w') (PerHost host) = Some i.
Proof.
  intros Hinv Hn He. destruct (per_host (limiters w) !! host) as [e|] eqn:Hk.
  - unfold host_entry in He. rewrite Hk in He. injection He as <- <-.
    split; [by apply inv_touch|]. simpl. by rewrite lookup_insert_eq.
  - pose proof (inv_insert w host n now Hinv Hn Hk) as Hi. rewrite He in Hi. split; [done|].
    unfold host_entry in He. rewrite Hk in He. injection He as <- <-. simpl. by rewrite lookup_insert_eq.
Qed.

Lemma acquire_host_inv host d now w r w' : inv w -> acquire_host host d now w = (r, w') -> inv w'.
Proof.
  intros Hinv. unfold acquire_host.
  destruct (per_host_limit (limiters w)) as [n|] eqn:Hn; [|by intros [= <- <-]].
  destruct (if bool_decide _ then _ else _) as [key|]; [|by intros [= <- <-]].
  set (m := Eviction.cleanup_stale_per_host_limiters _ _ _ _).
  destruct (Eviction.cleanup_limiters_spec (entry := entry_in w) (per_host (limiters w)) now
    Eviction.PER_HOST_LIMITER_ENTRY_TTL Eviction.PER_HOST_LIMITER_MAX_ENTRIES) as (Hsub & Hidle & _); [done|].
  fold m in Hsub, Hidle. pose proof (inv_shrink w m Hinv Hsub Hidle) as Hm.
  destruct (host_entry n key now (set_table w m)) as [i w1] eqn:He.
  assert (host_limit = Some n) as Hl by (rewrite <- Hn; symmetry; apply Hinv).
  destruct (limiter_entry_inv _ _ _ _ _ _ Hm Hl He) as [H1 Hi].
  destruct (semaphores w1 !! i ≫= try_acquire) eqn:Ht; intros [= <- <-];
    [by apply inv_granted|by apply inv_add_caller].
Qed.

Lemma step_inv w w' : step w w' -> inv w -> inv w'.
Proof.
  intros Hstep Hinv. destruct Hstep as [d w w' r Hg|host d now w w' r Hh|w cs1 c cs2 st st' now Hc Hp Hs Ht
    |w cs1 c cs2 st now e Hc Hp Hs Ht|w cs1 c cs2 st now wf Hc Hp Hs Ht|w cs1 c cs2 st b now Hc Hp Hs Ht
    |w cs1 c cs2 st b now e Hc Hp Hs Ht|w ps1 p ps2 st cs' Hp Hh Hs Hn|w ps1 p ps2 Hp Hh].
  - unfold acquire_global in Hg. destruct (global (limiters w)) as [i|] eqn:Hi; simplify_eq; [|done].
    by apply inv_add_caller.
  - by eapply acquire_host_inv.
  - by eapply inv_acquired.
  - eapply inv_caller_leaves; try done. pose proof (acquire_turn_spec (caller_deadline_at c) now st) as Hq.
    by rewrite Ht in Hq.
  - eapply inv_caller_phase; try done. intros _. split; [done|].
    pose proof (acquire_turn_spec (caller_deadline_at c) now st) as Hq. by rewrite Ht in Hq.
  - by eapply inv_caller_phase.
  - eapply inv_caller_leaves; try done. unfold after_wait in Ht. repeat case_match; zbool; try done. lia.
  - by eapply inv_release.
  - by eapply inv_drop_handle.
Qed.

Lemma limiters_new_inv w : new max_in_flight host_limit = Some w -> inv w.
Proof.
  intros Hnew.
  assert (w = {| limiters := {| global := (fun _ => O) <$> max_in_flight;
                   per_host_limit := host_limit; per_host := ∅ |};
            semaphores := match max_in_flight with Some n => {[ O := semaphore_new n ]} | None => ∅ end;
            next_semaphore := 1; permits := []; callers := [] |}) as ->.
  { unfold new in Hnew. by destruct max_in_flight, host_limit; simplify_eq. }
  split; simpl; try done.
  - intros [|k] [|k'] i; simpl; rewrite ?lookup_empty; try done.
  - intros [|k] i; simpl; rewrite ?lookup_empty; [|done]. rewrite fmap_Some. intros (? & _ & ->). lia.
  - intros [|k] i; simpl; rewrite ?lookup_empty; [|done]. rewrite fmap_Some. intros (n & Hn & ->).
    exists n. split; [done|]. exists n. rewrite Hn. split; [simpl; by rewrite lookup_singleton_eq|].
    pose proof (Hlimits Global n Hn). simpl. rewrite !countb_nil. lia.
Qed.

Lemma limiters_inv_reachable w0 w : new max_in_flight host_limit = Some w0 -> rtc step w0 w -> inv w.
Proof. intros Hn. apply rtc_invariant; [by apply limiters_new_inv|apply step_inv]. Qed.

End Preservation.
End Limiters.

(** ** Properties *)
Section Properties.
Import Limiters.
Context (max_in_flight host_limit : option Z).

(** The permits of a scope that have not been dropped. *)
Definition held_in (s : scope) (p : permit) : bool :=
  bool_decide (permit_scope p = s) && match permit_is p with Held => true | Released => false end.

Lemma held_in_semaphore w s i :
  inv max_in_flight host_limit w -> handle_of (limiters w) s = Some i ->
  countb (held_in s) (permits w) = countb (holds i) (permits w).
Proof.
  intros [_ _ Hinj _ Hp _ _] Hs. rewrite Forall_forall in Hp.
  apply Z.le_antisymm; apply countb_mono; intros p Hin; specialize (Hp p Hin); unfold held_in, holds.
  - case_bool_decide; [subst|done]. simplify_eq. by rewrite Nat.eqb_refl.
  - destruct (Nat.eqb_spec (permit_semaphore p) i) as [<-|]; [|done]. rewrite bool_decide_true; [done|].
    by eapply Hinj.
Qed.

(** C23: At most the configured number of requests hold a permit of one host at a
    time, whatever entries the table evicted meanwhile, and at most the configured
    number hold a global permit. *)
Theorem limiter_permits_bounded w0 w s n :
  limits_accepted max_in_flight host_limit -> new max_in_flight host_limit = Some w0 ->
  rtc step w0 w -> limit_of max_in_flight host_limit s = Some n ->
  countb (held_in s) (permits w) <= n.
Proof.
  intros Hl H0 Hr Hn. pose proof (limiters_inv_reachable _ _ Hl _ _ H0 Hr) as Hinv.
  pose proof (Hl s n Hn). destruct (handle_of (limiters w) s) as [i|] eqn:Hs.
  - rewrite (held_in_semaphore w s i Hinv Hs). destruct Hinv as [_ _ _ _ _ _ Hok].
    destruct (Hok s i Hs) as (n' & Hn' & a & _ & Ha & Hsum & _). simplify_eq. lia.
  - rewrite countb_zero; [lia|]. intros p Hp. destruct Hinv as [_ _ _ _ Hrefs _ _].
    rewrite Forall_forall in Hrefs. specialize (Hrefs p Hp). unfold held_in.
    case_bool_decide; [by simplify_eq|done].
Qed.

(** C24: No permit is wasted and no wake-up lost: when a caller sleeps for a permit
    and every other caller of its scope sleeps too, all permits of the scope are
    held, so that a release will come and wake one of them. *)
Theorem limiter_no_lost_wakeup w0 w c :
  limits_accepted max_in_flight host_limit -> new max_in_flight host_limit = Some w0 ->
  rtc step w0 w -> c ∈ callers w -> caller_is c = Sleeping ->
  (forall c', c' ∈ callers w -> caller_scope c' = caller_scope c -> caller_is c' = Sleeping) ->
  exists n, limit_of max_in_flight host_limit (caller_scope c) = Some n /\ 0 < n /\
    countb (held_in (caller_scope c)) (permits w) = n.
Proof.
  intros Hl H0 Hr Hc Hs Hall. pose proof (limiters_inv_reachable _ _ Hl _ _ H0 Hr) as Hinv.
  assert (handle_of (limiters w) (caller_scope c) = Some (caller_semaphore c)) as Hh.
  { destruct Hinv as [_ _ _ _ _ Hrefs _]. rewrite Forall_forall in Hrefs. by apply Hrefs. }
  rewrite (held_in_semaphore w _ _ Hinv Hh). destruct Hinv as [_ _ Hinj _ _ Hrefs Hok].
  rewrite Forall_forall in Hrefs.
  destruct (Hok _ _ Hh) as (n & Hn & a & _ & Ha & Hsum & Hw). exists n. split; [done|].
  destruct (Hl _ _ Hn). split; [done|].
  assert (1 <= countb (sleeps_on (caller_semaphore c)) (callers w)) as Hpos.
  { apply (countb_pos _ _ c); [done|]. unfold sleeps_on. by rewrite Nat.eqb_refl, Hs. }
  rewrite (countb_zero (tests _)) in Hw; [lia|]. intros c' Hc'. unfold tests.
  destruct (Nat.eqb_spec (caller_semaphore c') (caller_semaphore c)) as [E|]; [|done].
  rewrite Hall; [done|done|]. eapply Hinj; [by apply Hrefs|]. by rewrite E.
Qed.

End Properties.

(** ** Witnesses

    One request at a time per host: the first holds the permit, the second, which
    names the host in another spelling, sleeps. *)
Module LimitersDemo.
Import Limiters.

Definition start : world :=
  {| limiters := {| global := None; per_host_limit := Some 1; per_host := ∅ |};
     semaphores := ∅; next_semaphore := 1; permits := []; callers := [] |}.

Definition first : world := (acquire_host (Some (lit "a.example")) None 5 start).2.
Definition second : world := (acquire_host (Some (lit "A.example.")) None 6 first).2.
Definition waiting : world :=
  set_parties second (permits second) (with_phase Sleeping <$> callers second).

Lemma one_per_host_accepted : limits_accepted None (Some 1).
Proof. intros [|h] n Hn; [done|]. simpl in Hn. simplify_eq. done. Qed.

Lemma waiting_is_reachable : rtc step start waiting.
Proof.
  eapply rtc_l; [eapply (step_acquire_host (Some (lit "a.example")) None 5 start first); vm_compute; reflexivity|].
  eapply rtc_l; [eapply (step_acquire_host (Some (lit "A.example.")) None 6 first second); vm_compute; reflexivity|].
  apply rtc_once. exact (step_wait second []
    {| caller_scope := PerHost (lit "a.example"); caller_semaphore := 1; caller_deadline_at := None;
       caller_is := Testing |} [] 0 7 None eq_refl eq_refl eq_refl eq_refl).
Qed.

End LimitersDemo.

Lemma limiter_permits_bounded_witness :
  countb (held_in (Limiters.PerHost (lit "a.example"))) (Limiters.permits LimitersDemo.waiting) <= 1.
Proof.
  exact (limiter_permits_bounded None (Some 1) LimitersDemo.start LimitersDemo.waiting
    (Limiters.PerHost (lit "a.example")) 1 LimitersDemo.one_per_host_accepted eq_refl
    LimitersDemo.waiting_is_reachable eq_refl).
Defined.

Lemma limiter_no_lost_wakeup_witness :
  exists n, Limiters.limit_of None (Some 1) (Limiters.PerHost (lit "a.example")) = Some n /\ 0 < n /\
    countb (held_in (Limiters.PerHost (lit "a.example"))) (Limiters.permits LimitersDemo.waiting) = n.
Proof.
  refine (limiter_no_lost_wakeup None (Some 1) LimitersDemo.start LimitersDemo.waiting
    {| Limiters.caller_scope := Limiters.PerHost (lit "a.example"); Limiters.caller_semaphore := 1;
       Limiters.caller_deadline_at := None; Limiters.caller_is := Limiters.Sleeping |}
    LimitersDemo.one_per_host_accepted eq_refl LimitersDemo.waiting_is_reachable _ eq_refl _).
  - vm_compute. apply list_elem_of_here.
  - intros c' Hc _. vm_compute in Hc. apply list_elem_of_singleton in Hc as ->. reflexivity.
Defined.
