(* ===== verification/Metrics.v ===== *)
(** * Client metrics (core/metrics.rs)

    The in-process counters and the values that own the accounting of a request: a
    [PendingRequest] while it executes and a [StreamCompletion] while its body is
    read.  A method that consumes its value ends with the value's [Drop] and the drops
    of its fields.  [Instant::elapsed] readings are the argument [now].  The calls
    into OpenTelemetry, which return nothing, are added to these operations in [Otel].
    An operation is one function here; [Interleaving] takes it apart into the updates
    of single atomics and maps that threads interleave. *)
From Stdlib Require Import Ascii String.
From S2P Require Import Prelude Float64 Text HttpApi Errors.

#[global] Instance error_code_countable : Countable ErrorCode.t.
Proof.
  refine (inj_countable ErrorCode.as_str
    (fun s => head (filter (fun c => ErrorCode.as_str c = s) ErrorCode.ALL)) _).
  by intros [].
Defined.

(** ** Counting maps *)
Definition bump `{Countable K} (k : K) (m : gmap K Z) : gmap K Z :=
  <[k := sat_add u64_max (default 0 (m !! k)) 1]> m.

Definition total `{Countable K} (m : gmap K Z) : Z := map_fold (fun _ v acc => v + acc) 0 m.

Arguments bump : simpl never.
Arguments total : simpl never.

Module Metrics.

(** The [AtomicU64] fields of [ClientMetricsInner]. *)
Inductive counter :=
| requests_started | requests_succeeded | requests_failed | requests_canceled | retries
| timeout_transport | timeout_response_body | deadline_exceeded | transport_errors
| read_body_errors | write_body_errors | response_body_too_large | http_status_errors
| in_flight | latency_total_ms | latency_samples.

Scheme Boolean Equality for counter.

Record ClientMetricsInner := {
  atomics : counter -> Z;
  status_counts : gmap Z Z;
  error_code_counts : gmap ErrorCode.t Z;
  timeout_phase_counts : gmap TimeoutPhase.t Z;
  transport_error_kind_counts : gmap TransportErrorKind.t Z;
  http_status_error_counts : gmap Z Z;
}.

Definition inner_default : ClientMetricsInner :=
  {| atomics := fun _ => 0; status_counts := ∅; error_code_counts := ∅; timeout_phase_counts := ∅;
     transport_error_kind_counts := ∅; http_status_error_counts := ∅ |}.

(** [ClientMetrics]: the counters, when metrics are enabled. *)
Abbreviation ClientMetrics := (option ClientMetricsInner).

Definition update_atomic (c : counter) (f : Z -> Z) (i : ClientMetricsInner) : ClientMetricsInner :=
  {| atomics := fun c' => if counter_beq c' c then f (atomics i c') else atomics i c';
     status_counts := status_counts i; error_code_counts := error_code_counts i;
     timeout_phase_counts := timeout_phase_counts i;
     transport_error_kind_counts := transport_error_kind_counts i;
     http_status_error_counts := http_status_error_counts i |}.

Definition atomic_saturating_add (c : counter) (delta : Z) (m : ClientMetrics) : ClientMetrics :=
  update_atomic c (fun current => sat_add u64_max current delta) <$> m.

Definition atomic_saturating_sub (c : counter) (delta : Z) (m : ClientMetrics) : ClientMetrics :=
  update_atomic c (fun current => sat_sub current delta) <$> m.

Definition atomic_saturating_increment (c : counter) (m : ClientMetrics) : ClientMetrics :=
  atomic_saturating_add c 1 m.

Definition with_options (metrics_enabled : bool) : ClientMetrics :=
  if metrics_enabled then Some inner_default else None.

Definition record_request_started (m : ClientMetrics) : ClientMetrics :=
  atomic_saturating_increment requests_started m.

Definition record_retry (m : ClientMetrics) : ClientMetrics := atomic_saturating_increment retries m.

Definition record_latency (latency : Duration) (m : ClientMetrics) : ClientMetrics :=
  atomic_saturating_add latency_total_ms (Z.min (duration_as_millis latency) u64_max)
    (atomic_saturating_increment latency_samples m).

Definition add_status_count (status : Z) (m : ClientMetrics) : ClientMetrics :=
  (fun i => {| atomics := atomics i; status_counts := bump status (status_counts i);
               error_code_counts := error_code_counts i; timeout_phase_counts := timeout_phase_counts i;
               transport_error_kind_counts := transport_error_kind_counts i;
               http_status_error_counts := http_status_error_counts i |}) <$> m.

Definition add_error_code_count (code : ErrorCode.t) (m : ClientMetrics) : ClientMetrics :=
  (fun i => {| atomics := atomics i; status_counts := status_counts i;
               error_code_counts := bump code (error_code_counts i);
               timeout_phase_counts := timeout_phase_counts i;
               transport_error_kind_counts := transport_error_kind_counts i;
               http_status_error_counts := http_status_error_counts i |}) <$> m.

Definition add_timeout_phase_count (phase : TimeoutPhase.t) (m : ClientMetrics) : ClientMetrics :=
  (fun i => {| atomics := atomics i; status_counts := status_counts i;
               error_code_counts := error_code_counts i;
               timeout_phase_counts := bump phase (timeout_phase_counts i);
               transport_error_kind_counts := transport_error_kind_counts i;
               http_status_error_counts := http_status_error_counts i |}) <$> m.

Definition add_transport_error_kind_count (kind : TransportErrorKind.t) (m : ClientMetrics)
    : ClientMetrics :=
  (fun i => {| atomics := atomics i; status_counts := status_counts i;
               error_code_counts := error_code_counts i;
               timeout_phase_counts := timeout_phase_counts i;
               transport_error_kind_counts := bump kind (transport_error_kind_counts i);
               http_status_error_counts := http_status_error_counts i |}) <$> m.

Definition add_http_status_error_count (status : Z) (m : ClientMetrics) : ClientMetrics :=
  (fun i => {| atomics := atomics i; status_counts := status_counts i;
               error_code_counts := error_code_counts i;
               timeout_phase_counts := timeout_phase_counts i;
               transport_error_kind_counts := transport_error_kind_counts i;
               http_status_error_counts := bump status (http_status_error_counts i) |}) <$> m.

Section Operations.
Context `{Http}.

Definition record_request_completed_error (error : Error.t) (latency : Duration) (m : ClientMetrics)
    : ClientMetrics :=
  let m := atomic_saturating_increment requests_failed m in
  let m := record_latency latency m in
  let m := add_error_code_count (Error.code error) m in
  match error with
  | Error.Timeout phase _ _ _ =>
    let m := match phase with
             | TimeoutPhase.Transport => atomic_saturating_increment timeout_transport m
             | TimeoutPhase.ResponseBody => atomic_saturating_increment timeout_response_body m
             end in
    add_timeout_phase_count phase m
  | Error.DeadlineExceeded _ _ _ => atomic_saturating_increment deadline_exceeded m
  | Error.Transport kind _ _ _ _ =>
    add_transport_error_kind_count kind (atomic_saturating_increment transport_errors m)
  | Error.ReadBody _ => atomic_saturating_increment read_body_errors m
  | Error.WriteBody _ _ _ => atomic_saturating_increment write_body_errors m
  | Error.ResponseBodyTooLarge _ _ _ _ => atomic_saturating_increment response_body_too_large m
  | Error.HttpStatus status _ _ _ _ =>
    add_http_status_error_count status
      (add_status_count status (atomic_saturating_increment http_status_errors m))
  | _ => m
  end.

Definition record_request_completed_canceled (latency : Duration) (m : ClientMetrics) : ClientMetrics :=
  record_latency latency (atomic_saturating_increment requests_canceled m).

Definition record_request_completed_success (status : Z) (latency : Duration) (m : ClientMetrics)
    : ClientMetrics :=
  record_latency latency (add_status_count status (atomic_saturating_increment requests_succeeded m)).

(** ** In-flight guards

    A guard of an enabled client holds the counters; [guard_is_live] is that. *)
Record InFlightGuard := { guard_is_live : bool }.

Definition enter_in_flight (m : ClientMetrics) : InFlightGuard * ClientMetrics :=
  match m with
  | Some _ => ({| guard_is_live := true |}, atomic_saturating_increment in_flight m)
  | None => ({| guard_is_live := false |}, m)
  end.

Definition drop_in_flight (g : InFlightGuard) (m : ClientMetrics) : ClientMetrics :=
  if guard_is_live g then atomic_saturating_sub in_flight 1 m else m.

(** ** Streams *)
Record StreamCompletion := {
  stream_started_at : Instant;
  status : Z;
  in_flight_guard : option InFlightGuard;
}.

Definition take_guard (c : StreamCompletion) : StreamCompletion :=
  {| stream_started_at := stream_started_at c; status := status c; in_flight_guard := None |}.

(** The shape of the three completions: nothing without the guard; the guard drops
    after the accounting. *)
Definition complete_with (record : Duration -> ClientMetrics -> ClientMetrics) (now : Instant)
    (c : StreamCompletion) (m : ClientMetrics) : StreamCompletion * ClientMetrics :=
  match in_flight_guard c with
  | None => (c, m)
  | Some guard =>
    (take_guard c, drop_in_flight guard (record (saturating_duration_since now (stream_started_at c)) m))
  end.

Definition stream_complete_success (now : Instant) (c : StreamCompletion) (m : ClientMetrics)
    : StreamCompletion * ClientMetrics :=
  complete_with (record_request_completed_success (status c)) now c m.

Definition stream_complete_error (error : Error.t) (now : Instant) (c : StreamCompletion)
    (m : ClientMetrics) : StreamCompletion * ClientMetrics :=
  complete_with (record_request_completed_error error) now c m.

Definition stream_complete_canceled (now : Instant) (c : StreamCompletion) (m : ClientMetrics)
    : StreamCompletion * ClientMetrics :=
  complete_with record_request_completed_canceled now c m.

(** [Drop for StreamCompletion]; the field that is left is an empty option. *)
Definition drop_stream_completion (now : Instant) (c : StreamCompletion) (m : ClientMetrics)
    : ClientMetrics := (stream_complete_canceled now c m).2.

(** ** Pending requests *)
Record PendingRequest := {
  request_started_at : Instant;
  pending_in_flight : InFlightGuard;
  completed : bool;
}.

Definition pending_request (request_started_at : Instant) (m : ClientMetrics)
    : PendingRequest * ClientMetrics :=
  let m := record_request_started m in
  let '(guard, m) := enter_in_flight m in
  ({| request_started_at := request_started_at; pending_in_flight := guard; completed := false |}, m).

Definition set_completed (p : PendingRequest) : PendingRequest :=
  {| request_started_at := request_started_at p; pending_in_flight := pending_in_flight p;
     completed := true |}.

(** [Drop for PendingRequest], then the drop of its guard. *)
Definition drop_pending (now : Instant) (p : PendingRequest) (m : ClientMetrics) : ClientMetrics :=
  let m := if completed p then m
           else record_request_completed_canceled
                  (saturating_duration_since now (request_started_at p)) m in
  drop_in_flight (pending_in_flight p) m.

Definition complete_success (status : Z) (now : Instant) (p : PendingRequest) (m : ClientMetrics)
    : ClientMetrics :=
  let p := set_completed p in
  let m := record_request_completed_success status
             (saturating_duration_since now (request_started_at p)) m in
  drop_pending now p m.

Definition complete_error (error : Error.t) (now : Instant) (p : PendingRequest) (m : ClientMetrics)
    : ClientMetrics :=
  let p := set_completed p in
  let m := record_request_completed_error error
             (saturating_duration_since now (request_started_at p)) m in
  drop_pending now p m.

(** The guard moves into the stream; an empty one stays to be dropped. *)
Definition into_stream (status : Z) (now : Instant) (p : PendingRequest) (m : ClientMetrics)
    : StreamCompletion * ClientMetrics :=
  let p := set_completed p in
  let c := {| stream_started_at := request_started_at p; status := status;
              in_flight_guard := Some (pending_in_flight p) |} in
  let p := {| request_started_at := request_started_at p;
              pending_in_flight := {| guard_is_live := false |}; completed := completed p |} in
  (c, drop_pending now p m).

End Operations.

(** ** Snapshots *)
Record RequestMetrics := {
  rm_started : Z; rm_succeeded : Z; rm_failed : Z; rm_canceled : Z; rm_retries : Z; rm_in_flight : Z;
}.
Record ResponseMetrics := { rs_status_counts : gmap Z Z }.
Record TimeoutMetrics := { tm_transport : Z; tm_response_body : Z; tm_deadline_exceeded : Z }.
Record ErrorMetrics := {
  em_transport : Z; em_read_body : Z; em_write_body : Z; em_response_body_too_large : Z;
  em_http_status : Z;
  em_by_code : gmap ErrorCode.t Z; em_by_timeout_phase : gmap TimeoutPhase.t Z;
  em_by_transport_kind : gmap TransportErrorKind.t Z; em_by_http_status : gmap Z Z;
}.
Record LatencyMetrics := { lm_samples : Z; lm_total_ms : Z; lm_average_ms : f64 }.
Record MetricsSnapshot := {
  requests : RequestMetrics; responses : ResponseMetrics; timeouts : TimeoutMetrics;
  errors : ErrorMetrics; latency : LatencyMetrics;
}.

Definition snapshot_default : MetricsSnapshot :=
  {| requests := {| rm_started := 0; rm_succeeded := 0; rm_failed := 0; rm_canceled := 0;
                    rm_retries := 0; rm_in_flight := 0 |};
     responses := {| rs_status_counts := ∅ |};
     timeouts := {| tm_transport := 0; tm_response_body := 0; tm_deadline_exceeded := 0 |};
     errors := {| em_transport := 0; em_read_body := 0; em_write_body := 0;
                  em_response_body_too_large := 0; em_http_status := 0; em_by_code := ∅;
                  em_by_timeout_phase := ∅; em_by_transport_kind := ∅; em_by_http_status := ∅ |};
     latency := {| lm_samples := 0; lm_total_ms := 0; lm_average_ms := f64_zero |} |}.

Definition snapshot (m : ClientMetrics) : MetricsSnapshot :=
  match m with
  | None => snapshot_default
  | Some i =>
    let a := atomics i in
    {| requests := {| rm_started := a requests_started; rm_succeeded := a requests_succeeded;
                      rm_failed := a requests_failed; rm_canceled := a requests_canceled;
                      rm_retries := a retries; rm_in_flight := a in_flight |};
       responses := {| rs_status_counts := status_counts i |};
       timeouts := {| tm_transport := a timeout_transport; tm_response_body := a timeout_response_body;
                      tm_deadline_exceeded := a deadline_exceeded |};
       errors := {| em_transport := a transport_errors; em_read_body := a read_body_errors;
                    em_write_body := a write_body_errors;
                    em_response_body_too_large := a response_body_too_large;
                    em_http_status := a http_status_errors; em_by_code := error_code_counts i;
                    em_by_timeout_phase := timeout_phase_counts i;
                    em_by_transport_kind := transport_error_kind_counts i;
                    em_by_http_status := http_status_error_counts i |};
       latency := {| lm_samples := a latency_samples; lm_total_ms := a latency_total_ms;
                     lm_average_ms := if a latency_samples =? 0 then f64_zero
                       else f64_div (f64_of_Z (a latency_total_ms)) (f64_of_Z (a latency_samples)) |} |}
  end.

(** ** The ledger

    The requests and streams of a client that are not finished yet, and the steps
    that change them. *)
Section Ledger.
Context `{Http}.

Record world := {
  metrics : ClientMetrics;
  pending : list PendingRequest;
  streams : list StreamCompletion;
}.

Definition initial (metrics_enabled : bool) : world :=
  {| metrics := with_options metrics_enabled; pending := []; streams := [] |}.

(** The three ways to complete, for a pending request and for a stream. *)
Inductive outcome := Succeeded (status : Z) | Failed (error : Error.t) | Canceled.

Definition finish_pending (o : outcome) (now : Instant) (p : PendingRequest) (m : ClientMetrics)
    : ClientMetrics :=
  match o with
  | Succeeded status => complete_success status now p m
  | Failed error => complete_error error now p m
  | Canceled => drop_pending now p m
  end.

Definition complete_stream (o : outcome) (now : Instant) (c : StreamCompletion) (m : ClientMetrics)
    : StreamCompletion * ClientMetrics :=
  match o with
  | Succeeded _ => stream_complete_success now c m
  | Failed error => stream_complete_error error now c m
  | Canceled => stream_complete_canceled now c m
  end.

Inductive step : world -> world -> Prop :=
| step_start m ps cs now p m' :
    pending_request now m = (p, m') ->
    step {| metrics := m; pending := ps; streams := cs |}
         {| metrics := m'; pending := p :: ps; streams := cs |}
| step_retry m ps cs :
    step {| metrics := m; pending := ps; streams := cs |}
         {| metrics := record_retry m; pending := ps; streams := cs |}
| step_finish m ps1 p ps2 cs o now :
    step {| metrics := m; pending := ps1 ++ p :: ps2; streams := cs |}
         {| metrics := finish_pending o now p m; pending := ps1 ++ ps2; streams := cs |}
| step_into_stream m ps1 p ps2 cs status now c m' :
    into_stream status now p m = (c, m') ->
    step {| metrics := m; pending := ps1 ++ p :: ps2; streams := cs |}
         {| metrics := m'; pending := ps1 ++ ps2; streams := c :: cs |}
| step_complete_stream m ps cs1 c cs2 o now c' m' :
    complete_stream o now c m = (c', m') ->
    step {| metrics := m; pending := ps; streams := cs1 ++ c :: cs2 |}
         {| metrics := m'; pending := ps; streams := cs1 ++ c' :: cs2 |}
| step_drop_stream m ps cs1 c cs2 now :
    step {| metrics := m; pending := ps; streams := cs1 ++ c :: cs2 |}
         {| metrics := drop_stream_completion now c m; pending := ps; streams := cs1 ++ cs2 |}.

(** Streams whose outcome is still to come. *)
Definition open_stream (c : StreamCompletion) : bool :=
  match in_flight_guard c with Some _ => true | None => false end.

Definition unfinished (w : world) : Z :=
  Z.of_nat (length (pending w)) + countb open_stream (streams w).

Definition nonneg {K} `{Countable K} (m : gmap K Z) : Prop := map_Forall (fun _ v => 0 <= v) m.

Record balanced (i : ClientMetricsInner) (live : Z) : Prop := {
  bal_nonneg : forall c, c <> latency_total_ms -> c <> retries -> 0 <= atomics i c;
  bal_live : atomics i in_flight = live;
  bal_started : atomics i requests_started =
    atomics i requests_succeeded + atomics i requests_failed + atomics i requests_canceled + live;
  bal_samples : atomics i latency_samples =
    atomics i requests_succeeded + atomics i requests_failed + atomics i requests_canceled;
  bal_kinds : atomics i timeout_transport + atomics i timeout_response_body +
    atomics i deadline_exceeded + atomics i transport_errors + atomics i read_body_errors +
    atomics i write_body_errors + atomics i response_body_too_large + atomics i http_status_errors
    <= atomics i requests_failed;
  bal_codes : nonneg (error_code_counts i) /\ total (error_code_counts i) = atomics i requests_failed;
  bal_statuses : nonneg (status_counts i) /\
    total (status_counts i) = atomics i requests_succeeded + atomics i http_status_errors;
  bal_phases : nonneg (timeout_phase_counts i) /\
    total (timeout_phase_counts i) = atomics i timeout_transport + atomics i timeout_response_body;
  bal_transport : nonneg (transport_error_kind_counts i) /\
    total (transport_error_kind_counts i) = atomics i transport_errors;
  bal_http : nonneg (http_status_error_counts i) /\
    total (http_status_error_counts i) = atomics i http_status_errors;
}.

Lemma total_insert_None `{Countable K} (m : gmap K Z) k v : m !! k = None -> total (<[k := v]> m) = v + total m.
Proof. intros Hk. unfold total. rewrite map_fold_insert_L; [done| |done]. intros. lia. Qed.

Lemma total_split `{Countable K} (m : gmap K Z) k v : m !! k = Some v -> total m = v + total (delete k m).
Proof. intros Hk. unfold total. rewrite (map_fold_delete_L _ _ k v m); [done| |done]. intros. lia. Qed.

Lemma total_nonneg `{Countable K} (m : gmap K Z) : nonneg m -> 0 <= total m.
Proof.
  induction m as [|k v m Hk Hf IH] using map_first_key_ind; intros Hm; [done|].
  rewrite total_insert_None by done. apply map_Forall_insert in Hm as [? Hm]; [|done].
  specialize (IH Hm). lia.
Qed.

(** Counting one more, below saturation. *)
Lemma total_bump `{Countable K} (m : gmap K Z) k n :
  nonneg m /\ total m = n -> n < u64_max -> nonneg (bump k m) /\ total (bump k m) = n + 1.
Proof.
  unfold bump, u64_max. intros [Hm Ht] Hn. destruct (m !! k) as [v|] eqn:Hk; simpl.
  - pose proof (total_split m k v Hk). assert (nonneg (delete k m)) as Hd by by apply map_Forall_delete.
    pose proof (total_nonneg _ Hd). assert (0 <= v) by by apply (Hm k).
    rewrite sat_add_exact by lia. split.
    + apply map_Forall_insert_2; [lia|done].
    + rewrite (total_split _ k (v + 1)), delete_insert_eq by apply lookup_insert_eq. lia.
  - rewrite sat_add_exact by lia. split; [apply map_Forall_insert_2; [lia|done]|].
    rewrite total_insert_None by done. lia.
Qed.

(** What a record of one outcome does to the ledger, with the guard dropped after. *)
Definition settles (record : Duration -> ClientMetrics -> ClientMetrics) : Prop :=
  forall d i, exists i',
    drop_in_flight {| guard_is_live := true |} (record d (Some i)) = Some i' /\
    atomics i' requests_started = atomics i requests_started /\
    forall live, atomics i requests_started < u64_max -> 1 <= live -> balanced i live ->
      balanced i' (live - 1).

Ltac tally :=
  match goal with
  | B : balanced ?i _ |- _ =>
    pose proof (bal_started _ _ B); pose proof (bal_kinds _ _ B); pose proof (bal_live _ _ B);
    pose proof (bal_nonneg _ _ B in_flight ltac:(done) ltac:(done));
    pose proof (bal_nonneg _ _ B requests_succeeded ltac:(done) ltac:(done));
    pose proof (bal_nonneg _ _ B requests_failed ltac:(done) ltac:(done));
    pose proof (bal_nonneg _ _ B requests_canceled ltac:(done) ltac:(done));
    pose proof (bal_nonneg _ _ B timeout_transport ltac:(done) ltac:(done));
    pose proof (bal_nonneg _ _ B timeout_response_body ltac:(done) ltac:(done));
    pose proof (bal_nonneg _ _ B deadline_exceeded ltac:(done) ltac:(done));
    pose proof (bal_nonneg _ _ B transport_errors ltac:(done) ltac:(done));
    pose proof (bal_nonneg _ _ B read_body_errors ltac:(done) ltac:(done));
    pose proof (bal_nonneg _ _ B write_body_errors ltac:(done) ltac:(done));
    pose proof (bal_nonneg _ _ B response_body_too_large ltac:(done) ltac:(done));
    pose proof (bal_nonneg _ _ B http_status_errors ltac:(done) ltac:(done))
  end.

(** The goals of a [balanced] after an operation: each counter moved by what the
    maps moved. *)
Ltac rebalance :=
  tally; unfold sat_add, sat_sub in *; cbn in *;
  match goal with
  | B : balanced _ _ |- balanced _ _ =>
    destruct B; split; cbn;
    [let c := fresh "c" in intros c; destruct c; cbn; intros; try done; lia | ..];
    try lia;
    match goal with
    | |- nonneg (bump ?k ?m) /\ _ =>
      match goal with Hm : nonneg m /\ total m = ?n |- _ =>
        let T := fresh "T" in
        pose proof (total_bump m k n Hm) as T; split; [apply T; lia|destruct T as [_ ->]; lia] end
    | |- nonneg ?m /\ _ =>
      match goal with Hm : nonneg m /\ _ |- _ => destruct Hm; split; [done|lia] end
    end
  end.

Lemma success_settles status : settles (record_request_completed_success status).
Proof.
  intros d i. eexists. split; [reflexivity|]. split; [reflexivity|]. intros live Hs Hl B. rebalance.
Qed.

Lemma canceled_settles : settles record_request_completed_canceled.
Proof.
  intros d i. eexists. split; [reflexivity|]. split; [reflexivity|]. intros live Hs Hl B. rebalance.
Qed.

Lemma error_settles error : settles (record_request_completed_error error).
Proof.
  intros d i.
  destruct error as [| | | | | | | | | | | | | | | | | | | | phase| | | | | | | | | | | | | | | | | | | | |];
    try destruct phase; (eexists; split; [reflexivity|]; split; [reflexivity|]; intros live Hs Hl B; rebalance).
Qed.

Record inv (w : world) (i : ClientMetricsInner) : Prop := {
  inv_metrics : metrics w = Some i;
  inv_started : atomics i requests_started <= u64_max;
  inv_balanced : atomics i requests_started < u64_max -> balanced i (unfinished w);
  inv_pending : Forall (fun p => pending_in_flight p = {| guard_is_live := true |} /\ completed p = false)
    (pending w);
  inv_streams : Forall (fun c => from_option (fun g => g = {| guard_is_live := true |}) True (in_flight_guard c))
    (streams w);
}.

Lemma start_inv now i p m' ps cs :
  pending_request now (Some i) = (p, m') -> inv {| metrics := Some i; pending := ps; streams := cs |} i ->
  exists i', inv {| metrics := m'; pending := p :: ps; streams := cs |} i'.
Proof.
  intros [= <- <-] [_ Hs B Hp Hc]. eexists. split; cbn in *; [reflexivity|unfold sat_add; cbn; lia| |by apply Forall_cons|done].
  cbn. unfold sat_add. intros Hlt. assert (atomics i requests_started < u64_max) as Hlt' by lia.
  specialize (B Hlt'). unfold unfinished in *. cbn in *.
  set (live := Z.of_nat (length ps) + countb open_stream cs) in *.
  replace (Z.of_nat (S (length ps)) + countb open_stream cs) with (live + 1) by (unfold live; lia).
  clearbody live. rebalance.
Qed.

Lemma retry_inv i ps cs :
  inv {| metrics := Some i; pending := ps; streams := cs |} i ->
  exists i', inv {| metrics := record_retry (Some i); pending := ps; streams := cs |} i'.
Proof.
  intros [_ Hs B Hp Hc]. eexists. split; cbn in *; [reflexivity|done| |done|done].
  intros Hlt. specialize (B Hlt). unfold unfinished in *. cbn in *. rebalance.
Qed.

(** One request or stream fewer. *)
Lemma settle_inv record d i ps cs ps' cs' :
  settles record ->
  inv {| metrics := Some i; pending := ps; streams := cs |} i ->
  Z.of_nat (length ps') + countb open_stream cs' = Z.of_nat (length ps) + countb open_stream cs - 1 ->
  Forall (fun p => pending_in_flight p = {| guard_is_live := true |} /\ completed p = false) ps' ->
  Forall (fun c => from_option (fun g => g = {| guard_is_live := true |}) True (in_flight_guard c)) cs' ->
  exists i', inv {| metrics := drop_in_flight {| guard_is_live := true |} (record d (Some i));
                    pending := ps'; streams := cs' |} i'.
Proof.
  intros Hr [_ Hs B _ _] Hn Hp Hc. destruct (Hr d i) as (i' & Hi & Hst & Hb). exists i'.
  split; cbn in *; [done|by rewrite Hst| |done|done]. rewrite Hst. intros Hlt. unfold unfinished in *. cbn in *.
  rewrite Hn. apply Hb; [done| |by apply B]. pose proof (countb_nonneg open_stream cs'). lia.
Qed.

(** The record of a pending request's or stream's outcome. *)
Definition recorded (o : outcome) : Duration -> ClientMetrics -> ClientMetrics :=
  match o with
  | Succeeded status => record_request_completed_success status
  | Failed error => record_request_completed_error error
  | Canceled => record_request_completed_canceled
  end.

Lemma recorded_settles o : settles (recorded o).
Proof. destruct o; [apply success_settles|apply error_settles|apply canceled_settles]. Qed.

Lemma finish_pending_eq o now p m :
  completed p = false ->
  finish_pending o now p m =
    drop_in_flight (pending_in_flight p)
      (recorded o (saturating_duration_since now (request_started_at p)) m).
Proof. intros Hc. destruct o; cbn; unfold drop_pending; try done. by rewrite Hc. Qed.

Lemma complete_stream_eq o now c m :
  complete_stream o now c m =
    complete_with (recorded (match o with Succeeded _ => Succeeded (status c) | _ => o end)) now c m.
Proof. by destruct o. Qed.

Lemma complete_stream_inv o now i ps cs1 c cs2 c' m' :
  complete_stream o now c (Some i) = (c', m') ->
  inv {| metrics := Some i; pending := ps; streams := cs1 ++ c :: cs2 |} i ->
  open_stream c' = false /\ in_flight_guard c' = None /\
  exists i', inv {| metrics := m'; pending := ps; streams := cs1 ++ c' :: cs2 |} i'.
Proof.
  rewrite complete_stream_eq. unfold complete_with. intros He Hinv.
  pose proof (inv_streams _ _ Hinv) as Hc. cbn in Hc. apply Forall_app in Hc as [Hc1 [Hc Hc2]%Forall_cons].
  destruct (in_flight_guard c) as [g|] eqn:Hg; cbn in Hc.
  - subst g. injection He as <- <-. split; [done|]. split; [done|].
    eapply settle_inv; [apply recorded_settles|exact Hinv| |apply Hinv|].
    + rewrite !countb_app, !countb_cons. unfold open_stream. rewrite Hg. cbn. lia.
    + apply Forall_app. split; [done|]. by apply Forall_cons.
  - injection He as <- <-. unfold open_stream. rewrite Hg. split; [done|]. split; [done|]. by exists i.
Qed.

Lemma metrics_step_inv w w' i : step w w' -> inv w i -> exists i', inv w' i'.
Proof.
  intros Hstep Hinv. destruct Hstep as [m ps cs now p m' He|m ps cs|m ps1 p ps2 cs o now
    |m ps1 p ps2 cs st now c m' He|m ps cs1 c cs2 o now c' m' He|m ps cs1 c cs2 now];
    pose proof (inv_metrics _ _ Hinv) as Hm; cbn in Hm; subst m.
  - by eapply start_inv.
  - by apply retry_inv.
  - pose proof (inv_pending _ _ Hinv) as Hp. cbn in Hp.
    apply Forall_app in Hp as [Hp1 [[Hg Hc] Hp2]%Forall_cons]. rewrite finish_pending_eq, Hg by done.
    eapply settle_inv; [apply recorded_settles|exact Hinv| |by apply Forall_app|apply Hinv].
    rewrite !length_app. cbn. lia.
  - injection He as <- <-. destruct Hinv as [_ Hs B Hp Hc]. cbn in *.
    apply Forall_app in Hp as [Hp1 [[Hg Hpc] Hp2]%Forall_cons]. exists i.
    split; cbn in *; [done|done| |by apply Forall_app|by apply Forall_cons].
    intros Hlt. specialize (B Hlt). unfold unfinished in *. cbn in *. rewrite countb_cons. cbn.
    rewrite length_app in *. cbn in *.
    by replace (Z.of_nat (length ps1 + length ps2) + (1 + countb open_stream cs))
      with (Z.of_nat (length ps1 + S (length ps2)) + countb open_stream cs) by lia.
  - by eapply complete_stream_inv in He as (_ & _ & ?).
  - unfold drop_stream_completion. destruct (stream_complete_canceled now c (Some i)) as [c' m'] eqn:He.
    destruct (complete_stream_inv Canceled now i ps cs1 c cs2 c' m' He Hinv) as (Hopen & Hg & i' & [I1 I2 I3 I4 I5]).
    exists i'. split; cbn in *; [done|done| |done|].
    + intros Hlt. specialize (I3 Hlt). unfold unfinished in *. cbn in *.
      rewrite !countb_app, countb_cons, Hopen in I3. rewrite countb_app. done.
    + rewrite Forall_app, Forall_cons in I5. apply Forall_app. naive_solver.
Qed.

Lemma metrics_inv_reachable w : rtc step (initial true) w -> exists i, inv w i.
Proof.
  apply (rtc_invariant step (fun w => exists i, inv w i)).
  - exists inner_default. by split.
  - intros a b Hab [i Hi]. by eapply metrics_step_inv.
Qed.

End Ledger.

End Metrics.
