(* ===== verification/Otel.v ===== *)
(** * OpenTelemetry emission (core/otel.rs, and its calls in core/metrics.rs)

    The opentelemetry crate takes calls and returns nothing the client looks at, so what
    it was told is a log, in the order of the calls.  A span is told apart by its number:
    how many were started before it.  The second part repeats the operations of
    core/metrics.rs with the calls that [Metrics] leaves out, on the counters and the log
    together, each as one function; [Interleaving] takes them apart into what threads
    interleave. *)
From Stdlib Require Import Ascii String.
From S2P Require Import Prelude Float64 Text HttpApi UriText Errors Redaction UriResolve Extensions Metrics.

Module Otel.

Inductive Value := VStr (s : str) | VInt (n : Z) | VBool (b : bool).
Record KeyValue := { key : string; value : Value }.

Definition kv (k : string) (v : Value) : KeyValue := {| key := k; value := v |}.

(** The calls into the crate.  Dropping the handle of a span is one of them: the crate
    ends a span whose handle is dropped before [end]. *)
Inductive Emission :=
| CounterAdd (counter : string) (n : Z) (attributes : list KeyValue)
| HistogramRecord (histogram : string) (sample : f64) (attributes : list KeyValue)
| SpanStart (id : nat) (operation : string)
| SpanAttribute (id : nat) (attribute : KeyValue)
| SpanStatus (id : nat) (error : string)
| SpanEnd (id : nat)
| SpanDrop (id : nat).

Definition span_started (e : Emission) : bool := match e with SpanStart _ _ => true | _ => false end.
Definition next_span (log : list Emission) : nat := length (List.filter span_started log).

Record OtelInner := { client_name : str; path_normalizer : str -> str }.

(** [OtelTelemetry { inner }]. *)
Record OtelTelemetry := { otel_inner : option OtelInner }.

Definition disabled : OtelTelemetry := {| otel_inner := None |}.

Definition try_enabled_with_path_normalizer `{Http} (otel_feature : bool) (client_name : str) (path_normalizer : str -> str)
    : result OtelTelemetry Error.t :=
  if otel_feature
  then Ok {| otel_inner := Some {| client_name := client_name; path_normalizer := path_normalizer |} |}
  else Err (Error.FeatureUnavailable "otel" "OpenTelemetry observer emission").

(** The handle of a request's span. *)
Record OtelRequestSpan := { span : option nat }.

Definition base_attributes (inner : OtelInner) : list KeyValue := [kv "reqx.client" (VStr (client_name inner))].

Section Attributes.
Context `{Http}.

Definition request_span_attributes (client_name : str) (normalize_path : str -> str) (method : Method) (uri : str)
    : list KeyValue :=
  [kv "reqx.client" (VStr client_name); kv "http.request.method" (VStr (method_as_str method))] ++
  match uri_parse uri with
  | None => []
  | Some parsed =>
    match uri_scheme_str parsed with Some scheme => [kv "url.scheme" (VStr scheme)] | None => [] end ++
    match uri_host parsed with
    | Some host => [kv "server.address" (VStr (default host (normalize_host_key host)))]
    | None => []
    end ++
    match uri_port_u16 parsed with Some port => [kv "server.port" (VInt port)] | None => [] end ++
    (let path := normalize_path (uri_path parsed) in
     if negb (nonempty path) then [] else [kv "url.path" (VStr path)])
  end.

Definition error_span_attributes (error : Error.t) : list KeyValue :=
  kv "error.type" (VStr (lit (ErrorCode.as_str (Error.code error)))) ::
  match error with
  | Error.HttpStatus status _ _ _ _ => [kv "http.response.status_code" (VInt status)]
  | _ => []
  end.

Definition error_span_status (error : Error.t) : string := ErrorCode.as_str (Error.code error).

End Attributes.

(** ** The operations of [OtelTelemetry] *)
Section Telemetry.
Context `{Http}.
Variable self : OtelTelemetry.
Implicit Types log : list Emission.

Definition record_request_started log : list Emission :=
  match otel_inner self with
  | None => log
  | Some inner => log ++ [CounterAdd "reqx.request.started" 1 (base_attributes inner)]
  end.

Definition record_request_succeeded (status : Z) log : list Emission :=
  match otel_inner self with
  | None => log
  | Some inner =>
    log ++ [CounterAdd "reqx.request.succeeded" 1
              [kv "reqx.client" (VStr (client_name inner)); kv "http.response.status_code" (VInt status)]]
  end.

Definition record_request_failed (error : Error.t) log : list Emission :=
  match otel_inner self with
  | None => log
  | Some inner =>
    log ++ [CounterAdd "reqx.request.failed" 1
              [kv "reqx.client" (VStr (client_name inner));
               kv "error.type" (VStr (lit (ErrorCode.as_str (Error.code error))))]]
  end.

Definition record_request_canceled log : list Emission :=
  match otel_inner self with
  | None => log
  | Some inner => log ++ [CounterAdd "reqx.request.canceled" 1 (base_attributes inner)]
  end.

Definition record_retry log : list Emission :=
  match otel_inner self with
  | None => log
  | Some inner => log ++ [CounterAdd "reqx.request.retries" 1 (base_attributes inner)]
  end.

Definition record_request_latency (latency : Duration) log : list Emission :=
  match otel_inner self with
  | None => log
  | Some inner =>
    log ++ [HistogramRecord "reqx.request.duration.ms" (f64_mul (as_secs_f64 latency) (f64_of_Z 1000)) (base_attributes inner)]
  end.

Definition start_request_span (method : Method) (uri : str) (stream : bool) log : OtelRequestSpan * list Emission :=
  match otel_inner self with
  | None => ({| span := None |}, log)
  | Some inner =>
    let operation := (if stream then "reqx.http.request.stream" else "reqx.http.request")%string in
    let id := next_span log in
    let log := log ++ [SpanStart id operation] in
    let log := log ++ (SpanAttribute id <$>
      request_span_attributes (client_name inner) (path_normalizer inner) method uri) in
    ({| span := Some id |}, log)
  end.

(** Each of the three takes the handle, so it is dropped at the end. *)
Definition finish_request_span_success (request_span : OtelRequestSpan) (status : Z) log : list Emission :=
  match span request_span with
  | None => log
  | Some id => log ++ [SpanAttribute id (kv "http.response.status_code" (VInt status)); SpanEnd id; SpanDrop id]
  end.

Definition finish_request_span_error (request_span : OtelRequestSpan) (error : Error.t) log : list Emission :=
  match span request_span with
  | None => log
  | Some id =>
    log ++ (SpanAttribute id <$> error_span_attributes error) ++ [SpanStatus id (error_span_status error); SpanEnd id; SpanDrop id]
  end.

Definition finish_request_span_canceled (request_span : OtelRequestSpan) log : list Emission :=
  match span request_span with
  | None => log
  | Some id => log ++ [SpanAttribute id (kv "reqx.request.canceled" (VBool true)); SpanEnd id; SpanDrop id]
  end.

(** The drop of a field that may still hold a span. *)
Definition drop_span (request_span : option OtelRequestSpan) log : list Emission :=
  match request_span with
  | Some {| span := Some id |} => log ++ [SpanDrop id]
  | _ => log
  end.

End Telemetry.
End Otel.

(** ** The accounting of core/metrics.rs with its telemetry *)
Module Accounting.
Import Otel.

(** [ClientMetrics]: the counters and what was emitted. *)
Record state := { counters : Metrics.ClientMetrics; emitted : list Emission }.

Record PendingRequest := { base : Metrics.PendingRequest; request_span : option OtelRequestSpan }.
Record StreamCompletion := { stream_base : Metrics.StreamCompletion; stream_span : option OtelRequestSpan }.

Section Operations.
Context `{Http}.
Variable otel : OtelTelemetry.

Definition both (f : Metrics.ClientMetrics -> Metrics.ClientMetrics) (g : list Emission -> list Emission) (s : state) : state :=
  {| counters := f (counters s); emitted := g (emitted s) |}.

Definition with_options (metrics_enabled : bool) : state :=
  {| counters := Metrics.with_options metrics_enabled; emitted := [] |}.

Definition record_request_started : state -> state :=
  both Metrics.record_request_started (Otel.record_request_started otel).

Definition record_retry : state -> state := both Metrics.record_retry (Otel.record_retry otel).

Definition record_request_completed_success (status : Z) (latency : Duration) : state -> state :=
  both (Metrics.record_request_completed_success status latency)
    (fun log => record_request_latency otel latency (record_request_succeeded otel status log)).

Definition record_request_completed_error (error : Error.t) (latency : Duration) : state -> state :=
  both (Metrics.record_request_completed_error error latency)
    (fun log => record_request_failed otel error (record_request_latency otel latency log)).

Definition record_request_completed_canceled (latency : Duration) : state -> state :=
  both (Metrics.record_request_completed_canceled latency)
    (fun log => record_request_canceled otel (record_request_latency otel latency log)).

(** A span that is there is finished by [f]. *)
Definition finish_span (f : OtelRequestSpan -> list Emission -> list Emission) (request_span : option OtelRequestSpan)
    : state -> state :=
  both id (fun log => match request_span with Some span => f span log | None => log end).

Definition pending_request (method : Method) (uri : str) (stream : bool) (request_started_at : Instant) (s : state)
    : PendingRequest * state :=
  let '(span, log) := start_request_span otel method uri stream (emitted s) in
  let s := record_request_started {| counters := counters s; emitted := log |} in
  let '(guard, m) := Metrics.enter_in_flight (counters s) in
  ({| base := {| Metrics.request_started_at := request_started_at; Metrics.pending_in_flight := guard;
                 Metrics.completed := false |};
      request_span := Some span |},
   {| counters := m; emitted := emitted s |}).

(** [Drop for PendingRequest], then the drops of its fields. *)
Definition drop_pending (now : Instant) (p : PendingRequest) (s : state) : state :=
  let '(span, s) :=
    if Metrics.completed (base p) then (request_span p, s)
    else
      let s := record_request_completed_canceled
                 (saturating_duration_since now (Metrics.request_started_at (base p))) s in
      (None, finish_span finish_request_span_canceled (request_span p) s) in
  both (Metrics.drop_in_flight (Metrics.pending_in_flight (base p))) (drop_span span) s.

Definition set_completed (p : PendingRequest) : PendingRequest :=
  {| base := Metrics.set_completed (base p); request_span := request_span p |}.
Definition without_span (p : PendingRequest) : PendingRequest := {| base := base p; request_span := None |}.

Definition complete_success (status : Z) (now : Instant) (p : PendingRequest) (s : state) : state :=
  let p := set_completed p in
  let s := record_request_completed_success status
             (saturating_duration_since now (Metrics.request_started_at (base p))) s in
  let s := finish_span (fun span => finish_request_span_success span status) (request_span p) s in
  drop_pending now (without_span p) s.

Definition complete_error (error : Error.t) (now : Instant) (p : PendingRequest) (s : state) : state :=
  let p := set_completed p in
  let s := record_request_completed_error error
             (saturating_duration_since now (Metrics.request_started_at (base p))) s in
  let s := finish_span (fun span => finish_request_span_error span error) (request_span p) s in
  drop_pending now (without_span p) s.

(** The span and the guard move into the stream. *)
Definition into_stream (status : Z) (now : Instant) (p : PendingRequest) (s : state) : StreamCompletion * state :=
  let p := set_completed p in
  let c := {| stream_base := {| Metrics.stream_started_at := Metrics.request_started_at (base p);
                                Metrics.status := status;
                                Metrics.in_flight_guard := Some (Metrics.pending_in_flight (base p)) |};
              stream_span := request_span p |} in
  let p := {| base := {| Metrics.request_started_at := Metrics.request_started_at (base p);
                         Metrics.pending_in_flight := {| Metrics.guard_is_live := false |};
                         Metrics.completed := Metrics.completed (base p) |};
              request_span := None |} in
  (c, drop_pending now p s).

(** The three completions of a stream: nothing without the guard, which drops last. *)
Definition complete_with (record : Duration -> state -> state)
    (finish : OtelRequestSpan -> list Emission -> list Emission) (now : Instant) (c : StreamCompletion) (s : state)
    : StreamCompletion * state :=
  match Metrics.in_flight_guard (stream_base c) with
  | None => (c, s)
  | Some guard =>
    let s := record (saturating_duration_since now (Metrics.stream_started_at (stream_base c))) s in
    let s := finish_span finish (stream_span c) s in
    ({| stream_base := Metrics.take_guard (stream_base c); stream_span := None |},
     both (Metrics.drop_in_flight guard) id s)
  end.

Definition stream_complete_success (now : Instant) (c : StreamCompletion) : state -> StreamCompletion * state :=
  complete_with (record_request_completed_success (Metrics.status (stream_base c)))
    (fun span => finish_request_span_success span (Metrics.status (stream_base c))) now c.

Definition stream_complete_error (error : Error.t) (now : Instant) (c : StreamCompletion) : state -> StreamCompletion * state :=
  complete_with (record_request_completed_error error) (fun span => finish_request_span_error span error) now c.

Definition stream_complete_canceled (now : Instant) (c : StreamCompletion) : state -> StreamCompletion * state :=
  complete_with record_request_completed_canceled finish_request_span_canceled now c.

(** [Drop for StreamCompletion], then the drops of its fields. *)
Definition drop_stream_completion (now : Instant) (c : StreamCompletion) (s : state) : state :=
  let '(c, s) := stream_complete_canceled now c s in
  both id (drop_span (stream_span c)) s.

End Operations.

(** ** The client with its open requests and streams *)
Section Ledger.
Context `{Http}.
Variable otel : OtelTelemetry.

Record world := { ledger : state; pending : list PendingRequest; streams : list StreamCompletion }.

Definition initial (metrics_enabled : bool) : world :=
  {| ledger := with_options metrics_enabled; pending := []; streams := [] |}.

Definition finish_pending (o : Metrics.outcome) (now : Instant) (p : PendingRequest) (s : state) : state :=
  match o with
  | Metrics.Succeeded status => complete_success otel status now p s
  | Metrics.Failed error => complete_error otel error now p s
  | Metrics.Canceled => drop_pending otel now p s
  end.

Definition complete_stream (o : Metrics.outcome) (now : Instant) (c : StreamCompletion) (s : state)
    : StreamCompletion * state :=
  match o with
  | Metrics.Succeeded _ => stream_complete_success otel now c s
  | Metrics.Failed error => stream_complete_error otel error now c s
  | Metrics.Canceled => stream_complete_canceled otel now c s
  end.

Inductive step : world -> world -> Prop :=
| step_start s ps cs method uri stream now p s' :
    pending_request otel method uri stream now s = (p, s') ->
    step {| ledger := s; pending := ps; streams := cs |} {| ledger := s'; pending := p :: ps; streams := cs |}
| step_retry s ps cs :
    step {| ledger := s; pending := ps; streams := cs |} {| ledger := record_retry otel s; pending := ps; streams := cs |}
| step_finish s ps1 p ps2 cs o now :
    step {| ledger := s; pending := ps1 ++ p :: ps2; streams := cs |}
         {| ledger := finish_pending o now p s; pending := ps1 ++ ps2; streams := cs |}
| step_into_stream s ps1 p ps2 cs status now c s' :
    into_stream otel status now p s = (c, s') ->
    step {| ledger := s; pending := ps1 ++ p :: ps2; streams := cs |}
         {| ledger := s'; pending := ps1 ++ ps2; streams := c :: cs |}
| step_complete_stream s ps cs1 c cs2 o now c' s' :
    complete_stream o now c s = (c', s') ->
    step {| ledger := s; pending := ps; streams := cs1 ++ c :: cs2 |}
         {| ledger := s'; pending := ps; streams := cs1 ++ c' :: cs2 |}
| step_drop_stream s ps cs1 c cs2 now :
    step {| ledger := s; pending := ps; streams := cs1 ++ c :: cs2 |}
         {| ledger := drop_stream_completion otel now c s; pending := ps; streams := cs1 ++ cs2 |}.

(** Without the telemetry, the client of [Metrics]. *)
Definition silent (w : world) : Metrics.world :=
  {| Metrics.metrics := counters (ledger w); Metrics.pending := base <$> pending w;
     Metrics.streams := stream_base <$> streams w |}.

Lemma finish_pending_counters o now p s :
  counters (finish_pending o now p s) = Metrics.finish_pending o now (base p) (counters s).
Proof.
  destruct o; cbn; [done|done|]. unfold drop_pending, Metrics.drop_pending. by destruct (Metrics.completed (base p)).
Qed.

Lemma complete_stream_counters o now c s c' s' : complete_stream o now c s = (c', s') ->
  Metrics.complete_stream o now (stream_base c) (counters s) = (stream_base c', counters s').
Proof.
  destruct o; cbn; unfold stream_complete_success, stream_complete_error, stream_complete_canceled, complete_with,
    Metrics.stream_complete_success, Metrics.stream_complete_error, Metrics.stream_complete_canceled, Metrics.complete_with;
    destruct (Metrics.in_flight_guard (stream_base c)) eqn:Hg; by intros [= <- <-].
Qed.

Lemma silent_step w w' : step w w' -> Metrics.step (silent w) (silent w').
Proof.
  destruct 1 as [s ps cs method uri stream now p s' He|s ps cs|s ps1 p ps2 cs o now|s ps1 p ps2 cs status now c s' He
    |s ps cs1 c cs2 o now c' s' He|s ps cs1 c cs2 now]; unfold silent; cbn [ledger pending streams]; rewrite ?fmap_app; cbn [fmap list_fmap].
  - unfold pending_request in He. destruct (start_request_span otel method uri stream (emitted s)) as [span log].
    cbn zeta in He. destruct (Metrics.enter_in_flight _) as [guard m] eqn:Hg. injection He as <- <-.
    apply (Metrics.step_start _ _ _ now). unfold Metrics.pending_request. cbn in Hg. cbn zeta. cbn.
    by destruct (counters s); injection Hg as <- <-.
  - apply Metrics.step_retry.
  - rewrite finish_pending_counters. apply Metrics.step_finish.
  - injection He as <- <-. eapply (Metrics.step_into_stream _ _ _ _ _ status now). reflexivity.
  - eapply (Metrics.step_complete_stream _ _ _ _ _ o now). by apply complete_stream_counters.
  - unfold drop_stream_completion. destruct (stream_complete_canceled otel now c s) as [c' s'] eqn:He.
    apply (complete_stream_counters Metrics.Canceled) in He. cbn.
    assert (counters s' = Metrics.drop_stream_completion now (stream_base c) (counters s)) as ->.
    { unfold Metrics.drop_stream_completion. cbn in He. by rewrite He. }
    apply Metrics.step_drop_stream.
Qed.

Lemma silent_steps w w' : rtc step w w' -> rtc Metrics.step (silent w) (silent w').
Proof. induction 1 as [|a b c Hs _ IH]; [done|]. eapply rtc_l; [by apply silent_step|done]. Qed.

End Ledger.
(** ** What was emitted *)
Definition emission_span (e : Emission) : option nat :=
  match e with
  | CounterAdd _ _ _ | HistogramRecord _ _ _ => None
  | SpanStart id _ | SpanAttribute id _ | SpanStatus id _ | SpanEnd id | SpanDrop id => Some id
  end.

(** The calls about one span, the units added to a counter, the latency samples, the spans
    that were ended. *)
Definition about (id : nat) (log : list Emission) : list Emission := filter (fun e => emission_span e = Some id) log.
Definition adds (counter : string) (log : list Emission) : Z :=
  countb (fun e => match e with CounterAdd c _ _ => String.eqb c counter | _ => false end) log.
Definition samples (log : list Emission) : Z :=
  countb (fun e => match e with HistogramRecord _ _ _ => true | _ => false end) log.
Definition ends (log : list Emission) : Z := countb (fun e => match e with SpanEnd _ => true | _ => false end) log.

Section Spans.
Context `{Http}.
Variable inner : OtelInner.
Implicit Types (log : list Emission) (id : nat) (held : list nat).

Definition opening id (method : Method) (uri : str) (stream : bool) : list Emission :=
  SpanStart id (if stream then "reqx.http.request.stream" else "reqx.http.request")%string ::
  (SpanAttribute id <$> request_span_attributes (client_name inner) (path_normalizer inner) method uri).

Definition closing id (o : Metrics.outcome) : list Emission :=
  match o with
  | Metrics.Succeeded status => [SpanAttribute id (kv "http.response.status_code" (VInt status)); SpanEnd id; SpanDrop id]
  | Metrics.Failed error =>
    (SpanAttribute id <$> error_span_attributes error) ++ [SpanStatus id (error_span_status error); SpanEnd id; SpanDrop id]
  | Metrics.Canceled => [SpanAttribute id (kv "reqx.request.canceled" (VBool true)); SpanEnd id; SpanDrop id]
  end.

Definition sample (latency : Duration) : Emission :=
  HistogramRecord "reqx.request.duration.ms" (f64_mul (as_secs_f64 latency) (f64_of_Z 1000)) (base_attributes inner).

Definition tally (o : Metrics.outcome) (latency : Duration) : list Emission :=
  match o with
  | Metrics.Succeeded status =>
    [CounterAdd "reqx.request.succeeded" 1
       [kv "reqx.client" (VStr (client_name inner)); kv "http.response.status_code" (VInt status)]; sample latency]
  | Metrics.Failed error =>
    [sample latency; CounterAdd "reqx.request.failed" 1
       [kv "reqx.client" (VStr (client_name inner)); kv "error.type" (VStr (lit (ErrorCode.as_str (Error.code error))))]]
  | Metrics.Canceled => [sample latency; CounterAdd "reqx.request.canceled" 1 (base_attributes inner)]
  end.

(** The spans of [held] are open; every other one had an outcome, and nothing after it. *)
Record spans_ok log held : Prop := {
  ok_known : Forall (fun e => from_option (fun id => (id < next_span log)%nat) True (emission_span e)) log;
  ok_held : NoDup held /\ Forall (fun id => (id < next_span log)%nat) held;
  ok_spans id : (id < next_span log)%nat -> exists method uri stream,
    ((id ∈ held) /\ about id log = opening id method uri stream) \/
    ((id ∉ held) /\ exists o, about id log = opening id method uri stream ++ closing id o);
  ok_started : adds "reqx.request.started" log = Z.of_nat (next_span log);
  ok_ended : ends log = adds "reqx.request.succeeded" log + adds "reqx.request.failed" log + adds "reqx.request.canceled" log;
  ok_samples : samples log = ends log;
  ok_open : adds "reqx.request.started" log = ends log + Z.of_nat (length held);
}.

Lemma next_span_app l1 l2 : next_span (l1 ++ l2) = (next_span l1 + next_span l2)%nat.
Proof. unfold next_span. by rewrite List.filter_app, length_app. Qed.

Lemma about_app id l1 l2 : about id (l1 ++ l2) = about id l1 ++ about id l2.
Proof. apply filter_app. Qed.

Lemma about_chunk id id' l : Forall (fun e => emission_span e = Some id') l ->
  about id l = if decide (id = id') then l else [].
Proof.
  unfold about. induction 1 as [|e l He _ IH]; [by case_decide|]. rewrite filter_cons, IH, He.
  repeat case_decide; congruence.
Qed.

Lemma about_none id l : Forall (fun e => emission_span e <> Some id) l -> about id l = [].
Proof. unfold about. induction 1 as [|e l He _ IH]; [done|]. by rewrite filter_cons_False. Qed.

Lemma attributes_span id l : Forall (fun e => emission_span e = Some id) (SpanAttribute id <$> l).
Proof. apply Forall_fmap, Forall_true. done. Qed.

Lemma opening_span id method uri stream : Forall (fun e => emission_span e = Some id) (opening id method uri stream).
Proof. constructor; [done|]. apply attributes_span. Qed.

Lemma closing_span id o : Forall (fun e => emission_span e = Some id) (closing id o).
Proof.
  destruct o; cbn [closing]; [by repeat constructor| |by repeat constructor].
  apply Forall_app. split; [apply attributes_span|by repeat constructor].
Qed.

Lemma tally_span o latency : Forall (fun e => emission_span e = None) (tally o latency).
Proof. destruct o; by repeat constructor. Qed.

(** None of the counts sees an attribute. *)
Lemma attributes_uncounted (f : Emission -> bool) id l : (forall a, f (SpanAttribute id a) = false) ->
  countb f (SpanAttribute id <$> l) = 0.
Proof. intros Hf. apply countb_zero. intros e (a & -> & _)%list_elem_of_fmap. apply Hf. Qed.

Lemma next_span_countb l : Z.of_nat (next_span l) = countb span_started l.
Proof. done. Qed.

Ltac counts :=
  unfold adds, samples, ends in *; rewrite ?countb_app, ?countb_cons, ?countb_nil; cbn -[countb Z.add request_span_attributes error_span_attributes fmap list_fmap];
  rewrite ?attributes_uncounted by done.

Lemma opening_started id method uri stream : next_span (opening id method uri stream) = 1%nat.
Proof. apply Nat2Z.inj. rewrite next_span_countb. unfold opening. by counts. Qed.

Lemma closing_started id o : next_span (closing id o) = 0%nat.
Proof. apply Nat2Z.inj. rewrite next_span_countb. unfold closing. destruct o; by counts. Qed.

Lemma tally_started o latency : next_span (tally o latency) = 0%nat.
Proof. by destruct o. Qed.

Lemma spans_ok_nil : spans_ok [] [].
Proof. split; try done; [by split; constructor|intros id Hid; cbn in Hid; lia]. Qed.

(** A new request: its span is the next one. *)
Lemma spans_ok_open log held method uri stream started :
  started = CounterAdd "reqx.request.started" 1 (base_attributes inner) -> spans_ok log held ->
  spans_ok (log ++ opening (next_span log) method uri stream ++ [started]) (next_span log :: held).
Proof.
  intros -> [Hk [Hnd Hh] Hs Hst He Hsm Ho]. set (new := next_span log) in *.
  assert (next_span (log ++ opening new method uri stream ++ [CounterAdd "reqx.request.started" 1 (base_attributes inner)])
    = S new) as Hnext by (rewrite !next_span_app, opening_started; cbn; unfold new; lia).
  assert (about new log = []) as Hnew.
  { apply about_none. eapply Forall_impl; [exact Hk|]. intros e Hlt Heq. cbv beta in Hlt, Heq. rewrite Heq in Hlt. cbn in Hlt. lia. }
  split; rewrite ?Hnext.
  - apply Forall_app. split.
    + eapply Forall_impl; [exact Hk|]. intros e He0. cbv beta in *. destruct (emission_span e); cbn [from_option] in *; [lia|done].
    + apply Forall_app. split; [|by repeat constructor].
      eapply Forall_impl; [apply opening_span|]. intros e ->. cbn. lia.
  - split; [constructor; [|done]; intros Hin; rewrite Forall_forall in Hh; apply Hh in Hin; lia|].
    constructor; [lia|]. eapply Forall_impl; [exact Hh|]. cbn. lia.
  - intros id Hid. rewrite !about_app, (about_chunk _ new (opening _ _ _ _)) by apply opening_span.
    rewrite (about_none id [_]) by (by repeat constructor).
    case_decide as Heq.
    + subst id. rewrite Hnew, app_nil_r. exists method, uri, stream. left. split; [left|done].
    + destruct (Hs id) as (m & u & st & [[Hin Ha]|[Hin Ha]]); [lia| |]; exists m, u, st; rewrite !app_nil_r;
        [left|right]; (split; [|done]); [by right|]. by intros [?|?]%elem_of_cons.
  - unfold opening. counts. rewrite Hst. lia.
  - unfold opening. counts. rewrite He. lia.
  - unfold opening. counts. lia.
  - unfold opening. counts. cbn [length]. lia.
Qed.

(** An outcome closes one of the open spans. *)
Lemma spans_ok_close log a id b o latency :
  spans_ok log (a ++ id :: b) -> spans_ok (log ++ tally o latency ++ closing id o) (a ++ b).
Proof.
  intros [Hk [Hnd Hh] Hs Hst He Hsm Ho]. pose proof Hh as Hh'. rewrite Forall_app, Forall_cons in Hh'. destruct Hh' as (Ha & Hid & Hb).
  apply NoDup_app in Hnd as Hnd'. destruct Hnd' as (Hna & Hab & Hnb). apply NoDup_cons in Hnb as [Hidb Hnb].
  assert (id ∉ a) as Hida by (intros Hin; apply (Hab id Hin); left).
  assert (next_span (log ++ tally o latency ++ closing id o) = next_span log) as Hnext
    by (rewrite !next_span_app, tally_started, closing_started; lia).
  split; rewrite ?Hnext.
  - rewrite !Forall_app. split_and!; [done| |].
    + eapply Forall_impl; [apply tally_span|]. by intros e ->.
    + eapply Forall_impl; [apply closing_span|]. by intros e ->.
  - split; [|by apply Forall_app]. apply NoDup_app. split_and!; [done| |done]. intros x Hx Hxb. apply (Hab x Hx). by right.
  - intros i Hi. rewrite !about_app, (about_chunk _ id (closing _ _)) by apply closing_span.
    rewrite (about_none i (tally o latency)) by (eapply Forall_impl; [apply tally_span|]; by intros e ->). cbn [app].
    destruct (Hs i Hi) as (m & u & st & Hspan). exists m, u, st. case_decide as Heq.
    + subst i. right. split; [intros [?|?]%elem_of_app; done|]. exists o.
      destruct Hspan as [[_ ->]|[Hout _]]; [done|]. destruct Hout. apply elem_of_app. right. left.
    + rewrite app_nil_r. destruct Hspan as [[Hin ->]|[Hin Ho']]; [left|right]; (split; [|done]).
      * apply elem_of_app in Hin as [Hin|[?|Hin]%elem_of_cons]; [..|]; [by apply elem_of_app; left|done|by apply elem_of_app; right].
      * intros Hin'. apply Hin. apply elem_of_app in Hin' as [?|?]; apply elem_of_app; [by left|right; by right].
  - destruct o; unfold tally, closing, sample; counts; lia.
  - destruct o; unfold tally, closing, sample; counts; lia.
  - destruct o; unfold tally, closing, sample; counts; lia.
  - rewrite length_app in *. cbn [length] in *. destruct o; unfold tally, closing, sample; counts; lia.
Qed.

(** A retry is counted and touches no span. *)
Lemma spans_ok_retry log held : spans_ok log held ->
  spans_ok (log ++ [CounterAdd "reqx.request.retries" 1 (base_attributes inner)]) held.
Proof.
  intros [Hk Hh Hs Hst He Hsm Ho].
  assert (next_span (log ++ [CounterAdd "reqx.request.retries" 1 (base_attributes inner)]) = next_span log) as Hnext
    by (rewrite next_span_app; cbn; lia).
  split; rewrite ?Hnext; [apply Forall_app; by split; [|repeat constructor]|done| |counts; lia..].
  intros id Hid. rewrite about_app, (about_none id [_]) by (by repeat constructor). rewrite app_nil_r. by apply Hs.
Qed.

#[export] Instance spans_ok_perm log : Proper (Permutation ==> impl) (spans_ok log).
Proof.
  intros h h' Hp [Hk [Hnd Hh] Hs Hst He Hsm Ho].
  split; [done|by rewrite <- Hp| |done|done|done|by rewrite <- Hp].
  intros id Hid. destruct (Hs id Hid) as (m & u & st & Hspan). exists m, u, st. by rewrite <- Hp.
Qed.

(** ** The invariant of the client *)
Let otel : OtelTelemetry := {| otel_inner := Some inner |}.

Definition pending_span (p : PendingRequest) : option nat := request_span p ≫= span.
Definition open_span (c : StreamCompletion) : option nat := stream_span c ≫= span.
Definition held_spans (w : world) : list nat := omap pending_span (pending w) ++ omap open_span (streams w).

Definition pending_ok (p : PendingRequest) : Prop :=
  Metrics.completed (base p) = false /\ exists id, request_span p = Some {| span := Some id |}.
Definition stream_ok (c : StreamCompletion) : Prop :=
  match Metrics.in_flight_guard (stream_base c) with
  | Some _ => exists id, stream_span c = Some {| span := Some id |}
  | None => stream_span c = None
  end.

Record world_ok (w : world) : Prop := {
  wo_pending : Forall pending_ok (pending w);
  wo_streams : Forall stream_ok (streams w);
  wo_spans : spans_ok (emitted (ledger w)) (held_spans w);
}.

Lemma finish_pending_emitted o now p s id :
  Metrics.completed (base p) = false -> request_span p = Some {| span := Some id |} ->
  emitted (finish_pending otel o now p s) =
  emitted s ++ tally o (saturating_duration_since now (Metrics.request_started_at (base p))) ++ closing id o.
Proof.
  intros Hc Hs. destruct o; cbn [finish_pending]; unfold complete_success, complete_error, drop_pending.
  - cbn -[fmap]. rewrite Hs. cbn -[fmap]. by rewrite <- !app_assoc.
  - cbn -[fmap error_span_attributes]. rewrite Hs. cbn -[fmap error_span_attributes]. by rewrite <- !app_assoc.
  - rewrite Hc, Hs. cbn. by rewrite <- !app_assoc.
Qed.

(** The outcome a stream completes with: its status is the one it was opened with. *)
Definition stream_outcome (o : Metrics.outcome) (c : StreamCompletion) : Metrics.outcome :=
  match o with Metrics.Succeeded _ => Metrics.Succeeded (Metrics.status (stream_base c)) | _ => o end.

Lemma complete_stream_emitted o now c s c' s' : stream_ok c -> complete_stream otel o now c s = (c', s') ->
  stream_ok c' /\ open_span c' = None /\ stream_span c' = None /\
  match open_span c with
  | Some id => exists latency, emitted s' = emitted s ++ tally (stream_outcome o c) latency ++ closing id (stream_outcome o c)
  | None => emitted s' = emitted s
  end.
Proof.
  unfold stream_ok, open_span. intros Hc He.
  assert (complete_with (match o with Metrics.Succeeded _ => record_request_completed_success otel (Metrics.status (stream_base c))
                        | Metrics.Failed error => record_request_completed_error otel error
                        | Metrics.Canceled => record_request_completed_canceled otel end)
    (match o with Metrics.Succeeded _ => fun span => finish_request_span_success span (Metrics.status (stream_base c))
     | Metrics.Failed error => fun span => finish_request_span_error span error
     | Metrics.Canceled => finish_request_span_canceled end) now c s = (c', s')) as He' by (by destruct o).
  clear He. unfold complete_with in He'. destruct (Metrics.in_flight_guard (stream_base c)) as [g|] eqn:Hg.
  - destruct Hc as (id & Hc). injection He' as <- <-. rewrite Hc. split_and!; [done..|].
    eexists. destruct o; cbn -[fmap error_span_attributes]; by rewrite <- !app_assoc.
  - injection He' as <- <-. rewrite Hg, Hc. done.
Qed.

Lemma omap_middle {A} (f : A -> option nat) l1 x l2 id : f x = Some id -> omap f (l1 ++ x :: l2) = omap f l1 ++ id :: omap f l2.
Proof. intros Hx. rewrite omap_app. cbn. by rewrite Hx. Qed.
Lemma omap_middle_None {A} (f : A -> option nat) l1 x l2 : f x = None -> omap f (l1 ++ x :: l2) = omap f (l1 ++ l2).
Proof. intros Hx. rewrite !omap_app. cbn. by rewrite Hx. Qed.

Lemma Forall_middle {A} (P : A -> Prop) l1 x l2 : Forall P (l1 ++ x :: l2) <-> P x /\ Forall P (l1 ++ l2).
Proof. rewrite !Forall_app, Forall_cons. naive_solver. Qed.

(** A stream completes, in place. *)
Lemma complete_stream_ok s ps cs1 c cs2 o now c' s' :
  complete_stream otel o now c s = (c', s') -> world_ok {| ledger := s; pending := ps; streams := cs1 ++ c :: cs2 |} ->
  stream_span c' = None /\ Forall stream_ok (cs1 ++ cs2) /\ stream_ok c' /\
  spans_ok (emitted s') (omap pending_span ps ++ omap open_span (cs1 ++ cs2)).
Proof.
  intros He [Hp Hc Hs]. cbn in *. apply Forall_middle in Hc as [Hc Hcs].
  destruct (complete_stream_emitted _ _ _ _ _ _ Hc He) as (Hc' & Hid & Hsp & Hem). split_and!; [done..|].
  unfold held_spans in Hs. cbn in Hs. destruct (open_span c) as [id|] eqn:Hopen.
  - destruct Hem as (latency & ->). rewrite (omap_middle _ _ _ _ id), app_assoc in Hs by done.
    rewrite omap_app, (app_assoc (omap pending_span ps)). by apply spans_ok_close.
  - rewrite Hem. by rewrite omap_middle_None in Hs.
Qed.

Lemma world_step_ok w w' : step otel w w' -> world_ok w -> world_ok w'.
Proof.
  destruct 1 as [s ps cs method uri stream now p s' He|s ps cs|s ps1 p ps2 cs o now|s ps1 p ps2 cs status now c s' He
    |s ps cs1 c cs2 o now c' s' He|s ps cs1 c cs2 now]; intros Hok.
  - destruct Hok as [Hp Hc Hs]. cbn in *. unfold pending_request in He. cbn -[fmap request_span_attributes next_span] in He.
    destruct (Metrics.enter_in_flight _) as [guard m]. injection He as <- <-. split; cbn -[fmap request_span_attributes next_span]; [|done|].
    + constructor; [|done]. split; [done|by eexists].
    + rewrite <- !app_assoc. by apply (spans_ok_open _ _ method uri stream).
  - destruct Hok as [Hp Hc Hs]. split; cbn in *; [done|done|]. by apply spans_ok_retry.
  - destruct Hok as [Hp Hc Hs]. cbn in *. apply Forall_middle in Hp as [[Hcomp (id & Hid)] Hp]. split; cbn; [done|done|].
    rewrite (finish_pending_emitted _ _ _ _ id) by done. unfold held_spans in *. cbn in *.
    rewrite (omap_middle _ _ _ _ id) in Hs by (unfold pending_span; by rewrite Hid).
    rewrite omap_app, <- app_assoc. rewrite <- app_assoc in Hs. by apply spans_ok_close.
  - destruct Hok as [Hp Hc Hs]. cbn in *. apply Forall_middle in Hp as [[Hcomp (id & Hid)] Hp].
    injection He as <- <-. split; cbn; [done| |].
    + constructor; [|done]. by exists id.
    + unfold held_spans in *. cbn in *. rewrite (omap_middle _ _ _ _ id) in Hs by (unfold pending_span; by rewrite Hid).
      unfold open_span at 1. cbn. rewrite Hid. cbn. eapply spans_ok_perm; [|exact Hs]. rewrite omap_app. solve_Permutation.
  - destruct (complete_stream_ok _ _ _ _ _ _ _ _ _ He Hok) as (Hsp & Hcs & Hc' & Hs). destruct Hok as [Hp _ _].
    split; cbn in *; [done|by apply Forall_middle|]. unfold held_spans. cbn.
    rewrite omap_middle_None; [done|]. unfold open_span. by rewrite Hsp.
  - unfold drop_stream_completion. destruct (stream_complete_canceled otel now c s) as [c' s'] eqn:He.
    destruct (complete_stream_ok _ _ _ _ _ Metrics.Canceled _ _ _ He Hok) as (Hsp & Hcs & Hc' & Hs). destruct Hok as [Hp _ _].
    split; cbn in *; [done|done|]. by rewrite Hsp.
Qed.

Lemma world_ok_reachable enabled w : rtc (step otel) (initial enabled) w -> world_ok w.
Proof.
  apply (rtc_invariant (step otel) world_ok).
  - split; [constructor|constructor|apply spans_ok_nil].
  - intros a b Hab Ha. by eapply world_step_ok.
Qed.

(** ** The two sets of counters *)
Record agrees (i : Metrics.ClientMetricsInner) log : Prop := {
  ag_started : Metrics.atomics i Metrics.requests_started = Z.min u64_max (adds "reqx.request.started" log);
  ag_succeeded : Metrics.atomics i Metrics.requests_succeeded = Z.min u64_max (adds "reqx.request.succeeded" log);
  ag_failed : Metrics.atomics i Metrics.requests_failed = Z.min u64_max (adds "reqx.request.failed" log);
  ag_canceled : Metrics.atomics i Metrics.requests_canceled = Z.min u64_max (adds "reqx.request.canceled" log);
  ag_retries : Metrics.atomics i Metrics.retries = Z.min u64_max (adds "reqx.request.retries" log);
  ag_samples : Metrics.atomics i Metrics.latency_samples = Z.min u64_max (samples log);
}.

Definition settled (o : Metrics.outcome) (c : Metrics.counter) : Z :=
  match c, o with
  | Metrics.requests_succeeded, Metrics.Succeeded _ | Metrics.requests_failed, Metrics.Failed _
  | Metrics.requests_canceled, Metrics.Canceled | Metrics.latency_samples, _ => 1
  | _, _ => 0
  end.

Definition compared (c : Metrics.counter) : bool :=
  match c with
  | Metrics.requests_started | Metrics.requests_succeeded | Metrics.requests_failed | Metrics.requests_canceled
  | Metrics.retries | Metrics.latency_samples => true
  | _ => false
  end.

(** The counters after an outcome, whatever guard drops after it. *)
Lemma recorded_atomics o d g i : exists i',
  Metrics.drop_in_flight g (Metrics.recorded o d (Some i)) = Some i' /\
  forall c, compared c = true -> 0 <= Metrics.atomics i c <= u64_max ->
    Metrics.atomics i' c = Z.min u64_max (Metrics.atomics i c + settled o c).
Proof.
  destruct g as [[]]; destruct o as [st|error|]; cbn [Metrics.recorded];
    try (destruct error as [| | | | | | | | | | | | | | | | | | | | phase| | | | | | | | | | | | | | | | | | | | |]; try destruct phase);
    (eexists; split; [reflexivity|]; intros c Hc Hb; destruct c; try discriminate Hc; cbn in *; unfold sat_add; lia).
Qed.

Lemma agrees_outcome o d g i log latency id : agrees i log -> exists i',
  Metrics.drop_in_flight g (Metrics.recorded o d (Some i)) = Some i' /\
  agrees i' (log ++ tally o latency ++ closing id o).
Proof.
  intros [A1 A2 A3 A4 A5 A6]. destruct (recorded_atomics o d g i) as (i' & Hi & Ha). exists i'. split; [done|].
  assert (forall f : Emission -> bool, 0 <= Z.min u64_max (countb f log) <= u64_max) as Hr
    by (intros f; pose proof (countb_nonneg f log); unfold u64_max; lia).
  split; (rewrite Ha by (first [done | rewrite ?A1, ?A2, ?A3, ?A4, ?A5, ?A6; apply Hr]));
    rewrite ?A1, ?A2, ?A3, ?A4, ?A5, ?A6; destruct o; unfold tally, closing, sample; cbn [settled]; counts;
    match goal with |- context [countb ?f log] => pose proof (countb_nonneg f log) end; lia.
Qed.

Definition agree (s : state) : Prop := exists i, counters s = Some i /\ agrees i (emitted s).

Lemma finish_agree o now p s : pending_ok p -> agree s -> agree (finish_pending otel o now p s).
Proof.
  intros [Hc (id & Hid)] (i & Hi & Ha). unfold agree. rewrite finish_pending_counters, (finish_pending_emitted _ _ _ _ id), Hi by done.
  rewrite Metrics.finish_pending_eq by done. by apply agrees_outcome.
Qed.

Lemma complete_stream_agree o now c s c' s' : stream_ok c -> complete_stream otel o now c s = (c', s') -> agree s -> agree s'.
Proof.
  intros Hc He (i & Hi & Ha). unfold agree.
  destruct (complete_stream_emitted _ _ _ _ _ _ Hc He) as (_ & _ & _ & Hem).
  pose proof (complete_stream_counters _ _ _ _ _ _ _ He) as Hm. rewrite Hi, Metrics.complete_stream_eq in Hm.
  change (match o with Metrics.Succeeded _ => _ | _ => _ end) with (stream_outcome o c) in Hm.
  unfold Metrics.complete_with in Hm. unfold stream_ok in Hc.
  destruct (Metrics.in_flight_guard (stream_base c)) as [g|] eqn:Hg.
  - destruct Hc as (id & Hid). unfold open_span in Hem. rewrite Hid in Hem. destruct Hem as (latency & ->).
    injection Hm as _ <-. by apply agrees_outcome.
  - unfold open_span in Hem. rewrite Hc in Hem. cbn in Hem. injection Hm as _ <-. exists i. by rewrite Hem.
Qed.

Lemma start_agree method uri stream now s p s' :
  pending_request otel method uri stream now s = (p, s') -> agree s -> agree s'.
Proof.
  intros He (i & Hi & [A1 A2 A3 A4 A5 A6]). unfold pending_request in He.
  cbn -[fmap request_span_attributes next_span] in He. rewrite Hi in He.
  cbn -[fmap request_span_attributes next_span] in He. injection He as <- <-.
  eexists. split; [reflexivity|]. cbn -[fmap request_span_attributes next_span].
  split; cbn -[fmap request_span_attributes next_span sat_add]; rewrite ?A1, ?A2, ?A3, ?A4, ?A5, ?A6; unfold sat_add; counts;
    match goal with |- context [countb ?f (emitted s)] => pose proof (countb_nonneg f (emitted s)) end; lia.
Qed.

Lemma retry_agree s : agree s -> agree (record_retry otel s).
Proof.
  intros (i & Hi & [A1 A2 A3 A4 A5 A6]). unfold agree, record_retry, both. cbn. rewrite Hi. eexists. split; [reflexivity|].
  split; cbn -[sat_add]; rewrite ?A1, ?A2, ?A3, ?A4, ?A5, ?A6; unfold sat_add; counts;
    match goal with |- context [countb ?f (emitted s)] => pose proof (countb_nonneg f (emitted s)) end; lia.
Qed.

Lemma step_agree w w' : step otel w w' -> world_ok w -> agree (ledger w) -> agree (ledger w').
Proof.
  destruct 1 as [s ps cs method uri stream now p s' He|s ps cs|s ps1 p ps2 cs o now|s ps1 p ps2 cs status now c s' He
    |s ps cs1 c cs2 o now c' s' He|s ps cs1 c cs2 now]; intros [Hp Hc _] Ha; cbn [pending streams ledger] in *.
  - by eapply start_agree.
  - by apply retry_agree.
  - apply Forall_middle in Hp as [Hp _]. by apply finish_agree.
  - injection He as <- <-. exact Ha.
  - apply Forall_middle in Hc as [Hc _]. by eapply complete_stream_agree.
  - apply Forall_middle in Hc as [Hc _]. unfold drop_stream_completion.
    destruct (stream_complete_canceled otel now c s) as [c' s'] eqn:He.
    destruct (complete_stream_emitted Metrics.Canceled _ _ _ _ _ Hc He) as (_ & _ & Hsp & _).
    apply (complete_stream_agree Metrics.Canceled _ _ _ _ _ Hc He) in Ha. unfold both. by rewrite Hsp; destruct s'.
Qed.

Lemma agree_reachable w : rtc (step otel) (initial true) w -> agree (ledger w).
Proof.
  intros Hr. apply (rtc_invariant (step otel) (fun w => world_ok w /\ agree (ledger w)) (initial true) w); [|intros a b Hab [Hok Hag]|done].
  - split; [by apply (world_ok_reachable true)|]. by exists Metrics.inner_default.
  - split; [by eapply world_step_ok|by eapply step_agree].
Qed.

Lemma held_unfinished w : world_ok w -> Z.of_nat (length (held_spans w)) = Metrics.unfinished (silent w).
Proof.
  intros [Hp Hc _]. unfold held_spans, Metrics.unfinished, silent. cbn. rewrite length_app, length_fmap, Nat2Z.inj_add. f_equal.
  - f_equal. induction Hp as [|p ps [_ (id & Hid)] _ IH]; [done|]. cbn. unfold pending_span at 1. rewrite Hid. cbn. by rewrite IH.
  - induction Hc as [|c cs Hc _ IH]; [done|]. cbn [fmap list_fmap]. rewrite countb_cons, <- IH. cbn. unfold open_span at 1, Metrics.open_stream.
    unfold stream_ok in Hc. destruct (Metrics.in_flight_guard (stream_base c)); [destruct Hc as (id & ->)|rewrite Hc]; cbn; lia.
Qed.

End Spans.

(** ** Disabled telemetry says nothing *)
Section Disabled.
Context `{Http}.

Definition spanless (o : option OtelRequestSpan) : Prop := match o with Some s => span s = None | None => True end.

Record quiet (w : world) : Prop := {
  quiet_pending : Forall (fun p => spanless (request_span p)) (pending w);
  quiet_streams : Forall (fun c => spanless (stream_span c)) (streams w);
  quiet_log : emitted (ledger w) = [];
}.

Lemma finish_pending_quiet o now p s : spanless (request_span p) ->
  emitted (finish_pending disabled o now p s) = emitted s.
Proof.
  destruct p as [b [[[id|]]|]]; intros Hs; try discriminate Hs; destruct o; try done;
    cbn; unfold drop_pending; cbn; by destruct (Metrics.completed b).
Qed.

Lemma complete_stream_quiet o now c s c' s' : spanless (stream_span c) -> complete_stream disabled o now c s = (c', s') ->
  spanless (stream_span c') /\ emitted s' = emitted s.
Proof.
  destruct c as [b [[[id|]]|]]; intros Hs; try discriminate Hs; destruct o; cbn;
    unfold stream_complete_success, stream_complete_error, stream_complete_canceled, complete_with; cbn;
    destruct (Metrics.in_flight_guard b); by intros [= <- <-].
Qed.

Lemma drop_span_spanless o log : spanless o -> drop_span o log = log.
Proof. by destruct o as [[[id|]]|]. Qed.

Lemma quiet_step w w' : step disabled w w' -> quiet w -> quiet w'.
Proof.
  destruct 1 as [s ps cs method uri stream now p s' He|s ps cs|s ps1 p ps2 cs o now|s ps1 p ps2 cs status now c s' He
    |s ps cs1 c cs2 o now c' s' He|s ps cs1 c cs2 now]; intros [Hp Hc Hl]; cbn [pending streams ledger] in *.
  - unfold pending_request in He. cbn in He. destruct (Metrics.enter_in_flight _). injection He as <- <-. split; cbn; [|done|done].
    apply Forall_cons. done.
  - done.
  - apply Forall_middle in Hp as [Hp Hps]. split; cbn; [done|done|]. by rewrite finish_pending_quiet.
  - apply Forall_middle in Hp as [Hp Hps]. injection He as <- <-. split; cbn; [done|by apply Forall_cons|done].
  - apply Forall_middle in Hc as [Hc Hcs]. destruct (complete_stream_quiet _ _ _ _ _ _ Hc He) as [Hc' Hl'].
    split; cbn; [done|by apply Forall_middle|by rewrite Hl'].
  - apply Forall_middle in Hc as [Hc Hcs]. unfold drop_stream_completion.
    destruct (stream_complete_canceled disabled now c s) as [c' s'] eqn:He.
    destruct (complete_stream_quiet Metrics.Canceled _ _ _ _ _ Hc He) as [Hc' Hl'].
    split; cbn; [done|done|]. by rewrite drop_span_spanless, Hl'.
Qed.

Lemma quiet_reachable enabled w : rtc (step disabled) (initial enabled) w -> quiet w.
Proof. apply rtc_invariant; [by split|]. intros a b Hab Ha. by eapply quiet_step. Qed.

End Disabled.

End Accounting.

(** ** Properties *)
Section Properties.
Context `{Http}.
Import Otel Accounting.


End Properties.

(** ** Witnesses

    A client whose name and path normalizer are the ones the builder gives it. *)
Module OtelDemo.
Import Otel Accounting.
#[export] Existing Instance ref_http.

Definition inner : OtelInner := {| client_name := lit "sdk"; path_normalizer := Extensions.normalize_path |}.
Definition otel : OtelTelemetry := {| otel_inner := Some inner |}.
Definition target : str := lit "https://api.example.com/v1/orders/123?token=secret".

End OtelDemo.

