(* ===== verification/Interleaving.v ===== *)
(** * Accounting under threads (core/metrics.rs, core/otel.rs)

    [Metrics] and [Otel] give each operation of the accounting as one function.  The
    client shares its counters between threads: an operation is a sequence of updates
    of single atomics, of maps under their mutexes, and of calls into OpenTelemetry,
    and those of other operations come in between.  Here an operation is the list of
    its actions, in the order of the source, a thread performs one action at a time,
    and a snapshot loads one cell at a time.  That the actions of an operation, one
    after the other, are the function of [Otel] is proved first; then every run of the
    threads is simulated by a run in which each operation happens at once, when it is
    called.  The properties are in [InterleavingTheorems].

    A load sees the latest update of its atomic.  The atomics are [Relaxed], and what
    the memory model lets a load miss of another thread's updates is not modelled. *)
From Stdlib Require Import Ascii String.
From S2P Require Import Prelude Float64 Text HttpApi UriText Errors Redaction UriResolve Extensions Metrics Otel.

Module Interleaved.
Import Otel.

(** ** Actions *)
Inductive action :=
| Add (c : Metrics.counter) (delta : Z)
| Sub (c : Metrics.counter) (delta : Z)
| CountStatus (status : Z)
| CountErrorCode (code : ErrorCode.t)
| CountTimeoutPhase (phase : TimeoutPhase.t)
| CountTransportErrorKind (kind : TransportErrorKind.t)
| CountHttpStatusError (status : Z)
| Emit (e : Emission).

(** The counters' part of an action; without counters there is nothing to do. *)
Definition count (a : action) (m : Metrics.ClientMetrics) : Metrics.ClientMetrics :=
  match a with
  | Add c delta => Metrics.atomic_saturating_add c delta m
  | Sub c delta => Metrics.atomic_saturating_sub c delta m
  | CountStatus status => Metrics.add_status_count status m
  | CountErrorCode code => Metrics.add_error_code_count code m
  | CountTimeoutPhase phase => Metrics.add_timeout_phase_count phase m
  | CountTransportErrorKind kind => Metrics.add_transport_error_kind_count kind m
  | CountHttpStatusError status => Metrics.add_http_status_error_count status m
  | Emit _ => m
  end.

Definition emission (a : action) : option Emission := match a with Emit e => Some e | _ => None end.
Definition emissions (l : list action) : list Emission := omap emission l.

Definition perform (a : action) (s : Accounting.state) : Accounting.state :=
  {| Accounting.counters := count a (Accounting.counters s);
     Accounting.emitted := Accounting.emitted s ++ option_list (emission a) |}.

Definition perform_all (l : list action) (s : Accounting.state) : Accounting.state :=
  fold_left (fun s a => perform a s) l s.

Definition counted (l : list action) (m : Metrics.ClientMetrics) : Metrics.ClientMetrics :=
  fold_left (fun m a => count a m) l m.

(** The calls into OpenTelemetry that a function of [Otel] makes. *)
Definition says (f : list Emission -> list Emission) : list action := Emit <$> f [].

Lemma emissions_app l1 l2 : emissions (l1 ++ l2) = emissions l1 ++ emissions l2.
Proof. apply omap_app. Qed.

Lemma perform_all_eq l s :
  perform_all l s =
  {| Accounting.counters := counted l (Accounting.counters s);
     Accounting.emitted := Accounting.emitted s ++ emissions l |}.
Proof.
  revert s. induction l as [|a l IH]; intros s; simpl; [destruct s; by rewrite app_nil_r|]. rewrite IH. simpl. f_equal.
  rewrite <- app_assoc. f_equal. by destruct (emission a).
Qed.

Lemma counted_app l1 l2 m : counted (l1 ++ l2) m = counted l2 (counted l1 m).
Proof. apply fold_left_app. Qed.

Lemma says_emissions f : emissions (says f) = f [].
Proof. unfold says, emissions. induction (f []) as [|e l IH]; simpl; [done|]. f_equal. exact IH. Qed.

Lemma says_counted f m : counted (says f) m = m.
Proof. unfold says. induction (f []) as [|e l IH]; simpl; [done|]. exact IH. Qed.

Lemma emit_emissions l : emissions (Emit <$> l) = l.
Proof. exact (says_emissions (fun _ => l)). Qed.
Lemma emit_counted l m : counted (Emit <$> l) m = m.
Proof. exact (says_counted (fun _ => l) m). Qed.

Create Rewrite HintDb says.
#[local] Hint Rewrite emissions_app says_emissions emit_emissions : says.
#[local] Hint Rewrite counted_app says_counted emit_counted : says.

Section Operations.
Context `{Http}.
Variable otel : OtelTelemetry.

Definition started_actions : list action :=
  [Add Metrics.requests_started 1] ++ says (Otel.record_request_started otel).

Definition retry_actions : list action := [Add Metrics.retries 1] ++ says (Otel.record_retry otel).

Definition latency_actions (latency : Duration) : list action :=
  says (Otel.record_request_latency otel latency) ++
  [Add Metrics.latency_samples 1; Add Metrics.latency_total_ms (Z.min (duration_as_millis latency) u64_max)].

Definition success_actions (status : Z) (latency : Duration) : list action :=
  [Add Metrics.requests_succeeded 1; CountStatus status] ++ says (Otel.record_request_succeeded otel status) ++
  latency_actions latency.

Definition error_kind_actions (error : Error.t) : list action :=
  match error with
  | Error.Timeout phase _ _ _ =>
    [Add match phase with
         | TimeoutPhase.Transport => Metrics.timeout_transport
         | TimeoutPhase.ResponseBody => Metrics.timeout_response_body
         end 1; CountTimeoutPhase phase]
  | Error.DeadlineExceeded _ _ _ => [Add Metrics.deadline_exceeded 1]
  | Error.Transport kind _ _ _ _ => [Add Metrics.transport_errors 1; CountTransportErrorKind kind]
  | Error.ReadBody _ => [Add Metrics.read_body_errors 1]
  | Error.WriteBody _ _ _ => [Add Metrics.write_body_errors 1]
  | Error.ResponseBodyTooLarge _ _ _ _ => [Add Metrics.response_body_too_large 1]
  | Error.HttpStatus status _ _ _ _ =>
    [Add Metrics.http_status_errors 1; CountStatus status; CountHttpStatusError status]
  | _ => []
  end.

Definition error_actions (error : Error.t) (latency : Duration) : list action :=
  [Add Metrics.requests_failed 1] ++ latency_actions latency ++ says (Otel.record_request_failed otel error) ++
  [CountErrorCode (Error.code error)] ++ error_kind_actions error.

Definition canceled_actions (latency : Duration) : list action :=
  [Add Metrics.requests_canceled 1] ++ latency_actions latency ++ says (Otel.record_request_canceled otel).

Definition outcome_actions (o : Metrics.outcome) : Duration -> list action :=
  match o with
  | Metrics.Succeeded status => success_actions status
  | Metrics.Failed error => error_actions error
  | Metrics.Canceled => canceled_actions
  end.

Definition span_actions (o : Metrics.outcome) (request_span : option OtelRequestSpan) : list action :=
  match request_span with
  | None => []
  | Some span =>
    says match o with
         | Metrics.Succeeded status => finish_request_span_success span status
         | Metrics.Failed error => finish_request_span_error span error
         | Metrics.Canceled => finish_request_span_canceled span
         end
  end.

Definition guard_actions (guard : Metrics.InFlightGuard) : list action :=
  if Metrics.guard_is_live guard then [Sub Metrics.in_flight 1] else [].

(** [pending_request]: the span, whose number is [id], the counters, the guard. *)
Definition start_actions (id : nat) (enabled : bool) (method : Method) (uri : str) (stream : bool) : list action :=
  match otel_inner otel with
  | None => []
  | Some inner =>
    Emit <$> (SpanStart id (if stream then "reqx.http.request.stream" else "reqx.http.request")%string ::
      (SpanAttribute id <$> request_span_attributes (client_name inner) (path_normalizer inner) method uri))
  end ++ started_actions ++ (if enabled then [Add Metrics.in_flight 1] else []).

(** [complete_success], [complete_error], or the drop of a request that did not
    complete ([Drop] does nothing for one that did), with the drops of its fields. *)
Definition finish_actions (o : Metrics.outcome) (now : Instant) (p : Accounting.PendingRequest) : list action :=
  let latency := saturating_duration_since now (Metrics.request_started_at (Accounting.base p)) in
  let already := match o with Metrics.Canceled => Metrics.completed (Accounting.base p) | _ => false end in
  (if already then says (drop_span (Accounting.request_span p))
   else outcome_actions o latency ++ span_actions o (Accounting.request_span p)) ++
  guard_actions (Metrics.pending_in_flight (Accounting.base p)).

(** The completions of a stream, and its drop. *)
Definition complete_actions (o : Metrics.outcome) (now : Instant) (c : Accounting.StreamCompletion) : list action :=
  match Metrics.in_flight_guard (Accounting.stream_base c) with
  | None => []
  | Some guard =>
    let latency := saturating_duration_since now (Metrics.stream_started_at (Accounting.stream_base c)) in
    let o := match o with
             | Metrics.Succeeded _ => Metrics.Succeeded (Metrics.status (Accounting.stream_base c)) | _ => o end in
    outcome_actions o latency ++ span_actions o (Accounting.stream_span c) ++ guard_actions guard
  end.

Definition completed_stream (c : Accounting.StreamCompletion) : Accounting.StreamCompletion :=
  match Metrics.in_flight_guard (Accounting.stream_base c) with
  | None => c
  | Some _ => {| Accounting.stream_base := Metrics.take_guard (Accounting.stream_base c); Accounting.stream_span := None |}
  end.

Definition drop_stream_actions (now : Instant) (c : Accounting.StreamCompletion) : list action :=
  complete_actions Metrics.Canceled now c ++ says (drop_span (Accounting.stream_span (completed_stream c))).

(** ** One after the other, the actions are the operation *)
Lemma error_kind_emissions error : emissions (error_kind_actions error) = [].
Proof. by destruct error. Qed.

(** What the functions of [Otel] append. *)
Lemma outcome_emitted o latency log :
  match o with
  | Metrics.Succeeded status => Otel.record_request_latency otel latency (Otel.record_request_succeeded otel status log)
  | Metrics.Failed error => Otel.record_request_failed otel error (Otel.record_request_latency otel latency log)
  | Metrics.Canceled => Otel.record_request_canceled otel (Otel.record_request_latency otel latency log)
  end = log ++ emissions (outcome_actions o latency).
Proof.
  destruct o; unfold outcome_actions, success_actions, error_actions, canceled_actions, latency_actions;
    autorewrite with says; rewrite ?error_kind_emissions;
    unfold Otel.record_request_latency, Otel.record_request_succeeded, Otel.record_request_failed,
    Otel.record_request_canceled; destruct (otel_inner otel); simpl; by rewrite ?app_nil_r, <- ?app_assoc.
Qed.

Lemma outcome_counted o latency m : counted (outcome_actions o latency) m = Metrics.recorded o latency m.
Proof.
  destruct o as [status|error|]; unfold outcome_actions, success_actions, error_actions, canceled_actions, latency_actions;
    autorewrite with says; try done.
  simpl. destruct error as [| | | | | | | | | | | | | | | | | | | | phase| | | | | | | | | | | | | | | | | | | | |];
    try destruct phase; done.
Qed.

Lemma span_emitted o sp log :
  match o with
  | Metrics.Succeeded status => finish_request_span_success sp status log
  | Metrics.Failed error => finish_request_span_error sp error log
  | Metrics.Canceled => finish_request_span_canceled sp log
  end = log ++ emissions (span_actions o (Some sp)).
Proof.
  unfold span_actions. rewrite says_emissions. destruct sp as [[id|]]; destruct o; simpl; by rewrite ?app_nil_r.
Qed.

Lemma span_counted o sp m : counted (span_actions o sp) m = m.
Proof. destruct sp as [sp|]; [|done]. apply says_counted. Qed.

Lemma guard_counted g m : counted (guard_actions g) m = Metrics.drop_in_flight g m.
Proof. unfold guard_actions, Metrics.drop_in_flight. by destruct (Metrics.guard_is_live g). Qed.
Lemma guard_emissions g : emissions (guard_actions g) = [].
Proof. unfold guard_actions. by destruct (Metrics.guard_is_live g). Qed.

Lemma drop_span_emitted sp log : drop_span sp log = log ++ emissions (says (drop_span sp)).
Proof. rewrite says_emissions. destruct sp as [[[id|]]|]; simpl; by rewrite ?app_nil_r. Qed.

#[local] Hint Rewrite outcome_counted span_counted guard_counted guard_emissions app_nil_r : says.

(** Two states are equal when their counters and their logs are. *)
Lemma state_eq s m log : Accounting.counters s = m -> Accounting.emitted s = log ->
  {| Accounting.counters := m; Accounting.emitted := log |} = s.
Proof. by intros <- <-; destruct s. Qed.

Lemma finish_span_emitted o sp log :
  match sp with
  | Some span =>
    match o with
    | Metrics.Succeeded status => finish_request_span_success span status log
    | Metrics.Failed error => finish_request_span_error span error log
    | Metrics.Canceled => finish_request_span_canceled span log
    end
  | None => log
  end = log ++ emissions (span_actions o sp).
Proof. destruct sp as [sp|]; [apply span_emitted|by rewrite app_nil_r]. Qed.

Lemma finish_actions_run o now p s :
  perform_all (finish_actions o now p) s = Accounting.finish_pending otel o now p s.
Proof.
  rewrite perform_all_eq. apply state_eq.
  - rewrite Accounting.finish_pending_counters. unfold finish_actions.
    destruct o; cbn [Metrics.finish_pending]; unfold Metrics.drop_pending;
      [..|destruct (Metrics.completed (Accounting.base p))]; by autorewrite with says.
  - unfold finish_actions. destruct o as [status|error|]; [..|unfold Accounting.finish_pending, Accounting.drop_pending;
      destruct (Metrics.completed (Accounting.base p))]; autorewrite with says;
      [..|cbn -[drop_span]; by rewrite drop_span_emitted, says_emissions|];
      rewrite app_assoc, <- outcome_emitted, <- finish_span_emitted; by destruct p as [b [sp|]].
Qed.

Lemma complete_actions_run o now c s :
  Accounting.complete_stream otel o now c s = (completed_stream c, perform_all (complete_actions o now c) s).
Proof.
  rewrite perform_all_eq. unfold complete_actions, completed_stream.
  destruct o; cbn [Accounting.complete_stream]; unfold Accounting.stream_complete_success, Accounting.stream_complete_error,
    Accounting.stream_complete_canceled, Accounting.complete_with;
    destruct (Metrics.in_flight_guard (Accounting.stream_base c)); try (by destruct s; simpl; rewrite app_nil_r);
    (f_equal; symmetry; apply state_eq; [by autorewrite with says|]);
    autorewrite with says; rewrite app_assoc, <- outcome_emitted, <- finish_span_emitted; by destruct c as [b [sp|]].
Qed.

Lemma drop_stream_actions_run now c s :
  perform_all (drop_stream_actions now c) s = Accounting.drop_stream_completion otel now c s.
Proof.
  unfold drop_stream_actions, Accounting.drop_stream_completion.
  pose proof (complete_actions_run Metrics.Canceled now c s) as Hc. cbn [Accounting.complete_stream] in Hc. rewrite Hc.
  unfold perform_all. rewrite fold_left_app. fold (perform_all (complete_actions Metrics.Canceled now c) s).
  fold (perform_all (says (drop_span (Accounting.stream_span (completed_stream c)))) (perform_all (complete_actions Metrics.Canceled now c) s)).
  rewrite (perform_all_eq (says _)). apply state_eq; cbn -[perform_all emissions drop_span]; [by rewrite says_counted|].
  by rewrite drop_span_emitted.
Qed.

Lemma retry_actions_run s : perform_all retry_actions s = Accounting.record_retry otel s.
Proof.
  rewrite perform_all_eq. apply state_eq; unfold retry_actions; autorewrite with says; [done|].
  cbn. unfold Otel.record_retry. destruct (otel_inner otel); by rewrite ?app_nil_r.
Qed.

(** The handle that [pending_request] returns. *)
Definition new_request (id : nat) (enabled : bool) (now : Instant) : Accounting.PendingRequest :=
  {| Accounting.base := {| Metrics.request_started_at := now;
                           Metrics.pending_in_flight := {| Metrics.guard_is_live := enabled |}; Metrics.completed := false |};
     Accounting.request_span := Some {| span := match otel_inner otel with Some _ => Some id | None => None end |} |}.

Lemma start_actions_run method uri stream now s :
  Accounting.pending_request otel method uri stream now s =
  (new_request (next_span (Accounting.emitted s)) (is_some (Accounting.counters s)) now,
   perform_all (start_actions (next_span (Accounting.emitted s)) (is_some (Accounting.counters s)) method uri stream) s).
Proof.
  rewrite perform_all_eq. unfold Accounting.pending_request, start_actions, started_actions, new_request, start_request_span,
    Accounting.record_request_started, Accounting.both, Otel.record_request_started.
  destruct (otel_inner otel) as [inner|], s as [[i|] log]; cbn -[next_span request_span_attributes emissions counted fmap];
    autorewrite with says; cbn -[next_span request_span_attributes fmap]; by rewrite <- ?app_assoc, ?app_nil_r.
Qed.

End Operations.

(** ** Threads *)

(** What a call hands to its caller when it returns. *)
Inductive handle :=
| Nothing
| Request (p : Accounting.PendingRequest)
| Stream (c : Accounting.StreamCompletion).

(** A call under way: its actions to come, what it returns, the span it is about. *)
Record call := { rest : list action; gives : handle; call_span : option nat }.

(** The state the threads share, the requests and streams that nobody is calling, and
    the calls under way. *)
Record world := {
  shared : Accounting.state;
  pending : list Accounting.PendingRequest;
  streams : list Accounting.StreamCompletion;
  running : list call;
}.

Definition initial (metrics_enabled : bool) : world :=
  {| shared := Accounting.with_options metrics_enabled; pending := []; streams := []; running := [] |}.

Definition owed (w : world) : list action := concat (rest <$> running w).

Section Threads.
Context `{Http}.
Variable otel : OtelTelemetry.

Definition deliver (h : handle) (w : world) : world :=
  match h with
  | Nothing => w
  | Request p => {| shared := shared w; pending := p :: pending w; streams := streams w; running := running w |}
  | Stream c => {| shared := shared w; pending := pending w; streams := c :: streams w; running := running w |}
  end.

(** A call begins, performs an action, or returns.  A request takes its span's number
    when it begins, so its first action comes with it. *)
Inductive step : world -> world -> Prop :=
| begin_request s ps cs rs method uri stream now a l :
    let id := next_span (Accounting.emitted s) in
    let p := new_request otel id (is_some (Accounting.counters s)) now in
    start_actions otel id (is_some (Accounting.counters s)) method uri stream = a :: l ->
    step {| shared := s; pending := ps; streams := cs; running := rs |}
         {| shared := perform a s; pending := ps; streams := cs;
            running := rs ++ [{| rest := l; gives := Request p; call_span := Accounting.pending_span p |}] |}
| begin_retry s ps cs rs :
    step {| shared := s; pending := ps; streams := cs; running := rs |}
         {| shared := s; pending := ps; streams := cs;
            running := rs ++ [{| rest := retry_actions otel; gives := Nothing; call_span := None |}] |}
| begin_finish s ps1 p ps2 cs rs o now :
    step {| shared := s; pending := ps1 ++ p :: ps2; streams := cs; running := rs |}
         {| shared := s; pending := ps1 ++ ps2; streams := cs;
            running := rs ++ [{| rest := finish_actions otel o now p; gives := Nothing;
                                 call_span := Accounting.pending_span p |}] |}
| begin_into_stream s ps1 p ps2 cs rs status now :
    let c := (Accounting.into_stream otel status now p s).1 in
    step {| shared := s; pending := ps1 ++ p :: ps2; streams := cs; running := rs |}
         {| shared := s; pending := ps1 ++ ps2; streams := cs;
            running := rs ++ [{| rest := []; gives := Stream c; call_span := Accounting.open_span c |}] |}
| begin_complete_stream s ps cs1 c cs2 rs o now :
    step {| shared := s; pending := ps; streams := cs1 ++ c :: cs2; running := rs |}
         {| shared := s; pending := ps; streams := cs1 ++ cs2;
            running := rs ++ [{| rest := complete_actions otel o now c; gives := Stream (completed_stream c);
                                 call_span := Accounting.open_span c |}] |}
| begin_drop_stream s ps cs1 c cs2 rs now :
    step {| shared := s; pending := ps; streams := cs1 ++ c :: cs2; running := rs |}
         {| shared := s; pending := ps; streams := cs1 ++ cs2;
            running := rs ++ [{| rest := drop_stream_actions otel now c; gives := Nothing;
                                 call_span := Accounting.open_span c |}] |}
| one_action s ps cs rs1 a l h sp rs2 :
    step {| shared := s; pending := ps; streams := cs; running := rs1 ++ {| rest := a :: l; gives := h; call_span := sp |} :: rs2 |}
         {| shared := perform a s; pending := ps; streams := cs; running := rs1 ++ {| rest := l; gives := h; call_span := sp |} :: rs2 |}
| call_returns s ps cs rs1 h sp rs2 :
    step {| shared := s; pending := ps; streams := cs; running := rs1 ++ {| rest := []; gives := h; call_span := sp |} :: rs2 |}
         (deliver h {| shared := s; pending := ps; streams := cs; running := rs1 ++ rs2 |}).

(** ** Running the threads *)

(** The [n]-th of a list, with what comes before and after it. *)
Definition pick {T} (n : nat) (l : list T) : option (list T * T * list T) :=
  match drop n l with x :: l2 => Some (take n l, x, l2) | [] => None end.

Lemma pick_eq {T} n (l l1 l2 : list T) x : pick n l = Some (l1, x, l2) -> l = l1 ++ x :: l2.
Proof.
  unfold pick. destruct (drop n l) as [|y l'] eqn:Hd; [done|]. intros [= <- <- <-]. by rewrite <- Hd, take_drop.
Qed.

(** What the scheduler lets happen next; numbers select among the requests, the
    streams and the calls under way. *)
Inductive command :=
| BeginRequest (method : Method) (uri : str) (stream : bool) (now : Instant)
| BeginRetry
| BeginFinish (n : nat) (o : Metrics.outcome) (now : Instant)
| BeginIntoStream (n : nat) (status : Z) (now : Instant)
| BeginCompleteStream (n : nat) (o : Metrics.outcome) (now : Instant)
| BeginDropStream (n : nat) (now : Instant)
| Act (n : nat)
| Return (n : nat).

Definition with_call (w : world) (ps : list Accounting.PendingRequest) (cs : list Accounting.StreamCompletion) (r : call) : world :=
  {| shared := shared w; pending := ps; streams := cs; running := running w ++ [r] |}.

Definition execute (x : command) (w : world) : option world :=
  match x with
  | BeginRequest method uri stream now =>
    let id := next_span (Accounting.emitted (shared w)) in
    let enabled := is_some (Accounting.counters (shared w)) in
    let p := new_request otel id enabled now in
    match start_actions otel id enabled method uri stream with
    | a :: l => Some {| shared := perform a (shared w); pending := pending w; streams := streams w;
        running := running w ++ [{| rest := l; gives := Request p; call_span := Accounting.pending_span p |}] |}
    | [] => None
    end
  | BeginRetry =>
    Some (with_call w (pending w) (streams w) {| rest := retry_actions otel; gives := Nothing; call_span := None |})
  | BeginFinish n o now =>
    '(ps1, p, ps2) ← pick n (pending w);
    Some (with_call w (ps1 ++ ps2) (streams w)
      {| rest := finish_actions otel o now p; gives := Nothing; call_span := Accounting.pending_span p |})
  | BeginIntoStream n status now =>
    '(ps1, p, ps2) ← pick n (pending w);
    let c := (Accounting.into_stream otel status now p (shared w)).1 in
    Some (with_call w (ps1 ++ ps2) (streams w) {| rest := []; gives := Stream c; call_span := Accounting.open_span c |})
  | BeginCompleteStream n o now =>
    '(cs1, c, cs2) ← pick n (streams w);
    Some (with_call w (pending w) (cs1 ++ cs2)
      {| rest := complete_actions otel o now c; gives := Stream (completed_stream c); call_span := Accounting.open_span c |})
  | BeginDropStream n now =>
    '(cs1, c, cs2) ← pick n (streams w);
    Some (with_call w (pending w) (cs1 ++ cs2)
      {| rest := drop_stream_actions otel now c; gives := Nothing; call_span := Accounting.open_span c |})
  | Act n =>
    '(rs1, r, rs2) ← pick n (running w);
    match rest r with
    | a :: l => Some {| shared := perform a (shared w); pending := pending w; streams := streams w;
        running := rs1 ++ {| rest := l; gives := gives r; call_span := call_span r |} :: rs2 |}
    | [] => None
    end
  | Return n =>
    '(rs1, r, rs2) ← pick n (running w);
    match rest r with
    | [] => Some (deliver (gives r) {| shared := shared w; pending := pending w; streams := streams w; running := rs1 ++ rs2 |})
    | _ => None
    end
  end.

Definition execute_all (l : list command) (w : world) : option world :=
  fold_left (fun w x => w ≫= execute x) l (Some w).

Lemma execute_step x w w' : execute x w = Some w' -> step w w'.
Proof.
  destruct w as [s ps cs rs]. destruct x as [method uri stream now| |n o now|n status now|n o now|n now|n|n]; cbn -[start_actions pick];
    repeat match goal with
    | |- context [pick n ?l] => let H := fresh in destruct (pick n l) as [[[? ?] ?]|] eqn:H; cbn -[start_actions]; [apply pick_eq in H; subst|done]
    end; unfold with_call; cbn -[start_actions].
  - destruct (start_actions _ _ _ _ _ _) as [|a l] eqn:Ha; [done|]. intros [= <-]. by eapply begin_request.
  - intros [= <-]. constructor.
  - intros [= <-]. constructor.
  - intros [= <-]. apply (begin_into_stream _ _ _ _ _ _ status now).
  - intros [= <-]. constructor.
  - intros [= <-]. constructor.
  - destruct c as [[|a acts] h sp]; [done|]. intros [= <-]. apply one_action.
  - destruct c as [[|a acts] h sp]; [|done]. intros [= <-]. apply call_returns.
Qed.

Lemma execute_steps l w w' : execute_all l w = Some w' -> rtc step w w'.
Proof.
  unfold execute_all. revert w. induction l as [|x l IH]; cbn; intros w; [by intros [= ->]|].
  destruct (execute x w) as [w1|] eqn:Hx.
  - intros Hl. eapply rtc_l; [by eapply execute_step|by apply IH].
  - assert (forall l, fold_left (fun w x => w ≫= execute x) l None = None) as -> by (intros l1; by induction l1). done.
Qed.

End Threads.

(** ** Snapshots *)

(** What a snapshot loads in one go: an atomic, or a map under its mutex. *)
Inductive cell :=
| Atomic (c : Metrics.counter)
| StatusCounts | ErrorCodeCounts | TimeoutPhaseCounts | TransportErrorKindCounts | HttpStatusErrorCounts.

Definition load (k : cell) (i into : Metrics.ClientMetricsInner) : Metrics.ClientMetricsInner :=
  let cells := (Metrics.status_counts into, Metrics.error_code_counts into, Metrics.timeout_phase_counts into,
                Metrics.transport_error_kind_counts into, Metrics.http_status_error_counts into) in
  let '(statuses, codes, phases, kinds, https) :=
    match k, cells with
    | Atomic _, _ => cells
    | StatusCounts, (_, codes, phases, kinds, https) => (Metrics.status_counts i, codes, phases, kinds, https)
    | ErrorCodeCounts, (statuses, _, phases, kinds, https) => (statuses, Metrics.error_code_counts i, phases, kinds, https)
    | TimeoutPhaseCounts, (statuses, codes, _, kinds, https) => (statuses, codes, Metrics.timeout_phase_counts i, kinds, https)
    | TransportErrorKindCounts, (statuses, codes, phases, _, https) =>
      (statuses, codes, phases, Metrics.transport_error_kind_counts i, https)
    | HttpStatusErrorCounts, (statuses, codes, phases, kinds, _) =>
      (statuses, codes, phases, kinds, Metrics.http_status_error_counts i)
    end in
  {| Metrics.atomics := fun c => match k with
       | Atomic c' => if Metrics.counter_beq c c' then Metrics.atomics i c else Metrics.atomics into c
       | _ => Metrics.atomics into c end;
     Metrics.status_counts := statuses; Metrics.error_code_counts := codes; Metrics.timeout_phase_counts := phases;
     Metrics.transport_error_kind_counts := kinds; Metrics.http_status_error_counts := https |}.

(** The loads of [ClientMetrics::snapshot], in order. *)
Definition snapshot_cells : list cell :=
  (Atomic <$> [Metrics.requests_started; Metrics.requests_succeeded; Metrics.requests_failed; Metrics.requests_canceled;
     Metrics.retries; Metrics.timeout_transport; Metrics.timeout_response_body; Metrics.deadline_exceeded;
     Metrics.transport_errors; Metrics.read_body_errors; Metrics.write_body_errors; Metrics.response_body_too_large;
     Metrics.http_status_errors; Metrics.in_flight; Metrics.latency_samples; Metrics.latency_total_ms]) ++
  [StatusCounts; ErrorCodeCounts; TimeoutPhaseCounts; TransportErrorKindCounts; HttpStatusErrorCounts].

(** The cells are loaded one after the other, between steps of the other threads, [others]. *)
Inductive loads (others : relation world) : list cell -> world -> Metrics.ClientMetricsInner -> world -> Metrics.ClientMetricsInner -> Prop :=
| loads_done w into : loads others [] w into w into
| loads_other cells w w1 into w' loaded :
    others w w1 -> loads others cells w1 into w' loaded -> loads others cells w into w' loaded
| loads_cell k cells w i into w' loaded :
    Accounting.counters (shared w) = Some i -> loads others cells w (load k i into) w' loaded ->
    loads others (k :: cells) w into w' loaded.

(** [ClientMetrics::snapshot] is called in [w] and returns [snap] in [w']. *)
Definition snapshot_taken (others : relation world) (w w' : world) (snap : Metrics.MetricsSnapshot) : Prop :=
  match Accounting.counters (shared w) with
  | None => rtc others w w' /\ snap = Metrics.snapshot_default
  | Some _ => exists loaded, loads others snapshot_cells w Metrics.inner_default w' loaded /\ snap = Metrics.snapshot (Some loaded)
  end.


Lemma countb_perm {T} (f : T -> bool) l l' : l ≡ₚ l' -> countb f l = countb f l'.
Proof. induction 1 as [|x l l' _ IH|x y l|l1 l2 l3 _ IH1 _ IH2]; rewrite ?countb_cons; lia. Qed.

(** ** What an action does to each count *)
Inductive datum :=
| DAtomic (c : Metrics.counter)
| DStatus (status : Z)
| DErrorCode (code : ErrorCode.t)
| DTimeoutPhase (phase : TimeoutPhase.t)
| DTransportErrorKind (kind : TransportErrorKind.t)
| DHttpStatusError (status : Z).

Definition lookup_count `{Countable K} (k : K) (m : gmap K Z) : Z := default 0 (m !! k).

Definition read (d : datum) (i : Metrics.ClientMetricsInner) : Z :=
  match d with
  | DAtomic c => Metrics.atomics i c
  | DStatus k => lookup_count k (Metrics.status_counts i)
  | DErrorCode k => lookup_count k (Metrics.error_code_counts i)
  | DTimeoutPhase k => lookup_count k (Metrics.timeout_phase_counts i)
  | DTransportErrorKind k => lookup_count k (Metrics.transport_error_kind_counts i)
  | DHttpStatusError k => lookup_count k (Metrics.http_status_error_counts i)
  end.

Definition one_if_eq `{EqDecision K} (k k' : K) : Z := if decide (k = k') then 1 else 0.

Definition effect (a : action) (d : datum) : Z :=
  match a, d with
  | Add c n, DAtomic c' => if Metrics.counter_beq c' c then n else 0
  | Sub c n, DAtomic c' => if Metrics.counter_beq c' c then - n else 0
  | CountStatus k, DStatus k' => one_if_eq k k'
  | CountErrorCode k, DErrorCode k' => one_if_eq k k'
  | CountTimeoutPhase k, DTimeoutPhase k' => one_if_eq k k'
  | CountTransportErrorKind k, DTransportErrorKind k' => one_if_eq k k'
  | CountHttpStatusError k, DHttpStatusError k' => one_if_eq k k'
  | _, _ => 0
  end.

Definition owed_to (d : datum) (l : list action) : Z := foldr (fun a n => effect a d + n) 0 l.

Definition in_range (x : Z) : Prop := 0 <= x <= u64_max.
Definition clamp (x : Z) : Z := Z.max 0 (Z.min u64_max x).

(** Every entry of a map was counted at least once. *)
Definition counted_once `{Countable K} (m : gmap K Z) : Prop := map_Forall (fun _ v => 1 <= v) m.
Definition positive (i : Metrics.ClientMetricsInner) : Prop :=
  counted_once (Metrics.status_counts i) /\ counted_once (Metrics.error_code_counts i) /\
  counted_once (Metrics.timeout_phase_counts i) /\ counted_once (Metrics.transport_error_kind_counts i) /\
  counted_once (Metrics.http_status_error_counts i).

Lemma owed_to_app d l1 l2 : owed_to d (l1 ++ l2) = owed_to d l1 + owed_to d l2.
Proof. unfold owed_to. induction l1 as [|a l1 IH]; simpl; [done|]. rewrite IH. lia. Qed.

Lemma lookup_count_bump `{Countable K} (k k' : K) m :
  in_range (lookup_count k' m) -> lookup_count k' (bump k m) = clamp (lookup_count k' m + one_if_eq k k').
Proof.
  unfold lookup_count, bump, in_range, clamp, one_if_eq, sat_add, u64_max. intros Hr. case_decide as Hk.
  - subst. rewrite lookup_insert_eq. simpl. lia.
  - rewrite lookup_insert_ne by done. lia.
Qed.

Lemma counted_once_bump `{Countable K} (k : K) m : counted_once m -> counted_once (bump k m).
Proof.
  intros Hm. apply map_Forall_insert_2; [|done]. unfold sat_add, u64_max.
  destruct (m !! k) as [v|] eqn:Hk; simpl; [|lia]. specialize (Hm k v Hk). simpl in Hm. lia.
Qed.

(** What the actions of this client are: only [in_flight] is ever subtracted from. *)
Definition action_ok (a : action) : Prop :=
  match a with
  | Add c n => 0 <= n /\ (c = Metrics.in_flight -> n = 1)
  | Sub c n => c = Metrics.in_flight /\ n = 1
  | _ => True
  end.

Lemma count_read a i :
  exists i', count a (Some i) = Some i' /\ (positive i -> positive i') /\
    (action_ok a -> forall d, in_range (read d i) -> read d i' = clamp (read d i + effect a d)).
Proof.
  destruct a; (eexists; split; [reflexivity|]; split;
    [unfold positive; simpl; intros (? & ? & ? & ? & ?); split_and!; by try apply counted_once_bump|]);
    intros Ha d Hd; destruct d; simpl in *; try (by apply lookup_count_bump); unfold in_range, clamp, sat_add, sat_sub in *;
    try case_match; lia.
Qed.

(** Maps of counts are equal when every count is. *)
Lemma counted_once_eq `{Countable K} (m m' : gmap K Z) :
  counted_once m -> counted_once m' -> (forall k, lookup_count k m = lookup_count k m') -> m = m'.
Proof.
  intros Hm Hm' Hk. apply map_eq. intros k. specialize (Hk k). unfold lookup_count in Hk.
  destruct (m !! k) as [v|] eqn:Hv, (m' !! k) as [v'|] eqn:Hv'; simpl in Hk; [by subst| | |done].
  - specialize (Hm k v Hv). simpl in Hm. lia.
  - specialize (Hm' k v' Hv'). simpl in Hm'. lia.
Qed.

(** The count only ever goes up. *)
Definition grows (d : datum) : Prop := d <> DAtomic Metrics.in_flight.

Lemma effect_grows a d : action_ok a -> grows d -> 0 <= effect a d.
Proof.
  intros Ha Hd. destruct a as [c n|c n| | | | | |], d as [c'| | | | |]; simpl in *; try done; try (unfold one_if_eq; case_decide; lia).
  - case_match; lia.
  - destruct Ha as [-> ->]. destruct c'; simpl; try lia. by destruct Hd.
Qed.

Lemma owed_grows d l : Forall action_ok l -> grows d -> 0 <= owed_to d l.
Proof.
  intros Hl Hd. induction Hl as [|a l Ha _ IH]; simpl; [done|]. pose proof (effect_grows a d Ha Hd). lia.
Qed.

(** The counts of one client after another's actions: those it has and those it is owed. *)
Record tracks (i' i : Metrics.ClientMetricsInner) (l : list action) : Prop := {
  tr_range : forall d, in_range (read d i);
  tr_positive : positive i /\ positive i';
  tr_read : forall d, grows d -> read d i' = Z.min u64_max (read d i + owed_to d l);
}.

Lemma tracks_performed i' i l a i'' :
  Forall action_ok l -> action_ok a -> tracks i' i l -> count a (Some i') = Some i'' -> tracks i'' i (l ++ [a]).
Proof.
  intros Hl Ha [Hr [Hp Hp'] Hd] Hc. destruct (count_read a i') as (j & Hj & Hpos & Hread). rewrite Hc in Hj.
  injection Hj as <-. split; [done|by split; [|apply Hpos]|]. intros d Hg. rewrite owed_to_app. simpl.
  pose proof (owed_grows d l Hl Hg). pose proof (effect_grows a d Ha Hg). specialize (Hr d). unfold in_range in Hr.
  rewrite Hread; [|done|]; rewrite Hd by done; unfold in_range, clamp, u64_max in *; lia.
Qed.

Lemma counted_Some l i : exists i', counted l (Some i) = Some i'.
Proof.
  revert i. induction l as [|a l IH]; intros i; simpl; [eauto|]. destruct (count_read a i) as (j & -> & _). apply IH.
Qed.

Lemma counted_None l : counted l None = None.
Proof. induction l as [|a l IH]; [done|]. simpl. by destruct a. Qed.

Lemma tracks_begin acts i' i l i'' :
  Forall action_ok l -> Forall action_ok acts -> tracks i' i l -> counted acts (Some i') = Some i'' ->
  tracks i'' i (l ++ acts).
Proof.
  intros Hl Hacts. revert l i' Hl. induction Hacts as [|a acts Ha Hacts IH]; intros l i' Hl Ht Hc; simpl in Hc.
  - injection Hc as <-. by rewrite app_nil_r.
  - destruct (count_read a i') as (j & Hj & _). rewrite Hj in Hc.
    pose proof (tracks_performed i' i l a j Hl Ha Ht Hj) as Ht'.
    specialize (IH (l ++ [a]) j ltac:(apply Forall_app; by split; [|constructor]) Ht' Hc). by rewrite <- app_assoc in IH.
Qed.

(** An owed action is performed. *)
Lemma tracks_act i' i l1 a l2 i2 :
  Forall action_ok (l1 ++ a :: l2) -> tracks i' i (l1 ++ a :: l2) -> count a (Some i) = Some i2 -> tracks i' i2 (l1 ++ l2).
Proof.
  intros Hl [Hr [Hp Hp'] Hd] Hc. destruct (count_read a i) as (j & Hj & Hpos & Hread). rewrite Hc in Hj. injection Hj as <-.
  assert (action_ok a) as Hok by (rewrite Forall_app, Forall_cons in Hl; tauto).
  split.
  - intros d. rewrite Hread by done. unfold in_range, clamp, u64_max. lia.
  - split; [by apply Hpos|done].
  - intros d Hg. rewrite Hd by done. rewrite !owed_to_app. simpl. rewrite Forall_app, Forall_cons in Hl.
    destruct Hl as (Hl1 & Ha & Hl2). pose proof (owed_grows d _ Hl1 Hg). pose proof (owed_grows d _ Hl2 Hg).
    pose proof (effect_grows a d Ha Hg). rewrite Hread by done. specialize (Hr d). unfold in_range, clamp, u64_max in *. lia.
Qed.

(** Entering and leaving the requests in flight. *)
Definition is_entry (a : action) : bool := match a with Add Metrics.in_flight _ => true | _ => false end.
Definition is_exit (a : action) : bool := match a with Sub _ _ => true | _ => false end.

Lemma owed_in_flight l : Forall action_ok l ->
  owed_to (DAtomic Metrics.in_flight) l = countb is_entry l - countb is_exit l.
Proof.
  induction 1 as [|a l Ha _ IH]; [done|]. cbn [owed_to foldr]. fold (owed_to (DAtomic Metrics.in_flight) l). rewrite IH, !countb_cons.
  destruct a as [c n|c n| | | | | |]; simpl; try lia.
  - destruct Ha as [_ Ha]. destruct c; simpl; try lia. rewrite Ha by done. lia.
  - destruct Ha as [-> ->]. simpl. lia.
Qed.

(** Actions that neither start a request nor move one in or out of flight. *)
Definition plain (a : action) : Prop :=
  action_ok a /\ is_entry a = false /\ is_exit a = false /\ effect a (DAtomic Metrics.requests_started) = 0.

Lemma plain_ok l : Forall plain l -> Forall action_ok l /\ countb is_entry l = 0 /\ countb is_exit l = 0 /\
  owed_to (DAtomic Metrics.requests_started) l = 0.
Proof.
  induction 1 as [|a l (H1 & H2 & H3 & H4) _ (I1 & I2 & I3 & I4)]; [done|]. rewrite !countb_cons, H2, H3, I2, I3.
  split_and!; [by constructor|done|done|]. simpl. rewrite H4. exact I4.
Qed.

(** The calls of a list are about one span, and start none. *)
Definition tells (sp : option nat) (l : list action) : Prop :=
  Forall (fun e => Accounting.emission_span e = None \/ Accounting.emission_span e = sp) (emissions l).

Lemma tells_app sp l1 l2 : tells sp (l1 ++ l2) <-> tells sp l1 /\ tells sp l2.
Proof. unfold tells. rewrite emissions_app. apply Forall_app. Qed.

Lemma starts_app l1 l2 : next_span (emissions (l1 ++ l2)) = (next_span (emissions l1) + next_span (emissions l2))%nat.
Proof. rewrite emissions_app. apply Accounting.next_span_app. Qed.

Section ActionFacts.
Context `{Http}.
Variable otel : OtelTelemetry.

Lemma says_plain f : Forall plain (says f).
Proof. apply Forall_fmap, Forall_true. done. Qed.

Lemma millis_nonneg now started :
  0 <= Z.min (duration_as_millis (saturating_duration_since now started)) u64_max.
Proof.
  assert (0 <= duration_as_millis (saturating_duration_since now started)); [|unfold u64_max; lia].
  unfold duration_as_millis, saturating_duration_since. apply Z.div_pos; [lia|done].
Qed.

Lemma outcome_facts o now started sp :
  let l := outcome_actions otel o (saturating_duration_since now started) in
  Forall plain l /\ tells sp l /\ next_span (emissions l) = 0%nat.
Proof.
  cbn zeta. pose proof (millis_nonneg now started) as Hm. unfold tells. split_and!.
  - assert (Forall plain (latency_actions otel (saturating_duration_since now started))) as Hl.
    { apply Forall_app. split; [apply says_plain|]. by repeat constructor. }
    destruct o as [status|error|]; simpl; unfold success_actions, error_actions, canceled_actions;
      repeat (apply Forall_app; split); try apply says_plain; try exact Hl; try (by repeat constructor).
    destruct error as [| | | | | | | | | | | | | | | | | | | | phase| | | | | | | | | | | | | | | | | | | | |];
      try destruct phase; by repeat constructor.
  - pose proof (outcome_emitted otel o (saturating_duration_since now started) []) as He. simpl in He. rewrite <- He.
    destruct o; unfold Otel.record_request_latency, Otel.record_request_succeeded, Otel.record_request_failed,
      Otel.record_request_canceled; destruct (otel_inner otel); simpl; repeat constructor; by left.
  - pose proof (outcome_emitted otel o (saturating_duration_since now started) []) as He. simpl in He. rewrite <- He.
    destruct o; unfold Otel.record_request_latency, Otel.record_request_succeeded, Otel.record_request_failed,
      Otel.record_request_canceled; by destruct (otel_inner otel).
Qed.

Lemma closing_facts o id : Forall (fun e => Accounting.emission_span e = Some id) (Accounting.closing id o) /\
  next_span (Accounting.closing id o) = 0%nat.
Proof. split; [apply Accounting.closing_span|apply Accounting.closing_started]. Qed.

Lemma span_facts o sp :
  let l := span_actions o sp in
  Forall plain l /\ tells (sp ≫= span) l /\ next_span (emissions l) = 0%nat.
Proof.
  cbn zeta. unfold tells. destruct sp as [[[id|]]|]; simpl; [| |done].
  - rewrite says_emissions. destruct (closing_facts o id) as [Hc Hn].
    assert (match o with
            | Metrics.Succeeded status => finish_request_span_success {| span := Some id |} status
            | Metrics.Failed error => finish_request_span_error {| span := Some id |} error
            | Metrics.Canceled => finish_request_span_canceled {| span := Some id |}
            end [] = Accounting.closing id o) as -> by by destruct o.
    split; [apply says_plain|]. split; [|done]. eapply Forall_impl; [exact Hc|]. by right.
  - split; [apply says_plain|]. rewrite says_emissions. destruct o; (split; [apply Forall_nil_2|done]).
Qed.

Lemma drop_span_facts sp :
  let l := says (drop_span sp) in
  Forall plain l /\ tells (sp ≫= span) l /\ next_span (emissions l) = 0%nat.
Proof.
  cbn zeta. unfold tells. rewrite says_emissions. split; [apply says_plain|].
  destruct sp as [[[id|]]|]; simpl; (split; [|done]); [|constructor|constructor]. constructor; [by right|constructor].
Qed.

Lemma guard_facts g sp :
  let l := guard_actions g in
  Forall action_ok l /\ countb is_entry l = 0 /\ countb is_exit l = (if Metrics.guard_is_live g then 1 else 0) /\
  owed_to (DAtomic Metrics.requests_started) l = 0 /\ tells sp l /\ next_span (emissions l) = 0%nat.
Proof.
  unfold guard_actions, tells. destruct (Metrics.guard_is_live g); simpl; split_and!; try done; by repeat constructor.
Qed.

(** What the simulation asks of the actions of a call: [n] requests start, [u] leave. *)
Record call_actions (l : list action) (sp : option nat) (n u : Z) : Prop := {
  ca_ok : Forall action_ok l;
  ca_entries : countb is_entry l = n;
  ca_exits : countb is_exit l = u;
  ca_started : countb is_entry l <= owed_to (DAtomic Metrics.requests_started) l;
  ca_tells : tells sp l;
}.

Lemma plain_then_guard l g sp :
  Forall plain l -> tells sp l -> next_span (emissions l) = 0%nat ->
  call_actions (l ++ guard_actions g) sp 0 (if Metrics.guard_is_live g then 1 else 0) /\
  next_span (emissions (l ++ guard_actions g)) = 0%nat.
Proof.
  intros (H1 & H2 & H3 & H4)%plain_ok Ht Hn. destruct (guard_facts g sp) as (G1 & G2 & G3 & G4 & G5 & G6). split.
  - split; rewrite ?countb_app, ?owed_to_app; [by apply Forall_app|lia|lia|lia|by apply tells_app].
  - rewrite starts_app. lia.
Qed.

Lemma finish_facts o now p :
  call_actions (finish_actions otel o now p) (Accounting.pending_span p) 0
    (if Metrics.guard_is_live (Metrics.pending_in_flight (Accounting.base p)) then 1 else 0) /\
  next_span (emissions (finish_actions otel o now p)) = 0%nat.
Proof.
  unfold finish_actions.
  destruct (outcome_facts o now (Metrics.request_started_at (Accounting.base p)) (Accounting.pending_span p)) as (O1 & O2 & O3).
  destruct (span_facts o (Accounting.request_span p)) as (S1 & S2 & S3).
  destruct (drop_span_facts (Accounting.request_span p)) as (D1 & D2 & D3).
  destruct (match o with Metrics.Canceled => _ | _ => _ end); [by apply plain_then_guard|].
  apply plain_then_guard; [by apply Forall_app|by apply tells_app|rewrite starts_app; lia].
Qed.

Lemma complete_facts o now c :
  call_actions (complete_actions otel o now c) (Accounting.open_span c) 0
    (match Metrics.in_flight_guard (Accounting.stream_base c) with
     | Some g => if Metrics.guard_is_live g then 1 else 0 | None => 0 end) /\
  next_span (emissions (complete_actions otel o now c)) = 0%nat.
Proof.
  unfold complete_actions. destruct (Metrics.in_flight_guard (Accounting.stream_base c)) as [g|].
  2: { split; [|done]. split; try done; constructor. }
  set (o' := match o with Metrics.Succeeded _ => _ | _ => _ end).
  destruct (outcome_facts o' now (Metrics.stream_started_at (Accounting.stream_base c)) (Accounting.open_span c)) as (O1 & O2 & O3).
  destruct (span_facts o' (Accounting.stream_span c)) as (S1 & S2 & S3). rewrite app_assoc.
  apply plain_then_guard; [by apply Forall_app|by apply tells_app|rewrite starts_app; lia].
Qed.

Lemma completed_stream_span c : Accounting.open_span (completed_stream c) = None \/
  Accounting.open_span (completed_stream c) = Accounting.open_span c.
Proof. unfold completed_stream. destruct (Metrics.in_flight_guard _); [by left|by right]. Qed.

Lemma drop_stream_facts now c :
  call_actions (drop_stream_actions otel now c) (Accounting.open_span c) 0
    (match Metrics.in_flight_guard (Accounting.stream_base c) with
     | Some g => if Metrics.guard_is_live g then 1 else 0 | None => 0 end) /\
  next_span (emissions (drop_stream_actions otel now c)) = 0%nat.
Proof.
  unfold drop_stream_actions. destruct (complete_facts Metrics.Canceled now c) as [[C1 C2 C3 C4 C5] C6].
  destruct (drop_span_facts (Accounting.stream_span (completed_stream c))) as ((P1 & P2 & P3 & P4)%plain_ok & D2 & D3).
  assert (tells (Accounting.open_span c) (says (drop_span (Accounting.stream_span (completed_stream c))))) as Ht.
  { destruct (completed_stream_span c) as [He|He]; unfold Accounting.open_span in He at 1; rewrite He in D2; [|done].
    eapply Forall_impl; [exact D2|]. naive_solver. }
  split; [|rewrite starts_app; lia].
  split; rewrite ?countb_app, ?owed_to_app; [by apply Forall_app|lia|lia|lia|by apply tells_app].
Qed.

Lemma retry_facts : call_actions (retry_actions otel) None 0 0 /\ next_span (emissions (retry_actions otel)) = 0%nat.
Proof.
  assert (Forall plain (retry_actions otel)) as (P1 & P2 & P3 & P4)%plain_ok
    by (apply Forall_app; split; [by repeat constructor|apply says_plain]).
  assert (emissions (retry_actions otel) = Otel.record_retry otel []) as He
    by (unfold retry_actions; by autorewrite with says).
  split; [split; [done|done|done|lia|unfold tells]|]; rewrite He; unfold Otel.record_retry; destruct (otel_inner otel); try done.
  constructor; [by left|constructor].
Qed.

Lemma start_facts id enabled method uri stream :
  let l := start_actions otel id enabled method uri stream in
  call_actions l (match otel_inner otel with Some _ => Some id | None => None end) (if enabled then 1 else 0) 0 /\
  exists a l', l = a :: l' /\ next_span (emissions l') = 0%nat.
Proof.
  cbn zeta. unfold start_actions, started_actions. split.
  - assert (forall l : list Emission, Forall plain (Emit <$> l)) as Hplain by (intros l; apply (says_plain (fun _ => l))).
    destruct (otel_inner otel) as [inner|] eqn:Ho.
    + set (opening := _ :: _). destruct (plain_ok _ (Hplain opening)) as (P1 & P2 & P3 & P4).
      destruct (plain_ok _ (says_plain (Otel.record_request_started otel))) as (R1 & R2 & R3 & R4).
      split; rewrite ?countb_app, ?owed_to_app, ?P2, ?P3, ?P4, ?R2, ?R3, ?R4.
      * rewrite !Forall_app. split_and!; [done|by repeat constructor|done|destruct enabled; by repeat constructor].
      * by destruct enabled.
      * by destruct enabled.
      * by destruct enabled.
      * unfold tells. autorewrite with says. rewrite !Forall_app. unfold Otel.record_request_started. rewrite Ho.
        split_and!; [|constructor|repeat constructor; by left|destruct enabled; constructor].
        eapply Forall_impl; [apply (Accounting.opening_span inner id method uri stream)|]. by right.
    + split; unfold says, Otel.record_request_started; rewrite Ho; destruct enabled; try done; by repeat constructor.
  - set (final := if enabled then _ else _).
    assert (next_span (emissions (says (Otel.record_request_started otel) ++ final)) = 0%nat) as Hf.
    { rewrite starts_app, says_emissions. unfold Otel.record_request_started. by destruct (otel_inner otel), enabled. }
    destruct (otel_inner otel) as [inner|] eqn:Ho.
    + eexists (Emit (SpanStart id _)),
        ((Emit <$> (SpanAttribute id <$> request_span_attributes (client_name inner) (path_normalizer inner) method uri)) ++
         [Add Metrics.requests_started 1] ++ says (Otel.record_request_started otel) ++ final).
      split; [reflexivity|]. rewrite !(starts_app _ (_ ++ _)), Hf, emit_emissions.
      assert (forall l, next_span (SpanAttribute id <$> l) = 0%nat) as -> by (induction l as [|x l IH]; [done|exact IH]). done.
    + eexists _, (says (Otel.record_request_started otel) ++ final). by split.
Qed.

End ActionFacts.

(** ** Every run is a run of whole operations *)
Definition requests_of (rs : list call) : list Accounting.PendingRequest :=
  omap (fun r => match gives r with Request p => Some p | _ => None end) rs.
Definition streams_of (rs : list call) : list Accounting.StreamCompletion :=
  omap (fun r => match gives r with Stream c => Some c | _ => None end) rs.

(** The spans somebody holds or speaks about. *)
Definition held (w : world) : list nat :=
  omap Accounting.pending_span (pending w) ++ omap Accounting.open_span (streams w).
Definition owners (w : world) : list nat := held w ++ omap call_span (running w).

Definition handle_span (h : handle) : option nat :=
  match h with
  | Nothing => None
  | Request p => Accounting.pending_span p
  | Stream c => Accounting.open_span c
  end.

Definition is_request (h : handle) : Z := match h with Request _ => 1 | _ => 0 end.

Record call_ok (r : call) : Prop := {
  co_actions : Forall action_ok (rest r);
  co_tells : tells (call_span r) (rest r);
  co_handle : handle_span (gives r) = None \/ handle_span (gives r) = call_span r;
  co_entries : countb is_entry (rest r) <= is_request (gives r);
}.

(** The requests in flight, counted by those there are: [live] with the operations at once. *)
Record flying (i' i : Metrics.ClientMetricsInner) (l : list action) (live : Z) : Prop := {
  fl_live : Metrics.atomics i Metrics.in_flight + countb is_entry l - countb is_exit l = live;
  fl_started : live + countb is_exit l <= Metrics.atomics i' Metrics.requests_started;
}.

Arguments counted : simpl never.
Arguments emissions : simpl never.

Section Simulation.
Context `{Http}.
Variables (otel : OtelTelemetry) (enabled : bool).

Definition live (G : Accounting.world) : Z := Metrics.unfinished (Accounting.silent G).

Record sim (G : Accounting.world) (w : world) : Prop := {
  sim_reach : rtc (Accounting.step otel) (Accounting.initial enabled) G;
  sim_pending : Accounting.pending G ≡ₚ pending w ++ requests_of (running w);
  sim_streams : Accounting.streams G ≡ₚ streams w ++ streams_of (running w);
  sim_log : Accounting.emitted (Accounting.ledger G) ≡ₚ Accounting.emitted (shared w) ++ emissions (owed w);
  sim_about : forall id, Accounting.about id (Accounting.emitted (Accounting.ledger G)) =
    Accounting.about id (Accounting.emitted (shared w)) ++ Accounting.about id (emissions (owed w));
  sim_calls : Forall call_ok (running w);
  sim_owners : NoDup (owners w);
  sim_known : Forall (fun id => (id < next_span (Accounting.emitted (Accounting.ledger G)))%nat) (owners w);
  sim_counters :
    match Accounting.counters (Accounting.ledger G), Accounting.counters (shared w) with
    | None, None => enabled = false
    | Some i', Some i => enabled = true /\ tracks i' i (owed w) /\
        (Metrics.atomics i' Metrics.requests_started < u64_max -> flying i' i (owed w) (live G))
    | _, _ => False
    end;
}.

Lemma rests_snoc rs r : concat (rest <$> rs ++ [r]) = concat (rest <$> rs) ++ rest r.
Proof. rewrite fmap_app, concat_app. simpl. by rewrite app_nil_r. Qed.

Lemma calls_actions_ok rs : Forall call_ok rs -> Forall action_ok (concat (rest <$> rs)).
Proof. induction 1 as [|r rs [Ha _ _ _] _ IH]; simpl; [constructor|]. by apply Forall_app. Qed.

(** A call begins: with the operations at once, it is over. *)
Lemma sim_begin G G' s ps cs rs ps' cs' r n u :
  sim G {| shared := s; pending := ps; streams := cs; running := rs |} ->
  Accounting.step otel G G' -> Accounting.ledger G' = perform_all (rest r) (Accounting.ledger G) ->
  Accounting.pending G' ≡ₚ ps' ++ requests_of (rs ++ [r]) -> Accounting.streams G' ≡ₚ cs' ++ streams_of (rs ++ [r]) ->
  call_actions (rest r) (call_span r) n u -> n <= is_request (gives r) ->
  (handle_span (gives r) = None \/ handle_span (gives r) = call_span r) ->
  (enabled = true -> live G' = live G + n - u) ->
  let w' := {| shared := s; pending := ps'; streams := cs'; running := rs ++ [r] |} in
  NoDup (owners w') -> Forall (fun id => (id < next_span (Accounting.emitted (Accounting.ledger G')))%nat) (owners w') ->
  sim G' w'.
Proof.
  intros [R1 R2 R3 R4 R5 R6 R7 R8 R9] Hstep Hled Hps Hcs [A1 A2 A3 A4 A5] Hreq Hh Hlive w' Hnd Hknown. subst w'.
  rewrite perform_all_eq in Hled. unfold owed in *. simpl in *.
  split; unfold owed; rewrite ?Hled; simpl; rewrite ?rests_snoc; try done.
  - by eapply rtc_r.
  - rewrite emissions_app, R4. by rewrite <- app_assoc.
  - intros id. rewrite emissions_app, !Accounting.about_app, R5. by rewrite <- app_assoc.
  - apply Forall_app. split; [done|]. constructor; [|constructor]. split; [done|done|done|lia].
  - by rewrite Hled in Hknown.
  - destruct (Accounting.counters (Accounting.ledger G)) as [i'|] eqn:Hi', (Accounting.counters s) as [i|] eqn:Hi; try done.
    + destruct (counted_Some (rest r) i') as [i'' Hi'']. rewrite Hi''. destruct R9 as (He & Ht & Hf). split; [done|].
      pose proof (tracks_begin (rest r) i' i _ i'' (calls_actions_ok rs R6) A1 Ht Hi'') as Ht'. split; [done|]. intros Hlt.
      pose proof (tr_read _ _ _ Ht (DAtomic Metrics.requests_started) ltac:(done)) as Hs.
      pose proof (tr_read _ _ _ Ht' (DAtomic Metrics.requests_started) ltac:(done)) as Hs'.
      rewrite owed_to_app in Hs'. simpl in Hs, Hs'.
      pose proof (owed_grows (DAtomic Metrics.requests_started) (rest r) A1 ltac:(done)).
      specialize (Hf ltac:(lia)) as [F1 F2]. rewrite (Hlive He). split; rewrite !countb_app; lia.
    + by rewrite (counted_None (rest r)).
Qed.

Lemma emissions_cons a l : emissions (a :: l) = option_list (emission a) ++ emissions l.
Proof. unfold emissions. simpl. by destruct (emission a). Qed.

Lemma rests_cons r rs : concat (rest <$> r :: rs) = rest r ++ concat (rest <$> rs).
Proof. done. Qed.

(** Calls about other spans say nothing of this one. *)
Lemma about_others id rs :
  Forall call_ok rs -> id ∉ omap call_span rs -> Accounting.about id (emissions (concat (rest <$> rs))) = [].
Proof.
  induction 1 as [|r rs [_ Ht _ _] _ IH]; [done|]. intros Hid. rewrite rests_cons.
  rewrite emissions_app, Accounting.about_app. rewrite IH.
  2: { intros Hin. apply Hid. simpl. case_match; [by right|done]. }
  rewrite app_nil_r. apply Accounting.about_none. eapply Forall_impl; [exact Ht|]. intros e He Heq. simpl in *. rewrite Heq in He.
  destruct He as [?|He]; [done|]. apply Hid. rewrite <- He. left.
Qed.

Lemma owners_call s ps cs rs1 r rs2 id :
  NoDup (owners {| shared := s; pending := ps; streams := cs; running := rs1 ++ r :: rs2 |}) -> call_span r = Some id ->
  id ∉ omap call_span rs1.
Proof.
  unfold owners. simpl. rewrite omap_app. simpl. intros (_ & _ & Hn)%NoDup_app Hr Hin. rewrite Hr in Hn.
  apply NoDup_app in Hn as (_ & Hn & _). apply (Hn id Hin). left.
Qed.

Lemma entries_requests rs : Forall call_ok rs -> countb is_entry (concat (rest <$> rs)) <= Z.of_nat (length (requests_of rs)).
Proof.
  induction 1 as [|r rs [_ _ _ He] _ IH]; [done|]. rewrite rests_cons, countb_app.
  change (requests_of (r :: rs)) with (omap (fun r => match gives r with Request p => Some p | _ => None end) (r :: rs)).
  cbn [omap list_omap]. fold (requests_of rs). destruct (gives r); cbn [is_request length] in *; lia.
Qed.

Lemma flying_act i' i l1 a l2 i2 n :
  Forall action_ok (l1 ++ a :: l2) -> tracks i' i (l1 ++ a :: l2) -> count a (Some i) = Some i2 ->
  Metrics.atomics i' Metrics.requests_started < u64_max -> countb is_entry (l1 ++ a :: l2) <= n ->
  flying i' i (l1 ++ a :: l2) n -> flying i' i2 (l1 ++ l2) n.
Proof.
  intros Hok Ht Hc Hlt Hent [F1 F2]. destruct (count_read a i) as (j & Hj & _ & Hread). rewrite Hc in Hj. injection Hj as <-.
  assert (action_ok a) as Ha by (rewrite Forall_app, Forall_cons in Hok; tauto).
  specialize (Hread Ha (DAtomic Metrics.in_flight) (tr_range _ _ _ Ht _)). simpl in Hread.
  pose proof (tr_range _ _ _ Ht (DAtomic Metrics.in_flight)) as Hr. simpl in Hr. unfold in_range in Hr.
  rewrite !countb_app, !countb_cons in *. pose proof (countb_nonneg is_exit l1). pose proof (countb_nonneg is_exit l2).
  pose proof (countb_nonneg is_entry l1). pose proof (countb_nonneg is_entry l2).
  assert (effect a (DAtomic Metrics.in_flight) = (if is_entry a then 1 else 0) - (if is_exit a then 1 else 0)) as He.
  { pose proof (owed_in_flight [a] ltac:(by constructor)) as Ho. rewrite !countb_cons, !countb_nil in Ho. simpl in Ho. lia. }
  assert (is_entry a = false \/ is_exit a = false) as Hcase by (destruct a as [[]| | | | | | |]; auto).
  unfold clamp in Hread. split; rewrite ?countb_app; [|destruct (is_exit a); lia].
  destruct (is_entry a), (is_exit a); destruct Hcase; try done; lia.
Qed.

Lemma sim_act G s ps cs rs1 a l h sp rs2 :
  sim G {| shared := s; pending := ps; streams := cs; running := rs1 ++ {| rest := a :: l; gives := h; call_span := sp |} :: rs2 |} ->
  sim G {| shared := perform a s; pending := ps; streams := cs;
           running := rs1 ++ {| rest := l; gives := h; call_span := sp |} :: rs2 |}.
Proof.
  intros [R1 R2 R3 R4 R5 R6 R7 R8 R9].
  assert (concat (rest <$> rs1 ++ {| rest := a :: l; gives := h; call_span := sp |} :: rs2) =
    concat (rest <$> rs1) ++ a :: l ++ concat (rest <$> rs2)) as Hbefore by (by rewrite fmap_app, concat_app).
  assert (concat (rest <$> rs1 ++ {| rest := l; gives := h; call_span := sp |} :: rs2) =
    concat (rest <$> rs1) ++ l ++ concat (rest <$> rs2)) as Hafter by (by rewrite fmap_app, concat_app).
  assert (forall id, Some id = emission a ≫= Accounting.emission_span -> Accounting.about id (emissions (concat (rest <$> rs1))) = []) as Hothers.
  { intros id Hid. pose proof R6 as R6'. simpl in R6'. rewrite Forall_app, Forall_cons in R6'. destruct R6' as (C1 & [_ Ht _ _] & _).
    apply about_others; [done|]. eapply owners_call; [exact R7|]. simpl in *. unfold tells in Ht. rewrite emissions_cons in Ht.
    destruct (emission a) as [e|]; [|done]. apply Forall_cons in Ht as [[He|He] _]; simpl in Hid; congruence. }
  unfold owed in *. simpl in R2, R3, R4, R5, R6, R9. rewrite Hbefore in R4, R5, R9.
  split; unfold owed; simpl; rewrite ?Hafter; try done.
  - rewrite R2. unfold requests_of. by rewrite !omap_app.
  - rewrite R3. unfold streams_of. by rewrite !omap_app.
  - rewrite R4, !emissions_app, emissions_cons, emissions_app. solve_Permutation.
  - intros id. rewrite R5, !emissions_app, emissions_cons, !Accounting.about_app, emissions_app, Accounting.about_app.
    rewrite <- app_assoc. f_equal. rewrite !app_assoc. f_equal. f_equal.
    destruct (emission a) as [e|] eqn:Hem; [|by rewrite app_nil_r]. destruct (decide (Accounting.emission_span e = Some id)) as [Hs|Hs].
    + rewrite Hothers; [by rewrite app_nil_r|]. by simpl.
    + rewrite (Accounting.about_none id (option_list (Some e))) by (constructor; [done|constructor]). by rewrite app_nil_r.
  - rewrite Forall_app, Forall_cons in R6 |- *. destruct R6 as (C1 & [D1 D2 D3 D4] & C2). split_and!; [done| |done].
    simpl in *. apply Forall_cons in D1 as [_ D1]. rewrite countb_cons in D4. unfold tells in D2. rewrite emissions_cons in D2.
    apply Forall_app in D2 as [_ D2]. split; simpl; [done|done|done|]. destruct (is_entry a); lia.
  - unfold owners, held in *. simpl in *. by rewrite !omap_app in *.
  - unfold owners, held in *. simpl in *. by rewrite !omap_app in *.
  - pose proof (calls_actions_ok _ R6) as Hok. rewrite Hbefore in Hok.
    destruct (Accounting.counters (Accounting.ledger G)) as [i'|], (Accounting.counters s) as [i|]; simpl in *; try done.
    + destruct (count_read a i) as (i2 & Hi2 & _). rewrite Hi2. destruct R9 as (He & Ht & Hf). split; [done|].
      split; [by eapply tracks_act|]. intros Hlt. eapply flying_act; [done|exact Ht|done|done| |by apply Hf].
      pose proof (entries_requests _ R6) as Hent. rewrite Hbefore in Hent.
      assert (Z.of_nat (length (requests_of (rs1 ++ {| rest := a :: l; gives := h; call_span := sp |} :: rs2))) <= live G); [|lia].
      unfold live, Metrics.unfinished, Accounting.silent. simpl. rewrite length_fmap, R2, length_app.
      pose proof (countb_nonneg Metrics.open_stream (Accounting.stream_base <$> Accounting.streams G)). lia.
    + by destruct a.
Qed.

Lemma sim_return G s ps cs rs1 h sp rs2 :
  sim G {| shared := s; pending := ps; streams := cs; running := rs1 ++ {| rest := []; gives := h; call_span := sp |} :: rs2 |} ->
  sim G (deliver h {| shared := s; pending := ps; streams := cs; running := rs1 ++ rs2 |}).
Proof.
  intros [R1 R2 R3 R4 R5 R6 R7 R8 R9].
  assert (concat (rest <$> rs1 ++ {| rest := []; gives := h; call_span := sp |} :: rs2) = concat (rest <$> rs1 ++ rs2)) as Howed
    by (by rewrite !fmap_app, !concat_app).
  assert (owed (deliver h {| shared := s; pending := ps; streams := cs; running := rs1 ++ rs2 |}) = concat (rest <$> rs1 ++ rs2)) as Howed'
    by (by destruct h).
  assert (shared (deliver h {| shared := s; pending := ps; streams := cs; running := rs1 ++ rs2 |}) = s) as Hs by (by destruct h).
  assert (running (deliver h {| shared := s; pending := ps; streams := cs; running := rs1 ++ rs2 |}) = rs1 ++ rs2) as Hr by (by destruct h).
  unfold owed in R4, R5, R9. simpl in R2, R3, R4, R5, R6, R9. rewrite Howed in R4, R5, R9.
  assert (exists l, owners {| shared := s; pending := ps; streams := cs; running := rs1 ++ {| rest := []; gives := h; call_span := sp |} :: rs2 |}
    ≡ₚ l ++ owners (deliver h {| shared := s; pending := ps; streams := cs; running := rs1 ++ rs2 |})) as [extra Hperm].
  { rewrite Forall_app, Forall_cons in R6. destruct R6 as (_ & [_ _ Hh _] & _). simpl in Hh.
    unfold owners, held. exists (if decide (handle_span h = sp) then [] else option_list sp).
    destruct h as [|p|c]; simpl in *; rewrite !omap_app; simpl; case_decide as Hd; simpl; destruct sp as [id|]; simpl;
      try (destruct Hh as [Hh|Hh]; rewrite ?Hh in *; simplify_eq; simpl); try congruence; solve_Permutation. }
  split; rewrite ?Howed', ?Hs, ?Hr; try done.
  - rewrite R2. unfold requests_of. rewrite !omap_app. destruct h; simpl; solve_Permutation.
  - rewrite R3. unfold streams_of. rewrite !omap_app. destruct h; simpl; solve_Permutation.
  - rewrite Forall_app, Forall_cons in R6. apply Forall_app. tauto.
  - rewrite Hperm in R7. by apply NoDup_app in R7 as (_ & _ & ?).
  - rewrite Hperm in R8. by apply Forall_app in R8 as [_ ?].
Qed.

Lemma next_span_perm l l' : l ≡ₚ l' -> next_span l = next_span l'.
Proof.
  intros Hl. apply Nat2Z.inj. by rewrite !Accounting.next_span_countb, (countb_perm _ _ _ Hl).
Qed.

Lemma ghost_guards G :
  enabled = true -> rtc (Accounting.step otel) (Accounting.initial enabled) G ->
  (forall p, p ∈ Accounting.pending G -> Metrics.guard_is_live (Metrics.pending_in_flight (Accounting.base p)) = true) /\
  (forall c g, c ∈ Accounting.streams G -> Metrics.in_flight_guard (Accounting.stream_base c) = Some g -> Metrics.guard_is_live g = true).
Proof.
  intros He Hr. rewrite He in Hr. apply Accounting.silent_steps in Hr.
  destruct (Metrics.metrics_inv_reachable (Accounting.silent G) Hr) as (i & [_ _ _ Hp Hc]). simpl in *.
  rewrite Forall_fmap, Forall_forall in Hp. rewrite Forall_fmap, Forall_forall in Hc. split.
  - intros p [-> _]%Hp. done.
  - intros c g Hin Hg. specialize (Hc c Hin). simpl in Hc. rewrite Hg in Hc. simpl in Hc. by subst g.
Qed.

Lemma requests_snoc rs r : requests_of (rs ++ [r]) = requests_of rs ++ option_list (match gives r with Request p => Some p | _ => None end).
Proof. unfold requests_of. rewrite omap_app. simpl. by destruct (gives r). Qed.
Lemma streams_snoc rs r : streams_of (rs ++ [r]) = streams_of rs ++ option_list (match gives r with Stream c => Some c | _ => None end).
Proof. unfold streams_of. rewrite omap_app. simpl. by destruct (gives r). Qed.

Lemma omap_split {T} (f : T -> option nat) l1 x l2 : omap f (l1 ++ x :: l2) = omap f l1 ++ option_list (f x) ++ omap f l2.
Proof. rewrite omap_app. simpl. by destruct (f x). Qed.

(** The owners after a call took a handle with its span. *)
Lemma owners_moved G G' w w' l :
  sim G w -> Accounting.emitted (Accounting.ledger G') = Accounting.emitted (Accounting.ledger G) ++ l ->
  owners w ≡ₚ owners w' ->
  NoDup (owners w') /\ Forall (fun id => (id < next_span (Accounting.emitted (Accounting.ledger G')))%nat) (owners w').
Proof.
  intros [_ _ _ _ _ _ Hn Hk _] Hl Hp. rewrite Hp in Hn, Hk. split; [done|]. eapply Forall_impl; [exact Hk|].
  intros id Hid. simpl in *. rewrite Hl, Accounting.next_span_app. lia.
Qed.

Lemma perform_all_emitted l s : Accounting.emitted (perform_all l s) = Accounting.emitted s ++ emissions l.
Proof. by rewrite perform_all_eq. Qed.

(** A call begins that takes its handle with it. *)
Lemma sim_begin_moved G G' s ps cs rs ps' cs' r n u :
  sim G {| shared := s; pending := ps; streams := cs; running := rs |} ->
  Accounting.step otel G G' -> Accounting.ledger G' = perform_all (rest r) (Accounting.ledger G) ->
  Accounting.pending G' ≡ₚ ps' ++ requests_of (rs ++ [r]) -> Accounting.streams G' ≡ₚ cs' ++ streams_of (rs ++ [r]) ->
  call_actions (rest r) (call_span r) n u -> n <= is_request (gives r) ->
  (handle_span (gives r) = None \/ handle_span (gives r) = call_span r) ->
  (enabled = true -> live G' = live G + n - u) ->
  let w' := {| shared := s; pending := ps'; streams := cs'; running := rs ++ [r] |} in
  owners {| shared := s; pending := ps; streams := cs; running := rs |} ≡ₚ owners w' ->
  sim G' w'.
Proof.
  intros Hsim Hstep Hled Hps Hcs Ha Hn Hh Hl w' Hown.
  destruct (owners_moved G G' _ w' (emissions (rest r)) Hsim) as [Hnd Hk]; [by rewrite Hled, perform_all_emitted|done|].
  by eapply sim_begin.
Qed.

Ltac same_owners := unfold owners, held; simpl; rewrite ?omap_split, ?omap_app; simpl;
  repeat match goal with |- context [match ?x with Some _ => _ | None => _ end] => destruct x; simpl end; solve_Permutation.

Lemma sim_finish G s ps1 p ps2 cs rs o now :
  sim G {| shared := s; pending := ps1 ++ p :: ps2; streams := cs; running := rs |} ->
  exists G', sim G' {| shared := s; pending := ps1 ++ ps2; streams := cs;
    running := rs ++ [{| rest := finish_actions otel o now p; gives := Nothing; call_span := Accounting.pending_span p |}] |}.
Proof.
  intros Hsim. pose proof Hsim as [R1 R2 R3 _ _ _ _ _ _]. destruct G as [L gps gcs]. simpl in R2, R3.
  assert (gps ≡ₚ p :: (ps1 ++ ps2) ++ requests_of rs) as (g1 & g2 & -> & Hg)%Permutation_cons_inv_r by (rewrite R2; solve_Permutation).
  eexists. destruct (finish_facts otel o now p) as [Hacts _].
  eapply (sim_begin_moved _ _ s _ _ rs _ _ {| rest := _ |} _ _ Hsim (Accounting.step_finish otel L g1 p g2 gcs o now)); simpl.
  - by rewrite finish_actions_run.
  - rewrite requests_snoc. simpl. rewrite app_nil_r. by rewrite <- Hg.
  - rewrite streams_snoc. simpl. by rewrite app_nil_r.
  - exact Hacts.
  - done.
  - by left.
  - intros He. destruct (ghost_guards _ He R1) as [Hgp _]. rewrite (Hgp p) by (simpl; set_solver).
    unfold live, Metrics.unfinished, Accounting.silent. simpl. rewrite !length_fmap, !length_app. simpl. lia.
  - same_owners.
Qed.

Lemma stream_live G c g1 g2 gps L :
  enabled = true -> rtc (Accounting.step otel) (Accounting.initial enabled) G ->
  G = {| Accounting.ledger := L; Accounting.pending := gps; Accounting.streams := g1 ++ c :: g2 |} ->
  match Metrics.in_flight_guard (Accounting.stream_base c) with
  | Some g => if Metrics.guard_is_live g then 1 else 0 | None => 0 end = if Metrics.open_stream (Accounting.stream_base c) then 1 else 0.
Proof.
  intros He Hr ->. destruct (ghost_guards _ He Hr) as [_ Hg]. unfold Metrics.open_stream.
  destruct (Metrics.in_flight_guard (Accounting.stream_base c)) as [g|] eqn:Hc; [|done]. by rewrite (Hg c g) by (simpl; set_solver).
Qed.

Lemma completed_stream_open c : Metrics.open_stream (Accounting.stream_base (completed_stream c)) = false.
Proof.
  unfold completed_stream, Metrics.open_stream. by destruct (Metrics.in_flight_guard (Accounting.stream_base c)) eqn:Hg; simpl; rewrite ?Hg.
Qed.

Lemma sim_complete G s ps cs1 c cs2 rs o now :
  sim G {| shared := s; pending := ps; streams := cs1 ++ c :: cs2; running := rs |} ->
  exists G', sim G' {| shared := s; pending := ps; streams := cs1 ++ cs2;
    running := rs ++ [{| rest := complete_actions otel o now c; gives := Stream (completed_stream c);
                         call_span := Accounting.open_span c |}] |}.
Proof.
  intros Hsim. pose proof Hsim as [R1 R2 R3 _ _ _ _ _ _]. destruct G as [L gps gcs]. simpl in R2, R3.
  assert (gcs ≡ₚ c :: (cs1 ++ cs2) ++ streams_of rs) as (g1 & g2 & -> & Hg)%Permutation_cons_inv_r by (rewrite R3; solve_Permutation).
  eexists. destruct (complete_facts otel o now c) as [Hacts _].
  eapply (sim_begin_moved _ _ s _ _ rs _ _ {| rest := _ |} _ _ Hsim
    (Accounting.step_complete_stream otel L gps g1 c g2 o now _ _ (complete_actions_run otel o now c L))); simpl.
  - done.
  - rewrite requests_snoc. simpl. by rewrite app_nil_r.
  - rewrite streams_snoc. simpl. rewrite app_assoc, Hg. solve_Permutation.
  - exact Hacts.
  - done.
  - apply completed_stream_span.
  - intros He. rewrite (stream_live _ c g1 g2 gps L He R1 eq_refl).
    unfold live, Metrics.unfinished, Accounting.silent. cbn -[fmap]. rewrite !fmap_app, !fmap_cons, !countb_app, !countb_cons, completed_stream_open.
    destruct (Metrics.open_stream _); lia.
  - same_owners.
Qed.

Lemma sim_drop G s ps cs1 c cs2 rs now :
  sim G {| shared := s; pending := ps; streams := cs1 ++ c :: cs2; running := rs |} ->
  exists G', sim G' {| shared := s; pending := ps; streams := cs1 ++ cs2;
    running := rs ++ [{| rest := drop_stream_actions otel now c; gives := Nothing; call_span := Accounting.open_span c |}] |}.
Proof.
  intros Hsim. pose proof Hsim as [R1 R2 R3 _ _ _ _ _ _]. destruct G as [L gps gcs]. simpl in R2, R3.
  assert (gcs ≡ₚ c :: (cs1 ++ cs2) ++ streams_of rs) as (g1 & g2 & -> & Hg)%Permutation_cons_inv_r by (rewrite R3; solve_Permutation).
  eexists. destruct (drop_stream_facts otel now c) as [Hacts _].
  eapply (sim_begin_moved _ _ s _ _ rs _ _ {| rest := _ |} _ _ Hsim (Accounting.step_drop_stream otel L gps g1 c g2 now)); simpl.
  - by rewrite drop_stream_actions_run.
  - rewrite requests_snoc. simpl. by rewrite app_nil_r.
  - rewrite streams_snoc. simpl. rewrite app_nil_r. by rewrite <- Hg.
  - exact Hacts.
  - done.
  - by left.
  - intros He. rewrite (stream_live _ c g1 g2 gps L He R1 eq_refl).
    unfold live, Metrics.unfinished, Accounting.silent. cbn -[fmap]. rewrite !fmap_app, !fmap_cons, !countb_app, !countb_cons.
    destruct (Metrics.open_stream _); lia.
  - same_owners.
Qed.

Lemma sim_into_stream G s ps1 p ps2 cs rs status now :
  sim G {| shared := s; pending := ps1 ++ p :: ps2; streams := cs; running := rs |} ->
  let c := (Accounting.into_stream otel status now p s).1 in
  exists G', sim G' {| shared := s; pending := ps1 ++ ps2; streams := cs;
    running := rs ++ [{| rest := []; gives := Stream c; call_span := Accounting.open_span c |}] |}.
Proof.
  intros Hsim c. pose proof Hsim as [R1 R2 R3 _ _ _ _ _ _]. destruct G as [L gps gcs]. simpl in R2, R3.
  assert (gps ≡ₚ p :: (ps1 ++ ps2) ++ requests_of rs) as (g1 & g2 & -> & Hg)%Permutation_cons_inv_r by (rewrite R2; solve_Permutation).
  assert (Accounting.into_stream otel status now p L = (c, L)) as Hinto by (by destruct L).
  eexists.
  eapply (sim_begin_moved _ _ s _ _ rs _ _ {| rest := _ |} 0 0 Hsim (Accounting.step_into_stream otel L g1 p g2 gcs status now c L Hinto)); simpl.
  - done.
  - rewrite requests_snoc. simpl. rewrite app_nil_r. by rewrite <- Hg.
  - rewrite streams_snoc. simpl. rewrite R3. solve_Permutation.
  - split; try done; constructor.
  - done.
  - by right.
  - intros He. assert (Metrics.open_stream (Accounting.stream_base c) = true) as Hopen by done.
    unfold live, Metrics.unfinished, Accounting.silent. cbn -[fmap c]. rewrite !length_fmap, !length_app, fmap_cons, countb_cons, Hopen.
    cbn [length]. lia.
  - assert (Accounting.open_span c = Accounting.pending_span p) as Hspan by done. rewrite Hspan. same_owners.
Qed.

Lemma sim_retry G s ps cs rs :
  sim G {| shared := s; pending := ps; streams := cs; running := rs |} ->
  exists G', sim G' {| shared := s; pending := ps; streams := cs;
    running := rs ++ [{| rest := retry_actions otel; gives := Nothing; call_span := None |}] |}.
Proof.
  intros Hsim. pose proof Hsim as [R1 R2 R3 _ _ _ _ _ _]. destruct G as [L gps gcs]. simpl in R2, R3.
  eexists. destruct (retry_facts otel) as [Hacts _].
  eapply (sim_begin_moved _ _ s _ _ rs _ _ {| rest := _ |} _ _ Hsim (Accounting.step_retry otel L gps gcs)); simpl.
  - exact (eq_sym (retry_actions_run otel L)).
  - rewrite requests_snoc. simpl. by rewrite app_nil_r.
  - rewrite streams_snoc. simpl. by rewrite app_nil_r.
  - exact Hacts.
  - done.
  - by left.
  - intros He. unfold live, Metrics.unfinished, Accounting.silent. simpl. lia.
  - same_owners.
Qed.

Lemma sim_next_span G w : sim G w -> next_span (emissions (owed w)) = 0%nat ->
  next_span (Accounting.emitted (Accounting.ledger G)) = next_span (Accounting.emitted (shared w)).
Proof. intros [_ _ _ Hl _ _ _ _ _] Hn. rewrite (next_span_perm _ _ Hl), Accounting.next_span_app. lia. Qed.

Lemma sim_enabled G w : sim G w ->
  is_some (Accounting.counters (Accounting.ledger G)) = enabled /\ is_some (Accounting.counters (shared w)) = enabled.
Proof.
  intros [_ _ _ _ _ _ _ _ Hc]. destruct (Accounting.counters (Accounting.ledger G)), (Accounting.counters (shared w)); try done.
  by destruct Hc as [-> _].
Qed.

Lemma sim_request G s ps cs rs method uri stream now a l :
  let id := next_span (Accounting.emitted s) in
  let p := new_request otel id (is_some (Accounting.counters s)) now in
  start_actions otel id (is_some (Accounting.counters s)) method uri stream = a :: l ->
  sim G {| shared := s; pending := ps; streams := cs; running := rs |} ->
  next_span (emissions (owed {| shared := s; pending := ps; streams := cs; running := rs |})) = 0%nat ->
  exists G', sim G' {| shared := perform a s; pending := ps; streams := cs;
    running := rs ++ [{| rest := l; gives := Request p; call_span := Accounting.pending_span p |}] |}.
Proof.
  intros id p Hacts Hsim Hn. pose proof Hsim as [R1 R2 R3 _ _ _ R7 R8 _]. pose proof (sim_next_span _ _ Hsim Hn) as Hid. simpl in Hid.
  destruct (sim_enabled _ _ Hsim) as [He1 He2]. simpl in He2. destruct G as [L gps gcs]. simpl in R2, R3, R8, Hid, He1.
  pose proof (start_actions_run otel method uri stream now L) as Hrun. rewrite Hid, He1 in Hrun. rewrite He2 in Hacts. subst p.
  rewrite He2. fold id in Hrun. rewrite Hacts in Hrun. set (p := new_request otel id enabled now) in *.
  destruct (start_facts otel id enabled method uri stream) as [Hca _]. rewrite Hacts in Hca.
  assert (Accounting.pending_span p = match otel_inner otel with Some _ => Some id | None => None end) as Hspan
    by (unfold p, new_request, Accounting.pending_span; simpl; by destruct (otel_inner otel)).
  exists {| Accounting.ledger := perform_all (a :: l) L; Accounting.pending := p :: gps; Accounting.streams := gcs |}.
  apply sim_act. eapply (sim_begin _ _ s _ _ rs _ _ {| rest := a :: l |} _ _ Hsim (Accounting.step_start otel L gps gcs method uri stream now _ _ Hrun)).
  - done.
  - rewrite requests_snoc. cbn [gives option_list Accounting.pending]. rewrite R2. solve_Permutation.
  - rewrite streams_snoc. cbn [gives option_list Accounting.streams]. by rewrite app_nil_r.
  - cbn [rest call_span]. rewrite Hspan. exact Hca.
  - simpl. by destruct enabled.
  - by right.
  - intros He. unfold live, Metrics.unfinished, Accounting.silent. cbn -[perform_all]. rewrite He, !length_fmap. lia.
  - assert (owners {| shared := s; pending := ps; streams := cs; running := rs ++ [{| rest := a :: l; gives := Request p; call_span := Accounting.pending_span p |}] |}
      ≡ₚ option_list (Accounting.pending_span p) ++ owners {| shared := s; pending := ps; streams := cs; running := rs |}) as -> by same_owners.
    apply NoDup_app. split_and!; [by destruct (Accounting.pending_span p); simpl; [apply NoDup_singleton|constructor]| |done].
    intros x Hx Hin. rewrite Hspan in Hx. rewrite Forall_forall in R8. apply R8 in Hin. rewrite Hid in Hin.
    destruct (otel_inner otel); simpl in Hx; [|by apply not_elem_of_nil in Hx]. apply list_elem_of_singleton in Hx. subst x. unfold id in Hin. lia.
  - assert (owners {| shared := s; pending := ps; streams := cs; running := rs ++ [{| rest := a :: l; gives := Request p; call_span := Accounting.pending_span p |}] |}
      ≡ₚ option_list (Accounting.pending_span p) ++ owners {| shared := s; pending := ps; streams := cs; running := rs |}) as -> by same_owners.
    cbn [Accounting.ledger]. rewrite perform_all_emitted, Accounting.next_span_app, Hid. apply Forall_app. split.
    + rewrite Hspan. destruct (otel_inner otel) as [inner|] eqn:Ho; [|constructor]. constructor; [|constructor].
      rewrite <- Hacts. unfold start_actions. rewrite Ho, starts_app, emit_emissions. simpl. unfold id. lia.
    + eapply Forall_impl; [exact R8|]. intros x Hx. simpl in Hx. rewrite Hid in Hx. lia.
Qed.

(** ** The invariant of the threads *)
Definition simulated (w : world) : Prop := exists G, sim G w /\ next_span (emissions (owed w)) = 0%nat.

Lemma owed_starts s ps cs rs r :
  next_span (emissions (owed {| shared := s; pending := ps; streams := cs; running := rs |})) = 0%nat ->
  next_span (emissions (rest r)) = 0%nat ->
  forall s' ps' cs', next_span (emissions (owed {| shared := s'; pending := ps'; streams := cs'; running := rs ++ [r] |})) = 0%nat.
Proof. unfold owed. simpl. intros H1 H2 s' ps' cs'. rewrite rests_snoc, starts_app. lia. Qed.

Lemma step_simulated w w' : step otel w w' -> simulated w -> simulated w'.
Proof.
  destruct 1 as [s ps cs rs method uri stream now a l id p Ha|s ps cs rs|s ps1 p ps2 cs rs o now|s ps1 p ps2 cs rs status now c
    |s ps cs1 c cs2 rs o now|s ps cs1 c cs2 rs now|s ps cs rs1 a l h sp rs2|s ps cs rs1 h sp rs2]; intros (G & Hsim & Hn).
  - destruct (sim_request G s ps cs rs method uri stream now a l Ha Hsim Hn) as [G' HG]. exists G'. split; [done|].
    eapply owed_starts; [exact Hn|]. simpl. unfold id in Ha.
    destruct (start_facts otel (next_span (Accounting.emitted s)) (is_some (Accounting.counters s)) method uri stream) as (_ & a' & l' & Hl & Hs).
    rewrite Ha in Hl. by injection Hl as -> ->.
  - destruct (sim_retry _ _ _ _ _ Hsim) as [G' HG]. exists G'. split; [done|]. eapply owed_starts; [exact Hn|]. apply retry_facts.
  - destruct (sim_finish _ _ _ _ _ _ _ o now Hsim) as [G' HG]. exists G'. split; [done|]. eapply owed_starts; [exact Hn|]. apply finish_facts.
  - destruct (sim_into_stream _ _ _ _ _ _ _ status now Hsim) as [G' HG]. exists G'. split; [done|]. by eapply owed_starts.
  - destruct (sim_complete _ _ _ _ _ _ _ o now Hsim) as [G' HG]. exists G'. split; [done|]. eapply owed_starts; [exact Hn|]. apply complete_facts.
  - destruct (sim_drop _ _ _ _ _ _ _ now Hsim) as [G' HG]. exists G'. split; [done|]. eapply owed_starts; [exact Hn|]. apply drop_stream_facts.
  - exists G. split; [by eapply sim_act|]. unfold owed in *. simpl in *. rewrite fmap_app, concat_app, !starts_app in *.
    rewrite rests_cons in *. simpl in *. change (a :: l ++ concat (rest <$> rs2)) with ([a] ++ l ++ concat (rest <$> rs2)) in Hn.
    rewrite !starts_app in *. lia.
  - exists G. split; [by eapply sim_return|]. unfold owed in *.
    assert (running (deliver h {| shared := s; pending := ps; streams := cs; running := rs1 ++ rs2 |}) = rs1 ++ rs2) as -> by (by destruct h).
    simpl in *. by rewrite fmap_app, concat_app in *.
Qed.

Lemma reachable_simulated w : rtc (step otel) (initial enabled) w -> simulated w.
Proof.
  apply (rtc_invariant (step otel) simulated); [|intros a b Hab Ha; by eapply step_simulated].
  exists (Accounting.initial enabled). split; [|done]. split; try done; try constructor.
  simpl. destruct enabled; [|done]. simpl. split; [done|]. split; [|by split].
  split.
  - intros []; simpl; unfold in_range, lookup_count, u64_max; rewrite ?lookup_empty; simpl; lia.
  - unfold positive, counted_once; simpl; split_and!; apply map_Forall_empty.
  - intros [] _; simpl; unfold lookup_count; rewrite ?lookup_empty; done.
Qed.

End Simulation.

End Interleaved.
