(* ===== verification/InterleavingTheorems.v ===== *)
(** * The accounting a client's threads leave behind (core/metrics.rs, core/otel.rs)

    What the simulation of [Interleaving] says of the counters, of the snapshots taken
    of them and of the calls into OpenTelemetry, whatever the threads interleave. *)
From Stdlib Require Import Ascii String.
From S2P Require Import Prelude Float64 Text HttpApi UriText Errors Redaction UriResolve Extensions Metrics Otel Interleaving.

Module Balance.
Import Otel Interleaved.

(** The requests and streams whose outcome is still to come, those included that a
    call under way will hand over. *)
Definition unfinished (w : world) : Z :=
  Z.of_nat (length (pending w ++ requests_of (running w))) +
  countb (fun c => Metrics.open_stream (Accounting.stream_base c)) (streams w ++ streams_of (running w)).

(** A count of the client as it stands, and with what the calls under way still owe it. *)
Definition reading (d : datum) (w : world) : Z :=
  match Accounting.counters (shared w) with Some i => read d i | None => 0 end.
Definition due (d : datum) (w : world) : Z := reading d w + owed_to d (owed w).

(** The count a snapshot shows. *)
Definition shown (d : datum) (s : Metrics.MetricsSnapshot) : Z :=
  match d with
  | DAtomic c =>
    match c with
    | Metrics.requests_started => Metrics.rm_started (Metrics.requests s)
    | Metrics.requests_succeeded => Metrics.rm_succeeded (Metrics.requests s)
    | Metrics.requests_failed => Metrics.rm_failed (Metrics.requests s)
    | Metrics.requests_canceled => Metrics.rm_canceled (Metrics.requests s)
    | Metrics.retries => Metrics.rm_retries (Metrics.requests s)
    | Metrics.timeout_transport => Metrics.tm_transport (Metrics.timeouts s)
    | Metrics.timeout_response_body => Metrics.tm_response_body (Metrics.timeouts s)
    | Metrics.deadline_exceeded => Metrics.tm_deadline_exceeded (Metrics.timeouts s)
    | Metrics.transport_errors => Metrics.em_transport (Metrics.errors s)
    | Metrics.read_body_errors => Metrics.em_read_body (Metrics.errors s)
    | Metrics.write_body_errors => Metrics.em_write_body (Metrics.errors s)
    | Metrics.response_body_too_large => Metrics.em_response_body_too_large (Metrics.errors s)
    | Metrics.http_status_errors => Metrics.em_http_status (Metrics.errors s)
    | Metrics.in_flight => Metrics.rm_in_flight (Metrics.requests s)
    | Metrics.latency_total_ms => Metrics.lm_total_ms (Metrics.latency s)
    | Metrics.latency_samples => Metrics.lm_samples (Metrics.latency s)
    end
  | DStatus k => lookup_count k (Metrics.rs_status_counts (Metrics.responses s))
  | DErrorCode k => lookup_count k (Metrics.em_by_code (Metrics.errors s))
  | DTimeoutPhase k => lookup_count k (Metrics.em_by_timeout_phase (Metrics.errors s))
  | DTransportErrorKind k => lookup_count k (Metrics.em_by_transport_kind (Metrics.errors s))
  | DHttpStatusError k => lookup_count k (Metrics.em_by_http_status (Metrics.errors s))
  end.

Lemma shown_snapshot d i : shown d (Metrics.snapshot (Some i)) = read d i.
Proof. by destruct d as [[]| | | | |]. Qed.

#[local] Instance counter_dec : EqDecision Metrics.counter.
Proof. solve_decision. Defined.

Section Counts.
Context `{Http}.
Variable otel : OtelTelemetry.

Lemma live_unfinished enabled G w : sim otel enabled G w -> live G = unfinished w.
Proof.
  intros [_ Hp Hc _ _ _ _ _ _]. unfold live, unfinished, Metrics.unfinished, Accounting.silent. cbn -[fmap].
  rewrite length_fmap, Hp. f_equal. rewrite <- (countb_perm _ _ _ Hc). clear Hc.
  induction (Accounting.streams G) as [|c cs IH]; [reflexivity|]. rewrite fmap_cons, !countb_cons. by rewrite IH.
Qed.

(** The counters of a client that has them, beside those of its run of whole operations. *)
Lemma simulated_counters w : rtc (step otel) (initial true) w -> exists G i' i,
  sim otel true G w /\ next_span (emissions (owed w)) = 0%nat /\ Forall action_ok (owed w) /\
  Accounting.counters (Accounting.ledger G) = Some i' /\ Accounting.counters (shared w) = Some i /\ tracks i' i (owed w) /\
  (Metrics.atomics i' Metrics.requests_started < u64_max ->
    Metrics.balanced i' (unfinished w) /\ flying i' i (owed w) (unfinished w)).
Proof.
  intros (G & Hsim & Hn)%(reachable_simulated otel true). pose proof (live_unfinished true G w Hsim) as Hl.
  pose proof Hsim as [R1 _ _ _ _ R6 _ _ R9]. apply Accounting.silent_steps in R1.
  destruct (Metrics.metrics_inv_reachable _ R1) as (i1 & [Hi1 _ B _ _]). cbn in Hi1. rewrite Hi1 in R9.
  destruct (Accounting.counters (shared w)) as [i|] eqn:Hi; [|done]. destruct R9 as (_ & Ht & Hf).
  exists G, i1, i. split_and!; try done; [by apply calls_actions_ok|]. intros Hlt. rewrite <- Hl. split; [exact (B Hlt)|exact (Hf Hlt)].
Qed.

(** Below saturation, a count of the whole operations is the count and what is due to it. *)
Lemma due_eq w i' i d : Accounting.counters (shared w) = Some i -> tracks i' i (owed w) ->
  grows d -> read d i' < u64_max -> read d i' = due d w.
Proof. intros Hi [_ _ Hd] Hg. rewrite Hd by done. unfold due, reading. rewrite Hi. lia. Qed.

Lemma due_balanced w : rtc (step otel) (initial true) w -> due (DAtomic Metrics.requests_started) w < u64_max ->
  let n c := due (DAtomic c) w in
  n Metrics.requests_started =
    n Metrics.requests_succeeded + n Metrics.requests_failed + n Metrics.requests_canceled + n Metrics.in_flight /\
  n Metrics.in_flight = unfinished w /\
  n Metrics.latency_samples = n Metrics.requests_succeeded + n Metrics.requests_failed + n Metrics.requests_canceled.
Proof.
  intros (G & i' & i & _ & _ & Hok & _ & Hi & Ht & Hb)%simulated_counters Hlt n.
  pose proof (tr_read _ _ _ Ht (DAtomic Metrics.requests_started) ltac:(done)) as Hs. cbn [read] in Hs.
  assert (Metrics.atomics i Metrics.requests_started + owed_to (DAtomic Metrics.requests_started) (owed w) = n Metrics.requests_started) as Hn
    by (unfold n, due, reading; by rewrite Hi). fold (n Metrics.requests_started) in Hlt.
  destruct (Hb ltac:(lia)) as [[Hnn Hl Hst Hsm _ _ _ _ _ _] [Hf _]].
  pose proof (due_eq w i' i) as He. assert (n Metrics.in_flight = unfinished w) as Hfl.
  { unfold n, due, reading. rewrite Hi, owed_in_flight by done. cbn [read]. lia. }
  pose proof (Hnn Metrics.requests_succeeded ltac:(done) ltac:(done)). pose proof (Hnn Metrics.requests_failed ltac:(done) ltac:(done)).
  pose proof (Hnn Metrics.requests_canceled ltac:(done) ltac:(done)). pose proof (Hnn Metrics.in_flight ltac:(done) ltac:(done)).
  pose proof (He (DAtomic Metrics.requests_succeeded) Hi Ht ltac:(done) ltac:(cbn [read]; lia)) as E1.
  pose proof (He (DAtomic Metrics.requests_failed) Hi Ht ltac:(done) ltac:(cbn [read]; lia)) as E2.
  pose proof (He (DAtomic Metrics.requests_canceled) Hi Ht ltac:(done) ltac:(cbn [read]; lia)) as E3.
  pose proof (He (DAtomic Metrics.latency_samples) Hi Ht ltac:(done) ltac:(cbn [read]; lia)) as E4.
  cbn [read] in E1, E2, E3, E4. unfold n in *. lia.
Qed.

Lemma tracks_rest i' i : tracks i' i [] -> forall d, grows d -> read d i' = read d i.
Proof.
  intros [Hr _ Ht] d Hg. rewrite Ht by done. cbn [owed_to foldr]. specialize (Hr d). unfold in_range in Hr. lia.
Qed.

(** With no call under way, the counters are those of the whole operations. *)
Lemma resting_counters w : rtc (step otel) (initial true) w -> running w = [] ->
  reading (DAtomic Metrics.requests_started) w < u64_max ->
  exists i, Accounting.counters (shared w) = Some i /\ Metrics.balanced i (unfinished w).
Proof.
  intros (G & i' & i & _ & _ & _ & _ & Hi & Ht & Hb)%simulated_counters Hw Hlt. exists i. split; [done|].
  assert (owed w = []) as Ho by (unfold owed; by rewrite Hw). rewrite Ho in *.
  pose proof (tracks_rest i' i Ht) as Hd.
  unfold reading in Hlt. rewrite Hi in Hlt. cbn [read] in Hlt.
  pose proof (Hd (DAtomic Metrics.requests_started) ltac:(done)) as Hst. cbn [read] in Hst. destruct (Hb ltac:(lia)) as [B [Hf _]]. rewrite !countb_nil in Hf.
  assert (forall c, Metrics.atomics i' c = Metrics.atomics i c) as Ha.
  { intros c. destruct (decide (c = Metrics.in_flight)) as [->|Hc]; [rewrite (Metrics.bal_live _ _ B); lia|].
    apply (Hd (DAtomic c)). intros [= ?]. done. }
  destruct Ht as [_ [Hp Hp'] _]. destruct Hp as (P1 & P2 & P3 & P4 & P5), Hp' as (Q1 & Q2 & Q3 & Q4 & Q5).
  pose proof (counted_once_eq _ _ Q1 P1 (fun k => Hd (DStatus k) ltac:(done))) as M1.
  pose proof (counted_once_eq _ _ Q2 P2 (fun k => Hd (DErrorCode k) ltac:(done))) as M2.
  pose proof (counted_once_eq _ _ Q3 P3 (fun k => Hd (DTimeoutPhase k) ltac:(done))) as M3.
  pose proof (counted_once_eq _ _ Q4 P4 (fun k => Hd (DTransportErrorKind k) ltac:(done))) as M4.
  pose proof (counted_once_eq _ _ Q5 P5 (fun k => Hd (DHttpStatusError k) ltac:(done))) as M5.
  destruct B as [B0 B1 B2 B3 B4 B5 B6 B7 B8 B9]. rewrite !Ha in *. rewrite M1, M2, M3, M4, M5 in *.
  split; try done. intros c. rewrite <- Ha. apply B0.
Qed.

(** ** Steps and counts *)
Lemma step_reading w w' d : step otel w w' -> Forall action_ok (owed w) ->
  (forall e, in_range (reading e w)) -> grows d -> reading d w <= reading d w'.
Proof.
  intros Hs Hok Hr Hg.
  assert (forall a s, action_ok a -> shared w = s -> reading d w <=
    match Accounting.counters (perform a s) with Some i => read d i | None => 0 end) as Hact.
  { intros a s Ha <-. specialize (Hr d). unfold reading, perform in *. cbn. destruct (Accounting.counters (shared w)) as [i|].
    - destruct (count_read a i) as (i2 & -> & _ & Hread). rewrite Hread by done. pose proof (effect_grows a d Ha Hg).
      unfold clamp, in_range in *. lia.
    - by destruct a. }
  destruct Hs as [s ps cs rs method uri stream now a l id p Ha| | | | | |s ps cs rs1 a l h sp rs2|s ps cs rs1 h sp rs2];
    try done.
  - apply (Hact a s); [|done]. destruct (start_facts otel id (is_some (Accounting.counters s)) method uri stream) as [[Hall _ _ _ _] _].
    rewrite Ha in Hall. by apply Forall_cons in Hall as [? _].
  - apply (Hact a s); [|done]. unfold owed in Hok. cbn in Hok. rewrite fmap_app, concat_app, Forall_app in Hok.
    destruct Hok as [_ Hok]. by apply Forall_cons in Hok as [? _].
  - by destruct h.
Qed.

Lemma reachable_ranges enabled w : rtc (step otel) (initial enabled) w ->
  Forall action_ok (owed w) /\ forall d, in_range (reading d w).
Proof.
  intros (G & [_ _ _ _ _ R6 _ _ R9] & _)%reachable_simulated. split; [by apply calls_actions_ok|]. intros d. unfold reading.
  destruct (Accounting.counters (Accounting.ledger G)), (Accounting.counters (shared w)) as [i|]; try done.
  destruct R9 as (_ & [Hr _ _] & _). apply Hr.
Qed.

Lemma steps_reading enabled w w' d : rtc (step otel) (initial enabled) w -> rtc (step otel) w w' -> grows d -> reading d w <= reading d w'.
Proof.
  intros Hr Hs Hg. revert Hr. induction Hs as [w|w w1 w2 Hs _ IH]; intros Hr; [done|].
  destruct (reachable_ranges enabled w Hr) as [Hok Hrange]. pose proof (step_reading w w1 d Hs Hok Hrange Hg).
  specialize (IH (rtc_r _ _ _ Hr Hs)). lia.
Qed.

End Counts.

(** ** Snapshots *)
#[local] Instance cell_dec : EqDecision cell.
Proof. solve_decision. Defined.

Definition cell_of (d : datum) : cell :=
  match d with
  | DAtomic c => Atomic c
  | DStatus _ => StatusCounts
  | DErrorCode _ => ErrorCodeCounts
  | DTimeoutPhase _ => TimeoutPhaseCounts
  | DTransportErrorKind _ => TransportErrorKindCounts
  | DHttpStatusError _ => HttpStatusErrorCounts
  end.

Lemma load_read k d i into : read d (load k i into) = if decide (cell_of d = k) then read d i else read d into.
Proof.
  case_decide as Hk; [subst k; destruct d as [[]| | | | |]; done|].
  destruct k as [c| | | | |], d as [c'| | | | |]; try done. cbn in *.
  destruct (Metrics.counter_beq c' c) eqn:Hc; [|done]. destruct Hk. f_equal. by destruct c, c'.
Qed.

(** A count that was loaded is the count of some moment in between, one that was not is
    what it was. *)
Lemma loads_moment others cells w into w' loaded d : loads others cells w into w' loaded ->
  rtc others w w' /\
  ((exists w1, rtc others w w1 /\ rtc others w1 w' /\ read d loaded = reading d w1) \/
   (cell_of d ∉ cells) /\ read d loaded = read d into).
Proof.
  induction 1 as [w into|cells w w1 into w' loaded Hs _ [Hr IH]|k cells w i into w' loaded Hi _ [Hr IH]].
  - split; [done|]. right. split; [apply not_elem_of_nil|done].
  - split; [by eapply rtc_l|]. destruct IH as [(w2 & H1 & H2 & H3)|IH]; [left|by right]. exists w2. split_and!; [by eapply rtc_l|done|done].
  - split; [done|]. destruct IH as [IH|[Hn IH]]; [by left|]. rewrite load_read in IH. case_decide as Hk.
    + left. exists w. split_and!; [done|done|]. unfold reading. by rewrite Hi.
    + right. split; [|done]. by intros [?|?]%elem_of_cons.
Qed.

Lemma snapshot_cells_all d : cell_of d ∈ snapshot_cells.
Proof. apply (bool_decide_unpack _). by destruct d as [[]| | | | |]. Qed.

Lemma snapshot_moment others w w' snap d :
  snapshot_taken others w w' snap -> is_some (Accounting.counters (shared w)) = true ->
  exists w1, rtc others w w1 /\ rtc others w1 w' /\ shown d snap = reading d w1.
Proof.
  unfold snapshot_taken. destruct (Accounting.counters (shared w)) as [i|]; [|done]. intros (loaded & Hl & ->) _.
  destruct (loads_moment _ _ _ _ _ _ d Hl) as [_ [Hm|[Hn _]]]; [by setoid_rewrite shown_snapshot|].
  destruct Hn. apply snapshot_cells_all.
Qed.

(** The others may come in anywhere: here after the first cells. *)
Lemma loads_run others cells1 cells2 w i w' i' into :
  Accounting.counters (shared w) = Some i -> Accounting.counters (shared w') = Some i' -> rtc others w w' ->
  loads others (cells1 ++ cells2) w into w'
    (fold_left (fun into k => load k i' into) cells2 (fold_left (fun into k => load k i into) cells1 into)).
Proof.
  intros Hi Hi' Hs. revert into. induction cells1 as [|k cells1 IH]; intros into; [cbn|by eapply loads_cell].
  clear Hi. induction Hs as [w|w w1 w2 Hs _ IH]; [|eapply loads_other; [done|by apply IH]].
  revert into. induction cells2 as [|k cells2 IH]; intros into; [constructor|by eapply loads_cell].
Qed.

(** With nobody else at work, a snapshot is the counters. *)
Definition alone : relation world := fun _ _ => False.

Lemma loads_alone cells w i into w' loaded : Accounting.counters (shared w) = Some i ->
  loads alone cells w into w' loaded -> loaded = fold_left (fun into k => load k i into) cells into.
Proof.
  intros Hi. induction 1 as [w into|cells w w1 into w' loaded Hs|k cells w j into w' loaded Hj _ IH]; [done|done|].
  rewrite Hi in Hj. injection Hj as <-. by apply IH.
Qed.

Lemma snapshot_alone w i : Accounting.counters (shared w) = Some i ->
  (exists snap, snapshot_taken alone w w snap) /\
  forall snap, snapshot_taken alone w w snap -> snap = Metrics.snapshot (Some i).
Proof.
  intros Hi. unfold snapshot_taken. rewrite Hi. split.
  - eexists _, _. split; [|reflexivity]. rewrite <- (app_nil_r snapshot_cells).
    by eapply loads_run; [..|apply rtc_refl].
  - intros snap (loaded & Hl & ->). rewrite (loads_alone _ _ _ _ _ _ Hi Hl). reflexivity.
Qed.

(** ** Spans *)
Lemma handles_spans rs :
  omap (fun r => handle_span (gives r)) rs ≡ₚ omap Accounting.pending_span (requests_of rs) ++ omap Accounting.open_span (streams_of rs).
Proof.
  induction rs as [|r rs IH]; [done|].
  change (r :: rs) with ([r] ++ rs). unfold requests_of, streams_of in *. rewrite !omap_app, IH.
  destruct r as [l [|p|c] sp]; cbn; [done|destruct (Accounting.pending_span p)|destruct (Accounting.open_span c)]; cbn; solve_Permutation.
Qed.

Section Spans.
Context `{Http}.
Variables (inner : OtelInner) (enabled : bool).
Let otel : OtelTelemetry := {| otel_inner := Some inner |}.

Lemma ghost_held G w : sim otel enabled G w ->
  Accounting.held_spans G ≡ₚ held w ++ omap (fun r => handle_span (gives r)) (running w).
Proof.
  intros [_ Hp Hc _ _ _ _ _ _]. unfold Accounting.held_spans, held. rewrite Hp, Hc, !omap_app, handles_spans. solve_Permutation.
Qed.

Lemma handle_elem rs id : Forall call_ok rs -> id ∈ omap (fun r => handle_span (gives r)) rs -> id ∈ omap call_span rs.
Proof.
  intros Hok (r & Hr & Hid)%list_elem_of_omap. rewrite Forall_forall in Hok. destruct (Hok r Hr) as [_ _ Hh _].
  apply list_elem_of_omap. exists r. split; [done|]. destruct Hh; congruence.
Qed.

(** The one call about a span. *)
Lemma call_alone G w r id : sim otel enabled G w -> r ∈ running w -> call_span r = Some id ->
  Accounting.about id (emissions (owed w)) = Accounting.about id (emissions (rest r)) /\
  (id ∈ held w ++ omap (fun r => handle_span (gives r)) (running w) <-> handle_span (gives r) = Some id).
Proof.
  intros [_ _ _ _ _ R6 R7 _ _] (rs1 & rs2 & Hrs)%list_elem_of_split Hspan. unfold owners in R7. unfold owed. rewrite Hrs in *.
  rewrite omap_app in R7. cbn in R7. rewrite Hspan in R7. apply NoDup_app in R7 as (_ & N1 & N2).
  apply NoDup_app in N2 as (_ & N2 & N3). apply NoDup_cons in N3 as [N3 _]. rewrite Forall_app, Forall_cons in R6.
  destruct R6 as (C1 & _ & C2).
  assert (id ∉ omap call_span rs1) as O1 by (intros Hin; apply (N2 id Hin); left).
  split.
  - rewrite fmap_app, concat_app, rests_cons, !emissions_app, !Accounting.about_app.
    rewrite (about_others id rs1), (about_others id rs2) by done. by rewrite app_nil_r.
  - rewrite omap_app, !elem_of_app. split.
    + intros [Hin|[Hin|Hin]]; [destruct (N1 id Hin); apply elem_of_app; right; left|by destruct (O1 (handle_elem _ _ C1 Hin))|].
      cbn in Hin. destruct (handle_span (gives r)) as [id'|]; [|by destruct (N3 (handle_elem _ _ C2 Hin))].
      apply elem_of_cons in Hin as [->|Hin]; [done|by destruct (N3 (handle_elem _ _ C2 Hin))].
    + intros Hh. right; right. cbn. rewrite Hh. left.
Qed.

(** A span is held, spoken about by the one call that has it, or closed. *)
Lemma span_state G w id : sim otel enabled G w -> next_span (emissions (owed w)) = 0%nat ->
  (id < next_span (Accounting.emitted (shared w)))%nat ->
  let log := Accounting.emitted (shared w) in
  exists method uri stream,
    ((id ∈ held w) /\ Accounting.about id log = Accounting.opening inner id method uri stream) \/
    (exists r, r ∈ running w /\ call_span r = Some id /\
      let whole := Accounting.about id (log ++ emissions (rest r)) in
      (handle_span (gives r) = Some id /\ whole = Accounting.opening inner id method uri stream \/
       handle_span (gives r) = None /\ exists o, whole = Accounting.opening inner id method uri stream ++ Accounting.closing id o)) \/
    ((id ∉ owners w) /\ exists o, Accounting.about id log =
      Accounting.opening inner id method uri stream ++ Accounting.closing id o).
Proof.
  intros Hsim Hn Hid log. pose proof (ghost_held G w Hsim) as Hheld. pose proof (sim_next_span _ _ _ _ Hsim Hn) as Hnext.
  pose proof Hsim as [R1 _ _ _ R5 R6 R7 _ _]. specialize (R5 id).
  destruct (Accounting.world_ok_reachable inner enabled G R1) as [_ _ [_ _ Hs _ _ _ _]].
  destruct (Hs id ltac:(lia)) as (method & uri & stream & Hcase). exists method, uri, stream.
  destruct (decide (id ∈ omap call_span (running w))) as [Hrun|Hrun].
  - right; left. apply list_elem_of_omap in Hrun as (r & Hr & Hspan). exists r. split_and!; [done|done|]. cbn zeta.
    destruct (call_alone G w r id Hsim Hr Hspan) as [Hab Hmem]. rewrite Accounting.about_app, <- Hab. unfold log. rewrite <- R5.
    rewrite Hheld, Hmem in Hcase. rewrite Forall_forall in R6. destruct (R6 r Hr) as [_ _ Hh _]. rewrite Hspan in Hh.
    destruct Hcase as [[Hin Habout]|[Hnot [o Habout]]]; [left; by split|right]. split; [by destruct Hh|by exists o].
  - assert (Accounting.about id (emissions (owed w)) = []) as Hab by (by apply about_others).
    rewrite Hab, app_nil_r in R5. unfold log. rewrite <- R5.
    assert (id ∈ Accounting.held_spans G <-> id ∈ held w) as Hmem.
    { rewrite Hheld, elem_of_app. split; [intros [?|Hin]; [done|]|by left]. destruct Hrun. by apply handle_elem. }
    destruct Hcase as [[Hin Habout]|[Hnot Habout]]; [left; by rewrite <- Hmem|right; right]. split; [|done].
    unfold owners. rewrite elem_of_app, <- Hmem. tauto.
Qed.

(** What was said and what is still to be said, counted. *)
Lemma said_counts G w : sim otel enabled G w -> next_span (emissions (owed w)) = 0%nat ->
  let said := Accounting.emitted (shared w) ++ emissions (owed w) in
  Accounting.adds "reqx.request.started" said = Z.of_nat (next_span (Accounting.emitted (shared w))) /\
  Accounting.adds "reqx.request.started" said = Accounting.ends said + unfinished w /\
  Accounting.ends said = Accounting.adds "reqx.request.succeeded" said + Accounting.adds "reqx.request.failed" said +
    Accounting.adds "reqx.request.canceled" said /\
  Accounting.samples said = Accounting.ends said.
Proof.
  intros Hsim Hn said. rewrite <- (live_unfinished otel enabled G w Hsim), <- (sim_next_span _ _ _ _ Hsim Hn).
  pose proof Hsim as [R1 _ _ R4 _ _ _ _ _]. fold said in R4.
  pose proof (Accounting.world_ok_reachable inner enabled G R1) as Hok. unfold live. rewrite <- (Accounting.held_unfinished inner G Hok).
  destruct Hok as [_ _ [_ _ _ Hst He Hsm Ho]]. unfold Accounting.adds, Accounting.ends, Accounting.samples in *.
  rewrite <- !(countb_perm _ _ _ R4). done.
Qed.

End Spans.

(** At rest the client's own counters and the emitted ones agree. *)
Lemma resting_agree `{Http} inner w (otel := {| otel_inner := Some inner |}) :
  rtc (step otel) (initial true) w -> running w = [] ->
  exists i, Accounting.counters (shared w) = Some i /\ Accounting.agrees i (Accounting.emitted (shared w)).
Proof.
  intros (G & i' & i & Hsim & _ & _ & Hi' & Hi & Ht & _)%simulated_counters Hw. exists i. split; [done|].
  pose proof Hsim as [R1 _ _ R4 _ _ _ _ _]. destruct (Accounting.agree_reachable inner G R1) as (j & Hj & Hag).
  rewrite Hi' in Hj. injection Hj as <-. assert (owed w = []) as Ho by (unfold owed; by rewrite Hw). rewrite Ho in *.
  cbn in R4. rewrite app_nil_r in R4. pose proof (tracks_rest i' i Ht) as Hd. destruct Hag.
  split; unfold Accounting.adds, Accounting.samples in *; rewrite <- (countb_perm _ _ _ R4);
    match goal with |- Metrics.atomics i ?c = _ => by etransitivity; [exact (eq_sym (Hd (DAtomic c) ltac:(done)))|] end.
Qed.

Lemma resting_held `{Http} inner enabled w : rtc (step {| otel_inner := Some inner |}) (initial enabled) w -> running w = [] ->
  Z.of_nat (length (held w)) = unfinished w.
Proof.
  intros (G & Hsim & _)%reachable_simulated Hw. pose proof (ghost_held inner enabled G w Hsim) as Hheld. rewrite Hw, app_nil_r in Hheld.
  rewrite <- (live_unfinished _ _ G w Hsim), <- Hheld. apply (Accounting.held_unfinished inner).
  by apply (Accounting.world_ok_reachable inner enabled), (sim_reach _ _ _ _ Hsim).
Qed.

Lemma silent_log `{Http} enabled w : rtc (step disabled) (initial enabled) w -> Accounting.emitted (shared w) = [].
Proof.
  intros (G & [R1 _ _ R4 _ _ _ _ _] & _)%reachable_simulated. destruct (Accounting.quiet_reachable enabled G R1) as [_ _ Hq].
  rewrite Hq in R4. symmetry in R4. apply Permutation_nil_r in R4. by apply app_nil in R4 as [? _].
Qed.

End Balance.

(** ** Properties *)
Section Properties.
Context `{Http}.
Import Otel Interleaved Balance.


(** C32: Whether the client counts or not, and however its threads interleave: with
    telemetry enabled, a span belongs to one request, stream or call. One held by a
    request or stream that nobody is calling has only its opening attributes. One
    that a call has, will have had, when the call's remaining actions are done, its
    opening attributes, and, unless the call hands the span back, exactly one
    outcome. Every other was closed by exactly one outcome after its opening
    attributes, with nothing said after it and its handle dropped. Counting what the
    calls under way have still to say, each span was counted as started, those that
    did not end are those whose outcome is still to come, and each outcome was
    counted once, with one latency sample. With no call under way, the spans held
    are as many as the requests and streams whose outcome is to come, and the
    counters emitted and those of a client that counts agree (the latter saturate).
    Disabled telemetry emits nothing. *)
Theorem otel_spans_closed_once (otel : OtelTelemetry) (metrics_enabled : bool) w :
  rtc (step otel) (initial metrics_enabled) w ->
  match otel_inner otel with
  | None => Accounting.emitted (shared w) = []
  | Some inner =>
    let log := Accounting.emitted (shared w) in
    let said := log ++ emissions (owed w) in
    NoDup (owners w) /\
    (forall id, (id < next_span log)%nat -> exists method uri stream,
      ((id ∈ held w) /\ Accounting.about id log = Accounting.opening inner id method uri stream) \/
      (exists r, r ∈ running w /\ call_span r = Some id /\
        let whole := Accounting.about id (log ++ emissions (rest r)) in
        (handle_span (gives r) = Some id /\ whole = Accounting.opening inner id method uri stream \/
         handle_span (gives r) = None /\ exists o, whole = Accounting.opening inner id method uri stream ++ Accounting.closing id o)) \/
      ((id ∉ owners w) /\ exists o, Accounting.about id log =
        Accounting.opening inner id method uri stream ++ Accounting.closing id o)) /\
    Accounting.adds "reqx.request.started" said = Z.of_nat (next_span log) /\
    Accounting.adds "reqx.request.started" said = Accounting.ends said + unfinished w /\
    Accounting.ends said = Accounting.adds "reqx.request.succeeded" said + Accounting.adds "reqx.request.failed" said +
      Accounting.adds "reqx.request.canceled" said /\
    Accounting.samples said = Accounting.ends said /\
    (running w = [] -> Z.of_nat (length (held w)) = unfinished w) /\
    (metrics_enabled = true -> running w = [] ->
      exists i, Accounting.counters (shared w) = Some i /\ Accounting.agrees i log)
  end.
Proof.
  destruct otel as [[inner|]]; cbn [otel_inner]; intros Hr; [|by eapply silent_log].
  pose proof (reachable_simulated _ _ _ Hr) as (G & Hsim & Hn). cbn zeta.
  destruct (said_counts inner metrics_enabled G w Hsim Hn) as (C1 & C2 & C3 & C4). split_and!; try done.
  - by apply (sim_owners _ _ _ _ Hsim).
  - intros id Hid. by apply (span_state inner metrics_enabled G w id Hsim Hn).
  - by eapply resting_held.
  - intros -> Hw. by apply (resting_agree inner).
Qed.

End Properties.

(** ** Witnesses

    Two threads start a request each, action by action in turn; one request becomes a
    stream, and the other fails while a snapshot is taken: its failure is not in the
    snapshot yet, its latency sample is. *)
Module InterleavingDemo.
Import Otel Interleaved Balance.
#[export] Existing Instance ref_http.

Definition timeout : Error.t := Error.Timeout TimeoutPhase.ResponseBody 5 (lit "GET") (lit "https://a/").

Definition run (l : list command) (w : world) : world := default w (execute_all OtelDemo.otel l w).

Lemma run_steps l w : is_some (execute_all OtelDemo.otel l w) = true -> rtc (step OtelDemo.otel) w (run l w).
Proof.
  unfold run. destruct (execute_all OtelDemo.otel l w) as [w'|] eqn:Hl; [|done]. intros _. exact (execute_steps _ _ _ _ Hl).
Qed.

Definition both_started (metrics_enabled : bool) : list command :=
  [BeginRequest GET OtelDemo.target false 1; BeginRequest GET OtelDemo.target true 2] ++
  mjoin (repeat [Act 1; Act 0] (if metrics_enabled then 8 else 7)) ++ [Return 1; Return 0].
Definition failing : list command :=
  [BeginIntoStream 1 200 3; Return 0; BeginFinish 0 (Metrics.Failed timeout) 9].
Definition to_the_end (metrics_enabled : bool) : list command := repeat (Act 0) (if metrics_enabled then 13 else 12) ++ [Return 0].

Definition under_way (metrics_enabled : bool) : world := run (both_started metrics_enabled ++ failing) (initial metrics_enabled).
Definition finished (metrics_enabled : bool) : world := run (to_the_end metrics_enabled) (under_way metrics_enabled).

Lemma under_way_reachable metrics_enabled : rtc (step OtelDemo.otel) (initial metrics_enabled) (under_way metrics_enabled).
Proof. apply run_steps. destruct metrics_enabled; vm_compute; reflexivity. Qed.

Lemma finished_after metrics_enabled : rtc (step OtelDemo.otel) (under_way metrics_enabled) (finished metrics_enabled).
Proof. apply run_steps. destruct metrics_enabled; vm_compute; reflexivity. Qed.

Lemma finished_reachable metrics_enabled : rtc (step OtelDemo.otel) (initial metrics_enabled) (finished metrics_enabled).
Proof. etransitivity; [apply under_way_reachable|apply finished_after]. Qed.

Definition counters_of (w : world) : Metrics.ClientMetricsInner :=
  default Metrics.inner_default (Accounting.counters (shared w)).

Lemma counters_some w : is_some (Accounting.counters (shared w)) = true -> Accounting.counters (shared w) = Some (counters_of w).
Proof. unfold counters_of. by destruct (Accounting.counters (shared w)). Qed.

(** The snapshot that loads [failed] before the request fails and the rest after. *)
Definition torn : Metrics.MetricsSnapshot :=
  Metrics.snapshot (Some (fold_left (fun into k => load k (counters_of (finished true)) into) (drop 3 snapshot_cells)
    (fold_left (fun into k => load k (counters_of (under_way true)) into) (take 3 snapshot_cells) Metrics.inner_default))).

Lemma torn_taken : snapshot_taken (step OtelDemo.otel) (under_way true) (finished true) torn.
Proof.
  pose proof (counters_some (under_way true) ltac:(vm_compute; reflexivity)) as H1.
  pose proof (counters_some (finished true) ltac:(vm_compute; reflexivity)) as H2.
  unfold snapshot_taken. rewrite H1. eexists. split; [|reflexivity].
  exact (loads_run _ (take 3 snapshot_cells) (drop 3 snapshot_cells) _ _ _ _ _ H1 H2 (finished_after true)).
Qed.

End InterleavingDemo.


Lemma otel_spans_closed_once_witness :
  let log := Accounting.emitted (Interleaved.shared (InterleavingDemo.finished false)) in
  Otel.next_span log = 2%nat /\ Accounting.ends log = 1 /\
  Z.of_nat (length (Interleaved.held (InterleavingDemo.finished false))) = 1 /\
  NoDup (Interleaved.owners (InterleavingDemo.under_way false)) /\
  Accounting.ends (Accounting.emitted (Interleaved.shared (InterleavingDemo.under_way false)) ++
    Interleaved.emissions (Interleaved.owed (InterleavingDemo.under_way false))) = 1.
Proof.
  destruct (otel_spans_closed_once OtelDemo.otel false (InterleavingDemo.finished false) (InterleavingDemo.finished_reachable false))
    as (_ & _ & _ & _ & _ & _ & Hh & _).
  destruct (otel_spans_closed_once OtelDemo.otel false (InterleavingDemo.under_way false) (InterleavingDemo.under_way_reachable false))
    as (Hn & _ & _ & _ & He & _).
  split; [vm_compute; reflexivity|]. split; [vm_compute; reflexivity|].
  split; [etransitivity; [apply Hh|]; vm_compute; reflexivity|]. split; [exact Hn|].
  etransitivity; [exact He|]. vm_compute. reflexivity.
Defined.
