(* ===== verification/Lifecycle.v ===== *)
(** * The life of a streamed response (core/execution/lifecycle.rs, and
    [into_stream_lifecycle] and [StreamResilienceHooks] of core/execution.rs)

    A stream that is handed to the caller carries the guards of its attempt, the
    credit of the retry budget and the accounting of the request; the first of end of
    stream, failure and drop settles all of them.  The trait [StreamOutcomeHooks] is a
    class; its one implementor in the crate is [StreamResilienceHooks]. *)
From S2P Require Import Prelude Float64 Text HttpApi UriText Errors Headers Retry RetryBudget CircuitBreaker.
From S2P Require Import Adaptive Execution Metrics.

Class StreamOutcomeHooks `{Http} (K W : Type) := {
  hooks_complete_success : Instant -> K -> W -> K * W;
  hooks_complete_error : Error.t -> Instant -> K -> W -> K * W;
  hooks_complete_canceled : Instant -> K -> W -> K * W;
}.

Module StreamLifecycle.
Section StreamLifecycle.
Context `{Http} {K W : Type} `{!StreamOutcomeHooks K W}.

Record t := {
  completion : option Metrics.StreamCompletion;
  hooks : option K;
  completed : bool;
}.

Definition default : t := {| completion := None; hooks := None; completed := false |}.

Definition new (h : K) : t := {| completion := None; hooks := Some h; completed := false |}.

Definition attach_completion (c : Metrics.StreamCompletion) (l : t) : t :=
  {| completion := Some c; hooks := hooks l; completed := completed l |}.

(** What the three completions share: the flag, the hooks, then the accounting,
    whose value is dropped at the end of its scope. *)
Definition complete_by (on_hooks : K -> W -> K * W)
    (on_completion : Metrics.StreamCompletion -> Metrics.ClientMetrics ->
                     Metrics.StreamCompletion * Metrics.ClientMetrics)
    (now : Instant) (l : t) (w : W * Metrics.ClientMetrics) : t * (W * Metrics.ClientMetrics) :=
  if completed l then (l, w)
  else
    let '(w, m) := w in
    let w := match hooks l with Some h => (on_hooks h w).2 | None => w end in
    let m := match completion l with
             | Some c => let '(c, m) := on_completion c m in Metrics.drop_stream_completion now c m
             | None => m
             end in
    ({| completion := None; hooks := None; completed := true |}, (w, m)).

Definition complete_success (now : Instant) : t -> W * Metrics.ClientMetrics -> t * (W * Metrics.ClientMetrics) :=
  complete_by (hooks_complete_success now) (Metrics.stream_complete_success now) now.

Definition complete_error (error : Error.t) (now : Instant)
    : t -> W * Metrics.ClientMetrics -> t * (W * Metrics.ClientMetrics) :=
  complete_by (hooks_complete_error error now) (Metrics.stream_complete_error error now) now.

Definition complete_canceled (now : Instant) : t -> W * Metrics.ClientMetrics -> t * (W * Metrics.ClientMetrics) :=
  complete_by (hooks_complete_canceled now) (Metrics.stream_complete_canceled now) now.

(** [Drop], then the drop of a completion that is left. *)
Definition drop (now : Instant) (l : t) (w : W * Metrics.ClientMetrics) : W * Metrics.ClientMetrics :=
  let '(l, (w, m)) := complete_canceled now l w in
  (w, match completion l with Some c => Metrics.drop_stream_completion now c m | None => m end).

(** What a reader does with the stream: any number of completions, then the drop. *)
Inductive call := Succeed | Fail_with (error : Error.t) | Cancel.

Definition complete (c : call) (now : Instant) : t -> W * Metrics.ClientMetrics -> t * (W * Metrics.ClientMetrics) :=
  match c with
  | Succeed => complete_success now
  | Fail_with error => complete_error error now
  | Cancel => complete_canceled now
  end.

Fixpoint run (calls : list (call * Instant)) (dropped_at : Instant) (l : t) (w : W * Metrics.ClientMetrics)
    : W * Metrics.ClientMetrics :=
  match calls with
  | [] => drop dropped_at l w
  | (c, now) :: calls => let '(l, w) := complete c now l w in run calls dropped_at l w
  end.

(** The outcome that counts: the first, or cancellation at the drop. *)
Definition first_call (calls : list (call * Instant)) (dropped_at : Instant) : call * Instant :=
  match calls with [] => (Cancel, dropped_at) | c :: _ => c end.

Lemma run_completed calls dropped_at w :
  run calls dropped_at {| completion := None; hooks := None; completed := true |} w = w.
Proof. induction calls as [|[c now] calls IH]; [by destruct w|]. simpl. by destruct c. Qed.

(** Accounting is idle once its guard is taken. *)
Lemma drop_after_complete_with record now c m now' :
  Metrics.drop_stream_completion now' (Metrics.complete_with record now c m).1
    (Metrics.complete_with record now c m).2 = (Metrics.complete_with record now c m).2.
Proof.
  unfold Metrics.drop_stream_completion, Metrics.stream_complete_canceled, Metrics.complete_with.
  by destruct (Metrics.in_flight_guard c) eqn:Hg; simpl; rewrite ?Hg.
Qed.

Definition outcome_of (c : call) : Metrics.outcome :=
  match c with
  | Succeed => Metrics.Succeeded 0
  | Fail_with error => Metrics.Failed error
  | Cancel => Metrics.Canceled
  end.

Definition hooks_outcome (c : call) (now : Instant) (h : K) (w : W) : W :=
  match c with
  | Succeed => (hooks_complete_success now h w).2
  | Fail_with error => (hooks_complete_error error now h w).2
  | Cancel => (hooks_complete_canceled now h w).2
  end.

Lemma complete_fresh c now l w m :
  completed l = false ->
  complete c now l (w, m) =
    ({| completion := None; hooks := None; completed := true |},
     (match hooks l with Some h => hooks_outcome c now h w | None => w end,
      match completion l with
      | Some s => (Metrics.complete_stream (outcome_of c) now s m).2
      | None => m
      end)).
Proof.
  intros Hc. destruct c; unfold complete, complete_success, complete_error, complete_canceled, complete_by;
    rewrite Hc; (destruct (completion l) as [s|]; [|done]); simpl;
    unfold Metrics.stream_complete_success, Metrics.stream_complete_error, Metrics.stream_complete_canceled;
    (match goal with |- context [let '(_, _) := Metrics.complete_with ?r ?n ?x ?y in _] =>
       pose proof (drop_after_complete_with r n x y n) as Hd; destruct (Metrics.complete_with r n x y) end);
    simpl in *; by rewrite Hd.
Qed.

(** The whole life of a stream is its first outcome. *)
Lemma stream_run_first calls dropped_at l w m c now :
  first_call calls dropped_at = (c, now) -> completed l = false ->
  run calls dropped_at l (w, m) =
    (match hooks l with Some h => hooks_outcome c now h w | None => w end,
     match completion l with
     | Some s => (Metrics.complete_stream (outcome_of c) now s m).2
     | None => m
     end).
Proof.
  intros Hf Hc. destruct calls as [|[c' now'] calls]; simpl in *; simplify_eq.
  - unfold drop. change (complete_canceled now) with (complete Cancel now). by rewrite complete_fresh.
  - rewrite complete_fresh by done. apply run_completed.
Qed.

End StreamLifecycle.
Arguments t : clear implicits.
End StreamLifecycle.

(** ** The hooks of a successful response *)
Record StreamResilienceHooks (C A : Type) := {
  retry_budget : bool;
  attempts : AttemptGuards C A;
}.
Arguments retry_budget {C A} _.
Arguments attempts {C A} _.

Section Hooks.
Context `{Http} {C A S : Type} `{!AttemptOutcome C S} `{!AttemptOutcome A S}.
Context (policy : RetryBudget.RetryBudgetPolicy).

(** The controls a hook settles: the circuit, the adaptive limit, the budget. *)
Definition controls : Type := S * RetryBudget.RetryBudgetState.

Definition settle_hooks (credit : bool) (now : Instant)
    (how : AttemptGuards C A -> S -> AttemptGuards C A * S)
    (h : StreamResilienceHooks C A) (w : controls) : StreamResilienceHooks C A * controls :=
  let budget := if credit && retry_budget h then RetryBudget.record_success policy now w.2 else w.2 in
  let '(g, cs) := how (attempts h) w.1 in
  ({| retry_budget := false; attempts := g |}, (cs, budget)).

#[export] Instance stream_resilience_hooks : StreamOutcomeHooks (StreamResilienceHooks C A) controls := {
  hooks_complete_success now := settle_hooks true now (guards_mark_success now);
  hooks_complete_error _ now := settle_hooks false now (guards_mark_failure now);
  hooks_complete_canceled now := settle_hooks false now guards_cancel;
}.

(** The guards move into the stream unless the response counts as a failure, which
    settles them at once. *)
Definition into_stream_lifecycle (c : RequestCompletion) (now : Instant) (g : AttemptGuards C A)
    (has_budget : bool) (w : S)
    : StreamLifecycle.t (StreamResilienceHooks C A) * (AttemptGuards C A * S) :=
  match c with
  | CompletionFailure => (StreamLifecycle.default, guards_mark_failure now g w)
  | CompletionSuccess =>
    if negb has_budget && guards_is_empty g then (StreamLifecycle.default, (g, w))
    else
      let '(taken, rest) := guards_take g in
      (StreamLifecycle.new {| retry_budget := has_budget; attempts := taken |}, (rest, w))
  end.

(** The state of the controls after a stream whose first outcome is [c]. *)
Definition settled_by (c : StreamLifecycle.call) (now : Instant) (g : AttemptGuards C A) (has_budget : bool)
    (w : controls) : controls :=
  match c with
  | StreamLifecycle.Succeed =>
    ((guards_mark_success now g w.1).2,
     if has_budget then RetryBudget.record_success policy now w.2 else w.2)
  | StreamLifecycle.Fail_with _ => ((guards_mark_failure now g w.1).2, w.2)
  | StreamLifecycle.Cancel => ((guards_cancel g w.1).2, w.2)
  end.

Lemma settled_by_empty c now (w : controls) : settled_by c now no_guards false w = w.
Proof. destruct w. by destruct c. Qed.

End Hooks.

(** ** Properties *)
Section Properties.
Context `{Http}.

(** A streamed response records exactly one terminal outcome: whatever completions
    its reader reports, and at whatever times, before dropping it, the guards, the
    retry budget and the request accounting see the first of them, or a cancellation
    at the drop, and nothing after it. *)
Lemma stream_settles_once {C A S : Type} `{!AttemptOutcome C S} `{!AttemptOutcome A S}
    policy (g : AttemptGuards C A) has_budget started_at calls dropped_at (s : Metrics.StreamCompletion)
    (w : S) budget m :
  let '(lifecycle, (rest, w')) := into_stream_lifecycle CompletionSuccess started_at g has_budget w in
  let '(first, at_time) := StreamLifecycle.first_call calls dropped_at in
  rest = no_guards /\
  StreamLifecycle.run (StreamOutcomeHooks0 := stream_resilience_hooks policy) calls dropped_at
    (StreamLifecycle.attach_completion s lifecycle) ((w', budget), m) =
  (settled_by policy first at_time g has_budget (w, budget),
   (Metrics.complete_stream (StreamLifecycle.outcome_of first) at_time s m).2).
Proof.
  destruct (into_stream_lifecycle CompletionSuccess started_at g has_budget w) as [l [rest w']] eqn:Hl.
  assert (rest = no_guards /\ w' = w /\ StreamLifecycle.completed l = false /\
    match StreamLifecycle.hooks l with
    | Some h => h = {| retry_budget := has_budget; attempts := g |}
    | None => has_budget = false /\ g = no_guards
    end) as (-> & -> & Hc & Hh).
  { unfold into_stream_lifecycle in Hl. destruct has_budget, g as [[c|] [a|]]; simplify_eq/=; done. }
  destruct (StreamLifecycle.first_call calls dropped_at) as [c now] eqn:Hf. split; [done|].
  rewrite (StreamLifecycle.stream_run_first _ _ _ _ _ _ _ Hf) by done.
  f_equal. simpl. destruct (StreamLifecycle.hooks l) as [h|]; subst.
  - destruct c; simpl; by destruct has_budget.
  - destruct Hh as [-> ->]. by rewrite settled_by_empty.
Qed.

End Properties.
