(* ===== verification/Program.v ===== *)
(** * Client programs

    What the request loops of the two clients are written in: a client is a set of
    operations on its surroundings [E] (clocks, the controls of resilience.rs and
    rate_limit.rs shared with other requests, the request limiters, the interceptors
    and observers, the transport), and a program passes the surroundings along, keeps
    the client's metrics and writes down what it does.  Theorems quantify over the
    surroundings, and with them over everything other threads do between two
    operations.  [None] stands for a loop that outruns its fuel.

    The file also holds [RequestContext] of core/policy.rs, and the interceptor and
    observer traits of core/policy.rs and core/observe.rs. *)
From S2P Require Import Prelude Float64 Text HttpApi UriText Errors Timing Retry RateLimit Execution Limiters Metrics.

(** ** Contexts and callbacks *)
Section Callbacks.
Context `{Http}.

Record RequestContext := {
  context_method : Method;
  context_uri : str;
  context_attempt : Z;
  context_max_attempts : Z;
  context_redirect_count : Z;
}.

Definition context (x : RequestExecutionState) : RequestContext :=
  {| context_method := current_method x; context_uri := current_redacted_uri x;
     context_attempt := attempt x; context_max_attempts := max_attempts x;
     context_redirect_count := redirect_count x |}.

Record Interceptor (E : Type) := {
  on_request : RequestContext -> HeaderMap -> E -> HeaderMap * E;
  on_response : RequestContext -> StatusCode -> HeaderMap -> E -> E;
  on_error : RequestContext -> Error.t -> E -> E;
}.

Record Observer (E : Type) := {
  on_request_start : RequestContext -> E -> E;
  on_retry_scheduled : RequestContext -> RetryDecision -> Duration -> E -> E;
  on_server_throttle : RequestContext -> RateLimit.ServerThrottleScope -> Duration -> E -> E;
}.

(** How an attempt guard ends; [EndDrop] is its destructor. *)
Inductive ending := EndSuccess | EndFailure | EndCancel | EndDrop.

(** ** What a program writes down *)
Inductive event (C A P : Type) :=
| RequestStarted (ctx : RequestContext)
| RequestIntercepted (ctx : RequestContext)
| ResponseSeen (ctx : RequestContext) (status : StatusCode)
| ErrorSeen (ctx : RequestContext) (error : Error.t)
| RetryObserved (ctx : RequestContext) (d : RetryDecision) (delay : Duration)
| ThrottleObserved (ctx : RequestContext) (s : RateLimit.ServerThrottleScope) (delay : Duration)
| Slept (d : Duration)
| CircuitBegan (c : C)
| CircuitEnded (how : ending) (c : C)
| AdaptiveBegan (a : A)
| AdaptiveEnded (how : ending) (a : A)
| PermitTaken (p : P)
| PermitDropped (p : P)
| BudgetAsked (granted : bool)
| BudgetCredited
| Sent (method : Method) (uri : str) (streamed : bool)
| ChunkRead (bytes : list Z)
| ChunkWritten (bytes : list Z).

(** ** The surroundings *)
Class Surroundings (E C A P : Type) := {
  env_now : E -> Instant * E;
  env_now_system : E -> SystemTime * E;
  env_sampler : E -> sampler * E;
  env_sleep : Duration -> E -> E;
  env_rate_delay : option str -> E -> Duration * E;
  env_rate_throttle : option str -> Duration -> RateLimit.ServerThrottleScope ->
    option RateLimit.ServerThrottleScope -> E -> RateLimit.ServerThrottleScope * E;
  env_acquire_global : option Instant -> E -> result (option P) Limiters.AcquirePermitError * E;
  env_acquire_host : option str -> option Instant -> E ->
    result (option P) Limiters.AcquirePermitError * E;
  env_drop_permit : P -> E -> E;
  env_circuit_begin : E -> result C Duration * E;
  env_circuit_end : ending -> C -> E -> E;
  env_adaptive_acquire : option Instant -> E -> option A * E;
  env_adaptive_end : ending -> A -> E -> E;
  env_budget_consume : E -> bool * E;
  env_budget_success : E -> E;
}.

End Callbacks.
Arguments on_request {_ E} _.
Arguments on_response {_ E} _.
Arguments on_error {_ E} _.
Arguments on_request_start {_ E} _.
Arguments on_retry_scheduled {_ E} _.
Arguments on_server_throttle {_ E} _.
Arguments RequestStarted {_ C A P} _.
Arguments RequestIntercepted {_ C A P} _.
Arguments ResponseSeen {_ C A P} _ _.
Arguments ErrorSeen {_ C A P} _ _.
Arguments RetryObserved {_ C A P} _ _ _.
Arguments ThrottleObserved {_ C A P} _ _ _.
Arguments Slept {_ C A P} _.
Arguments CircuitBegan {_ C A P} _.
Arguments CircuitEnded {_ C A P} _ _.
Arguments AdaptiveBegan {_ C A P} _.
Arguments AdaptiveEnded {_ C A P} _ _.
Arguments PermitTaken {_ C A P} _.
Arguments PermitDropped {_ C A P} _.
Arguments BudgetAsked {_ C A P} _.
Arguments BudgetCredited {_ C A P}.
Arguments Sent {_ C A P} _ _ _.
Arguments ChunkRead {_ C A P} _.
Arguments ChunkWritten {_ C A P} _.

(** ** The monad *)
Section Monad.
Context `{Http} {E C A P : Type}.

(** The log has the newest event first. *)
Record state := { env : E; metrics : Metrics.ClientMetrics; log : list (event C A P) }.

Definition M (T : Type) : Type := state -> option (T * state).

#[global] Instance program_ret : MRet M := fun T a s => Some (a, s).
#[global] Instance program_bind : MBind M := fun T U k m s =>
  match m s with None => None | Some (a, s) => k a s end.

(** An operation on the surroundings, and the events it amounts to. *)
Definition act {T} (f : E -> T * E) (events : T -> list (event C A P)) : M T := fun s =>
  let '(a, e) := f (env s) in
  Some (a, {| env := e; metrics := metrics s; log := events a ++ log s |}).

Definition act_ (f : E -> E) (events : list (event C A P)) : M unit :=
  act (fun e => (tt, f e)) (fun _ => events).

Definition on_metrics {T} (f : Metrics.ClientMetrics -> T * Metrics.ClientMetrics) : M T := fun s =>
  let '(a, m) := f (metrics s) in Some (a, {| env := env s; metrics := m; log := log s |}).

(** A transition of the whole state, such as the settling of guards. *)
Definition on_state {T} (f : state -> T * state) : M T := fun s => Some (f s).

End Monad.
Arguments state {_} _ _ _ _.
Arguments M {_} _ _ _ _ _.

(** ** Reading the log *)
Section Log.
Context `{Http} {C A P : Type} `{!EqDecision C} `{!EqDecision A} `{!EqDecision P}.
Implicit Types (ev : event C A P).

Definition errors_seen (l : list (event C A P)) : list Error.t :=
  omap (fun ev => match ev with ErrorSeen _ e => Some e | _ => None end) l.

Definition circuit_began (c : C) ev : bool :=
  match ev with CircuitBegan c' => bool_decide (c' = c) | _ => false end.
Definition circuit_ended (c : C) ev : bool :=
  match ev with CircuitEnded _ c' => bool_decide (c' = c) | _ => false end.
Definition adaptive_began (a : A) ev : bool :=
  match ev with AdaptiveBegan a' => bool_decide (a' = a) | _ => false end.
Definition adaptive_ended (a : A) ev : bool :=
  match ev with AdaptiveEnded _ a' => bool_decide (a' = a) | _ => false end.
Definition permit_taken (p : P) ev : bool :=
  match ev with PermitTaken p' => bool_decide (p' = p) | _ => false end.
Definition permit_dropped (p : P) ev : bool :=
  match ev with PermitDropped p' => bool_decide (p' = p) | _ => false end.
Definition by_destructor ev : bool :=
  match ev with CircuitEnded EndDrop _ | AdaptiveEnded EndDrop _ => true | _ => false end.
Definition is_send ev : bool := match ev with Sent _ _ _ => true | _ => false end.
Definition is_streamed_send ev : bool := match ev with Sent _ _ true => true | _ => false end.
Definition is_retry ev : bool := match ev with RetryObserved _ _ _ => true | _ => false end.
Definition is_grant ev : bool := match ev with BudgetAsked true => true | _ => false end.

(** The bytes read from response streams, and copied from them, in order. *)
Definition bytes_read (l : list (event C A P)) : list Z :=
  concat (reverse (omap (fun ev => match ev with ChunkRead bytes => Some bytes | _ => None end) l)).
Definition bytes_written (l : list (event C A P)) : list Z :=
  concat (reverse (omap (fun ev => match ev with ChunkWritten bytes => Some bytes | _ => None end) l)).

(** How many such events a run from [s] to [s'] wrote. *)
Definition added {E : Type} (f : event C A P -> bool) (s s' : state E C A P) : Z :=
  countb f (log s') - countb f (log s).

End Log.
