(* ===== verification/BlockingFacts.v ===== *)
(** * What the blocking client's request loop does

    A small program logic: the tally of a run counts its events, and [wp] says what
    the tally and the result are after a program, whatever the surroundings answer.
    Its rules follow the operations of [Program]; each function of [Blocking] gets one
    lemma, in the order of the source, from the leaves to [send_request]. *)
From S2P Require Import Prelude Float64 Text HttpApi UriText Errors Redaction UriResolve Redirect Proxy.
From S2P Require Import Headers ContentEncoding Timing Responses Retry RetryBudget RateLimit Execution Limiters.
From S2P Require Import Metrics Lifecycle Program Blocking.

Section Facts.
Context `{Http} `{UrlCrate} `{HttpDate} `{Codecs} `{!ProxyCrates}.
Context {E C A P Stream Body : Type} `{!Surroundings E C A P} `{!Ureq E Stream Body}.
Context `{!EqDecision C} `{!EqDecision A} `{!EqDecision P}.
Context (client : Client (E := E)).

(** The circuit attempt, adaptive permit and limiter permit whose balance is kept. *)
Context (c0 : option C) (a0 : option A) (p0 : option P).

Abbreviation St := (state E C A P).
Abbreviation Prog := (M E C A P).
Abbreviation Guards := (AttemptGuards C A).
Abbreviation Strm := (BlockingResponseStream (C := C) (A := A) (P := P) (Body := Body)).
Abbreviation Resp := (RetryResponse (C := C) (A := A) (P := P) (Body := Body)).
Abbreviation TurnEnd := (turn_end (C := C) (A := A) (P := P) (Stream := Stream) (Body := Body)).

(** ** Tallies *)
Definition one_if {T} `{!EqDecision T} (x y : T) : Z := if decide (x = y) then 1 else 0.

Record tally := {
  errors : list Error.t;      (** errors shown to the interceptors, newest first *)
  circuits : Z;               (** times [c0] began, less times it ended *)
  adaptives : Z;              (** the same for [a0] *)
  permits : Z;                (** the same for [p0] *)
  destructed : Z;             (** guards ended by their destructor *)
  sends : Z;                  (** requests given to the transport *)
  streamed : Z;               (** of them, with a streaming body *)
  retries : Z;                (** retries announced to the observers *)
  granted : Z;                (** retries the budget granted *)
  received : list Z;          (** bytes read from a response stream *)
  delivered : list Z;         (** bytes written to its copy *)
  accounts : Metrics.ClientMetrics;
}.

Definition note (ev : event C A P) (t : tally) : tally := {|
  errors := match ev with ErrorSeen _ e => e :: errors t | _ => errors t end;
  circuits := circuits t + match ev with
    | CircuitBegan c => one_if (Some c) c0 | CircuitEnded _ c => - one_if (Some c) c0 | _ => 0 end;
  adaptives := adaptives t + match ev with
    | AdaptiveBegan a => one_if (Some a) a0 | AdaptiveEnded _ a => - one_if (Some a) a0 | _ => 0 end;
  permits := permits t + match ev with
    | PermitTaken p => one_if (Some p) p0 | PermitDropped p => - one_if (Some p) p0 | _ => 0 end;
  destructed := destructed t + match ev with
    | CircuitEnded EndDrop _ | AdaptiveEnded EndDrop _ => 1 | _ => 0 end;
  sends := sends t + match ev with Sent _ _ _ => 1 | _ => 0 end;
  streamed := streamed t + match ev with Sent _ _ true => 1 | _ => 0 end;
  retries := retries t + match ev with RetryObserved _ _ _ => 1 | _ => 0 end;
  granted := granted t + match ev with BudgetAsked true => 1 | _ => 0 end;
  received := received t ++ match ev with ChunkRead bytes => bytes | _ => [] end;
  delivered := delivered t ++ match ev with ChunkWritten bytes => bytes | _ => [] end;
  accounts := accounts t;
|}.

Definition blank (m : Metrics.ClientMetrics) : tally :=
  {| errors := []; circuits := 0; adaptives := 0; permits := 0; destructed := 0; sends := 0;
     streamed := 0; retries := 0; granted := 0; received := []; delivered := []; accounts := m |}.

Definition tally_of (s : St) : tally := foldr note (blank (metrics s)) (log s).

Lemma tally_of_events evs (e : E) (s : St) :
  tally_of {| env := e; metrics := metrics s; log := evs ++ log s |} = foldr note (tally_of s) evs.
Proof. unfold tally_of. simpl. by rewrite foldr_app. Qed.

(** Changing the metrics changes the accounts alone. *)
Definition with_accounts (m : Metrics.ClientMetrics) (t : tally) : tally :=
  {| errors := errors t; circuits := circuits t; adaptives := adaptives t; permits := permits t;
     destructed := destructed t; sends := sends t; streamed := streamed t; retries := retries t;
     granted := granted t; received := received t; delivered := delivered t; accounts := m |}.

Lemma tally_of_metrics (s : St) m :
  tally_of {| env := env s; metrics := m; log := log s |} = with_accounts m (tally_of s).
Proof.
  unfold tally_of. simpl. generalize (log s). intros l. induction l as [|ev l IH]; [done|].
  simpl. rewrite IH. done.
Qed.

Lemma tally_accounts (s : St) : accounts (tally_of s) = metrics s.
Proof. unfold tally_of. induction (log s) as [|ev l IH]; [done|]. exact IH. Qed.

(** ** The logic *)
Definition wp {T} (m : Prog T) (t : tally) (Q : T -> tally -> Prop) : Prop :=
  forall s a s', tally_of s = t -> m s = Some (a, s') -> Q a (tally_of s').

Lemma wp_ret {T} (a : T) t (Q : T -> tally -> Prop) : Q a t -> wp (mret a) t Q.
Proof. intros HQ s b s' <- [= <- <-]. done. Qed.

Lemma wp_bind {T U} (m : Prog T) (k : T -> Prog U) t Q :
  wp m t (fun a t => wp (k a) t Q) -> wp (m ≫= k) t Q.
Proof.
  intros Hm s b s' Ht. unfold mbind, program_bind. destruct (m s) as [[a s1]|] eqn:E1; [|done].
  intros Hk. exact (Hm s a s1 Ht E1 s1 b s' eq_refl Hk).
Qed.

Lemma wp_mono {T} (m : Prog T) t (Q R : T -> tally -> Prop) :
  wp m t Q -> (forall a t', Q a t' -> R a t') -> wp m t R.
Proof. intros Hm HQR s a s' Ht Hs. eauto. Qed.

Lemma wp_act {T} f evs t (Q : T -> tally -> Prop) :
  (forall a, Q a (foldr note t (evs a))) -> wp (act f evs) t Q.
Proof.
  intros HQ s a s' <-. unfold act. destruct (f (env s)) as [a1 e]. intros [= <- <-].
  rewrite tally_of_events. apply HQ.
Qed.

Lemma wp_act_ f evs t (Q : unit -> tally -> Prop) : Q tt (foldr note t evs) -> wp (act_ f evs) t Q.
Proof. intros HQ. apply wp_act. by intros []. Qed.

Lemma wp_on_metrics {T} (f : Metrics.ClientMetrics -> T * Metrics.ClientMetrics) t Q :
  Q (f (accounts t)).1 (with_accounts (f (accounts t)).2 t) -> wp (on_metrics f) t Q.
Proof.
  intros HQ s a s' <-. unfold on_metrics. rewrite tally_accounts in HQ.
  destruct (f (metrics s)) as [a1 m]. intros [= <- <-]. by rewrite tally_of_metrics.
Qed.

Lemma wp_if {T} (b : bool) (m1 m2 : Prog T) t Q :
  (b = true -> wp m1 t Q) -> (b = false -> wp m2 t Q) -> wp (if b then m1 else m2) t Q.
Proof. destruct b; auto. Qed.

(** ** Leaves *)
Definition held_circuit (g : Guards) : Z := match circuit g with Some c => one_if (Some c) c0 | None => 0 end.
Definition held_adaptive (g : Guards) : Z := match adaptive g with Some a => one_if (Some a) a0 | None => 0 end.
Definition held_permit (p : option P) : Z := match p with Some p => one_if (Some p) p0 | None => 0 end.

(** The tally after both guards were settled explicitly, and after a permit went. *)
Definition settled (g : Guards) (t : tally) : tally :=
  {| errors := errors t; circuits := circuits t - held_circuit g; adaptives := adaptives t - held_adaptive g;
     permits := permits t; destructed := destructed t; sends := sends t; streamed := streamed t;
     retries := retries t; granted := granted t; received := received t; delivered := delivered t; accounts := accounts t |}.

Definition released (p : option P) (t : tally) : tally :=
  {| errors := errors t; circuits := circuits t; adaptives := adaptives t;
     permits := permits t - held_permit p; destructed := destructed t; sends := sends t;
     streamed := streamed t; retries := retries t; granted := granted t; received := received t; delivered := delivered t; accounts := accounts t |}.

Definition blamed (e : Error.t) (t : tally) : tally :=
  {| errors := e :: errors t; circuits := circuits t; adaptives := adaptives t;
     permits := permits t; destructed := destructed t; sends := sends t;
     streamed := streamed t; retries := retries t; granted := granted t; received := received t; delivered := delivered t; accounts := accounts t |}.

Lemma tally_eq (t t' : tally) :
  errors t = errors t' -> circuits t = circuits t' -> adaptives t = adaptives t' -> permits t = permits t' ->
  destructed t = destructed t' -> sends t = sends t' -> streamed t = streamed t' ->
  retries t = retries t' -> granted t = granted t' -> received t = received t' -> delivered t = delivered t' ->
  accounts t = accounts t' -> t = t'.
Proof. destruct t, t'; simpl. by intros -> -> -> -> -> -> -> -> -> -> -> ->. Qed.

(** Two tallies with equal entries. *)
Ltac same_tally :=
  apply tally_eq; simpl; unfold held_circuit, held_adaptive, held_permit; simpl; rewrite ?app_nil_r; try done; try lia.

Lemma note_quiet ev t :
  match ev with
  | RequestStarted _ | RequestIntercepted _ | ResponseSeen _ _ | ThrottleObserved _ _ _ | Slept _
  | BudgetCredited | BudgetAsked false => True
  | _ => False
  end -> note ev t = t.
Proof. intros Hev. destruct ev as [| | | | | | | | | | | | |[]| | | |]; try done; same_tally. Qed.

Lemma note_error ctx e t : note (ErrorSeen ctx e) t = blamed e t.
Proof. same_tally. Qed.

Lemma note_dropped p t : note (PermitDropped p) t = released (Some p) t.
Proof. same_tally. Qed.

Lemma wp_quiet {T} f evs t (Q : T -> tally -> Prop) :
  (forall a, foldr note t (evs a) = t) -> (forall a, Q a t) -> wp (act f evs) t Q.
Proof. intros He HQ. apply wp_act. intros a. by rewrite He. Qed.

Lemma wp_instant_now t Q : (forall now, Q now t) -> wp instant_now t Q.
Proof. by apply wp_quiet. Qed.
Lemma wp_now_system t Q : (forall now, Q now t) -> wp now_system t Q.
Proof. by apply wp_quiet. Qed.
Lemma wp_sample t Q : (forall rng, Q rng t) -> wp sample t Q.
Proof. by apply wp_quiet. Qed.
Lemma wp_sleep d t (Q : unit -> tally -> Prop) : Q tt t -> wp (sleep d) t Q.
Proof. intros HQ. apply wp_act_. simpl. by rewrite note_quiet. Qed.
Lemma wp_sleep_unless_zero d t (Q : unit -> tally -> Prop) : Q tt t -> wp (sleep_unless_zero d) t Q.
Proof. intros HQ. apply wp_if; intros _; [by apply wp_ret|by apply wp_sleep]. Qed.
Lemma wp_run_request_interceptors ctx headers t Q :
  (forall headers, Q headers t) -> wp (run_request_interceptors client ctx headers) t Q.
Proof. apply wp_quiet. intros a. simpl. by rewrite note_quiet. Qed.
Lemma wp_run_response_interceptors ctx status headers t (Q : unit -> tally -> Prop) :
  Q tt t -> wp (run_response_interceptors client ctx status headers) t Q.
Proof. intros HQ. apply wp_act_. simpl. by rewrite note_quiet. Qed.
Lemma wp_run_request_start_observers ctx t (Q : unit -> tally -> Prop) :
  Q tt t -> wp (run_request_start_observers client ctx) t Q.
Proof. intros HQ. apply wp_act_. simpl. by rewrite note_quiet. Qed.
Lemma wp_run_error_interceptors ctx e t (Q : unit -> tally -> Prop) :
  Q tt (blamed e t) -> wp (run_error_interceptors client ctx e) t Q.
Proof. intros HQ. apply wp_act_. simpl. by rewrite note_error. Qed.

Lemma wp_settle how (fc : C -> St -> St) (fa : A -> St -> St) g t Q :
  how <> EndDrop ->
  (forall c s, fc c s = write s (env_circuit_end how c (env s)) (CircuitEnded how c)) ->
  (forall a s, fa a s = write s (env_adaptive_end how a (env s)) (AdaptiveEnded how a)) ->
  Q no_guards (settled g t) -> wp (on_state (settle fc fa g)) t Q.
Proof.
  intros Hhow Hc Ha HQ s x s' <- [= <- <-].
  match goal with |- Q _ (tally_of ?s') => assert (tally_of s' = settled g (tally_of s)) as ->; [|done] end.
  destruct g as [[c|] [a|]]; simpl; rewrite ?Hc, ?Ha; unfold write, tally_of; simpl; fold (tally_of s);
    destruct how; try done; same_tally; unfold held_circuit, held_adaptive; simpl; lia.
Qed.

Lemma wp_mark_success g t (Q : Guards -> tally -> Prop) : Q no_guards (settled g t) -> wp (mark_success g) t Q.
Proof. intros HQ. apply wp_bind, wp_instant_now. intros now. by apply (wp_settle EndSuccess). Qed.
Lemma wp_mark_failure g t (Q : Guards -> tally -> Prop) : Q no_guards (settled g t) -> wp (mark_failure g) t Q.
Proof. intros HQ. apply wp_bind, wp_instant_now. intros now. by apply (wp_settle EndFailure). Qed.
Lemma wp_cancel g t (Q : Guards -> tally -> Prop) : Q no_guards (settled g t) -> wp (cancel g) t Q.
Proof. intros HQ. by apply (wp_settle EndCancel). Qed.

Lemma wp_drop_permit p t (Q : unit -> tally -> Prop) : Q tt (released p t) -> wp (drop_permit p) t Q.
Proof.
  intros HQ. destruct p as [p|]; simpl.
  - apply wp_act_. simpl. by rewrite note_dropped.
  - apply wp_ret. assert (released None t = t) as <-; [|done]. same_tally.
Qed.

(** The destructors of guards that were settled do nothing. *)
Lemma wp_drop_no_guards t (Q : unit -> tally -> Prop) : Q tt t -> wp (drop_guards no_guards) t Q.
Proof. intros HQ. apply wp_bind, wp_ret, wp_ret, HQ. Qed.

(** ** Taking resources *)
Definition opened (g : Guards) (t : tally) : tally :=
  {| errors := errors t; circuits := circuits t + held_circuit g; adaptives := adaptives t + held_adaptive g;
     permits := permits t; destructed := destructed t; sends := sends t; streamed := streamed t;
     retries := retries t; granted := granted t; received := received t; delivered := delivered t; accounts := accounts t |}.

Definition acquired (p : option P) (t : tally) : tally :=
  {| errors := errors t; circuits := circuits t; adaptives := adaptives t;
     permits := permits t + held_permit p; destructed := destructed t; sends := sends t;
     streamed := streamed t; retries := retries t; granted := granted t; received := received t; delivered := delivered t; accounts := accounts t |}.

Lemma opened_none t : opened no_guards t = t.
Proof. same_tally. Qed.
Lemma acquired_none t : acquired None t = t.
Proof. same_tally. Qed.

Lemma wp_begin_circuit_attempt method uri t Q :
  (forall c, Q (Ok c) (opened {| circuit := c; adaptive := None |} t)) -> (forall e, Q (Err e) t) ->
  wp (begin_circuit_attempt client method uri) t Q.
Proof.
  intros Hok Herr. apply wp_if; intros _.
  - apply wp_ret. specialize (Hok None). by rewrite opened_none in Hok.
  - apply wp_bind, wp_act. intros [c|d]; simpl; apply wp_ret; [|apply Herr].
    assert (note (CircuitBegan c) t = opened {| circuit := Some c; adaptive := None |} t) as -> by same_tally.
    apply Hok.
Qed.

Lemma wp_begin_adaptive_attempt total started method uri t Q :
  (forall a, Q (Ok a) (opened {| circuit := None; adaptive := a |} t)) -> (forall e, Q (Err e) t) ->
  wp (begin_adaptive_attempt client total started method uri) t Q.
Proof.
  intros Hok Herr. apply wp_if; intros _.
  - apply wp_ret. specialize (Hok None). by rewrite opened_none in Hok.
  - apply wp_bind, wp_act. intros [a|]; simpl; apply wp_ret; [|apply Herr].
    assert (note (AdaptiveBegan a) t = opened {| circuit := None; adaptive := Some a |} t) as -> by same_tally.
    apply Hok.
Qed.

Lemma wp_take_permit acquire e t (Q : result (option P) Error.t -> tally -> Prop) :
  (forall p, Q (Ok p) (acquired p t)) -> Q (Err e) t -> wp (take_permit acquire e) t Q.
Proof.
  intros Hok Herr. apply wp_bind, wp_act. intros [[p|]|[]]; simpl; apply wp_ret; [| |done].
  - assert (note (PermitTaken p) t = acquired (Some p) t) as -> by same_tally. apply Hok.
  - specialize (Hok None). by rewrite acquired_none in Hok.
Qed.

Lemma wp_acquire_host host total started method uri t Q :
  (forall p, Q (Ok p) (acquired p t)) -> (forall e, Q (Err e) t) ->
  wp (acquire_host_request_permit client host total started method uri) t Q.
Proof.
  intros Hok Herr. apply wp_if; intros _; [|by apply wp_take_permit].
  apply wp_ret. specialize (Hok None). by rewrite acquired_none in Hok.
Qed.

Lemma wp_acquire_global total started method uri t Q :
  (forall p, Q (Ok p) (acquired p t)) -> (forall e, Q (Err e) t) ->
  wp (acquire_global_request_permit client total started method uri) t Q.
Proof.
  intros Hok Herr. apply wp_if; intros _; [|by apply wp_take_permit].
  apply wp_ret. specialize (Hok None). by rewrite acquired_none in Hok.
Qed.

Lemma wp_acquire_rate_limit_slot fuel host total started method uri t Q :
  (forall r, Q r t) -> wp (acquire_rate_limit_slot client fuel host total started method uri) t Q.
Proof.
  intros HQ. apply wp_if; intros _; [by apply wp_ret|].
  induction fuel as [|fuel IH]; [by intros s a s' _|]. simpl. apply wp_bind, wp_quiet; [done|]. intros wait.
  apply wp_if; intros _; [by apply wp_ret|]. apply wp_bind, wp_instant_now. intros now.
  destruct (bounded_retry_delay _ _ _ _); [|by apply wp_ret]. apply wp_bind, wp_sleep, IH.
Qed.

Lemma wp_observe_server_throttle ctx status headers host delay t (Q : unit -> tally -> Prop) :
  Q tt t -> wp (observe_server_throttle client ctx status headers host delay) t Q.
Proof.
  intros HQ. apply wp_if; intros _; [by apply wp_ret|]. apply wp_bind, wp_now_system. intros now.
  apply wp_bind, wp_if; intros _; [apply wp_quiet; [done|]; intros scope|apply wp_ret];
    apply wp_act_; simpl; by rewrite note_quiet.
Qed.

(** ** Retries *)

(** A retry that was scheduled, with whatever clock and budget. *)
Definition scheduled (x x' : RequestExecutionState) : Prop :=
  exists (B : Type) now d delay consume (b b' : B) granted,
    prepare_retry_schedule now d delay consume x b = (Ok (Scheduled granted), x', b').

Definition retried (t : tally) : tally :=
  {| errors := errors t; circuits := circuits t; adaptives := adaptives t; permits := permits t;
     destructed := destructed t; sends := sends t; streamed := streamed t; retries := retries t + 1;
     granted := granted t + (if has_retry_budget client then 1 else 0);
     received := received t; delivered := delivered t;
     accounts := Metrics.record_retry (accounts t) |}.

Lemma consume_budget_tally method uri (s s' : St) r :
  try_consume_retry_budget client method uri s = (r, s') ->
  tally_of s' =
    match r with
    | Ok _ => if has_retry_budget client then note (BudgetAsked true) (tally_of s) else tally_of s
    | Err _ => tally_of s
    end.
Proof.
  unfold try_consume_retry_budget. destruct (has_retry_budget client); simpl; [|by intros [= <- <-]].
  destruct (env_budget_consume (env s)) as [[] e]; intros [= <- <-]; unfold write, tally_of; simpl; [done|].
  by rewrite note_quiet.
Qed.

Lemma wp_prepare_retry x ctx d delay t Q :
  (forall e, Q (Err e, x) (blamed e t)) -> Q (Ok NotScheduled, x) t ->
  (forall delay x', scheduled x x' -> Q (Ok (Scheduled delay), x') (retried t)) ->
  wp (prepare_retry client x ctx d delay) t Q.
Proof.
  intros Herr Hnot Hok. apply wp_bind, wp_instant_now. intros now. apply wp_bind.
  intros s [r x'] s' Ht Hs. unfold on_state in Hs. injection Hs as Hs.
  pose proof Hs as Hsched. unfold prepare_retry_schedule in Hs.
  destruct (_ || _); [simplify_eq; by apply wp_ret|].
  destruct (bounded_retry_delay _ _ _ _) as [granted_delay|].
  2: { simplify_eq. apply wp_bind, wp_run_error_interceptors, wp_ret, Herr. }
  destruct (try_consume_retry_budget client _ _ s) as [[u|e] s1] eqn:Hc; simplify_eq;
    apply consume_budget_tally in Hc; rewrite Hc.
  - apply wp_bind, wp_on_metrics. apply wp_bind, wp_act_. apply wp_ret. simpl.
    match goal with |- Q _ ?t' => assert (t' = retried (tally_of s)) as ->
      by (unfold retried; destruct (has_retry_budget client); same_tally) end.
    apply Hok. do 8 eexists. exact Hsched.
  - apply wp_bind, wp_run_error_interceptors, wp_ret, Herr.
Qed.

Lemma wp_prepare_status_retry x ctx status headers t Q :
  (forall e, Q (Err e, x) (blamed e t)) -> Q (Ok NotScheduled, x) t ->
  (forall delay x', scheduled x x' -> Q (Ok (Scheduled delay), x') (retried t)) ->
  wp (prepare_status_retry client x ctx status headers) t Q.
Proof.
  intros Herr Hnot Hok. apply wp_bind, wp_sample. intros rng. apply wp_bind, wp_now_system. intros now.
  by apply wp_prepare_retry.
Qed.

Lemma wp_record_failure_for_retry_schedule r g t (Q : Guards -> tally -> Prop) :
  match r with
  | Ok NotScheduled => Q g t
  | _ => Q no_guards (settled g t)
  end -> wp (record_failure_for_retry_schedule r g) t Q.
Proof. destruct r as [[|d]|e]; intros HQ; [by apply wp_ret|by apply wp_mark_failure|by apply wp_mark_failure]. Qed.

Lemma wp_record_failure_on_error {T} (r : result T Error.t) g t (Q : Guards -> tally -> Prop) :
  match r with Ok _ => Q g t | Err _ => Q no_guards (settled g t) end ->
  wp (record_failure_on_error r g) t Q.
Proof. destruct r; intros HQ; [by apply wp_ret|by apply wp_mark_failure]. Qed.

Lemma wp_record_completed c g t (Q : Guards -> tally -> Prop) :
  Q no_guards (settled g t) -> wp (record_completed client c g) t Q.
Proof.
  intros HQ. apply wp_bind. destruct c; [apply wp_mark_success|by apply wp_mark_failure, wp_ret].
  apply wp_if; intros _; [|by apply wp_ret]. apply wp_bind, wp_act_, wp_ret. simpl. by rewrite note_quiet.
Qed.

(** ** The body *)
Lemma wp_decode bytes headers max status ctx t Q :
  (forall bytes, Q (Ok bytes) t) -> (forall e, Q (Err e) (blamed e t)) ->
  wp (decode_response_body_limited client bytes headers max status ctx) t Q.
Proof.
  intros Hok Herr. apply wp_if; intros _; [by apply wp_ret|].
  destruct (decode_content_encoded_body_limited _ _ _ _); [by apply wp_ret|].
  apply wp_bind, wp_run_error_interceptors, wp_ret, Herr.
Qed.

(** What reading a body may do: nothing, blame an error, schedule a retry. *)
Definition read_post {T} (is_retry : T -> bool) (x : RequestExecutionState) (t : tally)
    (Q : result T Error.t * RequestExecutionState -> tally -> Prop) : Prop :=
  (forall o, is_retry o = false -> Q (Ok o, x) t) /\
  (forall e, Q (Err e, x) (blamed e t)) /\
  (forall o x', is_retry o = true -> scheduled x x' -> Q (Ok o, x') (retried t)).

Definition outcome_is_retry (o : BodyReadOutcome) : bool :=
  match o with ReadRetry _ => true | ReadBytes _ => false end.

Lemma wp_handle_body_read_failure x ctx failure t Q :
  read_post outcome_is_retry x t Q -> wp (handle_body_read_failure client x ctx failure) t Q.
Proof.
  intros (Hok & Herr & Hretry). destruct failure as [e|e plan]; simpl.
  - apply wp_bind, wp_run_error_interceptors, wp_ret, Herr.
  - apply wp_bind, wp_prepare_retry; [intros e'; apply wp_ret, Herr| |intros d x' Hs; apply wp_ret; by apply Hretry].
    apply wp_bind, wp_run_error_interceptors, wp_ret, Herr.
Qed.

Lemma wp_read_response_body response x ctx read_timeout t Q :
  read_post outcome_is_retry x t Q -> wp (read_response_body_with_retry client response x ctx read_timeout) t Q.
Proof.
  intros HQ. pose proof HQ as (Hok & Herr & Hretry). apply wp_bind, wp_quiet; [done|]. intros r.
  destruct (read_reader_limited r _) as [bytes|[source|n]].
  - apply wp_ret. by apply Hok.
  - apply wp_if; intros _.
    + apply wp_bind, wp_instant_now. intros now. apply wp_bind, wp_sample. intros rng.
      by apply wp_handle_body_read_failure.
    + apply wp_bind, wp_sample. intros rng. by apply wp_handle_body_read_failure.
  - apply wp_bind, wp_run_error_interceptors, wp_ret, Herr.
Qed.

Lemma wp_check_deadline {T} x ctx (k : Prog (result T Error.t * RequestExecutionState)) t Q :
  (forall e, Q (Err e, x) (blamed e t)) -> wp k t Q -> wp (check_deadline client x ctx k) t Q.
Proof.
  intros Herr Hk. apply wp_bind, wp_instant_now. intros now. destruct (error_if_elapsed x now); [|done].
  apply wp_bind, wp_run_error_interceptors, wp_ret, Herr.
Qed.

Lemma wp_read_decoded response headers status x ctx read_timeout t Q :
  read_post (fun oh : BodyReadOutcome * HeaderMap => outcome_is_retry oh.1) x t Q ->
  wp (read_decoded_response_body_with_retry client response headers status x ctx read_timeout) t Q.
Proof.
  intros (Hok & Herr & Hretry). apply wp_check_deadline; [done|]. apply wp_bind, wp_read_response_body.
  split; [|split].
  - intros [bytes|d] Ho; [|done]. apply wp_check_deadline; [done|]. apply wp_bind, wp_decode.
    + intros decoded. apply wp_check_deadline; [done|]. apply wp_ret. by apply Hok.
    + intros e. apply wp_ret, Herr.
  - intros e. apply wp_ret, Herr.
  - intros [bytes|d] x' Ho Hs; [done|]. apply wp_ret. by apply Hretry.
Qed.

(** ** The exchange *)
Definition sent (streaming : bool) (t : tally) : tally :=
  {| errors := errors t; circuits := circuits t; adaptives := adaptives t; permits := permits t;
     destructed := destructed t; sends := sends t + 1;
     streamed := streamed t + (if streaming then 1 else 0);
     retries := retries t; granted := granted t; received := received t; delivered := delivered t; accounts := accounts t |}.

Lemma wp_run_once method uri text headers request_body timeout t Q :
  (forall e, Q (Err e) t) -> (forall r, Q r (sent (is_streaming request_body) t)) ->
  wp (run_once client method uri text headers request_body timeout) t Q.
Proof.
  intros Herr Hr. unfold run_once. destruct (ureq_build _ _ _); [by apply wp_ret|].
  unfold run_configured_request. destruct (validate_proxy_authorization _ _); [|by apply wp_ret].
  apply wp_bind, wp_act. intros r. apply wp_ret. simpl.
  assert (note (Sent method text (is_streaming request_body)) t = sent (is_streaming request_body) t) as ->
    by (destruct (is_streaming request_body); same_tally).
  apply Hr.
Qed.

(** ** Turns *)

(** What a result still owns, and the errors it stands for. *)
Definition stream_guards (s : Strm) : Guards :=
  match StreamLifecycle.hooks (stream_lifecycle s) with Some h => attempts h | None => no_guards end.
Definition result_guards (r : result Resp Error.t) : Guards :=
  match r with Ok (StreamResponse s) => stream_guards s | _ => no_guards end.
Definition result_permits (r : result Resp Error.t) : Z :=
  match r with
  | Ok (StreamResponse s) => held_permit (stream_global_permit s) + held_permit (stream_host_permit s)
  | _ => 0
  end.
Definition result_errors {T} (r : result T Error.t) : list Error.t :=
  match r with Err e => [e] | Ok _ => [] end.
Definition mode_matches (mode : ResponseMode) (r : result Resp Error.t) : Prop :=
  match r with
  | Ok (BufferedResponse _) => mode = BufferedMode
  | Ok (StreamResponse s) => mode = StreamMode /\ StreamLifecycle.completed (stream_lifecycle s) = false
  | Err _ => True
  end.

(** [n] retries were announced, counted and, with a budget, paid. *)
Record paid (n : nat) (t t' : tally) : Prop := {
  paid_retries : retries t' = retries t + Z.of_nat n;
  paid_granted : granted t' = granted t + (if has_retry_budget client then Z.of_nat n else 0);
  paid_accounts : accounts t' = Nat.iter n Metrics.record_retry (accounts t);
}.

(** The turn returns: everything is settled or owned by the result. *)
Record returned (mode : ResponseMode) (g : Guards) (hp gp : option P) (r : result Resp Error.t)
    (gp' : option P) (t t' : tally) : Prop := {
  ret_mode : mode_matches mode r;
  ret_errors : errors t' = result_errors r ++ errors t;
  ret_circuits : circuits t' = circuits t - held_circuit g + held_circuit (result_guards r);
  ret_adaptives : adaptives t' = adaptives t - held_adaptive g + held_adaptive (result_guards r);
  ret_permits : permits t' - held_permit gp' - result_permits r = permits t - held_permit hp - held_permit gp;
  ret_destructed : destructed t' = destructed t;
  ret_sends : sends t' = sends t /\ streamed t' = streamed t;
  ret_paid : paid 0 t t';
}.

(** The request state moves on: a retry or a redirect. *)
Inductive advance (x : RequestExecutionState) : nat -> RequestExecutionState -> Prop :=
| advance_retry x' : scheduled x x' -> advance x 1 x'
| advance_redirect status headers action :
    next_redirect_action status headers x = Ok (Some action) ->
    advance x 0 (apply_redirect action (retry_eligibility client) x).2.

Record continued (x : RequestExecutionState) (b : RequestBody Stream) (g : Guards) (hp : option P)
    (x' : RequestExecutionState) (b' : RequestBody Stream) (t t' : tally) : Prop := {
  con_advance : exists n, advance x n x' /\ paid n t t';
  con_body : is_streaming b = false -> is_streaming b' = false;
  con_errors : errors t' = errors t;
  con_circuits : circuits t' = circuits t - held_circuit g;
  con_adaptives : adaptives t' = adaptives t - held_adaptive g;
  con_permits : permits t' = permits t - held_permit hp;
  con_destructed : destructed t' = destructed t;
  con_sends : sends t' = sends t /\ streamed t' = streamed t;
}.

Definition turn_post (mode : ResponseMode) (x : RequestExecutionState) (b : RequestBody Stream) (g : Guards)
    (hp gp : option P) (t : tally) (r : TurnEnd) (t' : tally) : Prop :=
  match r with
  | Continue x' b' => continued x b g hp x' b' t t'
  | Return r gp' => returned mode g hp gp r gp' t t'
  end.

Ltac owns := unfold held_circuit, held_adaptive, held_permit in *; simpl in *; try lia.

Lemma paid_none t t' :
  retries t' = retries t -> granted t' = granted t -> accounts t' = accounts t -> paid 0 t t'.
Proof. intros Hr Hg Ha. split; simpl; [lia|rewrite Hg; case_match; lia|done]. Qed.

(** Leaving a scope whose guards were settled. *)
Lemma wp_leave hp r t (Q : TurnEnd -> tally -> Prop) : Q r (released hp t) -> wp (leave no_guards hp r) t Q.
Proof. intros HQ. apply wp_bind, wp_drop_no_guards, wp_bind, wp_drop_permit, wp_ret, HQ. Qed.

Lemma wp_fail_turn mode x b g ctx e hp gp t :
  wp (fail_turn client ctx e no_guards hp gp) (settled g t) (turn_post mode x b g hp gp t).
Proof.
  apply wp_bind, wp_run_error_interceptors, wp_leave. simpl. split; simpl; try done; try (owns; done).
  by apply paid_none.
Qed.

(** Returning an error that was blamed already. *)
Lemma wp_leave_error mode x b g e hp gp t :
  wp (leave no_guards hp (Return (Err e) gp)) (settled g (blamed e t)) (turn_post mode x b g hp gp t).
Proof. apply wp_leave. split; simpl; try done; try (owns; done). by apply paid_none. Qed.

Lemma wp_leave_response mode x b g response hp gp t :
  mode = BufferedMode ->
  wp (leave no_guards hp (Return (Ok (BufferedResponse response)) gp)) (settled g t)
    (turn_post mode x b g hp gp t).
Proof. intros Hm. apply wp_leave. split; simpl; try done; try (owns; done). by apply paid_none. Qed.

Lemma wp_retry_turn mode x x' b g hp gp delay t :
  scheduled x x' ->
  wp (retry_turn x' b no_guards hp delay) (settled g (retried t)) (turn_post mode x b g hp gp t).
Proof.
  intros Hs. apply wp_bind, wp_drop_permit, wp_bind, wp_sleep_unless_zero, wp_leave.
  split; simpl; try done; try (owns; done). exists 1%nat. split; [by constructor|].
  split; simpl; [lia|case_match; lia|done].
Qed.

Lemma wp_transport_failed mode x b ctx g hp gp timeout e t :
  wp (transport_failed client x b ctx g hp gp timeout e) t (turn_post mode x b g hp gp t).
Proof.
  apply wp_bind. apply (wp_mono _ _ (fun _ t' => t' = t)).
  { destruct e as [| | | | | | | | | | | | | | | | | | | | phase| | | | | | | | | | | | | | | | | | | | |];
      try (by apply wp_ret). destruct phase; [|by apply wp_ret]. apply wp_bind, wp_instant_now. intros now.
    by apply wp_ret. }
  intros e' ? ->. apply wp_bind, wp_sample. intros rng.
  destruct (transport_failure_plan rng (backoff_source client) x e') as [plan|[]].
  - apply wp_bind, wp_prepare_retry.
    + intros e2. apply wp_bind, wp_record_failure_for_retry_schedule, wp_leave_error.
    + apply wp_bind, wp_record_failure_for_retry_schedule. apply wp_bind, wp_mark_failure, wp_fail_turn.
    + intros delay x' Hs. apply wp_bind, wp_record_failure_for_retry_schedule. by apply wp_retry_turn.
  - apply wp_bind, wp_mark_failure, wp_fail_turn.
  - apply wp_bind, wp_cancel, wp_fail_turn.
Qed.

Lemma wp_finish_response mode x b ctx g hp gp response t :
  (mode = StreamMode -> is_success (response_status response) = false /\
     should_return_non_success_response (status_policy (options x)) = false) ->
  wp (finish_response client x b ctx mode g hp gp response) t (turn_post mode x b g hp gp t).
Proof.
  intros Hm. apply wp_bind, wp_instant_now. intros now.
  destruct (state_phase_timeout x now) as [read_timeout|].
  2: { apply wp_bind, wp_mark_failure, wp_fail_turn. }
  apply wp_bind, wp_read_decoded. split; [|split].
  - intros [[bytes|d] headers] Ho; [|done]. apply wp_bind, wp_record_failure_on_error.
    apply wp_if; intros Hs; [|apply wp_if; intros Hr].
    + apply wp_bind, wp_record_completed, wp_leave_response. destruct mode; [done|]. by destruct Hm; congruence.
    + apply wp_bind, wp_record_completed, wp_leave_response. by apply andb_true_iff in Hr as [_ Hr]; destruct mode.
    + destruct (terminal_non_success _ _ _ _) as [e completion]. apply wp_bind, wp_record_completed, wp_fail_turn.
  - intros e. apply wp_bind, wp_record_failure_on_error, wp_leave_error.
  - intros [[bytes|d] headers] x' Ho Hs; [done|]. apply wp_bind, wp_record_failure_on_error.
    apply wp_bind, wp_mark_failure. by apply wp_retry_turn.
Qed.

(** Handing the guards to a stream: they are in its hooks, or were settled. *)
Lemma wp_lifecycle_for c g t (Q : StreamLifecycle.t (StreamResilienceHooks C A) * Guards -> tally -> Prop) :
  (forall l t',
     let held := match StreamLifecycle.hooks l with Some h => attempts h | None => no_guards end in
     StreamLifecycle.completed l = false ->
     circuits t' = circuits t - held_circuit g + held_circuit held ->
     adaptives t' = adaptives t - held_adaptive g + held_adaptive held ->
     t' = {| errors := errors t; circuits := circuits t'; adaptives := adaptives t'; permits := permits t;
             destructed := destructed t; sends := sends t; streamed := streamed t; retries := retries t;
             granted := granted t; received := received t; delivered := delivered t; accounts := accounts t |} ->
     Q (l, no_guards) t') ->
  wp (lifecycle_for client c g) t Q.
Proof.
  intros HQ. apply wp_bind, wp_instant_now. intros now. destruct c; simpl.
  - intros s a s' <-. unfold on_state, into_stream_lifecycle.
    destruct (negb (has_retry_budget client) && guards_is_empty g) eqn:Hb; simpl; intros [= <- <-].
    + apply andb_true_iff in Hb as [_ Hb]. destruct g as [[c|] [ad|]]; try done.
      apply HQ; [done|owns..|]. same_tally.
    + apply HQ; simpl; [done|lia|lia|]. same_tally.
  - intros s a s' Ht [= <- <-].
    assert (wp (on_state (guards_mark_failure (AttemptOutcome0 := circuit_attempt_outcome)
      (AttemptOutcome1 := adaptive_permit_outcome) now g)) t (fun g' t' => Q (StreamLifecycle.default, g') t')) as Hw.
    { apply (wp_settle EndFailure); try done. apply HQ; simpl; [done|owns|owns|]. same_tally. }
    exact (Hw s _ _ Ht eq_refl).
Qed.

Lemma wp_stream_turn mode x x' b g c status headers body timeout hp gp t :
  mode = StreamMode ->
  wp ('(lifecycle, g) ← lifecycle_for client c g;
      leave g None (Return (Ok (stream_response client status headers body x' timeout lifecycle gp hp)) None))
     t (turn_post mode x b g hp gp t).
Proof.
  intros Hm. apply wp_bind, wp_lifecycle_for. intros l t' held Hl Hc Ha Ht. apply wp_leave. subst held.
  rewrite Ht. split; simpl; try done; try (owns; done).
  by apply paid_none.
Qed.

Lemma wp_non_success_response mode x b ctx g host hp gp timeout response t :
  is_success (response_status response) = false ->
  wp (non_success_response client x b ctx mode g host hp gp timeout response) t (turn_post mode x b g hp gp t).
Proof.
  intros Hs. apply wp_bind, wp_sample. intros rng. apply wp_bind, wp_observe_server_throttle.
  apply wp_bind, wp_prepare_status_retry.
  - intros e. apply wp_bind, wp_record_failure_for_retry_schedule, wp_leave_error.
  - apply wp_bind, wp_record_failure_for_retry_schedule. apply wp_if; intros Hr.
    + apply wp_stream_turn. apply andb_true_iff in Hr as [Hr _]. by destruct mode.
    + apply wp_finish_response. intros ->. by split.
  - intros delay x' Hx. apply wp_bind, wp_record_failure_for_retry_schedule. by apply wp_retry_turn.
Qed.

Lemma wp_handle_response mode x b ctx g host hp gp timeout response t :
  wp (handle_response client x b ctx mode g host hp gp timeout response) t (turn_post mode x b g hp gp t).
Proof.
  unfold handle_response. destruct (next_redirect_action _ _ x) as [[action|]|e] eqn:Hact.
  - apply wp_bind, wp_run_response_interceptors, wp_bind, wp_mark_success.
    destruct (apply_redirect action (retry_eligibility client) x) as [drops x'] eqn:Hap. apply wp_leave.
    split; simpl; try done; try (owns; done).
    + exists O. split; [|by apply paid_none].
      replace x' with (apply_redirect action (retry_eligibility client) x).2 by by rewrite Hap.
      by econstructor.
    + by destruct drops.
  - apply wp_bind, wp_run_response_interceptors, wp_if; intros Hs; [|apply wp_if; intros Hs'].
    + apply wp_stream_turn. apply andb_true_iff in Hs as [Hs _]. by destruct mode.
    + apply wp_finish_response. intros ->. simpl in Hs. congruence.
    + by apply wp_non_success_response.
  - apply wp_bind, wp_mark_failure, wp_fail_turn.
Qed.

(** A turn before its guards are taken: it sends at most once, and its next state
    comes from a round of the executor. *)
Definition whole_turn_post (mode : ResponseMode) (x : RequestExecutionState) (b : RequestBody Stream)
    (gp : option P) (t : tally) (r : TurnEnd) (t' : tally) : Prop :=
  exists n : bool,
    sends t' = sends t + (if n then 1 else 0) /\
    streamed t' = streamed t + (if n && is_streaming b then 1 else 0) /\
    destructed t' = destructed t /\
    match r with
    | Continue x' b' =>
      round (retry_eligibility client) x x' /\ is_streaming b' = false /\
      (exists k, paid k t t') /\
      errors t' = errors t /\ circuits t' = circuits t /\ adaptives t' = adaptives t /\ permits t' = permits t
    | Return r gp' =>
      mode_matches mode r /\ paid 0 t t' /\ errors t' = result_errors r ++ errors t /\
      circuits t' = circuits t + held_circuit (result_guards r) /\
      adaptives t' = adaptives t + held_adaptive (result_guards r) /\
      permits t' - held_permit gp' - result_permits r = permits t - held_permit gp
    end.

(** From the tally after the send to the tally before the guards were taken. *)
Lemma turn_post_whole mode x headers (b b' : RequestBody Stream) g hp gp t t1 (n : bool) (r : TurnEnd) t' :
  circuits t1 = circuits t + held_circuit g -> adaptives t1 = adaptives t + held_adaptive g ->
  permits t1 = permits t + held_permit hp -> destructed t1 = destructed t -> errors t1 = errors t ->
  retries t1 = retries t -> granted t1 = granted t -> accounts t1 = accounts t ->
  sends t1 = sends t + (if n then 1 else 0) ->
  streamed t1 = streamed t + (if n && is_streaming b then 1 else 0) ->
  is_streaming b' = false ->
  turn_post mode (tighten_retry_eligibility headers (retry_eligibility client) x) b' g hp gp t1 r t' ->
  whole_turn_post mode x b gp t r t'.
Proof.
  intros Hc Ha Hp Hd He Hr Hg Hac Hs Hst Hb Hpost. exists n.
  destruct r as [x' b2|r gp'].
  - destruct Hpost as [[k [Hadv [K1 K2 K3]]] Hbody E1 E2 E3 E4 E5 [E6 E7]].
    split; [lia|]. split; [lia|]. split; [lia|].
    split; [|split; [by apply Hbody|split; [exists k; split; congruence|split_and!; try congruence; lia]]].
    destruct Hadv as [x' (B & now & d & delay & consume & b0 & b0' & gr & Hsch)|status rh action Hact].
    + by eapply round_retry.
    + by eapply round_redirect.
  - destruct Hpost as [R1 R2 R3 R4 R5 R6 [R7 R7'] [K1 K2 K3]].
    split; [lia|]. split; [lia|]. split; [lia|]. split; [done|].
    split; [split; simpl in *; congruence|]. split; [congruence|]. lia.
Qed.

Lemma wp_run_attempt mode x b g host hp gp t :
  wp (run_attempt client x b mode g host hp gp) (acquired hp (opened g t)) (whole_turn_post mode x b gp t).
Proof.
  apply wp_bind, wp_run_request_interceptors. intros attempt_headers.
  set (x1 := tighten_retry_eligibility attempt_headers (retry_eligibility client) x).
  assert (forall r t', turn_post mode x1 body_default g hp gp (acquired hp (opened g t)) r t' ->
    whole_turn_post mode x b gp t r t') as Hbefore.
  { intros r t'. apply (turn_post_whole mode x attempt_headers b body_default g hp gp t _ false); simpl; try done; lia. }
  assert (forall r t', turn_post mode x1 (take_for_attempt b).2 g hp gp
    (sent (is_streaming (take_for_attempt b).1) (acquired hp (opened g t))) r t' ->
    whole_turn_post mode x b gp t r t') as Hafter.
  { intros r t'. apply (turn_post_whole mode x attempt_headers b (take_for_attempt b).2 g hp gp t _ true);
      destruct b; simpl; try done; lia. }
  assert (forall r t', turn_post mode x1 (take_for_attempt b).2 g hp gp (acquired hp (opened g t)) r t' ->
    whole_turn_post mode x b gp t r t') as Hunsent.
  { intros r t'. apply (turn_post_whole mode x attempt_headers b (take_for_attempt b).2 g hp gp t _ false);
      destruct b; simpl; try done; lia. }
  cbv zeta. fold x1. destruct (validate_request_framing_headers attempt_headers (known_length b) (current_method x1)
    (current_redacted_uri x1)).
  2: { apply wp_bind, wp_cancel. eapply wp_mono; [apply wp_fail_turn|exact Hbefore]. }
  apply wp_bind, wp_instant_now. intros now. destruct (state_phase_timeout x1 now) as [timeout|].
  2: { apply wp_bind, wp_cancel. eapply wp_mono; [apply wp_fail_turn|exact Hbefore]. }
  destruct (take_for_attempt b) as [request_body b'] eqn:Hb. simpl in Hafter, Hunsent.
  apply wp_bind, wp_run_once.
  - intros e. eapply wp_mono; [apply wp_transport_failed|exact Hunsent].
  - intros [response|e]; (eapply wp_mono; [|exact Hafter]).
    + apply wp_handle_response.
    + apply wp_transport_failed.
Qed.

Lemma wp_turn rate_fuel mode x b gp t :
  wp (turn client rate_fuel x b mode gp) t (whole_turn_post mode x b gp t).
Proof.
  assert (forall e hp t1, t1 = acquired hp t ->
    wp (_ ← run_error_interceptors client (context x) e; _ ← drop_permit hp;
        mret (Return (Err e) gp)) t1 (whole_turn_post mode x b gp t)) as Hfail.
  { intros e hp t1 ->. apply wp_bind, wp_run_error_interceptors, wp_bind, wp_drop_permit, wp_ret.
    exists false. simpl. split_and!; try done; try (owns; done). by apply paid_none. }
  apply wp_bind, wp_run_request_start_observers, wp_bind, wp_acquire_rate_limit_slot. intros [u|e].
  2: { apply Hfail. by rewrite acquired_none. }
  apply wp_bind, wp_acquire_host.
  2: { intros e. apply Hfail. by rewrite acquired_none. }
  intros hp. apply wp_bind, wp_begin_circuit_attempt.
  2: { intros e. by apply Hfail. }
  intros c. apply wp_bind, wp_begin_adaptive_attempt.
  - intros a.
    match goal with |- wp _ ?t1 _ => replace t1 with
      (acquired hp (opened (set_adaptive {| circuit := c; adaptive := None |} a) t)) by same_tally end.
    apply wp_run_attempt.
  - intros e. apply wp_bind, wp_cancel, wp_bind, wp_run_error_interceptors, wp_leave.
    exists false. simpl. split_and!; try done; try (owns; done). by apply paid_none.
Qed.

(** ** The loop *)
Record loop_post (mode : ResponseMode) (o : RequestExecutionOptions) (x : RequestExecutionState)
    (b : RequestBody Stream) (gp : option P) (t : tally) (r : result Resp Error.t) (gp' : option P)
    (t' : tally) : Prop := {
  loop_mode : mode_matches mode r;
  loop_errors : errors t' = result_errors r ++ errors t;
  loop_circuits : circuits t' = circuits t + held_circuit (result_guards r);
  loop_adaptives : adaptives t' = adaptives t + held_adaptive (result_guards r);
  loop_permits : permits t' - held_permit gp' - result_permits r = permits t - held_permit gp;
  loop_destructed : destructed t' = destructed t;
  loop_sends :
    1 <= Retry.max_attempts (retry_policy o) -> max_redirects (redirect_policy o) < usize_max ->
    exec_inv o x -> sends t' - sends t <=
      Retry.max_attempts (retry_policy o) + max_redirects (redirect_policy o) - progress x + 1;
  loop_streamed : streamed t' - streamed t <= (if is_streaming b then 1 else 0);
  loop_paid : exists n, paid n t t';
}.

Lemma paid_trans n1 n2 t1 t2 t3 : paid n1 t1 t2 -> paid n2 t2 t3 -> paid (n1 + n2) t1 t3.
Proof.
  intros [R1 G1 A1] [R2 G2 A2]. split.
  - lia.
  - rewrite G2, G1. case_match; lia.
  - rewrite A2, A1, (Nat.add_comm n1 n2), Nat.iter_add. done.
Qed.

(** One more round of the executor before a bound on what the rest sends. *)
Lemma round_sends o x x' (n : bool) bound :
  round (retry_eligibility client) x x' ->
  1 <= Retry.max_attempts (retry_policy o) -> max_redirects (redirect_policy o) < usize_max -> exec_inv o x ->
  (exec_inv o x' -> bound <= Retry.max_attempts (retry_policy o) + max_redirects (redirect_policy o) - progress x' + 1) ->
  bound + (if n then 1 else 0) <=
    Retry.max_attempts (retry_policy o) + max_redirects (redirect_policy o) - progress x + 1.
Proof.
  intros Hround Hc Hr Hinv Hb.
  assert (exec_inv o x') as Hinv' by (eapply exec_inv_rtc; [done|lia|by apply round_steps|done]).
  assert (progress x' = progress x + 1) as Hprog.
  { apply (round_progress (retry_eligibility client)); [|done]. destruct Hinv. lia. }
  specialize (Hb Hinv'). destruct n; lia.
Qed.

Lemma last_turn_sends o x (n : bool) :
  1 <= Retry.max_attempts (retry_policy o) -> exec_inv o x ->
  (if n then 1 else 0) <= Retry.max_attempts (retry_policy o) + max_redirects (redirect_policy o) - progress x + 1.
Proof. intros Hc [_ Ha Hmax Hred _]. unfold progress. destruct n; lia. Qed.

Lemma wp_attempts_loop fuel rate_fuel mode o x b gp t :
  wp (attempts_loop client fuel rate_fuel x b mode gp) t
    (fun rgp t' => loop_post mode o x b gp t rgp.1 rgp.2 t').
Proof.
  revert x b t. induction fuel as [|fuel IH]; intros x b t; simpl; (apply wp_if; intros Hcan).
  1: { by intros s a s' _. }
  1, 3: apply wp_bind, wp_run_error_interceptors, wp_ret; split; simpl; try done; try (owns; done);
    [intros _ _ Hinv; exfalso; destruct Hinv; unfold can_attempt in Hcan; zbool; lia
    |case_match; lia|exists O; by apply paid_none].
  apply wp_bind. eapply wp_mono; [apply wp_turn|]. intros [x' b'|r gp'] t1 (n & Hs & Hst & Hd & Hrest).
  - destruct Hrest as (Hround & Hb' & [k Hk] & He & Hci & Had & Hpe).
    eapply wp_mono; [by apply IH|]. intros [r gp'] t2 [L1 L2 L3 L4 L5 L6 L7 L8 [k2 L9]]. simpl in *.
    split; try done; try congruence; try lia.
    + intros Hc Hr Hinv. pose proof (round_sends o x x' n (sends t2 - sends t1) Hround Hc Hr Hinv (L7 Hc Hr)). lia.
    + rewrite Hb' in L8. destruct n, (is_streaming b); simpl in *; lia.
    + exists (k + k2)%nat. by eapply paid_trans.
  - apply wp_ret. destruct Hrest as (Hm & Hpaid & He & Hci & Had & Hpe). split; simpl; try done.
    + intros Hc _ Hinv. pose proof (last_turn_sends o x n Hc Hinv). lia.
    + destruct n; simpl in *; destruct (is_streaming b); lia.
    + by exists O.
Qed.

(** The whole request: the rest of the global permit is dropped at the end. *)
Lemma wp_send_request_with_retry_mode fuel rate_fuel input mode gp started t :
  wp (send_request_with_retry_mode client fuel rate_fuel input mode gp started) t
    (fun r t' => exists gp' t1,
       loop_post mode (in_execution_options _ input)
         (from_request input started (retry_eligibility client)).1 (in_body _ input) gp t r gp' t1 /\
       t' = released gp' t1).
Proof.
  unfold send_request_with_retry_mode.
  destruct (from_request input started (retry_eligibility client)) as [x b] eqn:Hx.
  assert (b = in_body _ input) as -> by (unfold from_request in Hx; congruence).
  apply wp_bind. eapply wp_mono; [apply wp_attempts_loop|]. intros [r gp'] t1 Hpost.
  apply wp_bind, wp_drop_permit, wp_ret. by exists gp', t1.
Qed.

End Facts.
