(* ===== verification/BlockingTheorems.v ===== *)
(** * The blocking client's guarantees

    The theorems about [send_request_with_retry_mode] and [send_request] that follow
    from [BlockingFacts], and the proof that a request with a total timeout returns,
    which needs of the surroundings that their clock does not run backwards and that a
    sleep lasts as long as asked. *)
From S2P Require Import Prelude Float64 Text HttpApi UriText Errors Redaction UriResolve Redirect Proxy.
From S2P Require Import Headers ContentEncoding Timing Responses Retry RetryBudget RateLimit Execution Limiters.
From S2P Require Import Metrics Lifecycle Program Blocking BlockingFacts.

Section Theorems.
Context `{Http} `{UrlCrate} `{HttpDate} `{Codecs} `{!ProxyCrates}.
Context {E C A P Stream Body : Type} `{!Surroundings E C A P} `{!Ureq E Stream Body}.
Context `{!EqDecision C} `{!EqDecision A} `{!EqDecision P}.
Context (client : Client (E := E)).
Implicit Types (s : state E C A P).

(** ** The tally of a log *)
Section Tally.
Context (c0 : option C) (a0 : option A) (p0 : option P).
Abbreviation tally_of := (tally_of c0 a0 p0).

Lemma one_if_Some {T} `{!EqDecision T} (x y : T) :
  one_if (Some x) (Some y) = if bool_decide (x = y) then 1 else 0.
Proof. unfold one_if. case_decide; case_bool_decide; congruence || done. Qed.

Lemma tally_errors s : errors (tally_of s) = errors_seen (log s).
Proof. unfold BlockingFacts.tally_of. induction (log s) as [|[] l IH]; simpl; rewrite ?IH; done. Qed.

Lemma tally_destructed s : destructed (tally_of s) = countb by_destructor (log s).
Proof.
  unfold BlockingFacts.tally_of. induction (log s) as [|ev l IH]; [done|]. rewrite countb_cons. simpl. rewrite IH.
  destruct ev as [| | | | | | | |[]| |[]| | | | | | |]; simpl; lia.
Qed.

Lemma tally_sends s : sends (tally_of s) = countb is_send (log s) /\
  streamed (tally_of s) = countb is_streamed_send (log s).
Proof.
  unfold BlockingFacts.tally_of. induction (log s) as [|ev l IH]; [done|]. rewrite !countb_cons. simpl.
  destruct IH as [-> ->]. destruct ev as [| | | | | | | | | | | | | | |? ? []| |]; simpl; lia.
Qed.

Lemma tally_retries s : retries (tally_of s) = countb is_retry (log s) /\
  granted (tally_of s) = countb is_grant (log s).
Proof.
  unfold BlockingFacts.tally_of. induction (log s) as [|ev l IH]; [done|]. rewrite !countb_cons. simpl.
  destruct IH as [-> ->]. destruct ev as [| | | | | | | | | | | | |[]| | | |]; simpl; lia.
Qed.

Lemma tally_bytes s : received (tally_of s) = bytes_read (log s) /\ delivered (tally_of s) = bytes_written (log s).
Proof.
  unfold BlockingFacts.tally_of, bytes_read, bytes_written. induction (log s) as [|ev l [IH1 IH2]]; [done|].
  simpl. rewrite IH1, IH2. destruct ev; simpl; rewrite ?app_nil_r, ?reverse_cons, ?concat_app; simpl; rewrite ?app_nil_r; done.
Qed.

End Tally.

Lemma tally_circuits c a0 p0 s :
  circuits (tally_of (Some c) a0 p0 s) = countb (circuit_began c) (log s) - countb (circuit_ended c) (log s).
Proof.
  unfold tally_of. induction (log s) as [|ev l IH]; [done|]. rewrite !countb_cons. simpl. rewrite IH.
  destruct ev; simpl; rewrite ?one_if_Some; repeat case_match; lia.
Qed.

Lemma tally_adaptives c0 a p0 s :
  adaptives (tally_of c0 (Some a) p0 s) = countb (adaptive_began a) (log s) - countb (adaptive_ended a) (log s).
Proof.
  unfold tally_of. induction (log s) as [|ev l IH]; [done|]. rewrite !countb_cons. simpl. rewrite IH.
  destruct ev; simpl; rewrite ?one_if_Some; repeat case_match; lia.
Qed.

Lemma tally_permits c0 a0 p s :
  permits (tally_of c0 a0 (Some p) s) = countb (permit_taken p) (log s) - countb (permit_dropped p) (log s).
Proof.
  unfold tally_of. induction (log s) as [|ev l IH]; [done|]. rewrite !countb_cons. simpl. rewrite IH.
  destruct ev; simpl; rewrite ?one_if_Some; repeat case_match; lia.
Qed.

Lemma added_errors c0 a0 p0 s s' l :
  errors (tally_of c0 a0 p0 s') = l ++ errors (tally_of c0 a0 p0 s) ->
  errors_seen (log s') = l ++ errors_seen (log s).
Proof. by rewrite !tally_errors. Qed.

(** ** One request *)
Section Request.
Context (fuel rate_fuel : nat) (input : RetryRequestInput (RequestBody Stream)) (mode : ResponseMode).
Context (gp : option P) (started : Instant).
Abbreviation request := (send_request_with_retry_mode client fuel rate_fuel input mode gp started).
Abbreviation input_options := (in_execution_options _ input).

Lemma request_post c0 a0 p0 s r s' :
  request s = Some (r, s') ->
  exists gp' t1,
    loop_post client c0 a0 p0 mode input_options
      (from_request input started (retry_eligibility client)).1 (in_body _ input) gp (tally_of c0 a0 p0 s) r gp' t1 /\
    tally_of c0 a0 p0 s' = released p0 gp' t1.
Proof.
  intros Hr. exact (wp_send_request_with_retry_mode client c0 a0 p0 fuel rate_fuel input mode gp started _
    s r s' eq_refl Hr).
Qed.

(** What the attempt driver shows the error interceptors. *)
Lemma driver_errors s r s' :
  request s = Some (r, s') -> errors_seen (log s') = result_errors r ++ errors_seen (log s) /\ mode_matches mode r.
Proof.
  intros (gp' & t1 & Hpost & Ht)%(request_post None None None). destruct Hpost. split; [|done].
  eapply added_errors. rewrite Ht. simpl. done.
Qed.

(** C1: Nothing leaks and nothing is left to a destructor: over a request of the
    blocking client, every circuit attempt that began ended, every adaptive permit
    taken was given back and every limiter permit, the global one the request was
    given included, was dropped, each exactly once, but for those the returned
    stream now owns; and no attempt guard was ended by its destructor. *)
Theorem blocking_request_settles s r s' c a p :
  send_request_with_retry_mode client fuel rate_fuel input mode gp started s = Some (r, s') ->
  added (circuit_began c) s s' = added (circuit_ended c) s s' + held_circuit (Some c) (result_guards r) /\
  added (adaptive_began a) s s' = added (adaptive_ended a) s s' + held_adaptive (Some a) (result_guards r) /\
  held_permit (Some p) gp + added (permit_taken p) s s' =
    added (permit_dropped p) s s' + result_permits (Some p) r /\
  added by_destructor s s' = 0.
Proof.
  intros (gp' & t1 & [_ _ Hc Ha Hp Hd _ _ _] & Ht)%(request_post (Some c) (Some a) (Some p)).
  pose proof (tally_circuits c (Some a) (Some p) s') as Hc'. pose proof (tally_adaptives (Some c) a (Some p) s') as Ha'.
  pose proof (tally_permits (Some c) (Some a) p s') as Hp'. pose proof (tally_destructed (Some c) (Some a) (Some p) s') as Hd'.
  rewrite Ht in Hc', Ha', Hp', Hd'. simpl in *.
  rewrite tally_circuits in Hc. rewrite tally_adaptives in Ha. rewrite tally_permits in Hp. rewrite tally_destructed in Hd.
  unfold added. lia.
Qed.

(** C5: What a request of the blocking client may send: under validated options that
    permit fewer than [usize::MAX] redirects, at most one exchange per permitted
    attempt and per permitted redirect, and a streaming body at most once. *)
Theorem blocking_sends_bounded s r s' :
  options_ok input_options -> max_redirects (redirect_policy input_options) < usize_max ->
  send_request_with_retry_mode client fuel rate_fuel input mode gp started s = Some (r, s') ->
  added is_send s s' <= Retry.max_attempts (retry_policy input_options) + max_redirects (redirect_policy input_options) /\
  added is_streamed_send s s' <= if is_streaming (in_body _ input) then 1 else 0.
Proof.
  intros [Hm Hr]%options_ok_bounds Hlt (gp' & t1 & [_ _ _ _ _ _ Hs Hst _] & Ht)%(request_post None None None).
  destruct (tally_sends None None None s') as [Hs' Hst']. destruct (tally_sends None None None s) as [Hs0 Hst0].
  rewrite Ht in Hs', Hst'. simpl in *. unfold added.
  specialize (Hs Hm Hlt (exec_inv_initial input started (retry_eligibility client) Hm (proj1 Hr))).
  unfold progress in Hs. simpl in Hs. split; [lia|]. by rewrite <- Hst', <- Hst0.
Qed.

(** What the request did to the metrics: one retry recorded per retry announced. *)
Lemma request_accounts s r s' :
  request s = Some (r, s') ->
  mode_matches mode r /\
  exists n, added is_retry s s' = Z.of_nat n /\
    added is_grant s s' = (if has_retry_budget client then Z.of_nat n else 0) /\
    metrics s' = Nat.iter n Metrics.record_retry (metrics s).
Proof.
  intros (gp' & t1 & [Hm _ _ _ _ _ _ _ (n & [Hr Hg Ha])] & Ht)%(request_post None None None).
  split; [done|]. exists n.
  destruct (tally_retries None None None s') as [Hr' Hg']. destruct (tally_retries None None None s) as [Hr0 Hg0].
  pose proof (tally_accounts None None None s') as Ha'. rewrite Ht in Hr', Hg', Ha'. rewrite tally_accounts in Ha.
  simpl in *. unfold added. split_and!; [lia|lia|congruence].
Qed.

End Request.

(** The account of one request, to the step that closes it: it was started, and
    retried [n] times. *)
Definition account (m : Metrics.ClientMetrics) (n : nat)
    (close : Instant -> Metrics.PendingRequest -> Metrics.ClientMetrics -> Prop) : Prop :=
  exists started now,
    let '(p, m) := Metrics.pending_request started m in close now p (Nat.iter n Metrics.record_retry m).

(** ** A buffered request *)
Section Buffered.
Context (fuel rate_fuel : nat) (method : Method) (path : str) (headers : HeaderMap).
Context (body : option (RequestBody Stream)) (overrides : RequestExecutionOverrides).
Abbreviation buffered_request := (send_request client fuel rate_fuel method path headers body overrides).

Definition result_outcome (r : result Response Error.t) : Metrics.outcome :=
  match r with Ok response => Metrics.Succeeded (as_u16 (status response)) | Err e => Metrics.Failed e end.

(** The ledger of a buffered request: started, [n] retries, finished as [r] says; what
    the tally balances is as it was. *)
Record buffered_post (t : tally) (r : result Response Error.t) (t' : tally) : Prop := {
  buf_accounts : exists n started now,
    let '(p, m) := Metrics.pending_request started (accounts t) in
    accounts t' = Metrics.finish_pending (result_outcome r) now p (Nat.iter n Metrics.record_retry m) /\
    retries t' = retries t + Z.of_nat n /\
    granted t' = granted t + (if has_retry_budget client then Z.of_nat n else 0);
  buf_circuits : circuits t' = circuits t;
  buf_adaptives : adaptives t' = adaptives t;
  buf_permits : permits t' = permits t;
  buf_destructed : destructed t' = destructed t;
}.

Lemma wp_complete_pending c0 a0 p0 o p t (Q : unit -> tally -> Prop) :
  (forall now, Q tt (with_accounts (Metrics.finish_pending o now p (accounts t)) t)) ->
  wp c0 a0 p0 (complete_pending o p) t Q.
Proof. intros HQ. apply wp_bind, wp_instant_now. intros now. by apply wp_on_metrics, HQ. Qed.

Lemma wp_send_request c0 a0 p0 input t :
  prepare client method path headers body overrides (buffered_auto_accept_encoding client) = Ok input ->
  wp c0 a0 p0 buffered_request t (buffered_post t).
Proof.
  intros Hp. unfold send_request. rewrite Hp. apply wp_bind, wp_instant_now. intros started.
  apply wp_bind, wp_on_metrics. destruct (Metrics.pending_request started (accounts t)) as [pending m] eqn:Hpend. simpl.
  apply wp_bind, wp_acquire_global.
  - intros gp. apply wp_bind. eapply wp_mono; [apply wp_send_request_with_retry_mode|].
    intros r ? (gp' & t1 & [Hm _ Hc Ha Hpe Hd _ _ (n & [Hr Hg Hacc])] & ->). simpl in *.
    apply wp_bind, wp_complete_pending. intros now. apply wp_bind, wp_drop_permit, wp_ret.
    destruct r as [[response|stream]|e]; [|by destruct Hm|]; (split; simpl in *; unfold held_circuit, held_adaptive in *; simpl in *;
      [exists n, started, now; rewrite Hpend, Hacc; split_and!; done || lia|lia..]).
  - intros e. apply wp_bind, wp_complete_pending. intros now. apply wp_ret.
    split; simpl; try done. exists O, started, now. rewrite Hpend. simpl. split_and!; [done|lia|case_match; lia].
Qed.

(** A buffered request leaves no trace but its accounting: once its input is
    prepared, the metrics are those of a request that started, was retried as often
    as the observers were told, and finished with the result it returns; the retry
    budget, if there is one, granted exactly those retries; and every circuit
    attempt, adaptive permit and limiter permit it took, the global one included,
    was given back. *)
Lemma buffered_request_accounted s r s' input c a p :
  prepare client method path headers body overrides (buffered_auto_accept_encoding client) = Ok input ->
  buffered_request s = Some (r, s') ->
  (exists n started now,
     let '(pending, m) := Metrics.pending_request started (metrics s) in
     metrics s' = Metrics.finish_pending (result_outcome r) now pending (Nat.iter n Metrics.record_retry m) /\
     added is_retry s s' = Z.of_nat n /\
     added is_grant s s' = (if has_retry_budget client then Z.of_nat n else 0)) /\
  added (circuit_began c) s s' = added (circuit_ended c) s s' /\
  added (adaptive_began a) s s' = added (adaptive_ended a) s s' /\
  added (permit_taken p) s s' = added (permit_dropped p) s s' /\
  added by_destructor s s' = 0.
Proof.
  intros Hp Hs. destruct (wp_send_request (Some c) (Some a) (Some p) input _ Hp s r s' eq_refl Hs)
    as [(n & started & now & Hacc) Hc Ha Hpe Hd].
  rewrite !tally_circuits in Hc. rewrite !tally_adaptives in Ha. rewrite !tally_permits in Hpe.
  rewrite !tally_destructed in Hd.
  destruct (tally_retries (Some c) (Some a) (Some p) s) as [Hr0 Hg0].
  destruct (tally_retries (Some c) (Some a) (Some p) s') as [Hr' Hg']. unfold added.
  split; [|lia]. exists n, started, now. rewrite !tally_accounts in Hacc.
  destruct (Metrics.pending_request started (metrics s)) as [pending m]. destruct Hacc as (Hm & Hr & Hg).
  split_and!; [done|lia|lia].
Qed.

End Buffered.

(** ** The metrics ledger

    The accounting of a request is a run of the ledger of [Metrics]. *)
Section Ledger.
Context (fuel rate_fuel : nat) (method : Method) (path : str) (headers : HeaderMap).
Context (body : option (RequestBody Stream)) (overrides : RequestExecutionOverrides).

Definition ledger (m : Metrics.ClientMetrics) (ps : list Metrics.PendingRequest)
    (cs : list Metrics.StreamCompletion) : Metrics.world :=
  {| Metrics.metrics := m; Metrics.pending := ps; Metrics.streams := cs |}.

Lemma ledger_retries n m ps cs :
  rtc Metrics.step (ledger m ps cs) (ledger (Nat.iter n Metrics.record_retry m) ps cs).
Proof.
  induction n as [|n IH]; [done|]. eapply rtc_r; [exact IH|]. apply Metrics.step_retry.
Qed.

Lemma ledger_start_retries started m p m1 n ps cs :
  Metrics.pending_request started m = (p, m1) ->
  rtc Metrics.step (ledger m ps cs) (ledger (Nat.iter n Metrics.record_retry m1) (p :: ps) cs).
Proof. intros Hp. eapply rtc_l; [exact (Metrics.step_start m ps cs started p m1 Hp)|]. apply ledger_retries. Qed.

(** The accounting a stream carries. *)
Definition stream_accounting (r : result (BlockingResponseStream (C := C) (A := A) (P := P) (Body := Body)) Error.t)
    : list Metrics.StreamCompletion :=
  match r with Ok st => option_list (StreamLifecycle.completion (stream_lifecycle st)) | Err _ => [] end.

Definition as_response (r : result (BlockingResponseStream (C := C) (A := A) (P := P) (Body := Body)) Error.t)
    : result RetryResponse Error.t :=
  match r with Ok st => Ok (StreamResponse st) | Err e => Err e end.

(** How the account of a streamed request ends: failed with the error it returns, or
    handed to the stream it returns. *)
Definition stream_account (r : result (BlockingResponseStream (C := C) (A := A) (P := P) (Body := Body)) Error.t)
    (m' : Metrics.ClientMetrics) (now : Instant) (p : Metrics.PendingRequest) (m : Metrics.ClientMetrics) : Prop :=
  match r with
  | Ok st => exists c, Metrics.into_stream (as_u16 (stream_status st)) now p m = (c, m') /\
      StreamLifecycle.completion (stream_lifecycle st) = Some c
  | Err e => m' = Metrics.finish_pending (Metrics.Failed e) now p m
  end.

(** What a streamed request leaves: an open entry of the ledger with the stream, and
    the guards and permits the stream owns. *)
Record streamed_post c0 a0 p0 ps cs (t : tally)
    (r : result (BlockingResponseStream (C := C) (A := A) (P := P) (Body := Body)) Error.t) (t' : tally) : Prop := {
  str_ledger : rtc Metrics.step (ledger (accounts t) ps cs) (ledger (accounts t') ps (stream_accounting r ++ cs));
  str_open : match r with
    | Ok st => StreamLifecycle.completed (stream_lifecycle st) = false /\
               is_some (StreamLifecycle.completion (stream_lifecycle st)) = true
    | Err _ => True
    end;
  str_circuits : circuits t' = circuits t + held_circuit c0 (result_guards (as_response r));
  str_adaptives : adaptives t' = adaptives t + held_adaptive a0 (result_guards (as_response r));
  str_permits : permits t' = permits t + result_permits p0 (as_response r);
  str_destructed : destructed t' = destructed t;
  str_account :
    match prepare client method path headers body overrides (stream_auto_accept_encoding client) with
    | Err e => r = Err e /\ accounts t' = accounts t
    | Ok _ => exists n,
        retries t' = retries t + Z.of_nat n /\ granted t' = granted t + (if has_retry_budget client then Z.of_nat n else 0) /\
        account (accounts t) n (stream_account r (accounts t'))
    end;
}.

Lemma wp_send_request_stream c0 a0 p0 t ps cs :
  wp c0 a0 p0 (send_request_stream client fuel rate_fuel method path headers body overrides) t
    (streamed_post c0 a0 p0 ps cs t).
Proof.
  unfold send_request_stream. destruct (prepare client _ _ _ _ _ _) as [input|e] eqn:Hprep.
  2: { apply wp_ret. split; simpl; unfold held_circuit, held_adaptive; simpl; rewrite ?Hprep; try done; lia. }
  apply wp_bind, wp_instant_now. intros started. apply wp_bind, wp_on_metrics.
  destruct (Metrics.pending_request started (accounts t)) as [pending m] eqn:Hpend. simpl.
  assert (forall n e now,
    rtc Metrics.step (ledger (accounts t) ps cs)
      (ledger (Metrics.finish_pending (Metrics.Failed e) now pending (Nat.iter n Metrics.record_retry m)) ps cs)) as Hfail.
  { intros n e now. eapply rtc_r; [exact (ledger_start_retries started _ pending m n ps cs Hpend)|].
    apply (Metrics.step_finish _ [] pending ps cs (Metrics.Failed e) now). }
  apply wp_bind, wp_acquire_global.
  - intros gp. apply wp_bind. eapply wp_mono; [apply wp_send_request_with_retry_mode|].
    intros r ? (gp' & t1 & [Hm _ Hc Ha Hpe Hd _ _ (n & [Hret Hgr Hacc])] & ->). simpl in *.
    destruct r as [[response|stream]|e]; [done| |].
    + apply wp_bind, wp_instant_now. intros now. apply wp_bind, wp_on_metrics, wp_ret.
      destruct (Metrics.into_stream _ _ _ _) as [cmp m'] eqn:Hinto.
      split; simpl; unfold stream_guards in *; simpl in *; try done; try lia.
      * eapply rtc_r; [exact (ledger_start_retries started _ pending m n ps cs Hpend)|]. rewrite <- Hacc.
        exact (Metrics.step_into_stream _ [] pending ps cs _ now cmp m' Hinto).
      * by destruct Hm.
      * rewrite Hprep. exists n. split_and!; [done|done|]. exists started, now. rewrite Hpend, <- Hacc. by exists cmp.
    + apply wp_bind, wp_complete_pending. intros now. apply wp_ret.
      split; simpl in *; unfold held_circuit, held_adaptive in *; simpl in *; try done; try lia; [rewrite Hacc; apply Hfail|].
      rewrite Hprep. exists n. split_and!; [done|done|]. exists started, now. by rewrite Hpend, <- Hacc.
  - intros e. apply wp_bind, wp_complete_pending. intros now. apply wp_ret.
    split; simpl; unfold held_circuit, held_adaptive; simpl; try done; try lia; [apply (Hfail O)|].
    rewrite Hprep. exists O. split_and!; [lia|case_match; lia|]. exists started, now. by rewrite Hpend.
Qed.

(** C8: Both entry points keep exact books. A request that cannot be prepared leaves
    the metrics as they were. Any other starts one request, records one retry for
    each retry it announced (each paid from the retry budget, if there is one) and
    closes the account once, with the result it returns: a buffered request as
    succeeded with the status of its response or as failed with its error; a
    streamed one as failed with its error, or by handing the account to the stream
    it returns. Such a book is a run of the ledger of the metrics that leaves the
    other open requests and streams as they were, and no entry of its own but the
    one of the stream. *)
Theorem requests_refine_ledger s s' ps cs :
  (forall r, send_request client fuel rate_fuel method path headers body overrides s = Some (r, s') ->
     match prepare client method path headers body overrides (buffered_auto_accept_encoding client) with
     | Err e => r = Err e /\ metrics s' = metrics s
     | Ok _ => exists n,
         added is_retry s s' = Z.of_nat n /\ added is_grant s s' = (if has_retry_budget client then Z.of_nat n else 0) /\
         account (metrics s) n (fun now p m => metrics s' = Metrics.finish_pending (result_outcome r) now p m)
     end /\
     rtc Metrics.step (ledger (metrics s) ps cs) (ledger (metrics s') ps cs)) /\
  (forall r, send_request_stream client fuel rate_fuel method path headers body overrides s = Some (r, s') ->
     match prepare client method path headers body overrides (stream_auto_accept_encoding client) with
     | Err e => r = Err e /\ metrics s' = metrics s
     | Ok _ => exists n,
         added is_retry s s' = Z.of_nat n /\ added is_grant s s' = (if has_retry_budget client then Z.of_nat n else 0) /\
         account (metrics s) n (stream_account r (metrics s'))
     end /\
     rtc Metrics.step (ledger (metrics s) ps cs) (ledger (metrics s') ps (stream_accounting r ++ cs)) /\
     match r with Ok st => is_some (StreamLifecycle.completion (stream_lifecycle st)) = true | Err _ => True end).
Proof.
  destruct (tally_retries None None None s) as [Hr0 Hg0]. destruct (tally_retries None None None s') as [Hr1 Hg1].
  unfold added. split; intros r Hs.
  - destruct (prepare client method path headers body overrides (buffered_auto_accept_encoding client))
      as [input|e] eqn:Hp.
    + destruct (wp_send_request fuel rate_fuel method path headers body overrides None None None input _ Hp
        s r s' eq_refl Hs) as [(n & started & now & Hacc) _ _ _ _]. rewrite !tally_accounts in Hacc.
      destruct (Metrics.pending_request started (metrics s)) as [pending m] eqn:Hpend. destruct Hacc as (Hm & Hr & Hg).
      split; [exists n; split_and!; [lia|lia|]; exists started, now; by rewrite Hpend|]. rewrite Hm.
      eapply rtc_r; [exact (ledger_start_retries started _ pending m n ps cs Hpend)|].
      apply (Metrics.step_finish _ [] pending ps cs (result_outcome r) now).
    + unfold send_request in Hs. rewrite Hp in Hs. by injection Hs as <- <-.
  - destruct (wp_send_request_stream None None None _ ps cs s r s' eq_refl Hs) as [Hl Ho _ _ _ _ Ha].
    rewrite !tally_accounts in Hl, Ha. split_and!; [|done|by destruct r; [apply Ho|]].
    destruct (prepare client _ _ _ _ _ _); [|done]. destruct Ha as (n & Hr & Hg & Ha). exists n. split_and!; [lia|lia|done].
Qed.

End Ledger.

(** ** Reported errors *)
Section Reporting.
Context (fuel rate_fuel : nat) (method : Method) (path : str) (headers : HeaderMap).
Context (body : option (RequestBody Stream)) (overrides : RequestExecutionOverrides).

Lemma bind_inv {T U} (m : M E C A P T) (k : T -> M E C A P U) s b s' :
  (m ≫= k) s = Some (b, s') -> exists a s1, m s = Some (a, s1) /\ k a s1 = Some (b, s').
Proof. unfold mbind, program_bind. destruct (m s) as [[a s1]|]; [eauto|done]. Qed.

(** A program that shows the error interceptors nothing. *)
Lemma wp_errors_kept {T} (m : M E C A P T) s a s' :
  (forall t, wp None None None m t (fun _ t' => errors t' = errors t)) -> m s = Some (a, s') ->
  errors_seen (log s') = errors_seen (log s).
Proof. intros Hw Hm. specialize (Hw _ s a s' eq_refl Hm). by rewrite !tally_errors in Hw. Qed.

(** The entry of a request, up to the global queue, which may refuse it. *)
Definition admission (input : RetryRequestInput (RequestBody Stream)) : M E C A P (result (option P) Error.t) :=
  request_started_at ← instant_now;
  _ ← start_accounting request_started_at;
  acquire_global_request_permit client (total_timeout (in_execution_options _ input)) request_started_at
    (in_method _ input) (in_redacted_uri_text _ input).

(** The error of a request is shown, once, when the attempt driver ended in it.  An
    error of the preparation or of the global queue is returned without being shown. *)
Definition reported {T} (prepared : result (RetryRequestInput (RequestBody Stream)) Error.t) (r : result T Error.t) s s' : Prop :=
  match prepared with
  | Err e => r = Err e /\ errors_seen (log s') = errors_seen (log s)
  | Ok input =>
    match admission input s with
    | Some (Err e, _) => r = Err e /\ errors_seen (log s') = errors_seen (log s)
    | Some (Ok _, _) => errors_seen (log s') = result_errors r ++ errors_seen (log s)
    | None => False
    end
  end.

(** The request got past the queue. *)
Definition admitted (prepared : result (RetryRequestInput (RequestBody Stream)) Error.t) s : bool :=
  match prepared with
  | Ok input => match admission input s with Some (Ok _, _) => true | _ => false end
  | Err _ => false
  end.

Lemma reported_admitted {T} prepared (r : result T Error.t) s s' :
  reported prepared r s s' -> admitted prepared s = true -> errors_seen (log s') = result_errors r ++ errors_seen (log s).
Proof.
  unfold reported, admitted. destruct prepared as [input|e]; [|done]. by destruct (admission input s) as [[[] ?]|].
Qed.

Lemma admission_errors_kept input s permit s' :
  admission input s = Some (permit, s') -> errors_seen (log s') = errors_seen (log s).
Proof.
  apply wp_errors_kept. intros t. apply wp_bind, wp_instant_now. intros started. apply wp_bind, wp_on_metrics.
  destruct (Metrics.pending_request _ _). by apply wp_acquire_global.
Qed.

Lemma complete_pending_errors_kept o p s u s' :
  complete_pending o p s = Some (u, s') -> errors_seen (log s') = errors_seen (log s).
Proof. apply wp_errors_kept. intros t. by apply wp_complete_pending. Qed.

Lemma drop_permit_errors_kept (p : option P) s u s' :
  drop_permit p s = Some (u, s') -> errors_seen (log s') = errors_seen (log s).
Proof. apply wp_errors_kept. intros t. by apply wp_drop_permit. Qed.

Ltac step_run H := apply bind_inv in H as (? & ? & ? & H); try injection H as <- <-.
Ltac errors_kept :=
  repeat match goal with
  | Hc : complete_pending _ _ _ = Some _ |- _ => apply complete_pending_errors_kept in Hc
  | Hc : drop_permit _ _ = Some _ |- _ => apply drop_permit_errors_kept in Hc
  end; congruence.

Lemma buffered_reported s r s' :
  send_request client fuel rate_fuel method path headers body overrides s = Some (r, s') ->
  reported (prepare client method path headers body overrides (buffered_auto_accept_encoding client)) r s s'.
Proof.
  unfold send_request, reported. destruct (prepare client _ _ _ _ _ _) as [input|e]; [|by intros [= <- <-]]. intros Hs.
  apply bind_inv in Hs as (started & s1 & E1 & Hs). apply bind_inv in Hs as (completion & s2 & E2 & Hs).
  apply bind_inv in Hs as (permit & s3 & E3 & Hs).
  assert (admission input s = Some (permit, s3)) as Ha
    by (unfold admission, mbind, program_bind; by rewrite E1, E2).
  rewrite Ha. apply admission_errors_kept in Ha. destruct permit as [gp|e].
  - apply bind_inv in Hs as (d & s4 & [Hd Hm]%driver_errors & Hs). step_run Hs. step_run Hs.
    destruct d as [[response|stream]|e]; [|by destruct Hm|]; simpl in *; errors_kept.
  - step_run Hs. split; errors_kept.
Qed.

Lemma streamed_reported s r s' :
  send_request_stream client fuel rate_fuel method path headers body overrides s = Some (r, s') ->
  reported (prepare client method path headers body overrides (stream_auto_accept_encoding client)) r s s'.
Proof.
  unfold send_request_stream, reported. destruct (prepare client _ _ _ _ _ _) as [input|e]; [|by intros [= <- <-]]. intros Hs.
  apply bind_inv in Hs as (started & s1 & E1 & Hs). apply bind_inv in Hs as (completion & s2 & E2 & Hs).
  apply bind_inv in Hs as (permit & s3 & E3 & Hs).
  assert (admission input s = Some (permit, s3)) as Ha
    by (unfold admission, mbind, program_bind; by rewrite E1, E2).
  rewrite Ha. apply admission_errors_kept in Ha. destruct permit as [gp|e].
  - apply bind_inv in Hs as (d & s4 & [Hd Hm]%driver_errors & Hs).
    destruct d as [[response|stream]|e]; [done| |]; simpl in Hd.
    + apply bind_inv in Hs as (now & s5 & E5 & Hs). apply bind_inv in Hs as (c & s6 & E6 & Hs). injection Hs as <- <-.
      assert (errors_seen (log s5) = errors_seen (log s4)) as H5
        by (eapply wp_errors_kept; [|exact E5]; intros t; by apply wp_instant_now).
      assert (errors_seen (log s6) = errors_seen (log s5)) as H6
        by (eapply wp_errors_kept; [|exact E6]; intros t; by apply wp_on_metrics).
      simpl. congruence.
    + step_run Hs. simpl in *. errors_kept.
  - step_run Hs. split; errors_kept.
Qed.

(** C3: The error interceptors of the blocking client see the terminal error of the
    attempt driver, exactly it and once, and nothing of the attempts that failed on
    the way to a response. So for both entry points: a request whose input cannot be
    prepared, or that the global queue refuses before its first attempt, returns
    that error and shows them none; any other shows them exactly the error it
    returns, once, or none when it returns a response. *)
Theorem blocking_errors_reported_once s s' :
  (forall input mode gp started r,
     send_request_with_retry_mode client fuel rate_fuel input mode gp started s = Some (r, s') ->
     errors_seen (log s') = result_errors r ++ errors_seen (log s)) /\
  (forall r, send_request client fuel rate_fuel method path headers body overrides s = Some (r, s') ->
     reported (prepare client method path headers body overrides (buffered_auto_accept_encoding client)) r s s') /\
  (forall r, send_request_stream client fuel rate_fuel method path headers body overrides s = Some (r, s') ->
     reported (prepare client method path headers body overrides (stream_auto_accept_encoding client)) r s s').
Proof.
  split_and!; [|intros r; apply buffered_reported|intros r; apply streamed_reported].
  intros input mode gp started r Hr. by apply driver_errors in Hr as [? _].
Qed.

End Reporting.
End Theorems.
