(* ===== verification/Walk.v ===== *)
(** * Properties a client program inherits from its operations

    A property of programs that holds of [mret], of the bookkeeping of the metrics and
    of a sequence whose parts have it, is a [logic].  If the operations on the
    surroundings have it, so has every operation of the blocking client, and, in
    [AsyncWalk], of the async one.  That requests return ([BlockingReturns],
    [AsyncReturns]) and that they keep the controls they share with other requests
    sound ([System]) are two such properties. *)
From S2P Require Import Prelude Float64 Text HttpApi UriText Errors Redaction UriResolve Redirect Proxy.
From S2P Require Import Headers ContentEncoding Timing Responses Retry RetryBudget RateLimit Execution Limiters.
From S2P Require Import Metrics Lifecycle Program Blocking.

Section Logic.
Context `{Http} {E C A P : Type}.

Record logic := {
  holds : forall {T}, M E C A P T -> Prop;
  holds_ret : forall T (a : T), holds (mret a);
  holds_bind : forall T U (m : M E C A P T) (k : T -> M E C A P U),
    holds m -> (forall a, holds (k a)) -> holds (m ≫= k);
  holds_metrics : forall T (f : Metrics.ClientMetrics -> T * Metrics.ClientMetrics), holds (on_metrics f);
  holds_ext : forall T (m m' : M E C A P T), (forall s, m s = m' s) -> holds m -> holds m';
}.

(** Of a program that outruns its fuel nothing is asked. *)
Definition partial (L : logic) : Prop := forall T, holds L (fun _ : state E C A P => None : option (T * _)).

End Logic.
Arguments logic {_} E C A P.

Create HintDb walks discriminated.

(** A program without loops has the property because each of its steps does. *)
Ltac walking :=
  repeat first
    [ solve [eauto 3 with walks] | apply holds_bind; [|intros ?] | apply holds_ret
    | apply holds_metrics | progress cbv zeta | case_match ].

(** ** Relations on the surroundings

    What the operations do to the surroundings, as a relation [R] that composes. *)
Section Carries.
Context {E : Type} (R : E -> E -> Prop) `{!PreOrder R}.

Definition carries {T} (f : E -> T * E) : Prop := forall e, R e (f e).2.
Definition carries_ (f : E -> E) : Prop := forall e, R e (f e).

Lemma carries_fold_ {X} (f : X -> E -> E) l :
  Forall (fun x => carries_ (f x)) l -> carries_ (fun e => fold_left (fun e x => f x e) l e).
Proof. induction 1 as [|x l Hx _ IH]; intros e; simpl; [done|]. etransitivity; [apply Hx|apply IH]. Qed.

Lemma carries_fold {X U} (f : X -> U -> E -> U * E) l u :
  Forall (fun x => forall u, carries (f x u)) l ->
  carries (fun e => fold_left (fun '(u, e) x => f x u e) l (u, e)).
Proof.
  intros Hl. revert u. induction Hl as [|x l Hx _ IH]; intros u e; simpl; [done|].
  pose proof (Hx u e) as Hle. destruct (f x u e) as [u1 e1]. etransitivity; [exact Hle|apply IH].
Qed.

End Carries.

(** The interceptors and observers of a client, one by one. *)
Section Callbacks.
Context `{Http} `{UrlCrate} `{!ProxyCrates} {E : Type}.
Context (client : Client (E := E)) (R : E -> E -> Prop) `{!PreOrder R}.

Record callbacks_carry : Prop := {
  interceptors_carry : Forall (fun i =>
    (forall ctx h, carries R (on_request i ctx h)) /\ (forall ctx st h, carries_ R (on_response i ctx st h)) /\
    (forall ctx e, carries_ R (on_error i ctx e))) (interceptors client);
  observers_carry : Forall (fun o =>
    (forall ctx, carries_ R (on_request_start o ctx)) /\
    (forall ctx d delay, carries_ R (on_retry_scheduled o ctx d delay)) /\
    (forall ctx scope delay, carries_ R (on_server_throttle o ctx scope delay))) (observers client);
}.

Context (Hcallbacks : callbacks_carry).

Lemma carries_request_interceptors ctx headers :
  carries R (fun e => fold_left (fun '(h, e) i => on_request i ctx h e) (interceptors client) (headers, e)).
Proof.
  apply (carries_fold R (fun i h => on_request i ctx h)). eapply Forall_impl; [apply Hcallbacks|]. by intros i (Hi & _).
Qed.
Lemma carries_response_interceptors ctx st h :
  carries_ R (fun e => fold_left (fun e i => on_response i ctx st h e) (interceptors client) e).
Proof.
  apply (carries_fold_ R (fun i => on_response i ctx st h)). eapply Forall_impl; [apply Hcallbacks|]. by intros i (_ & Hi & _).
Qed.
Lemma carries_error_interceptors ctx error :
  carries_ R (fun e => fold_left (fun e i => on_error i ctx error e) (interceptors client) e).
Proof.
  apply (carries_fold_ R (fun i => on_error i ctx error)). eapply Forall_impl; [apply Hcallbacks|]. by intros i (_ & _ & Hi).
Qed.
Lemma carries_start_observers ctx :
  carries_ R (fun e => fold_left (fun e o => on_request_start o ctx e) (observers client) e).
Proof.
  apply (carries_fold_ R (fun o => on_request_start o ctx)). eapply Forall_impl; [apply Hcallbacks|]. by intros o (Ho & _).
Qed.
Lemma carries_retry_observers ctx d delay :
  carries_ R (fun e => fold_left (fun e o => on_retry_scheduled o ctx d delay e) (observers client) e).
Proof.
  apply (carries_fold_ R (fun o => on_retry_scheduled o ctx d delay)). eapply Forall_impl; [apply Hcallbacks|].
  by intros o (_ & Ho & _).
Qed.
Lemma carries_throttle_observers ctx scope delay :
  carries_ R (fun e => fold_left (fun e o => on_server_throttle o ctx scope delay e) (observers client) e).
Proof.
  apply (carries_fold_ R (fun o => on_server_throttle o ctx scope delay)). eapply Forall_impl; [apply Hcallbacks|].
  by intros o (_ & _ & Ho).
Qed.

End Callbacks.

(** ** What both clients do *)
Section Shared.
Context `{Http} `{UrlCrate} `{HttpDate} `{Codecs} `{!ProxyCrates}.
Context {E C A P Stream Body : Type} `{!Surroundings E C A P}.
Context (client : Client (E := E)) (L : logic E C A P).

Record shared_steps : Prop := {
  on_now : holds L instant_now;
  on_now_system : holds L now_system;
  on_sample : holds L sample;
  on_request_interceptors : forall ctx h, holds L (run_request_interceptors client ctx h);
  on_response_interceptors : forall ctx st h, holds L (run_response_interceptors client ctx st h);
  on_error_interceptors : forall ctx e, holds L (run_error_interceptors client ctx e);
  on_start_observers : forall ctx, holds L (run_request_start_observers client ctx);
  on_retry_observers : forall ctx d delay, holds L (run_retry_observers client ctx d delay);
  on_throttle_observers : forall ctx scope delay, holds L (run_server_throttle_observers client ctx scope delay);
  on_rate_throttle : forall host d scope hint, holds L (act (env_rate_throttle host d scope hint) (fun _ => []));
  on_drop_permit : forall p, holds L (act_ (env_drop_permit p) [PermitDropped p]);
  on_circuit_begin :
    holds L (act env_circuit_begin (fun r => match r with Ok c => [CircuitBegan c] | Err _ => [] end));
  on_circuit_end : forall how c, holds L (act_ (env_circuit_end how c) [CircuitEnded how c]);
  on_adaptive_end : forall how a, holds L (act_ (env_adaptive_end how a) [AdaptiveEnded how a]);
  on_budget_consume : holds L (act env_budget_consume (fun granted => [BudgetAsked granted]));
  on_budget_success : holds L (act_ env_budget_success [BudgetCredited]);
}.

Context (Hsteps : shared_steps).
#[local] Hint Resolve on_now on_now_system on_sample on_request_interceptors on_response_interceptors
  on_error_interceptors on_start_observers on_retry_observers on_throttle_observers on_rate_throttle
  on_drop_permit on_circuit_begin on_circuit_end on_adaptive_end on_budget_consume on_budget_success : walks.

(** Settling a pair of guards ends the circuit attempt, then the adaptive permit. *)
Lemma walk_settle how (g : AttemptGuards C A) :
  holds L (on_state (settle (fun c s => write s (env_circuit_end how c (env s)) (CircuitEnded how c))
                            (fun a s => write s (env_adaptive_end how a (env s)) (AdaptiveEnded how a)) g)).
Proof.
  apply (holds_ext _ _
    (_ ← match circuit g with Some c => act_ (env_circuit_end how c) [CircuitEnded how c] | None => mret tt end;
     _ ← match adaptive g with Some a => act_ (env_adaptive_end how a) [AdaptiveEnded how a] | None => mret tt end;
     mret no_guards)); [|walking].
  intros s. by destruct g as [[c|] [a|]].
Qed.

Lemma walk_mark_success g : holds L (mark_success g).
Proof. unfold mark_success. walking. apply walk_settle. Qed.
Lemma walk_mark_failure g : holds L (mark_failure g).
Proof. unfold mark_failure. walking. apply walk_settle. Qed.
Lemma walk_cancel g : holds L (cancel g).
Proof. apply walk_settle. Qed.
Lemma walk_drop_guards g : holds L (drop_guards g).
Proof. unfold drop_guards. walking. Qed.
Lemma walk_drop_permit p : holds L (drop_permit p).
Proof. unfold drop_permit. walking. Qed.
#[local] Hint Resolve walk_mark_success walk_mark_failure walk_cancel walk_drop_guards walk_drop_permit : walks.

Lemma walk_circuit method uri : holds L (begin_circuit_attempt client method uri).
Proof. unfold begin_circuit_attempt. walking. Qed.
Lemma walk_throttle ctx st h host delay : holds L (observe_server_throttle client ctx st h host delay).
Proof. unfold observe_server_throttle. walking. Qed.

Lemma walk_consume method uri : holds L (on_state (try_consume_retry_budget client method uri)).
Proof.
  apply (holds_ext _ _
    (if has_retry_budget client
     then granted ← act env_budget_consume (fun granted => [BudgetAsked granted]);
          mret (if granted : bool then Ok tt else Err (Error.RetryBudgetExhausted method uri))
     else mret (Ok tt))); [|walking].
  intros s. unfold on_state, try_consume_retry_budget. destruct (has_retry_budget client); [|done]. simpl.
  unfold mbind, program_bind, act. by destruct (env_budget_consume (env s)).
Qed.
#[local] Hint Resolve walk_circuit walk_throttle walk_consume : walks.

Lemma walk_schedule now d delay x :
  holds L (on_state (prepare_retry_schedule now d delay (try_consume_retry_budget client) x)).
Proof.
  apply (holds_ext _ _
    (if (max_attempts x <=? attempt x) || negb (should_retry_decision (retry_policy (options x)) d)
     then mret (Ok NotScheduled, x)
     else match bounded_retry_delay delay (total_timeout (options x)) (request_started_at x) now with
     | None => mret (Err (deadline_error x), x)
     | Some delay =>
       r ← on_state (try_consume_retry_budget client (current_method x) (current_redacted_uri x));
       mret match r with
            | Err e => (Err e, x)
            | Ok _ => (Ok (Scheduled delay), set_attempts x (attempt x + 1) (max_attempts x))
            end
     end)); [|walking].
  intros s. unfold on_state, prepare_retry_schedule. destruct (_ || _); [done|].
  destruct (bounded_retry_delay _ _ _ _) as [delay'|]; [|done]. unfold mbind, program_bind.
  by destruct (try_consume_retry_budget client _ _ s) as [[]].
Qed.
#[local] Hint Resolve walk_schedule : walks.

Lemma walk_prepare_retry x ctx d delay : holds L (prepare_retry client x ctx d delay).
Proof. unfold prepare_retry. walking. Qed.
#[local] Hint Resolve walk_prepare_retry : walks.
Lemma walk_status_retry x ctx st h : holds L (prepare_status_retry client x ctx st h).
Proof. unfold prepare_status_retry. walking. Qed.
Lemma walk_record_schedule r g : holds L (record_failure_for_retry_schedule r g).
Proof. unfold record_failure_for_retry_schedule. walking. Qed.
Lemma walk_record_error {T} (r : result T Error.t) g : holds L (record_failure_on_error r g).
Proof. unfold record_failure_on_error. walking. Qed.
Lemma walk_completed c g : holds L (record_completed client c g).
Proof. unfold record_completed. walking. Qed.
Lemma walk_body_failure x ctx failure : holds L (handle_body_read_failure client x ctx failure).
Proof. unfold handle_body_read_failure. walking. Qed.
Lemma walk_decode bytes h max st ctx : holds L (decode_response_body_limited client bytes h max st ctx).
Proof. unfold decode_response_body_limited. walking. Qed.
Lemma walk_leave g hp (r : turn_end (C := C) (A := A) (P := P) (Stream := Stream) (Body := Body)) :
  holds L (leave g hp r).
Proof. unfold leave. walking. Qed.
#[local] Hint Resolve walk_status_retry walk_record_schedule walk_record_error walk_completed walk_body_failure
  walk_decode walk_leave : walks.

Lemma walk_fail_turn ctx e g hp gp : holds L (fail_turn (Stream := Stream) (Body := Body) client ctx e g hp gp).
Proof. unfold fail_turn. walking. Qed.

(** Making the lifecycle of a stream settles the guards of a failed response. *)
Lemma walk_lifecycle c g : holds L (lifecycle_for client c g).
Proof.
  unfold lifecycle_for. apply holds_bind; [apply on_now, Hsteps|intros now]. destruct c.
  - apply (holds_ext _ _ (mret (if negb (has_retry_budget client) && guards_is_empty g
      then (StreamLifecycle.default, g)
      else (StreamLifecycle.new {| retry_budget := has_retry_budget client; attempts := g |}, no_guards))));
      [|walking]. intros s. unfold on_state, into_stream_lifecycle. by case_match.
  - apply (holds_ext _ _ (g ← on_state (guards_mark_failure (AttemptOutcome0 := circuit_attempt_outcome)
      (AttemptOutcome1 := adaptive_permit_outcome) now g); mret (StreamLifecycle.default, g))); [done|].
    apply holds_bind; [apply walk_settle|intros ?; apply holds_ret].
Qed.
Lemma walk_complete_pending o p : holds L (complete_pending o p).
Proof. unfold complete_pending. walking. Qed.

End Shared.

#[export] Hint Resolve on_now on_now_system on_sample on_request_interceptors on_response_interceptors
  on_error_interceptors on_start_observers on_retry_observers on_throttle_observers walk_mark_success
  walk_mark_failure walk_cancel walk_drop_guards walk_drop_permit walk_circuit walk_throttle walk_prepare_retry
  walk_status_retry walk_record_schedule walk_record_error walk_completed walk_body_failure walk_decode walk_leave
  walk_fail_turn walk_lifecycle walk_complete_pending : walks.

(** ** The blocking client *)
Section Client.
Context `{Http} `{UrlCrate} `{HttpDate} `{Codecs} `{!ProxyCrates}.
Context {E C A P Stream Body : Type} `{!Surroundings E C A P} `{!Ureq E Stream Body}.
Context (client : Client (E := E)) (L : logic E C A P).

Record blocking_steps : Prop := {
  steps_shared : shared_steps client L;
  on_sleep : forall d, holds L (sleep d);
  on_take_global : forall deadline timeout, holds L (take_permit (env_acquire_global deadline) timeout);
  on_take_host : forall host deadline timeout, holds L (take_permit (env_acquire_host host deadline) timeout);
  on_adaptive_acquire : forall deadline,
    holds L (act (env_adaptive_acquire deadline) (fun r => match r with Some a => [AdaptiveBegan a] | None => [] end));
  on_run : forall proxy method uri headers body d1 d2,
    holds L (act (ureq_run (Stream := Stream) (Body := Body) proxy method uri headers body d1 d2)
               (fun _ => [Sent method uri (is_streaming body)]));
  on_read : forall body, holds L (act (ureq_read (Stream := Stream) (Body := Body) body) (fun _ => []));
}.

Context (Hsteps : blocking_steps).
#[local] Hint Resolve steps_shared on_sleep on_take_global on_take_host on_adaptive_acquire on_run on_read : walks.

Lemma walk_adaptive total from method uri : holds L (begin_adaptive_attempt client total from method uri).
Proof. unfold begin_adaptive_attempt. walking. Qed.
Lemma walk_global total from method uri : holds L (acquire_global_request_permit client total from method uri).
Proof. unfold acquire_global_request_permit. walking. Qed.
Lemma walk_host host total from method uri :
  holds L (acquire_host_request_permit client host total from method uri).
Proof. unfold acquire_host_request_permit. walking. Qed.
Lemma walk_read_body response x ctx timeout : holds L (read_response_body_with_retry client response x ctx timeout).
Proof. unfold read_response_body_with_retry. walking. Qed.
#[local] Hint Resolve walk_adaptive walk_global walk_host walk_read_body : walks.
Lemma walk_read_decoded response h st x ctx timeout :
  holds L (read_decoded_response_body_with_retry client response h st x ctx timeout).
Proof. unfold read_decoded_response_body_with_retry, check_deadline. walking. Qed.
Lemma walk_run_once method uri text h request_body timeout :
  holds L (run_once client method uri text h request_body timeout).
Proof. unfold run_once, run_configured_request. walking. Qed.
Lemma walk_retry_turn x (b : RequestBody Stream) g hp delay : holds L (retry_turn (Body := Body) x b g hp delay).
Proof. unfold retry_turn, sleep_unless_zero. walking. Qed.
#[local] Hint Resolve walk_read_decoded walk_run_once walk_retry_turn : walks.
Lemma walk_transport_failed x (b : RequestBody Stream) ctx g hp gp timeout e :
  holds L (transport_failed (Body := Body) client x b ctx g hp gp timeout e).
Proof. unfold transport_failed. walking. Qed.
Lemma walk_finish x (b : RequestBody Stream) ctx mode g hp gp (response : HttpResponse Body) :
  holds L (finish_response client x b ctx mode g hp gp response).
Proof. unfold finish_response. walking. Qed.
#[local] Hint Resolve walk_transport_failed walk_finish : walks.
Lemma walk_non_success x (b : RequestBody Stream) ctx mode g host hp gp timeout (response : HttpResponse Body) :
  holds L (non_success_response client x b ctx mode g host hp gp timeout response).
Proof. unfold non_success_response. walking. Qed.
#[local] Hint Resolve walk_non_success : walks.
Lemma walk_handle x (b : RequestBody Stream) ctx mode g host hp gp timeout (response : HttpResponse Body) :
  holds L (handle_response client x b ctx mode g host hp gp timeout response).
Proof. unfold handle_response. walking. Qed.
#[local] Hint Resolve walk_handle : walks.
Lemma walk_run_attempt x (b : RequestBody Stream) mode g host hp gp :
  holds L (run_attempt (Body := Body) client x b mode g host hp gp).
Proof. unfold run_attempt. walking. Qed.
#[local] Hint Resolve walk_run_attempt : walks.

(** A turn, given the wait for the rate limiter. *)
Lemma walk_turn rate_fuel x (b : RequestBody Stream) mode gp :
  (forall host method uri, holds L (acquire_rate_limit_slot client rate_fuel host (total_timeout (options x))
     (request_started_at x) method uri)) ->
  holds L (turn (Body := Body) client rate_fuel x b mode gp).
Proof. intros Hslot. unfold turn. walking. Qed.

(** A request, when nothing is asked of a run out of fuel. *)
Section Partial.
Context (Hpartial : partial L) (Hrate : forall host, holds L (act (env_rate_delay host) (fun _ => []))).

Lemma walk_rate_slot fuel host total from method uri :
  holds L (acquire_rate_limit_slot client fuel host total from method uri).
Proof.
  unfold acquire_rate_limit_slot. case_match; [apply holds_ret|].
  induction fuel as [|fuel IH]; [apply Hpartial|]. cbn [rate_limit_loop]. walking.
Qed.

Lemma walk_attempts_loop fuel rate_fuel x (b : RequestBody Stream) mode gp :
  holds L (attempts_loop (Body := Body) client fuel rate_fuel x b mode gp).
Proof.
  revert x b. induction fuel as [|fuel IH]; intros x b; cbn [attempts_loop]; (destruct (can_attempt x); [|walking]).
  - apply Hpartial.
  - apply holds_bind; [apply walk_turn; intros; apply walk_rate_slot|intros t; walking].
Qed.
#[local] Hint Resolve walk_attempts_loop : walks.

Lemma walk_send fuel rate_fuel (input : RetryRequestInput (RequestBody Stream)) mode gp started :
  holds L (send_request_with_retry_mode (Body := Body) client fuel rate_fuel input mode gp started).
Proof. unfold send_request_with_retry_mode. walking. Qed.
#[local] Hint Resolve walk_send : walks.

Lemma walk_send_request fuel rate_fuel method path headers (body : option (RequestBody Stream)) overrides :
  holds L (send_request (Body := Body) client fuel rate_fuel method path headers body overrides).
Proof. unfold send_request, start_accounting. walking. Qed.
Lemma walk_send_request_stream fuel rate_fuel method path headers (body : option (RequestBody Stream)) overrides :
  holds L (send_request_stream (Body := Body) client fuel rate_fuel method path headers body overrides).
Proof. unfold send_request_stream, start_accounting. walking. Qed.

End Partial.
End Client.
