(* ===== verification/Returns.v ===== *)
(** * Programs that return

    The loops of the clients are bounded by fuel in the model.  That a program returns,
    at a time not before it was started, is a [logic] in the sense of [Walk]; here are
    its laws and the operations both clients share, of which it takes that time does
    not run backwards. *)
From S2P Require Import Prelude Float64 Text HttpApi UriText Errors Redaction UriResolve Redirect Proxy.
From S2P Require Import Headers ContentEncoding Timing Responses Retry RetryBudget RateLimit Execution Limiters.
From S2P Require Import Metrics Lifecycle Program Blocking BlockingFacts Walk.

(** ** Time, and programs that return *)
Section Basics.
Context `{Http} {E C A P : Type} (clock : E -> Z) (started : Instant).
Abbreviation Prog := (M E C A P).
Implicit Types (s : state E C A P).

(** During an operation time may pass. *)
Definition no_earlier (e e' : E) : Prop := clock e <= clock e'.
#[export] Instance no_earlier_preorder : PreOrder no_earlier.
Proof. unfold no_earlier. split; [intros e; lia|intros e1 e2 e3; lia]. Qed.
Abbreviation passes := (carries no_earlier).
Abbreviation passes_ := (carries_ no_earlier).

(** It returns, from any time at or after the start. *)
Definition returns_from {T} (m : Prog T) : Prop := forall s,
  started <= clock (env s) -> exists a s', m s = Some (a, s') /\ clock (env s) <= clock (env s').

Lemma returns_ret {T} (a : T) : returns_from (mret a).
Proof. intros s _. by exists a, s. Qed.

Lemma returns_bind {T U} (m : Prog T) (k : T -> Prog U) :
  returns_from m -> (forall a, returns_from (k a)) -> returns_from (m ≫= k).
Proof.
  intros Hm Hk s Hs. destruct (Hm s Hs) as (a & s1 & Hs1 & Hle). destruct (Hk a s1 ltac:(lia)) as (b & s2 & Hs2 & Hle2).
  exists b, s2. split; [|lia]. unfold mbind, program_bind. by rewrite Hs1.
Qed.

Lemma returns_act {T} (f : E -> T * E) events : passes f -> returns_from (act f events).
Proof.
  intros Hf s _. unfold act. pose proof (Hf (env s)) as Hle. destruct (f (env s)) as [a e].
  by exists a, {| env := e; metrics := metrics s; log := events a ++ log s |}.
Qed.

Lemma returns_act_ f events : passes_ f -> returns_from (act_ f events).
Proof. intros Hf. apply returns_act. intros e. apply Hf. Qed.

Lemma returns_on_metrics {T} (f : Metrics.ClientMetrics -> T * Metrics.ClientMetrics) : returns_from (on_metrics f).
Proof.
  intros s _. unfold on_metrics. destruct (f (metrics s)) as [a m].
  by exists a, {| env := env s; metrics := m; log := log s |}.
Qed.

Lemma returns_ext {T} (m m' : Prog T) : (forall s, m s = m' s) -> returns_from m -> returns_from m'.
Proof. intros Heq Hm s Hs. rewrite <- Heq. by apply Hm. Qed.

Definition returns_logic : logic E C A P := {|
  holds := @returns_from; holds_ret := @returns_ret; holds_bind := @returns_bind;
  holds_metrics := @returns_on_metrics; holds_ext := @returns_ext |}.

(** A loop that either returns or gets closer to the deadline, which it does only
    before the deadline. *)
Lemma returns_waiting {T} (loop : nat -> Prog T) (total : Duration) fuel :
  (forall fuel s, started <= clock (env s) ->
     (exists r s', loop (S fuel) s = Some (r, s') /\ clock (env s) <= clock (env s')) \/
     (exists s1, loop (S fuel) s = loop fuel s1 /\ clock (env s) < clock (env s1) /\ clock (env s) - started < total)) ->
  0 <= total -> total < Z.of_nat fuel -> returns_from (loop fuel).
Proof.
  intros Hturn Htotal Hfuel s Hs. destruct fuel as [|fuel]; [lia|].
  assert (total - (clock (env s) - started) <= Z.of_nat fuel) as Hmeasure by lia. clear Hfuel.
  revert s Hs Hmeasure. induction fuel as [|fuel IH]; intros s Hs Hmeasure.
  - destruct (Hturn 0%nat s Hs) as [Hr|(s1 & _ & _ & Hbefore)]; [done|lia].
  - destruct (Hturn (S fuel) s Hs) as [Hr|(s1 & Hr & Hlt & _)]; [done|].
    destruct (IH s1) as (r & s' & Hr' & Hle); [lia|lia|]. exists r, s'. rewrite Hr, Hr'. split; [done|lia].
Qed.

End Basics.

(** To the lemmas of [Walk]. *)
Ltac as_logic :=
  match goal with |- returns_from ?clock ?started ?m => change (holds (returns_logic clock started) m) end.

Section Shared.
Context `{Http} `{UrlCrate} `{HttpDate} `{Codecs} `{!ProxyCrates}.
Context {E C A P Stream Body : Type} `{!Surroundings E C A P}.
Context (client : Client (E := E)) (clock : E -> Z).
Abbreviation passes := (carries (no_earlier clock)).
Abbreviation passes_ := (carries_ (no_earlier clock)).
Abbreviation Prog := (M E C A P).
Implicit Types (s : state E C A P).

Record time_passes : Prop := {
  flows_now : forall e, clock e <= (env_now e).1 <= clock (env_now e).2;
  flows_now_system : passes env_now_system;
  flows_sampler : passes env_sampler;
  flows_rate_delay : forall host, passes (env_rate_delay host);
  rate_delay_nonneg : forall host e, 0 <= (env_rate_delay host e).1;
  flows_rate_throttle : forall host d scope hint, passes (env_rate_throttle host d scope hint);
  flows_drop_permit : forall p, passes_ (env_drop_permit p);
  flows_circuit_begin : passes env_circuit_begin;
  flows_circuit_end : forall how c, passes_ (env_circuit_end how c);
  flows_adaptive_end : forall how a, passes_ (env_adaptive_end how a);
  flows_budget_consume : passes env_budget_consume;
  flows_budget_success : passes_ env_budget_success;
  flows_callbacks : callbacks_carry client (no_earlier clock);
}.

Context (Hflows : time_passes) (started : Instant).

(** ** What both clients do *)
Lemma shared_returns : shared_steps client (returns_logic (C := C) (A := A) (P := P) clock started).
Proof.
  pose proof (flows_callbacks Hflows) as Hcallbacks.
  split; intros; try apply returns_act_; try apply returns_act; try apply Hflows.
  - intros e. pose proof (flows_now Hflows e). unfold no_earlier. lia.
  - by apply carries_request_interceptors; [apply _|].
  - by apply carries_response_interceptors; [apply _|].
  - by apply carries_error_interceptors; [apply _|].
  - by apply carries_start_observers; [apply _|].
  - by apply carries_retry_observers; [apply _|].
  - by apply carries_throttle_observers; [apply _|].
Qed.

(** A program that takes the time first returns if the rest does from that time on. *)
Lemma returns_from_now {T} (k : Instant -> Prog T) s :
  (forall started, returns_from clock started (k started)) ->
  exists r s', (now ← instant_now; k now) s = Some (r, s').
Proof.
  intros Hk. unfold mbind, program_bind, instant_now, act.
  pose proof (flows_now Hflows (env s)) as Hnow. destruct (env_now (env s)) as [now e].
  destruct (Hk now {| env := e; metrics := metrics s; log := [] ++ log s |}) as (r & s' & Hr & _); [simpl in *; lia|].
  by exists r, s'.
Qed.

Lemma round_started x x' : round (retry_eligibility client) x x' -> request_started_at x' = request_started_at x.
Proof.
  intros [headers B now d delay consume b b' g s1 Hs|headers status rh action Ha].
  - apply schedule_Scheduled in Hs as (_ & -> & _). simpl. unfold tighten_retry_eligibility. by case_match.
  - simpl. unfold tighten_retry_eligibility. by case_match.
Qed.

End Shared.
