(* ===== verification/BlockingReturns.v ===== *)
(** * A blocking request with a total timeout returns

    The loops of the blocking client are bounded by fuel in the model; here is the
    proof that the fuel is enough.  The number of turns is bounded by the attempts and
    redirects allowed.  The loop that waits for the rate limiter has no bound of its
    own, since other requests may take every slot; it ends because each of its turns
    sleeps and none may sleep past the deadline.  Of the surroundings it takes that
    time does not run backwards and that a sleep lasts as long as asked. *)
From S2P Require Import Prelude Float64 Text HttpApi UriText Errors Redaction UriResolve Redirect Proxy.
From S2P Require Import Headers ContentEncoding Timing Responses Retry RetryBudget RateLimit Execution Limiters.
From S2P Require Import Metrics Lifecycle Program Blocking BlockingFacts Walk Returns.

Section Returns.
Context `{Http} `{UrlCrate} `{HttpDate} `{Codecs} `{!ProxyCrates}.
Context {E C A P Stream Body : Type} `{!Surroundings E C A P} `{!Ureq E Stream Body}.
Context `{!EqDecision C} `{!EqDecision A} `{!EqDecision P}.
Context (client : Client (E := E)).
Abbreviation Prog := (M E C A P).
Implicit Types (s : state E C A P).

(** ** Time *)
Context (clock : E -> Z).

(** The waits of this client: a sleep lasts as long as asked. *)
Record time_flows : Prop := {
  flows_shared : time_passes client clock (C := C) (A := A) (P := P);
  flows_sleep : forall d e, clock e + Z.max 0 d <= clock (env_sleep d e);
  flows_acquire_global : forall deadline, carries (no_earlier clock) (env_acquire_global deadline);
  flows_acquire_host : forall host deadline, carries (no_earlier clock) (env_acquire_host host deadline);
  flows_adaptive_acquire : forall deadline, carries (no_earlier clock) (env_adaptive_acquire deadline);
  flows_run : forall proxy method uri headers body d1 d2,
    carries (no_earlier clock) (ureq_run (Stream := Stream) (Body := Body) proxy method uri headers body d1 d2);
  flows_read : forall body, carries (no_earlier clock) (ureq_read (Stream := Stream) (Body := Body) body);
}.

Context (Hflows : time_flows).

Section Started.
Context (started : Instant).
Abbreviation returns := (returns_from (C := C) (A := A) (P := P) clock started).
Lemma blocking_returns : blocking_steps client (returns_logic (C := C) (A := A) (P := P) clock started).
Proof.
  split; intros.
  - apply shared_returns, Hflows.
  - apply returns_act_. intros e. pose proof (flows_sleep Hflows d e). unfold no_earlier. lia.
  - apply returns_bind; [apply returns_act, Hflows|intros; apply returns_ret].
  - apply returns_bind; [apply returns_act, Hflows|intros; apply returns_ret].
  - apply returns_act, Hflows.
  - apply returns_act, Hflows.
  - apply returns_act, Hflows.
Qed.

(** ** The wait for the rate limiter

    A turn of the loop returns, or it sleeps, which it does only before the deadline. *)
Lemma rate_limit_turn fuel host (total : Duration) method uri s :
  started <= clock (env s) ->
  (exists r s', rate_limit_loop (S fuel) host (Some total) started method uri s = Some (r, s') /\
     clock (env s) <= clock (env s')) \/
  (exists s1, rate_limit_loop (S fuel) host (Some total) started method uri s =
     rate_limit_loop fuel host (Some total) started method uri s1 /\
     clock (env s) < clock (env s1) /\ clock (env s) - started < total).
Proof.
  intros Hs. cbn [rate_limit_loop]. unfold mbind, program_bind, act, instant_now.
  pose proof (flows_rate_delay _ _ (flows_shared Hflows) host (env s)) as Hle. pose proof (rate_delay_nonneg _ _ (flows_shared Hflows) host (env s)) as Hn.
  destruct (env_rate_delay host (env s)) as [wait e1]. unfold no_earlier in Hle. simpl in Hle, Hn.
  destruct (duration_is_zero wait) eqn:Hz; [by left; eexists _, _; split; [done|simpl; lia]|].
  unfold act. cbn [env]. pose proof (flows_now _ _ (flows_shared Hflows) e1) as Hnow. destruct (env_now e1) as [now e2]. simpl in Hnow.
  unfold bounded_retry_delay, elapsed, saturating_duration_since, duration_is_zero in *.
  destruct (total <=? _) eqn:H1'; [by left; eexists _, _; split; [done|simpl; lia]|].
  destruct (_ <=? wait) eqn:H2'; [by left; eexists _, _; split; [done|simpl; lia]|].
  right. unfold sleep, act_, act. cbn [env]. eexists _. split; [done|]. simpl.
  pose proof (flows_sleep Hflows wait e2). zbool. lia.
Qed.

Lemma returns_turn (total : Duration) rate_fuel x (b : RequestBody Stream) mode gp :
  total_timeout (options x) = Some total -> request_started_at x = started ->
  0 <= total -> total < Z.of_nat rate_fuel ->
  returns (turn (Body := Body) client rate_fuel x b mode gp).
Proof.
  intros Ht Hs H1' H2'. apply (walk_turn client (returns_logic clock started) blocking_returns). rewrite Ht, Hs.
  intros host method uri. unfold acquire_rate_limit_slot. case_match; [apply returns_ret|].
  apply (returns_waiting clock started (fun fuel => rate_limit_loop fuel host (Some total) started method uri) total);
    [|done..]. intros fuel s. apply rate_limit_turn.
Qed.

(** ** The loop *)

Lemma returns_attempts_loop (total : Duration) o fuel rate_fuel x (b : RequestBody Stream) mode gp :
  exec_inv o x -> total_timeout o = Some total -> request_started_at x = started ->
  0 <= total -> total < Z.of_nat rate_fuel ->
  1 <= Retry.max_attempts (retry_policy o) -> max_redirects (redirect_policy o) < usize_max ->
  Retry.max_attempts (retry_policy o) + max_redirects (redirect_policy o) - progress x < Z.of_nat fuel ->
  returns (attempts_loop (Body := Body) client fuel rate_fuel x b mode gp).
Proof.
  intros Hinv Ht Hs H1' H2' Hm Hr. revert x b Hinv Hs. induction fuel as [|fuel IH]; intros x b Hinv Hs Hfuel.
  { destruct Hinv. unfold progress in Hfuel. lia. }
  cbn [attempts_loop]. destruct (can_attempt x).
  - intros s Hclock. destruct (returns_turn total rate_fuel x b mode gp) with (s := s) as (r & s1 & Hturn & Hle); try done.
    { by rewrite (inv_options _ _ Hinv). }
    unfold mbind, program_bind. rewrite Hturn. destruct r as [x' b'|r gp']; [|by eexists _, _].
    pose proof (wp_turn client None None None rate_fuel mode x b gp _ s _ s1 eq_refl Hturn) as (n & _ & _ & _ & Hround & _).
    destruct (IH x' b') with (s := s1) as (r2 & s2 & Hs2 & Hle2).
    + eapply exec_inv_rtc; [done|lia|by apply round_steps|done].
    + by rewrite (round_started client x x').
    + rewrite (round_progress (retry_eligibility client) x x'); [lia|destruct Hinv; lia|done].
    + lia.
    + exists r2, s2. split; [done|lia].
  - apply returns_bind; [|intros; apply returns_ret]. apply (on_error_interceptors _ _ (steps_shared _ _ blocking_returns)).
Qed.

(** Both response modes, from a time at or after the start. *)
Lemma returns_send (total : Duration) fuel rate_fuel (input : RetryRequestInput (RequestBody Stream)) mode gp :
  options_ok (in_execution_options _ input) ->
  max_redirects (redirect_policy (in_execution_options _ input)) < usize_max ->
  total_timeout (in_execution_options _ input) = Some total -> 0 <= total < Z.of_nat rate_fuel ->
  Retry.max_attempts (retry_policy (in_execution_options _ input)) +
    max_redirects (redirect_policy (in_execution_options _ input)) <= Z.of_nat fuel ->
  returns (send_request_with_retry_mode (Body := Body) client fuel rate_fuel input mode gp started).
Proof.
  intros [Hm Hr]%options_ok_bounds Hlt Ht Htotal Hfuel. unfold send_request_with_retry_mode.
  destruct (from_request input started (retry_eligibility client)) as [x b] eqn:Hx.
  pose proof (exec_inv_initial input started (retry_eligibility client) Hm (proj1 Hr)) as Hinv. rewrite Hx in Hinv.
  assert (progress x = 1 /\ request_started_at x = started) as [Hp Hst] by (injection Hx as <- <-; done).
  apply returns_bind; [by apply (returns_attempts_loop total (in_execution_options _ input)); try done || lia|].
  intros [r gp']. apply returns_bind; [|intros; apply returns_ret].
  apply (walk_drop_permit client (returns_logic clock started)), blocking_returns.
Qed.

End Started.

(** ** The entry points *)
Section Entry.
Context (fuel rate_fuel : nat) (method : Method) (path : str) (headers : HeaderMap).
Context (body : option (RequestBody Stream)) (overrides : RequestExecutionOverrides).

(** What the theorem asks of the request: a total timeout, and fuel for it. *)
Definition bounded_request (auto_accept_encoding : bool) : Prop := forall input,
  prepare client method path headers body overrides auto_accept_encoding = Ok input ->
  let o := in_execution_options _ input in
  options_ok o /\ max_redirects (redirect_policy o) < usize_max /\
  (exists total, total_timeout o = Some total /\ 0 <= total < Z.of_nat rate_fuel) /\
  Retry.max_attempts (retry_policy o) + max_redirects (redirect_policy o) <= Z.of_nat fuel.

(** C6: Requests return: with a total timeout, validated options that permit fewer
    than [usize::MAX] redirects, and surroundings in which time does not run
    backwards and a sleep lasts as long as asked, both entry points of the blocking
    client return a result, whatever the transport, the limiters, the interceptors
    and the other requests do. As fuel it is enough to have one turn per permitted
    attempt and redirect, and for the wait for the rate limiter one turn per
    nanosecond of the total timeout and one more. *)
Theorem blocking_requests_return s :
  (bounded_request (buffered_auto_accept_encoding client) ->
   exists r s', send_request (Body := Body) client fuel rate_fuel method path headers body overrides s = Some (r, s')) /\
  (bounded_request (stream_auto_accept_encoding client) ->
   exists r s', send_request_stream (Body := Body) client fuel rate_fuel method path headers body overrides s = Some (r, s')).
Proof.
  split; intros Hb; [unfold send_request|unfold send_request_stream];
    (destruct (prepare client _ _ _ _ _ _) as [input|e] eqn:Hp; [|by eexists _, _]);
    destruct (Hb input Hp) as (Hok & Hlt & (total & Ht & Htotal) & Hfuel);
    apply (returns_from_now client clock (flows_shared Hflows)); intros started;
    assert (forall mode gp, holds (returns_logic clock started)
      (send_request_with_retry_mode (Body := Body) client fuel rate_fuel input mode gp started)) as Hsend
      by (intros mode gp; by apply (returns_send started total));
    pose proof (blocking_returns started) as Hsteps; pose proof (steps_shared _ _ Hsteps) as Hshared;
    pose proof (walk_global _ _ Hsteps) as Hglobal; unfold start_accounting; as_logic; walking.
Qed.

End Entry.
End Returns.
