(* ===== verification/System.v ===== *)
(** * Requests and the controls they share

    A request takes attempts of the circuit breaker, permits of the adaptive controller
    and permits of the request limiters, asks the retry budget and the rate limiter, and
    shares all of them with every other request of the client.  [CircuitBreaker],
    [Adaptive], [Limiters], [RetryBudget] and [RateLimit] model the controls as
    transition systems and [Blocking] and [Async] the requests; here they meet.  The
    surroundings of a request are only asked to be connected to a control: whatever is
    called, other requests may take steps of the control's system in between, and the
    operations that begin and end an attempt are steps of that system.  Then a request is
    a run of the control's system, in which it ends every attempt it began, each once and
    none it does not hold, but for those the returned stream owns.  So what holds in
    every reachable state of a control holds whatever the clients do. *)
From S2P Require Import Prelude Float64 Text HttpApi UriText Errors Redaction UriResolve Redirect Proxy.
From S2P Require Import Headers ContentEncoding Timing Responses Retry RetryBudget CircuitBreaker Adaptive RateLimit.
From S2P Require Import Execution Limiters Metrics Lifecycle Program Blocking BlockingFacts BlockingTheorems Walk.

(** ** Controls

    A control [W] has a list of unfinished attempts [K]; its steps are labelled with what
    becomes of them, and at which place. *)
Inductive label (K : Type) := Quiet | Begins (i : nat) (k : K) | Ends (how : ending) (i : nat).
Arguments Quiet {K}.
Arguments Begins {K} i k.
Arguments Ends {K} how i.

Class Control (W K : Type) := {
  unfinished : W -> list K;
  does : label K -> W -> W -> Prop;
  does_quiet : forall w w', does Quiet w w' -> unfinished w' = unfinished w;
  does_begins : forall i k w w', does (Begins i k) w w' ->
    exists l1 l2, unfinished w = l1 ++ l2 /\ length l1 = i /\ unfinished w' = l1 ++ k :: l2;
  does_ends : forall how i w w', does (Ends how i) w w' ->
    exists l1 k l2, unfinished w = l1 ++ k :: l2 /\ length l1 = i /\ unfinished w' = l1 ++ l2;
}.

(** ** Who holds the attempts

    Every unfinished attempt is held by the request under consideration, which knows
    it by a token, or by another request.  No token is issued twice.  Ending an attempt
    that is not held is something the types of the source rule out; here it is a stray
    end, which leaves the control alone and is counted. *)
Section Office.
Context {W K T : Type} `{!Control W K} `{!EqDecision T}.

Record office := {
  control : W;
  owners : list (option T);
  issued : list T;
  strays : nat;
}.

Definition owned (o : office) : list T := omap id (owners o).
Definition set_control (w : W) (os : list (option T)) (o : office) : office :=
  {| control := w; owners := os; issued := issued o; strays := strays o |}.

Inductive other_step (o : office) : office -> Prop :=
| other_quiet w : does Quiet (control o) w -> other_step o (set_control w (owners o) o)
| other_begins os1 os2 k w :
    owners o = os1 ++ os2 -> does (Begins (length os1) k) (control o) w ->
    other_step o (set_control w (os1 ++ None :: os2) o)
| other_ends os1 os2 how w :
    owners o = os1 ++ None :: os2 -> does (Ends how (length os1)) (control o) w ->
    other_step o (set_control w (os1 ++ os2) o).

(** What the request does, and writes into its log. *)
Inductive mark := Took (c : T) | Gave (how : ending) (c : T).

Inductive own_step (o : office) : mark -> office -> Prop :=
| own_begins os1 os2 c k w :
    c ∉ issued o -> owners o = os1 ++ os2 -> does (Begins (length os1) k) (control o) w ->
    own_step o (Took c)
      {| control := w; owners := os1 ++ Some c :: os2; issued := c :: issued o; strays := strays o |}
| own_ends os1 c os2 how w :
    owners o = os1 ++ Some c :: os2 -> does (Ends how (length os1)) (control o) w ->
    own_step o (Gave how c) (set_control w (os1 ++ os2) o)
| own_stray how c :
    c ∉ owned o ->
    own_step o (Gave how c) {| control := control o; owners := owners o; issued := c :: issued o; strays := S (strays o) |}.

(** A run, and what it writes, the newest first. *)
Inductive moves (o : office) : list mark -> office -> Prop :=
| moves_refl : moves o [] o
| moves_other tr o1 o2 : moves o tr o1 -> other_step o1 o2 -> moves o tr o2
| moves_own tr o1 m o2 : moves o tr o1 -> own_step o1 m o2 -> moves o (m :: tr) o2.

Lemma moves_trans o tr o1 tr' o2 : moves o tr o1 -> moves o1 tr' o2 -> moves o (tr' ++ tr) o2.
Proof. intros Ho. induction 1; [done|by eapply moves_other|by eapply moves_own]. Qed.

Lemma moves_quiets o tr o1 w :
  moves o tr o1 -> rtc (does Quiet) (control o1) w -> moves o tr (set_control w (owners o1) o1).
Proof.
  intros Ho Hq. remember (control o1) as w0 eqn:Hw0. revert o1 Ho Hw0.
  induction Hq as [w|w1 w2 w3 Hs _ IH]; intros o1 Ho ->; [by destruct o1|].
  apply (IH (set_control w2 (owners o1) o1)); [|done]. by eapply moves_other, other_quiet.
Qed.

#[export] Instance moves_quietly : PreOrder (fun o o' => moves o [] o').
Proof. split; [constructor|]. intros o1 o2 o3 H1 H2. exact (moves_trans _ _ _ _ _ H1 H2). Qed.

Definition takes (c : T) (m : mark) : bool := match m with Took c' => bool_decide (c' = c) | Gave _ _ => false end.
Definition gives (c : T) (m : mark) : bool := match m with Gave _ c' => bool_decide (c' = c) | Took _ => false end.

(** ** What a run of the request keeps *)
Record kept (o : office) (tr : list mark) (o' : office) : Prop := {
  kept_steps : rtc (fun w w' => exists l, does l w w') (control o) (control o');
  kept_staffed : length (owners o') = length (unfinished (control o'));
  kept_nodup : NoDup (owned o');
  kept_owned : forall c, c ∈ owned o' -> countb (takes c) tr = 1 /\ countb (gives c) tr = 0;
  kept_rest : forall c, c ∉ owned o' -> countb (takes c) tr <= countb (gives c) tr;
  kept_fresh : forall c, c ∉ issued o' -> (c ∉ owned o') /\ (countb (takes c) tr = 0) /\ (countb (gives c) tr = 0);
  kept_strays : strays o' = strays o \/ (exists c, countb (takes c) tr < countb (gives c) tr);
}.

Lemma kept_refl o : length (owners o) = length (unfinished (control o)) -> owned o = [] -> kept o [] o.
Proof. intros Hl Hown. split; rewrite ?Hown; try done; try by left. all: set_solver. Qed.

(** The steps of the others leave what the request holds alone. *)
Lemma kept_other o tr o1 o2 : kept o tr o1 -> other_step o1 o2 -> kept o tr o2.
Proof.
  intros [Hs Hl Hn Ho Hr Hf Hst] Hstep.
  assert (owned o2 = owned o1 /\ issued o2 = issued o1 /\ strays o2 = strays o1 /\
    (exists l, does l (control o1) (control o2)) /\ length (owners o2) = length (unfinished (control o2)))
    as (Howned & Hi & Hstr & Hd & Hlen).
  { destruct Hstep as [w Hd|os1 os2 k w Hos Hd|os1 os2 how w Hos Hd]; simpl; unfold owned; simpl.
    - split_and!; eauto. by rewrite (does_quiet _ _ Hd).
    - destruct (does_begins _ _ _ _ Hd) as (l1 & l2 & Hu & Hi & Hu'). rewrite Hu, Hos in Hl. rewrite Hos.
      rewrite !omap_app, !length_app in *. simpl in *. split_and!; eauto. rewrite Hu', length_app. simpl. lia.
    - destruct (does_ends _ _ _ _ Hd) as (l1 & k & l2 & Hu & Hi & Hu'). rewrite Hu, Hos in Hl. rewrite Hos.
      rewrite !omap_app, !length_app in *. simpl in *. split_and!; eauto. rewrite Hu', length_app. lia. }
  split; rewrite ?Howned, ?Hi, ?Hstr; try done. by eapply rtc_r.
Qed.

Lemma owned_middle o os1 c os2 : owners o = os1 ++ Some c :: os2 -> NoDup (owned o) ->
  owned o = omap id os1 ++ c :: omap id os2 /\ (c ∉ omap id os1 ++ omap id os2) /\ NoDup (omap id os1 ++ omap id os2).
Proof.
  intros Hos. unfold owned. rewrite Hos, omap_app. simpl. intros Hn. split; [done|].
  rewrite <- Permutation_middle in Hn. by apply NoDup_cons in Hn.
Qed.

Lemma kept_own_begins o tr o1 os1 os2 c k w :
  kept o tr o1 -> c ∉ issued o1 -> owners o1 = os1 ++ os2 -> does (Begins (length os1) k) (control o1) w ->
  kept o (Took c :: tr)
    {| control := w; owners := os1 ++ Some c :: os2; issued := c :: issued o1; strays := strays o1 |}.
Proof.
  intros [Hs Hl Hn Ho Hr Hf Hst] Hc Hos Hd. destruct (Hf c Hc) as (Hno & Ht & Hg).
  assert (omap id (os1 ++ Some c :: os2) ≡ₚ c :: owned o1) as Hown.
  { unfold owned. rewrite Hos, !omap_app. simpl. by rewrite <- Permutation_middle. }
  split; unfold owned in *; cbn [control owners issued strays]; try setoid_rewrite Hown; try setoid_rewrite countb_cons; simpl.
  - eapply rtc_r; [done|]. by eexists.
  - destruct (does_begins _ _ _ _ Hd) as (l1 & l2 & Hu & Hi & Hu'). rewrite Hos, Hu, !length_app in Hl.
    rewrite Hu', !length_app. simpl. lia.
  - by constructor.
  - intros c'. destruct (decide (c' = c)) as [->|Hc']; [by rewrite bool_decide_true by done; lia|].
    rewrite bool_decide_false by done. intros Hin. apply Ho. set_solver.
  - intros c' Hin. rewrite bool_decide_false by set_solver. apply Hr. set_solver.
  - intros c' Hin. rewrite bool_decide_false by set_solver. destruct (Hf c') as (? & ? & ?); set_solver.
  - destruct Hst as [->|(c' & Hc')]; [by left|]. right. exists c'. rewrite bool_decide_false; [lia|].
    intros ->. lia.
Qed.

Lemma kept_own_ends o tr o1 os1 c os2 how w :
  kept o tr o1 -> owners o1 = os1 ++ Some c :: os2 -> does (Ends how (length os1)) (control o1) w ->
  kept o (Gave how c :: tr) (set_control w (os1 ++ os2) o1).
Proof.
  intros [Hs Hl Hn Ho Hr Hf Hst] Hos Hd. destruct (owned_middle _ _ _ _ Hos Hn) as (Hown & Hc & Hn').
  destruct (Ho c) as [Ht Hg]; [rewrite Hown; set_solver|].
  split; unfold owned in *; simpl; rewrite ?omap_app; try setoid_rewrite countb_cons; simpl.
  - eapply rtc_r; [done|]. by eexists.
  - destruct (does_ends _ _ _ _ Hd) as (l1 & k & l2 & Hu & Hi & Hu'). rewrite Hos, Hu in Hl. rewrite Hu'.
    rewrite !length_app in *. simpl in *. lia.
  - done.
  - intros c' Hin. rewrite bool_decide_false by set_solver. apply Ho. rewrite Hown. set_solver.
  - intros c' Hin. destruct (decide (c = c')) as [<-|Hc']; [rewrite bool_decide_true by done; lia|].
    rewrite bool_decide_false by done. apply Hr. rewrite Hown. set_solver.
  - intros c' Hin. destruct (Hf c' Hin) as (Hno & ? & ?). rewrite Hown in Hno. rewrite bool_decide_false by set_solver.
    set_solver.
  - destruct Hst as [->|(c' & Hc')]; [by left|]. right. exists c'. case_bool_decide; lia.
Qed.

Lemma kept_own_stray o tr o1 how c :
  kept o tr o1 -> c ∉ owned o1 ->
  kept o (Gave how c :: tr)
    {| control := control o1; owners := owners o1; issued := c :: issued o1; strays := S (strays o1) |}.
Proof.
  intros [Hs Hl Hn Ho Hr Hf Hst] Hc. pose proof (Hr c Hc) as Hle.
  split; unfold owned in *; simpl; try setoid_rewrite countb_cons; simpl; try done.
  - intros c' Hin. rewrite bool_decide_false by set_solver. by apply Ho.
  - intros c' Hin. specialize (Hr c' Hin). case_bool_decide; lia.
  - intros c' Hin. rewrite bool_decide_false by set_solver. apply Hf. set_solver.
  - right. exists c. rewrite bool_decide_true by done. lia.
Qed.

Lemma moves_kept o tr o' :
  length (owners o) = length (unfinished (control o)) -> owned o = [] -> moves o tr o' -> kept o tr o'.
Proof.
  intros Hl Hown. induction 1 as [|tr o1 o2 _ IH Hstep|tr o1 m o2 _ IH Hstep].
  - by apply kept_refl.
  - by eapply kept_other.
  - destruct Hstep; [by eapply kept_own_begins|by eapply kept_own_ends|by apply kept_own_stray].
Qed.

(** The request holds nothing, and every unfinished attempt has a holder. *)
Definition idle (o : office) : Prop := owned o = [] /\ length (owners o) = length (unfinished (control o)).

(** ** What a request that settles leaves behind: its run is one of the control, and
    what it still holds is [held]. *)
Record sound_run (step : W -> W -> Prop) (held : list T) (o o' : office) : Prop := {
  run_steps : rtc step (control o) (control o');
  run_owned : owned o' ≡ₚ held;
  run_strays : strays o' = strays o;
  run_staffed : length (owners o') = length (unfinished (control o'));
}.

Lemma sound_run_mono (R S : W -> W -> Prop) held o o' :
  (forall w w', R w w' -> S w w') -> sound_run R held o o' -> sound_run S held o o'.
Proof. intros Hmono [Hs Ho Hst Hl]. split; try done. by eapply rtc_subrel. Qed.

Definition among (c : T) (held : list T) : Z := countb (fun c' => bool_decide (c' = c)) held.

Lemma among_elem c held : c ∈ held <-> 1 <= among c held.
Proof.
  unfold among. split; [intros Hin; by apply (countb_pos _ _ c); [|apply bool_decide_true]|].
  intros Hc. destruct (decide (c ∈ held)) as [|Hn]; [done|]. rewrite countb_zero in Hc; [lia|].
  intros c' Hin. apply bool_decide_false. by intros ->.
Qed.

Lemma among_NoDup held : (forall c, among c held <= 1) -> NoDup held.
Proof.
  induction held as [|c held IH]; intros Hle; [constructor|]. unfold among in *. setoid_rewrite countb_cons in Hle.
  constructor.
  - intros Hin%among_elem. specialize (Hle c). rewrite bool_decide_true in Hle by done. unfold among in Hin. lia.
  - apply IH. intros c'. specialize (Hle c'). case_bool_decide; lia.
Qed.

Lemma moves_sound o tr o' held :
  idle o -> moves o tr o' -> (forall c, countb (takes c) tr = countb (gives c) tr + among c held) ->
  sound_run (fun w w' => exists l, does l w w') held o o'.
Proof.
  intros [Hown Hl] [Hs Hl' Hn Ho Hr _ Hst]%moves_kept Hbal; try done. split; [done| | |done].
  - assert (forall c, (c ∈ owned o' /\ among c held = 1) \/ ((c ∉ owned o') /\ among c held <= 0)) as Hin.
    { intros c. specialize (Hbal c). destruct (decide (c ∈ owned o')) as [Hc|Hc].
      - left. split; [done|]. destruct (Ho c Hc). lia.
      - right. split; [done|]. specialize (Hr c Hc). lia. }
    apply NoDup_Permutation; [done|apply among_NoDup; intros c; destruct (Hin c); lia|].
    intros c. rewrite (among_elem c held). destruct (Hin c) as [[? ?]|[? ?]]; [split; [intros; lia|done]|split; [done|intros; lia]].
  - destruct Hst as [|(c & Hc)]; [done|]. specialize (Hbal c). unfold among in Hbal.
    pose proof (countb_nonneg (fun c' => bool_decide (c' = c)) held). lia.
Qed.

End Office.
Arguments office : clear implicits.
Arguments mark : clear implicits.

(** ** Requests as runs of a control *)
Section Keeps.
Context `{Http} `{UrlCrate} `{!ProxyCrates}.
Context {W K T : Type} `{!Control W K} {E C A P : Type} `{!Surroundings E C A P}.
(** The part of the surroundings that is the control, and the events of the log that
    are about it. *)
Context (view : E -> office W T) (marks : event C A P -> option (mark T)).

Definition written (l : list (event C A P)) : list (mark T) := omap marks l.

(** An operation does to the control what it writes into the log. *)
Definition agrees {U} (f : E -> U * E) (events : U -> list (event C A P)) : Prop := forall e,
  moves (view e) (written (events (f e).1)) (view (f e).2).
Definition agrees_ (f : E -> E) (events : list (event C A P)) : Prop := forall e,
  moves (view e) (written events) (view (f e)).

Definition keeps {U} (m : M E C A P U) : Prop := forall s a s', m s = Some (a, s') ->
  exists tr, written (log s') = tr ++ written (log s) /\ moves (view (env s)) tr (view (env s')).

Lemma keeps_ret {U} (a : U) : keeps (mret a).
Proof. intros s b s' [= <- <-]. exists []. split; [done|constructor]. Qed.
Lemma keeps_bind {U V} (m : M E C A P U) (k : U -> M E C A P V) : keeps m -> (forall a, keeps (k a)) -> keeps (m ≫= k).
Proof.
  intros Hm Hk s b s'. unfold mbind, program_bind. destruct (m s) as [[a s1]|] eqn:Hs; [|done]. intros Hs'.
  destruct (Hm _ _ _ Hs) as (tr & Hw & Hmv). destruct (Hk _ _ _ _ Hs') as (tr' & Hw' & Hmv').
  exists (tr' ++ tr). split; [by rewrite Hw', Hw, app_assoc|by eapply moves_trans].
Qed.
Lemma keeps_metrics {U} (f : Metrics.ClientMetrics -> U * Metrics.ClientMetrics) : keeps (on_metrics f).
Proof.
  intros s a s'. unfold on_metrics. destruct (f (metrics s)). intros [= <- <-]. exists []. split; [done|constructor].
Qed.
Lemma keeps_ext {U} (m m' : M E C A P U) : (forall s, m s = m' s) -> keeps m -> keeps m'.
Proof. intros Heq Hm s a s' Hs. rewrite <- Heq in Hs. by eapply Hm. Qed.

Definition keeps_logic : logic E C A P := {|
  holds := @keeps; holds_ret := @keeps_ret; holds_bind := @keeps_bind; holds_metrics := @keeps_metrics;
  holds_ext := @keeps_ext |}.

Lemma keeps_partial : partial keeps_logic.
Proof. intros U s a s'. done. Qed.

Lemma keeps_act {U} (f : E -> U * E) events : agrees f events -> keeps (act f events).
Proof.
  intros Hf s a s'. unfold act. pose proof (Hf (env s)) as Hmv. destruct (f (env s)) as [b e]. intros [= <- <-].
  eexists. split; [apply omap_app|done].
Qed.
Lemma keeps_act_ f events : agrees_ f events -> keeps (act_ f events).
Proof. intros Hf. by apply keeps_act. Qed.

(** An operation the request does not take or give anything with. *)
Definition apart (e e' : E) : Prop := moves (view e) [] (view e').
#[export] Instance apart_preorder : PreOrder apart.
Proof. split; [intros e; apply moves_refl|]. intros e1 e2 e3 H1' H2'. exact (moves_trans _ _ _ _ _ H1' H2'). Qed.

Definition silent (l : list (event C A P)) : Prop := written l = [].
Lemma agrees_apart {U} (f : E -> U * E) events : (forall a, silent (events a)) -> carries apart f -> agrees f events.
Proof. intros Hs Hf e. rewrite Hs. apply Hf. Qed.
Lemma agrees_apart_ f events : silent events -> carries_ apart f -> agrees_ f events.
Proof. intros Hs Hf e. rewrite Hs. apply Hf. Qed.

End Keeps.

(** ** Surroundings connected to a control

    Everything but beginning and ending an attempt leaves the control to the other
    requests; beginning and ending one are steps of the control. *)
Section Connected.
Context `{Http} `{UrlCrate} `{HttpDate} `{Codecs} `{!ProxyCrates}.
Context {W K T : Type} `{!Control W K} {E C A P Stream Body : Type} `{!Surroundings E C A P} `{!Ureq E Stream Body}.
Context (client : Client (E := E)) (view : E -> office W T) (marks : event C A P -> option (mark T)).
Abbreviation apart := (apart view).

(** The events that may be about a control. *)
Definition of_control (ev : event C A P) : bool :=
  match ev with
  | CircuitBegan _ | CircuitEnded _ _ | AdaptiveBegan _ | AdaptiveEnded _ _ | PermitTaken _ | PermitDropped _ => true
  | _ => false
  end.

Record connected : Prop := {
  sees_marks : forall ev, of_control ev = false -> marks ev = None;
  sees_now : carries apart env_now;
  sees_now_system : carries apart env_now_system;
  sees_sampler : carries apart env_sampler;
  sees_rate_delay : forall host, carries apart (env_rate_delay host);
  sees_rate_throttle : forall host d scope hint, carries apart (env_rate_throttle host d scope hint);
  sees_drop_permit : forall p, agrees_ view marks (env_drop_permit p) [PermitDropped p];
  sees_budget_consume : carries apart env_budget_consume;
  sees_budget_success : carries_ apart env_budget_success;
  sees_callbacks : callbacks_carry client apart;
  sees_circuit_begin :
    agrees view marks env_circuit_begin (fun r => match r with Ok c => [CircuitBegan c] | Err _ => [] end);
  sees_circuit_end : forall how c, agrees_ view marks (env_circuit_end how c) [CircuitEnded how c];
  sees_adaptive_end : forall how a, agrees_ view marks (env_adaptive_end how a) [AdaptiveEnded how a];
}.

Lemma plain_silent (l : list (event C A P)) : connected -> Forall (fun ev => of_control ev = false) l -> silent marks l.
Proof.
  intros Hconn. induction 1 as [|ev l Hev _ IH]; [done|]. unfold silent, written in *. simpl.
  by rewrite (sees_marks Hconn ev Hev).
Qed.

Lemma keeps_plain {U} (f : E -> U * E) events :
  connected -> carries apart f -> (forall a, Forall (fun ev => of_control ev = false) (events a)) ->
  keeps view marks (act f events).
Proof. intros Hconn Hf Hev. apply keeps_act, agrees_apart; [|done]. intros a. by apply plain_silent. Qed.
Lemma keeps_plain_ f events :
  connected -> carries_ apart f -> Forall (fun ev => of_control ev = false) events -> keeps view marks (act_ f events).
Proof. intros Hconn Hf Hev. by apply keeps_plain. Qed.

Ltac plainly := (apply keeps_plain_ || apply keeps_plain); [done| |intros; repeat case_match; repeat constructor].

Lemma shared_keeps : connected -> shared_steps client (keeps_logic view marks).
Proof.
  intros Hconn. pose proof (sees_callbacks Hconn) as Hcallbacks.
  split; intros; try (apply keeps_act; apply Hconn); try (apply keeps_act_; apply Hconn); plainly; try apply Hconn.
  - by apply carries_request_interceptors; [apply _|].
  - by apply carries_response_interceptors; [apply _|].
  - by apply carries_error_interceptors; [apply _|].
  - by apply carries_start_observers; [apply _|].
  - by apply carries_retry_observers; [apply _|].
  - by apply carries_throttle_observers; [apply _|].
Qed.

(** What an acquisition takes. *)
Definition taken {X} (r : result (option P) X) : list (event C A P) :=
  match r with Ok (Some p) => [PermitTaken p] | _ => [] end.

(** The waits and the transport of the blocking client. *)
Record blocking_connected : Prop := {
  sees_shared : connected;
  sees_sleep : forall d, carries_ apart (env_sleep d);
  sees_acquire_global : forall deadline, agrees view marks (env_acquire_global deadline) taken;
  sees_acquire_host : forall host deadline, agrees view marks (env_acquire_host host deadline) taken;
  sees_run : forall proxy method uri headers body d1 d2,
    carries apart (ureq_run (Stream := Stream) (Body := Body) proxy method uri headers body d1 d2);
  sees_read : forall body, carries apart (ureq_read (Stream := Stream) (Body := Body) body);
  sees_adaptive_acquire : forall deadline, agrees view marks (env_adaptive_acquire deadline)
    (fun r => match r with Some a => [AdaptiveBegan a] | None => [] end);
}.

Lemma blocking_keeps : blocking_connected ->
  blocking_steps (Stream := Stream) (Body := Body) client (keeps_logic view marks).
Proof.
  intros Hconn. pose proof (sees_shared Hconn) as Hshared. split; intros.
  - by apply shared_keeps.
  - plainly. apply Hconn.
  - apply keeps_bind; [apply keeps_act, Hconn|intros; apply keeps_ret].
  - apply keeps_bind; [apply keeps_act, Hconn|intros; apply keeps_ret].
  - apply keeps_act, Hconn.
  - plainly. apply Hconn.
  - plainly. apply Hconn.
Qed.

Lemma rate_delay_keeps host : connected -> holds (keeps_logic view marks) (act (env_rate_delay host) (fun _ => [])).
Proof. intros Hconn. plainly. apply Hconn. Qed.

End Connected.

(** ** The circuit breaker *)
Section Breaker.
Import CircuitBreaker.
Context (p : CircuitBreakerPolicy).

Definition end_circuit (how : ending) (now : Instant) (a : CircuitAttempt) (b : t) : t :=
  match how with
  | EndSuccess => mark_success p a b
  | EndFailure => mark_failure p now a b
  | EndCancel => cancel p a b
  | EndDrop => drop p a b
  end.

Inductive breaker_does : label CircuitAttempt -> system -> system -> Prop :=
| breaker_rejects now b l d b' :
    begin p now b = (Err d, b') -> breaker_does Quiet {| breaker := b; live := l |} {| breaker := b'; live := l |}
| breaker_begins now b l a b' :
    begin p now b = (Ok a, b') ->
    breaker_does (Begins 0 a) {| breaker := b; live := l |} {| breaker := b'; live := a :: l |}
| breaker_ends how now b l1 a l2 :
    breaker_does (Ends how (length l1)) {| breaker := b; live := l1 ++ a :: l2 |}
      {| breaker := end_circuit how now a b; live := l1 ++ l2 |}.

#[refine] Definition breaker_control : Control system CircuitAttempt :=
  {| unfinished := live; does := breaker_does |}.
Proof.
  - by inversion_clear 1.
  - inversion_clear 1. by eexists [], _.
  - inversion_clear 1. by eexists _, _, _.
Defined.

Lemma breaker_does_step s s' : (exists l, breaker_does l s s') -> step p s s'.
Proof. intros [l [now b l' d b' Hb|now b l' a b' Hb|[] now b l1 a l2]]; by econstructor. Qed.

End Breaker.

(** ** The adaptive controllers *)
Section Controllers.
Import Adaptive.
Context (p : AdaptiveConcurrencyPolicy).

(** How a permit ends, at the instant [now]. *)
Definition end_permit (how : Program.ending) (now : Instant) : Adaptive.ending :=
  match how with
  | EndSuccess => MarkSuccess now
  | EndFailure => MarkFailure now
  | EndCancel => Cancel
  | EndDrop => Dropped
  end.

Inductive controller_does : label AdaptiveConcurrencyPermit -> controller -> controller -> Prop :=
| controller_waits c c' : step p c c' -> permits c' = permits c -> controller_does Quiet c c'
| controller_begins c c' permit : step p c c' -> permits c' = permit :: permits c -> controller_does (Begins 0 permit) c c'
| controller_ends how now st ps1 permit ps2 cs :
    controller_does (Ends how (length ps1)) {| limits := st; permits := ps1 ++ permit :: ps2; callers := cs |}
      {| limits := finish p (end_permit how now) permit st; permits := ps1 ++ ps2; callers := wake <$> cs |}.

#[refine] Definition controller_control : Control controller AdaptiveConcurrencyPermit :=
  {| unfinished := permits; does := controller_does |}.
Proof.
  - by inversion_clear 1.
  - inversion_clear 1. by eexists [], _.
  - inversion_clear 1. by eexists _, _, _.
Defined.

Lemma controller_does_step c c' : (exists l, controller_does l c c') -> step p c c'.
Proof. intros [l [? ? Hs ?|? ? ? Hs ?|]]; [done|done|constructor]. Qed.

Inductive async_does : label AdaptiveConcurrencyPermit -> async_controller -> async_controller -> Prop :=
| async_waits c c' : async_step p c c' -> async_permits c' = async_permits c -> async_does Quiet c c'
| async_begins c c' permit :
    async_step p c c' -> async_permits c' = permit :: async_permits c -> async_does (Begins 0 permit) c c'
| async_ends how now st ps1 permit ps2 ts :
    async_does (Ends how (length ps1)) {| async_limits := st; async_permits := ps1 ++ permit :: ps2; tasks := ts |}
      {| async_limits := finish p (end_permit how now) permit st; async_permits := ps1 ++ ps2; tasks := notify <$> ts |}.

#[refine] Definition async_control : Control async_controller AdaptiveConcurrencyPermit :=
  {| unfinished := async_permits; does := async_does |}.
Proof.
  - by inversion_clear 1.
  - inversion_clear 1. by eexists [], _.
  - inversion_clear 1. by eexists _, _, _.
Defined.

Lemma async_does_step c c' : (exists l, async_does l c c') -> async_step p c c'.
Proof. intros [l [? ? Hs ?|? ? ? Hs ?|]]; [done|done|constructor]. Qed.

End Controllers.

(** ** The request limiters

    A permit is unfinished until its semaphore is released. *)
Section LimiterControls.

Definition held_permits (w : Limiters.world) : list Limiters.permit :=
  List.filter (fun p => match Limiters.permit_is p with Limiters.Held => true | Limiters.Released => false end)
    (Limiters.permits w).

Inductive limiter_does : label Limiters.permit -> Limiters.world -> Limiters.world -> Prop :=
| limiter_waits w w' : Limiters.step w w' -> held_permits w' = held_permits w -> limiter_does Quiet w w'
| limiter_begins w w' p : Limiters.step w w' -> held_permits w' = p :: held_permits w -> limiter_does (Begins 0 p) w w'
| limiter_ends how w w' l1 p l2 :
    Limiters.step w w' -> held_permits w = l1 ++ p :: l2 -> held_permits w' = l1 ++ l2 ->
    limiter_does (Ends how (length l1)) w w'.

#[refine] #[export] Instance limiter_control : Control Limiters.world Limiters.permit :=
  {| unfinished := held_permits; does := limiter_does |}.
Proof.
  - by inversion_clear 1.
  - inversion_clear 1. by eexists [], _.
  - inversion_clear 1. by eexists _, _, _.
Defined.

Lemma limiter_does_step w w' : (exists l, limiter_does l w w') -> Limiters.step w w'.
Proof. by intros [l [? ? Hs ?|? ? ? Hs ?|? ? ? ? ? ? Hs ? ?]]. Qed.

(** Nothing a caller of the limiters does is left out. *)
Lemma limiter_step_does w w' : Limiters.step w w' -> exists l, limiter_does l w w'.
Proof.
  intros Hs. pose proof Hs as Hs'.
  destruct Hs' as [d ? w' r Hr|host d now ? w' r Hr|? cs1 c cs2 st st' now Hc Ht Hst Hturn| | | |
    |? ps1 p ps2 st cs' Hp Hh Hst Hn|? ps1 p ps2 Hp Hrel];
    try (exists Quiet; by apply limiter_waits).
  - exists Quiet. apply limiter_waits; [done|]. unfold Limiters.acquire_global in Hr. case_match; by injection Hr as <- <-.
  - unfold Limiters.acquire_host in Hr.
    destruct (Limiters.per_host_limit (Limiters.limiters w)) as [n|]; [|injection Hr as <- <-; exists Quiet; by apply limiter_waits].
    destruct (if bool_decide _ then _ else _) as [key|]; [|injection Hr as <- <-; exists Quiet; by apply limiter_waits].
    cbv zeta in Hr. match type of Hr with context [Limiters.host_entry n key now ?x] => set (w1 := x) in Hr end.
    destruct (Limiters.host_entry n key now w1) as [i w2] eqn:He.
    assert (Limiters.permits w2 = Limiters.permits w) as Hp
      by (revert He; clear; unfold Limiters.host_entry; destruct (_ !! key); by intros [= <- <-]).
    case_match; injection Hr as <- <-.
    + eexists (Begins 0 _). eapply limiter_begins; [done|]. unfold held_permits. cbn. rewrite Hp. reflexivity.
    + exists Quiet. apply limiter_waits; [done|]. unfold held_permits. cbn. by rewrite Hp.
  - eexists (Begins 0 _). eapply limiter_begins; [done|reflexivity].
  - eexists (Ends EndDrop _). unfold held_permits in *. eapply limiter_ends; [done| |]; unfold held_permits; cbn.
    + rewrite Hp, List.filter_app. cbn. rewrite Hh. reflexivity.
    + rewrite List.filter_app. done.
  - exists Quiet. apply limiter_waits; [done|]. unfold held_permits. cbn. rewrite Hp, !List.filter_app. cbn. by rewrite Hrel.
Qed.

End LimiterControls.

(** ** Controls that hand nothing out: the retry budget and the rate limiter *)
Section Passive.
Context {W : Type} (R : W -> W -> Prop).

#[refine] Definition passive : Control W Empty_set :=
  {| unfinished := fun _ => []; does := fun l w w' => l = Quiet /\ R w w' |}.
Proof. all: by intros; destruct_and?. Defined.

Definition passive_office (w : W) : office W Empty_set := {| control := w; owners := []; issued := []; strays := 0 |}.

Lemma passive_moves w w' : rtc R w w' -> moves (Control0 := passive) (passive_office w) [] (passive_office w').
Proof.
  intros Hr. pattern w'. eapply (rtc_ind_r _ w); [|intros a b _ Hab IH|exact Hr].
  - apply (moves_refl (Control0 := passive)).
  - eapply (moves_other (Control0 := passive)); [exact IH|].
    by apply (other_quiet (Control0 := passive) (passive_office a)).
Qed.

End Passive.

Definition budget_does (p : RetryBudget.RetryBudgetPolicy) (st st' : RetryBudget.RetryBudgetState) : Prop :=
  exists o, st' = (RetryBudget.step p o st).2.
Definition rate_does (rl rl' : RateLimit.RateLimiter) : Prop := exists o, rl' = RateLimit.run_op o rl.

(** ** The events of the log about each control *)
Section Marks.
Context `{Http} {C A P : Type} `{!EqDecision C} `{!EqDecision A} `{!EqDecision P}.
Implicit Types (l : list (event C A P)).

Definition circuit_marks (ev : event C A P) : option (mark C) :=
  match ev with CircuitBegan c => Some (Took c) | CircuitEnded how c => Some (Gave how c) | _ => None end.
Definition adaptive_marks (ev : event C A P) : option (mark A) :=
  match ev with AdaptiveBegan a => Some (Took a) | AdaptiveEnded how a => Some (Gave how a) | _ => None end.
Definition permit_marks (ev : event C A P) : option (mark P) :=
  match ev with PermitTaken p => Some (Took p) | PermitDropped p => Some (Gave EndDrop p) | _ => None end.
Definition no_marks (ev : event C A P) : option (mark Empty_set) := None.

Lemma circuit_counts c l :
  countb (takes c) (written circuit_marks l) = countb (circuit_began c) l /\
  countb (gives c) (written circuit_marks l) = countb (circuit_ended c) l.
Proof.
  unfold written. induction l as [|ev l [IH1 IH2]]; [done|]. rewrite !countb_cons, <- IH1, <- IH2.
  destruct ev; simpl; rewrite ?countb_cons; done.
Qed.
Lemma adaptive_counts a l :
  countb (takes a) (written adaptive_marks l) = countb (adaptive_began a) l /\
  countb (gives a) (written adaptive_marks l) = countb (adaptive_ended a) l.
Proof.
  unfold written. induction l as [|ev l [IH1 IH2]]; [done|]. rewrite !countb_cons, <- IH1, <- IH2.
  destruct ev; simpl; rewrite ?countb_cons; done.
Qed.

Lemma permit_counts p l :
  countb (takes p) (written permit_marks l) = countb (permit_taken p) l /\
  countb (gives p) (written permit_marks l) = countb (permit_dropped p) l.
Proof.
  unfold written. induction l as [|ev l [IH1 IH2]]; [done|]. rewrite !countb_cons, <- IH1, <- IH2.
  destruct ev; simpl; rewrite ?countb_cons; done.
Qed.

(** A run that keeps a control, and ends what it began but for [held]. *)
Lemma settled_run {E W K T} `{!Control W K} `{!EqDecision T} (view : E -> office W T) marks
    (began ended : T -> event C A P -> bool) step held (s s' : state E C A P) :
  (forall c l, countb (takes c) (written marks l) = countb (began c) l /\
               countb (gives c) (written marks l) = countb (ended c) l) ->
  (forall w w', (exists x, does x w w') -> step w w') -> idle (view (env s)) ->
  (exists tr, written marks (log s') = tr ++ written marks (log s) /\ moves (view (env s)) tr (view (env s'))) ->
  (forall c, added (began c) s s' = added (ended c) s s' + among c held) ->
  sound_run step held (view (env s)) (view (env s')).
Proof.
  intros Hcounts Hstep Hidle (tr & Hw & Hmv) Hbal. eapply sound_run_mono; [exact Hstep|].
  eapply moves_sound; [done|exact Hmv|]. intros c. specialize (Hbal c). unfold added in Hbal.
  destruct (Hcounts c (log s)) as [H1' H2']. destruct (Hcounts c (log s')) as [H3' H4']. rewrite Hw, countb_app in H3', H4'.
  lia.
Qed.

End Marks.

(** ** What a run takes and gives *)
Section Balance.
Context `{Http} {E C A P : Type} `{!EqDecision C} `{!EqDecision A} `{!EqDecision P}.

(** The attempts and permits a run began are those it ended, and [g] and [ps]. *)
Definition balanced (g : AttemptGuards C A) (ps : list P) (s s' : state E C A P) : Prop :=
  (forall c, added (circuit_began c) s s' = added (circuit_ended c) s s' + among c (option_list (circuit g))) /\
  (forall a, added (adaptive_began a) s s' = added (adaptive_ended a) s s' + among a (option_list (adaptive g))) /\
  (forall p, added (permit_taken p) s s' = added (permit_dropped p) s s' + among p ps).

Lemma one_if_among {T} `{!EqDecision T} (c c' : T) : one_if (Some c') (Some c) = among c [c'].
Proof. unfold one_if, among. rewrite countb_cons, countb_nil. repeat case_decide; case_bool_decide; naive_solver lia. Qed.

Lemma held_circuit_among c (g : AttemptGuards C A) : held_circuit (Some c) g = among c (option_list (circuit g)).
Proof. unfold held_circuit. destruct (circuit g); [apply one_if_among|done]. Qed.
Lemma held_adaptive_among a (g : AttemptGuards C A) : held_adaptive (Some a) g = among a (option_list (adaptive g)).
Proof. unfold held_adaptive. destruct (adaptive g); [apply one_if_among|done]. Qed.
Lemma held_permit_among p (gp : option P) : held_permit (Some p) gp = among p (option_list gp).
Proof. unfold held_permit. destruct gp; [apply one_if_among|done]. Qed.

Lemma tally_balanced g ps s s' :
  (forall c0 a0 p0, BlockingFacts.circuits (tally_of c0 a0 p0 s') = BlockingFacts.circuits (tally_of c0 a0 p0 s) + held_circuit c0 g /\
     adaptives (tally_of c0 a0 p0 s') = adaptives (tally_of c0 a0 p0 s) + held_adaptive a0 g /\
     (forall p, p0 = Some p ->
       BlockingFacts.permits (tally_of c0 a0 p0 s') = BlockingFacts.permits (tally_of c0 a0 p0 s) + among p ps)) ->
  balanced g ps s s'.
Proof.
  intros Ht. unfold added. split_and!.
  - intros c. destruct (Ht (Some c) None None) as (Hc & _). rewrite !tally_circuits in Hc. rewrite <- held_circuit_among. unfold added. lia.
  - intros a. destruct (Ht None (Some a) None) as (_ & Ha & _). rewrite !tally_adaptives in Ha. rewrite <- held_adaptive_among. unfold added. lia.
  - intros p. destruct (Ht None None (Some p)) as (_ & _ & Hp). specialize (Hp p eq_refl). rewrite !tally_permits in Hp. unfold added. lia.
Qed.

(** The limiter permits a result still owns. *)
Definition result_held {Body} (r : result (RetryResponse (C := C) (A := A) (P := P) (Body := Body)) Error.t) : list P :=
  match r with
  | Ok (StreamResponse s) => option_list (stream_global_permit s) ++ option_list (stream_host_permit s)
  | _ => []
  end.

Lemma result_permits_among {Body} p (r : result (RetryResponse (C := C) (A := A) (P := P) (Body := Body)) Error.t) :
  result_permits (Some p) r = among p (result_held r).
Proof.
  destruct r as [[r|s]|e]; [done| |done]. unfold result_permits, result_held. rewrite !held_permit_among. unfold among.
  by rewrite countb_app.
Qed.

End Balance.

(** ** A client wired to all its controls

    A circuit breaker, an adaptive controller, request limiters, a retry budget and a
    rate limiter. *)
Section Wiring.
Context `{Http} {E C A P : Type} `{!EqDecision C} `{!EqDecision A} `{!EqDecision P}.
Context {WC KC WA KA WL KL WB WR : Type} `{HC : !Control WC KC} `{HA : !Control WA KA} `{HL : !Control WL KL}.
Context (step_c : WC -> WC -> Prop) (step_a : WA -> WA -> Prop) (step_l : WL -> WL -> Prop).
Context (step_b : WB -> WB -> Prop) (step_r : WR -> WR -> Prop).

Record wiring := {
  wire_circuits : E -> office WC C;
  wire_adaptives : E -> office WA A;
  wire_limits : E -> office WL P;
  wire_budget : E -> WB;
  wire_rates : E -> WR;
}.

(** Every control, with the events that are about it. *)
Definition each (Q : forall W K T, Control W K -> (E -> office W T) -> (event C A P -> option (mark T)) -> Prop)
    (w : wiring) : Prop :=
  Q WC KC C HC (wire_circuits w) circuit_marks /\ Q WA KA A HA (wire_adaptives w) adaptive_marks /\
  Q WL KL P HL (wire_limits w) permit_marks /\
  Q WB Empty_set Empty_set (passive step_b) (fun e => passive_office (wire_budget w e)) no_marks /\
  Q WR Empty_set Empty_set (passive step_r) (fun e => passive_office (wire_rates w e)) no_marks.

(** The request holds nothing of any control. *)
Definition wired_idle (w : wiring) (e : E) : Prop :=
  idle (wire_circuits w e) /\ idle (wire_adaptives w e) /\ idle (wire_limits w e).

(** What a run from [e] to [e'] that holds [g] and [ps] in the end does to them. *)
Definition wired_sound (w : wiring) (g : AttemptGuards C A) (ps : list P) (e e' : E) : Prop :=
  sound_run step_c (option_list (circuit g)) (wire_circuits w e) (wire_circuits w e') /\
  sound_run step_a (option_list (adaptive g)) (wire_adaptives w e) (wire_adaptives w e') /\
  sound_run step_l ps (wire_limits w e) (wire_limits w e') /\
  rtc step_b (wire_budget w e) (wire_budget w e') /\
  rtc step_r (wire_rates w e) (wire_rates w e').

Lemma each_mono (Q Q' : forall W K T, Control W K -> (E -> office W T) -> (event C A P -> option (mark T)) -> Prop) w :
  (forall W K T HW view marks, Q W K T HW view marks -> Q' W K T HW view marks) -> each Q w -> each Q' w.
Proof. intros Hm (H1' & H2' & H3' & H4' & H5'). split_and!; by apply Hm. Qed.

Lemma passive_run {W} (R : W -> W -> Prop) (view : E -> W) {U} (m : M E C A P U) s r s' :
  keeps (Control0 := passive R) (fun e => passive_office (view e)) no_marks m -> m s = Some (r, s') ->
  rtc R (view (env s)) (view (env s')).
Proof.
  intros Hk Hm. destruct (Hk _ _ _ Hm) as (tr & _ & Hmv). apply (moves_kept (Control0 := passive R)) in Hmv as [Hs _ _ _ _ _ _]; [|done..].
  eapply rtc_subrel; [|exact Hs]. by intros w w' (l & _ & HR).
Qed.

Lemma wired_run {U} (m : M E C A P U) w g ps s r s' :
  (forall x y, (exists l, does l x y) -> step_c x y) -> (forall x y, (exists l, does l x y) -> step_a x y) ->
  (forall x y, (exists l, does l x y) -> step_l x y) ->
  wired_idle w (env s) -> each (fun _ _ _ _ view marks => keeps view marks m) w ->
  m s = Some (r, s') -> balanced g ps s s' -> wired_sound w g ps (env s) (env s').
Proof.
  intros Hsc Hsa Hsl (Hc & Ha & Hl) (Kc & Ka & Kl & Kb & Kr) Hm (Hbc & Hba & Hbl). split_and!.
  - apply (settled_run (wire_circuits w) circuit_marks circuit_began circuit_ended); [apply circuit_counts|done..|by eapply Kc|done].
  - apply (settled_run (wire_adaptives w) adaptive_marks adaptive_began adaptive_ended); [apply adaptive_counts|done..|by eapply Ka|done].
  - apply (settled_run (wire_limits w) permit_marks permit_taken permit_dropped); [apply permit_counts|done..|by eapply Kl|done].
  - by eapply passive_run.
  - by eapply passive_run.
Qed.

End Wiring.
Arguments wiring : clear implicits.

(** ** The blocking client *)
Section BlockingClient.
Context `{Http} `{UrlCrate} `{HttpDate} `{Codecs} `{!ProxyCrates}.
Context {E C A P Stream Body : Type} `{!Surroundings E C A P} `{!Ureq E Stream Body}.
Context `{!EqDecision C} `{!EqDecision A} `{!EqDecision P}.
Context (client : Client (E := E)) (pc : CircuitBreaker.CircuitBreakerPolicy) (pa : Adaptive.AdaptiveConcurrencyPolicy).
Context (pb : RetryBudget.RetryBudgetPolicy).
#[local] Instance breaker_of : Control _ _ := breaker_control pc.
#[local] Instance controller_of : Control _ _ := controller_control pa.
Context (wires : wiring E C A P CircuitBreaker.system Adaptive.controller Limiters.world RetryBudget.RetryBudgetState RateLimit.RateLimiter).

(** The surroundings are connected to every control. *)
Definition controls_connected : Prop :=
  each (budget_does pb) rate_does
    (fun _ _ _ _ view marks => blocking_connected (Stream := Stream) (Body := Body) client view marks) wires.

Definition controls_sound (g : AttemptGuards C A) (ps : list P) (e e' : E) : Prop :=
  wired_sound (CircuitBreaker.step pc) (Adaptive.step pa) Limiters.step (budget_does pb) rate_does wires g ps e e'.

Context (Hconn : controls_connected).

Context (fuel rate_fuel : nat) (method : Method) (path : str) (headers : HeaderMap).
Context (body : option (RequestBody Stream)) (overrides : RequestExecutionOverrides).

Lemma requests_keep {W K T} `{!Control W K} (view : E -> office W T) (marks : event C A P -> option (mark T)) :
  blocking_connected (Stream := Stream) (Body := Body) client view marks ->
  keeps view marks
    (send_request (Stream := Stream) (Body := Body) client fuel rate_fuel method path headers body overrides) /\
  keeps view marks
    (send_request_stream (Stream := Stream) (Body := Body) client fuel rate_fuel method path headers body overrides).
Proof.
  intros Hv. pose proof (blocking_keeps _ _ _ Hv) as Hsteps. pose proof (keeps_partial view marks) as Hpartial.
  assert (forall host, holds (keeps_logic view marks) (act (env_rate_delay host) (fun _ => []))) as Hrate
    by (intros host; by eapply rate_delay_keeps, Hv).
  split; [by apply (walk_send_request client (keeps_logic view marks))|by apply (walk_send_request_stream client (keeps_logic view marks))].
Qed.

Lemma buffered_balanced s r s' :
  send_request (Body := Body) client fuel rate_fuel method path headers body overrides s = Some (r, s') ->
  balanced no_guards [] s s'.
Proof.
  intros Hs. apply tally_balanced. intros c0 a0 p0. unfold held_circuit, held_adaptive. simpl.
  assert (forall p : P, among p [] = 0) as Hnone by done.
  destruct (prepare client method path headers body overrides (buffered_auto_accept_encoding client))
    as [input|e] eqn:Hp.
  - destruct (wp_send_request client fuel rate_fuel method path headers body overrides c0 a0 p0 input _ Hp
      s r s' eq_refl Hs) as [_ Hc Ha Hpe _]. split_and!; [lia|lia|]. intros p _. rewrite Hnone. lia.
  - unfold send_request in Hs. rewrite Hp in Hs. injection Hs as <- <-. split_and!; [lia|lia|]. intros p _. rewrite Hnone. lia.
Qed.

(** C10: Requests of the blocking client and the controls they share, composed: on
    surroundings connected to a circuit breaker, an adaptive controller, request
    limiters, a retry budget and a rate limiter, with any other requests taking
    steps of all of them in between, a request is a run of the transition systems of
    these controls. It ends every attempt and permit it took and no other, and after
    it holds nothing of any control, or, when it returns a stream, exactly what the
    stream carries. *)
Theorem blocking_requests_keep_controls s s' :
  wired_idle wires (env s) ->
  (forall r, send_request (Body := Body) client fuel rate_fuel method path headers body overrides s = Some (r, s') ->
     controls_sound no_guards [] (env s) (env s')) /\
  (forall r, send_request_stream (Body := Body) client fuel rate_fuel method path headers body overrides s = Some (r, s') ->
     controls_sound (result_guards (as_response r)) (result_held (as_response r)) (env s) (env s')).
Proof.
  intros Hidle. pose proof (fun U m g ps r => wired_run (CircuitBreaker.step pc) (Adaptive.step pa) Limiters.step (budget_does pb) rate_does
    (U := U) m wires g ps s r s' (breaker_does_step pc) (controller_does_step pa) limiter_does_step Hidle) as Hrun.
  split; intros r Hs; (eapply Hrun; [|exact Hs|]).
  - eapply each_mono; [|exact Hconn]. intros W K T HW view marks Hv. by apply requests_keep.
  - by eapply buffered_balanced.
  - eapply each_mono; [|exact Hconn]. intros W K T HW view marks Hv. by apply requests_keep.
  - apply tally_balanced. intros c0 a0 p0.
    destruct (wp_send_request_stream client fuel rate_fuel method path headers body overrides c0 a0 p0 _ [] []
      s r s' eq_refl Hs) as [_ _ Hc' Ha' Hp' _ _]. split_and!; [done|done|]. intros p ->. by rewrite Hp', result_permits_among.
Qed.

End BlockingClient.
