(* ===== verification/BlockingStream.v ===== *)
(** * The blocking response stream (http/response/blocking_stream.rs)

    Reading, copying and buffering a streamed response, as programs over the
    surroundings.  A stream is a value that the operations pass along; those that
    consume it ([self]) end with its drop.  Completion goes through [StreamLifecycle],
    whose hooks settle the attempt guards the stream carries.  Fuel bounds the loops:
    [retries] the reads repeated after an interruption, [chunks] the chunks of a body. *)
From Stdlib Require Import Ascii String.
From S2P Require Import Prelude Float64 Text HttpApi UriText Errors Redaction UriResolve Redirect Proxy.
From S2P Require Import Headers ContentEncoding Timing Responses Retry RetryBudget RateLimit Execution Limiters.
From S2P Require Import Metrics Lifecycle Program Blocking.

(** A [std::io::Write] that lives in the surroundings. *)
Record Writer (E : Type) := {
  write_all : list Z -> E -> result unit BoxError * E;
  flush : E -> result unit BoxError * E;
}.
Arguments write_all {E} _.
Arguments flush {E} _.

Module BlockingStream.
Section BlockingStream.
Context `{Http} `{UrlCrate} `{HttpDate} `{Codecs} `{!ProxyCrates}.
Context {E C A P Stream Body : Type} `{!Surroundings E C A P} `{!Ureq E Stream Body}.

Abbreviation St := (state E C A P).
Abbreviation Prog := (M E C A P).
Abbreviation t := (BlockingResponseStream (C := C) (A := A) (P := P) (Body := Body)).

(** ** Errors *)
Definition map_io_error (source : BoxError) (method : Method) (uri : str) (timeout_ms : Z) : Error.t :=
  if is_timeout_io_error source then Error.Timeout TimeoutPhase.ResponseBody timeout_ms method uri
  else Error.ReadBody source.

Definition deadline_exceeded_error (method : Method) (uri : str) (timeout_ms : Z) (total_timeout_ms : option Z)
    : Error.t :=
  Error.DeadlineExceeded (default (Z.max timeout_ms 1) total_timeout_ms) method uri.

Definition response_body_too_large_error (limit_bytes actual_bytes : Z) (st : t) : Error.t :=
  Error.ResponseBodyTooLarge limit_bytes actual_bytes (stream_method st) (stream_uri_redacted st).

Definition write_error (source : BoxError) (st : t) : Error.t :=
  write_body_error (stream_method st) (stream_uri_redacted st) source.

Definition stream_deadline_error (st : t) : Error.t :=
  deadline_exceeded_error (stream_method st) (stream_uri_redacted st) (stream_timeout_ms st)
    (total_timeout_ms (stream_timing_of st)).

(** ** Deadlines *)
Definition deadline_at (st : t) : option Instant := timing_deadline_at (stream_timing_of st).

Definition current_read_is_deadline_limited (st : t) : Prog bool :=
  match deadline_at st with
  | None => mret false
  | Some deadline_at =>
    now ← instant_now;
    mret (deadline_limits_wait (duration_from_millis_saturating (Z.max (stream_timeout_ms st) 1)) deadline_at now)
  end.

Definition map_read_error (source : BoxError) (deadline_limited : bool) (st : t) : Prog Error.t :=
  let mapped := map_io_error source (stream_method st) (stream_uri_redacted st) (stream_timeout_ms st) in
  now ← instant_now;
  mret match mapped, deadline_at st with
       | Error.Timeout _ _ _ _, Some deadline_at =>
         if deadline_elapsed deadline_at now
            || (deadline_limited && deadline_within_slack deadline_at now (stream_slack st))
         then stream_deadline_error st else mapped
       | _, _ => mapped
       end.

Definition ensure_within_deadline (st : t) : Prog (result unit Error.t) :=
  match deadline_at st with
  | None => mret (Ok tt)
  | Some deadline_at =>
    now ← instant_now;
    mret (if deadline_elapsed deadline_at now then Err (stream_deadline_error st) else Ok tt)
  end.

(** ** Completion

    The hooks act on the state of the program: the retry budget is credited, the
    guards are settled. *)
#[local] Existing Instance circuit_attempt_outcome.
#[local] Existing Instance adaptive_permit_outcome.

Definition settle_stream_hooks (credit : bool)
    (how : AttemptGuards C A -> St -> AttemptGuards C A * St)
    (h : StreamResilienceHooks C A) (s : St) : StreamResilienceHooks C A * St :=
  let s := if credit && retry_budget h then write s (env_budget_success (env s)) BudgetCredited else s in
  let '(g, s) := how (attempts h) s in
  ({| retry_budget := false; attempts := g |}, s).

#[local] Instance stream_hooks : StreamOutcomeHooks (StreamResilienceHooks C A) St := {
  hooks_complete_success now := settle_stream_hooks true (guards_mark_success now);
  hooks_complete_error _ now := settle_stream_hooks false (guards_mark_failure now);
  hooks_complete_canceled now := settle_stream_hooks false guards_cancel;
}.

Definition with_transport (body : option Body) (global_permit host_permit : option P)
    (lifecycle : StreamLifecycle.t (StreamResilienceHooks C A)) (st : t) : t :=
  {| stream_status := stream_status st; stream_headers := stream_headers st; stream_body := body;
     stream_method := stream_method st; stream_uri_raw := stream_uri_raw st;
     stream_uri_redacted := stream_uri_redacted st; stream_timeout_ms := stream_timeout_ms st;
     stream_timing_of := stream_timing_of st; stream_slack := stream_slack st;
     stream_lifecycle := lifecycle; stream_global_permit := global_permit; stream_host_permit := host_permit |}.

Definition release_transport (st : t) : Prog t :=
  _ ← drop_permit (stream_global_permit st);
  _ ← drop_permit (stream_host_permit st);
  mret (with_transport None None None (stream_lifecycle st) st).

(** An operation of the lifecycle, on the state and the metrics in it. *)
Definition on_lifecycle {T}
    (f : Instant -> St * Metrics.ClientMetrics -> T * (St * Metrics.ClientMetrics)) : Prog T :=
  now ← instant_now;
  on_state (fun s =>
    let '(x, (s, m)) := f now (s, metrics s) in
    (x, {| env := env s; metrics := m; log := log s |})).

Definition complete (c : StreamLifecycle.call) (st : t) : Prog t :=
  st ← release_transport st;
  l ← on_lifecycle (fun now => StreamLifecycle.complete c now (stream_lifecycle st));
  mret (with_transport (stream_body st) (stream_global_permit st) (stream_host_permit st) l st).

Definition complete_success : t -> Prog t := complete StreamLifecycle.Succeed.
Definition complete_error (error : Error.t) : t -> Prog t := complete (StreamLifecycle.Fail_with error).

(** The drop of a stream: its lifecycle, then the permits it still has. *)
Definition drop (st : t) : Prog unit :=
  _ ← on_lifecycle (fun now w => (tt, StreamLifecycle.drop now (stream_lifecycle st) w));
  _ ← drop_permit (stream_global_permit st);
  drop_permit (stream_host_permit st).

(** ** Reading *)
Fixpoint read_loop (retries : nat) (size : Z) (complete_success_on_eof : bool) (st : t)
    : Prog (result (list Z) Error.t * t) :=
  match retries with
  | O => fun _ => None
  | S retries =>
    within ← ensure_within_deadline st;
    match within with
    | Err error => st ← complete_error error st; mret (Err error, st)
    | Ok _ =>
      deadline_limited ← current_read_is_deadline_limited st;
      match stream_body st with
      | None => mret (Ok [], st)
      | Some body =>
        '(r, body) ← act (ureq_read_chunk size body)
                       (fun rb => match rb.1 with Ok bytes => [ChunkRead bytes] | Err _ => [] end);
        let st := with_transport (Some body) (stream_global_permit st) (stream_host_permit st)
                    (stream_lifecycle st) st in
        match r with
        | Ok bytes =>
          within ← ensure_within_deadline st;
          match within with
          | Err error => st ← complete_error error st; mret (Err error, st)
          | Ok _ =>
            st ← (if bool_decide (bytes = []) && complete_success_on_eof then complete_success st else mret st);
            mret (Ok bytes, st)
          end
        | Err source =>
          if bool_decide (io_error_kind source = Some IoErrorKind.Interrupted)
          then read_loop retries size complete_success_on_eof st
          else
            error ← map_read_error source deadline_limited st;
            st ← complete_error error st; mret (Err error, st)
        end
      end
    end
  end.

Definition read_chunk_internal (retries : nat) (size : Z) (complete_success_on_eof : bool) (st : t)
    : Prog (result (list Z) Error.t * t) :=
  if (size =? 0) || negb (is_some (stream_body st)) then mret (Ok [], st)
  else read_loop retries size complete_success_on_eof st.

Definition read_chunk (retries : nat) (size : Z) (st : t) : Prog (result (list Z) Error.t * t) :=
  read_chunk_internal retries size true st.

(** [Read for BlockingResponseStream]; this build has no hyper. *)
Definition read (retries : nat) (size : Z) (st : t) : Prog (result (list Z) StreamIoError * t) :=
  '(r, st) ← read_chunk retries size st;
  mret (match r with
        | Ok bytes => Ok bytes
        | Err error => Err (into_stream_read_io_error (fun _ => None) error)
        end, st).

(** ** Copying *)
Definition write_with_deadline (operation : E -> result unit BoxError * E) (written : list Z) (st : t)
    : Prog (result unit Error.t * t) :=
  within ← ensure_within_deadline st;
  result ← match within with
           | Err error => mret (Err error)
           | Ok _ =>
             r ← act operation (fun r => match r with Ok _ => [ChunkWritten written] | Err _ => [] end);
             match r with
             | Err source => mret (Err (write_error source st))
             | Ok _ => ensure_within_deadline st
             end
           end;
  match result with
  | Err error => st ← complete_error error st; mret (Err error, st)
  | Ok _ => mret (Ok tt, st)
  end.

Definition CHUNK : Z := 8192.

(** The copying loop; [limit] is [copy_to_writer_limited]'s. *)
Fixpoint copy_loop (chunks retries : nat) (writer : Writer E) (limit : option Z) (copied : Z) (st : t)
    : Prog (result Z Error.t * t) :=
  match chunks with
  | O => fun _ => None
  | S chunks =>
    '(r, st) ← read_chunk_internal retries CHUNK false st;
    match r with
    | Err error => mret (Err error, st)
    | Ok [] => mret (Ok copied, st)
    | Ok chunk =>
      let copied := sat_add u64_max copied (Z.of_nat (length chunk)) in
      match limit with
      | Some max_bytes =>
        if max_bytes <? copied then
          let error := response_body_too_large_error max_bytes (saturating_u64_to_usize copied) st in
          st ← complete_error error st; mret (Err error, st)
        else
          '(w, st) ← write_with_deadline (write_all writer chunk) chunk st;
          match w with
          | Err error => mret (Err error, st)
          | Ok _ => copy_loop chunks retries writer limit copied st
          end
      | None =>
        '(w, st) ← write_with_deadline (write_all writer chunk) chunk st;
        match w with
        | Err error => mret (Err error, st)
        | Ok _ => copy_loop chunks retries writer limit copied st
        end
      end
    end
  end.

(** What both copies do around the loop. *)
Definition copy_with (chunks retries : nat) (writer : Writer E) (limit : option Z) (st : t)
    : Prog (result Z Error.t) :=
  '(r, st) ← copy_loop chunks retries writer limit 0 st;
  match r with
  | Err error => _ ← drop st; mret (Err error)
  | Ok copied =>
    '(w, st) ← write_with_deadline (flush writer) [] st;
    match w with
    | Err error => _ ← drop st; mret (Err error)
    | Ok _ => st ← complete_success st; _ ← drop st; mret (Ok copied)
    end
  end.

Definition copy_to_writer (chunks retries : nat) (writer : Writer E) (st : t) : Prog (result Z Error.t) :=
  copy_with chunks retries writer None st.

Definition copy_to_writer_limited (chunks retries : nat) (writer : Writer E) (max_bytes : Z) (st : t)
    : Prog (result Z Error.t) :=
  copy_with chunks retries writer (Some max_bytes) st.

(** ** Buffering *)
Fixpoint collect_loop (chunks retries : nat) (max_bytes : Z) (collected : list Z) (st : t)
    : Prog (result (list Z) Error.t * t) :=
  match chunks with
  | O => fun _ => None
  | S chunks =>
    '(r, st) ← read_chunk_internal retries CHUNK false st;
    match r with
    | Err error => mret (Err error, st)
    | Ok [] => mret (Ok collected, st)
    | Ok chunk =>
      let total_len := sat_add usize_max (Z.of_nat (length collected)) (Z.of_nat (length chunk)) in
      if max_bytes <? total_len then
        let error := response_body_too_large_error max_bytes total_len st in
        st ← complete_error error st; mret (Err error, st)
      else collect_loop chunks retries max_bytes (collected ++ chunk) st
    end
  end.

Definition into_bytes_limited (chunks retries : nat) (max_bytes : Z) (st : t) : Prog (result (list Z) Error.t) :=
  '(r, st) ← collect_loop chunks retries max_bytes [] st;
  match r with
  | Err error => _ ← drop st; mret (Err error)
  | Ok collected => st ← complete_success st; _ ← drop st; mret (Ok collected)
  end.

(** A failure that completes the stream and leaves. *)
Definition fail_with {T} (error : Error.t) (st : t) : Prog (result T Error.t) :=
  st ← complete_error error st; _ ← drop st; mret (Err error).

Definition into_response_limited (f : Features) (chunks retries : nat) (max_bytes : Z) (st : t)
    : Prog (result Response Error.t) :=
  '(r, st) ← collect_loop chunks retries max_bytes [] st;
  match r with
  | Err error => _ ← drop st; mret (Err error)
  | Ok body =>
    let status := stream_status st in
    let method := stream_method st in
    let uri_redacted := stream_uri_redacted st in
    within ← ensure_within_deadline st;
    match within with
    | Err error => fail_with error st
    | Ok _ =>
      let headers := stream_headers st in
      let should_decode :=
        should_decode_content_encoded_body method status (Z.of_nat (length body)) in
      match (if should_decode then decode_content_encoded_body_limited f body headers max_bytes else Ok body) with
      | Err error => fail_with (into_error error method uri_redacted max_bytes) st
      | Ok body =>
        let headers :=
          if should_decode && hm_contains_key headers (header_name "content-encoding")
          then remove_content_encoding_headers headers else headers in
        within ← ensure_within_deadline st;
        match within with
        | Err error => fail_with error st
        | Ok _ =>
          st ← complete_success st; _ ← drop st;
          mret (Ok {| Responses.status := status; Responses.headers := headers; Responses.body := body |})
        end
      end
    end
  end.

(** The conversions of the buffered response. *)
Definition and_then {T} (k : Response -> result T Error.t) (m : Prog (result Response Error.t))
    : Prog (result T Error.t) :=
  r ← m; mret match r with Ok response => k response | Err error => Err error end.

Definition into_text_limited (f : Features) (chunks retries : nat) (max_bytes : Z) (st : t) : Prog (result str Error.t) :=
  and_then into_text (into_response_limited f chunks retries max_bytes st).

Definition into_text_lossy_limited (f : Features) (chunks retries : nat) (max_bytes : Z) (st : t)
    : Prog (result str Error.t) :=
  and_then (fun r => Ok (into_text_lossy r)) (into_response_limited f chunks retries max_bytes st).

Definition into_json_limited {T} `{!Serde T} (f : Features) (chunks retries : nat) (max_bytes : Z) (st : t)
    : Prog (result T Error.t) :=
  and_then json (into_response_limited f chunks retries max_bytes st).

End BlockingStream.
End BlockingStream.
