(* ===== verification/BlockingStreamTheorems.v ===== *)
(** * What a blocking response stream does

    In the program logic of [BlockingFacts]: an open stream owns guards, permits and
    an entry of the metrics ledger; every operation that consumes it settles all of
    them once, with the outcome it reports, and hands over the bytes it read, in
    order and within the limit. *)
From S2P Require Import Prelude Float64 Text HttpApi UriText Errors Redaction UriResolve Redirect Proxy.
From S2P Require Import Headers ContentEncoding Timing Responses Retry RetryBudget RateLimit Execution Limiters.
From S2P Require Import Metrics Lifecycle Program Blocking BlockingFacts BlockingTheorems BlockingStream.

Section Facts.
Context `{Http} `{UrlCrate} `{HttpDate} `{Codecs} `{!ProxyCrates}.
Context {E C A P Stream Body : Type} `{!Surroundings E C A P} `{!Ureq E Stream Body}.
Context `{!EqDecision C} `{!EqDecision A} `{!EqDecision P}.
Context (c0 : option C) (a0 : option A) (p0 : option P).
Import BlockingStream.
Abbreviation St := (state E C A P).
Abbreviation Prog := (M E C A P).
Abbreviation Strm := (BlockingResponseStream (C := C) (A := A) (P := P) (Body := Body)).
Abbreviation wp := (wp c0 a0 p0).
Implicit Types (st : Strm) (t : tally).

(** ** Streams *)
Definition is_open (st : Strm) : Prop := StreamLifecycle.completed (stream_lifecycle st) = false.

(** A completed stream owns nothing. *)
Record spent (st : Strm) : Prop := {
  spent_lifecycle : stream_lifecycle st =
    {| StreamLifecycle.completion := None; StreamLifecycle.hooks := None; StreamLifecycle.completed := true |};
  spent_global : stream_global_permit st = None;
  spent_host : stream_host_permit st = None;
  spent_body : stream_body st = None;
}.

(** The same stream, further into its body. *)
Record advanced (st st' : Strm) : Prop := {
  adv_lifecycle : stream_lifecycle st' = stream_lifecycle st;
  adv_global : stream_global_permit st' = stream_global_permit st;
  adv_host : stream_host_permit st' = stream_host_permit st;
  adv_method : stream_method st' = stream_method st;
  adv_status : stream_status st' = stream_status st;
  adv_headers : stream_headers st' = stream_headers st;
}.

Lemma advanced_refl st : advanced st st.
Proof. by split. Qed.
Lemma advanced_trans st1 st2 st3 : advanced st1 st2 -> advanced st2 st3 -> advanced st1 st3.
Proof. intros [] []. split; congruence. Qed.

(** Bytes read, and bytes copied. *)
Definition got (l : list Z) (t : tally) : tally :=
  {| errors := errors t; circuits := circuits t; adaptives := adaptives t; permits := permits t;
     destructed := destructed t; sends := sends t; streamed := streamed t; retries := retries t;
     granted := granted t; received := received t ++ l; delivered := delivered t; accounts := accounts t |}.
Definition put (l : list Z) (t : tally) : tally :=
  {| errors := errors t; circuits := circuits t; adaptives := adaptives t; permits := permits t;
     destructed := destructed t; sends := sends t; streamed := streamed t; retries := retries t;
     granted := granted t; received := received t; delivered := delivered t ++ l; accounts := accounts t |}.

Lemma got_nil t : got [] t = t.
Proof. apply tally_eq; simpl; by rewrite ?app_nil_r. Qed.
Lemma got_app l1 l2 t : got l2 (got l1 t) = got (l1 ++ l2) t.
Proof. apply tally_eq; simpl; by rewrite ?app_assoc. Qed.
Lemma put_nil t : put [] t = t.
Proof. apply tally_eq; simpl; by rewrite ?app_nil_r. Qed.
Lemma put_app l1 l2 t : put l2 (put l1 t) = put (l1 ++ l2) t.
Proof. apply tally_eq; simpl; by rewrite ?app_assoc. Qed.
Lemma got_put l1 l2 t : got l1 (put l2 t) = put l2 (got l1 t).
Proof. by apply tally_eq. Qed.

(** The tally after the stream was settled with outcome [o]. *)
Definition closed (o : Metrics.outcome) (now : Instant) (st : Strm) (t : tally) : tally :=
  {| errors := errors t; circuits := circuits t - held_circuit c0 (stream_guards st);
     adaptives := adaptives t - held_adaptive a0 (stream_guards st);
     permits := permits t - held_permit p0 (stream_global_permit st) - held_permit p0 (stream_host_permit st);
     destructed := destructed t; sends := sends t; streamed := streamed t; retries := retries t;
     granted := granted t; received := received t; delivered := delivered t;
     accounts := match StreamLifecycle.completion (stream_lifecycle st) with
                 | Some c => (Metrics.complete_stream o now c (accounts t)).2
                 | None => accounts t
                 end |}.

Lemma closed_advanced o now st st' t : advanced st st' -> closed o now st' t = closed o now st t.
Proof. intros [Hl Hg Hh _ _ _]. unfold closed, stream_guards. by rewrite Hl, Hg, Hh. Qed.

(** ** Settling *)

Lemma tally_of_write (s : St) e ev : tally_of c0 a0 p0 (write s e ev) = note c0 a0 p0 ev (tally_of c0 a0 p0 s).
Proof. done. Qed.

(** The hooks settle the guards by the operation of the outcome. *)
Lemma hooks_outcome_tally c now (h : StreamResilienceHooks C A) (s : St) :
  tally_of c0 a0 p0 (StreamLifecycle.hooks_outcome (StreamOutcomeHooks0 := stream_hooks) c now h s)
  = settled c0 a0 (attempts h) (tally_of c0 a0 p0 s).
Proof.
  destruct h as [budget [ci ad]].
  destruct c as [|e|]; destruct budget, ci as [ci|], ad as [ad|]; cbn -[tally_of write]; rewrite ?tally_of_write;
    apply tally_eq; cbn -[tally_of Z.sub Z.add]; rewrite ?app_nil_r; try done; lia.
Qed.

Lemma wp_on_lifecycle {T} (f : Instant -> St * Metrics.ClientMetrics -> T * (St * Metrics.ClientMetrics)) t Q :
  (forall now (s : St), tally_of c0 a0 p0 s = t ->
     let '(x, (s1, m)) := f now (s, metrics s) in Q x (with_accounts m (tally_of c0 a0 p0 s1))) ->
  wp (on_lifecycle f) t Q.
Proof.
  intros HQ. apply wp_bind, wp_instant_now. intros now s x s' Ht Hs. specialize (HQ now s Ht).
  unfold on_state in Hs. destruct (f now (s, metrics s)) as [y [s1 m]]. injection Hs as <- <-.
  by rewrite tally_of_metrics.
Qed.

(** What the lifecycle of an open stream does, as a tally. *)
Definition finished (o : Metrics.outcome) (now : Instant) (st : Strm) (t : tally) : tally :=
  with_accounts
    match StreamLifecycle.completion (stream_lifecycle st) with
    | Some c => (Metrics.complete_stream o now c (accounts t)).2
    | None => accounts t
    end (settled c0 a0 (stream_guards st) t).

Lemma lifecycle_tally c now (st : Strm) (s : St) :
  is_open st ->
  let '(l, (s1, m)) := StreamLifecycle.complete (StreamOutcomeHooks0 := stream_hooks) c now (stream_lifecycle st)
                         (s, metrics s) in
  l = {| StreamLifecycle.completion := None; StreamLifecycle.hooks := None; StreamLifecycle.completed := true |} /\
  with_accounts m (tally_of c0 a0 p0 s1) =
    finished (StreamLifecycle.outcome_of c) now st (tally_of c0 a0 p0 s).
Proof.
  intros Ho. rewrite StreamLifecycle.complete_fresh by done. split; [done|].
  unfold finished, stream_guards. rewrite tally_accounts. f_equal.
  destruct (StreamLifecycle.hooks (stream_lifecycle st)) as [h|]; [apply hooks_outcome_tally|].
  apply tally_eq; simpl; unfold held_circuit, held_adaptive; simpl; done || lia.
Qed.

Lemma finished_released o now st t :
  finished o now st (released p0 (stream_host_permit st) (released p0 (stream_global_permit st) t))
  = closed o now st t.
Proof. by apply tally_eq. Qed.

Lemma wp_complete c st t (Q : Strm -> tally -> Prop) :
  is_open st -> (forall now st', spent st' -> Q st' (closed (StreamLifecycle.outcome_of c) now st t)) ->
  wp (complete c st) t Q.
Proof.
  intros Ho HQ. apply wp_bind, wp_bind, wp_drop_permit, wp_bind, wp_drop_permit, wp_ret. apply wp_bind, wp_on_lifecycle.
  intros now s Ht. pose proof (lifecycle_tally c now st s Ho) as Hl. simpl.
  destruct (StreamLifecycle.complete _ _ _ _) as [l [s1 m]]. destruct Hl as [-> ->]. apply wp_ret.
  rewrite Ht, finished_released. apply HQ. by split.
Qed.

Lemma wp_drop_spent st t (Q : unit -> tally -> Prop) : spent st -> Q tt t -> wp (drop st) t Q.
Proof.
  intros [Hl Hg Hh _] HQ. unfold drop. rewrite Hl, Hg, Hh. apply wp_bind, wp_on_lifecycle. intros now s <-. simpl.
  apply wp_bind, wp_ret, wp_ret. rewrite <- (tally_accounts c0 a0 p0). by destruct (tally_of c0 a0 p0 s).
Qed.

Lemma wp_drop_open st t (Q : unit -> tally -> Prop) :
  is_open st -> (forall now, Q tt (closed Metrics.Canceled now st t)) -> wp (drop st) t Q.
Proof.
  intros Ho HQ. apply wp_bind, wp_on_lifecycle. intros now s Ht.
  pose proof (lifecycle_tally StreamLifecycle.Cancel now st s Ho) as Hl. unfold StreamLifecycle.drop.
  unfold StreamLifecycle.complete in Hl. destruct (StreamLifecycle.complete_canceled _ _ _) as [l [s1 m]].
  destruct Hl as [-> Hl]. simpl in *. rewrite Hl, Ht.
  apply wp_bind, wp_drop_permit, wp_drop_permit. by apply HQ.
Qed.

(** ** Reading *)
Lemma wp_ensure_within_deadline st t (Q : result unit Error.t -> tally -> Prop) :
  (forall r, Q r t) -> wp (ensure_within_deadline st) t Q.
Proof.
  intros HQ. unfold ensure_within_deadline. destruct (deadline_at st); [|by apply wp_ret].
  apply wp_bind, wp_instant_now. intros now. by apply wp_ret.
Qed.

(** A read hands over bytes, or fails and leaves a spent stream. *)
Definition chunk_post (st : Strm) (t : tally) (Q : result (list Z) Error.t * Strm -> tally -> Prop) : Prop :=
  (forall bytes st', advanced st st' -> Q (Ok bytes, st') (got bytes t)) /\
  (forall e st' now bytes, spent st' -> Q (Err e, st') (closed (Metrics.Failed e) now st (got bytes t))).

Lemma wp_complete_error {T} e st st0 t (Q : result T Error.t * Strm -> tally -> Prop) :
  is_open st0 -> advanced st0 st ->
  (forall st' now, spent st' -> Q (Err e, st') (closed (Metrics.Failed e) now st0 t)) ->
  wp (st' ← complete_error e st; mret (Err e, st')) t Q.
Proof.
  intros Ho Ha HQ. apply wp_bind, wp_complete.
  - unfold is_open. by rewrite (adv_lifecycle _ _ Ha).
  - intros now st' Hs. apply wp_ret. rewrite (closed_advanced _ _ _ _ _ Ha). by apply HQ.
Qed.

(** At the end of the body a read may complete the stream. *)
Lemma wp_read_loop retries size eof st t Q :
  is_open st -> chunk_post st t Q ->
  (eof = true -> forall st' now, spent st' -> Q (Ok [], st') (closed (Metrics.Succeeded 0) now st t)) ->
  wp (read_loop retries size eof st) t Q.
Proof.
  intros Ho [Hok Herr] Heof. revert st Ho Hok Herr Heof.
  induction retries as [|retries IH]; intros st Ho Hok Herr Heof; [by intros s a s' _|].
  simpl. apply wp_bind, wp_ensure_within_deadline. intros [u|e].
  2: { apply (wp_complete_error e st st); [done|apply advanced_refl|]. intros st' now Hs. rewrite <- (got_nil t). by apply Herr. }
  apply wp_bind. apply (wp_mono _ _ _ _ _ (fun _ t' => t' = t)).
  { unfold current_read_is_deadline_limited. destruct (deadline_at st); [|by apply wp_ret].
    apply wp_bind, wp_instant_now. intros now. by apply wp_ret. }
  intros limited ? ->. destruct (stream_body st) as [b|].
  2: { apply wp_ret. rewrite <- (got_nil t). apply Hok, advanced_refl. }
  apply wp_bind, wp_act. intros [[bytes|source] b']; simpl.
  - assert (note c0 a0 p0 (ChunkRead bytes) t = got bytes t) as ->
      by (apply tally_eq; simpl; rewrite ?app_nil_r; done || lia).
    apply wp_bind, wp_ensure_within_deadline. intros [u'|e].
    + apply wp_bind. destruct (bool_decide (bytes = []) && eof) eqn:He; [|apply wp_ret, wp_ret; by apply Hok].
      apply andb_true_iff in He as [He ?]. apply bool_decide_eq_true in He as ->. rewrite got_nil.
      apply wp_complete; [done|]. intros now st' Hs. apply wp_ret. by apply Heof.
    + apply (wp_complete_error e _ st); [done|by split|]. intros st' now Hs. by apply Herr.
  - apply wp_if; intros _.
    + apply IH; [done| | |].
      * intros bytes st' Ha. apply Hok. destruct Ha. by split.
      * intros e st' now bytes Hs. by apply (Herr e st' now bytes).
      * intros He st' now Hs. by apply (Heof He st' now).
    + apply wp_bind. unfold map_read_error. apply wp_bind, wp_instant_now. intros now. apply wp_ret.
      match goal with |- wp (_ ← complete_error ?e _; _) _ _ => apply (wp_complete_error e _ st) end; [done|by split|].
      intros st' now' Hs. rewrite <- (got_nil t). by apply Herr.
Qed.

Lemma wp_read_chunk_internal retries size st t Q :
  is_open st -> chunk_post st t Q -> wp (read_chunk_internal retries size false st) t Q.
Proof.
  intros Ho HQ. apply wp_if; intros _; [|by apply wp_read_loop].
  apply wp_ret. rewrite <- (got_nil t). apply HQ, advanced_refl.
Qed.

(** ** Buffering *)
Lemma wp_collect_loop chunks retries max_bytes collected st t (Q : result (list Z) Error.t * Strm -> tally -> Prop) :
  is_open st ->
  (forall bytes st', advanced st st' ->
     (max_bytes < usize_max -> Z.of_nat (length collected) <= max_bytes ->
      Z.of_nat (length (collected ++ bytes)) <= max_bytes) ->
     Q (Ok (collected ++ bytes), st') (got bytes t)) ->
  (forall e st' now bytes, spent st' -> Q (Err e, st') (closed (Metrics.Failed e) now st (got bytes t))) ->
  wp (collect_loop chunks retries max_bytes collected st) t Q.
Proof.
  revert collected st t. induction chunks as [|chunks IH]; intros collected st t Ho Hok Herr; [by intros s a s' _|].
  simpl. apply wp_bind, wp_read_chunk_internal; [done|]. split.
  2: { intros e st' now bytes Hs. apply wp_ret. by apply Herr. }
  intros [|b bs] st' Ha.
  - apply wp_ret. rewrite <- (app_nil_r collected) at 1. apply Hok; [done|]. by rewrite app_nil_r.
  - apply wp_if; intros Hlim.
    + apply (wp_complete_error _ _ st); [done|done|]. intros st2 now Hs. by apply Herr.
    + apply IH.
      * unfold is_open. by rewrite (adv_lifecycle _ _ Ha).
      * intros bytes st2 Ha2 Hlen. rewrite got_app, <- app_assoc. apply Hok; [by eapply advanced_trans|].
        intros Hm _. rewrite app_assoc. apply Hlen; [done|]. unfold sat_add in Hlim. rewrite length_app. zbool. lia.
      * intros e st2 now bytes Hs. rewrite got_app, (closed_advanced _ _ _ _ _ Ha). by apply Herr.
Qed.

(** What an operation that consumes a stream does: it settles the stream with the
    outcome it reports. *)
Definition consumed {T} (st : Strm) t (ok : T -> tally -> tally -> Prop) (r : result T Error.t) (t' : tally) : Prop :=
  match r with
  | Ok a => exists now t1, ok a t t1 /\ t' = closed (Metrics.Succeeded 0) now st t1
  | Err e => exists now t1, t' = closed (Metrics.Failed e) now st t1 /\
      exists l1 l2, t1 = put l2 (got l1 t) /\ l2 `prefix_of` l1
  end.

Lemma consumed_error {T} st t (ok : T -> tally -> tally -> Prop) e now l :
  consumed st t ok (Err e) (closed (Metrics.Failed e) now st (got l t)).
Proof. exists now, (got l t). split; [done|]. exists l, []. rewrite put_nil. split; [done|apply prefix_nil]. Qed.

Lemma wp_finish {T} st st0 (a : T) t (Q : result T Error.t -> tally -> Prop) :
  is_open st0 -> advanced st0 st -> (forall now, Q (Ok a) (closed (Metrics.Succeeded 0) now st0 t)) ->
  wp (st' ← complete_success st; _ ← drop st'; mret (Ok a)) t Q.
Proof.
  intros Ho Ha HQ. apply wp_bind, wp_complete; [unfold is_open; by rewrite (adv_lifecycle _ _ Ha)|].
  intros now st' Hs. apply wp_bind, wp_drop_spent; [done|]. apply wp_ret. by rewrite (closed_advanced _ _ _ _ _ Ha).
Qed.

Lemma wp_fail_with {T} e st st0 t (Q : result T Error.t -> tally -> Prop) :
  is_open st0 -> advanced st0 st -> (forall now, Q (Err e) (closed (Metrics.Failed e) now st0 t)) ->
  wp (fail_with e st) t Q.
Proof.
  intros Ho Ha HQ. apply wp_bind, wp_complete; [unfold is_open; by rewrite (adv_lifecycle _ _ Ha)|].
  intros now st' Hs. apply wp_bind, wp_drop_spent; [done|]. apply wp_ret. by rewrite (closed_advanced _ _ _ _ _ Ha).
Qed.

Lemma wp_into_bytes_limited chunks retries max_bytes st t :
  is_open st ->
  wp (into_bytes_limited chunks retries max_bytes st) t
    (consumed st t (fun bytes t t1 => t1 = got bytes t /\
       (0 <= max_bytes < usize_max -> Z.of_nat (length bytes) <= max_bytes))).
Proof.
  intros Ho. apply wp_bind, wp_collect_loop; [done| |].
  - intros bytes st' Ha Hlen. apply (wp_finish _ st); [done|done|]. intros now. exists now, (got bytes t). split; [|done].
    split; [done|]. intros Hm. apply Hlen; [lia|simpl; lia].
  - intros e st' now bytes Hs. apply wp_bind, wp_drop_spent; [done|]. apply wp_ret, consumed_error.
Qed.

Lemma wp_into_response_limited f chunks retries max_bytes st t :
  is_open st ->
  wp (into_response_limited f chunks retries max_bytes st) t
    (consumed st t (fun response t t1 => exists wire, t1 = got wire t /\
       (if should_decode_content_encoded_body (stream_method st) (stream_status st) (Z.of_nat (length wire))
        then decode_content_encoded_body_limited f wire (stream_headers st) max_bytes = Ok (body response)
        else body response = wire))).
Proof.
  intros Ho. apply wp_bind, wp_collect_loop; [done| |].
  2: { intros e st' now bytes Hs. apply wp_bind, wp_drop_spent; [done|]. apply wp_ret, consumed_error. }
  intros wire st' Ha _. assert (forall e, wp (fail_with e st') (got wire t) (consumed st t (fun response t t1 =>
    exists wire, t1 = got wire t /\
       (if should_decode_content_encoded_body (stream_method st) (stream_status st) (Z.of_nat (length wire))
        then decode_content_encoded_body_limited f wire (stream_headers st) max_bytes = Ok (body response)
        else body response = wire)))) as Hfail.
  { intros e. apply (wp_fail_with _ _ st); [done|done|]. intros now. apply consumed_error. }
  apply wp_bind, wp_ensure_within_deadline. intros [u|e]; [|apply Hfail].
  rewrite (adv_method _ _ Ha), (adv_status _ _ Ha), (adv_headers _ _ Ha). simpl.
  destruct (if should_decode_content_encoded_body _ _ _ then _ else _) as [decoded|e] eqn:Hdec; [|apply Hfail].
  apply wp_bind, wp_ensure_within_deadline. intros [u'|e]; [|apply Hfail].
  apply (wp_finish _ st); [done|done|]. intros now. exists now, (got wire t). split; [|done]. exists wire. split; [done|].
  simpl. destruct (should_decode_content_encoded_body _ _ _); [done|congruence].
Qed.

(** ** Copying *)
Lemma wp_write_with_deadline op written st st0 t (Q : result unit Error.t * Strm -> tally -> Prop) :
  is_open st0 -> advanced st0 st -> Q (Ok tt, st) (put written t) ->
  (forall e st' now l, spent st' -> l `prefix_of` written -> Q (Err e, st') (closed (Metrics.Failed e) now st0 (put l t))) ->
  wp (write_with_deadline op written st) t Q.
Proof.
  intros Ho Ha Hok Herr. apply wp_bind, wp_ensure_within_deadline. intros [u|e].
  2: { apply wp_bind, wp_ret. apply (wp_complete_error _ _ st0); [done|done|]. intros st' now Hs. rewrite <- (put_nil t).
       apply Herr; [done|apply prefix_nil]. }
  apply wp_bind, wp_bind, wp_act. intros [u'|source]; simpl.
  - assert (note c0 a0 p0 (ChunkWritten written) t = put written t) as ->
      by (apply tally_eq; simpl; rewrite ?app_nil_r; done || lia).
    apply wp_ensure_within_deadline. intros [u''|e]; [by apply wp_ret|].
    apply (wp_complete_error _ _ st0); [done|done|]. intros st' now Hs. by apply Herr.
  - apply wp_ret. apply (wp_complete_error _ _ st0); [done|done|]. intros st' now Hs. rewrite <- (put_nil t).
    apply Herr; [done|apply prefix_nil].
Qed.

Definition within (limit : option Z) (n : Z) : Prop := match limit with Some max => n <= max | None => True end.

Lemma wp_copy_loop chunks retries writer limit copied st t (Q : result Z Error.t * Strm -> tally -> Prop) :
  is_open st ->
  (forall l st' n, advanced st st' ->
     (copied + Z.of_nat (length l) <= u64_max -> n = copied + Z.of_nat (length l)) -> (within limit copied -> within limit n) ->
     Q (Ok n, st') (put l (got l t))) ->
  (forall e st' now l1 l2, spent st' -> l2 `prefix_of` l1 ->
     Q (Err e, st') (closed (Metrics.Failed e) now st (put l2 (got l1 t)))) ->
  wp (copy_loop chunks retries writer limit copied st) t Q.
Proof.
  revert copied st t. induction chunks as [|chunks IH]; intros copied st t Ho Hok Herr; [by intros s a s' _|].
  simpl. apply wp_bind, wp_read_chunk_internal; [done|]. split.
  2: { intros e st' now bytes Hs. apply wp_ret. rewrite <- (put_nil (got bytes t)). apply Herr; [done|apply prefix_nil]. }
  intros [|b bs] st' Ha.
  { apply wp_ret. rewrite <- (put_nil (got [] t)). apply Hok; [done| |done]. simpl. lia. }
  set (chunk := b :: bs). set (n := sat_add u64_max copied (Z.of_nat (length chunk))).
  assert (within limit n -> wp
    ('(w, st2) ← write_with_deadline (write_all writer chunk) chunk st';
     match w with Err error => mret (Err error, st2) | Ok _ => copy_loop chunks retries writer limit n st2 end)
    (got chunk t) Q) as Hgo.
  { intros Hw. apply wp_bind, (wp_write_with_deadline _ _ _ st); [done|done| |].
    - apply IH.
      + unfold is_open. by rewrite (adv_lifecycle _ _ Ha).
      + intros l st2 m Ha2 Hm Hlim. rewrite got_put, put_app, got_app. apply Hok; [by eapply advanced_trans| |].
        * rewrite length_app. intros Hle. rewrite Hm; unfold n, sat_add in *; lia.
        * intros _. by apply Hlim.
      + intros e st2 now l1 l2 Hs Hpre. rewrite got_put, put_app, got_app, (closed_advanced _ _ _ _ _ Ha).
        apply Herr; [done|]. by apply prefix_app.
    - intros e st2 now l Hs Hpre. apply wp_ret. by apply Herr. }
  destruct limit as [max|]; [|by apply Hgo]. apply wp_if; intros Hlim.
  - apply (wp_complete_error _ _ st); [done|done|]. intros st2 now Hs. rewrite <- (put_nil (got chunk t)).
    apply Herr; [done|apply prefix_nil].
  - apply Hgo. simpl. fold chunk n in Hlim. zbool. lia.
Qed.

Lemma wp_copy_with chunks retries writer limit st t :
  is_open st ->
  wp (copy_with chunks retries writer limit st) t
    (consumed st t (fun n t t1 => exists l, t1 = put l (got l t) /\
       (Z.of_nat (length l) <= u64_max -> n = Z.of_nat (length l)) /\ (within limit 0 -> within limit n))).
Proof.
  intros Ho. apply wp_bind, wp_copy_loop; [done| |].
  - intros l st' n Ha Hn Hlim. apply wp_bind, (wp_write_with_deadline _ _ _ st); [done|done| |].
    + rewrite put_nil. apply (wp_finish _ st); [done|done|]. intros now. exists now, (put l (got l t)). split; [|done].
      exists l. split; [done|]. split; [|done]. intros Hle. rewrite Hn; lia.
    + intros e st2 now l' Hs ->%prefix_nil_inv. apply wp_bind, wp_drop_spent; [done|]. apply wp_ret.
      exists now, (put l (got l t)). rewrite put_nil. split; [done|]. by exists l, l.
  - intros e st' now l1 l2 Hs Hpre. apply wp_bind, wp_drop_spent; [done|]. apply wp_ret.
    exists now, (put l2 (got l1 t)). split; [done|]. by exists l1, l2.
Qed.

(** ** A reader: reads of any sizes, then the drop *)
Fixpoint read_then_drop (sizes : list Z) (retries : nat) (st : Strm) : Prog unit :=
  match sizes with
  | [] => drop st
  | size :: sizes => '(_, st) ← read_chunk retries size st; read_then_drop sizes retries st
  end.

Lemma wp_read_spent sizes retries st t (Q : unit -> tally -> Prop) :
  spent st -> Q tt t -> wp (read_then_drop sizes retries st) t Q.
Proof.
  intros Hs HQ. induction sizes as [|size sizes IH]; [by apply wp_drop_spent|]. simpl. apply wp_bind.
  unfold read_chunk, read_chunk_internal. rewrite (spent_body _ Hs), orb_true_r. by apply wp_ret.
Qed.

Lemma wp_read_then_drop sizes retries st t :
  is_open st ->
  wp (read_then_drop sizes retries st) t (fun _ t' => exists o now l, t' = closed o now st (got l t)).
Proof.
  revert st t. induction sizes as [|size sizes IH]; intros st t Ho.
  - apply wp_drop_open; [done|]. intros now. exists Metrics.Canceled, now, []. by rewrite got_nil.
  - simpl. apply wp_bind. unfold read_chunk, read_chunk_internal. apply wp_if; intros _.
    + apply wp_ret. by apply IH.
    + apply wp_read_loop; [done|split|].
      * intros bytes st' Ha. eapply wp_mono; [apply IH; unfold is_open; by rewrite (adv_lifecycle _ _ Ha)|].
        intros u t' (o & now & l & ->). exists o, now, (bytes ++ l). by rewrite (closed_advanced _ _ _ _ _ Ha), got_app.
      * intros e st' now bytes Hs. apply wp_read_spent; [done|]. by exists (Metrics.Failed e), now, bytes.
      * intros _ st' now Hs. apply wp_read_spent; [done|]. exists (Metrics.Succeeded 0), now, []. by rewrite got_nil.
Qed.

(** ** Everything a caller may do with a stream *)
Inductive use :=
| CopyTo (writer : Writer E)
| CopyToLimited (writer : Writer E) (max_bytes : Z)
| IntoBytes (max_bytes : Z)
| IntoResponse (f : Features) (max_bytes : Z)
| ReadThenDrop (sizes : list Z).

Definition consume (u : use) (chunks retries : nat) (st : Strm) : Prog unit :=
  match u with
  | CopyTo writer => _ ← copy_to_writer chunks retries writer st; mret tt
  | CopyToLimited writer max_bytes => _ ← copy_to_writer_limited chunks retries writer max_bytes st; mret tt
  | IntoBytes max_bytes => _ ← into_bytes_limited chunks retries max_bytes st; mret tt
  | IntoResponse f max_bytes => _ ← into_response_limited f chunks retries max_bytes st; mret tt
  | ReadThenDrop sizes => read_then_drop sizes retries st
  end.

Lemma consumed_closed {T} st t (ok : T -> tally -> tally -> Prop) r t' :
  consumed st t ok r t' -> (forall a t1, ok a t t1 -> exists l1 l2, t1 = put l2 (got l1 t)) ->
  exists o now l1 l2, t' = closed o now st (put l2 (got l1 t)).
Proof.
  intros Hc Hok. destruct r as [a|e]; simpl in Hc.
  - destruct Hc as (now & t1 & Hr & ->). destruct (Hok a t1 Hr) as (l1 & l2 & ->). eauto.
  - destruct Hc as (now & t1 & -> & l1 & l2 & -> & _). eauto.
Qed.

Lemma wp_consume u chunks retries st t :
  is_open st ->
  wp (consume u chunks retries st) t (fun _ t' => exists o now l1 l2, t' = closed o now st (put l2 (got l1 t))).
Proof.
  intros Ho. destruct u as [w|w m|m|f m|sizes]; simpl.
  - apply wp_bind. eapply wp_mono; [by apply wp_copy_with|]. intros r t' Hr. apply wp_ret.
    eapply consumed_closed; [exact Hr|]. intros n t1 (l & -> & _). by exists l, l.
  - apply wp_bind. eapply wp_mono; [by apply wp_copy_with|]. intros r t' Hr. apply wp_ret.
    eapply consumed_closed; [exact Hr|]. intros n t1 (l & -> & _). by exists l, l.
  - apply wp_bind. eapply wp_mono; [by apply wp_into_bytes_limited|]. intros r t' Hr. apply wp_ret.
    eapply consumed_closed; [exact Hr|]. intros l t1 (-> & _). exists l, []. by rewrite put_nil.
  - apply wp_bind. eapply wp_mono; [by apply wp_into_response_limited|]. intros r t' Hr. apply wp_ret.
    eapply consumed_closed; [exact Hr|]. intros x t1 (l & -> & _). exists l, []. by rewrite put_nil.
  - eapply wp_mono; [by apply wp_read_then_drop|]. intros _ t' (o & now & l & ->). exists o, now, l, []. by rewrite put_nil.
Qed.

End Facts.

(** ** The guarantees *)
Section Theorems.
Context `{Http} `{UrlCrate} `{HttpDate} `{Codecs} `{!ProxyCrates}.
Context {E C A P Stream Body : Type} `{!Surroundings E C A P} `{!Ureq E Stream Body}.
Context `{!EqDecision C} `{!EqDecision A} `{!EqDecision P}.
Import BlockingStream.
Abbreviation Strm := (BlockingResponseStream (C := C) (A := A) (P := P) (Body := Body)).
Implicit Types (st : Strm) (s : state E C A P).

(** The metrics once the stream's entry is completed with [o]. *)
Definition stream_metrics (o : Metrics.outcome) (now : Instant) st (m : Metrics.ClientMetrics) : Metrics.ClientMetrics :=
  match StreamLifecycle.completion (stream_lifecycle st) with
  | Some c => (Metrics.complete_stream o now c m).2
  | None => m
  end.

(** The outcome an operation reports. *)
Definition reported {T} (r : result T Error.t) : Metrics.outcome :=
  match r with Ok _ => Metrics.Succeeded 0 | Err e => Metrics.Failed e end.

Lemma closed_log o now st s s' l1 l2 :
  tally_of None None None s' = closed None None None o now st (put l2 (got l1 (tally_of None None None s))) ->
  bytes_read (log s') = bytes_read (log s) ++ l1 /\ bytes_written (log s') = bytes_written (log s) ++ l2 /\
  metrics s' = stream_metrics o now st (metrics s).
Proof.
  intros Ht. destruct (tally_bytes None None None s) as [R W]. destruct (tally_bytes None None None s') as [R' W'].
  pose proof (tally_accounts None None None s') as Ha. rewrite Ht in R', W', Ha. simpl in *.
  rewrite tally_accounts in Ha.
  split_and!; [by rewrite <- R', R|by rewrite <- W', W|by rewrite <- Ha].
Qed.

(** C14: Copying a stream into a writer is faithful: on success the writer was given
    exactly the bytes read from the transport, in order, their number is returned
    and stays within the limit; on failure it was given a prefix of them; and the
    metrics record the outcome that is reported, success or that very error, once.
    *)
Theorem stream_copy_faithful chunks retries (writer : Writer E) limit st s r s' :
  is_open st -> copy_with chunks retries writer limit st s = Some (r, s') ->
  exists l1 l2 now,
    bytes_read (log s') = bytes_read (log s) ++ l1 /\ bytes_written (log s') = bytes_written (log s) ++ l2 /\
    metrics s' = stream_metrics (reported r) now st (metrics s) /\
    match r with
    | Ok n => l2 = l1 /\ (Z.of_nat (length l1) <= u64_max -> n = Z.of_nat (length l1)) /\
              (within limit 0 -> within limit n)
    | Err _ => l2 `prefix_of` l1
    end.
Proof.
  intros Ho Hs. pose proof (wp_copy_with None None None chunks retries writer limit st _ Ho s r s' eq_refl Hs) as Hr.
  destruct r as [n|e]; simpl in Hr.
  - destruct Hr as (now & t1 & (l & -> & Hn & Hlim) & Ht). apply closed_log in Ht as (HR & HW & HM).
    exists l, l, now. done.
  - destruct Hr as (now & t1 & Ht & l1 & l2 & -> & Hpre). apply closed_log in Ht as (HR & HW & HM).
    exists l1, l2, now. done.
Qed.

(** Buffering a stream is bounded and exact: the bytes it returns are those read
    from the transport, in order, and no more than the limit; the metrics record the
    outcome that is reported. *)
Lemma stream_bytes_within_limit chunks retries max_bytes st s r s' :
  is_open st -> 0 <= max_bytes < usize_max ->
  into_bytes_limited chunks retries max_bytes st s = Some (r, s') ->
  (exists now, metrics s' = stream_metrics (reported r) now st (metrics s)) /\
  match r with
  | Ok bytes => bytes_read (log s') = bytes_read (log s) ++ bytes /\ Z.of_nat (length bytes) <= max_bytes
  | Err _ => True
  end.
Proof.
  intros Ho Hm Hs. pose proof (wp_into_bytes_limited None None None chunks retries max_bytes st _ Ho s r s' eq_refl Hs) as Hr.
  destruct r as [bytes|e]; simpl in Hr.
  - destruct Hr as (now & t1 & (-> & Hlen) & Ht). rewrite <- (put_nil (got bytes _)) in Ht.
    apply closed_log in Ht as (HR & _ & HM). split; [by exists now|]. split; [done|]. by apply Hlen.
  - destruct Hr as (now & t1 & Ht & l1 & l2 & -> & _). apply closed_log in Ht as (_ & _ & HM). split; [by exists now|done].
Qed.

(** ** A streamed request and the use of its stream *)
Section Session.
Context (client : Client (E := E)) (fuel rate_fuel chunks retries : nat) (method : Method) (path : str) (headers : HeaderMap).
Context (body : option (RequestBody Stream)) (overrides : RequestExecutionOverrides) (u : use (E := E)).

Definition stream_session : M E C A P unit :=
  r ← send_request_stream client fuel rate_fuel method path headers body overrides;
  match r with Ok st => consume u chunks retries st | Err _ => mret tt end.

(** The two ledger steps that end a stream. *)
Lemma ledger_complete o now c m ps cs :
  rtc Metrics.step (ledger m ps (c :: cs)) (ledger (Metrics.complete_stream o now c m).2 ps cs).
Proof.
  destruct (Metrics.complete_stream o now c m) as [c' m'] eqn:Hc.
  eapply rtc_l; [exact (Metrics.step_complete_stream m ps [] c cs o now c' m' Hc)|].
  assert (Metrics.drop_stream_completion now c' m' = m') as Hd.
  { destruct o; simpl in Hc;
      unfold Metrics.stream_complete_success, Metrics.stream_complete_error, Metrics.stream_complete_canceled in Hc;
      match type of Hc with Metrics.complete_with ?r ?n ?x ?y = _ =>
        pose proof (StreamLifecycle.drop_after_complete_with r n x y now) as Hd end; by rewrite Hc in Hd. }
  apply rtc_once. rewrite <- Hd at 2. exact (Metrics.step_drop_stream m' ps [] c' cs now).
Qed.

Lemma wp_stream_session c0 a0 p0 ps cs t :
  wp c0 a0 p0 stream_session t (fun _ t' =>
    rtc Metrics.step (ledger (accounts t) ps cs) (ledger (accounts t') ps cs) /\
    circuits t' = circuits t /\ adaptives t' = adaptives t /\ permits t' = permits t /\ destructed t' = destructed t).
Proof.
  apply wp_bind. eapply wp_mono; [apply (wp_send_request_stream client fuel rate_fuel _ _ _ _ _ c0 a0 p0 t ps cs)|].
  intros [st|e] t1 [Hl Ho Hc Ha Hp Hd _]; simpl in *.
  - destruct Ho as [Ho Hcomp]. eapply wp_mono; [by apply wp_consume|]. intros _ t' (o & now & l1 & l2 & ->). simpl.
    split; [|lia]. destruct (StreamLifecycle.completion (stream_lifecycle st)) as [c|]; [|done].
    etransitivity; [exact Hl|]. apply (ledger_complete o now c).
  - apply wp_ret. unfold held_circuit, held_adaptive in *. simpl in *. split; [done|lia].
Qed.

(** C12: Streaming leaves nothing behind either: whatever the caller does with the
    stream of a request (copy it, buffer it, read from it and drop it at any point),
    once it is consumed every circuit attempt, adaptive permit and limiter permit of
    the request has been given back, no attempt guard by its destructor, and the
    metrics ledger has no entry left for it. *)
Theorem streamed_session_settles s s' c a p ps cs :
  stream_session s = Some (tt, s') ->
  rtc Metrics.step (ledger (metrics s) ps cs) (ledger (metrics s') ps cs) /\
  added (circuit_began c) s s' = added (circuit_ended c) s s' /\
  added (adaptive_began a) s s' = added (adaptive_ended a) s s' /\
  added (permit_taken p) s s' = added (permit_dropped p) s s' /\
  added by_destructor s s' = 0.
Proof.
  intros Hs. destruct (wp_stream_session (Some c) (Some a) (Some p) ps cs _ s tt s' eq_refl Hs) as (Hl & Hc & Ha & Hp & Hd).
  rewrite !tally_accounts in Hl. rewrite !tally_circuits in Hc. rewrite !tally_adaptives in Ha.
  rewrite !tally_permits in Hp. rewrite !tally_destructed in Hd. unfold added. split; [done|lia].
Qed.

End Session.
End Theorems.
