(* ===== verification/BlockingDemo.v ===== *)
(** * Runs of the blocking client

    A scripted transport, a clock that ticks with every operation and controls that
    hand out numbered tokens: the runs the theorems of [BlockingTheorems],
    [BlockingReturns] and [BlockingStreamTheorems] are applied to. *)
From Stdlib Require Import Ascii String.
From S2P Require Import Prelude Float64 Text HttpApi UriText Errors Redaction UriResolve Redirect Proxy.
From S2P Require Import Headers ContentEncoding Timing Responses Retry RetryBudget RateLimit Execution Limiters.
From S2P Require Import Metrics Lifecycle Program Blocking BlockingFacts BlockingTheorems Walk Returns BlockingReturns.
From S2P Require Import BlockingStream BlockingStreamTheorems.

Module BlockingDemo.
#[export] Existing Instance ref_http.
#[export] Existing Instance ref_url.
#[export] Existing Instance ExecutionDemo.no_dates.
#[export] Existing Instance EncodingDemo.codecs.
#[export] Existing Instance ProxyDemo.crates.

(** The time, the next token, and what the transport will answer. *)
Record world := {
  time : Z;
  token : Z;
  script : list (result (HttpResponse (list Z)) UreqErrorKind);
}.

Definition tick (d : Z) (w : world) : world := {| time := time w + d; token := token w; script := script w |}.
Definition take (w : world) : Z * world :=
  (token w, {| time := time w + 1; token := token w + 1; script := script w |}).

#[export] Instance surroundings : Surroundings world Z Z Z := {
  env_now w := (time w, tick 1 w);
  env_now_system w := (time w, w);
  env_sampler w := (fun lo _ => lo, w);
  env_sleep d w := tick (Z.max 0 d) w;
  env_rate_delay _ w := (if Z.even (time w) then 0 else 3, tick 1 w);
  env_rate_throttle _ _ scope _ w := (scope, w);
  env_acquire_global _ w := let '(n, w) := take w in (Ok (Some n), w);
  env_acquire_host _ _ w := let '(n, w) := take w in (Ok (Some n), w);
  env_drop_permit _ w := w;
  env_circuit_begin w := let '(n, w) := take w in (Ok n, w);
  env_circuit_end _ _ w := w;
  env_adaptive_acquire _ w := let '(n, w) := take w in (Some n, w);
  env_adaptive_end _ _ w := w;
  env_budget_consume w := (true, w);
  env_budget_success w := w;
}.

Definition failure (k : UreqErrorKind) : UreqError :=
  {| ureq_kind := k; ureq_boxed := Dyn OtherError (lit "failed") None None |}.

#[export] Instance scripted : Ureq world unit (list Z) := {
  ureq_build _ _ _ := None;
  ureq_run _ _ _ _ _ _ _ w :=
    match script w with
    | [] => (Err (failure UreqHostNotFound), tick 1 w)
    | answer :: script =>
      (match answer with Ok r => Ok r | Err k => Err (failure k) end,
       {| time := time w + 1; token := token w; script := script |})
    end;
  ureq_read body w := ([Ok body], tick 1 w);
  ureq_read_chunk n body w := ((Ok (firstn (Z.to_nat n) body), skipn (Z.to_nat n) body), tick 1 w);
  wraps_ureq_timeout _ := false;
}.

Definition quiet : Interceptor world :=
  {| on_request _ h w := (h, tick 1 w); on_response _ _ _ w := tick 1 w; on_error _ _ w := tick 1 w |}.
Definition silent : Observer world :=
  {| on_request_start _ w := w; on_retry_scheduled _ _ _ w := w; on_server_throttle _ _ _ w := w |}.

Definition client_of (o : RequestExecutionOptions) : Client (E := world) := {|
  features := EncodingDemo.features; tls_features := {| blocking_tls_rustls := true; blocking_tls_native := false |};
  endpoint_selector := None; base_url := lit "http://a.example"; default_headers := [];
  request_defaults := o; buffered_auto_accept_encoding := true; stream_auto_accept_encoding := false;
  interceptors := [quiet]; observers := [silent]; has_rate_limiter := true; has_request_limiters := true;
  has_circuit_breaker := true; has_adaptive_concurrency := true; has_retry_budget := true;
  server_throttle_scope := RateLimit.Auto; retry_eligibility := PermissiveRetryEligibility;
  backoff_source := None; proxy_config := None; has_proxy_agent := false;
  connect_timeout := duration_from_secs 1; stream_deadline_slack := 0;
|}.

Definition client := client_of ExecutionDemo.demo_options.

Definition answer (status : StatusCode) (headers : HeaderMap) (body : list Z) : HttpResponse (list Z) :=
  {| response_status := status; response_headers := headers; response_body := body |}.

Definition start (answers : list (result (HttpResponse (list Z)) UreqErrorKind)) : state world Z Z Z :=
  {| env := {| time := 0; token := 0; script := answers |}; metrics := Metrics.with_options true; log := [] |}.
Definition ok_status : StatusCode := 200 ↾ eq_refl.
(** A failed connection, a redirect, then an answer. *)
Definition answers : list (result (HttpResponse (list Z)) UreqErrorKind) :=
  [Err UreqConnectionFailed; Ok (answer FOUND ExecutionDemo.response_headers []); Ok (answer ok_status [] [1; 2])].

Abbreviation run answers mode :=
  (send_request_with_retry_mode client 13 2 (ExecutionDemo.input (Buffered [])) mode (Some (-1)) 0 (start answers)).

(** The entry points, on a path below the base URL. *)
Definition no_overrides : RequestExecutionOverrides :=
  {| o_request_timeout := None; o_total_timeout := None; o_retry_policy := None;
     o_max_response_body_bytes := None; o_redirect_policy := None; o_status_policy := None;
     o_auto_accept_encoding := None |}.
Abbreviation buffered_run := (send_request client 13 2 GET (lit "/") [] None no_overrides (start answers)).
Abbreviation stream_run := (send_request_stream client 13 2 GET (lit "/") [] None no_overrides (start answers)).

(** A stream over three bytes with a deadline, and a writer that takes everything. *)
Definition demo_stream : BlockingResponseStream (C := Z) (A := Z) (P := Z) (Body := list Z) := {|
  stream_status := ok_status; stream_headers := hm_new; stream_body := Some [7; 8; 9];
  stream_method := GET; stream_uri_raw := lit "http://a.example/"; stream_uri_redacted := lit "http://a.example/";
  stream_timeout_ms := 10; stream_timing_of := stream_timing (Some (duration_from_secs 60)) 0; stream_slack := 0;
  stream_lifecycle := StreamLifecycle.default; stream_global_permit := Some 1; stream_host_permit := None;
|}.
Definition sink : Writer world := {| write_all _ w := (Ok tt, tick 1 w); flush w := (Ok tt, w) |}.
Abbreviation copied := (BlockingStream.copy_with 3 2 sink (Some 10) demo_stream (start [])).
Abbreviation buffered := (BlockingStream.into_bytes_limited 3 2 10 demo_stream (start [])).
Abbreviation session :=
  (stream_session client 13 2 3 2 GET (lit "/") [] None no_overrides (IntoBytes 10) (start answers)).

(** A client whose requests may take forty nanoseconds. *)
Definition hurried : Client (E := world) := client_of
  {| request_timeout := 20; total_timeout := Some 40; retry_policy := Retry.standard; max_response_body_bytes := 1024;
     redirect_policy := follow; status_policy := StatusError |}.

Lemma hurried_passes : time_passes (C := Z) (A := Z) (P := Z) hurried time.
Proof.
  split; try split; unfold carries, carries_, no_earlier; intros; simpl; try lia.
  - case_match; lia.
  - apply Forall_singleton. split_and!; intros; simpl; lia.
  - apply Forall_singleton. split_and!; intros; simpl; lia.
Qed.

Lemma hurried_flows : time_flows (C := Z) (A := Z) (P := Z) (Stream := unit) (Body := list Z) hurried time.
Proof. split; [exact hurried_passes|..]; unfold carries, no_earlier; intros; simpl; try lia. case_match; simpl; lia. Qed.

Lemma hurried_bounded enc : bounded_request (Stream := unit) hurried 13 41 GET (lit "/") [] None no_overrides enc.
Proof.
  intros input Hin.
  assert (in_execution_options _ input = request_defaults hurried) as ->.
  { assert (match prepare (Stream := unit) hurried GET (lit "/") [] None no_overrides enc with
            | Ok input => in_execution_options _ input = request_defaults hurried
            | Err _ => False
            end) as Ho by (destruct enc; reflexivity).
    by rewrite Hin in Ho. }
  split; [exact ExecutionDemo.demo_options_ok|].
  split; [vm_compute; reflexivity|]. split; [exists 40; split; [reflexivity|split; vm_compute; congruence]|].
  vm_compute. discriminate.
Qed.

(** A request whose every attempt fails. *)
Abbreviation refused_run := (send_request client 13 2 GET (lit "/") [] None no_overrides (start [])).

End BlockingDemo.
Import BlockingDemo.


(** Three attempts that cannot resolve the host: the last error, once, whether the
    driver is run or the entry point. *)
Lemma blocking_errors_reported_once_witness :
  match run [] BufferedMode with Some (Err e, s) => errors_seen (log s) = [e] | _ => False end /\
  match refused_run with Some (Err e, s) => errors_seen (log s) = [e] | _ => False end.
Proof.
  split.
  - assert (match run [] BufferedMode with Some (Err _, _) => true | _ => false end = true) as Hok
      by (vm_compute; reflexivity).
    destruct (run [] BufferedMode) as [[[r|e] s]|] eqn:Hrun; try discriminate Hok.
    exact (proj1 (blocking_errors_reported_once client 13 2 GET (lit "/") [] None no_overrides (start []) s)
      (ExecutionDemo.input (Buffered [])) BufferedMode (Some (-1)) 0 (Err e) Hrun).
  - assert (match refused_run with Some (Err _, _) => true | _ => false end = true) as Hok by (vm_compute; reflexivity).
    assert (admitted client (prepare (Stream := unit) client GET (lit "/") [] None no_overrides
      (buffered_auto_accept_encoding client)) (start []) = true) as Had by (vm_compute; reflexivity).
    destruct refused_run as [[[r|e] s]|] eqn:Hrun; try discriminate Hok.
    exact (reported_admitted client _ (Err e) (start []) s
      (proj1 (proj2 (blocking_errors_reported_once client 13 2 GET (lit "/") [] None no_overrides (start []) s)) (Err e) Hrun) Had).
Defined.

(** A number read off the state a run ends in. *)
Definition measured {T} (r : option (T * state world Z Z Z)) (f : state world Z Z Z -> Z) : option Z :=
  match r with Some (_, s') => Some (f s') | None => None end.

(** The stream of the third exchange owns its circuit attempt and its global permit. *)
Lemma blocking_request_settles_witness :
  match run answers StreamMode with
  | Some (r, s') =>
    added (circuit_began 7) (start answers) s' =
      added (circuit_ended 7) (start answers) s' + held_circuit (Some 7) (result_guards r) /\
    added (circuit_began 7) (start answers) s' = 1 /\ added (circuit_ended 7) (start answers) s' = 0 /\
    added by_destructor (start answers) s' = 0
  | None => False
  end.
Proof.
  assert (measured (run answers StreamMode) (added (circuit_began 7) (start answers)) = Some 1) as H1
    by (vm_compute; reflexivity).
  assert (measured (run answers StreamMode) (added (circuit_ended 7) (start answers)) = Some 0) as H2
    by (vm_compute; reflexivity).
  destruct (run answers StreamMode) as [[r s']|] eqn:Hrun; [|discriminate H1].
  destruct (blocking_request_settles client 13 2 (ExecutionDemo.input (Buffered [])) StreamMode (Some (-1)) 0
    (start answers) r s' 7 8 (-1) Hrun) as (Hc & _ & _ & Hd).
  injection H1 as H1. injection H2 as H2. split_and!; [exact Hc|exact H1|exact H2|exact Hd].
Defined.

Lemma blocking_sends_bounded_witness :
  match run answers BufferedMode with
  | Some (_, s') => added is_send (start answers) s' <= 13 /\ added is_send (start answers) s' = 3
  | None => False
  end.
Proof.
  assert (measured (run answers BufferedMode) (added is_send (start answers)) = Some 3) as H1
    by (vm_compute; reflexivity).
  destruct (run answers BufferedMode) as [[r s']|] eqn:Hrun; [|discriminate H1]. injection H1 as H1.
  split; [|exact H1].
  exact (proj1 (blocking_sends_bounded client 13 2 (ExecutionDemo.input (Buffered [])) BufferedMode (Some (-1)) 0
    (start answers) r s' ExecutionDemo.demo_options_ok eq_refl Hrun)).
Defined.

Lemma buffered_request_accounted_witness :
  match buffered_run with
  | Some (r, s') =>
    added (permit_taken 0) (start answers) s' = added (permit_dropped 0) (start answers) s' /\
    added (permit_dropped 0) (start answers) s' = 1
  | None => False
  end.
Proof.
  assert (measured buffered_run (added (permit_dropped 0) (start answers)) = Some 1) as H1 by (vm_compute; reflexivity).
  destruct buffered_run as [[r s']|] eqn:Hrun; [|discriminate H1]. injection H1 as H1.
  assert (is_ok (prepare (Stream := unit) client GET (lit "/") [] None no_overrides true) = true) as Hok
    by (vm_compute; reflexivity).
  destruct (prepare (Stream := unit) client GET (lit "/") [] None no_overrides true) as [input|e] eqn:Hin;
    [|discriminate Hok].
  destruct (buffered_request_accounted client 13 2 GET (lit "/") [] None no_overrides (start answers) r s' input
    1 2 0 Hin Hrun) as (_ & _ & _ & Hp & _).
  split; [exact Hp|exact H1].
Defined.

Lemma requests_refine_ledger_witness :
  match stream_run with
  | Some (r, s') =>
    (exists n, added is_retry (start answers) s' = Z.of_nat n /\
       account (metrics (start answers)) n (stream_account r (metrics s'))) /\
    rtc Metrics.step (ledger (metrics (start answers)) [] []) (ledger (metrics s') [] (stream_accounting r)) /\
    length (stream_accounting r) = 1%nat
  | None => False
  end.
Proof.
  assert (match stream_run with Some (r, _) => length (stream_accounting r) | None => 0%nat end = 1%nat) as H1
    by (vm_compute; reflexivity).
  assert (is_ok (prepare (Stream := unit) client GET (lit "/") [] None no_overrides (stream_auto_accept_encoding client)) = true)
    as Hok by (vm_compute; reflexivity).
  destruct stream_run as [[r s']|] eqn:Hrun; [|discriminate H1].
  destruct (proj2 (requests_refine_ledger client 13 2 GET (lit "/") [] None no_overrides (start answers) s' [] [])
    r Hrun) as (Ha & Hl & _).
  rewrite app_nil_r in Hl. split; [|split; [exact Hl|exact H1]].
  destruct (prepare (Stream := unit) client GET (lit "/") [] None no_overrides (stream_auto_accept_encoding client));
    [|discriminate Hok]. destruct Ha as (n & Hn & _ & Ha). exists n. split; [exact Hn|exact Ha].
Defined.

Lemma blocking_requests_return_witness :
  exists r s', send_request hurried 13 41 GET (lit "/") [] None no_overrides (start answers) = Some (r, s').
Proof.
  exact (proj1 (blocking_requests_return hurried time hurried_flows 13 41 GET (lit "/") [] None no_overrides
    (start answers)) (hurried_bounded _)).
Defined.

Lemma stream_copy_faithful_witness :
  match copied with
  | Some (Ok n, s') => bytes_written (log s') = bytes_read (log s') /\ n = 3 /\ n <= 10
  | _ => False
  end.
Proof.
  assert (match copied with Some (Ok n, s') => Some (n, length (bytes_read (log s'))) | _ => None end
    = Some (3, 3%nat)) as Hn by (vm_compute; reflexivity).
  destruct copied as [[[n|e] s']|] eqn:Hrun; try discriminate Hn.
  destruct (stream_copy_faithful 3 2 sink (Some 10) demo_stream (start []) (Ok n) s' eq_refl Hrun)
    as (l1 & l2 & now & HR & HW & _ & Heq & _ & Hlim).
  injection Hn as Hn _. rewrite HR, HW, Heq. split; [reflexivity|]. split; [exact Hn|]. apply Hlim. simpl. lia.
Defined.

Lemma stream_bytes_within_limit_witness :
  match buffered with
  | Some (Ok bytes, s') => bytes_read (log s') = bytes /\ Z.of_nat (length bytes) <= 10
  | _ => False
  end.
Proof.
  assert (match buffered with Some (Ok _, _) => true | _ => false end = true) as Hok by (vm_compute; reflexivity).
  destruct buffered as [[[bytes|e] s']|] eqn:Hrun; try discriminate Hok.
  exact (proj2 (stream_bytes_within_limit 3 2 10 demo_stream (start []) (Ok bytes) s' eq_refl
    ltac:(split; vm_compute; congruence) Hrun)).
Defined.

Lemma streamed_session_settles_witness :
  match session with
  | Some (_, s') =>
    added (permit_taken 0) (start answers) s' = added (permit_dropped 0) (start answers) s' /\
    added (permit_dropped 0) (start answers) s' = 1 /\ added by_destructor (start answers) s' = 0
  | None => False
  end.
Proof.
  assert (measured session (added (permit_dropped 0) (start answers)) = Some 1) as H1 by (vm_compute; reflexivity).
  destruct session as [[[] s']|] eqn:Hrun; [|discriminate H1]. injection H1 as H1.
  destruct (streamed_session_settles client 13 2 3 2 GET (lit "/") [] None no_overrides (IntoBytes 10) (start answers) s'
    1 2 0 [] [] Hrun) as (_ & _ & _ & Hp & Hd).
  split; [exact Hp|]. split; [exact H1|exact Hd].
Defined.
