(* ===== verification/ClientBuilder.v ===== *)
(** * Building a client (core/client_builder.rs, core/config.rs,
    blocking_client/builder.rs, and [make_agent_configs] of blocking_client/transport.rs)

    The client profiles, the builder with its setters, the validation all settings go
    through, and the blocking client that is made of them.  Record updates are
    coqutil's.  The clock is a parameter of the controls; the construction of a ureq proxy
    is an argument of [build]. *)
From coqutil Require Import Datatypes.RecordSetters.
From Stdlib Require Import Ascii String.
From S2P Require Import Prelude Float64 Text HttpApi UriText Errors Redaction UriResolve Extensions Tls Redirect Proxy Dns.
From S2P Require Import Headers ContentEncoding Timing Responses Retry RetryBudget CircuitBreaker Adaptive.
From S2P Require Import RateLimit Execution Limiters Metrics Otel Lifecycle Program Blocking BlockingFacts BlockingTheorems.
Import DoubleBraceUpdate.

(** ** Defaults *)
Definition DEFAULT_CONNECT_TIMEOUT : Duration := duration_from_secs 5.
Definition DEFAULT_POOL_IDLE_TIMEOUT : Duration := duration_from_secs 90.
Definition DEFAULT_POOL_MAX_IDLE_PER_HOST : Z := 8.
Definition DEFAULT_STREAM_DEADLINE_SLACK : Duration := duration_from_millis 10.
Definition DEFAULT_CLIENT_NAME : str := lit "reqx".

Inductive ClientProfile := StandardSdk | LowLatency | HighThroughput.

Section Config.
Context `{Http}.

Record ProfileDefaults := {
  d_request_timeout : Duration;
  d_total_timeout : option Duration;
  d_retry_policy : RetryPolicy;
  d_max_response_body_bytes : Z;
  d_redirect_policy : RedirectPolicy;
  d_status_policy : StatusPolicy;
}.

Definition defaults (p : ClientProfile) : ProfileDefaults :=
  match p with
  | StandardSdk =>
    {| d_request_timeout := duration_from_secs 10; d_total_timeout := None;
       d_retry_policy := Retry.standard; d_max_response_body_bytes := 8 * 1024 * 1024;
       d_redirect_policy := redirect_none; d_status_policy := StatusError |}
  | LowLatency =>
    {| d_request_timeout := duration_from_secs 2; d_total_timeout := Some (duration_from_secs 5);
       d_retry_policy :=
         Retry.with_max_backoff
           (Retry.with_base_backoff (Retry.with_max_attempts Retry.standard 2) (duration_from_millis 50))
           (duration_from_millis 300);
       d_max_response_body_bytes := 2 * 1024 * 1024;
       d_redirect_policy := redirect_none; d_status_policy := StatusError |}
  | HighThroughput =>
    {| d_request_timeout := duration_from_secs 20; d_total_timeout := Some (duration_from_secs 60);
       d_retry_policy :=
         Retry.with_max_backoff
           (Retry.with_base_backoff (Retry.with_max_attempts Retry.standard 4) (duration_from_millis 150))
           (duration_from_secs 3);
       d_max_response_body_bytes := 32 * 1024 * 1024;
       d_redirect_policy := redirect_none; d_status_policy := StatusError |}
  end.

Definition default_headers_with_user_agent (client_name : str) (default_headers : HeaderMap)
    : result HeaderMap Error.t :=
  let invalid_config message := Error.InvalidClientNameConfig (str_len client_name) message in
  if bool_decide (trim client_name = []) then Err (invalid_config "client_name must not be empty")
  else match header_value_from_str client_name with
  | None => Err (invalid_config "client_name must be a valid HTTP header value")
  | Some user_agent =>
    Ok (if hm_contains_key default_headers (header_name "user-agent") then default_headers
        else hm_insert default_headers (header_name "user-agent") user_agent)
  end.

End Config.

(** ** The builder *)
Module ClientBuilder.
Section ClientBuilder.
Context `{Http} `{UrlCrate} `{HttpDate} `{!ProxyCrates} `{!Dns.HostCrate} {SocketAddr : Type} `{!EqDecision SocketAddr}.
Context {E T : Type}.

Definition no_dns_overrides : Dns.DnsOverridesBuilder (SocketAddr := SocketAddr) := {| Dns.entries := ∅ |}.

Record t := {
  b_base_url : str;
  b_default_headers : HeaderMap;
  b_buffered_auto_accept_encoding : bool;
  b_stream_auto_accept_encoding : bool;
  b_request_timeout : Duration;
  b_total_timeout : option Duration;
  b_stream_deadline_slack : Duration;
  b_max_response_body_bytes : Z;
  b_connect_timeout : Duration;
  b_pool_idle_timeout : Duration;
  b_pool_max_idle_per_host : Z;
  b_http_proxy : option Uri;
  b_dns_overrides : Dns.DnsOverridesBuilder (SocketAddr := SocketAddr);
  b_no_proxy_rules : list NoProxyRule;
  b_retry_policy : RetryPolicy;
  b_retry_eligibility : RetryEligibility;
  b_retry_budget_policy : option RetryBudget.RetryBudgetPolicy;
  b_circuit_breaker_policy : option CircuitBreaker.CircuitBreakerPolicy;
  b_adaptive_concurrency_policy : option Adaptive.AdaptiveConcurrencyPolicy;
  b_global_rate_limit_policy : option RateLimit.RateLimitPolicy;
  b_per_host_rate_limit_policy : option RateLimit.RateLimitPolicy;
  b_server_throttle_scope : RateLimit.ServerThrottleScope;
  b_redirect_policy : RedirectPolicy;
  b_default_status_policy : StatusPolicy;
  b_tls_backend : TlsBackend;
  b_tls_options : TlsOptions;
  b_endpoint_selector : option EndpointSelector;
  b_backoff_source : option BackoffSource;
  b_client_name : str;
  b_max_in_flight : option Z;
  b_max_in_flight_per_host : option Z;
  b_metrics_enabled : bool;
  b_otel_enabled : bool;
  b_otel_path_normalizer : str -> str;
  b_interceptors : list (Interceptor E);
  b_observers : list (Observer E);
  b_transport_options : T;
}.

Definition new (base_url : str) (transport_options : T) (tls_backend : TlsBackend) : t :=
  let d := defaults StandardSdk in
  {| b_base_url := base_url; b_default_headers := hm_new; b_buffered_auto_accept_encoding := true;
     b_stream_auto_accept_encoding := false; b_request_timeout := d_request_timeout d;
     b_total_timeout := d_total_timeout d; b_stream_deadline_slack := DEFAULT_STREAM_DEADLINE_SLACK;
     b_max_response_body_bytes := d_max_response_body_bytes d; b_connect_timeout := DEFAULT_CONNECT_TIMEOUT;
     b_pool_idle_timeout := DEFAULT_POOL_IDLE_TIMEOUT; b_pool_max_idle_per_host := DEFAULT_POOL_MAX_IDLE_PER_HOST;
     b_http_proxy := None; b_dns_overrides := no_dns_overrides; b_no_proxy_rules := [];
     b_retry_policy := d_retry_policy d; b_retry_eligibility := StrictRetryEligibility;
     b_retry_budget_policy := None; b_circuit_breaker_policy := None; b_adaptive_concurrency_policy := None;
     b_global_rate_limit_policy := None; b_per_host_rate_limit_policy := None;
     b_server_throttle_scope := RateLimit.Auto; b_redirect_policy := d_redirect_policy d;
     b_default_status_policy := d_status_policy d; b_tls_backend := tls_backend;
     b_tls_options := tls_options_default; b_endpoint_selector := None; b_backoff_source := None;
     b_client_name := DEFAULT_CLIENT_NAME; b_max_in_flight := None; b_max_in_flight_per_host := None;
     b_metrics_enabled := false; b_otel_enabled := false;
     b_otel_path_normalizer := Extensions.normalize_path; b_interceptors := []; b_observers := [];
     b_transport_options := transport_options |}.

(** ** Setters *)
Definition request_timeout (v : Duration) (b : t) : t := b{{b_request_timeout := v}}.
Definition total_timeout (v : option Duration) (b : t) : t := b{{b_total_timeout := v}}.
Definition stream_deadline_slack (v : Duration) (b : t) : t := b{{b_stream_deadline_slack := v}}.
Definition max_response_body_bytes (v : Z) (b : t) : t := b{{b_max_response_body_bytes := v}}.
Definition connect_timeout (v : Duration) (b : t) : t := b{{b_connect_timeout := v}}.
Definition pool_idle_timeout (v : Duration) (b : t) : t := b{{b_pool_idle_timeout := v}}.
Definition pool_max_idle_per_host (v : Z) (b : t) : t := b{{b_pool_max_idle_per_host := v}}.

Definition resolve_to_addrs (domain : str) (addresses : list SocketAddr) (b : t) : result t Error.t :=
  let? overrides := Dns.insert (b_dns_overrides b) domain addresses in
  Ok b{{b_dns_overrides := overrides}}.
Definition resolve (domain : str) (address : SocketAddr) (b : t) : result t Error.t :=
  resolve_to_addrs domain [address] b.

Definition http_proxy (v : Uri) (b : t) : t := b{{b_http_proxy := Some v}}.
Definition no_proxy (rules : list str) (b : t) : result t Error.t :=
  let? parsed := parse_no_proxy_rules rules in Ok b{{b_no_proxy_rules := parsed}}.
Definition add_no_proxy (rule : str) (b : t) : result t Error.t :=
  let? parsed := parse_no_proxy_rule rule in Ok b{{b_no_proxy_rules := b_no_proxy_rules b ++ [parsed] }}.

Definition default_header (name : HeaderName) (value : HeaderValue) (b : t) : t :=
  b{{b_default_headers := hm_insert (b_default_headers b) name (mark_sensitive_header_value name value)}}.
Definition try_default_header (source : BoxError) (name value : str) (b : t) : result t Error.t :=
  let? parsed := parse_header_name source name in
  let? value := parse_header_value source (header_name_as_str parsed) value in
  Ok (default_header parsed value b).

Definition auto_accept_encoding (enabled : bool) (b : t) : t :=
  b{{b_buffered_auto_accept_encoding := enabled; b_stream_auto_accept_encoding := enabled}}.
Definition buffered_auto_accept_encoding (v : bool) (b : t) : t := b{{b_buffered_auto_accept_encoding := v}}.
Definition stream_auto_accept_encoding (v : bool) (b : t) : t := b{{b_stream_auto_accept_encoding := v}}.
Definition retry_policy (v : RetryPolicy) (b : t) : t := b{{b_retry_policy := v}}.
Definition retry_eligibility (v : RetryEligibility) (b : t) : t := b{{b_retry_eligibility := v}}.
Definition retry_budget_policy (v : option RetryBudget.RetryBudgetPolicy) (b : t) : t := b{{b_retry_budget_policy := v}}.
Definition circuit_breaker_policy (v : option CircuitBreaker.CircuitBreakerPolicy) (b : t) : t := b{{b_circuit_breaker_policy := v}}.
Definition adaptive_concurrency_policy (v : option Adaptive.AdaptiveConcurrencyPolicy) (b : t) : t := b{{b_adaptive_concurrency_policy := v}}.
Definition global_rate_limit_policy (v : option RateLimit.RateLimitPolicy) (b : t) : t := b{{b_global_rate_limit_policy := v}}.
Definition per_host_rate_limit_policy (v : option RateLimit.RateLimitPolicy) (b : t) : t := b{{b_per_host_rate_limit_policy := v}}.
Definition server_throttle_scope (v : RateLimit.ServerThrottleScope) (b : t) : t := b{{b_server_throttle_scope := v}}.
Definition redirect_policy (v : RedirectPolicy) (b : t) : t := b{{b_redirect_policy := v}}.
Definition default_status_policy (v : StatusPolicy) (b : t) : t := b{{b_default_status_policy := v}}.
Definition tls_backend (v : TlsBackend) (b : t) : t := b{{b_tls_backend := v}}.
Definition endpoint_selector (v : option EndpointSelector) (b : t) : t := b{{b_endpoint_selector := v}}.
Definition backoff_source (v : option BackoffSource) (b : t) : t := b{{b_backoff_source := v}}.

Definition tls_root_store (v : TlsRootStore) (b : t) : t := b{{b_tls_options -> root_store := v}}.
Definition push_root (c : TlsRootCertificate) (b : t) : t :=
  b{{b_tls_options -> root_certificates := root_certificates (b_tls_options b) ++ [c] }}.
Definition tls_root_ca_pem (certificate_pem : list Z) (b : t) : t := push_root (RootPem certificate_pem) b.
Definition tls_root_ca_der (certificate_der : list Z) (b : t) : t := push_root (RootDer certificate_der) b.
Definition clear_tls_root_cas (b : t) : t := b{{b_tls_options -> root_certificates := [] }}.
Definition tls_client_identity_pem (cert_chain_pem private_key_pem : list Z) (b : t) : t :=
  b{{b_tls_options -> client_identity := Some (IdentityPem cert_chain_pem private_key_pem)}}.
Definition clear_tls_client_identity (b : t) : t := b{{b_tls_options -> client_identity := None}}.

Definition allow_non_idempotent_retries (allow : bool) (b : t) : t :=
  b{{b_retry_eligibility := if allow then PermissiveRetryEligibility else StrictRetryEligibility}}.
Definition client_name (v : str) (b : t) : t := b{{b_client_name := v}}.
Definition max_in_flight (v : option Z) (b : t) : t := b{{b_max_in_flight := v}}.
Definition max_in_flight_per_host (v : option Z) (b : t) : t := b{{b_max_in_flight_per_host := v}}.
Definition metrics_enabled (v : bool) (b : t) : t := b{{b_metrics_enabled := v}}.
Definition otel_enabled (v : bool) (b : t) : t := b{{b_otel_enabled := v}}.
Definition otel_path_normalizer (v : str -> str) (b : t) : t := b{{b_otel_path_normalizer := v}}.
Definition interceptor (i : Interceptor E) (b : t) : t := b{{b_interceptors := b_interceptors b ++ [i] }}.
Definition observer (o : Observer E) (b : t) : t := b{{b_observers := b_observers b ++ [o] }}.

Definition profile (p : ClientProfile) (b : t) : t :=
  let d := defaults p in
  b{{b_request_timeout := d_request_timeout d; b_total_timeout := d_total_timeout d;
     b_retry_policy := d_retry_policy d; b_max_response_body_bytes := d_max_response_body_bytes d;
     b_redirect_policy := d_redirect_policy d; b_default_status_policy := d_status_policy d}}.

(** ** Validation *)
Definition validate_opt {P} (validate : P -> result unit Error.t) (policy : option P) : result unit Error.t :=
  match policy with Some policy => validate policy | None => Ok tt end.

(** The DNS table, and the builder with its headers completed. *)
Definition validate (b : t) : result (Dns.DnsOverrides * t) Error.t :=
  let? _ := validate_base_url (b_base_url b) in
  let? dns_overrides := Dns.build (b_dns_overrides b) (is_some (b_http_proxy b)) in
  let? _ := validate_opt validate_http_proxy_uri (b_http_proxy b) in
  let? _ := validate_timeout_config (b_request_timeout b) (b_total_timeout b) (Some (b_connect_timeout b)) in
  let? _ :=
    if bool_decide (b_max_in_flight b = Some 0) || bool_decide (b_max_in_flight_per_host b = Some 0)
    then Err (Error.InvalidConcurrencyLimitConfig (b_max_in_flight b) (b_max_in_flight_per_host b)
      (if bool_decide (b_max_in_flight b = Some 0) then "max_in_flight must be greater than zero"%string
       else "max_in_flight_per_host must be greater than zero"%string))
    else Ok tt in
  let? _ := Retry.validate (b_retry_policy b) in
  let? _ := validate_opt RetryBudget.validate (b_retry_budget_policy b) in
  let? _ := validate_opt CircuitBreaker.validate (b_circuit_breaker_policy b) in
  let? _ := validate_opt Adaptive.validate (b_adaptive_concurrency_policy b) in
  let? _ := validate_opt RateLimit.validate (b_global_rate_limit_policy b) in
  let? _ := validate_opt RateLimit.validate (b_per_host_rate_limit_policy b) in
  let? headers := default_headers_with_user_agent (b_client_name b) (b_default_headers b) in
  Ok (dns_overrides, b{{b_dns_overrides := no_dns_overrides; b_default_headers := headers}}).

End ClientBuilder.
End ClientBuilder.

(** ** The blocking client *)
Record BlockingTransportOptions := { pool_max_idle_connections : Z }.
Definition blocking_transport_default : BlockingTransportOptions := {| pool_max_idle_connections := 16 |}.

Section Build.
Context `{Http} `{UrlCrate} `{HttpDate} `{!ProxyCrates} `{!Dns.HostCrate} {SocketAddr : Type} `{!EqDecision SocketAddr}.
Context `{TlsCrates} {E UreqProxy : Type}.
Abbreviation BuilderOf T := (ClientBuilder.t (SocketAddr := SocketAddr) (E := E) (T := T)).
Abbreviation Builder := (BuilderOf BlockingTransportOptions).
Import ClientBuilder.

Definition with_pool_max_idle_connections (v : Z) (b : Builder) : Builder :=
  b{{b_transport_options -> pool_max_idle_connections := v}}.

(** A [ureq::config::Config]. *)
Record AgentConfig := {
  http_status_as_error : bool;
  agent_max_redirects : Z;
  max_redirects_will_error : bool;
  user_agent : str;
  max_idle_age : Duration;
  max_idle_connections_per_host : Z;
  max_idle_connections : Z;
  agent_tls_config : TlsConfig;
  agent_proxy : option UreqProxy;
}.

(** [proxy_new] is [ureq::Proxy::new]. *)
Definition make_agent_configs (f : TlsCargoFeatures) (proxy_new : str -> option UreqProxy)
    (tls_backend : TlsBackend) (tls_options : TlsOptions) (client_name : str) (pool_idle_timeout : Duration)
    (pool_max_idle_per_host pool_max_idle_connections : Z) (proxy_uri : option Uri)
    : result (AgentConfig * option AgentConfig) Error.t :=
  let? tls_config := build_sync_tls_config f tls_backend tls_options in
  let make_config proxy :=
    {| http_status_as_error := false; agent_max_redirects := 0; max_redirects_will_error := false;
       user_agent := client_name; max_idle_age := pool_idle_timeout;
       max_idle_connections_per_host := pool_max_idle_per_host;
       max_idle_connections := pool_max_idle_connections; agent_tls_config := tls_config;
       agent_proxy := proxy |} in
  let direct := make_config None in
  match proxy_uri with
  | None => Ok (direct, None)
  | Some uri =>
    match proxy_new (uri_to_string uri) with
    | None => Err (Error.InvalidProxyConfig (redact_uri_for_logs (uri_to_string uri))
        (lit "failed to initialize blocking proxy from http_proxy URI"))
    | Some proxy => Ok (direct, Some (make_config (Some proxy)))
    end
  end.

(** What [build] returns: the settings the request loop reads, and the controls. *)
Record BuiltClient := {
  built_client : Client (E := E);
  built_retry_budget : option RetryBudget.RetryBudgetPolicy;
  built_circuit_breaker : option CircuitBreaker.CircuitBreakerPolicy;
  built_adaptive_concurrency : option Adaptive.AdaptiveConcurrencyPolicy;
  built_rate_limiter : option RateLimit.RateLimiter;
  built_request_limiters : option Limiters.world;
  built_metrics : Metrics.ClientMetrics;
  built_otel : Otel.OtelTelemetry;
  built_dns : Dns.DnsOverrides (SocketAddr := SocketAddr);
  built_direct : AgentConfig;
  built_proxied : option AgentConfig;
}.

Definition try_enable_otel (otel_feature enabled : bool) (client_name : str) (path_normalizer : str -> str)
    : result Otel.OtelTelemetry Error.t :=
  if enabled then Otel.try_enabled_with_path_normalizer otel_feature client_name path_normalizer
  else Ok Otel.disabled.

(** [now] is what the clock shows when the rate limiter is created. *)
Definition build (f : TlsCargoFeatures) (compression : Features) (otel_feature : bool)
    (proxy_new : str -> option UreqProxy) (now : Instant) (b : Builder) : result BuiltClient Error.t :=
  let? (dns_overrides, b) := validate b in
  let? otel := try_enable_otel otel_feature (b_otel_enabled b) (b_client_name b) (b_otel_path_normalizer b) in
  let proxy_config :=
    (fun uri => {| proxy_uri := uri; authorization := None; no_proxy_rules := b_no_proxy_rules b |})
      <$> b_http_proxy b in
  let? (direct, proxied) :=
    make_agent_configs f proxy_new (b_tls_backend b) (b_tls_options b) (b_client_name b) (b_pool_idle_timeout b)
      (b_pool_max_idle_per_host b) (pool_max_idle_connections (b_transport_options b)) (b_http_proxy b) in
  let rate_limiter := RateLimit.new (b_global_rate_limit_policy b) (b_per_host_rate_limit_policy b) now in
  let request_limiters := Limiters.new (b_max_in_flight b) (b_max_in_flight_per_host b) in
  Ok {|
    built_client := {|
      Blocking.features := compression;
      tls_features := {| blocking_tls_rustls := any_rustls f; blocking_tls_native := tls_native f |};
      Blocking.endpoint_selector := b_endpoint_selector b; Blocking.base_url := b_base_url b;
      Blocking.default_headers := b_default_headers b;
      Blocking.request_defaults := {|
        Execution.request_timeout := b_request_timeout b; Execution.total_timeout := b_total_timeout b;
        Execution.retry_policy := b_retry_policy b;
        Execution.max_response_body_bytes := b_max_response_body_bytes b;
        Execution.redirect_policy := b_redirect_policy b; Execution.status_policy := b_default_status_policy b |};
      Blocking.buffered_auto_accept_encoding := b_buffered_auto_accept_encoding b;
      Blocking.stream_auto_accept_encoding := b_stream_auto_accept_encoding b;
      Blocking.interceptors := b_interceptors b; Blocking.observers := b_observers b;
      has_rate_limiter := is_some rate_limiter; has_request_limiters := is_some request_limiters;
      has_circuit_breaker := is_some (b_circuit_breaker_policy b);
      has_adaptive_concurrency := is_some (b_adaptive_concurrency_policy b);
      has_retry_budget := is_some (b_retry_budget_policy b);
      Blocking.server_throttle_scope := b_server_throttle_scope b;
      Blocking.retry_eligibility := b_retry_eligibility b; Blocking.backoff_source := b_backoff_source b;
      proxy_config := proxy_config; has_proxy_agent := is_some proxied;
      Blocking.connect_timeout := b_connect_timeout b;
      Blocking.stream_deadline_slack := b_stream_deadline_slack b |};
    built_retry_budget := b_retry_budget_policy b;
    built_circuit_breaker := b_circuit_breaker_policy b;
    built_adaptive_concurrency := b_adaptive_concurrency_policy b;
    built_rate_limiter := rate_limiter; built_request_limiters := request_limiters;
    built_metrics := Metrics.with_options (b_metrics_enabled b); built_otel := otel;
    built_dns := dns_overrides; built_direct := direct; built_proxied := proxied |}.

(** ** What validation establishes *)

(** The settings of a builder whose numbers are within their Rust types. *)
Definition typed_retry (p : RetryPolicy) : Prop := 0 <= Retry.max_attempts p.
Definition typed_redirects (p : RedirectPolicy) : Prop := is_usize (max_redirects p).

Record validated {T} (b : BuilderOf T) : Prop := {
  val_base_url : validate_base_url (b_base_url b) = Ok tt;
  val_proxy : validate_opt validate_http_proxy_uri (b_http_proxy b) = Ok tt;
  val_timeouts :
    validate_timeout_config (b_request_timeout b) (b_total_timeout b) (Some (b_connect_timeout b)) = Ok tt;
  val_in_flight : b_max_in_flight b <> Some 0 /\ b_max_in_flight_per_host b <> Some 0;
  val_retry : Retry.validate (b_retry_policy b) = Ok tt;
  val_budget : validate_opt RetryBudget.validate (b_retry_budget_policy b) = Ok tt;
  val_circuit : validate_opt CircuitBreaker.validate (b_circuit_breaker_policy b) = Ok tt;
  val_adaptive : validate_opt Adaptive.validate (b_adaptive_concurrency_policy b) = Ok tt;
  val_rate : validate_opt RateLimit.validate (b_global_rate_limit_policy b) = Ok tt /\
    validate_opt RateLimit.validate (b_per_host_rate_limit_policy b) = Ok tt;
}.

Lemma validate_Ok {T} (b b' : BuilderOf T) dns :
  validate b = Ok (dns, b') ->
  validated b /\ Dns.build (b_dns_overrides b) (is_some (b_http_proxy b)) = Ok dns /\
  exists headers, default_headers_with_user_agent (b_client_name b) (b_default_headers b) = Ok headers /\
    b' = b{{b_dns_overrides := no_dns_overrides; b_default_headers := headers}}.
Proof.
  intros ([] & H1' & Hr)%result_bind_Ok_inv. apply result_bind_Ok_inv in Hr as (d & H2' & Hr).
  apply result_bind_Ok_inv in Hr as ([] & H3' & Hr). apply result_bind_Ok_inv in Hr as ([] & H4' & Hr).
  apply result_bind_Ok_inv in Hr as ([] & H5' & Hr). apply result_bind_Ok_inv in Hr as ([] & H6' & Hr).
  apply result_bind_Ok_inv in Hr as ([] & H7' & Hr). apply result_bind_Ok_inv in Hr as ([] & H8' & Hr).
  apply result_bind_Ok_inv in Hr as ([] & H9' & Hr). apply result_bind_Ok_inv in Hr as ([] & H10' & Hr).
  apply result_bind_Ok_inv in Hr as ([] & H11' & Hr). apply result_bind_Ok_inv in Hr as (hs & H12' & Hr).
  injection Hr as <- <-. split; [|split; [done|by exists hs]].
  split; try done. destruct (_ || _) eqn:Hz in H5'; [done|].
  by apply orb_false_iff in Hz as [?%bool_decide_eq_false ?%bool_decide_eq_false].
Qed.

(** The defaults that a builder gives the requests of its client. *)
Definition request_defaults_of {T} (b : BuilderOf T) : RequestExecutionOptions :=
  {| Execution.request_timeout := b_request_timeout b; Execution.total_timeout := b_total_timeout b;
     Execution.retry_policy := b_retry_policy b; Execution.max_response_body_bytes := b_max_response_body_bytes b;
     Execution.redirect_policy := b_redirect_policy b; Execution.status_policy := b_default_status_policy b |}.

Lemma prepared_options_valid {Stream T} (b : BuilderOf T) (client : Client (E := E))
    method path headers (body : option (RequestBody Stream)) overrides auto_accept input :
  validated b -> Blocking.request_defaults client = request_defaults_of b ->
  typed_retry (default (b_retry_policy b) (o_retry_policy overrides)) ->
  typed_redirects (default (b_redirect_policy b) (o_redirect_policy overrides)) ->
  prepare client method path headers body overrides auto_accept = Ok input ->
  let o := in_execution_options _ input in
  options_ok o /\ Execution.request_timeout o <> 0 /\ Execution.total_timeout o <> Some 0.
Proof.
  intros Hv Hdef Ht3 Ht4 Hp.
  unfold prepare, prepare_retry_request_input in Hp. apply result_bind_Ok_inv in Hp as (base & _ & Hp).
  apply result_bind_Ok_inv in Hp as ([text uri] & _ & Hp). apply result_bind_Ok_inv in Hp as (o & Ho & Hp).
  injection Hp as <-. cbn [in_execution_options]. clear base text uri.
  unfold resolve_overrides in Ho. rewrite Hdef in Ho. apply result_bind_Ok_inv in Ho as ([] & Htime & Ho).
  apply result_bind_Ok_inv in Ho as (policy & Hpol & [= <-]). simpl in *.
  assert (Retry.validate policy = Ok tt /\ policy = default (b_retry_policy b) (o_retry_policy overrides)) as [Hval ->].
  { destruct (o_retry_policy overrides) as [p|]; simpl in *.
    - apply result_bind_Ok_inv in Hpol as ([] & Hval & [= <-]). done.
    - injection Hpol as <-. split; [apply Hv|done]. }
  split; [by split; [|split]|].
  assert (validate_timeout_config (default (b_request_timeout b) (o_request_timeout overrides))
    (default (b_total_timeout b) (o_total_timeout overrides)) None = Ok tt) as Hok.
  { destruct (is_some (o_request_timeout overrides) || is_some (o_total_timeout overrides)) eqn:Hs; [done|].
    apply orb_false_iff in Hs as [Hs1 Hs2]. destruct (o_request_timeout overrides), (o_total_timeout overrides); try done.
    simpl. pose proof (val_timeouts _ Hv) as Hvt. unfold validate_timeout_config in *. repeat case_match; done. }
  unfold validate_timeout_config in Hok. destruct (duration_is_zero _) eqn:Hz1 in Hok; [done|].
  destruct (is_zero_opt _) eqn:Hz2 in Hok; [done|].
  unfold duration_is_zero in Hz1. zbool. split; [done|].
  intros He. assert (default (b_total_timeout b) (o_total_timeout overrides) = Some 0) as He' by exact He.
  by rewrite He' in Hz2.
Qed.

(** C17: The type of a client's requests: with a client that [build] returned, and
    numbers within their Rust types, every request that is prepared carries options
    for which the guarantees of the request loop hold (a validated retry policy, a
    redirect limit in range), and no zero timeout, whatever the overrides. *)
Theorem built_client_options_valid {Stream} f compression otel_feature proxy_new now (b : Builder) c
    method path headers (body : option (RequestBody Stream)) overrides auto_accept input :
  build f compression otel_feature proxy_new now b = Ok c ->
  typed_retry (b_retry_policy b) -> typed_redirects (b_redirect_policy b) ->
  typed_retry (default (b_retry_policy b) (o_retry_policy overrides)) ->
  typed_redirects (default (b_redirect_policy b) (o_redirect_policy overrides)) ->
  prepare (built_client c) method path headers body overrides auto_accept = Ok input ->
  let o := in_execution_options _ input in
  options_ok o /\ Execution.request_timeout o <> 0 /\ Execution.total_timeout o <> Some 0.
Proof.
  intros Hb Ht1 Ht2 Ht3 Ht4 Hp. apply result_bind_Ok_inv in Hb as ([dns b'] & Hv & Hb).
  apply validate_Ok in Hv as (Hv & _ & hs & _ & ->). apply result_bind_Ok_inv in Hb as (u & _ & Hb).
  apply result_bind_Ok_inv in Hb as ([direct proxied] & _ & Hb). injection Hb as <-.
  eapply (prepared_options_valid b); [exact Hv| |exact Ht3|exact Ht4|exact Hp]. by destruct b.
Qed.

Lemma new_user_agent client_name headers headers' :
  default_headers_with_user_agent client_name headers = Ok headers' -> `{HttpLaws} ->
  hm_contains_key headers' (header_name "user-agent") = true.
Proof.
  intros Hd Hlaws. unfold default_headers_with_user_agent in Hd. case_bool_decide; [done|].
  destruct (header_value_from_str client_name); [|done]. injection Hd as <-.
  destruct (hm_contains_key headers (header_name "user-agent")) eqn:Hc; [done|].
  unfold hm_contains_key. rewrite hm_get_all_insert. by rewrite decide_True.
Qed.

Lemma overrides_exclude_proxy builder has_proxy dns :
  Dns.build (SocketAddr := SocketAddr) builder has_proxy = Ok dns -> has_proxy = true -> Dns.overrides dns = ∅.
Proof.
  unfold Dns.build. intros Hb ->. destruct (bool_decide (Dns.entries builder = ∅)) eqn:He; [|done].
  injection Hb as <-. by apply bool_decide_eq_true in He.
Qed.

Lemma make_agent_configs_Ok f proxy_new backend o name idle per_host total uri direct proxied :
  make_agent_configs f proxy_new backend o name idle per_host total uri = Ok (direct, proxied) ->
  is_some proxied = is_some uri /\
  Forall (fun a => http_status_as_error a = false /\ agent_max_redirects a = 0) (direct :: option_list proxied).
Proof.
  intros (tls & _ & Hag)%result_bind_Ok_inv. destruct uri as [uri|].
  - destruct (proxy_new _); [|done]. injection Hag as <- <-. repeat constructor.
  - injection Hag as <- <-. repeat constructor.
Qed.

(** What [build] guarantees of the parts of a client: every control that exists
    was configured and its policy validated, no limiter admits zero requests, every
    request will carry a user agent, the proxy agent exists exactly when a proxy is
    configured and excludes DNS overrides, and the transport neither follows
    redirects nor turns statuses into errors, which the request loop does. *)
Lemma built_controls_validated `{!HttpLaws} f compression otel_feature proxy_new now (b : Builder) c :
  build f compression otel_feature proxy_new now b = Ok c ->
  validate_opt RetryBudget.validate (built_retry_budget c) = Ok tt /\
  validate_opt CircuitBreaker.validate (built_circuit_breaker c) = Ok tt /\
  validate_opt Adaptive.validate (built_adaptive_concurrency c) = Ok tt /\
  has_retry_budget (built_client c) = is_some (built_retry_budget c) /\
  has_circuit_breaker (built_client c) = is_some (built_circuit_breaker c) /\
  has_adaptive_concurrency (built_client c) = is_some (built_adaptive_concurrency c) /\
  has_rate_limiter (built_client c) = is_some (built_rate_limiter c) /\
  has_request_limiters (built_client c) = is_some (built_request_limiters c) /\
  b_max_in_flight b <> Some 0 /\ b_max_in_flight_per_host b <> Some 0 /\
  hm_contains_key (Blocking.default_headers (built_client c)) (header_name "user-agent") = true /\
  has_proxy_agent (built_client c) = is_some (proxy_config (built_client c)) /\
  (is_some (proxy_config (built_client c)) = true -> Dns.overrides (built_dns c) = ∅) /\
  Forall (fun a => http_status_as_error a = false /\ agent_max_redirects a = 0)
    (built_direct c :: option_list (built_proxied c)).
Proof.
  intros Hb. apply result_bind_Ok_inv in Hb as ([dns b'] & Hv & Hb).
  apply validate_Ok in Hv as (Hv & Hdns & hs & Hhs & ->). apply result_bind_Ok_inv in Hb as (u & _ & Hb).
  apply result_bind_Ok_inv in Hb as ([direct proxied] & Hag & Hb). injection Hb as <-.
  pose proof (new_user_agent _ _ _ Hhs _) as Hua.
  apply make_agent_configs_Ok in Hag as [Hp Hf].
  destruct Hv as [_ _ _ [Hm1 Hm2] _ Hbudget Hcirc Hadapt _]. cbn. split_and!; try done.
  - rewrite is_some_fmap. exact Hp.
  - rewrite is_some_fmap. by apply (overrides_exclude_proxy _ _ _ Hdns).
Qed.

End Build.

(** ** A built client *)
Module BuilderDemo.
#[export] Existing Instance ref_http.
#[export] Existing Instance ref_url.
#[export] Existing Instance ExecutionDemo.no_dates.
#[export] Existing Instance ProxyDemo.crates.
#[export] Existing Instance DnsDemo.plain_hosts.
#[export] Existing Instance TlsDemo.crates.
Import ClientBuilder.

Definition builder : t (SocketAddr := Z) (E := unit) (T := BlockingTransportOptions) :=
  profile LowLatency
    (max_in_flight (Some 4)
      (new (lit "http://a.example") blocking_transport_default RustlsRing)).

Abbreviation built :=
  (build (UreqProxy := unit) TlsDemo.features EncodingDemo.features false (fun _ => None) 0 builder).
Definition no_overrides : RequestExecutionOverrides :=
  {| o_request_timeout := Some (duration_from_secs 1); o_total_timeout := None; o_retry_policy := None;
     o_max_response_body_bytes := None; o_redirect_policy := None; o_status_policy := None;
     o_auto_accept_encoding := None |}.
Abbreviation prepared c :=
  (prepare (Stream := unit) (built_client c) GET (lit "/x") [] None no_overrides true).

Definition works : bool :=
  match built with
  | Ok c => match prepared c with Ok _ => true | Err _ => false end
  | Err _ => false
  end.
End BuilderDemo.

Import BuilderDemo.

Lemma built_client_options_valid_witness :
  match built with
  | Ok c => match prepared c with
    | Ok input => Execution.request_timeout (in_execution_options _ input) <> 0
    | Err _ => False
    end
  | Err _ => False
  end.
Proof.
  assert (works = true) as Hok by (vm_compute; reflexivity). unfold works in Hok.
  destruct built as [c|e] eqn:Hb; [|discriminate Hok].
  destruct (prepared c) as [input|e] eqn:Hp; [|discriminate Hok].
  refine (proj1 (proj2 (built_client_options_valid _ _ _ _ _ _ c _ _ _ _ no_overrides true input Hb _ _ _ _ Hp))).
  all: vm_compute; try split; intros Hx; discriminate Hx.
Defined.

Lemma built_controls_validated_witness :
  match built with
  | Ok c => hm_contains_key (Blocking.default_headers (built_client c)) (header_name "user-agent") = true
  | Err _ => False
  end.
Proof.
  assert (works = true) as Hok by (vm_compute; reflexivity). unfold works in Hok.
  destruct built as [c|e] eqn:Hb; [|discriminate Hok].
  destruct (built_controls_validated _ _ _ _ _ _ c Hb) as (_ & _ & _ & _ & _ & _ & _ & _ & _ & _ & Hua & _).
  exact Hua.
Defined.
