(* ===== verification/RequestBuilder.v ===== *)
(** * Building a request (blocking_client/request.rs)

    The builder of one request: headers, query, body and overrides, and the methods
    that send it.  Serialisation (serde, serde_urlencoded) and form encoding (the url
    crate) are interfaces; what is proved of the builder is that its body helpers
    leave no contradictory framing behind, in whatever order they are called. *)
From coqutil Require Import Datatypes.RecordSetters.
From Stdlib Require Import Ascii String.
From S2P Require Import Prelude Float64 Text HttpApi UriText Errors Redaction UriResolve Redirect Proxy.
From S2P Require Import Headers ContentEncoding Timing Responses Retry RateLimit Execution.
From S2P Require Import Metrics Lifecycle Program Blocking BlockingStream BlockingDemo.
Import DoubleBraceUpdate.

(** ** The crates *)

(** [HeaderValue::from(u64)] and [HeaderValue::from_static]. *)
Class HeaderValues `{Http} := {
  header_value_from_u64 : Z -> HeaderValue;
  header_value_from_static : string -> HeaderValue;
}.

(** A value made of a number is its decimal text. *)
Class HeaderValuesLaws `{HeaderValues} : Prop := {
  to_str_from_u64 n : is_u64 n -> exists text,
    to_str (header_value_from_u64 n) = Some text /\ text <> [] /\ all_digits text = true /\
    parse_uint u64_max text = Some n;
}.

(** [form_urlencoded::Serializer] on a whole string, and its encoding of a text. *)
Class FormUrlencoded := {
  append_pair : str -> str -> str -> str;
  byte_serialize : str -> str;
}.

Class FormUrlencodedLaws `{FormUrlencoded} : Prop := {
  append_pair_spec query name value :
    append_pair query name value =
    query ++ (if nonempty query then lit "&" else []) ++ byte_serialize name ++ lit "=" ++ byte_serialize value;
  byte_serialize_plain text : chr "#"%char ∉ byte_serialize text;
}.

(** [Serialize] with serde_json, with serde_urlencoded into an existing query, and
    with [serde_urlencoded::to_string]. *)
Class Serialize (T : Type) := {
  to_vec : T -> result (list Z) BoxError;
  serialize_query : T -> str -> result str BoxError;
  urlencoded_to_string : T -> result str BoxError;
}.

Definition IDEMPOTENCY_KEY_HEADER : string := "idempotency-key".

(** ** The builder *)
Module RequestBuilder.
Section RequestBuilder.
Context `{Http} `{UrlCrate} `{HttpDate} `{Codecs} `{!ProxyCrates} `{!HeaderValues} `{!FormUrlencoded}.
Context {E C A P Stream Body : Type} `{!Surroundings E C A P} `{!Ureq E Stream Body}.
Abbreviation Prog := (M E C A P).

Record t := {
  r_client : Client (E := E);
  r_method : Method;
  r_path : str;
  r_query : str;
  r_headers : HeaderMap;
  r_body : option (RequestBody Stream);
  helper_content_length : bool;
  execution_overrides : RequestExecutionOverrides;
}.

Definition no_overrides : RequestExecutionOverrides :=
  {| o_request_timeout := None; o_total_timeout := None; o_retry_policy := None;
     o_max_response_body_bytes := None; o_redirect_policy := None; o_status_policy := None;
     o_auto_accept_encoding := None |}.

Definition new (client : Client) (method : Method) (path : str) : t :=
  {| r_client := client; r_method := method; r_path := path; r_query := []; r_headers := hm_new;
     r_body := None; helper_content_length := false; execution_overrides := no_overrides |}.

Definition CONTENT_LENGTH : HeaderName := header_name "content-length".

Definition header (name : HeaderName) (value : HeaderValue) (b : t) : t :=
  let value := mark_sensitive_header_value name value in
  let b := if bool_decide (name = CONTENT_LENGTH) then b{{helper_content_length := false}} else b in
  b{{r_headers := hm_insert (r_headers b) name value}}.

(** [source] is the error of the http crate. *)
Definition try_header (source : BoxError) (name value : str) (b : t) : result t Error.t :=
  let? name := parse_header_name source name in
  let? value := parse_header_value source (header_name_as_str name) value in
  Ok (header name value b).

Definition idempotency_key (source : BoxError) (key : str) (b : t) : result t Error.t :=
  try_header source (lit IDEMPOTENCY_KEY_HEADER) key b.

Definition query_pair (name value : str) (b : t) : t := b{{r_query := append_pair (r_query b) name value}}.

Definition query_pairs (pairs : list (str * str)) (b : t) : t :=
  b{{r_query := fold_left (fun query '(name, value) => append_pair query name value) pairs (r_query b)}}.

Definition query {T} `{!Serialize T} (params : T) (b : t) : result t Error.t :=
  let? query := result_map_err Error.SerializeQuery (serialize_query params (r_query b)) in
  Ok b{{r_query := query}}.

Definition clear_content_length (b : t) : t :=
  b{{r_headers := hm_remove (r_headers b) CONTENT_LENGTH; helper_content_length := false}}.

Definition body (bytes : list Z) (b : t) : t := (clear_content_length b){{r_body := Some (Buffered bytes)}}.

Definition body_reader (reader : Stream) (b : t) : t :=
  let b := if helper_content_length b then clear_content_length b else b in
  b{{r_body := Some (Streaming reader)}}.

Definition body_reader_with_length (reader : Stream) (content_length : Z) (b : t) : t :=
  let b := body_reader reader b in
  b{{r_headers := hm_insert (r_headers b) CONTENT_LENGTH (header_value_from_u64 content_length);
     helper_content_length := true}}.

Definition json {T} `{!Serialize T} (payload : T) (b : t) : result t Error.t :=
  let? bytes := result_map_err Error.SerializeJson (to_vec payload) in
  Ok (header (header_name "content-type") (header_value_from_static "application/json") (body bytes b)).

Definition form {T} `{!Serialize T} (payload : T) (b : t) : result t Error.t :=
  let? encoded := result_map_err Error.SerializeForm (urlencoded_to_string payload) in
  Ok (header (header_name "content-type") (header_value_from_static "application/x-www-form-urlencoded")
        (body (encode_utf8 encoded) b)).

(** ** Overrides *)
Definition request_timeout (v : Duration) (b : t) : t :=
  b{{execution_overrides -> o_request_timeout := Some v}}.
Definition total_timeout (v : option Duration) (b : t) : t :=
  b{{execution_overrides -> o_total_timeout := Some v}}.
Definition max_response_body_bytes (v : Z) (b : t) : t :=
  b{{execution_overrides -> o_max_response_body_bytes := Some v}}.
Definition retry_policy (v : RetryPolicy) (b : t) : t := b{{execution_overrides -> o_retry_policy := Some v}}.
Definition redirect_policy (v : RedirectPolicy) (b : t) : t :=
  b{{execution_overrides -> o_redirect_policy := Some v}}.
Definition status_policy (v : StatusPolicy) (b : t) : t :=
  b{{execution_overrides -> o_status_policy := Some v}}.
Definition auto_accept_encoding (v : bool) (b : t) : t :=
  b{{execution_overrides -> o_auto_accept_encoding := Some v}}.

(** ** Sending *)
Definition send (fuel rate_fuel : nat) (b : t) : Prog (result Response Error.t) :=
  send_request (Body := Body) (r_client b) fuel rate_fuel (r_method b) (append_query (r_path b) (r_query b))
    (r_headers b) (r_body b) (execution_overrides b).

Definition send_stream (fuel rate_fuel : nat) (b : t)
    : Prog (result (BlockingResponseStream (C := C) (A := A) (P := P) (Body := Body)) Error.t) :=
  send_request_stream (r_client b) fuel rate_fuel (r_method b) (append_query (r_path b) (r_query b))
    (r_headers b) (r_body b) (execution_overrides b).

(** The stream of a request, handed on. *)
Definition with_stream {T} (k : BlockingResponseStream (C := C) (A := A) (P := P) (Body := Body) ->
    Prog (result T Error.t)) (m : Prog (result BlockingResponseStream Error.t)) : Prog (result T Error.t) :=
  r ← m; match r with Ok stream => k stream | Err error => mret (Err error) end.

Definition download_to_writer (fuel rate_fuel chunks retries : nat) (writer : Writer E) (b : t)
    : Prog (result Z Error.t) :=
  with_stream (BlockingStream.copy_to_writer chunks retries writer) (send_stream fuel rate_fuel b).

Definition download_to_writer_limited (fuel rate_fuel chunks retries : nat) (writer : Writer E) (max_bytes : Z)
    (b : t) : Prog (result Z Error.t) :=
  with_stream (BlockingStream.copy_to_writer_limited chunks retries writer max_bytes) (send_stream fuel rate_fuel b).

Definition send_json {T} `{!Serde T} (fuel rate_fuel : nat) (b : t) : Prog (result T Error.t) :=
  BlockingStream.and_then Responses.json (send fuel rate_fuel b).

(** ** Sequences of calls

    A call of a builder method before the request is sent. *)
Inductive call :=
| CallHeader (name : HeaderName) (value : HeaderValue)
| CallTryHeader (source : BoxError) (name value : str)
| CallIdempotencyKey (source : BoxError) (key : str)
| CallQueryPair (name value : str)
| CallQueryPairs (pairs : list (str * str))
| CallQuery (T : Type) (ser : Serialize T) (params : T)
| CallBody (bytes : list Z)
| CallBodyReader (reader : Stream)
| CallBodyReaderWithLength (reader : Stream) (content_length : Z)
| CallJson (T : Type) (ser : Serialize T) (payload : T)
| CallForm (T : Type) (ser : Serialize T) (payload : T)
| CallOverride (set : RequestExecutionOverrides -> RequestExecutionOverrides).

Definition apply_call (c : call) (b : t) : result t Error.t :=
  match c with
  | CallHeader name value => Ok (header name value b)
  | CallTryHeader source name value => try_header source name value b
  | CallIdempotencyKey source key => idempotency_key source key b
  | CallQueryPair name value => Ok (query_pair name value b)
  | CallQueryPairs pairs => Ok (query_pairs pairs b)
  | CallQuery _ ser params => query params b
  | CallBody bytes => Ok (body bytes b)
  | CallBodyReader reader => Ok (body_reader reader b)
  | CallBodyReaderWithLength reader n => Ok (body_reader_with_length reader n b)
  | CallJson _ ser payload => json payload b
  | CallForm _ ser payload => form payload b
  | CallOverride set => Ok b{{execution_overrides := set (execution_overrides b)}}
  end.

Fixpoint apply_calls (calls : list call) (b : t) : result t Error.t :=
  match calls with
  | [] => Ok b
  | c :: calls => let? b := apply_call c b in apply_calls calls b
  end.

(** The names a call sets by hand. *)
Definition sets_by_hand (c : call) (name : HeaderName) : bool :=
  match c with
  | CallHeader n _ => bool_decide (n = name)
  | CallTryHeader source n _ =>
    match parse_header_name source n with Ok n => bool_decide (n = name) | Err _ => false end
  | CallIdempotencyKey source _ =>
    match parse_header_name source (lit IDEMPOTENCY_KEY_HEADER) with
    | Ok n => bool_decide (n = name) | Err _ => false end
  | _ => false
  end.

Definition length_in_range (c : call) : Prop :=
  match c with CallBodyReaderWithLength _ n => is_u64 n | _ => True end.

(** The Content-Length a request has when nobody set one by hand: the length declared
    with the reader, if the body is a reader that came with one. *)
Definition declare (declared : option Z) (c : call) : option Z :=
  match c with
  | CallBodyReaderWithLength _ n => Some n
  | CallBody _ | CallBodyReader _ | CallJson _ _ _ | CallForm _ _ _ => None
  | _ => declared
  end.
Definition declared_length (calls : list call) : option Z := fold_left declare calls None.

(** Nobody set the framing by hand. *)
Definition framing_left_alone (calls : list call) : bool :=
  forallb (fun c => negb (sets_by_hand c CONTENT_LENGTH || sets_by_hand c (header_name "transfer-encoding"))) calls.

(** The state of a builder whose framing nobody set by hand. *)
Record framed (declared : option Z) (b : t) : Prop := {
  framed_flag : helper_content_length b = is_some declared;
  framed_length :
    hm_get_all (r_headers b) CONTENT_LENGTH = option_list (header_value_from_u64 <$> declared);
  framed_reader : is_some declared = true -> exists reader, r_body b = Some (Streaming reader);
  framed_encoding : hm_get_all (r_headers b) (header_name "transfer-encoding") = [];
}.

End RequestBuilder.
End RequestBuilder.

(** ** Lemmas *)
Section Facts.
Context `{HttpLaws} `{UrlCrate} `{HttpDate} `{Codecs} `{!ProxyCrates} `{!HeaderValues} `{!FormUrlencoded}.
Context {E Stream : Type}.
Import RequestBuilder.

(** Projections of an updated record. *)
Ltac fields := simpl; unfold constant in *.

Abbreviation t := (t (E := E) (Stream := Stream)).
Abbreviation call := (call (Stream := Stream)).

Lemma content_type_is_not_framing :
  header_name "content-type" <> CONTENT_LENGTH /\ header_name "content-type" <> header_name "transfer-encoding".
Proof. split; apply header_names_distinct; done. Qed.

Lemma transfer_encoding_is_not_length : header_name "transfer-encoding" <> CONTENT_LENGTH.
Proof. apply header_names_distinct; done. Qed.

Lemma header_framed declared name value (b : t) :
  name <> CONTENT_LENGTH -> name <> header_name "transfer-encoding" ->
  framed declared b -> framed declared (header name value b).
Proof.
  intros Hn Ht [Hf Hl Hr He]. unfold header. rewrite bool_decide_false by done.
  split; fields; [done| |done|]; rewrite hm_get_all_insert, decide_False by done; done.
Qed.

Lemma try_header_framed declared source name value (b b' : t) :
  (forall n, parse_header_name source name = Ok n -> n <> CONTENT_LENGTH /\ n <> header_name "transfer-encoding") ->
  framed declared b -> try_header source name value b = Ok b' -> framed declared b'.
Proof.
  intros Hn Hb (n & Hp & (v & _ & [= <-])%result_bind_Ok_inv)%result_bind_Ok_inv.
  apply Hn in Hp as [??]. by apply header_framed.
Qed.

Lemma clear_framed declared (b : t) : framed declared b -> framed None (clear_content_length b).
Proof.
  intros [_ _ _ He]. pose proof transfer_encoding_is_not_length.
  split; fields; try done; rewrite hm_get_all_remove; case_decide; done.
Qed.

Lemma set_body_framed declared (b : t) body :
  framed declared b -> (is_some declared = true -> exists reader, body = Streaming reader) ->
  framed declared b{{r_body := Some body}}.
Proof. intros [Hf Hl Hr He] Hb. split; fields; try done. intros Hd. destruct (Hb Hd) as [reader ->]. eauto. Qed.

Lemma body_framed declared bytes (b : t) : framed declared b -> framed None (body bytes b).
Proof. intros Hb%clear_framed. by apply set_body_framed. Qed.

Lemma body_reader_framed declared reader (b : t) : framed declared b -> framed None (body_reader reader b).
Proof.
  intros Hb. unfold body_reader. destruct (helper_content_length b) eqn:Hh; apply set_body_framed; eauto using clear_framed.
  destruct declared; [|done]. by rewrite (framed_flag _ _ Hb) in Hh.
Qed.

Lemma body_reader_with_length_framed declared reader n (b : t) :
  framed declared b -> framed (Some n) (body_reader_with_length reader n b).
Proof.
  intros Hb%(body_reader_framed _ reader). unfold body_reader_with_length.
  assert (r_body (body_reader reader b) = Some (Streaming reader)) as Hr.
  { unfold body_reader. by destruct (helper_content_length b). }
  revert Hb Hr. generalize (body_reader reader b). intros b' [_ _ _ He] Hr.
  pose proof transfer_encoding_is_not_length.
  split; fields; eauto; rewrite hm_get_all_insert; case_decide; done.
Qed.

Lemma apply_call_framed declared (c : call) (b b' : t) :
  sets_by_hand c CONTENT_LENGTH = false -> sets_by_hand c (header_name "transfer-encoding") = false ->
  framed declared b -> apply_call c b = Ok b' -> framed (declare declared c) b'.
Proof.
  intros Hl Ht Hb. destruct content_type_is_not_framing as [Hc1 Hc2].
  assert (forall q, framed declared b{{r_query := q}}) as Hq by (intros q; by destruct Hb).
  destruct c; cbn [sets_by_hand apply_call declare] in *; try (intros [= <-]).
  - apply header_framed; [by apply bool_decide_eq_false in Hl|by apply bool_decide_eq_false in Ht|done].
  - apply try_header_framed; [|done]. intros n Hn. rewrite Hn in Hl, Ht.
    by apply bool_decide_eq_false in Hl, Ht.
  - apply try_header_framed; [|done]. intros n Hn. rewrite Hn in Hl, Ht.
    by apply bool_decide_eq_false in Hl, Ht.
  - apply Hq.
  - apply Hq.
  - intros (q & _ & [= <-])%result_bind_Ok_inv. apply Hq.
  - by eapply body_framed.
  - by eapply body_reader_framed.
  - by eapply body_reader_with_length_framed.
  - intros (bytes & _ & [= <-])%result_bind_Ok_inv. apply header_framed; [done..|]. by eapply body_framed.
  - intros (bytes & _ & [= <-])%result_bind_Ok_inv. apply header_framed; [done..|]. by eapply body_framed.
  - by destruct Hb.
Qed.

Lemma apply_calls_framed (calls : list call) declared (b b' : t) :
  framing_left_alone calls = true -> framed declared b -> apply_calls calls b = Ok b' -> framed (fold_left declare calls declared) b'.
Proof.
  revert declared b. induction calls as [|c calls IH]; intros declared b; simpl.
  - intros _ Hb [= <-]. done.
  - intros Hh Hb (b1 & Hc & Hr)%result_bind_Ok_inv. zbool. eauto using apply_call_framed.
Qed.

Lemma new_framed (client : Client (E := E)) method path : framed None (new (Stream := Stream) client method path).
Proof. split; simpl; rewrite ?hm_get_all_new; done. Qed.

Lemma declared_in_range (calls : list call) declared n :
  (forall n, declared = Some n -> is_u64 n) -> Forall length_in_range calls ->
  fold_left declare calls declared = Some n -> is_u64 n.
Proof.
  revert declared. induction calls as [|c calls IH]; intros declared Hd Hr; simpl; [eauto|].
  inversion Hr as [|?? Hc Hcs]; subst. apply IH; [|done]. intros m. destruct c; simpl in *; try naive_solver.
Qed.

(** The request of a builder whose framing nobody set by hand. *)
Lemma framed_request_sound `{!HeaderValuesLaws} (client : Client (E := E)) declared (b : t) auto input method' uri :
  framed declared b -> (forall n, declared = Some n -> is_u64 n) ->
  hm_get_all (Blocking.default_headers client) (header_name "transfer-encoding") = [] ->
  prepare client (r_method b) (append_query (r_path b) (r_query b)) (r_headers b) (r_body b)
    (execution_overrides b) auto = Ok input ->
  hm_get_all (in_merged_headers _ input) CONTENT_LENGTH = option_list (header_value_from_u64 <$> declared) /\
  validate_request_framing_headers (in_merged_headers _ input) (known_length (in_body _ input)) method' uri = Ok tt.
Proof.
  intros [_ Hl Hbody Ht] Hr Hd Hp. unfold prepare in Hp.
  pose proof (prepared_request_is_sound _ _ _ _ _ _ _ _ _ _ _ _ Hp) as [_ Hcl].
  change (header_name "content-length") with CONTENT_LENGTH in Hcl. rewrite Hl in Hcl. split; [exact Hcl|].
  destruct (prepared_header _ _ _ _ _ _ _ _ _ _ _ _ (header_name "transfer-encoding") Hp) as [Hte Hin].
  { apply transfer_encoding_is_not_length. }
  { by apply header_names_distinct. }
  rewrite Ht, Hd in Hte. apply accepted_framing. split; [exact Hte|].
  change (header_name "content-length") with CONTENT_LENGTH. rewrite Hcl.
  destruct declared as [n|]; [right|by left].
  destruct (to_str_from_u64 n) as (text & ? & ? & ? & ?); [by apply Hr|].
  exists (header_value_from_u64 n), text, n. split_and!; try done.
  rewrite Hin. destruct Hbody as [reader ->]; [done|]. done.
Qed.

(** C19: The framing of a built request is consistent: in whatever order the body
    helpers are called, and whatever other headers are set, when the caller sets
    neither Content-Length nor Transfer-Encoding by hand the request carries the
    length declared with its current reader, or none, no length of a replaced body
    survives, and the request passes the framing check of the loop. *)
Theorem builder_framing_sound `{!HeaderValuesLaws} (client : Client (E := E)) method path (calls : list call)
    (b : t) auto input method' uri :
  apply_calls calls (new client method path) = Ok b ->
  framing_left_alone calls = true -> Forall length_in_range calls ->
  hm_get_all (Blocking.default_headers client) (header_name "transfer-encoding") = [] ->
  prepare client (r_method b) (append_query (r_path b) (r_query b)) (r_headers b) (r_body b)
    (execution_overrides b) auto = Ok input ->
  hm_get_all (in_merged_headers _ input) CONTENT_LENGTH =
    option_list (header_value_from_u64 <$> declared_length calls) /\
  validate_request_framing_headers (in_merged_headers _ input) (known_length (in_body _ input)) method' uri = Ok tt.
Proof.
  intros Hb Hh Hr Hd Hp. apply (framed_request_sound client (declared_length calls) b auto); [|..|exact Hd|exact Hp].
  - by eapply (apply_calls_framed calls None _ _ Hh (new_framed _ _ _)).
  - intros n. by apply (declared_in_range calls None n).
Qed.

(** ** The query *)
Section Query.
Context `{!FormUrlencodedLaws}.

Definition encode_pair (pair : str * str) : str := byte_serialize pair.1 ++ lit "=" ++ byte_serialize pair.2.

Lemma encode_pair_nonempty p : encode_pair p <> [].
Proof. unfold encode_pair. by destruct (byte_serialize p.1). Qed.

(** Texts with ampersands between them. *)
Fixpoint ampersands (items : list str) : str :=
  match items with
  | [] => []
  | [item] => item
  | item :: items => item ++ lit "&" ++ ampersands items
  end.

Lemma ampersands_snoc items x :
  Forall (fun item => item <> []) items ->
  ampersands (items ++ [x]) = ampersands items ++ (if nonempty (ampersands items) then lit "&" else []) ++ x.
Proof.
  induction items as [|item items IH]; intros Hi; [done|]. inversion Hi as [|?? Hne Hrest]; subst.
  destruct items as [|item' items]; [by destruct item|].
  change (ampersands ((item :: item' :: items) ++ [x])) with (item ++ lit "&" ++ ampersands ((item' :: items) ++ [x])).
  change (ampersands (item :: item' :: items)) with (item ++ lit "&" ++ ampersands (item' :: items)).
  rewrite IH by done. inversion Hrest; subst.
  assert (forall s, nonempty (item ++ s) = true) as -> by by destruct item.
  assert (nonempty (ampersands (item' :: items)) = true) as -> by (destruct item', items; done).
  by rewrite <- !app_assoc.
Qed.

Lemma append_pairs_text pairs items :
  Forall (fun item => item <> []) items ->
  fold_left (fun query '(name, value) => append_pair query name value) pairs (ampersands items) =
  ampersands (items ++ (encode_pair <$> pairs)).
Proof.
  revert items. induction pairs as [|[name value] pairs IH]; intros items Hi; simpl; [by rewrite app_nil_r|].
  rewrite append_pair_spec. change (byte_serialize name ++ lit "=" ++ byte_serialize value) with (encode_pair (name, value)).
  rewrite <- ampersands_snoc by done. rewrite IH, <- app_assoc; [done|].
  apply Forall_app_2; [done|]. constructor; [apply encode_pair_nonempty|done].
Qed.

Lemma ampersands_plain pairs : chr "#"%char ∉ ampersands (encode_pair <$> pairs).
Proof.
  assert (forall p, chr "#"%char ∉ encode_pair p) as Hp.
  { intros p. unfold encode_pair. rewrite !elem_of_app. intros [Hx|[Hx|Hx]]; try by apply byte_serialize_plain in Hx.
    by apply list_elem_of_singleton in Hx. }
  induction pairs as [|p pairs IH]; [set_solver|]. rewrite fmap_cons.
  destruct (encode_pair <$> pairs) as [|q qs]; [apply Hp|].
  change (ampersands (encode_pair p :: q :: qs)) with (encode_pair p ++ lit "&" ++ ampersands (q :: qs)).
  rewrite !elem_of_app. intros [Hx|[Hx|Hx]]; [by apply Hp in Hx| |by apply IH]. by apply list_elem_of_singleton in Hx.
Qed.

(** The pairs of a builder reach the request: the target it is sent to has the path and
    the fragment it was given and, as its query, the given one followed by the encoded
    pairs in order, with single ampersands between them. *)
Lemma builder_query_appended pairs (b : t) :
  r_query b = [] -> pairs <> [] ->
  let b' := query_pairs pairs b in
  let target := append_query (r_path b') (r_query b') in
  let added := ampersands (encode_pair <$> pairs) in
  ref_path target = ref_path (r_path b) /\ ref_fragment target = ref_fragment (r_path b) /\
  ref_query target = Some match ref_query (r_path b) with
    | None | Some [] => added
    | Some q => if ends_with (lit "&") q then q ++ added else q ++ lit "&" ++ added
    end.
Proof.
  intros Hq Hp. cbn zeta.
  assert (r_query (query_pairs pairs b) = ampersands (encode_pair <$> pairs)) as ->.
  { unfold query_pairs. fields. rewrite Hq. by apply (append_pairs_text pairs []). }
  assert (r_path (query_pairs pairs b) = r_path b) as -> by (by destruct b). apply append_query_parts; [|apply ampersands_plain].
  destruct pairs as [|p pairs]; [done|]. rewrite fmap_cons. pose proof (encode_pair_nonempty p).
  destruct (encode_pair p), (encode_pair <$> pairs); done.
Qed.

End Query.

End Facts.

(** ** Reference instances

    Decimal numbers and the form encoding of the URL standard: the laws can hold. *)
Module RequestDemo.
#[export] Existing Instance ref_http.
#[export] Existing Instance ref_url.
#[export] Existing Instance ExecutionDemo.no_dates.
#[export] Existing Instance EncodingDemo.codecs.
#[export] Existing Instance ProxyDemo.crates.

Fixpoint decimal (fuel : nat) (n : Z) : str :=
  match fuel with
  | O => []
  | S fuel => (if n <? 10 then [] else decimal fuel (n / 10)) ++ [48 + n mod 10]
  end.

Lemma parse_digits_snoc acc s c n :
  is_ascii_digit c = true -> parse_digits acc s = Some n -> parse_digits acc (s ++ [c]) = Some (n * 10 + (c - 48)).
Proof.
  intros Hc. revert acc. induction s as [|d s IH]; intros acc; simpl; [by rewrite Hc; intros [= ->]|].
  destruct (is_ascii_digit d); [apply IH|done].
Qed.

Lemma digit_is_digit n : is_ascii_digit (48 + n mod 10) = true.
Proof. unfold is_ascii_digit. pose proof (Z.mod_pos_bound n 10). apply andb_true_iff; split; apply Z.leb_le; lia. Qed.

Lemma decimal_parses fuel n :
  0 <= n < 10 ^ Z.of_nat fuel -> parse_digits 0 (decimal fuel n) = Some n.
Proof.
  revert n. induction fuel as [|fuel IH]; intros n Hn; simpl.
  - f_equal. change (10 ^ Z.of_nat 0) with 1 in Hn. lia.
  - rewrite Nat2Z.inj_succ, Z.pow_succ_r in Hn by lia. pose proof (Z.div_mod n 10 ltac:(lia)) as Hd.
    destruct (Z.ltb_spec n 10).
    + simpl. rewrite digit_is_digit. f_equal. rewrite Z.mod_small by lia. lia.
    + rewrite (parse_digits_snoc _ _ _ (n / 10)); [f_equal; lia|apply digit_is_digit|]. apply IH.
      split; [apply Z.div_pos; lia|apply Z.div_lt_upper_bound; lia].
Qed.

Lemma decimal_digits fuel n : forallb is_ascii_digit (decimal fuel n) = true.
Proof.
  revert n. induction fuel as [|fuel IH]; intros n; simpl; [done|].
  rewrite forallb_app. simpl. rewrite digit_is_digit, andb_true_r. destruct (n <? 10); [done|apply IH].
Qed.

#[export] Instance values : HeaderValues := {
  header_value_from_u64 n := {| RefHttp.text := decimal 20 n; RefHttp.sensitive := false |};
  header_value_from_static s := {| RefHttp.text := lit s; RefHttp.sensitive := false |};
}.

#[export] Instance values_laws : HeaderValuesLaws.
Proof.
  split. intros n Hn. exists (decimal 20 n). split; [done|].
  assert (u64_max < 10 ^ Z.of_nat 20) as Hmax by done. unfold in_width in Hn.
  assert (0 <= n < 10 ^ Z.of_nat 20) as Hp%decimal_parses by lia.
  assert (decimal 20 n <> []) as Hne by (simpl; by destruct (if _ <? _ then _ else _)).
  pose proof (decimal_digits 20 n) as Hd. split; [exact Hne|]. split; [exact Hd|]. clear Hmax.
  revert Hp Hne Hd. generalize (decimal 20 n). intros [|c s] Hp Hne Hd; [by destruct Hne|].
  unfold parse_uint. simpl in Hd. apply andb_true_iff in Hd as [Hc _].
  destruct (Z.eqb_spec c 43) as [->|_]; [discriminate Hc|]. rewrite Hp. simpl.
  rewrite (proj2 (Z.leb_le _ _)) by apply Hn. reflexivity.
Qed.

Definition hex_digit (d : Z) : Z := if d <? 10 then 48 + d else 55 + d.
Definition encode_byte (c : Z) : str :=
  if is_ascii_alphanumeric c || bool_decide (c ∈ lit "*-._") then [c]
  else if c =? 32 then lit "+" else [chr "%"%char; hex_digit (c / 16 mod 16); hex_digit (c mod 16)].

#[export] Instance form_crate : FormUrlencoded := {
  byte_serialize s := concat (encode_byte <$> encode_utf8 s);
  append_pair query name value :=
    query ++ (if nonempty query then lit "&" else []) ++ concat (encode_byte <$> encode_utf8 name) ++ lit "="
      ++ concat (encode_byte <$> encode_utf8 value);
}.

Lemma hex_digit_plain d : 0 <= d < 16 -> hex_digit d <> chr "#"%char.
Proof. unfold hex_digit. change (chr "#"%char) with 35. case_match; lia. Qed.

#[export] Instance form_crate_laws : FormUrlencodedLaws.
Proof.
  split; [done|]. intros text Hin. simpl in Hin. apply list_elem_of_In, in_concat in Hin as (s & Hs & Hin).
  apply list_elem_of_In in Hs, Hin. apply list_elem_of_fmap in Hs as (c & -> & _). revert Hin. unfold encode_byte.
  destruct (is_ascii_alphanumeric c || bool_decide (c ∈ lit "*-._")) eqn:Hc.
  - intros Hx%list_elem_of_singleton. subst c. done.
  - destruct (c =? 32); [by intros ?%list_elem_of_singleton|].
    pose proof (hex_digit_plain (c / 16 mod 16) (Z.mod_pos_bound _ 16 eq_refl)).
    pose proof (hex_digit_plain (c mod 16) (Z.mod_pos_bound _ 16 eq_refl)).
    rewrite !elem_of_cons. intros [?|[?|[?|?%elem_of_nil]]]; done.
Qed.

(** A reader with a length, replaced by a buffered body, then two query pairs. *)
Import RequestBuilder.
Definition calls : list (call (Stream := unit)) :=
  [CallBodyReaderWithLength tt 7; CallBody [1; 2]; CallQueryPairs [(lit "a b", lit "1&2"); (lit "c", lit "#")];
   CallBodyReaderWithLength tt 42].

Lemma demo_lengths : is_u64 7 /\ is_u64 42.
Proof. unfold in_width, u64_max. lia. Qed.

End RequestDemo.

Import RequestDemo RequestBuilder.
Abbreviation demo_client := (BlockingDemo.client).
Abbreviation demo_built := (apply_calls calls (new demo_client POST (lit "/v1?x=0#f"))).

Definition demo_prepared : bool :=
  match demo_built with
  | Ok b => is_ok (prepare demo_client (r_method b) (append_query (r_path b) (r_query b)) (r_headers b) (r_body b)
                     (execution_overrides b) true)
  | Err _ => false
  end.

(** The pairs and what is left of the two readers. *)
Example demo_target :
  match demo_built with
  | Ok b => Some (append_query (r_path b) (r_query b), declared_length calls)
  | Err _ => None
  end = Some (lit "/v1?x=0&a+b=1%262&c=%23#f", Some 42).
Proof. vm_compute. reflexivity. Qed.

Lemma builder_framing_sound_witness :
  match demo_built with
  | Ok b =>
    match prepare demo_client (r_method b) (append_query (r_path b) (r_query b)) (r_headers b) (r_body b)
            (execution_overrides b) true with
    | Ok input =>
      hm_get_all (in_merged_headers _ input) CONTENT_LENGTH = [header_value_from_u64 42] /\
      validate_request_framing_headers (in_merged_headers _ input) (known_length (in_body _ input)) POST [] = Ok tt
    | Err _ => False
    end
  | Err _ => False
  end.
Proof.
  assert (demo_prepared = true) as Hok by (vm_compute; reflexivity). unfold demo_prepared in Hok.
  destruct demo_built as [b|e] eqn:Hb; [|discriminate Hok].
  destruct (prepare demo_client (r_method b) (append_query (r_path b) (r_query b)) (r_headers b) (r_body b)
              (execution_overrides b) true) as [input|e] eqn:Hp; [|discriminate Hok].
  refine (builder_framing_sound demo_client POST (lit "/v1?x=0#f") calls b true input POST [] Hb _ _ _ Hp).
  - vm_compute. reflexivity.
  - apply Forall_cons_2; [exact (proj1 demo_lengths)|]. apply Forall_cons_2; [exact I|].
    apply Forall_cons_2; [exact I|]. apply Forall_cons_2; [exact (proj2 demo_lengths)|]. apply Forall_nil_2.
  - reflexivity.
Defined.
