(* ===== verification/Async.v ===== *)
(** * The async client's request loop (async_client/client.rs, with
    [read_all_body_limited] of async_client/body.rs, [TransportRequestError] of
    async_client/transport.rs and async_client/transport_error.rs)

    The loop of the blocking client with an await at every wait.  A future can be
    dropped while it waits: its locals are then destroyed, innermost scope first, and
    nothing after the await runs.  An operation that is awaited therefore answers, or
    does not ([None]) because the future is dropped there; [owning] runs the
    destructors of a scope when that happens inside it.  The operations that do not
    wait are the same code in both clients: they are those of [Blocking], on the
    fields both clients have. *)
From Stdlib Require Import Ascii String.
From S2P Require Import Prelude Float64 Text HttpApi UriText Errors Redaction UriResolve Redirect Proxy.
From S2P Require Import Headers ContentEncoding Timing Responses Retry RetryBudget RateLimit Execution Limiters.
From S2P Require Import Metrics Lifecycle Program Blocking.

(** ** Errors of the hyper transport *)

(** What the classification asks of a [hyper::Error]. *)
Record HyperError := {
  hyper_timeout : bool;
  hyper_incomplete_message : bool;
  hyper_body_write_aborted : bool;
  hyper_closed : bool;
  hyper_shutdown : bool;
}.

Section Classification.
(** [downcast_ref::<hyper::Error>()], and [is_connect()] of the client's error. *)
Context (as_hyper : BoxError -> option HyperError) (is_connect : BoxError -> bool).

Definition classify_transport_error_source (error : BoxError) (is_connect_path : bool)
    : option TransportErrorKind.t :=
  match io_error_kind error with
  | Some kind => classify_io_transport_error_kind kind is_connect_path
  | None =>
    match as_hyper error with
    | Some h =>
      if hyper_timeout h
      then Some (if is_connect_path then TransportErrorKind.Connect else TransportErrorKind.Read)
      else if hyper_incomplete_message h || hyper_body_write_aborted h then Some TransportErrorKind.Read
      else if negb is_connect_path && (hyper_closed h || hyper_shutdown h) then Some TransportErrorKind.Read
      else None
    | None => None
    end
  end.

Fixpoint classify_chain (error : BoxError) (is_connect_path : bool) : option TransportErrorKind.t :=
  match classify_transport_error_source error is_connect_path with
  | Some kind => Some kind
  | None =>
    match error with
    | Dyn _ _ _ (Some source) => classify_chain source is_connect_path
    | Dyn _ _ _ None => None
    end
  end.

Definition classify_transport_error_source_chain (error : BoxError) (is_connect_path : bool)
    : option TransportErrorKind.t :=
  if is_tls_error error then Some TransportErrorKind.Tls else classify_chain error is_connect_path.

Definition DNS_MARKERS : list string :=
  ["name or service not known"; "failed to lookup address"; "no such host";
   "temporary failure in name resolution"; "nodename nor servname provided"; "dns lookup failed"].
Definition TLS_MARKERS : list string :=
  ["tls handshake"; "certificate verify"; "certificate unknown"; "invalid certificate";
   "self signed certificate"; "received fatal alert"; "alertreceived"; "protocolversion"; "protocol version";
   "x509"; "pkix"; "peer certificate"].
Definition CONNECT_MARKERS : list string :=
  ["connection refused"; "connection aborted"; "not connected"; "network unreachable"; "host unreachable";
   "connect error"; "proxy connect"; "tunnel error: unexpected end of file";
   "tunnel error: io error establishing tunnel"; "tunnel error: failed to create underlying connection";
   "timed out while connecting"; "connection timeout"; "connect timeout"].
Definition READ_MARKERS : list string :=
  ["connection reset"; "broken pipe"; "unexpected eof"; "incomplete message";
   "connection closed before message completed"; "body write aborted"].

Definition contains_marker (text : str) (markers : list string) : bool :=
  existsb (fun marker => contains_text (lit marker) text) markers.

Definition contains_word (text : str) (word : string) : bool :=
  existsb (fun token => bool_decide (token = lit word))
    (split_with (fun c => negb (is_ascii_alphanumeric c)) text).

Definition classify_transport_error_text (text : str) (is_connect_path : bool) : TransportErrorKind.t :=
  if contains_marker text DNS_MARKERS || contains_word text "dns" then TransportErrorKind.Dns
  else if contains_marker text TLS_MARKERS || contains_word text "tls" || contains_word text "ssl"
          || contains_word text "certificate" then TransportErrorKind.Tls
  else if contains_marker text CONNECT_MARKERS then TransportErrorKind.Connect
  else if contains_marker text READ_MARKERS then TransportErrorKind.Read
  else if is_connect_path && contains_marker text ["timed out"; "timeout"]%string
  then TransportErrorKind.Connect
  else TransportErrorKind.Other.

(** The texts of an error and its sources, in lower case. *)
Fixpoint chain_text (error : BoxError) : str :=
  match error with
  | Dyn _ display _ source =>
    to_ascii_lowercase display ++
      match source with Some cause => lit " " ++ chain_text cause | None => [] end
  end.

Definition classify_transport_error (error : BoxError) : TransportErrorKind.t :=
  match classify_transport_error_source_chain error (is_connect error) with
  | Some kind => kind
  | None => classify_transport_error_text (chain_text error) (is_connect error)
  end.

End Classification.

(** ** Awaiting *)
Definition aop (E T : Type) : Type := E -> option T * E.

Inductive waited (T : Type) := Finished (value : T) | Elapsed.
Arguments Finished {T} value.
Arguments Elapsed {T}.

Inductive polled (T : Type) := Ready (value : T) | Dropped.
Arguments Ready {T} value.
Arguments Dropped {T}.

(** The runtime, the limiters and the transport.  A frame of a body is data, or
    trailers. *)
Class Tokio `{Http} (E A P Stream Body : Type) := {
  timeout_at : forall {T}, Instant -> aop E T -> aop E (waited T);
  timeout : forall {T}, Duration -> aop E T -> aop E (waited T);
  tokio_sleep : Duration -> aop E unit;
  limiters_acquire_global : aop E (result (option P) Error.t);
  limiters_acquire_host : option str -> aop E (result (option P) Error.t);
  controller_acquire : aop E A;
  transport_request : Method -> Uri -> HeaderMap -> RequestBody Stream ->
    aop E (result (HttpResponse Body) BoxError);
  body_frames : Body -> aop E (list (result (option (list Z)) BoxError));
  as_hyper : BoxError -> option HyperError;
  is_connect : BoxError -> bool;
}.

(** What the transport of a build with a TLS backend fails with. *)
Inductive TransportRequestError := TransportFailed (source : BoxError) | TransportTimeout.

(** [read_all_body_limited]: the data frames up to the limit. *)
Fixpoint read_frames_limited (frames : list (result (option (list Z)) BoxError)) (max_bytes : Z)
    (collected : list Z) : result (list Z) ReadBodyError :=
  match frames with
  | [] => Ok collected
  | Err source :: _ => Err (Read source)
  | Ok None :: frames => read_frames_limited frames max_bytes collected
  | Ok (Some data) :: frames =>
    let total_len := sat_add usize_max (Z.of_nat (length collected)) (Z.of_nat (length data)) in
    if max_bytes <? total_len then Err (TooLarge total_len)
    else read_frames_limited frames max_bytes (collected ++ data)
  end.

Definition read_all_body_limited (frames : list (result (option (list Z)) BoxError)) (max_bytes : Z)
    : result (list Z) ReadBodyError := read_frames_limited frames max_bytes [].

Module Async.
Section Async.
Context `{Http} `{UrlCrate} `{HttpDate} `{Codecs} `{!ProxyCrates}.
Context {E C A P Stream Body : Type} `{!Surroundings E C A P} `{!Tokio E A P Stream Body}.

Abbreviation Prog := (M E C A P).
Abbreviation Guards := (AttemptGuards C A).
Abbreviation ResponseStream := (BlockingResponseStream (C := C) (A := A) (P := P) (Body := Body)).
Abbreviation RetryResponse := (RetryResponse (C := C) (A := A) (P := P) (Body := Body)).
Abbreviation turn_end := (turn_end (C := C) (A := A) (P := P) (Stream := Stream) (Body := Body)).
Context (client : Client (E := E)).

Definition await {T} (op : aop E T) (events : T -> list (event C A P)) : Prog (polled T) :=
  answer ← act op (fun r => match r with Some a => events a | None => [] end);
  mret match answer with Some a => Ready a | None => Dropped end.

Definition and_then {T U} (m : Prog (polled T)) (k : T -> Prog (polled U)) : Prog (polled U) :=
  r ← m; match r with Ready a => k a | Dropped => mret Dropped end.

Definition ready {T} (a : T) : Prog (polled T) := mret (Ready a).

(** A wait in a scope with locals to destroy. *)
Definition owning {T} (locals : Prog unit) (m : Prog (polled T)) : Prog (polled T) :=
  r ← m; match r with Ready a => mret (Ready a) | Dropped => _ ← locals; mret Dropped end.

(** The guards and the host permit of an attempt. *)
Definition drop_attempt (g : Guards) (host_permit : option P) : Prog unit :=
  _ ← drop_guards g; drop_permit host_permit.

(** ** Waiting for the controls *)

(** [timeout_at] the deadline of the request, if it has one. *)
Definition before_deadline {T} (op : aop E (result T Error.t)) (events : T -> list (event C A P))
    (total_timeout : option Duration) (request_started_at : Instant) (method : Method) (uri : str)
    : Prog (polled (result T Error.t)) :=
  let events r := match r with Ok a => events a | Err _ => [] end in
  match total_timeout_deadline total_timeout request_started_at with
  | None => await op events
  | Some deadline_at =>
    now ← instant_now;
    if deadline_at <=? now then ready (Err (deadline_exceeded_error total_timeout method uri))
    else
      and_then (await (timeout_at deadline_at op) (fun r => match r with Finished r => events r | Elapsed => [] end))
        (fun r => ready match r with
           | Finished r => r
           | Elapsed => Err (deadline_exceeded_error total_timeout method uri)
           end)
  end.

Definition permit_events (p : option P) : list (event C A P) :=
  match p with Some p => [PermitTaken p] | None => [] end.

Definition acquire_global_request_permit (total_timeout : option Duration) (request_started_at : Instant)
    (method : Method) (uri : str) : Prog (polled (result (option P) Error.t)) :=
  if negb (has_request_limiters client) then ready (Ok None)
  else before_deadline limiters_acquire_global permit_events total_timeout request_started_at method uri.

Definition acquire_host_request_permit (host : option str) (total_timeout : option Duration)
    (request_started_at : Instant) (method : Method) (uri : str) : Prog (polled (result (option P) Error.t)) :=
  if negb (has_request_limiters client) then ready (Ok None)
  else before_deadline (limiters_acquire_host host) permit_events total_timeout request_started_at method uri.

(** The controller's permit as a result, to share [before_deadline]. *)
Definition acquired_permit : aop E (result A Error.t) := fun e =>
  let '(permit, e) := controller_acquire e in (Ok <$> permit, e).

Definition begin_adaptive_attempt (total_timeout : option Duration) (request_started_at : Instant)
    (method : Method) (uri : str) : Prog (polled (result (option A) Error.t)) :=
  if negb (has_adaptive_concurrency client) then ready (Ok None)
  else
    and_then (before_deadline acquired_permit (fun a => [AdaptiveBegan a]) total_timeout request_started_at method uri)
      (fun r => ready match r with Ok permit => Ok (Some permit) | Err error => Err error end).

Definition sleep (d : Duration) : Prog (polled unit) := await (tokio_sleep d) (fun _ => [Slept d]).

Fixpoint rate_limit_loop (fuel : nat) (host : option str) (total_timeout : option Duration)
    (request_started_at : Instant) (method : Method) (uri : str) : Prog (polled (result unit Error.t)) :=
  match fuel with
  | O => fun _ => None
  | S fuel =>
    wait ← act (env_rate_delay host) (fun _ => []);
    if duration_is_zero wait then ready (Ok tt)
    else
      now ← instant_now;
      match bounded_retry_delay wait total_timeout request_started_at now with
      | None => ready (Err (deadline_exceeded_error total_timeout method uri))
      | Some wait =>
        and_then (sleep wait) (fun _ => rate_limit_loop fuel host total_timeout request_started_at method uri)
      end
  end.

Definition acquire_rate_limit_slot (fuel : nat) (host : option str) (total_timeout : option Duration)
    (request_started_at : Instant) (method : Method) (uri : str) : Prog (polled (result unit Error.t)) :=
  if negb (has_rate_limiter client) then ready (Ok tt)
  else rate_limit_loop fuel host total_timeout request_started_at method uri.

(** ** Proxy credentials *)
Definition should_apply_http_proxy_auth_header (uri : Uri) : bool :=
  match proxy_config client with
  | None => false
  | Some config =>
    match uri_scheme_str uri with
    | None => false
    | Some scheme =>
      if negb (eq_ignore_ascii_case scheme (lit "http")) then false
      else negb (should_bypass_proxy_uri (no_proxy_rules _ config) uri)
    end
  end.

Definition apply_http_proxy_auth_header (uri : Uri) (headers : HeaderMap) : HeaderMap :=
  if negb (should_apply_http_proxy_auth_header uri) || hm_contains_key headers (header_name "proxy-authorization")
  then headers
  else match proxy_config client with
  | Some config =>
    match authorization _ config with
    | Some proxy_authorization => hm_insert headers (header_name "proxy-authorization") proxy_authorization
    | None => headers
    end
  | None => headers
  end.

(** The headers of an exchange: hop-by-hop credentials never reach the origin. *)
Definition wire_headers (uri : Uri) (headers : HeaderMap) : HeaderMap :=
  apply_http_proxy_auth_header uri (hm_remove (mark_sensitive_headers headers) (header_name "proxy-authorization")).

(** ** One exchange *)
Definition send_transport_request (transport_timeout : Duration) (method : Method) (uri : Uri)
    (headers : HeaderMap) (request_body : RequestBody Stream)
    : Prog (polled (result (HttpResponse Body) TransportRequestError)) :=
  _ ← act_ (fun e => e) [Sent method (uri_to_string uri) (is_streaming request_body)];
  and_then (await (timeout transport_timeout (transport_request method uri headers request_body)) (fun _ => []))
    (fun r => ready match r with
       | Finished (Ok response) => Ok response
       | Finished (Err source) => Err (TransportFailed source)
       | Elapsed => Err TransportTimeout
       end).

(** [TransportRequestError::into_error]. *)
Definition into_error (error : TransportRequestError) (x : RequestExecutionState) (transport_timeout : Duration)
    : Prog Error.t :=
  match error with
  | TransportFailed source =>
    mret (transport_error (classify_transport_error as_hyper is_connect source) (current_method x)
            (current_redacted_uri x) source)
  | TransportTimeout =>
    now ← instant_now; mret (transport_timeout_error now (duration_millis_ceil transport_timeout) x)
  end.

(** ** Reading the body *)
Definition read_response_body_with_retry (response : HttpResponse Body) (x : RequestExecutionState)
    (ctx : RequestContext) (read_timeout : Duration)
    : Prog (polled (result BodyReadOutcome Error.t * RequestExecutionState)) :=
  and_then (await (timeout read_timeout (body_frames (response_body response))) (fun _ => []))
    (fun r =>
       r ← match r with
           | Finished frames =>
             match read_all_body_limited frames (max_response_body_bytes (options x)) with
             | Ok bytes => mret (Ok (ReadBytes bytes), x)
             | Err (Read source) =>
               rng ← sample;
               handle_body_read_failure client x ctx
                 (response_body_read_failure rng (backoff_source client) x source)
             | Err (TooLarge actual_bytes) =>
               let error := response_body_too_large_error x actual_bytes in
               _ ← run_error_interceptors client ctx error; mret (Err error, x)
             end
           | Elapsed =>
             now ← instant_now;
             rng ← sample;
             handle_body_read_failure client x ctx
               (response_body_timeout_failure rng (backoff_source client) now read_timeout x)
           end;
       ready r).

Definition check_deadline {T} (x : RequestExecutionState) (ctx : RequestContext)
    (k : Prog (polled (result T Error.t * RequestExecutionState)))
    : Prog (polled (result T Error.t * RequestExecutionState)) :=
  now ← instant_now;
  match error_if_elapsed x now with
  | Some error => _ ← run_error_interceptors client ctx error; ready (Err error, x)
  | None => k
  end.

Definition read_decoded_response_body_with_retry (response : HttpResponse Body) (headers : HeaderMap)
    (status : StatusCode) (x : RequestExecutionState) (ctx : RequestContext) (read_timeout : Duration)
    : Prog (polled (result (BodyReadOutcome * HeaderMap) Error.t * RequestExecutionState)) :=
  let max_bytes := max_response_body_bytes (options x) in
  check_deadline x ctx
    (and_then (read_response_body_with_retry response x ctx read_timeout) (fun '(outcome, x') =>
     match outcome with
     | Err error => ready (Err error, x')
     | Ok (ReadRetry delay) => ready (Ok (ReadRetry delay, headers), x')
     | Ok (ReadBytes bytes) =>
       check_deadline x ctx
         (let should_decode :=
            should_decode_content_encoded_body (context_method ctx) status (Z.of_nat (length bytes)) in
          decoded ← decode_response_body_limited client bytes headers max_bytes status ctx;
          match decoded with
          | Err error => ready (Err error, x')
          | Ok decoded =>
            check_deadline x ctx
              (let headers :=
                 if should_decode && hm_contains_key headers (header_name "content-encoding")
                 then remove_content_encoding_headers headers else headers in
               ready (Ok (ReadBytes decoded, headers), x'))
          end)
     end)).

(** ** A turn of the loop *)
Definition done (m : Prog turn_end) : Prog (polled turn_end) := r ← m; ready r.

(** A scheduled retry; nothing is left to destroy while it sleeps. *)
Definition retry_turn (x : RequestExecutionState) (b : RequestBody Stream) (g : Guards)
    (host_permit : option P) (delay : Duration) : Prog (polled turn_end) :=
  _ ← drop_permit host_permit;
  and_then (if duration_is_zero delay then ready tt else owning (drop_attempt g None) (sleep delay))
    (fun _ => done (leave g None (Continue x b))).

Definition transport_failed (x : RequestExecutionState) (b : RequestBody Stream) (ctx : RequestContext)
    (g : Guards) (host_permit gp : option P) (transport_timeout : Duration) (error : TransportRequestError)
    : Prog (polled turn_end) :=
  error ← into_error error x transport_timeout;
  rng ← sample;
  match transport_failure_plan rng (backoff_source client) x error with
  | PlanRetry retry_plan =>
    '(schedule, x) ← prepare_retry client x ctx (plan_decision retry_plan) (plan_delay retry_plan);
    g ← record_failure_for_retry_schedule schedule g;
    match schedule with
    | Err error => done (leave g host_permit (Return (Err error) gp))
    | Ok (Scheduled retry_delay) => retry_turn x b g host_permit retry_delay
    | Ok NotScheduled => g ← mark_failure g; done (fail_turn client ctx error g host_permit gp)
    end
  | PlanTerminal DispositionFailure => g ← mark_failure g; done (fail_turn client ctx error g host_permit gp)
  | PlanTerminal DispositionCancel => g ← cancel g; done (fail_turn client ctx error g host_permit gp)
  end.

Definition finish_response (x : RequestExecutionState) (b : RequestBody Stream) (ctx : RequestContext)
    (mode : ResponseMode) (g : Guards) (host_permit gp : option P) (response : HttpResponse Body)
    : Prog (polled turn_end) :=
  let status := response_status response in
  now ← instant_now;
  match state_phase_timeout x now with
  | None =>
    let error := deadline_error x in
    g ← mark_failure g; done (fail_turn client ctx error g host_permit gp)
  | Some read_timeout =>
    and_then
      (owning (drop_attempt g host_permit)
         (read_decoded_response_body_with_retry response (response_headers response) status x ctx read_timeout))
      (fun '(outcome, x) =>
         g ← record_failure_on_error outcome g;
         match outcome with
         | Err error => done (leave g host_permit (Return (Err error) gp))
         | Ok (ReadRetry retry_delay, _) =>
           g ← mark_failure g; retry_turn x b g host_permit retry_delay
         | Ok (ReadBytes bytes, headers) =>
           if is_success status then
             g ← record_completed client CompletionSuccess g;
             done (leave g host_permit
               (Return (Ok (BufferedResponse {| status := status; headers := headers; body := bytes |})) gp))
           else if should_return_non_success_response (status_policy (options x)) && is_buffered mode then
             g ← record_completed client (from_response_status (retry_policy (options x)) status) g;
             done (leave g host_permit
               (Return (Ok (BufferedResponse {| status := status; headers := headers; body := bytes |})) gp))
           else
             let '(error, completion) := terminal_non_success x status headers bytes in
             g ← record_completed client completion g;
             done (fail_turn client ctx error g host_permit gp)
         end)
  end.

Definition non_success_response (x : RequestExecutionState) (b : RequestBody Stream)
    (ctx : RequestContext) (mode : ResponseMode) (g : Guards) (host : option str)
    (host_permit gp : option P) (transport_timeout : Duration) (response : HttpResponse Body)
    : Prog (polled turn_end) :=
  let status := response_status response in
  rng ← sample;
  _ ← observe_server_throttle client ctx status (response_headers response) host
        (state_retry_backoff rng (backoff_source client) x);
  '(schedule, x) ← prepare_status_retry client x ctx status (response_headers response);
  g ← record_failure_for_retry_schedule schedule g;
  match schedule with
  | Err error => done (leave g host_permit (Return (Err error) gp))
  | Ok (Scheduled retry_delay) => retry_turn x b g host_permit retry_delay
  | Ok NotScheduled =>
    if is_stream mode && should_return_non_success_response (status_policy (options x)) then
      done ('(lifecycle, g) ← lifecycle_for client (from_response_status (retry_policy (options x)) status) g;
            leave g None
              (Return (Ok (stream_response client status (response_headers response) (response_body response) x
                             transport_timeout lifecycle gp host_permit)) None))
    else finish_response x b ctx mode g host_permit gp response
  end.

Definition handle_response (x : RequestExecutionState) (b : RequestBody Stream) (ctx : RequestContext)
    (mode : ResponseMode) (g : Guards) (host : option str) (host_permit gp : option P)
    (transport_timeout : Duration) (response : HttpResponse Body) : Prog (polled turn_end) :=
  let status := response_status response in
  match next_redirect_action status (response_headers response) x with
  | Err error => g ← mark_failure g; done (fail_turn client ctx error g host_permit gp)
  | Ok (Some redirect_action) =>
    _ ← run_response_interceptors client ctx status (response_headers response);
    g ← mark_success g;
    let '(drops_body, x) := apply_redirect redirect_action (retry_eligibility client) x in
    done (leave g host_permit (Continue x (if drops_body then body_default else b)))
  | Ok None =>
    _ ← run_response_interceptors client ctx status (response_headers response);
    if is_stream mode && is_success status then
      done ('(lifecycle, g) ← lifecycle_for client CompletionSuccess g;
            leave g None
              (Return (Ok (stream_response client status (response_headers response) (response_body response) x
                             transport_timeout lifecycle gp host_permit)) None))
    else if is_success status then finish_response x b ctx mode g host_permit gp response
    else non_success_response x b ctx mode g host host_permit gp transport_timeout response
  end.

Definition run_attempt (x : RequestExecutionState) (b : RequestBody Stream) (mode : ResponseMode)
    (g : Guards) (host : option str) (host_permit gp : option P) : Prog (polled turn_end) :=
  attempt_headers ← run_request_interceptors client (context x) (current_headers x);
  let x := tighten_retry_eligibility attempt_headers (retry_eligibility client) x in
  let ctx := context x in
  match validate_request_framing_headers attempt_headers (known_length b) (current_method x)
          (current_redacted_uri x) with
  | Err error => g ← cancel g; done (fail_turn client ctx error g host_permit gp)
  | Ok _ =>
    let attempt_headers := wire_headers (current_uri x) attempt_headers in
    now ← instant_now;
    match state_phase_timeout x now with
    | None =>
      let error := deadline_error x in
      g ← cancel g; done (fail_turn client ctx error g host_permit gp)
    | Some transport_timeout =>
      let '(request_body, b) := take_for_attempt b in
      and_then
        (owning (drop_attempt g host_permit)
           (send_transport_request transport_timeout (current_method x) (current_uri x) attempt_headers request_body))
        (fun exchange => match exchange with
         | Err error => transport_failed x b ctx g host_permit gp transport_timeout error
         | Ok response => handle_response x b ctx mode g host host_permit gp transport_timeout response
         end)
    end
  end.

Definition turn (rate_fuel : nat) (x : RequestExecutionState) (b : RequestBody Stream)
    (mode : ResponseMode) (gp : option P) : Prog (polled turn_end) :=
  let ctx := context x in
  let fail error host_permit :=
    done (_ ← run_error_interceptors client ctx error; _ ← drop_permit host_permit; mret (Return (Err error) gp)) in
  _ ← run_request_start_observers client ctx;
  let host := rate_limit_bucket_key (current_uri x) in
  and_then (acquire_rate_limit_slot rate_fuel host (total_timeout (options x)) (request_started_at x)
              (current_method x) (current_redacted_uri x)) (fun slot => match slot with
  | Err error => fail error None
  | Ok _ =>
    and_then (acquire_host_request_permit host (total_timeout (options x)) (request_started_at x)
                (current_method x) (current_redacted_uri x)) (fun permit => match permit with
    | Err error => fail error None
    | Ok host_permit =>
      circuit_attempt ← begin_circuit_attempt client (current_method x) (current_redacted_uri x);
      match circuit_attempt with
      | Err error => fail error host_permit
      | Ok circuit_attempt =>
        let g := {| circuit := circuit_attempt; adaptive := None |} in
        and_then
          (owning (drop_attempt g host_permit)
             (begin_adaptive_attempt (total_timeout (options x)) (request_started_at x)
                (current_method x) (current_redacted_uri x))) (fun adaptive_attempt => match adaptive_attempt with
        | Err error => g ← cancel g; done (fail_turn client ctx error g host_permit gp)
        | Ok adaptive_attempt =>
          run_attempt x b mode (set_adaptive g adaptive_attempt) host host_permit gp
        end)
      end
    end)
  end).

(** ** The loop *)
Fixpoint attempts_loop (fuel rate_fuel : nat) (x : RequestExecutionState) (b : RequestBody Stream)
    (mode : ResponseMode) (gp : option P) : Prog (polled (result RetryResponse Error.t * option P)) :=
  if can_attempt x then
    match fuel with
    | O => fun _ => None
    | S fuel =>
      and_then (owning (drop_permit gp) (turn rate_fuel x b mode gp)) (fun t => match t with
      | Continue x b => attempts_loop fuel rate_fuel x b mode gp
      | Return r gp => ready (r, gp)
      end)
    end
  else
    let error := deadline_error x in
    _ ← run_error_interceptors client (context x) error; ready (Err error, gp).

Definition send_request_with_retry_mode (fuel rate_fuel : nat) (input : RetryRequestInput (RequestBody Stream))
    (mode : ResponseMode) (stream_global_permit : option P) (request_started_at : Instant)
    : Prog (polled (result RetryResponse Error.t)) :=
  let '(x, b) := from_request input request_started_at (retry_eligibility client) in
  and_then (attempts_loop fuel rate_fuel x b mode stream_global_permit) (fun '(r, gp) =>
  _ ← drop_permit gp; ready r).

(** ** The two entry points

    The accounting of a request that is dropped is completed by its destructor. *)
Definition drop_completion (completion : Metrics.PendingRequest) : Prog unit :=
  complete_pending Metrics.Canceled completion.

Definition send_request (fuel rate_fuel : nat) (method : Method) (path : str) (headers : HeaderMap)
    (body : option (RequestBody Stream)) (execution_options : RequestExecutionOverrides)
    : Prog (polled (result Response Error.t)) :=
  match prepare client method path headers body execution_options (buffered_auto_accept_encoding client) with
  | Err error => ready (Err error)
  | Ok input =>
    let uri := in_redacted_uri_text _ input in
    let method := in_method _ input in
    request_started_at ← instant_now;
    completion ← start_accounting request_started_at;
    and_then
      (owning (drop_completion completion)
         (acquire_global_request_permit (total_timeout (in_execution_options _ input)) request_started_at method uri))
      (fun permit => match permit with
       | Err error => _ ← complete_pending (Metrics.Failed error) completion; ready (Err error)
       | Ok global_permit =>
         and_then
           (owning (_ ← drop_permit global_permit; drop_completion completion)
              (send_request_with_retry_mode fuel rate_fuel input BufferedMode None request_started_at))
           (fun r =>
              let r := match r with
                       | Ok (BufferedResponse response) => Ok response
                       | Ok (StreamResponse _) => Err (response_mode_mismatch_error method uri (lit "buffered"))
                       | Err error => Err error
                       end in
              _ ← complete_pending
                    match r with
                    | Ok response => Metrics.Succeeded (as_u16 (status response))
                    | Err error => Metrics.Failed error
                    end completion;
              _ ← drop_permit global_permit;
              ready r)
       end)
  end.

Definition send_request_stream (fuel rate_fuel : nat) (method : Method) (path : str) (headers : HeaderMap)
    (body : option (RequestBody Stream)) (execution_options : RequestExecutionOverrides)
    : Prog (polled (result ResponseStream Error.t)) :=
  match prepare client method path headers body execution_options (stream_auto_accept_encoding client) with
  | Err error => ready (Err error)
  | Ok input =>
    let uri := in_redacted_uri_text _ input in
    let method := in_method _ input in
    request_started_at ← instant_now;
    completion ← start_accounting request_started_at;
    and_then
      (owning (drop_completion completion)
         (acquire_global_request_permit (total_timeout (in_execution_options _ input)) request_started_at method uri))
      (fun permit => match permit with
       | Err error => _ ← complete_pending (Metrics.Failed error) completion; ready (Err error)
       | Ok global_permit =>
         and_then
           (owning (drop_completion completion)
              (send_request_with_retry_mode fuel rate_fuel input StreamMode global_permit request_started_at))
           (fun r => match r with
            | Ok (StreamResponse response) =>
              now ← instant_now;
              completion ← on_metrics (Metrics.into_stream (as_u16 (stream_status response)) now completion);
              ready (Ok (attach_completion completion response))
            | Ok (BufferedResponse _) =>
              let error := response_mode_mismatch_error method uri (lit "stream") in
              _ ← complete_pending (Metrics.Failed error) completion; ready (Err error)
            | Err error => _ ← complete_pending (Metrics.Failed error) completion; ready (Err error)
            end)
       end)
  end.

End Async.
End Async.
