(* ===== verification/AsyncFacts.v ===== *)
(** * What the async client's request loop does

    The rules of [BlockingFacts] for programs that can be dropped while they wait, one
    lemma for each function of [Async].  The functions both clients share keep the
    lemmas they have. *)
From S2P Require Import Prelude Float64 Text HttpApi UriText Errors Redaction UriResolve Redirect Proxy.
From S2P Require Import Headers ContentEncoding Timing Responses Retry RetryBudget RateLimit Execution Limiters.
From S2P Require Import Metrics Lifecycle Program Blocking BlockingFacts Async.
Import Async.

Section Facts.
Context `{Http} `{UrlCrate} `{HttpDate} `{Codecs} `{!ProxyCrates}.
Context {E C A P Stream Body : Type} `{!Surroundings E C A P} `{!Tokio E A P Stream Body}.
Context `{!EqDecision C} `{!EqDecision A} `{!EqDecision P}.
Context (client : Client (E := E)).
Context (c0 : option C) (a0 : option A) (p0 : option P).

Abbreviation Prog := (M E C A P).
Abbreviation Guards := (AttemptGuards C A).
Abbreviation TurnEnd := (turn_end (C := C) (A := A) (P := P) (Stream := Stream) (Body := Body)).
Abbreviation Resp := (RetryResponse (C := C) (A := A) (P := P) (Body := Body)).
Abbreviation tally := BlockingFacts.tally.
Abbreviation wp := (BlockingFacts.wp (E := E) c0 a0 p0).
Abbreviation note := (BlockingFacts.note c0 a0 p0).
Abbreviation held_circuit := (BlockingFacts.held_circuit c0).
Abbreviation held_adaptive := (BlockingFacts.held_adaptive a0).
Abbreviation held_permit := (BlockingFacts.held_permit p0).
Abbreviation settled := (BlockingFacts.settled c0 a0).
Abbreviation released := (BlockingFacts.released p0).
Abbreviation turn_post := (BlockingFacts.turn_post client c0 a0 p0).

(** ** Waiting *)
Lemma wp_await {T} (op : aop E T) events t (Q : polled T -> tally -> Prop) :
  (forall a, Q (Ready a) (foldr note t (events a))) -> Q Dropped t -> wp (await op events) t Q.
Proof. intros Hr Hd. apply wp_bind, wp_act. intros [a|]; apply wp_ret; [apply Hr|exact Hd]. Qed.

Lemma wp_and_then {T U} (m : Prog (polled T)) (k : T -> Prog (polled U)) t Q :
  wp m t (fun r t => match r with Ready a => wp (k a) t Q | Dropped => Q Dropped t end) ->
  wp (and_then m k) t Q.
Proof. intros Hm. apply wp_bind. eapply wp_mono; [exact Hm|]. intros [a|] t' Hk; [exact Hk|by apply wp_ret]. Qed.

Lemma wp_owning {T} locals (m : Prog (polled T)) t Q :
  wp m t (fun r t => match r with Ready a => Q (Ready a) t | Dropped => wp locals t (fun _ t => Q Dropped t) end) ->
  wp (owning locals m) t Q.
Proof.
  intros Hm. apply wp_bind. eapply wp_mono; [exact Hm|]. intros [a|] t' Hk; [by apply wp_ret|].
  apply wp_bind. eapply wp_mono; [exact Hk|]. intros u t2 HQ. by apply wp_ret.
Qed.

Lemma wp_ready {T} (a : T) t (Q : polled T -> tally -> Prop) : Q (Ready a) t -> wp (ready a) t Q.
Proof. apply wp_ret. Qed.

Lemma wp_done (m : Prog TurnEnd) t (Q : polled TurnEnd -> tally -> Prop) :
  wp m t (fun r => Q (Ready r)) -> wp (done m) t Q.
Proof. intros Hm. apply wp_bind. eapply wp_mono; [exact Hm|]. intros r t' HQ. by apply wp_ret. Qed.

(** The tally after destructors ended the guards of an attempt. *)
Definition fallen (g : Guards) (t : tally) : tally :=
  {| errors := errors t; circuits := circuits t - held_circuit g; adaptives := adaptives t - held_adaptive g;
     permits := permits t;
     destructed := destructed t + (if is_some (circuit g) then 1 else 0) + (if is_some (adaptive g) then 1 else 0);
     sends := sends t; streamed := streamed t; retries := retries t; granted := granted t;
     received := received t; delivered := delivered t; accounts := accounts t |}.

Ltac same_tally :=
  apply tally_eq; simpl; unfold BlockingFacts.held_circuit, BlockingFacts.held_adaptive, BlockingFacts.held_permit;
  simpl; rewrite ?app_nil_r; try done; try lia.

Lemma wp_drop_attempt g hp t (Q : unit -> tally -> Prop) :
  Q tt (released hp (fallen g t)) -> wp (drop_attempt g hp) t Q.
Proof.
  intros HQ. apply wp_bind, wp_bind. destruct g as [c a]. simpl.
  destruct c as [c|]; [apply wp_act_|apply wp_ret];
    (destruct a as [a|]; [apply wp_act_|apply wp_ret]; apply wp_drop_permit;
     match goal with |- Q _ ?t' => match type of HQ with Q _ ?t2 => assert (t' = t2) as -> by same_tally end end;
     exact HQ).
Qed.

(** ** The controls *)
Lemma wp_before_deadline {T} (op : aop E (result T Error.t)) events total started method uri t Q :
  (forall a, Q (Ready (Ok a)) (foldr note t (events a))) -> (forall e, Q (Ready (Err e)) t) -> Q Dropped t ->
  wp (before_deadline op events total started method uri) t Q.
Proof.
  intros Hok Herr Hdrop. unfold before_deadline. destruct (total_timeout_deadline total started).
  - apply wp_bind, wp_instant_now. intros now. apply wp_if; intros _; [by apply wp_ready|].
    apply wp_and_then, wp_await; [|done]. intros [[a|e]|]; by apply wp_ready.
  - apply wp_await; [|done]. intros [a|e]; [apply Hok|apply Herr].
Qed.

Abbreviation acquired := (BlockingFacts.acquired p0).
Abbreviation opened := (BlockingFacts.opened c0 a0).

Lemma note_permit p t : foldr note t (permit_events p) = acquired p t.
Proof. destruct p; simpl; same_tally. Qed.

Lemma wp_acquire_global_permit total started method uri t Q :
  (forall p, Q (Ready (Ok p)) (acquired p t)) -> (forall e, Q (Ready (Err e)) t) -> Q Dropped t ->
  wp (acquire_global_request_permit client total started method uri) t Q.
Proof.
  intros Hok Herr Hd. apply wp_if; intros _.
  - apply wp_ready. rewrite <- (acquired_none p0 t). apply Hok.
  - apply wp_before_deadline; [|done..]. intros p. rewrite note_permit. apply Hok.
Qed.

Lemma wp_acquire_host_permit host total started method uri t Q :
  (forall p, Q (Ready (Ok p)) (acquired p t)) -> (forall e, Q (Ready (Err e)) t) -> Q Dropped t ->
  wp (acquire_host_request_permit client host total started method uri) t Q.
Proof.
  intros Hok Herr Hd. apply wp_if; intros _.
  - apply wp_ready. rewrite <- (acquired_none p0 t). apply Hok.
  - apply wp_before_deadline; [|done..]. intros p. rewrite note_permit. apply Hok.
Qed.

Lemma wp_begin_adaptive total started method uri t Q :
  (forall a, Q (Ready (Ok a)) (opened {| circuit := None; adaptive := a |} t)) ->
  (forall e, Q (Ready (Err e)) t) -> Q Dropped t ->
  wp (begin_adaptive_attempt client total started method uri) t Q.
Proof.
  intros Hok Herr Hd. apply wp_if; intros _.
  - apply wp_ready. rewrite <- (opened_none c0 a0 t). apply Hok.
  - apply wp_and_then, wp_before_deadline; [|intros e; by apply wp_ready|done]. intros a. apply wp_ready.
    assert (foldr note t [AdaptiveBegan a] = opened {| circuit := None; adaptive := Some a |} t) as -> by same_tally.
    apply Hok.
Qed.

Lemma wp_async_sleep d t Q : Q (Ready tt) t -> Q Dropped t -> wp (sleep d) t Q.
Proof. intros HQ Hd. apply wp_await; [|done]. intros []. simpl. by rewrite note_quiet. Qed.

Lemma wp_async_rate_limit_slot fuel host total started method uri t Q :
  (forall r, Q (Ready r) t) -> Q Dropped t ->
  wp (acquire_rate_limit_slot client fuel host total started method uri) t Q.
Proof.
  intros HQ Hd. apply wp_if; intros _; [by apply wp_ready|].
  induction fuel as [|fuel IH]; [by intros s a s' _|]. simpl. apply wp_bind, wp_quiet; [done|]. intros wait.
  apply wp_if; intros _; [by apply wp_ready|]. apply wp_bind, wp_instant_now. intros now.
  destruct (bounded_retry_delay _ _ _ _); [|by apply wp_ready]. apply wp_and_then, wp_async_sleep; [exact IH|exact Hd].
Qed.

(** ** The exchange and the body *)
Abbreviation sent := BlockingFacts.sent.
Abbreviation scheduled := BlockingFacts.scheduled.
Abbreviation retried := (BlockingFacts.retried client).
Abbreviation paid := (BlockingFacts.paid client).

Lemma wp_send_transport timeout method uri headers request_body t Q :
  (forall r, Q r (sent (is_streaming request_body) t)) ->
  wp (send_transport_request (Body := Body) timeout method uri headers request_body) t Q.
Proof.
  intros HQ. apply wp_bind, wp_act_.
  assert (foldr note t [Sent method (uri_to_string uri) (is_streaming request_body)] =
    sent (is_streaming request_body) t) as -> by (destruct (is_streaming request_body); same_tally).
  apply wp_and_then, wp_await; [|apply HQ]. intros [[r|e]|]; apply wp_ready, HQ.
Qed.

Lemma wp_into_error error x timeout t Q : (forall e, Q e t) -> wp (into_error error x timeout) t Q.
Proof. intros HQ. destruct error; simpl; [by apply wp_ret|]. apply wp_bind, wp_instant_now. intros now. by apply wp_ret. Qed.

(** [read_post] with the drop. *)
Definition async_read_post {T} (is_retry : T -> bool) (x : RequestExecutionState) (t : tally)
    (Q : polled (result T Error.t * RequestExecutionState) -> tally -> Prop) : Prop :=
  read_post client is_retry x t (fun r => Q (Ready r)) /\ Q Dropped t.

Lemma wp_async_read_body response x ctx read_timeout t Q :
  async_read_post outcome_is_retry x t Q ->
  wp (read_response_body_with_retry client response x ctx read_timeout) t Q.
Proof.
  intros [HQ Hd]. apply wp_and_then, wp_await; [|done]. intros r. apply wp_bind.
  apply (wp_mono _ _ _ _ _ (fun r => Q (Ready r))); [|intros a t' Ha; by apply wp_ready].
  pose proof HQ as (Hok & Herr & _). destruct r as [frames|]; cbv beta iota.
  - destruct (read_all_body_limited frames _) as [bytes|[source|n]].
    + apply wp_ret. by apply Hok.
    + apply wp_bind, wp_sample. intros rng. by apply wp_handle_body_read_failure.
    + apply wp_bind, wp_run_error_interceptors, wp_ret, Herr.
  - apply wp_bind, wp_instant_now. intros now. apply wp_bind, wp_sample. intros rng.
    by apply wp_handle_body_read_failure.
Qed.

Lemma wp_async_check_deadline {T} x ctx (k : Prog (polled (result T Error.t * RequestExecutionState))) t Q :
  (forall e, Q (Ready (Err e, x)) (blamed e t)) -> wp k t Q -> wp (check_deadline client x ctx k) t Q.
Proof.
  intros Herr Hk. apply wp_bind, wp_instant_now. intros now. destruct (error_if_elapsed x now); [|done].
  apply wp_bind, wp_run_error_interceptors, wp_ready, Herr.
Qed.

Lemma wp_async_read_decoded response headers status x ctx read_timeout t Q :
  async_read_post (fun oh : BodyReadOutcome * HeaderMap => outcome_is_retry oh.1) x t Q ->
  wp (read_decoded_response_body_with_retry client response headers status x ctx read_timeout) t Q.
Proof.
  intros [(Hok & Herr & Hretry) Hd]. apply wp_async_check_deadline; [done|].
  apply wp_and_then, wp_async_read_body. split; [split; [|split]|exact Hd].
  - intros [bytes|d] Ho; [|done]. apply wp_async_check_deadline; [done|]. apply wp_bind, wp_decode.
    + intros decoded. apply wp_async_check_deadline; [done|]. apply wp_ready. by apply Hok.
    + intros e. apply wp_ready, Herr.
  - intros e. apply wp_ready, Herr.
  - intros [bytes|d] x' Ho Hs; [done|]. apply wp_ready. by apply Hretry.
Qed.

(** ** Turns *)

(** A turn that was dropped: what the attempt held went, and nobody was told. *)
Record abandoned (g : Guards) (hp : option P) (t t' : tally) : Prop := {
  ab_errors : errors t' = errors t;
  ab_circuits : circuits t' = circuits t - held_circuit g;
  ab_adaptives : adaptives t' = adaptives t - held_adaptive g;
  ab_permits : permits t' = permits t - held_permit hp;
  ab_sends : sends t' = sends t /\ streamed t' = streamed t;
  ab_paid : exists n, paid n t t';
}.

Definition polled_post (mode : ResponseMode) (x : RequestExecutionState) (b : RequestBody Stream) (g : Guards)
    (hp gp : option P) (t : tally) (r : polled TurnEnd) (t' : tally) : Prop :=
  match r with
  | Ready r => turn_post mode x b g hp gp t r t'
  | Dropped => abandoned g hp t t'
  end.

Ltac owns := unfold BlockingFacts.held_circuit, BlockingFacts.held_adaptive, BlockingFacts.held_permit in *; simpl in *; try lia.

Lemma abandon g hp t : abandoned g hp t (released hp (fallen g t)).
Proof. split; simpl; try done. exists O. by apply paid_none. Qed.

Lemma wp_async_retry_turn mode x x' b g hp gp delay t :
  scheduled x x' ->
  wp (retry_turn x' b no_guards hp delay) (settled g (retried t)) (polled_post mode x b g hp gp t).
Proof.
  intros Hs. apply wp_bind, wp_drop_permit. apply wp_and_then.
  assert (wp (done (leave (Body := Body) no_guards None (Continue x' b))) (released hp (settled g (retried t)))
    (polled_post mode x b g hp gp t)) as Hgo.
  { apply wp_done, wp_leave. split; simpl; try done; try (owns; done). exists 1%nat. split; [by constructor|].
    split; simpl; [lia|case_match; lia|done]. }
  apply wp_if; intros _; [by apply wp_ready|]. apply wp_owning, wp_async_sleep; [exact Hgo|].
  apply wp_drop_attempt. split; simpl; try done; try (owns; done). exists 1%nat.
  split; simpl; [lia|case_match; lia|done].
Qed.

Lemma wp_async_transport_failed mode x b ctx g hp gp timeout e t :
  wp (transport_failed client x b ctx g hp gp timeout e) t (polled_post mode x b g hp gp t).
Proof.
  apply wp_bind, wp_into_error. intros e'. apply wp_bind, wp_sample. intros rng.
  destruct (transport_failure_plan rng (backoff_source client) x e') as [plan|[]].
  - apply wp_bind, wp_prepare_retry.
    + intros e2. apply wp_bind, wp_record_failure_for_retry_schedule, wp_done, wp_leave_error.
    + apply wp_bind, wp_record_failure_for_retry_schedule. apply wp_bind, wp_mark_failure, wp_done, wp_fail_turn.
    + intros delay x' Hs. apply wp_bind, wp_record_failure_for_retry_schedule. by apply wp_async_retry_turn.
  - apply wp_bind, wp_mark_failure, wp_done, wp_fail_turn.
  - apply wp_bind, wp_cancel, wp_done, wp_fail_turn.
Qed.

Lemma wp_async_finish_response mode x b ctx g hp gp response t :
  (mode = StreamMode -> is_success (response_status response) = false /\
     should_return_non_success_response (status_policy (options x)) = false) ->
  wp (finish_response client x b ctx mode g hp gp response) t (polled_post mode x b g hp gp t).
Proof.
  intros Hm. apply wp_bind, wp_instant_now. intros now.
  destruct (state_phase_timeout x now) as [read_timeout|].
  2: { apply wp_bind, wp_mark_failure, wp_done, wp_fail_turn. }
  apply wp_and_then, wp_owning, wp_async_read_decoded. split; [split; [|split]|].
  - intros [[bytes|d] headers] Ho; [|done]. apply wp_bind, wp_record_failure_on_error.
    apply wp_if; intros Hs; [|apply wp_if; intros Hr].
    + apply wp_bind, wp_record_completed, wp_done, wp_leave_response. destruct mode; [done|]. by destruct Hm; congruence.
    + apply wp_bind, wp_record_completed, wp_done, wp_leave_response. by apply andb_true_iff in Hr as [_ Hr]; destruct mode.
    + destruct (terminal_non_success _ _ _ _) as [e completion].
      apply wp_bind, wp_record_completed, wp_done, wp_fail_turn.
  - intros e. apply wp_bind, wp_record_failure_on_error, wp_done, wp_leave_error.
  - intros [[bytes|d] headers] x' Ho Hs; [done|]. apply wp_bind, wp_record_failure_on_error.
    apply wp_bind, wp_mark_failure. by apply wp_async_retry_turn.
  - apply wp_drop_attempt, abandon.
Qed.

Lemma wp_async_non_success_response mode x b ctx g host hp gp timeout response t :
  is_success (response_status response) = false ->
  wp (non_success_response client x b ctx mode g host hp gp timeout response) t (polled_post mode x b g hp gp t).
Proof.
  intros Hs. apply wp_bind, wp_sample. intros rng. apply wp_bind, wp_observe_server_throttle.
  apply wp_bind, wp_prepare_status_retry.
  - intros e. apply wp_bind, wp_record_failure_for_retry_schedule, wp_done, wp_leave_error.
  - apply wp_bind, wp_record_failure_for_retry_schedule. apply wp_if; intros Hr.
    + apply wp_done, wp_stream_turn. apply andb_true_iff in Hr as [Hr _]. by destruct mode.
    + apply wp_async_finish_response. intros ->. by split.
  - intros delay x' Hx. apply wp_bind, wp_record_failure_for_retry_schedule. by apply wp_async_retry_turn.
Qed.

Lemma wp_async_handle_response mode x b ctx g host hp gp timeout response t :
  wp (handle_response client x b ctx mode g host hp gp timeout response) t (polled_post mode x b g hp gp t).
Proof.
  unfold handle_response. destruct (next_redirect_action _ _ x) as [[action|]|e] eqn:Hact.
  - apply wp_bind, wp_run_response_interceptors, wp_bind, wp_mark_success.
    destruct (apply_redirect action (retry_eligibility client) x) as [drops x'] eqn:Hap. apply wp_done, wp_leave.
    split; simpl; try done; try (owns; done).
    + exists O. split; [|by apply paid_none].
      replace x' with (apply_redirect action (retry_eligibility client) x).2 by by rewrite Hap.
      by econstructor.
    + by destruct drops.
  - apply wp_bind, wp_run_response_interceptors, wp_if; intros Hs; [|apply wp_if; intros Hs'].
    + apply wp_done, wp_stream_turn. apply andb_true_iff in Hs as [Hs _]. by destruct mode.
    + apply wp_async_finish_response. intros ->. simpl in Hs. congruence.
    + by apply wp_async_non_success_response.
  - apply wp_bind, wp_mark_failure, wp_done, wp_fail_turn.
Qed.

(** A dropped turn, before its guards were taken. *)
Definition whole_abandoned (b : RequestBody Stream) (t t' : tally) : Prop :=
  exists n : bool,
    sends t' = sends t + (if n then 1 else 0) /\
    streamed t' = streamed t + (if n && is_streaming b then 1 else 0) /\
    errors t' = errors t /\ circuits t' = circuits t /\ adaptives t' = adaptives t /\ permits t' = permits t /\
    exists k, paid k t t'.

Definition whole_polled_post (mode : ResponseMode) (x : RequestExecutionState) (b : RequestBody Stream)
    (gp : option P) (t : tally) (r : polled TurnEnd) (t' : tally) : Prop :=
  match r with
  | Ready r => whole_turn_post client c0 a0 p0 mode x b gp t r t'
  | Dropped => whole_abandoned b t t'
  end.

Lemma polled_post_whole mode x headers (b b' : RequestBody Stream) g hp gp t t1 (n : bool) (r : polled TurnEnd) t' :
  t1 = (if n then sent (is_streaming b) else id) (acquired hp (opened g t)) ->
  is_streaming b' = false ->
  polled_post mode (tighten_retry_eligibility headers (retry_eligibility client) x) b' g hp gp t1 r t' ->
  whole_polled_post mode x b gp t r t'.
Proof.
  intros -> Hb. destruct r as [r|]; simpl.
  - apply (turn_post_whole client c0 a0 p0 mode x headers b b' g hp gp t _ n); destruct n; simpl; try done; lia.
  - intros [A1 A2 A3 A4 [A5 A6] [k [K1 K2 K3]]]. exists n.
    destruct n; simpl in *; (split_and!; [lia|lia|done|lia|lia|lia|]); exists k; by split.
Qed.

Lemma wp_async_run_attempt mode x b g host hp gp t :
  wp (run_attempt client x b mode g host hp gp) (acquired hp (opened g t)) (whole_polled_post mode x b gp t).
Proof.
  apply wp_bind, wp_run_request_interceptors. intros attempt_headers.
  set (x1 := tighten_retry_eligibility attempt_headers (retry_eligibility client) x).
  assert (forall r t', polled_post mode x1 body_default g hp gp (acquired hp (opened g t)) r t' ->
    whole_polled_post mode x b gp t r t') as Hbefore.
  { intros r t'. by apply (polled_post_whole mode x attempt_headers b body_default g hp gp t _ false). }
  assert (forall r t', polled_post mode x1 (take_for_attempt b).2 g hp gp
    (sent (is_streaming (take_for_attempt b).1) (acquired hp (opened g t))) r t' ->
    whole_polled_post mode x b gp t r t') as Hafter.
  { intros r t'. apply (polled_post_whole mode x attempt_headers b (take_for_attempt b).2 g hp gp t _ true); by destruct b. }
  cbv zeta. fold x1. destruct (validate_request_framing_headers attempt_headers (known_length b) (current_method x1)
    (current_redacted_uri x1)).
  2: { apply wp_bind, wp_cancel. eapply wp_mono; [|exact Hbefore]. apply wp_done, wp_fail_turn. }
  apply wp_bind, wp_instant_now. intros now. destruct (state_phase_timeout x1 now) as [timeout|].
  2: { apply wp_bind, wp_cancel. eapply wp_mono; [|exact Hbefore]. apply wp_done, wp_fail_turn. }
  destruct (take_for_attempt b) as [request_body b'] eqn:Hb. simpl in Hafter.
  apply wp_and_then, wp_owning, wp_send_transport. intros [[response|e]|].
  - eapply wp_mono; [apply wp_async_handle_response|exact Hafter].
  - eapply wp_mono; [apply wp_async_transport_failed|exact Hafter].
  - apply wp_drop_attempt. apply Hafter. apply abandon.
Qed.

Lemma wp_async_turn rate_fuel mode x b gp t :
  wp (turn client rate_fuel x b mode gp) t (whole_polled_post mode x b gp t).
Proof.
  assert (forall e hp t1, t1 = acquired hp t ->
    wp (done (_ ← run_error_interceptors client (context x) e; _ ← drop_permit hp;
        mret (Return (Err e) gp))) t1 (whole_polled_post mode x b gp t)) as Hfail.
  { intros e hp t1 ->. apply wp_done, wp_bind, wp_run_error_interceptors, wp_bind, wp_drop_permit, wp_ret.
    exists false. simpl. split_and!; try done; try (owns; done). by apply paid_none. }
  assert (whole_polled_post mode x b gp t Dropped t) as Hgone.
  { exists false. simpl. split_and!; try done; try lia. exists O. by apply paid_none. }
  apply wp_bind, wp_run_request_start_observers, wp_and_then, wp_async_rate_limit_slot; [|exact Hgone]. intros [u|e].
  2: { apply Hfail. by rewrite acquired_none. }
  apply wp_and_then, wp_acquire_host_permit; [| |exact Hgone].
  2: { intros e. apply Hfail. by rewrite acquired_none. }
  intros hp. apply wp_bind, wp_begin_circuit_attempt.
  2: { intros e. by apply Hfail. }
  intros c. apply wp_and_then, wp_owning, wp_begin_adaptive.
  - intros a.
    match goal with |- BlockingFacts.wp _ _ _ _ ?t1 _ => replace t1 with
      (acquired hp (opened (set_adaptive {| circuit := c; adaptive := None |} a) t)) by same_tally end.
    apply wp_async_run_attempt.
  - intros e. apply wp_bind, wp_cancel, wp_done, wp_bind, wp_run_error_interceptors, wp_leave.
    exists false. simpl. split_and!; try done; try (owns; done). by apply paid_none.
  - apply wp_drop_attempt. exists false. simpl. split_and!; try done; try (owns; done). exists O. by apply paid_none.
Qed.

(** ** The loop *)

(** A request that was dropped, its global permit included. *)
Record loop_abandoned (o : RequestExecutionOptions) (x : RequestExecutionState) (b : RequestBody Stream)
    (gp : option P) (t t' : tally) : Prop := {
  la_errors : errors t' = errors t;
  la_circuits : circuits t' = circuits t;
  la_adaptives : adaptives t' = adaptives t;
  la_permits : permits t' = permits t - held_permit gp;
  la_sends :
    1 <= Retry.max_attempts (retry_policy o) -> max_redirects (redirect_policy o) < usize_max ->
    exec_inv o x -> sends t' - sends t <=
      Retry.max_attempts (retry_policy o) + max_redirects (redirect_policy o) - progress x + 1;
  la_streamed : streamed t' - streamed t <= (if is_streaming b then 1 else 0);
  la_paid : exists n, paid n t t';
}.

Definition async_loop_post (mode : ResponseMode) (o : RequestExecutionOptions) (x : RequestExecutionState)
    (b : RequestBody Stream) (gp : option P) (t : tally)
    (r : polled (result Resp Error.t * option P)) (t' : tally) : Prop :=
  match r with
  | Ready (r, gp') => loop_post client c0 a0 p0 mode o x b gp t r gp' t'
  | Dropped => loop_abandoned o x b gp t t'
  end.

Lemma wp_async_attempts_loop fuel rate_fuel mode o x b gp t :
  wp (attempts_loop client fuel rate_fuel x b mode gp) t (async_loop_post mode o x b gp t).
Proof.
  revert x b t. induction fuel as [|fuel IH]; intros x b t; simpl; (apply wp_if; intros Hcan).
  1: { by intros s a s' _. }
  1, 3: apply wp_bind, wp_run_error_interceptors, wp_ready; split; simpl; try done; try (owns; done);
    [intros _ _ Hinv; exfalso; destruct Hinv; unfold can_attempt in Hcan; zbool; lia
    |case_match; lia|exists O; by apply paid_none].
  apply wp_and_then, wp_owning. eapply wp_mono; [apply wp_async_turn|].
  intros [[x' b'|r gp']|] t1 (n & Hs & Hst & Hrest).
  - destruct Hrest as (Hd & Hround & Hb' & [k Hk] & He & Hci & Had & Hpe).
    eapply wp_mono; [by apply IH|]. intros [[r gp']|] t2.
    + intros [L1 L2 L3 L4 L5 L6 L7 L8 [k2 L9]]. split; try done; try congruence; try lia.
      * intros Hc Hr Hinv. pose proof (round_sends client o x x' n (sends t2 - sends t1) Hround Hc Hr Hinv (L7 Hc Hr)). lia.
      * rewrite Hb' in L8. destruct n, (is_streaming b); simpl in *; lia.
      * exists (k + k2)%nat. by eapply paid_trans.
    + intros [L2 L3 L4 L5 L7 L8 [k2 L9]]. split; try done; try congruence; try lia.
      * intros Hc Hr Hinv. pose proof (round_sends client o x x' n (sends t2 - sends t1) Hround Hc Hr Hinv (L7 Hc Hr)). lia.
      * rewrite Hb' in L8. destruct n, (is_streaming b); simpl in *; lia.
      * exists (k + k2)%nat. by eapply paid_trans.
  - apply wp_ready. destruct Hrest as (Hd & Hm & Hpaid & He & Hci & Had & Hpe). split; simpl; try done.
    + intros Hc _ Hinv. pose proof (last_turn_sends o x n Hc Hinv). lia.
    + destruct n; simpl in *; destruct (is_streaming b); lia.
    + by exists O.
  - destruct Hrest as (He & Hci & Had & Hpe & [k [K1 K2 K3]]). apply wp_drop_permit. split; simpl; try done; try lia.
    + intros Hc _ Hinv. pose proof (last_turn_sends o x n Hc Hinv). lia.
    + destruct n; simpl in *; destruct (is_streaming b); lia.
    + exists k. by split.
Qed.

(** The whole request. *)
Definition async_request_post (mode : ResponseMode) (input : RetryRequestInput (RequestBody Stream))
    (gp : option P) (started : Instant) (t : tally) (r : polled (result Resp Error.t)) (t' : tally) : Prop :=
  let x := (from_request input started (retry_eligibility client)).1 in
  let o := in_execution_options _ input in
  match r with
  | Ready r => exists gp' t1, loop_post client c0 a0 p0 mode o x (in_body _ input) gp t r gp' t1 /\ t' = released gp' t1
  | Dropped => loop_abandoned o x (in_body _ input) gp t t'
  end.

Lemma wp_async_send_request_with_retry_mode fuel rate_fuel input mode gp started t :
  wp (send_request_with_retry_mode client fuel rate_fuel input mode gp started) t
    (async_request_post mode input gp started t).
Proof.
  unfold send_request_with_retry_mode, async_request_post.
  destruct (from_request input started (retry_eligibility client)) as [x b] eqn:Hx.
  assert (b = in_body _ input) as -> by (unfold from_request in Hx; congruence).
  apply wp_and_then. eapply wp_mono; [apply wp_async_attempts_loop|]. intros [[r gp']|] t1 Hpost; [|exact Hpost].
  apply wp_bind, wp_drop_permit, wp_ready. by exists gp', t1.
Qed.

End Facts.
