(* ===== verification/AsyncTheorems.v ===== *)
(** * The async client's guarantees

    The theorems about [Async.send_request_with_retry_mode], [Async.send_request] and
    [Async.send_request_stream] that follow from [AsyncFacts].  They speak of every way
    a future can end: answered, or dropped at any of its awaits. *)
From S2P Require Import Prelude Float64 Text HttpApi UriText Errors Redaction UriResolve Redirect Proxy.
From S2P Require Import Headers ContentEncoding Timing Responses Retry RetryBudget RateLimit Execution Limiters.
From S2P Require Import Metrics Lifecycle Program Blocking BlockingFacts BlockingTheorems Async AsyncFacts.

Section Theorems.
Context `{Http} `{UrlCrate} `{HttpDate} `{Codecs} `{!ProxyCrates}.
Context {E C A P Stream Body : Type} `{!Surroundings E C A P} `{!Tokio E A P Stream Body}.
Context `{!EqDecision C} `{!EqDecision A} `{!EqDecision P}.
Context (client : Client (E := E)).
Implicit Types (s : state E C A P).
Abbreviation Resp := (RetryResponse (C := C) (A := A) (P := P) (Body := Body)).
Abbreviation ResponseStream := (BlockingResponseStream (C := C) (A := A) (P := P) (Body := Body)).

(** What a future leaves to its caller: nothing, when it is dropped. *)
Definition polled_errors {T} (r : polled (result T Error.t)) : list Error.t :=
  match r with Ready r => result_errors r | Dropped => [] end.

Definition polled_guards (r : polled (result Resp Error.t)) : AttemptGuards C A :=
  match r with Ready r => result_guards r | Dropped => no_guards end.

Definition polled_permits (p0 : option P) (r : polled (result Resp Error.t)) : Z :=
  match r with Ready r => result_permits p0 r | Dropped => 0 end.

Definition is_dropped {T} (r : polled T) : bool := match r with Dropped => true | Ready _ => false end.

(** ** One request *)
Section Request.
Context (fuel rate_fuel : nat) (input : RetryRequestInput (RequestBody Stream)) (mode : ResponseMode).
Context (gp : option P) (started : Instant).
Abbreviation input_options := (in_execution_options _ input).

(** The postcondition of the request, with the drop and the answer in one form. *)
Record request_leaves c0 a0 p0 (t : tally) (r : polled (result Resp Error.t)) (t' : tally) : Prop := {
  lv_errors : errors t' = polled_errors r ++ errors t;
  lv_circuits : circuits t' = circuits t + held_circuit c0 (polled_guards r);
  lv_adaptives : adaptives t' = adaptives t + held_adaptive a0 (polled_guards r);
  lv_permits : permits t' = permits t - held_permit p0 gp + polled_permits p0 r;
  lv_destructed : is_dropped r = false -> destructed t' = destructed t;
  lv_sends :
    1 <= Retry.max_attempts (retry_policy input_options) -> 0 <= max_redirects (redirect_policy input_options) < usize_max ->
    sends t' - sends t <= Retry.max_attempts (retry_policy input_options) + max_redirects (redirect_policy input_options);
  lv_streamed : streamed t' - streamed t <= (if is_streaming (in_body _ input) then 1 else 0);
  lv_paid : exists n, paid client n t t';
  lv_mode : match r with Ready r => mode_matches mode r | Dropped => True end;
}.

Lemma wp_request_leaves c0 a0 p0 t :
  wp c0 a0 p0 (Async.send_request_with_retry_mode client fuel rate_fuel input mode gp started) t
    (request_leaves c0 a0 p0 t).
Proof.
  assert (forall n : Z,
    (1 <= Retry.max_attempts (retry_policy input_options) -> max_redirects (redirect_policy input_options) < usize_max ->
     exec_inv input_options (from_request input started (retry_eligibility client)).1 ->
     n <= Retry.max_attempts (retry_policy input_options) + max_redirects (redirect_policy input_options)
          - progress (from_request input started (retry_eligibility client)).1 + 1) ->
    1 <= Retry.max_attempts (retry_policy input_options) -> 0 <= max_redirects (redirect_policy input_options) < usize_max ->
    n <= Retry.max_attempts (retry_policy input_options) + max_redirects (redirect_policy input_options)) as Hsends.
  { intros n Hn Hm [Hr Hlt]. specialize (Hn Hm Hlt (exec_inv_initial input started (retry_eligibility client) Hm Hr)).
    unfold progress in Hn. simpl in Hn. lia. }
  eapply wp_mono; [apply wp_async_send_request_with_retry_mode|]. intros [r|] t'.
  - intros (gp' & t1 & [Hm He Hc Ha Hp Hd Hs Hst [n [P1 P2 P3]]] & ->).
    split; simpl; try done; try lia; [by apply Hsends|by exists n].
  - intros [He Hc Ha Hp Hs Hst Hpaid].
    split; simpl; unfold held_circuit, held_adaptive; simpl; try done; try lia. by apply Hsends.
Qed.

Lemma request_leaves_run c0 a0 p0 s r s' :
  Async.send_request_with_retry_mode client fuel rate_fuel input mode gp started s = Some (r, s') ->
  request_leaves c0 a0 p0 (tally_of c0 a0 p0 s) r (tally_of c0 a0 p0 s').
Proof. intros Hr. exact (wp_request_leaves c0 a0 p0 _ s r s' eq_refl Hr). Qed.

(** C2: A request of the async client, answered or dropped at any of its awaits,
    leaks nothing: every circuit attempt that began ended, every adaptive permit
    taken was given back and every limiter permit, the global one it was given
    included, was dropped, each exactly once, but for those the returned stream now
    owns. Only a dropped request leaves attempt guards to their destructors. *)
Theorem async_request_settles s r s' c a p :
  Async.send_request_with_retry_mode client fuel rate_fuel input mode gp started s = Some (r, s') ->
  added (circuit_began c) s s' = added (circuit_ended c) s s' + held_circuit (Some c) (polled_guards r) /\
  added (adaptive_began a) s s' = added (adaptive_ended a) s s' + held_adaptive (Some a) (polled_guards r) /\
  held_permit (Some p) gp + added (permit_taken p) s s' =
    added (permit_dropped p) s s' + polled_permits (Some p) r /\
  (is_dropped r = false -> added by_destructor s s' = 0).
Proof.
  intros [_ Hc Ha Hp Hd _ _ _ _]%(request_leaves_run (Some c) (Some a) (Some p)).
  rewrite !tally_circuits in Hc. rewrite !tally_adaptives in Ha. rewrite !tally_permits in Hp.
  rewrite !tally_destructed in Hd. unfold added. split_and!; [lia..|]. intros Hr. specialize (Hd Hr). lia.
Qed.

(** What the attempt driver shows the error interceptors. *)
Lemma async_driver_errors s r s' :
  Async.send_request_with_retry_mode client fuel rate_fuel input mode gp started s = Some (r, s') ->
  errors_seen (log s') = polled_errors r ++ errors_seen (log s) /\
  match r with Ready r => mode_matches mode r | Dropped => True end.
Proof.
  intros [He _ _ _ _ _ _ _ Hm]%(request_leaves_run None None None). split; [by eapply added_errors|done].
Qed.

(** What a request of the async client may send, dropped or not: under validated
    options, at most one exchange per permitted attempt and per permitted redirect,
    and a streaming body at most once. *)
Lemma async_sends_bounded s r s' :
  options_ok input_options -> max_redirects (redirect_policy input_options) < usize_max ->
  Async.send_request_with_retry_mode client fuel rate_fuel input mode gp started s = Some (r, s') ->
  added is_send s s' <= Retry.max_attempts (retry_policy input_options) + max_redirects (redirect_policy input_options) /\
  added is_streamed_send s s' <= if is_streaming (in_body _ input) then 1 else 0.
Proof.
  intros [Hm Hr]%options_ok_bounds Hlt [_ _ _ _ _ Hs Hst _ _]%(request_leaves_run None None None).
  destruct (tally_sends None None None s') as [Hs' Hst']. destruct (tally_sends None None None s) as [Hs0 Hst0].
  unfold added. rewrite <- Hs', <- Hs0, <- Hst', <- Hst0. split; [|done]. apply Hs; lia.
Qed.

End Request.

(** ** The entry points *)
Section Entry.
Context (fuel rate_fuel : nat) (method : Method) (path : str) (headers : HeaderMap).
Context (body : option (RequestBody Stream)) (overrides : RequestExecutionOverrides).

(** How a buffered request is accounted: a dropped one as canceled. *)
Definition polled_outcome (r : polled (result Response Error.t)) : Metrics.outcome :=
  match r with Ready r => result_outcome r | Dropped => Metrics.Canceled end.

Record async_buffered_post (t : tally) (r : polled (result Response Error.t)) (t' : tally) : Prop := {
  ab_accounts : exists n started now,
    let '(p, m) := Metrics.pending_request started (accounts t) in
    accounts t' = Metrics.finish_pending (polled_outcome r) now p (Nat.iter n Metrics.record_retry m) /\
    retries t' = retries t + Z.of_nat n /\
    granted t' = granted t + (if has_retry_budget client then Z.of_nat n else 0);
  ab_balanced : circuits t' = circuits t /\ adaptives t' = adaptives t /\ permits t' = permits t;
}.

Ltac settle := split; simpl in *; unfold held_circuit, held_adaptive in *; simpl in *.

Lemma wp_async_send_request c0 a0 p0 input t :
  prepare client method path headers body overrides (buffered_auto_accept_encoding client) = Ok input ->
  wp c0 a0 p0 (Async.send_request client fuel rate_fuel method path headers body overrides) t (async_buffered_post t).
Proof.
  intros Hp. unfold Async.send_request. rewrite Hp. apply wp_bind, wp_instant_now. intros started.
  apply wp_bind, wp_on_metrics. destruct (Metrics.pending_request started (accounts t)) as [pending m] eqn:Hpend. simpl.
  apply wp_and_then, wp_owning, wp_acquire_global_permit.
  - intros gp. apply wp_and_then, wp_owning. eapply wp_mono; [apply wp_request_leaves|].
    intros [r|] t1 [_ Hc Ha Hpe _ _ _ (n & [Hr Hg Hacc]) Hm]; simpl in *.
    + apply wp_bind, wp_complete_pending. intros now. apply wp_bind, wp_drop_permit, wp_ready.
      destruct r as [[response|stream]|e]; [|by destruct Hm|]; (settle;
        [exists n, started, now; rewrite Hpend, Hacc; split_and!; done || lia|lia]).
    + apply wp_bind, wp_drop_permit, wp_complete_pending. intros now. settle; [|lia].
      exists n, started, now. rewrite Hpend, Hacc. split_and!; done || lia.
  - intros e. apply wp_bind, wp_complete_pending. intros now. apply wp_ready. settle; [|done].
    exists O, started, now. rewrite Hpend. simpl. split_and!; [done|lia|case_match; lia].
  - apply wp_complete_pending. intros now. settle; [|done].
    exists O, started, now. rewrite Hpend. simpl. split_and!; [done|lia|case_match; lia].
Qed.

(** C9: A buffered request of the async client leaves no trace but its accounting,
    however it ends: once its input is prepared, the metrics are those of a request
    that started, was retried as often as the observers were told, and finished with
    the result it answers, or as canceled when its future is dropped; the retry
    budget, if there is one, granted exactly those retries; and every circuit
    attempt, adaptive permit and limiter permit it took was given back. *)
Theorem async_request_accounted s r s' input c a p :
  prepare client method path headers body overrides (buffered_auto_accept_encoding client) = Ok input ->
  Async.send_request client fuel rate_fuel method path headers body overrides s = Some (r, s') ->
  (exists n started now,
     let '(pending, m) := Metrics.pending_request started (metrics s) in
     metrics s' = Metrics.finish_pending (polled_outcome r) now pending (Nat.iter n Metrics.record_retry m) /\
     added is_retry s s' = Z.of_nat n /\
     added is_grant s s' = (if has_retry_budget client then Z.of_nat n else 0)) /\
  added (circuit_began c) s s' = added (circuit_ended c) s s' /\
  added (adaptive_began a) s s' = added (adaptive_ended a) s s' /\
  added (permit_taken p) s s' = added (permit_dropped p) s s'.
Proof.
  intros Hp Hs. destruct (wp_async_send_request (Some c) (Some a) (Some p) input _ Hp s r s' eq_refl Hs)
    as [(n & started & now & Hacc) (Hc & Ha & Hpe)].
  rewrite !tally_circuits in Hc. rewrite !tally_adaptives in Ha. rewrite !tally_permits in Hpe.
  destruct (tally_retries (Some c) (Some a) (Some p) s) as [Hr0 Hg0].
  destruct (tally_retries (Some c) (Some a) (Some p) s') as [Hr' Hg']. unfold added.
  split; [|lia]. exists n, started, now. rewrite !tally_accounts in Hacc.
  destruct (Metrics.pending_request started (metrics s)) as [pending m]. destruct Hacc as (Hm & Hr & Hg).
  split_and!; [done|lia|lia].
Qed.

(** ** The metrics ledger *)
Definition polled_accounting (r : polled (result ResponseStream Error.t)) : list Metrics.StreamCompletion :=
  match r with Ready r => stream_accounting r | Dropped => [] end.

Definition polled_response (r : polled (result ResponseStream Error.t)) : polled (result Resp Error.t) :=
  match r with Ready r => Ready (as_response r) | Dropped => Dropped end.

Record async_streamed_post c0 a0 p0 ps cs (t : tally) (r : polled (result ResponseStream Error.t)) (t' : tally) : Prop := {
  as_ledger : rtc Metrics.step (ledger (accounts t) ps cs) (ledger (accounts t') ps (polled_accounting r ++ cs));
  as_open : match r with
    | Ready (Ok st) => StreamLifecycle.completed (stream_lifecycle st) = false /\
                       is_some (StreamLifecycle.completion (stream_lifecycle st)) = true
    | _ => True
    end;
  as_circuits : circuits t' = circuits t + held_circuit c0 (polled_guards (polled_response r));
  as_adaptives : adaptives t' = adaptives t + held_adaptive a0 (polled_guards (polled_response r));
  as_permits : permits t' = permits t + polled_permits p0 (polled_response r);
}.

Lemma wp_async_send_request_stream c0 a0 p0 t ps cs :
  wp c0 a0 p0 (Async.send_request_stream client fuel rate_fuel method path headers body overrides) t
    (async_streamed_post c0 a0 p0 ps cs t).
Proof.
  unfold Async.send_request_stream. destruct (prepare client _ _ _ _ _ _) as [input|e].
  2: { apply wp_ready. settle; try done; lia. }
  apply wp_bind, wp_instant_now. intros started. apply wp_bind, wp_on_metrics.
  destruct (Metrics.pending_request started (accounts t)) as [pending m] eqn:Hpend. simpl.
  assert (forall n o now,
    rtc Metrics.step (ledger (accounts t) ps cs)
      (ledger (Metrics.finish_pending o now pending (Nat.iter n Metrics.record_retry m)) ps cs)) as Hend.
  { intros n o now. eapply rtc_r; [exact (ledger_start_retries started _ pending m n ps cs Hpend)|].
    apply (Metrics.step_finish _ [] pending ps cs o now). }
  apply wp_and_then, wp_owning, wp_acquire_global_permit.
  - intros gp. apply wp_and_then, wp_owning. eapply wp_mono; [apply wp_request_leaves|].
    intros [r|] t1 [_ Hc Ha Hpe _ _ _ (n & [_ _ Hacc]) Hm]; simpl in *.
    2: { apply wp_complete_pending. intros now. settle; try done; try lia. rewrite Hacc. apply (Hend n Metrics.Canceled now). }
    destruct r as [[response|stream]|e]; [done| |].
    + apply wp_bind, wp_instant_now. intros now. apply wp_bind, wp_on_metrics, wp_ready.
      destruct (Metrics.into_stream _ _ _ _) as [cmp m'] eqn:Hinto.
      split; simpl; unfold stream_guards in *; simpl in *; try done; try lia.
      * eapply rtc_r; [exact (ledger_start_retries started _ pending m n ps cs Hpend)|]. rewrite <- Hacc.
        exact (Metrics.step_into_stream _ [] pending ps cs _ now cmp m' Hinto).
      * by destruct Hm.
    + apply wp_bind, wp_complete_pending. intros now. apply wp_ready. settle; try done; try lia. rewrite Hacc. apply (Hend n (Metrics.Failed e) now).
  - intros e. apply wp_bind, wp_complete_pending. intros now. apply wp_ready. settle; try done; try lia. apply (Hend O (Metrics.Failed e) now).
  - apply wp_complete_pending. intros now. settle; try done; try lia. apply (Hend O Metrics.Canceled now).
Qed.

(** The accounting of both entry points of the async client refines the ledger of the
    metrics: a buffered request, dropped or not, is a run that starts a request and
    finishes it; a streamed request ends finished, as failed or as canceled, or as an
    open stream of the ledger whose completion the returned stream carries. *)
Lemma async_requests_refine_ledger s s' ps cs :
  (forall r, Async.send_request client fuel rate_fuel method path headers body overrides s = Some (r, s') ->
     rtc Metrics.step (ledger (metrics s) ps cs) (ledger (metrics s') ps cs)) /\
  (forall r, Async.send_request_stream client fuel rate_fuel method path headers body overrides s = Some (r, s') ->
     rtc Metrics.step (ledger (metrics s) ps cs) (ledger (metrics s') ps (polled_accounting r ++ cs)) /\
     match r with
     | Ready (Ok st) => is_some (StreamLifecycle.completion (stream_lifecycle st)) = true
     | _ => True
     end).
Proof.
  split; intros r Hs.
  - destruct (prepare client method path headers body overrides (buffered_auto_accept_encoding client))
      as [input|e] eqn:Hp.
    + destruct (wp_async_send_request None None None input _ Hp s r s' eq_refl Hs) as [(n & started & now & Hacc) _].
      rewrite !tally_accounts in Hacc.
      destruct (Metrics.pending_request started (metrics s)) as [pending m] eqn:Hpend. destruct Hacc as [-> _].
      eapply rtc_r; [exact (ledger_start_retries started _ pending m n ps cs Hpend)|].
      apply (Metrics.step_finish _ [] pending ps cs (polled_outcome r) now).
    + unfold Async.send_request in Hs. rewrite Hp in Hs. by injection Hs as <- <-.
  - destruct (wp_async_send_request_stream None None None _ ps cs s r s' eq_refl Hs) as [Hl Ho _ _ _].
    rewrite !tally_accounts in Hl. split; [done|]. destruct r as [[]|]; [apply Ho|done|done].
Qed.

(** ** Reported errors *)

(** The entry of a request, up to the global queue, which may refuse it or be where the
    request is dropped. *)
Definition async_admission (input : RetryRequestInput (RequestBody Stream)) : M E C A P (polled (result (option P) Error.t)) :=
  request_started_at ← instant_now;
  _ ← start_accounting request_started_at;
  Async.acquire_global_request_permit client (total_timeout (in_execution_options _ input)) request_started_at
    (in_method _ input) (in_redacted_uri_text _ input).

Definition async_reported {T} (prepared : result (RetryRequestInput (RequestBody Stream)) Error.t)
    (r : polled (result T Error.t)) s s' : Prop :=
  match prepared with
  | Err e => r = Ready (Err e) /\ errors_seen (log s') = errors_seen (log s)
  | Ok input =>
    match async_admission input s with
    | Some (Ready (Err e), _) => r = Ready (Err e) /\ errors_seen (log s') = errors_seen (log s)
    | Some (Ready (Ok _), _) => errors_seen (log s') = polled_errors r ++ errors_seen (log s)
    | Some (Dropped, _) => r = Dropped /\ errors_seen (log s') = errors_seen (log s)
    | None => False
    end
  end.

(** The request got past the queue. *)
Definition async_admitted (prepared : result (RetryRequestInput (RequestBody Stream)) Error.t) s : bool :=
  match prepared with
  | Ok input => match async_admission input s with Some (Ready (Ok _), _) => true | _ => false end
  | Err _ => false
  end.

Lemma async_reported_admitted {T} prepared (r : polled (result T Error.t)) s s' :
  async_reported prepared r s s' -> async_admitted prepared s = true ->
  errors_seen (log s') = polled_errors r ++ errors_seen (log s).
Proof.
  unfold async_reported, async_admitted. destruct prepared as [input|e]; [|done].
  by destruct (async_admission input s) as [[[[]|] ?]|].
Qed.

Lemma async_admission_errors_kept input s permit s' :
  async_admission input s = Some (permit, s') -> errors_seen (log s') = errors_seen (log s).
Proof.
  apply wp_errors_kept. intros t. apply wp_bind, wp_instant_now. intros started. apply wp_bind, wp_on_metrics.
  destruct (Metrics.pending_request _ _). by apply wp_acquire_global_permit.
Qed.

Lemma and_then_inv {T U} (m : M E C A P (polled T)) (k : T -> M E C A P (polled U)) s b s' :
  Async.and_then m k s = Some (b, s') ->
  exists a s1, m s = Some (a, s1) /\
    match a with Ready a => k a s1 = Some (b, s') | Dropped => b = Dropped /\ s' = s1 end.
Proof.
  intros ([a|] & s1 & Hm & Hk)%bind_inv; [by exists (Ready a), s1|]. exists Dropped, s1. by injection Hk as <- <-.
Qed.

Lemma owning_inv {T} locals (m : M E C A P (polled T)) s b s' :
  Async.owning locals m s = Some (b, s') ->
  match b with Ready _ => m s = Some (b, s') | Dropped => exists s1, m s = Some (Dropped, s1) /\ locals s1 = Some (tt, s') end.
Proof.
  intros ([a|] & s1 & Hm & Hk)%bind_inv; [by injection Hk as <- <-|].
  apply bind_inv in Hk as ([] & s2 & Hl & Hk). injection Hk as <- <-. eauto.
Qed.

(** What the two entry points share: the queue, and the driver with its locals. *)
Lemma reported_past_queue {T} input (locals : Metrics.PendingRequest -> option P -> M E C A P unit)
    (driver : option P -> Instant -> M E C A P (polled (result Resp Error.t))) mode
    (close : Metrics.PendingRequest -> option P -> result Resp Error.t -> M E C A P (polled (result T Error.t))) s r s' :
  (forall p gp s u s', locals p gp s = Some (u, s') -> errors_seen (log s') = errors_seen (log s)) ->
  (forall gp started s r s', driver gp started s = Some (r, s') ->
     errors_seen (log s') = polled_errors r ++ errors_seen (log s) /\
     match r with Ready r => mode_matches mode r | Dropped => True end) ->
  (forall p gp d s r s', mode_matches mode d -> close p gp d s = Some (r, s') ->
     errors_seen (log s') = errors_seen (log s) /\ polled_errors r = result_errors d) ->
  (request_started_at ← instant_now;
   completion ← start_accounting request_started_at;
   Async.and_then
     (Async.owning (Async.drop_completion completion)
        (Async.acquire_global_request_permit client (total_timeout (in_execution_options _ input)) request_started_at
           (in_method _ input) (in_redacted_uri_text _ input)))
     (fun permit => match permit with
      | Err error => _ ← complete_pending (Metrics.Failed error) completion; Async.ready (Err error)
      | Ok global_permit =>
        Async.and_then (Async.owning (locals completion global_permit) (driver global_permit request_started_at))
          (close completion global_permit)
      end)) s = Some (r, s') ->
  async_reported (Ok input) r s s'.
Proof.
  intros Hlocals Hdriver Hclose Hs. apply bind_inv in Hs as (started & s1 & E1 & Hs).
  apply bind_inv in Hs as (completion & s2 & E2 & Hs). apply and_then_inv in Hs as (permit & s3 & Hq & Hs).
  assert (forall q s3', Async.acquire_global_request_permit client (total_timeout (in_execution_options _ input)) started
      (in_method _ input) (in_redacted_uri_text _ input) s2 = Some (q, s3') -> async_admission input s = Some (q, s3')) as Ha.
  { intros q s3' E3. unfold async_admission, mbind, program_bind. by rewrite E1, E2. }
  unfold async_reported. apply owning_inv in Hq. destruct permit as [[gp|e]|].
  - apply Ha in Hq. rewrite Hq. apply async_admission_errors_kept in Hq.
    apply and_then_inv in Hs as (d & s4 & Hd & Hs). apply owning_inv in Hd. destruct d as [d|].
    + apply Hdriver in Hd as [He Hm]. apply (Hclose _ _ _ _ _ _ Hm) in Hs as [-> ->]. simpl in He. congruence.
    + destruct Hs as [-> ->]. destruct Hd as (s5 & [He _]%Hdriver & Hl%Hlocals). simpl in *. congruence.
  - apply Ha in Hq. rewrite Hq. apply async_admission_errors_kept in Hq.
    apply bind_inv in Hs as (u & s4 & Hc%complete_pending_errors_kept & Hs). injection Hs as <- <-. split; congruence.
  - destruct Hs as [-> ->]. destruct Hq as (s4 & Hq & Hl%complete_pending_errors_kept).
    apply Ha in Hq. rewrite Hq. apply async_admission_errors_kept in Hq. split; congruence.
Qed.

Lemma async_buffered_reported s r s' :
  Async.send_request client fuel rate_fuel method path headers body overrides s = Some (r, s') ->
  async_reported (prepare client method path headers body overrides (buffered_auto_accept_encoding client)) r s s'.
Proof.
  unfold Async.send_request. destruct (prepare client _ _ _ _ _ _) as [input|e]; [|by intros [= <- <-]].
  apply (reported_past_queue input (fun p gp => _ ← drop_permit gp; Async.drop_completion p)
    (fun _ => Async.send_request_with_retry_mode client fuel rate_fuel input BufferedMode None) BufferedMode).
  - intros p gp s0 u s1 Hl. apply bind_inv in Hl as (? & s2 & Hd%drop_permit_errors_kept & Hc%complete_pending_errors_kept).
    congruence.
  - intros gp started. apply async_driver_errors.
  - intros p gp d s0 r0 s1 Hm Hc. apply bind_inv in Hc as (? & s2 & Hc1%complete_pending_errors_kept & Hc).
    apply bind_inv in Hc as (? & s3 & Hc2%drop_permit_errors_kept & Hc). injection Hc as <- <-. split; [congruence|].
    by destruct d as [[]|]; [|destruct Hm|].
Qed.

Lemma async_streamed_reported s r s' :
  Async.send_request_stream client fuel rate_fuel method path headers body overrides s = Some (r, s') ->
  async_reported (prepare client method path headers body overrides (stream_auto_accept_encoding client)) r s s'.
Proof.
  unfold Async.send_request_stream. destruct (prepare client _ _ _ _ _ _) as [input|e]; [|by intros [= <- <-]].
  apply (reported_past_queue input (fun p _ => Async.drop_completion p)
    (Async.send_request_with_retry_mode client fuel rate_fuel input StreamMode) StreamMode).
  - intros p gp s0 u s1. apply complete_pending_errors_kept.
  - intros gp started. apply async_driver_errors.
  - intros p gp d s0 r0 s1 Hm Hc. destruct d as [[response|stream]|e]; [done| |].
    + apply bind_inv in Hc as (now & s2 & E2 & Hc). apply bind_inv in Hc as (c & s3 & E3 & Hc). injection Hc as <- <-.
      split; [|done]. transitivity (errors_seen (log s2)).
      * eapply wp_errors_kept; [|exact E3]. intros t. by apply wp_on_metrics.
      * eapply wp_errors_kept; [|exact E2]. intros t. by apply wp_instant_now.
    + apply bind_inv in Hc as (? & s2 & Hc1%complete_pending_errors_kept & Hc). injection Hc as <- <-. split; [congruence|done].
Qed.

(** C4: The error interceptors of the async client see the terminal error of the
    attempt driver, exactly it and once, and nothing of one that answers with a
    response or that is dropped. So for both entry points: a request whose input
    cannot be prepared, or that the global queue refuses before its first attempt,
    answers with that error and shows them none; one that is dropped, in the queue
    or later, shows them none; any other shows them exactly the error it answers
    with, once, or none when it answers with a response. *)
Theorem async_errors_reported_once s s' :
  (forall input mode gp started r,
     Async.send_request_with_retry_mode client fuel rate_fuel input mode gp started s = Some (r, s') ->
     errors_seen (log s') = polled_errors r ++ errors_seen (log s)) /\
  (forall r, Async.send_request client fuel rate_fuel method path headers body overrides s = Some (r, s') ->
     async_reported (prepare client method path headers body overrides (buffered_auto_accept_encoding client)) r s s') /\
  (forall r, Async.send_request_stream client fuel rate_fuel method path headers body overrides s = Some (r, s') ->
     async_reported (prepare client method path headers body overrides (stream_auto_accept_encoding client)) r s s').
Proof.
  split_and!; [|intros r; apply async_buffered_reported|intros r; apply async_streamed_reported].
  intros input mode gp started r Hr. by apply async_driver_errors in Hr as [? _].
Qed.

End Entry.
End Theorems.
