(* ===== verification/AsyncWalk.v ===== *)
(** * Properties a program of the async client inherits from its operations

    [Walk] for the async client: what holds of the operations on the surroundings,
    answered or dropped, holds of its requests. *)
From S2P Require Import Prelude Float64 Text HttpApi UriText Errors Redaction UriResolve Redirect Proxy.
From S2P Require Import Headers ContentEncoding Timing Responses Retry RetryBudget RateLimit Execution Limiters.
From S2P Require Import Metrics Lifecycle Program Blocking Walk Async.
Import Async.

(** ** Waiting *)
Section Waiting.
Context `{Http} {E C A P Stream Body : Type} (L : logic E C A P).
Abbreviation Prog := (M E C A P).

Lemma walk_ready {T} (a : T) : holds L (ready a).
Proof. apply holds_ret. Qed.
Lemma walk_await {T} (op : aop E T) events :
  holds L (act op (fun r => match r with Some a => events a | None => [] end)) -> holds L (await op events).
Proof. intros Hop. apply holds_bind; [done|]. intros a. apply holds_ret. Qed.
Lemma walk_and_then {T U} (m : Prog (polled T)) (k : T -> Prog (polled U)) :
  holds L m -> (forall a, holds L (k a)) -> holds L (and_then m k).
Proof. intros Hm Hk. apply holds_bind; [done|]. intros [a|]; [apply Hk|apply holds_ret]. Qed.
Lemma walk_owning {T} locals (m : Prog (polled T)) : holds L locals -> holds L m -> holds L (owning locals m).
Proof.
  intros Hl Hm. apply holds_bind; [done|]. intros [a|]; [apply holds_ret|].
  apply holds_bind; [done|]. intros u. apply holds_ret.
Qed.
Lemma walk_done m : holds L m -> holds L (done (Stream := Stream) (Body := Body) m).
Proof. intros Hm. apply holds_bind; [done|]. intros r. apply holds_ret. Qed.

End Waiting.
#[export] Hint Resolve walk_ready : walks.

Ltac awaiting :=
  repeat first
    [ solve [eauto 3 with walks]
    | match goal with
      | |- holds _ (and_then _ _) => apply walk_and_then; [|intros ?]
      | |- holds _ (owning _ _) => apply walk_owning
      | |- holds _ (done _) => apply walk_done
      | |- holds _ (_ ≫= _) => apply holds_bind; [|intros ?]
      | |- holds _ (mret _) => apply holds_ret
      | |- holds _ (on_metrics _) => apply holds_metrics
      end
    | progress cbv zeta | case_match ].

(** ** The async client *)
Section Client.
Context `{Http} `{UrlCrate} `{HttpDate} `{Codecs} `{!ProxyCrates}.
Context {E C A P Stream Body : Type} `{!Surroundings E C A P} `{!Tokio E A P Stream Body}.
Context (client : Client (E := E)) (L : logic E C A P).

Record async_steps : Prop := {
  async_shared : shared_steps client L;
  on_tokio_sleep : forall d, holds L (sleep d);
  on_limiters_global : forall total from method uri,
    holds L (before_deadline limiters_acquire_global permit_events total from method uri);
  on_limiters_host : forall host total from method uri,
    holds L (before_deadline (limiters_acquire_host host) permit_events total from method uri);
  on_controller : forall total from method uri,
    holds L (before_deadline acquired_permit (fun a => [AdaptiveBegan a]) total from method uri);
  on_sent : forall method uri streamed, holds L (act_ (fun e => e) [Sent method uri streamed]);
  on_transport : forall d method uri headers body,
    holds L (await (timeout d (transport_request (Stream := Stream) (Body := Body) method uri headers body)) (fun _ => []));
  on_frames : forall d body,
    holds L (await (timeout d (body_frames (Stream := Stream) (Body := Body) body)) (fun _ => []));
}.

Context (Hsteps : async_steps).
#[local] Hint Resolve async_shared on_tokio_sleep on_limiters_global on_limiters_host on_controller on_sent
  on_transport on_frames : walks.

Lemma walk_drop_attempt g hp : holds L (drop_attempt g hp).
Proof. unfold drop_attempt. awaiting. Qed.
Lemma walk_async_global total from method uri : holds L (acquire_global_request_permit client total from method uri).
Proof. unfold acquire_global_request_permit. awaiting. Qed.
Lemma walk_async_host host total from method uri :
  holds L (acquire_host_request_permit client host total from method uri).
Proof. unfold acquire_host_request_permit. awaiting. Qed.
Lemma walk_async_adaptive total from method uri : holds L (begin_adaptive_attempt client total from method uri).
Proof. unfold begin_adaptive_attempt. awaiting. Qed.
Lemma walk_send_transport d method uri headers body :
  holds L (send_transport_request (Stream := Stream) (Body := Body) d method uri headers body).
Proof. unfold send_transport_request. awaiting. Qed.
Lemma walk_into_error e x d : holds L (into_error e x d).
Proof. unfold into_error. awaiting. Qed.
Lemma walk_async_read_body (response : HttpResponse Body) x ctx d :
  holds L (read_response_body_with_retry client response x ctx d).
Proof. unfold read_response_body_with_retry. awaiting. Qed.
#[local] Hint Resolve walk_drop_attempt walk_async_global walk_async_host walk_async_adaptive walk_send_transport
  walk_into_error walk_async_read_body : walks.
Lemma walk_async_read_decoded (response : HttpResponse Body) h st x ctx d :
  holds L (read_decoded_response_body_with_retry client response h st x ctx d).
Proof. unfold read_decoded_response_body_with_retry, check_deadline. awaiting. Qed.
Lemma walk_async_retry_turn x (b : RequestBody Stream) g hp delay : holds L (retry_turn (Body := Body) x b g hp delay).
Proof. unfold retry_turn. awaiting. Qed.
#[local] Hint Resolve walk_async_read_decoded walk_async_retry_turn : walks.
Lemma walk_async_transport_failed x (b : RequestBody Stream) ctx g hp gp d e :
  holds L (transport_failed (Body := Body) client x b ctx g hp gp d e).
Proof. unfold transport_failed. awaiting. Qed.
Lemma walk_async_finish x (b : RequestBody Stream) ctx mode g hp gp (response : HttpResponse Body) :
  holds L (finish_response client x b ctx mode g hp gp response).
Proof. unfold finish_response. awaiting. Qed.
#[local] Hint Resolve walk_async_transport_failed walk_async_finish : walks.
Lemma walk_async_non_success x (b : RequestBody Stream) ctx mode g host hp gp d (response : HttpResponse Body) :
  holds L (non_success_response client x b ctx mode g host hp gp d response).
Proof. unfold non_success_response. awaiting. Qed.
#[local] Hint Resolve walk_async_non_success : walks.
Lemma walk_async_handle x (b : RequestBody Stream) ctx mode g host hp gp d (response : HttpResponse Body) :
  holds L (handle_response client x b ctx mode g host hp gp d response).
Proof. unfold handle_response. awaiting. Qed.
#[local] Hint Resolve walk_async_handle : walks.
Lemma walk_async_run_attempt x (b : RequestBody Stream) mode g host hp gp :
  holds L (run_attempt (Body := Body) client x b mode g host hp gp).
Proof. unfold run_attempt. awaiting. Qed.
#[local] Hint Resolve walk_async_run_attempt : walks.

(** A turn, given the wait for the rate limiter. *)
Lemma walk_async_turn rate_fuel x (b : RequestBody Stream) mode gp :
  (forall host method uri, holds L (acquire_rate_limit_slot client rate_fuel host (total_timeout (options x))
     (request_started_at x) method uri)) ->
  holds L (turn (Body := Body) client rate_fuel x b mode gp).
Proof. intros Hslot. unfold turn. awaiting. Qed.

(** A request, given its loop; [started] is the time it began at. *)
Lemma walk_async_send fuel rate_fuel (input : RetryRequestInput (RequestBody Stream)) mode gp started :
  (let '(x, b) := from_request input started (retry_eligibility client) in
   holds L (attempts_loop (Body := Body) client fuel rate_fuel x b mode gp)) ->
  holds L (send_request_with_retry_mode (Body := Body) client fuel rate_fuel input mode gp started).
Proof. intros Hloop. unfold send_request_with_retry_mode. destruct (from_request _ _ _) as [x b]. awaiting. Qed.

(** When nothing is asked of a run out of fuel. *)
Section Partial.
Context (Hpartial : partial L) (Hrate : forall host, holds L (act (env_rate_delay host) (fun _ => []))).

Lemma walk_async_rate_slot fuel host total from method uri :
  holds L (acquire_rate_limit_slot client fuel host total from method uri).
Proof.
  unfold acquire_rate_limit_slot. case_match; [apply walk_ready|].
  induction fuel as [|fuel IH]; [apply Hpartial|]. cbn [rate_limit_loop]. awaiting.
Qed.

Lemma walk_async_attempts_loop fuel rate_fuel x (b : RequestBody Stream) mode gp :
  holds L (attempts_loop (Body := Body) client fuel rate_fuel x b mode gp).
Proof.
  revert x b. induction fuel as [|fuel IH]; intros x b; cbn [attempts_loop]; (destruct (can_attempt x); [|awaiting]).
  - apply Hpartial.
  - pose proof (walk_async_turn rate_fuel x b mode gp (fun _ _ _ => walk_async_rate_slot _ _ _ _ _ _)). awaiting.
Qed.

Lemma walk_async_request fuel rate_fuel (input : RetryRequestInput (RequestBody Stream)) mode gp started :
  holds L (send_request_with_retry_mode (Body := Body) client fuel rate_fuel input mode gp started).
Proof. apply walk_async_send. case_match. apply walk_async_attempts_loop. Qed.
#[local] Hint Resolve walk_async_request : walks.

Lemma walk_drop_completion p : holds L (drop_completion p).
Proof. unfold drop_completion. awaiting. Qed.
#[local] Hint Resolve walk_drop_completion : walks.
Lemma walk_async_send_request fuel rate_fuel method path headers (body : option (RequestBody Stream)) overrides :
  holds L (send_request (Body := Body) client fuel rate_fuel method path headers body overrides).
Proof. unfold send_request, start_accounting. awaiting. Qed.
Lemma walk_async_send_request_stream fuel rate_fuel method path headers (body : option (RequestBody Stream)) overrides :
  holds L (send_request_stream (Body := Body) client fuel rate_fuel method path headers body overrides).
Proof. unfold send_request_stream, start_accounting. awaiting. Qed.

End Partial.
End Client.
