(* ===== verification/AsyncLimiters.v ===== *)
(** * Request limiters of the async client (async_client/limiters.rs)

    The limiters of [Limiters] with tokio's semaphores, which are the class
    [TokioSemaphore].  Scopes, entries and the table are those of [Limiters]; here too a
    semaphore is shared through handles, and the parties that hold one are the futures
    that wait for a permit, the permits, and both while they are being dropped.  A
    future may be dropped whenever it waits. *)
From S2P Require Import Prelude Text UriText Eviction Limiters.

(** ** tokio's semaphore *)
Inductive TryAcquireError := Closed | NoPermits.
Inductive acquire_poll := AcquireReady | AcquireClosed | AcquirePending.

(** [poll_acquire] is a poll of the [acquire_owned] future of a waiter, [drop_acquire]
    its drop; [assigned] are the permits that were handed to waiters and not yet
    taken. *)
Class TokioSemaphore := {
  Semaphore : Type;
  semaphore_new : Z -> Semaphore;
  available_permits : Semaphore -> Z;
  assigned : Semaphore -> Z;
  try_acquire_owned : Semaphore -> result Semaphore TryAcquireError;
  poll_acquire : nat -> Semaphore -> acquire_poll * Semaphore;
  drop_acquire : nat -> Semaphore -> Semaphore;
  add_permit : Semaphore -> Semaphore;
}.

Definition unclaimed `{TokioSemaphore} (s : Semaphore) : Z := available_permits s + assigned s.

(** Permits are neither made nor lost. *)
Class TokioSemaphoreLaws `{TokioSemaphore} : Prop := {
  unclaimed_nonneg s : 0 <= unclaimed s;
  unclaimed_new n : 0 < n -> unclaimed (semaphore_new n) = n;
  unclaimed_try s s' : try_acquire_owned s = Ok s' -> unclaimed s' = unclaimed s - 1;
  unclaimed_poll k s r s' :
    poll_acquire k s = (r, s') -> unclaimed s' = unclaimed s - match r with AcquireReady => 1 | _ => 0 end;
  unclaimed_drop k s : unclaimed (drop_acquire k s) = unclaimed s;
  unclaimed_add s : unclaimed (add_permit s) = unclaimed s + 1;
}.

Module AsyncLimiters.
Import Limiters(PerHostLimiterEntry(..), semaphore, limit, last_used_at, RequestLimiters(..), global, per_host_limit,
  per_host, scope(..), entries_with, entries_with_pos, handle_of, handle_of_subset, handle_of_insert, limit_of,
  limits_accepted).

Section AsyncLimiters.
Context `{TokioSemaphore}.

(** Between its release and the drop of its handle a party is [Closing]. *)
Inductive party_state := WaitingFor (waiter : nat) | Holding | Closing.
Record party := {
  party_scope : scope;
  party_semaphore : nat;
  party_is : party_state;
}.

Record world := {
  limiters : RequestLimiters;
  semaphores : gmap nat Semaphore;
  next_semaphore : nat;
  next_waiter : nat;
  parties : list party;
}.

Definition strong_count (w : world) (i : nat) : Z :=
  (if bool_decide (global (limiters w) = Some i) then 1 else 0)
  + entries_with (per_host (limiters w)) i
  + countb (fun p => (party_semaphore p =? i)%nat) (parties w).

Definition is_idle (w : world) (e : PerHostLimiterEntry) : bool :=
  (strong_count w (semaphore e) =? 1)
  && bool_decide (available_permits <$> semaphores w !! semaphore e = Some (limit e)).

Definition entry_in (w : world) : Eviction.PerHostLimiterEntry PerHostLimiterEntry :=
  {| Eviction.is_idle := is_idle w; Eviction.last_used_at := last_used_at |}.

Definition new (max_in_flight per_host_limit : option Z) : option world :=
  match max_in_flight, per_host_limit with
  | None, None => None
  | _, _ =>
    Some {| limiters := {| global := (fun _ => O) <$> max_in_flight;
                           per_host_limit := per_host_limit; per_host := ∅ |};
            semaphores := match max_in_flight with Some n => {[ O := semaphore_new n ]} | None => ∅ end;
            next_semaphore := 1; next_waiter := 0; parties := [] |}
  end.

Definition set_table (w : world) (m : gmap str PerHostLimiterEntry) : world :=
  {| limiters := {| global := global (limiters w); per_host_limit := per_host_limit (limiters w); per_host := m |};
     semaphores := semaphores w; next_semaphore := next_semaphore w; next_waiter := next_waiter w;
     parties := parties w |}.

Definition update (w : world) (i : nat) (s : Semaphore) (ps : list party) : world :=
  {| limiters := limiters w; semaphores := <[i := s]> (semaphores w); next_semaphore := next_semaphore w;
     next_waiter := next_waiter w; parties := ps |}.

(** A future of [acquire_owned], not polled yet. *)
Definition add_waiter (s : scope) (i : nat) (w : world) : world :=
  {| limiters := limiters w; semaphores := semaphores w; next_semaphore := next_semaphore w;
     next_waiter := S (next_waiter w);
     parties := {| party_scope := s; party_semaphore := i; party_is := WaitingFor (next_waiter w) |} :: parties w |}.

Definition host_entry (host_limit : Z) (host : str) (now : Instant) (w : world) : nat * world :=
  match per_host (limiters w) !! host with
  | Some e =>
    (semaphore e, set_table w (<[host := {| semaphore := semaphore e; limit := limit e; last_used_at := now |}]>
                                 (per_host (limiters w))))
  | None =>
    let i := next_semaphore w in
    (i, {| limiters := {| global := global (limiters w); per_host_limit := per_host_limit (limiters w);
                          per_host := <[host := {| semaphore := i; limit := host_limit; last_used_at := now |}]>
                                        (per_host (limiters w)) |};
           semaphores := <[i := semaphore_new host_limit]> (semaphores w); next_semaphore := S i;
           next_waiter := next_waiter w; parties := parties w |})
  end.

(** How the part of an acquisition before its first await ends: without a limit, with
    a permit, as a future that waits, or with [Error::ConcurrencyLimitClosed]. *)
Inductive entered := Unlimited | Granted | Waiting | Refused.

Definition acquire_global (w : world) : entered * world :=
  match global (limiters w) with
  | Some i => (Waiting, add_waiter Global i w)
  | None => (Unlimited, w)
  end.

Definition acquire_host (host : option str) (now : Instant) (w : world) : entered * world :=
  let host :=
    if bool_decide (is_Some (per_host_limit (limiters w))) then host ≫= normalize_host_key else None in
  match per_host_limit (limiters w), host with
  | Some host_limit, Some host =>
    let w := set_table w
      (Eviction.cleanup_stale_per_host_limiters (entry := entry_in w) (per_host (limiters w)) now
         Eviction.PER_HOST_LIMITER_ENTRY_TTL Eviction.PER_HOST_LIMITER_MAX_ENTRIES) in
    let '(i, w) := host_entry host_limit host now w in
    match semaphores w !! i with
    | Some s =>
      match try_acquire_owned s with
      | Ok s => (Granted, update w i s
          ({| party_scope := PerHost host; party_semaphore := i; party_is := Holding |} :: parties w))
      | Err NoPermits => (Waiting, add_waiter (PerHost host) i w)
      | Err Closed => (Refused, w)
      end
    | None => (Refused, w)
    end
  | _, _ => (Unlimited, w)
  end.

(** What a party does with its semaphore. *)
Inductive transition : party_state -> Semaphore -> party_state -> Semaphore -> Prop :=
| poll_ready k s s' : poll_acquire k s = (AcquireReady, s') -> transition (WaitingFor k) s Holding s'
| poll_pending k s s' : poll_acquire k s = (AcquirePending, s') -> transition (WaitingFor k) s (WaitingFor k) s'
| poll_closed k s s' : poll_acquire k s = (AcquireClosed, s') -> transition (WaitingFor k) s Closing s'
| drop_future k s : transition (WaitingFor k) s Closing (drop_acquire k s)
| drop_permit s : transition Holding s Closing (add_permit s).

Inductive step : world -> world -> Prop :=
| step_acquire_global w w' r : acquire_global w = (r, w') -> step w w'
| step_acquire_host host now w w' r : acquire_host host now w = (r, w') -> step w w'
| step_party w ps1 p ps2 s st' s' :
    parties w = ps1 ++ p :: ps2 -> semaphores w !! party_semaphore p = Some s ->
    transition (party_is p) s st' s' ->
    step w (update w (party_semaphore p) s'
      (ps1 ++ {| party_scope := party_scope p; party_semaphore := party_semaphore p; party_is := st' |} :: ps2))
| step_drop_handle w ps1 p ps2 :
    parties w = ps1 ++ p :: ps2 -> party_is p = Closing ->
    step w {| limiters := limiters w; semaphores := semaphores w; next_semaphore := next_semaphore w;
              next_waiter := next_waiter w; parties := ps1 ++ ps2 |}.

(** ** The invariant *)
Definition holding (i : nat) (p : party) : bool :=
  (party_semaphore p =? i)%nat && match party_is p with Holding => true | _ => false end.

Definition referenced (l : RequestLimiters) (p : party) : Prop :=
  handle_of l (party_scope p) = Some (party_semaphore p).

(** What is unclaimed and what is held make up the limit. *)
Definition conserved (w : world) (i : nat) (n : Z) : Prop :=
  exists s, semaphores w !! i = Some s /\ unclaimed s + countb (holding i) (parties w) = n.

Record inv (max_in_flight host_limit : option Z) (w : world) : Prop := {
  inv_limit : per_host_limit (limiters w) = host_limit;
  inv_injective : forall s s' i,
    handle_of (limiters w) s = Some i -> handle_of (limiters w) s' = Some i -> s = s';
  inv_fresh : forall s i, handle_of (limiters w) s = Some i -> (i < next_semaphore w)%nat;
  inv_parties : Forall (referenced (limiters w)) (parties w);
  inv_semaphores : forall s i, handle_of (limiters w) s = Some i ->
    exists n, limit_of max_in_flight host_limit s = Some n /\ conserved w i n;
}.

Section Preservation.
Context `{!TokioSemaphoreLaws} (max_in_flight host_limit : option Z).
Context (Hlimits : limits_accepted max_in_flight host_limit).
Abbreviation inv := (inv max_in_flight host_limit).

(** A step at one semaphore that conserves its permits. *)
Lemma async_inv_at w w' :
  limiters w' = limiters w -> next_semaphore w' = next_semaphore w ->
  Forall (referenced (limiters w)) (parties w') ->
  (forall j n, conserved w j n -> conserved w' j n) -> inv w -> inv w'.
Proof.
  intros Hl Hn Hp Hok [I1 I2 I3 I4 I5]. split; rewrite ?Hl, ?Hn; try done.
  intros s j Hs. destruct (I5 s j Hs) as (n & Hlim & Hc). exists n. auto.
Qed.

Lemma transition_conserves st s st' s' :
  transition st s st' s' ->
  unclaimed s' + (match st' with Holding => 1 | _ => 0 end) = unclaimed s + (match st with Holding => 1 | _ => 0 end).
Proof.
  intros [k a b Hp|k a b Hp|k a b Hp|k a|a]; try (apply unclaimed_poll in Hp; lia);
    [rewrite unclaimed_drop; lia|rewrite unclaimed_add; lia].
Qed.

(** What one party adds to the count of a semaphore. *)
Lemma countb_holding i p ps :
  countb (holding i) (p :: ps) =
  (if decide (party_semaphore p = i) then match party_is p with Holding => 1 | _ => 0 end else 0) + countb (holding i) ps.
Proof.
  rewrite countb_cons. unfold holding at 1. destruct (Nat.eqb_spec (party_semaphore p) i), (decide _); try done.
  by destruct (party_is p).
Qed.

Lemma async_inv_party w ps1 p ps2 s st' s' :
  inv w -> parties w = ps1 ++ p :: ps2 -> semaphores w !! party_semaphore p = Some s ->
  transition (party_is p) s st' s' ->
  inv (update w (party_semaphore p) s'
    (ps1 ++ {| party_scope := party_scope p; party_semaphore := party_semaphore p; party_is := st' |} :: ps2)).
Proof.
  intros Hinv Hp Hs Ht%transition_conserves. pose proof (inv_parties _ _ _ Hinv) as Href.
  rewrite Hp, Forall_app, Forall_cons in Href. destruct Href as (R1 & R & R2).
  apply (async_inv_at w); try done; [by simpl; rewrite Forall_app, Forall_cons|].
  intros j n (a & Ha & Hsum). unfold conserved. simpl. rewrite Hp in Hsum.
  rewrite countb_app, countb_holding in *. simpl. destruct (decide (party_semaphore p = j)) as [<-|Hj].
  - rewrite lookup_insert_eq. simplify_eq. exists s'. split; [done|lia].
  - rewrite lookup_insert_ne by done. exists a. split; [done|lia].
Qed.

Lemma async_inv_drop_handle w ps1 p ps2 :
  inv w -> parties w = ps1 ++ p :: ps2 -> party_is p = Closing ->
  inv {| limiters := limiters w; semaphores := semaphores w; next_semaphore := next_semaphore w;
         next_waiter := next_waiter w; parties := ps1 ++ ps2 |}.
Proof.
  intros Hinv Hp Hc. pose proof (inv_parties _ _ _ Hinv) as Href.
  rewrite Hp, Forall_app, Forall_cons in Href. destruct Href as (R1 & R & R2).
  apply (async_inv_at w); try done; [by simpl; apply Forall_app|].
  intros j n (a & Ha & Hsum). exists a. split; [done|]. simpl. rewrite Hp, countb_app, countb_holding, Hc in Hsum.
  rewrite countb_app. destruct (decide _); lia.
Qed.

Lemma async_inv_add_waiter w s i : inv w -> handle_of (limiters w) s = Some i -> inv (add_waiter s i w).
Proof.
  intros Hinv Hs. apply (async_inv_at w); try done; [simpl; constructor; [done|apply Hinv]|].
  intros j n (a & Ha & Hsum). exists a. split; [done|]. simpl. rewrite countb_holding. simpl. destruct (decide _); lia.
Qed.

Lemma async_inv_granted w s i sem sem' :
  inv w -> handle_of (limiters w) s = Some i -> semaphores w !! i = Some sem -> try_acquire_owned sem = Ok sem' ->
  inv (update w i sem' ({| party_scope := s; party_semaphore := i; party_is := Holding |} :: parties w)).
Proof.
  intros Hinv Hs Hsem Ht%unclaimed_try. apply (async_inv_at w); try done; [simpl; constructor; [done|apply Hinv]|].
  intros j n (a & Ha & Hsum). unfold conserved. simpl. rewrite countb_holding. simpl.
  destruct (decide (i = j)) as [<-|Hj].
  - rewrite lookup_insert_eq. simplify_eq. exists sem'. split; [done|lia].
  - rewrite lookup_insert_ne by done. exists a. split; [done|lia].
Qed.

(** ** The table *)
Lemma idle_has_no_party w host e p :
  per_host (limiters w) !! host = Some e -> is_idle w e = true -> p ∈ parties w -> party_semaphore p <> semaphore e.
Proof.
  intros He [Hi%Z.eqb_eq _]%andb_true_iff Hp Heq. unfold strong_count in Hi. pose proof (entries_with_pos _ _ _ He).
  pose proof (countb_pos (fun p => (party_semaphore p =? semaphore e)%nat) _ p Hp (proj2 (Nat.eqb_eq _ _) Heq)).
  destruct (bool_decide _) in Hi; lia.
Qed.

Lemma async_inv_shrink w m :
  inv w -> m ⊆ per_host (limiters w) ->
  (forall k e, per_host (limiters w) !! k = Some e -> m !! k = None -> is_idle w e = true) ->
  inv (set_table w m).
Proof.
  intros [I1 I2 I3 I4 I5] Hsub Hidle.
  assert (forall s i, handle_of (limiters (set_table w m)) s = Some i -> handle_of (limiters w) s = Some i) as Hh.
  { intros s i. by apply handle_of_subset. }
  split; simpl; try done.
  - intros s s' i H1%Hh H2%Hh. by eapply I2.
  - intros s i H1%Hh. by eapply I3.
  - rewrite Forall_forall in *. intros p Hp. specialize (I4 p Hp). unfold referenced in *.
    destruct (party_scope p) as [|host]; [done|]. simpl in *. apply fmap_Some in I4 as (e & He & Hs).
    destruct (m !! host) as [e'|] eqn:Hm.
    + eapply lookup_weaken in Hm; [|exact Hsub]. simplify_eq. by rewrite Hs.
    + by destruct (idle_has_no_party w host e p He (Hidle _ _ He Hm) Hp).
  - intros s i H1%Hh. by apply I5.
Qed.

Lemma async_inv_host_entry w host n now i w' :
  inv w -> host_limit = Some n -> host_entry n host now w = (i, w') ->
  inv w' /\ handle_of (limiters w') (PerHost host) = Some i.
Proof.
  intros [I1 I2 I3 I4 I5] Hn. unfold host_entry.
  destruct (per_host (limiters w) !! host) as [e|] eqn:Hk; intros [= <- <-]; simpl; rewrite lookup_insert_eq; (split; [|done]).
  - assert (forall s, handle_of {| global := global (limiters w); per_host_limit := per_host_limit (limiters w);
      per_host := <[host := {| semaphore := semaphore e; limit := limit e; last_used_at := now |}]> (per_host (limiters w)) |} s
      = handle_of (limiters w) s) as Hh.
    { intros s. rewrite handle_of_insert. case_decide; [subst; simpl; by rewrite Hk|done]. }
    split; simpl; try done; try (intros *; rewrite !Hh; eauto).
    eapply Forall_impl; [exact I4|]. intros p Hp. unfold referenced. by rewrite Hh.
  - assert (forall s i, handle_of (limiters w) s = Some i -> s <> PerHost host /\ i <> next_semaphore w) as Hold.
    { intros s i Hs. specialize (I3 s i Hs). split; [|lia]. intros ->. simpl in Hs. by rewrite Hk in Hs. }
    split; simpl; try done.
    + intros s s' i. rewrite !handle_of_insert. simpl. do 2 case_decide; subst; naive_solver.
    + intros s i. rewrite handle_of_insert. simpl. case_decide; [naive_solver lia|]. intros Hs%I3. lia.
    + eapply Forall_impl; [exact I4|]. intros p Hp. unfold referenced. rewrite handle_of_insert.
      rewrite decide_False; [done|]. by apply (Hold _ _ Hp).
    + intros s i. rewrite handle_of_insert. simpl. case_decide as Hd.
      * intros [= <-]. subst s. exists n. split; [done|]. exists (semaphore_new n). simpl.
        rewrite lookup_insert_eq. split; [done|]. destruct (Hlimits (PerHost host) n) as [? ?]; [done|].
        rewrite unclaimed_new by done. rewrite countb_zero; [lia|]. intros p Hp.
        rewrite Forall_forall in I4. destruct (Hold _ _ (I4 p Hp)) as [_ Hne]. unfold holding.
        by rewrite (proj2 (Nat.eqb_neq _ _) Hne).
      * intros Hs. destruct (I5 s i Hs) as (n' & Hl' & a & Ha & Hsum). exists n'. split; [done|]. exists a. simpl.
        rewrite lookup_insert_ne; [done|]. destruct (Hold s i Hs). congruence.
Qed.

Lemma async_inv_acquire_host host now w r w' : inv w -> acquire_host host now w = (r, w') -> inv w'.
Proof.
  intros Hinv. unfold acquire_host.
  destruct (per_host_limit (limiters w)) as [n|] eqn:Hn; [|by intros [= <- <-]].
  destruct (if bool_decide _ then _ else _) as [key|]; [|by intros [= <- <-]].
  set (m := Eviction.cleanup_stale_per_host_limiters _ _ _ _).
  destruct (Eviction.cleanup_limiters_spec (entry := entry_in w) (per_host (limiters w)) now
    Eviction.PER_HOST_LIMITER_ENTRY_TTL Eviction.PER_HOST_LIMITER_MAX_ENTRIES) as (Hsub & Hidle & _); [done|].
  fold m in Hsub, Hidle. pose proof (async_inv_shrink w m Hinv Hsub Hidle) as Hm.
  destruct (host_entry n key now (set_table w m)) as [i w1] eqn:He.
  assert (host_limit = Some n) as Hl by (rewrite <- Hn; symmetry; apply Hinv).
  destruct (async_inv_host_entry _ _ _ _ _ _ Hm Hl He) as [H1 Hi].
  destruct (semaphores w1 !! i) as [s|] eqn:Hs; [|by intros [= <- <-]].
  destruct (try_acquire_owned s) as [s'|[]] eqn:Ht; intros [= <- <-]; [by eapply async_inv_granted|done|by apply async_inv_add_waiter].
Qed.

Lemma async_step_inv w w' : step w w' -> inv w -> inv w'.
Proof.
  intros [v v' r Hg|host now v v' r Hh|v ps1 p ps2 s st' s' Hp Hs Ht|v ps1 p ps2 Hp Hc] Hinv.
  - unfold acquire_global in Hg. destruct (global (limiters v)) as [i|] eqn:Hi; simplify_eq; [|done].
    by apply async_inv_add_waiter.
  - by eapply async_inv_acquire_host.
  - by eapply async_inv_party.
  - by eapply async_inv_drop_handle.
Qed.

Lemma async_new_inv w : new max_in_flight host_limit = Some w -> inv w.
Proof.
  intros Hnew.
  assert (w = {| limiters := {| global := (fun _ => O) <$> max_in_flight;
                   per_host_limit := host_limit; per_host := ∅ |};
            semaphores := match max_in_flight with Some n => {[ O := semaphore_new n ]} | None => ∅ end;
            next_semaphore := 1; next_waiter := 0; parties := [] |}) as ->.
  { unfold new in Hnew. by destruct max_in_flight, host_limit; simplify_eq. }
  split; simpl; try done.
  - intros [|k] [|k'] i; simpl; rewrite ?lookup_empty; try done.
  - intros [|k] i; simpl; rewrite ?lookup_empty; [|done]. rewrite fmap_Some. intros (? & _ & ->). lia.
  - intros [|k] i; simpl; rewrite ?lookup_empty; [|done]. rewrite fmap_Some. intros (n & Hn & ->).
    exists n. split; [done|]. exists (semaphore_new n). rewrite Hn. split; [simpl; by rewrite lookup_singleton_eq|].
    pose proof (Hlimits Global n Hn) as [Hpos _]. simpl. rewrite countb_nil, unclaimed_new by done. lia.
Qed.

End Preservation.
End AsyncLimiters.
End AsyncLimiters.

(** ** Permits are bounded and conserved *)
Section AsyncProperties.
Import AsyncLimiters.
Context `{TokioSemaphoreLaws} (max_in_flight host_limit : option Z).

(** The permits of a scope that have not been dropped. *)
Definition held_permit (s : Limiters.scope) (p : party) : bool :=
  bool_decide (party_scope p = s) && match party_is p with Holding => true | _ => false end.

Lemma held_permit_semaphore w s i :
  inv max_in_flight host_limit w -> Limiters.handle_of (limiters w) s = Some i ->
  countb (held_permit s) (parties w) = countb (holding i) (parties w).
Proof.
  intros [_ Hinj _ Hp _] Hs. rewrite Forall_forall in Hp.
  apply Z.le_antisymm; apply countb_mono; intros p Hin; specialize (Hp p Hin); unfold held_permit, holding, referenced in *.
  - case_bool_decide; [subst|done]. simplify_eq. by rewrite Nat.eqb_refl.
  - destruct (Nat.eqb_spec (party_semaphore p) i) as [<-|]; [|done]. rewrite bool_decide_true; [done|].
    by eapply Hinj.
Qed.

(** C25: The async limiters admit at most the configured number of requests, in all
    and per host, however futures are polled and dropped and whatever entries the
    table evicts meanwhile; and no permit is lost: those of a scope that are not
    held are with its semaphore, where the next request finds them. *)
Theorem async_limiter_permits_conserved w0 w s n :
  Limiters.limits_accepted max_in_flight host_limit -> new max_in_flight host_limit = Some w0 ->
  rtc step w0 w -> Limiters.limit_of max_in_flight host_limit s = Some n ->
  countb (held_permit s) (parties w) <= n /\
  forall i, Limiters.handle_of (limiters w) s = Some i ->
    exists sem, semaphores w !! i = Some sem /\ unclaimed sem + countb (held_permit s) (parties w) = n.
Proof.
  intros Hl H0' Hr Hn.
  assert (inv max_in_flight host_limit w) as Hinv.
  { revert Hr. apply rtc_invariant; [by apply async_new_inv|]. intros. by eapply async_step_inv. }
  assert (forall i, Limiters.handle_of (limiters w) s = Some i ->
    exists sem, semaphores w !! i = Some sem /\ unclaimed sem + countb (held_permit s) (parties w) = n) as Hall.
  { intros i Hs. rewrite (held_permit_semaphore w s i Hinv Hs). destruct Hinv as [_ _ _ _ Hok].
    destruct (Hok s i Hs) as (n' & Hn' & sem & ? & ?). simplify_eq. eauto. }
  split; [|done]. destruct (Limiters.handle_of (limiters w) s) as [i|] eqn:Hs.
  - destruct (Hall i eq_refl) as (sem & _ & Hsum). pose proof (unclaimed_nonneg sem). lia.
  - rewrite countb_zero; [pose proof (Hl s n Hn); lia|]. intros p Hp. destruct Hinv as [_ _ _ Hrefs _].
    rewrite Forall_forall in Hrefs. specialize (Hrefs p Hp). unfold held_permit, referenced in *.
    case_bool_decide; [by simplify_eq|done].
Qed.

End AsyncProperties.

(** ** A semaphore with a queue

    Released permits go to the first waiter in the queue: the laws can hold. *)
Module SemaphoreDemo.

Record queued := { free : nat; queue : list (nat * bool) }.

Fixpoint remove (k : nat) (q : list (nat * bool)) : option bool * list (nat * bool) :=
  match q with
  | [] => (None, [])
  | (k', b) :: q => if (k' =? k)%nat then (Some b, q) else let '(r, q) := remove k q in (r, (k', b) :: q)
  end.

(** Whether a waiter was there to take the permit. *)
Fixpoint hand_over (q : list (nat * bool)) : bool * list (nat * bool) :=
  match q with
  | [] => (false, [])
  | (k, false) :: q => (true, (k, true) :: q)
  | (k, true) :: q => let '(b, q) := hand_over q in (b, (k, true) :: q)
  end.

Definition release (s : queued) : queued :=
  let '(b, q) := hand_over (queue s) in {| free := if b then free s else S (free s); queue := q |}.

Definition poll (k : nat) (s : queued) : acquire_poll * queued :=
  match remove k (queue s) with
  | (Some true, q) => (AcquireReady, {| free := free s; queue := q |})
  | (Some false, _) => (AcquirePending, s)
  | (None, _) =>
    match free s with
    | S n => (AcquireReady, {| free := n; queue := queue s |})
    | O => (AcquirePending, {| free := O; queue := queue s ++ [(k, false)] |})
    end
  end.

Definition forget (k : nat) (s : queued) : queued :=
  let '(r, q) := remove k (queue s) in
  let s := {| free := free s; queue := q |} in
  match r with Some true => release s | _ => s end.

#[export] Instance fifo : TokioSemaphore := {
  Semaphore := queued; semaphore_new n := {| free := Z.to_nat n; queue := [] |};
  available_permits s := Z.of_nat (free s); assigned s := countb snd (queue s);
  try_acquire_owned s :=
    match free s with S n => Ok {| free := n; queue := queue s |} | O => Err NoPermits end;
  poll_acquire := poll; drop_acquire := forget; add_permit := release;
}.

Lemma remove_count k q :
  countb snd (remove k q).2 = countb snd q - (match (remove k q).1 with Some true => 1 | _ => 0 end).
Proof.
  induction q as [|[k' b] q IH]; [done|]. simpl. destruct (k' =? k)%nat; simpl.
  - rewrite countb_cons. simpl. destruct b; lia.
  - destruct (remove k q) as [r q'] eqn:Hr. simpl in *. rewrite !countb_cons. simpl. lia.
Qed.

Lemma hand_over_count q : countb snd (hand_over q).2 = countb snd q + (if (hand_over q).1 then 1 else 0).
Proof.
  induction q as [|[k []] q IH]; [done| |]; simpl; [|rewrite !countb_cons; simpl; lia].
  destruct (hand_over q) as [b q']. simpl in *. rewrite !countb_cons. simpl. lia.
Qed.

Lemma release_unclaimed s : unclaimed (release s) = unclaimed s + 1.
Proof.
  unfold unclaimed, release. simpl. pose proof (hand_over_count (queue s)) as Hc.
  destruct (hand_over (queue s)) as [[] q]; simpl in *; lia.
Qed.

#[export] Instance fifo_laws : TokioSemaphoreLaws.
Proof.
  split.
  - intros s. unfold unclaimed. simpl. pose proof (countb_nonneg snd (queue s)). lia.
  - intros n Hn. unfold unclaimed. simpl. rewrite countb_nil. lia.
  - intros [[|n] q] s'; [done|]. intros [= <-]. unfold unclaimed. simpl. lia.
  - intros k s r s'. simpl. unfold poll, unclaimed. simpl. pose proof (remove_count k (queue s)) as Hc.
    destruct (remove k (queue s)) as [[[]|] q]; simpl in Hc; [intros [= <- <-]; simpl; lia|intros [= <- <-]; lia|].
    destruct (free s) as [|n] eqn:Hf; intros [= <- <-]; simpl; rewrite ?countb_app, ?countb_cons, ?countb_nil; simpl; lia.
  - intros k s. simpl. unfold forget. pose proof (remove_count k (queue s)) as Hc.
    destruct (remove k (queue s)) as [[[]|] q]; simpl in Hc; [rewrite release_unclaimed|..]; unfold unclaimed; simpl; lia.
  - apply release_unclaimed.
Qed.

(** One request at a time per host: the second waits for the permit of the first. *)
Import AsyncLimiters.
Definition start : world :=
  {| limiters := {| Limiters.global := None; Limiters.per_host_limit := Some 1; Limiters.per_host := ∅ |};
     semaphores := ∅; next_semaphore := 1; next_waiter := 0; parties := [] |}.
Definition first : world := (acquire_host (Some (lit "a.example")) 5 start).2.
Definition second : world := (acquire_host (Some (lit "A.example.")) 6 first).2.

Lemma second_is_reachable : rtc step start second.
Proof.
  eapply rtc_l; [by apply (step_acquire_host (Some (lit "a.example")) 5 _ first (acquire_host (Some (lit "a.example")) 5 start).1)|].
  eapply rtc_once. by apply (step_acquire_host (Some (lit "A.example.")) 6 _ second (acquire_host (Some (lit "A.example.")) 6 first).1).
Qed.
End SemaphoreDemo.

#[local] Existing Instance SemaphoreDemo.fifo.
#[local] Existing Instance SemaphoreDemo.fifo_laws.

Lemma async_limiter_permits_conserved_witness :
  countb (held_permit (Limiters.PerHost (lit "a.example"))) (AsyncLimiters.parties SemaphoreDemo.second) <= 1 /\
  length (AsyncLimiters.parties SemaphoreDemo.second) = 2%nat.
Proof.
  split; [|vm_compute; reflexivity].
  refine (proj1 (async_limiter_permits_conserved None (Some 1) SemaphoreDemo.start _ _ _ LimitersDemo.one_per_host_accepted
    _ SemaphoreDemo.second_is_reachable _)); reflexivity.
Defined.
