(* ===== verification/AsyncSystem.v ===== *)
(** * Requests of the async client and the controls they share

    [System] for the async client: the controller is the one with a [Notify], the
    limiters are those of [AsyncLimiters], and a request may also be dropped at any of its awaits.  Of the runtime's timeouts it
    takes that an operation which is cut off has taken nothing. *)
From S2P Require Import Prelude Float64 Text HttpApi UriText Errors Redaction UriResolve Redirect Proxy.
From S2P Require Import Headers ContentEncoding Timing Responses Retry RetryBudget CircuitBreaker Adaptive RateLimit.
From S2P Require Import Execution Limiters Metrics Lifecycle Program Blocking BlockingFacts BlockingTheorems Walk System.
From S2P Require Import Async AsyncFacts AsyncTheorems AsyncWalk AsyncLimiters.
Import Async.

(** The events of an operation that was not dropped. *)
Definition when_ready `{Http} {C A P T : Type} (events : T -> list (event C A P)) (r : option T) : list (event C A P) :=
  match r with Some a => events a | None => [] end.
Definition when_finished `{Http} {C A P T : Type} (events : T -> list (event C A P)) (r : waited T)
    : list (event C A P) :=
  match r with Finished a => events a | Elapsed => [] end.

Section Connected.
Context `{Http} `{UrlCrate} `{HttpDate} `{Codecs} `{!ProxyCrates}.
Context {W K T : Type} `{!Control W K} {E C A P Stream Body : Type} `{!Surroundings E C A P} `{!Tokio E A P Stream Body}.
Context (client : Client (E := E)) (view : E -> office W T) (marks : event C A P -> option (mark T)).
Abbreviation apart := (apart view).

Record async_connected : Prop := {
  tokio_sees_shared : connected client view marks;
  sees_timeout_at : forall U deadline (op : aop E U) events, agrees view marks op (when_ready events) ->
    agrees view marks (timeout_at deadline op) (when_ready (when_finished events));
  sees_timeout : forall U d (op : aop E U), carries apart op -> carries apart (timeout d op);
  sees_tokio_sleep : forall d, carries apart (tokio_sleep d);
  sees_limiters_global : agrees view marks limiters_acquire_global (when_ready taken);
  sees_limiters_host : forall host, agrees view marks (limiters_acquire_host host) (when_ready taken);
  sees_controller : agrees view marks controller_acquire (when_ready (fun a => [AdaptiveBegan a]));
  sees_transport : forall method uri headers body,
    carries apart (transport_request (Stream := Stream) (Body := Body) method uri headers body);
  sees_frames : forall body, carries apart (body_frames (Stream := Stream) (Body := Body) body);
}.

Context (Hconn : async_connected).

Lemma keeps_await {U} (op : aop E U) events :
  agrees view marks op (when_ready events) -> keeps view marks (await op events).
Proof. intros Hop. apply (walk_await (keeps_logic view marks)). by apply keeps_act. Qed.

Lemma keeps_await_apart {U} (op : aop E U) events :
  carries apart op -> (forall a, Forall (fun ev => of_control ev = false) (events a)) ->
  keeps view marks (await op events).
Proof.
  intros Hop Hev. apply keeps_await, agrees_apart; [|done]. intros [a|]; [|done].
  eapply plain_silent; [apply Hconn|apply Hev].
Qed.

Lemma keeps_before_deadline {U} (op : aop E (result U Error.t)) events total from method uri :
  agrees view marks op (when_ready (fun r => match r with Ok a => events a | Err _ => [] end)) ->
  keeps view marks (before_deadline op events total from method uri).
Proof.
  intros Hop. unfold before_deadline. case_match; [|by apply keeps_await].
  apply keeps_bind; [apply (on_now client (keeps_logic view marks)), shared_keeps, Hconn|]. intros now. case_match; [apply keeps_ret|].
  apply (walk_and_then (keeps_logic view marks)); [by apply keeps_await, Hconn|]. intros r. apply keeps_ret.
Qed.

(** What [await] writes of an acquisition is what it took. *)
Lemma taken_events (op : aop E (result (option P) Error.t)) :
  agrees view marks op (when_ready taken) ->
  agrees view marks op (when_ready (fun r => match r with Ok p => permit_events p | Err _ => [] end)).
Proof. intros Hop e. specialize (Hop e). by destruct (op e) as [[[[p|]|err]|] e']. Qed.

Lemma async_keeps : async_steps (Stream := Stream) (Body := Body) client (keeps_logic view marks).
Proof.
  split; intros.
  - apply shared_keeps, Hconn.
  - apply keeps_await_apart; [apply Hconn|repeat constructor].
  - apply keeps_before_deadline, taken_events, Hconn.
  - apply keeps_before_deadline, taken_events, Hconn.
  - apply keeps_before_deadline. intros e. pose proof (sees_controller Hconn e) as Hmv. unfold acquired_permit.
    by destruct (controller_acquire e) as [[a|] e'].
  - eapply keeps_plain_; [apply Hconn|intros e; reflexivity|repeat constructor].
  - apply keeps_await_apart; [apply Hconn, Hconn|repeat constructor].
  - apply keeps_await_apart; [apply Hconn, Hconn|repeat constructor].
Qed.

Lemma async_requests_keep fuel rate_fuel method path headers (body : option (RequestBody Stream)) overrides :
  keeps view marks
    (send_request (Stream := Stream) (Body := Body) client fuel rate_fuel method path headers body overrides) /\
  keeps view marks
    (send_request_stream (Stream := Stream) (Body := Body) client fuel rate_fuel method path headers body overrides).
Proof.
  pose proof async_keeps as Hsteps. pose proof (keeps_partial view marks) as Hpartial.
  assert (forall host, holds (keeps_logic view marks) (act (env_rate_delay host) (fun _ => []))) as Hrate
    by (intros host; by eapply rate_delay_keeps, Hconn).
  split; [by apply (walk_async_send_request client (keeps_logic view marks))
    |by apply (walk_async_send_request_stream client (keeps_logic view marks))].
Qed.

End Connected.

(** ** The limiters of the async client *)
Section AsyncLimiterControls.
Context `{TokioSemaphore}.
Import AsyncLimiters.

Definition is_holding (p : party) : bool := match party_is p with Holding => true | _ => false end.
Definition held_parties (w : world) : list party := List.filter is_holding (parties w).

Inductive async_limiter_does : label party -> world -> world -> Prop :=
| async_limiter_waits w w' : step w w' -> held_parties w' = held_parties w -> async_limiter_does Quiet w w'
| async_limiter_begins w w' l1 p l2 :
    step w w' -> held_parties w = l1 ++ l2 -> held_parties w' = l1 ++ p :: l2 ->
    async_limiter_does (Begins (length l1) p) w w'
| async_limiter_ends how w w' l1 p l2 :
    step w w' -> held_parties w = l1 ++ p :: l2 -> held_parties w' = l1 ++ l2 ->
    async_limiter_does (Ends how (length l1)) w w'.

#[refine] #[export] Instance async_limiter_control : Control world party :=
  {| unfinished := held_parties; does := async_limiter_does |}.
Proof.
  - by inversion_clear 1.
  - inversion_clear 1. by eexists _, _.
  - inversion_clear 1. by eexists _, _, _.
Defined.

Lemma async_limiter_does_step w w' : (exists l, async_limiter_does l w w') -> step w w'.
Proof. by intros [l [? ? Hs ?|? ? ? ? ? Hs ? ?|? ? ? ? ? ? Hs ? ?]]. Qed.

(** Nothing a future of the limiters does is left out. *)
Lemma async_limiter_step_does w w' : step w w' -> exists l, async_limiter_does l w w'.
Proof.
  intros Hs. pose proof Hs as Hs'.
  destruct Hs' as [? w' r Hr|host now ? w' r Hr|? ps1 p ps2 s st' s' Hp Hsem Ht|? ps1 p ps2 Hp Hcl].
  - exists Quiet. apply async_limiter_waits; [done|]. unfold acquire_global in Hr. case_match; by injection Hr as <- <-.
  - unfold acquire_host in Hr.
    destruct (Limiters.per_host_limit (limiters w)) as [n|]; [|injection Hr as <- <-; exists Quiet; by apply async_limiter_waits].
    destruct (if bool_decide _ then _ else _) as [key|]; [|injection Hr as <- <-; exists Quiet; by apply async_limiter_waits].
    cbv zeta in Hr. match type of Hr with context [host_entry n key now ?x] => set (w1 := x) in Hr end.
    destruct (host_entry n key now w1) as [i w2] eqn:He.
    assert (parties w2 = parties w) as Hp
      by (revert He; clear; unfold host_entry; destruct (_ !! key); by intros [= <- <-]).
    repeat case_match; injection Hr as <- <-;
      [eexists (Begins 0 _); eapply (async_limiter_begins _ _ []); [done|reflexivity|unfold held_parties; cbn; rewrite Hp; reflexivity]
      |exists Quiet; apply async_limiter_waits; [done|]; unfold held_parties; cbn; by rewrite Hp..].
  - set (p' := {| party_scope := party_scope p; party_semaphore := party_semaphore p; party_is := st' |}) in *.
    assert (forall q (x : world), parties x = ps1 ++ q :: ps2 ->
      held_parties x = List.filter is_holding ps1 ++ (if is_holding q then [q] else []) ++ List.filter is_holding ps2) as Hheld.
    { intros q x Hx. unfold held_parties. rewrite Hx, List.filter_app. cbn. by destruct (is_holding q). }
    pose proof (Hheld p w Hp) as Hw. pose proof (Hheld p' (update w (party_semaphore p) s' (ps1 ++ p' :: ps2)) eq_refl) as Hw'.
    unfold is_holding at 2 in Hw. unfold is_holding at 2 in Hw'. cbn [party_is p'] in Hw'.
    destruct Ht; cbn [app] in Hw, Hw'; try (exists Quiet; apply async_limiter_waits; [done|]; by rewrite Hw, Hw').
    + eexists (Begins _ p'). by eapply async_limiter_begins.
    + eexists (Ends EndDrop _). by eapply async_limiter_ends.
  - exists Quiet. apply async_limiter_waits; [done|]. unfold held_parties. cbn. rewrite Hp, !List.filter_app. cbn.
    assert (is_holding p = false) as -> by (unfold is_holding; by rewrite Hcl). done.
Qed.

End AsyncLimiterControls.

(** ** The async client *)
Section AsyncClient.
Context `{Http} `{UrlCrate} `{HttpDate} `{Codecs} `{!ProxyCrates} `{!TokioSemaphore}.
Context {E C A P Stream Body : Type} `{!Surroundings E C A P} `{!Tokio E A P Stream Body}.
Context `{!EqDecision C} `{!EqDecision A} `{!EqDecision P}.
Context (client : Client (E := E)) (pc : CircuitBreaker.CircuitBreakerPolicy) (pa : Adaptive.AdaptiveConcurrencyPolicy).
Context (pb : RetryBudget.RetryBudgetPolicy).
#[local] Instance async_breaker_of : Control _ _ := breaker_control pc.
#[local] Instance async_controller_of : Control _ _ := async_control pa.
Context (wires : wiring E C A P CircuitBreaker.system Adaptive.async_controller AsyncLimiters.world
  RetryBudget.RetryBudgetState RateLimit.RateLimiter).

Definition async_controls_connected : Prop :=
  each (budget_does pb) rate_does
    (fun _ _ _ _ view marks => async_connected (Stream := Stream) (Body := Body) client view marks) wires.

Definition async_controls_sound (g : AttemptGuards C A) (ps : list P) (e e' : E) : Prop :=
  wired_sound (CircuitBreaker.step pc) (Adaptive.async_step pa) AsyncLimiters.step (budget_does pb) rate_does wires g ps e e'.

(** The limiter permits an answer still owns. *)
Definition polled_held (r : polled (result (RetryResponse (C := C) (A := A) (P := P) (Body := Body)) Error.t)) : list P :=
  match r with Ready r => result_held r | Dropped => [] end.

Context (Hconn : async_controls_connected).
Context (fuel rate_fuel : nat) (method : Method) (path : str) (headers : HeaderMap).
Context (body : option (RequestBody Stream)) (overrides : RequestExecutionOverrides).

Lemma async_buffered_balanced s r s' :
  send_request (Body := Body) client fuel rate_fuel method path headers body overrides s = Some (r, s') ->
  balanced no_guards [] s s'.
Proof.
  intros Hs. apply tally_balanced. intros c0 a0 p0. unfold held_circuit, held_adaptive. simpl.
  assert (forall p : P, among p [] = 0) as Hnone by done.
  destruct (prepare client method path headers body overrides (buffered_auto_accept_encoding client))
    as [input|e] eqn:Hp.
  - destruct (wp_async_send_request client fuel rate_fuel method path headers body overrides c0 a0 p0 input _ Hp
      s r s' eq_refl Hs) as [_ (Hc & Ha & Hpe)]. split_and!; [lia|lia|]. intros p _. rewrite Hnone. lia.
  - unfold send_request in Hs. rewrite Hp in Hs. injection Hs as <- <-. split_and!; [lia|lia|]. intros p _. rewrite Hnone. lia.
Qed.

(** C11: Requests of the async client and the controls they share, composed: on
    surroundings connected to a circuit breaker, an adaptive controller, request
    limiters, a retry budget and a rate limiter, with any other requests taking
    steps of all of them in between, a request is a run of the transition systems of
    these controls, also when its future is dropped at one of its awaits. It ends
    every attempt and permit it took and no other, and after it holds nothing of any
    control, or, when it answers with a stream, exactly what the stream carries. *)
Theorem async_requests_keep_controls s s' :
  wired_idle wires (env s) ->
  (forall r, send_request (Body := Body) client fuel rate_fuel method path headers body overrides s = Some (r, s') ->
     async_controls_sound no_guards [] (env s) (env s')) /\
  (forall r, send_request_stream (Body := Body) client fuel rate_fuel method path headers body overrides s = Some (r, s') ->
     async_controls_sound (polled_guards (polled_response r)) (polled_held (polled_response r)) (env s) (env s')).
Proof.
  intros Hidle. pose proof (fun U m g ps r => wired_run (CircuitBreaker.step pc) (Adaptive.async_step pa) AsyncLimiters.step
    (budget_does pb) rate_does (U := U) m wires g ps s r s' (breaker_does_step pc) (async_does_step pa)
    async_limiter_does_step Hidle) as Hrun.
  split; intros r Hs; (eapply Hrun; [|exact Hs|]).
  - eapply each_mono; [|exact Hconn]. intros W K T HW view marks Hv. by apply async_requests_keep.
  - by eapply async_buffered_balanced.
  - eapply each_mono; [|exact Hconn]. intros W K T HW view marks Hv. by apply async_requests_keep.
  - apply tally_balanced. intros c0 a0 p0.
    destruct (wp_async_send_request_stream client fuel rate_fuel method path headers body overrides c0 a0 p0 _ [] []
      s r s' eq_refl Hs) as [_ _ Hc' Ha' Hp']. split_and!; [done|done|]. intros p ->. rewrite Hp'.
    destruct (polled_response r) as [r'|]; cbn [polled_permits polled_held]; [by rewrite result_permits_among|done].
Qed.

End AsyncClient.
