(* ===== verification/AsyncReturns.v ===== *)
(** * An async request with a total timeout ends

    The counterpart of [BlockingReturns]: whatever the runtime and the transport do,
    and wherever the future is dropped, a request of the async client that has a total
    timeout comes to an end.  Of the runtime it takes that time does not run backwards
    and that a sleep that is over has lasted as long as asked. *)
From S2P Require Import Prelude Float64 Text HttpApi UriText Errors Redaction UriResolve Redirect Proxy.
From S2P Require Import Headers ContentEncoding Timing Responses Retry RetryBudget RateLimit Execution Limiters.
From S2P Require Import Metrics Lifecycle Program Blocking BlockingFacts Walk Returns BlockingReturns Async AsyncFacts AsyncWalk.
Import Async.

Section Returns.
Context `{Http} `{UrlCrate} `{HttpDate} `{Codecs} `{!ProxyCrates}.
Context {E C A P Stream Body : Type} `{!Surroundings E C A P} `{!Tokio E A P Stream Body}.
Context `{!EqDecision C} `{!EqDecision A} `{!EqDecision P}.
Context (client : Client (E := E)) (clock : E -> Z).
Abbreviation Prog := (M E C A P).
Implicit Types (s : state E C A P).

Record tokio_flows : Prop := {
  tokio_shared : time_passes client clock (C := C) (A := A) (P := P);
  flows_timeout_at : forall T deadline (op : aop E T), carries (no_earlier clock) op -> carries (no_earlier clock) (timeout_at deadline op);
  flows_timeout : forall T d (op : aop E T), carries (no_earlier clock) op -> carries (no_earlier clock) (timeout d op);
  flows_tokio_sleep : forall d e,
    clock e + (if is_some (tokio_sleep d e).1 then Z.max 0 d else 0) <= clock (tokio_sleep d e).2;
  flows_limiters_global : carries (no_earlier clock) limiters_acquire_global;
  flows_limiters_host : forall host, carries (no_earlier clock) (limiters_acquire_host host);
  flows_controller : carries (no_earlier clock) controller_acquire;
  flows_transport : forall method uri headers body, carries (no_earlier clock) (transport_request method uri headers body);
  flows_frames : forall body, carries (no_earlier clock) (body_frames body);
}.

Context (Hflows : tokio_flows).

Section Started.
Context (started : Instant).
Abbreviation returns := (returns_from (C := C) (A := A) (P := P) clock started).
Lemma returns_await {T} (op : aop E T) events : carries (no_earlier clock) op -> returns (await op events).
Proof. intros Hop. apply (walk_await (returns_logic clock started)). by apply returns_act. Qed.

Lemma returns_before_deadline {T} (op : aop E (result T Error.t)) events total from method uri :
  carries (no_earlier clock) op -> returns (before_deadline op events total from method uri).
Proof.
  intros Hop. unfold before_deadline. case_match; [|by apply returns_await]. as_logic.
  apply holds_bind; [apply (on_now client), shared_returns, Hflows|]. intros now. case_match; [apply walk_ready|].
  apply walk_and_then; [by apply returns_await, Hflows|]. intros r. apply walk_ready.
Qed.

Lemma async_returns : async_steps client (returns_logic (C := C) (A := A) (P := P) clock started).
Proof.
  split; intros.
  - apply shared_returns, Hflows.
  - apply returns_await. intros e. pose proof (flows_tokio_sleep Hflows d e) as Hle.
    unfold no_earlier. case_match; lia.
  - apply returns_before_deadline, Hflows.
  - apply returns_before_deadline, Hflows.
  - apply returns_before_deadline. intros e. unfold acquired_permit.
    pose proof (flows_controller Hflows e) as Hle. by destruct (controller_acquire e).
  - apply returns_act_. intros e. reflexivity.
  - apply returns_await, Hflows, Hflows.
  - apply returns_await, Hflows, Hflows.
Qed.

(** ** The wait for the rate limiter *)
Lemma async_rate_limit_turn fuel host (total : Duration) method uri s :
  started <= clock (env s) ->
  (exists r s', rate_limit_loop (S fuel) host (Some total) started method uri s = Some (r, s') /\
     clock (env s) <= clock (env s')) \/
  (exists s1, rate_limit_loop (S fuel) host (Some total) started method uri s =
     rate_limit_loop fuel host (Some total) started method uri s1 /\
     clock (env s) < clock (env s1) /\ clock (env s) - started < total).
Proof.
  intros Hs. cbn [rate_limit_loop]. unfold mbind, program_bind, act, instant_now.
  pose proof (flows_rate_delay _ _ (tokio_shared Hflows) host (env s)) as Hle.
  pose proof (rate_delay_nonneg _ _ (tokio_shared Hflows) host (env s)) as Hn.
  destruct (env_rate_delay host (env s)) as [wait e1]. unfold no_earlier in Hle. simpl in Hle, Hn.
  destruct (duration_is_zero wait) eqn:Hz; [by left; eexists _, _; split; [done|simpl; lia]|].
  unfold act. cbn [env]. pose proof (flows_now _ _ (tokio_shared Hflows) e1) as Hnow. destruct (env_now e1) as [now e2].
  simpl in Hnow. unfold bounded_retry_delay, elapsed, saturating_duration_since, duration_is_zero in *.
  destruct (total <=? _) eqn:H1'; [by left; eexists _, _; split; [done|simpl; lia]|].
  destruct (_ <=? wait) eqn:H2'; [by left; eexists _, _; split; [done|simpl; lia]|].
  unfold and_then, sleep, await, act, mbind, program_bind. cbn [env].
  pose proof (flows_tokio_sleep Hflows wait e2) as Hsleep. destruct (tokio_sleep wait e2) as [[[]|] e3]; simpl in Hsleep.
  - right. eexists _. split; [done|]. simpl. zbool. lia.
  - left. eexists _, _. split; [done|]. simpl. lia.
Qed.

Lemma returns_async_turn (total : Duration) rate_fuel x (b : RequestBody Stream) mode gp :
  total_timeout (options x) = Some total -> request_started_at x = started ->
  0 <= total -> total < Z.of_nat rate_fuel ->
  returns (turn (Body := Body) client rate_fuel x b mode gp).
Proof.
  intros Ht Hs H1' H2'. apply (walk_async_turn client (returns_logic clock started) async_returns). rewrite Ht, Hs.
  intros host method uri. unfold acquire_rate_limit_slot. case_match; [apply returns_ret|].
  apply (returns_waiting clock started (fun fuel => rate_limit_loop fuel host (Some total) started method uri) total);
    [|done..]. intros fuel s. apply async_rate_limit_turn.
Qed.

(** ** The loop *)
Lemma returns_async_attempts_loop (total : Duration) o fuel rate_fuel x (b : RequestBody Stream) mode gp :
  exec_inv o x -> total_timeout o = Some total -> request_started_at x = started ->
  0 <= total -> total < Z.of_nat rate_fuel ->
  1 <= Retry.max_attempts (retry_policy o) -> max_redirects (redirect_policy o) < usize_max ->
  Retry.max_attempts (retry_policy o) + max_redirects (redirect_policy o) - progress x < Z.of_nat fuel ->
  returns (attempts_loop (Body := Body) client fuel rate_fuel x b mode gp).
Proof.
  intros Hinv Ht Hs H1' H2' Hm Hr. revert x b Hinv Hs. induction fuel as [|fuel IH]; intros x b Hinv Hs Hfuel.
  { destruct Hinv. unfold progress in Hfuel. lia. }
  pose proof (async_shared _ _ async_returns) as Hshared.
  cbn [attempts_loop]. destruct (can_attempt x); [|as_logic; awaiting]. intros s Hclock.
  assert (returns (owning (drop_permit gp) (turn (Body := Body) client rate_fuel x b mode gp))) as Hturn.
  { as_logic. apply walk_owning; [awaiting|]. apply (returns_async_turn total); [by rewrite (inv_options _ _ Hinv)|done..]. }
  destruct (Hturn s Hclock) as (r & s1 & Hs1 & Hle). unfold and_then at 1, mbind, program_bind. rewrite Hs1.
  destruct r as [[x' b'|r gp']|]; [|by eexists _, _..].
  assert (round (retry_eligibility client) x x') as Hround.
  { refine (_ (wp_owning None None None (drop_permit gp) _ _ (fun r t => match r with Ready (Continue x' _) =>
      round (retry_eligibility client) x x' | _ => True end) _ s _ s1 eq_refl Hs1)); [done|].
    eapply wp_mono; [apply wp_async_turn|]. intros [[x2 b2|r gp']|] t2 Hpost; [|done|by apply wp_drop_permit].
    by destruct Hpost as (n & _ & _ & _ & Hround & _). }
  destruct (IH x' b') with (s := s1) as (r2 & s2 & Hs2 & Hle2).
  - eapply exec_inv_rtc; [done|lia|by apply round_steps|done].
  - by rewrite (round_started client x x').
  - rewrite (round_progress (retry_eligibility client) x x'); [lia|destruct Hinv; lia|done].
  - lia.
  - exists r2, s2. split; [done|lia].
Qed.

Lemma returns_async_send (total : Duration) fuel rate_fuel (input : RetryRequestInput (RequestBody Stream)) mode gp :
  options_ok (in_execution_options _ input) ->
  max_redirects (redirect_policy (in_execution_options _ input)) < usize_max ->
  total_timeout (in_execution_options _ input) = Some total -> 0 <= total < Z.of_nat rate_fuel ->
  Retry.max_attempts (retry_policy (in_execution_options _ input)) +
    max_redirects (redirect_policy (in_execution_options _ input)) <= Z.of_nat fuel ->
  returns (send_request_with_retry_mode (Body := Body) client fuel rate_fuel input mode gp started).
Proof.
  intros [Hm Hr]%options_ok_bounds Hlt Ht Htotal Hfuel.
  apply (walk_async_send client (returns_logic clock started)); [apply async_returns|].
  destruct (from_request input started (retry_eligibility client)) as [x b] eqn:Hx.
  pose proof (exec_inv_initial input started (retry_eligibility client) Hm (proj1 Hr)) as Hinv. rewrite Hx in Hinv.
  assert (progress x = 1 /\ request_started_at x = started) as [Hp Hst] by (injection Hx as <- <-; done).
  apply (returns_async_attempts_loop total (in_execution_options _ input)); try done || lia.
Qed.

End Started.

(** ** The entry points *)
Section Entry.
Context (fuel rate_fuel : nat) (method : Method) (path : str) (headers : HeaderMap).
Context (body : option (RequestBody Stream)) (overrides : RequestExecutionOverrides).

(** C7: Requests of the async client end: with a total timeout, validated options
    that permit fewer than [usize::MAX] redirects, and a runtime in which time does
    not run backwards and a sleep that is over has lasted as long as asked, both
    entry points come to an end, answered or dropped, whatever the transport, the
    limiters, the interceptors and the other requests do. The fuel that is enough is
    that of the blocking client. *)
Theorem async_requests_return s :
  (bounded_request client fuel rate_fuel method path headers body overrides (buffered_auto_accept_encoding client) ->
   exists r s', send_request (Body := Body) client fuel rate_fuel method path headers body overrides s = Some (r, s')) /\
  (bounded_request client fuel rate_fuel method path headers body overrides (stream_auto_accept_encoding client) ->
   exists r s', send_request_stream (Body := Body) client fuel rate_fuel method path headers body overrides s = Some (r, s')).
Proof.
  split; intros Hb; [unfold send_request|unfold send_request_stream];
    (destruct (prepare client _ _ _ _ _ _) as [input|e] eqn:Hp; [|by eexists _, _]);
    destruct (Hb input Hp) as (Hok & Hlt & (total & Ht & Htotal) & Hfuel);
    apply (returns_from_now client clock (tokio_shared Hflows)); intros started;
    assert (forall mode gp, holds (returns_logic clock started)
      (send_request_with_retry_mode (Body := Body) client fuel rate_fuel input mode gp started)) as Hsend
      by (intros mode gp; by apply (returns_async_send started total));
    pose proof (async_returns started) as Hsteps; pose proof (async_shared _ _ Hsteps) as Hshared;
    pose proof (walk_async_global _ _ Hsteps) as Hglobal; pose proof (walk_drop_completion _ _ Hsteps) as Hdrop;
    unfold start_accounting; as_logic; awaiting.
Qed.

End Entry.
End Returns.
