(* ===== verification/AsyncStream.v ===== *)
(** * The async response stream (http/response/async_stream.rs)

    A stream is polled: [poll_next_chunk] and [poll_read] answer or are pending, with a
    timer that is kept in the stream between two polls.  The futures ([next_chunk],
    [copy_to_writer], [into_bytes_limited], ...) poll until there is an answer, and can
    be dropped whenever they wait; the operations that consume the stream then destroy
    it.  What the stream has in common with the blocking one (its deadline, its
    lifecycle and the permits it owns) is the record of that stream.  Fuel bounds the
    loops: [frames] the frames without data that one poll skips, [polls] the polls for a
    chunk, [chunks] the chunks of a body. *)
From Stdlib Require Import Ascii String.
From S2P Require Import Prelude Float64 Text HttpApi UriText Errors Redaction UriResolve Redirect Proxy.
From S2P Require Import Headers ContentEncoding Timing Responses Retry RetryBudget RateLimit Execution Limiters.
From S2P Require Import Metrics Lifecycle Program Blocking BlockingStream Async.

Inductive poll (T : Type) := PollReady (value : T) | PollPending.
Arguments PollReady {T} value.
Arguments PollPending {T}.

(** A body and its frames, timers, and the task that waits to be woken.  A frame is
    data, or trailers. *)
Class HyperBody `{Http} (E Timer Body : Type) := {
  poll_frame : Body -> E -> (poll (option (result (option (list Z)) BoxError)) * Body) * E;
  timer_new : Duration -> E -> Timer * E;
  timer_poll : Timer -> E -> bool * E;
  park : aop E unit;
}.

(** An [AsyncWrite] that lives in the surroundings. *)
Record AsyncWriter (E : Type) := {
  async_write_all : list Z -> aop E (result unit BoxError);
  async_flush : aop E (result unit BoxError);
}.
Arguments async_write_all {E} _.
Arguments async_flush {E} _.

(** What an async build makes of a [hyper::Error] that reading a body ended in. *)
Definition async_stream_error_kind (as_hyper : BoxError -> option HyperError) (error : BoxError)
    : option IoErrorKind.t :=
  match io_error_kind_in_chain error with
  | Some kind => Some kind
  | None =>
    match as_hyper error with
    | None => None
    | Some h =>
      if hyper_timeout h then Some IoErrorKind.TimedOut
      else if hyper_incomplete_message h || hyper_closed h || hyper_shutdown h then Some IoErrorKind.UnexpectedEof
      else if hyper_body_write_aborted h then Some IoErrorKind.BrokenPipe
      else None
    end
  end.

Module AsyncStream.
Section AsyncStream.
Context `{Http} `{UrlCrate} `{HttpDate} `{Codecs} `{!ProxyCrates}.
Context {E C A P Stream Timer Body : Type} `{!Surroundings E C A P} `{!Tokio E A P Stream Body}.
Context `{!HyperBody E Timer Body}.

Abbreviation Prog := (M E C A P).
Abbreviation base := (BlockingResponseStream (C := C) (A := A) (P := P) (Body := Body)).

(** [ResponseStream] and its [StreamBody]. *)
Record t := {
  shared : base;
  frame_timeout : option Timer;
  frame_timeout_deadline_limited : bool;
  read_buffer : list Z;
}.

Definition with_timeout_ms (timeout_ms : Z) (st : base) : base :=
  {| stream_status := stream_status st; stream_headers := stream_headers st; stream_body := stream_body st;
     stream_method := stream_method st; stream_uri_raw := stream_uri_raw st;
     stream_uri_redacted := stream_uri_redacted st; stream_timeout_ms := timeout_ms;
     stream_timing_of := stream_timing_of st; stream_slack := stream_slack st;
     stream_lifecycle := stream_lifecycle st; stream_global_permit := stream_global_permit st;
     stream_host_permit := stream_host_permit st |}.

(** [ResponseStream::new], from what the driver puts into the context. *)
Definition new (context : base) : t :=
  {| shared := with_timeout_ms (Z.max (stream_timeout_ms context) 1) context;
     frame_timeout := None; frame_timeout_deadline_limited := false; read_buffer := [] |}.

Definition set_shared (b : base) (st : t) : t :=
  {| shared := b; frame_timeout := frame_timeout st;
     frame_timeout_deadline_limited := frame_timeout_deadline_limited st; read_buffer := read_buffer st |}.
Definition set_timer (timer : option Timer) (limited : bool) (st : t) : t :=
  {| shared := shared st; frame_timeout := timer; frame_timeout_deadline_limited := limited;
     read_buffer := read_buffer st |}.
Definition set_buffer (buffer : list Z) (st : t) : t :=
  {| shared := shared st; frame_timeout := frame_timeout st;
     frame_timeout_deadline_limited := frame_timeout_deadline_limited st; read_buffer := buffer |}.

(** ** Errors and deadlines *)
Definition response_body_timeout_error (st : t) : Error.t :=
  Error.Timeout TimeoutPhase.ResponseBody (Z.max (stream_timeout_ms (shared st)) 1) (stream_method (shared st))
    (stream_uri_redacted (shared st)).

Definition effective_frame_timeout (st : t) : Prog (result (Duration * bool) Error.t) :=
  let phase_timeout := duration_from_millis_saturating (Z.max (stream_timeout_ms (shared st)) 1) in
  match BlockingStream.deadline_at (shared st) with
  | None => mret (Ok (phase_timeout, false))
  | Some deadline_at =>
    now ← instant_now;
    if deadline_elapsed deadline_at now then mret (Err (BlockingStream.stream_deadline_error (shared st)))
    else mret (Ok (Z.min phase_timeout (saturating_duration_since deadline_at now),
                   deadline_limits_wait phase_timeout deadline_at now))
  end.

Definition ensure_frame_timeout (st : t) : Prog (result unit Error.t * t) :=
  match frame_timeout st with
  | Some _ => mret (Ok tt, st)
  | None =>
    r ← effective_frame_timeout st;
    match r with
    | Err error => mret (Err error, st)
    | Ok (timeout, deadline_limited) =>
      timer ← act (timer_new (Body := Body) timeout) (fun _ => []);
      mret (Ok tt, set_timer (Some timer) deadline_limited st)
    end
  end.

Definition ensure_within_deadline (st : t) : Prog (result unit Error.t) :=
  BlockingStream.ensure_within_deadline (shared st).

(** ** Completion *)
Definition complete (c : StreamLifecycle.call) (st : t) : Prog t :=
  b ← BlockingStream.complete c (shared st);
  mret {| shared := b; frame_timeout := None; frame_timeout_deadline_limited := false; read_buffer := [] |}.

Definition complete_success : t -> Prog t := complete StreamLifecycle.Succeed.
Definition complete_error (error : Error.t) : t -> Prog t := complete (StreamLifecycle.Fail_with error).

Definition drop (st : t) : Prog unit := BlockingStream.drop (shared st).

(** ** Polling *)

(** The timer fired, or the wait goes on. *)
Definition poll_frame_timeout (timer : Timer) (st : t) : Prog (poll (option (result (list Z) Error.t)) * t) :=
  fired ← act (timer_poll (Body := Body) timer) (fun _ => []);
  if (fired : bool) then
    now ← instant_now;
    let late :=
      match BlockingStream.deadline_at (shared st) with
      | Some deadline_at =>
        deadline_elapsed deadline_at now
        || (frame_timeout_deadline_limited st && deadline_within_slack deadline_at now (stream_slack (shared st)))
      | None => false
      end in
    let error := if late then BlockingStream.stream_deadline_error (shared st) else response_body_timeout_error st in
    mret (PollReady (Some (Err error)), set_timer None false st)
  else mret (PollPending, st).

Fixpoint poll_next_chunk (frames : nat) (st : t) : Prog (poll (option (result (list Z) Error.t)) * t) :=
  match frames with
  | O => fun _ => None
  | S frames =>
    match stream_body (shared st) with
    | None => mret (PollReady None, st)
    | Some inner =>
      within ← ensure_within_deadline st;
      match within with
      | Err error => mret (PollReady (Some (Err error)), set_timer None false st)
      | Ok _ =>
        '(frame, inner) ← act (poll_frame inner)
          (fun fi => match fi.1 with PollReady (Some (Ok (Some data))) => [ChunkRead data] | _ => [] end);
        let st := set_shared (BlockingStream.with_transport (Some inner) (stream_global_permit (shared st))
                    (stream_host_permit (shared st)) (stream_lifecycle (shared st)) (shared st)) st in
        match frame with
        | PollReady (Some (Ok (Some (byte :: data)))) =>
          mret (PollReady (Some (Ok (byte :: data))), set_timer None false st)
        | PollReady (Some (Ok _)) => poll_next_chunk frames (set_timer None false st)
        | PollReady (Some (Err source)) =>
          mret (PollReady (Some (Err (Error.ReadBody source))), set_timer None false st)
        | PollReady None => mret (PollReady None, set_timer None false st)
        | PollPending =>
          '(r, st) ← ensure_frame_timeout st;
          match r, frame_timeout st with
          | Err error, _ => mret (PollReady (Some (Err error)), st)
          | Ok _, Some timer => poll_frame_timeout timer st
          | Ok _, None => mret (PollPending, st)
          end
        end
      end
    end
  end.

Fixpoint next_chunk (polls frames : nat) (st : t) : Prog (polled (result (option (list Z)) Error.t) * t) :=
  match polls with
  | O => fun _ => None
  | S polls =>
    '(p, st) ← poll_next_chunk frames st;
    match p with
    | PollReady (Some (Ok chunk)) => mret (Ready (Ok (Some chunk)), st)
    | PollReady (Some (Err error)) => mret (Ready (Err error), st)
    | PollReady None => mret (Ready (Ok None), st)
    | PollPending =>
      woken ← act (park (Timer := Timer) (Body := Body)) (fun _ => []);
      match woken with
      | Some _ => next_chunk polls frames st
      | None => mret (Dropped, st)
      end
    end
  end.

Definition take_pending_chunk (st : t) : Prog (result (option (list Z)) Error.t * t) :=
  match read_buffer st with
  | [] => mret (Ok None, st)
  | buffer =>
    within ← ensure_within_deadline st;
    match within with
    | Err error => mret (Err error, st)
    | Ok _ => mret (Ok (Some buffer), set_buffer [] st)
    end
  end.

Definition take_pending_chunk_or_complete (st : t) : Prog (result (option (list Z)) Error.t * t) :=
  '(r, st) ← take_pending_chunk st;
  match r with
  | Ok chunk => mret (Ok chunk, st)
  | Err error => st ← complete_error error st; mret (Err error, st)
  end.

(** [AsyncRead::poll_read] with room for [remaining] bytes; it answers the bytes it put
    into the buffer.  A chunk is never empty, so that two turns are enough. *)
Fixpoint read_turns (turns frames : nat) (remaining : Z) (st : t) : Prog (poll (result (list Z) StreamIoError) * t) :=
  match turns with
  | O => fun _ => None
  | S turns =>
    let fail error st :=
      st ← complete_error error st;
      mret (PollReady (Err (into_stream_read_io_error (async_stream_error_kind as_hyper) error)), st) in
    match read_buffer st with
    | [] =>
      '(p, st) ← poll_next_chunk frames st;
      match p with
      | PollReady (Some (Ok chunk)) => read_turns turns frames remaining (set_buffer chunk st)
      | PollReady (Some (Err error)) => fail error st
      | PollReady None => st ← complete_success st; mret (PollReady (Ok []), st)
      | PollPending => mret (PollPending, st)
      end
    | buffer =>
      within ← ensure_within_deadline st;
      match within with
      | Err error => fail error st
      | Ok _ =>
        let to_copy := Z.to_nat (Z.min (Z.of_nat (length buffer)) remaining) in
        mret (PollReady (Ok (firstn to_copy buffer)), set_buffer (skipn to_copy buffer) st)
      end
    end
  end.

Definition poll_read (frames : nat) (remaining : Z) (st : t) : Prog (poll (result (list Z) StreamIoError) * t) :=
  if remaining =? 0 then mret (PollReady (Ok []), st) else read_turns 2 frames remaining st.

(** ** Copying *)
Definition write_with_deadline (operation : aop E (result unit BoxError)) (written : list Z) (st : t)
    : Prog (polled (result unit Error.t) * t) :=
  let written r := match r with Ok _ => [ChunkWritten written] | Err _ => [] end in
  within ← ensure_within_deadline st;
  result ← match within with
           | Err error => mret (Ready (Err error))
           | Ok _ =>
             outcome ← match BlockingStream.deadline_at (shared st) with
                       | Some deadline_at =>
                         Async.and_then
                           (Async.await (timeout_at deadline_at operation)
                              (fun r => match r with Finished r => written r | Elapsed => [] end))
                           (fun r => Async.ready match r with
                              | Finished (Ok _) => Ok tt
                              | Finished (Err source) => Err (BlockingStream.write_error source (shared st))
                              | Elapsed => Err (BlockingStream.stream_deadline_error (shared st))
                              end)
                       | None =>
                         Async.and_then (Async.await operation written)
                           (fun r => Async.ready match r with
                              | Ok _ => Ok tt
                              | Err source => Err (BlockingStream.write_error source (shared st))
                              end)
                       end;
             match outcome with
             | Ready (Ok _) => r ← ensure_within_deadline st; mret (Ready r)
             | other => mret other
             end
           end;
  match result with
  | Ready (Err error) => st ← complete_error error st; mret (Ready (Err error), st)
  | other => mret (other, st)
  end.

(** A chunk goes to the writer, within the limit. *)
Definition copy_chunk (writer : AsyncWriter E) (limit : option Z) (copied : Z) (chunk : list Z) (st : t)
    : Prog (polled (result Z Error.t) * t) :=
  let copied := sat_add u64_max copied (Z.of_nat (length chunk)) in
  let over := match limit with Some max_bytes => max_bytes <? copied | None => false end in
  if over then
    let error := BlockingStream.response_body_too_large_error (default 0 limit) (saturating_u64_to_usize copied)
                   (shared st) in
    st ← complete_error error st; mret (Ready (Err error), st)
  else
    '(w, st) ← write_with_deadline (async_write_all writer chunk) chunk st;
    mret (match w with
          | Ready (Ok _) => Ready (Ok copied)
          | Ready (Err error) => Ready (Err error)
          | Dropped => Dropped
          end, st).

Fixpoint copy_loop (chunks polls frames : nat) (writer : AsyncWriter E) (limit : option Z) (copied : Z) (st : t)
    : Prog (polled (result Z Error.t) * t) :=
  match chunks with
  | O => fun _ => None
  | S chunks =>
    '(r, st) ← next_chunk polls frames st;
    match r with
    | Dropped => mret (Dropped, st)
    | Ready (Err error) => st ← complete_error error st; mret (Ready (Err error), st)
    | Ready (Ok None) => mret (Ready (Ok copied), st)
    | Ready (Ok (Some chunk)) =>
      '(w, st) ← copy_chunk writer limit copied chunk st;
      match w with
      | Ready (Ok copied) => copy_loop chunks polls frames writer limit copied st
      | other => mret (other, st)
      end
    end
  end.

Definition copy_body (chunks polls frames : nat) (writer : AsyncWriter E) (limit : option Z) (st : t)
    : Prog (polled (result Z Error.t) * t) :=
  '(pending, st) ← take_pending_chunk_or_complete st;
  match pending with
  | Err error => mret (Ready (Err error), st)
  | Ok pending =>
    '(w, st) ← match pending with
               | Some chunk => copy_chunk writer limit 0 chunk st
               | None => mret (Ready (Ok 0), st)
               end;
    '(r, st) ← match w with
               | Ready (Ok copied) => copy_loop chunks polls frames writer limit copied st
               | other => mret (other, st)
               end;
    match r with
    | Ready (Ok copied) =>
      '(w, st) ← write_with_deadline (async_flush writer) [] st;
      match w with
      | Ready (Ok _) => st ← complete_success st; mret (Ready (Ok copied), st)
      | Ready (Err error) => mret (Ready (Err error), st)
      | Dropped => mret (Dropped, st)
      end
    | other => mret (other, st)
    end
  end.

(** An operation that takes the stream by value destroys it, also when it is dropped. *)
Definition consuming {T} (m : Prog (polled T * t)) : Prog (polled T) := '(r, st) ← m; _ ← drop st; mret r.

Definition copy_to_writer (chunks polls frames : nat) (writer : AsyncWriter E) (st : t)
    : Prog (polled (result Z Error.t)) :=
  consuming (copy_body chunks polls frames writer None st).

Definition copy_to_writer_limited (chunks polls frames : nat) (writer : AsyncWriter E) (max_bytes : Z) (st : t)
    : Prog (polled (result Z Error.t)) :=
  consuming (copy_body chunks polls frames writer (Some max_bytes) st).

(** ** Buffering *)
Definition collect_chunk (max_bytes : Z) (collected chunk : list Z) (st : t) : result (list Z) Error.t :=
  let total_len := sat_add usize_max (Z.of_nat (length collected)) (Z.of_nat (length chunk)) in
  if max_bytes <? total_len
  then Err (BlockingStream.response_body_too_large_error max_bytes total_len (shared st))
  else Ok (collected ++ chunk).

Fixpoint collect_loop (chunks polls frames : nat) (max_bytes : Z) (collected : list Z) (st : t)
    : Prog (polled (result (list Z) Error.t) * t) :=
  match chunks with
  | O => fun _ => None
  | S chunks =>
    '(r, st) ← next_chunk polls frames st;
    match r with
    | Dropped => mret (Dropped, st)
    | Ready (Err error) => mret (Ready (Err error), st)
    | Ready (Ok None) => mret (Ready (Ok collected), st)
    | Ready (Ok (Some chunk)) =>
      match collect_chunk max_bytes collected chunk st with
      | Err error => mret (Ready (Err error), st)
      | Ok collected => collect_loop chunks polls frames max_bytes collected st
      end
    end
  end.

Definition read_raw_bytes_limited (chunks polls frames : nat) (max_bytes : Z) (st : t)
    : Prog (polled (result (list Z) Error.t) * t) :=
  '(pending, st) ← take_pending_chunk st;
  match pending with
  | Err error => mret (Ready (Err error), st)
  | Ok pending =>
    match (match pending with Some chunk => collect_chunk max_bytes [] chunk st | None => Ok [] end) with
    | Err error => mret (Ready (Err error), st)
    | Ok collected => collect_loop chunks polls frames max_bytes collected st
    end
  end.

Definition into_bytes_limited (chunks polls frames : nat) (max_bytes : Z) (st : t)
    : Prog (polled (result (list Z) Error.t)) :=
  consuming
    ('(r, st) ← read_raw_bytes_limited chunks polls frames max_bytes st;
     match r with
     | Ready (Ok body) => st ← complete_success st; mret (Ready (Ok body), st)
     | Ready (Err error) => st ← complete_error error st; mret (Ready (Err error), st)
     | Dropped => mret (Dropped, st)
     end).

(** The body is complete: it is decoded, between two looks at the deadline. *)
Definition decode_body (f : Features) (max_bytes : Z) (body : list Z) (st : t)
    : Prog (result Response Error.t) :=
  let status := stream_status (shared st) in
  let method := stream_method (shared st) in
  let headers := stream_headers (shared st) in
  within ← ensure_within_deadline st;
  match within with
  | Err error => mret (Err error)
  | Ok _ =>
    let should_decode := should_decode_content_encoded_body method status (Z.of_nat (length body)) in
    match (if should_decode then decode_content_encoded_body_limited f body headers max_bytes else Ok body) with
    | Err error => mret (Err (into_error error method (stream_uri_redacted (shared st)) max_bytes))
    | Ok body =>
      let headers :=
        if should_decode && hm_contains_key headers (header_name "content-encoding")
        then remove_content_encoding_headers headers else headers in
      within ← ensure_within_deadline st;
      mret match within with
           | Err error => Err error
           | Ok _ => Ok {| Responses.status := status; Responses.headers := headers; Responses.body := body |}
           end
    end
  end.

Definition into_response_limited (f : Features) (chunks polls frames : nat) (max_bytes : Z) (st : t)
    : Prog (polled (result Response Error.t)) :=
  consuming
    ('(r, st) ← read_raw_bytes_limited chunks polls frames max_bytes st;
     match r with
     | Dropped => mret (Dropped, st)
     | Ready (Err error) => st ← complete_error error st; mret (Ready (Err error), st)
     | Ready (Ok body) =>
       r ← decode_body f max_bytes body st;
       match r with
       | Err error => st ← complete_error error st; mret (Ready (Err error), st)
       | Ok response => st ← complete_success st; mret (Ready (Ok response), st)
       end
     end).

Definition and_then {T} (k : Response -> result T Error.t) (m : Prog (polled (result Response Error.t)))
    : Prog (polled (result T Error.t)) :=
  r ← m; mret match r with
              | Ready (Ok response) => Ready (k response)
              | Ready (Err error) => Ready (Err error)
              | Dropped => Dropped
              end.

Definition into_text_limited (f : Features) (chunks polls frames : nat) (max_bytes : Z) (st : t)
    : Prog (polled (result str Error.t)) :=
  and_then into_text (into_response_limited f chunks polls frames max_bytes st).

Definition into_text_lossy_limited (f : Features) (chunks polls frames : nat) (max_bytes : Z) (st : t)
    : Prog (polled (result str Error.t)) :=
  and_then (fun r => Ok (into_text_lossy r)) (into_response_limited f chunks polls frames max_bytes st).

Definition into_json_limited {T} `{!Serde T} (f : Features) (chunks polls frames : nat) (max_bytes : Z) (st : t)
    : Prog (polled (result T Error.t)) :=
  and_then json (into_response_limited f chunks polls frames max_bytes st).

End AsyncStream.
End AsyncStream.
