(* ===== verification/AsyncStreamTheorems.v ===== *)
(** * What an async response stream does

    The facts of [BlockingStreamTheorems] for the stream of the async client: every
    operation that consumes it settles what it owns once, with the outcome it reports,
    or as canceled when its future is dropped; the bytes it hands over are those of the
    transport, in order, those still in its read buffer first. *)
From S2P Require Import Prelude Float64 Text HttpApi UriText Errors Redaction UriResolve Redirect Proxy.
From S2P Require Import Headers ContentEncoding Timing Responses Retry RetryBudget RateLimit Execution Limiters.
From S2P Require Import Metrics Lifecycle Program Blocking BlockingFacts BlockingTheorems BlockingStream BlockingStreamTheorems.
From S2P Require Import Async AsyncFacts AsyncTheorems AsyncStream.

Section Facts.
Context `{Http} `{UrlCrate} `{HttpDate} `{Codecs} `{!ProxyCrates}.
Context {E C A P Stream Timer Body : Type} `{!Surroundings E C A P} `{!Tokio E A P Stream Body}.
Context `{!HyperBody E Timer Body}.
Context `{!EqDecision C} `{!EqDecision A} `{!EqDecision P}.
Context (c0 : option C) (a0 : option A) (p0 : option P).
Import AsyncStream.
Abbreviation Prog := (M E C A P).
Abbreviation Strm := (AsyncStream.t (C := C) (A := A) (P := P) (Timer := Timer) (Body := Body)).
Abbreviation wp := (BlockingFacts.wp (E := E) c0 a0 p0).
Abbreviation closed := (BlockingStreamTheorems.closed c0 a0 p0).
Implicit Types (st : Strm) (t : tally).

(** ** Streams *)
Definition still_open (st : Strm) : Prop := is_open (shared st).

(** Completed: nothing owned, nothing buffered. *)
Definition over (st : Strm) : Prop := spent (shared st) /\ read_buffer st = [].

(** The same stream, further into its body. *)
Definition moved (st st' : Strm) : Prop := advanced (shared st) (shared st').

Lemma moved_refl st : moved st st.
Proof. apply advanced_refl. Qed.
Lemma moved_trans st1 st2 st3 : moved st1 st2 -> moved st2 st3 -> moved st1 st3.
Proof. apply advanced_trans. Qed.
Lemma moved_open st st' : moved st st' -> still_open st -> still_open st'.
Proof. intros Ha Ho. unfold still_open, is_open. by rewrite (adv_lifecycle _ _ Ha). Qed.
#[local] Hint Resolve moved_refl : core.

Lemma wp_complete_stream c st st0 t (Q : Strm -> tally -> Prop) :
  still_open st0 -> moved st0 st ->
  (forall now st', over st' -> Q st' (closed (StreamLifecycle.outcome_of c) now (shared st0) t)) ->
  wp (complete c st) t Q.
Proof.
  intros Ho Hm HQ. apply wp_bind, wp_complete; [exact (moved_open _ _ Hm Ho)|].
  intros now b Hs. apply wp_ret. rewrite (closed_advanced _ _ _ _ _ _ _ _ Hm). by apply HQ.
Qed.

(** Completing once more does nothing. *)
Lemma wp_complete_over c st t (Q : Strm -> tally -> Prop) :
  over st -> (forall st', over st' -> Q st' t) -> wp (complete c st) t Q.
Proof.
  intros [[Hl Hg Hh _] _] HQ. apply wp_bind. unfold BlockingStream.complete, BlockingStream.release_transport.
  rewrite Hg, Hh. apply wp_bind, wp_bind, wp_ret, wp_bind, wp_ret, wp_ret. apply wp_bind, wp_on_lifecycle.
  intros now s <-. cbn [BlockingStream.with_transport stream_lifecycle]. rewrite Hl. destruct c; simpl; (apply wp_ret, wp_ret;
    match goal with |- Q _ ?t' => replace t' with (tally_of c0 a0 p0 s)
      by (rewrite <- (tally_accounts c0 a0 p0); by destruct (tally_of c0 a0 p0 s)) end; apply HQ; by repeat split).
Qed.

(** ** Polling *)
Lemma wp_effective_frame_timeout st t (Q : result (Duration * bool) Error.t -> tally -> Prop) :
  (forall r, Q r t) -> wp (effective_frame_timeout st) t Q.
Proof.
  intros HQ. unfold effective_frame_timeout. destruct (BlockingStream.deadline_at _); [|by apply wp_ret].
  apply wp_bind, wp_instant_now. intros now. apply wp_if; intros _; by apply wp_ret.
Qed.

Lemma wp_ensure_frame_timeout st t (Q : result unit Error.t * Strm -> tally -> Prop) :
  (forall r st', shared st' = shared st -> read_buffer st' = read_buffer st -> Q (r, st') t) ->
  wp (ensure_frame_timeout st) t Q.
Proof.
  intros HQ. unfold ensure_frame_timeout. destruct (frame_timeout st); [by apply wp_ret, HQ|].
  apply wp_bind, wp_effective_frame_timeout. intros [[timeout limited]|e]; [|by apply wp_ret, HQ].
  apply wp_bind, wp_act. intros timer. by apply wp_ret, HQ.
Qed.

Lemma wp_poll_frame_timeout timer st t (Q : poll (option (result (list Z) Error.t)) * Strm -> tally -> Prop) :
  (forall e st', shared st' = shared st -> read_buffer st' = read_buffer st -> Q (PollReady (Some (Err e)), st') t) ->
  Q (PollPending, st) t -> wp (poll_frame_timeout timer st) t Q.
Proof.
  intros Herr Hp. apply wp_bind, wp_act. intros fired. apply wp_if; intros _; [|by apply wp_ret].
  apply wp_bind, wp_instant_now. intros now. by apply wp_ret, Herr.
Qed.

(** A poll hands over a chunk, and reads nothing that it does not hand over. *)
Definition poll_post (st : Strm) (t : tally) (p : poll (option (result (list Z) Error.t)) * Strm) (t' : tally) : Prop :=
  moved st p.2 /\ read_buffer p.2 = read_buffer st /\
  match p.1 with
  | PollReady (Some (Ok chunk)) => chunk <> [] /\ t' = got chunk t
  | _ => t' = t
  end.

Lemma wp_poll_next_chunk frames st t : wp (poll_next_chunk frames st) t (poll_post st t).
Proof.
  revert st. induction frames as [|frames IH]; intros st; [by intros s a s' _|]. simpl.
  destruct (stream_body (shared st)) as [inner|]; [|by apply wp_ret].
  apply wp_bind, wp_ensure_within_deadline. intros [u|e]; [|by apply wp_ret].
  apply wp_bind, wp_act. intros [frame inner'].
  set (st1 := set_shared _ st). assert (moved st st1) as Hm by by split.
  assert (foldr (note c0 a0 p0) t [ChunkRead []] = t) as Hnil by (apply tally_eq; simpl; rewrite ?app_nil_r; done || lia).
  assert (forall t1, t1 = t -> wp (poll_next_chunk frames (set_timer None false st1)) t1 (poll_post st t)) as Hskip.
  { intros ? ->. eapply wp_mono; [apply IH|]. intros p t' (Hm' & Hb & Hp). split; [|split; [done|done]].
    by eapply moved_trans. }
  destruct frame as [[[[[|b data]|]|source]|]|]; simpl.
  - by apply Hskip.
  - apply wp_ret. split; [done|]. split; [done|]. split; [done|].
    apply tally_eq; simpl; rewrite ?app_nil_r; done || lia.
  - by apply Hskip.
  - by apply wp_ret.
  - by apply wp_ret.
  - apply wp_bind, wp_ensure_frame_timeout. intros r st2 Hs Hb.
    assert (moved st st2) as Hm2 by (unfold moved; by rewrite Hs).
    destruct r as [u'|e], (frame_timeout st2) as [timer|]; try by apply wp_ret.
    apply wp_poll_frame_timeout; [|done]. intros e st3 Hs3 Hb3. unfold poll_post, moved in *. simpl.
    rewrite Hs3, Hb3, Hb. by split.
Qed.

(** What a chunk adds. *)
Definition chunk_bytes (r : polled (result (option (list Z)) Error.t)) : list Z :=
  match r with Ready (Ok (Some chunk)) => chunk | _ => [] end.

Lemma wp_next_chunk polls frames st t :
  wp (next_chunk polls frames st) t (fun rs t' => moved st rs.2 /\ read_buffer rs.2 = read_buffer st /\
    t' = got (chunk_bytes rs.1) t).
Proof.
  revert st. induction polls as [|polls IH]; intros st; [by intros s a s' _|]. simpl. apply wp_bind.
  eapply wp_mono; [apply wp_poll_next_chunk|]. intros [p st1] t1 (Hm & Hb & Hp). simpl in *.
  destruct p as [[[chunk|e]|]|].
  - destruct Hp as [_ ->]. by apply wp_ret.
  - subst t1. apply wp_ret. simpl. by rewrite got_nil.
  - subst t1. apply wp_ret. simpl. by rewrite got_nil.
  - subst t1. apply wp_bind, wp_act. intros [u|]; [|apply wp_ret; simpl; by rewrite got_nil].
    eapply wp_mono; [apply IH|]. intros [r st2] t2 (Hm2 & Hb2 & Ht). simpl in *. split; [by eapply moved_trans|].
    by rewrite Hb2.
Qed.

(** ** Operations that consume the stream *)

(** How the metrics record an operation on a stream. *)
Definition stream_outcome {T} (r : polled (result T Error.t)) : Metrics.outcome :=
  match r with
  | Ready (Ok _) => Metrics.Succeeded 0
  | Ready (Err e) => Metrics.Failed e
  | Dropped => Metrics.Canceled
  end.

(** An operation that read [l1] and wrote [l2]: it has settled the stream, or was
    dropped and leaves it open. *)
Definition leaves {T} (st0 : Strm) (t : tally) (R : polled (result T Error.t) -> list Z -> list Z -> Prop)
    (rs : polled (result T Error.t) * Strm) (t' : tally) : Prop :=
  exists l1 l2, R rs.1 l1 l2 /\
    match rs.1 with
    | Ready _ => over rs.2 /\ exists now, t' = closed (stream_outcome rs.1) now (shared st0) (put l2 (got l1 t))
    | Dropped => moved st0 rs.2 /\ t' = put l2 (got l1 t)
    end.

Definition consumed_as {T} (st0 : Strm) (t : tally) (R : polled (result T Error.t) -> list Z -> list Z -> Prop)
    (r : polled (result T Error.t)) (t' : tally) : Prop :=
  exists now l1 l2, R r l1 l2 /\ t' = closed (stream_outcome r) now (shared st0) (put l2 (got l1 t)).

Lemma wp_consuming {T} (m : Prog (polled (result T Error.t) * Strm)) st0 t R :
  still_open st0 -> wp m t (leaves st0 t R) -> wp (consuming m) t (consumed_as st0 t R).
Proof.
  intros Ho Hm. apply wp_bind. eapply wp_mono; [exact Hm|]. intros [[r|] st] t' (l1 & l2 & HR & Hend); simpl in *.
  - destruct Hend as ([Hs _] & now & ->). apply wp_bind, wp_drop_spent; [done|]. apply wp_ret. by exists now, l1, l2.
  - destruct Hend as [Hm' ->]. apply wp_bind, wp_drop_open; [exact (moved_open _ _ Hm' Ho)|]. intros now. apply wp_ret.
    exists now, l1, l2. split; [done|]. by rewrite (closed_advanced _ _ _ _ _ _ _ _ Hm').
Qed.

Lemma wp_complete_with {T} c (r : T) st st0 t (Q : T * Strm -> tally -> Prop) :
  still_open st0 -> moved st0 st ->
  (forall st' now, over st' -> Q (r, st') (closed (StreamLifecycle.outcome_of c) now (shared st0) t)) ->
  wp (st' ← complete c st; mret (r, st')) t Q.
Proof.
  intros Ho Hm HQ. apply wp_bind, (wp_complete_stream _ _ st0); [done|done|]. intros now st' Hs. by apply wp_ret, HQ.
Qed.

(** ** Copying *)
Lemma wp_take_pending_chunk st t (Q : result (option (list Z)) Error.t * Strm -> tally -> Prop) :
  (read_buffer st = [] -> Q (Ok None, st) t) ->
  (forall e, Q (Err e, st) t) ->
  (read_buffer st <> [] -> Q (Ok (Some (read_buffer st)), set_buffer [] st) t) ->
  wp (take_pending_chunk st) t Q.
Proof.
  intros Hnone Herr Hsome. unfold take_pending_chunk. destruct (read_buffer st) as [|b buffer]; [by apply wp_ret, Hnone|].
  apply wp_bind, wp_ensure_within_deadline. intros [u|e]; apply wp_ret; [by apply Hsome|apply Herr].
Qed.

Lemma note_written written t : note c0 a0 p0 (ChunkWritten written) t = put written t.
Proof. apply tally_eq; simpl; rewrite ?app_nil_r; done || lia. Qed.

Lemma wp_async_write op written st st0 t (Q : polled (result unit Error.t) * Strm -> tally -> Prop) :
  still_open st0 -> moved st0 st -> Q (Ready (Ok tt), st) (put written t) -> Q (Dropped, st) t ->
  (forall e st' now l, over st' -> l `prefix_of` written ->
     Q (Ready (Err e), st') (closed (Metrics.Failed e) now (shared st0) (put l t))) ->
  wp (write_with_deadline op written st) t Q.
Proof.
  intros Ho Hm Hok Hdrop Herr.
  assert (forall e, wp (st' ← complete_error e st; mret (Ready (Err e), st')) t Q) as Hfail.
  { intros e. apply (wp_complete_with _ _ _ st0); [done|done|]. intros st' now Hs.
    rewrite <- (put_nil t). apply Herr; [done|apply prefix_nil]. }
  assert (wp (r ← ensure_within_deadline st; mret (Ready r)) (put written t) (fun r t' => wp
    match r with Ready (Err error) => st' ← complete_error error st; mret (Ready (Err error), st') | other => mret (other, st) end
    t' Q)) as Hwritten.
  { apply wp_bind, wp_ensure_within_deadline. intros [[]|e]; apply wp_ret; [by apply wp_ret|].
    apply (wp_complete_with _ _ _ st0); [done|done|]. intros st' now Hs. by apply Herr. }
  apply wp_bind, wp_ensure_within_deadline. intros [u|e]; [|by apply wp_bind, wp_ret, Hfail].
  apply wp_bind, wp_bind. destruct (BlockingStream.deadline_at (shared st)).
  - apply wp_and_then, wp_await; [|by apply wp_ret, wp_ret].
    intros [[r|source]|]; apply wp_ready; [|by apply wp_ret, Hfail..]. simpl. rewrite note_written. exact Hwritten.
  - apply wp_and_then, wp_await; [|by apply wp_ret, wp_ret].
    intros [r|source]; apply wp_ready; [|by apply wp_ret, Hfail]. simpl. rewrite note_written. exact Hwritten.
Qed.

(** The number of bytes copied is exact below the saturation, and within the limit. *)
Definition counted (limit : option Z) (copied n : Z) (l : list Z) : Prop :=
  (copied + Z.of_nat (length l) <= u64_max -> n = copied + Z.of_nat (length l)) /\
  (within limit copied -> within limit n).

Lemma counted_trans limit copied n m l1 l2 :
  0 <= copied -> counted limit copied n l1 -> counted limit n m l2 -> counted limit copied m (l1 ++ l2).
Proof.
  intros Hpos [H1' H2'] [H3' H4']. split; [|by eauto]. rewrite length_app. intros Hle. rewrite H3'; rewrite H1'; lia.
Qed.

Lemma wp_copy_chunk writer limit copied chunk st st0 t (Q : polled (result Z Error.t) * Strm -> tally -> Prop) :
  still_open st0 -> moved st0 st -> 0 <= copied ->
  (forall n, 0 <= n -> counted limit copied n chunk -> Q (Ready (Ok n), st) (put chunk t)) ->
  Q (Dropped, st) t ->
  (forall e st' now l, over st' -> l `prefix_of` chunk ->
     Q (Ready (Err e), st') (closed (Metrics.Failed e) now (shared st0) (put l t))) ->
  wp (copy_chunk writer limit copied chunk st) t Q.
Proof.
  intros Ho Hm Hpos Hok Hdrop Herr. apply wp_if; intros Hover.
  - apply (wp_complete_with _ _ _ st0); [done|done|]. intros st' now Hs. rewrite <- (put_nil t). apply Herr; [done|apply prefix_nil].
  - apply wp_bind, (wp_async_write _ _ _ st0); [done|done| | |].
    + apply wp_ret, Hok; [unfold sat_add, u64_max; lia|]. split; [unfold sat_add; lia|].
      intros _. destruct limit as [max|]; [|done]. simpl in *. zbool. lia.
    + by apply wp_ret.
    + intros e st' now l Hs Hpre. apply wp_ret. by apply Herr.
Qed.

Lemma wp_async_copy_loop chunks polls frames writer limit copied st t
    (Q : polled (result Z Error.t) * Strm -> tally -> Prop) :
  still_open st -> 0 <= copied ->
  (forall l st' n, moved st st' -> counted limit copied n l -> Q (Ready (Ok n), st') (put l (got l t))) ->
  (forall e st' now l1 l2, over st' -> l2 `prefix_of` l1 ->
     Q (Ready (Err e), st') (closed (Metrics.Failed e) now (shared st) (put l2 (got l1 t)))) ->
  (forall st' l1 l2, moved st st' -> l2 `prefix_of` l1 -> Q (Dropped, st') (put l2 (got l1 t))) ->
  wp (copy_loop chunks polls frames writer limit copied st) t Q.
Proof.
  revert copied st t. induction chunks as [|chunks IH]; intros copied st t Ho Hpos Hok Herr Hdrop; [by intros s a s' _|].
  simpl. apply wp_bind. eapply wp_mono; [apply wp_next_chunk|]. intros [r st1] t1 (Hm & _ & ->). simpl in Hm.
  destruct r as [[[chunk|]|e]|]; simpl.
  - apply wp_bind, (wp_copy_chunk _ _ _ _ _ st); [done|done|done| | |].
    + intros n Hn Hcount. apply IH; [by eapply moved_open|done| | |].
      * intros l st2 m Hm2 Hm'. rewrite got_put, put_app, got_app. apply Hok; [by eapply moved_trans|].
        by eapply counted_trans.
      * intros e st2 now l1 l2 Hs Hpre. rewrite got_put, put_app, got_app, (closed_advanced _ _ _ _ _ _ _ _ Hm).
        apply Herr; [done|]. by apply prefix_app.
      * intros st2 l1 l2 Hm2 Hpre. rewrite got_put, put_app, got_app. apply Hdrop; [by eapply moved_trans|]. by apply prefix_app.
    + apply wp_ret. rewrite <- (put_nil (got chunk t)). apply Hdrop; [done|apply prefix_nil].
    + intros e st2 now l Hs Hpre. apply wp_ret. by apply Herr.
  - apply wp_ret. rewrite <- (put_nil (got [] t)). apply Hok; [done|]. split; [simpl; lia|done].
  - apply (wp_complete_with _ _ _ st); [done|done|]. intros st' now Hs. rewrite <- (put_nil (got [] t)).
    apply Herr; [done|apply prefix_nil].
  - apply wp_ret. rewrite <- (put_nil (got [] t)). apply Hdrop; [done|apply prefix_nil].
Qed.

(** What a copy does: a success wrote what was buffered and what was read. *)
Definition copy_result (limit : option Z) (buffer : list Z) (r : polled (result Z Error.t)) (l1 l2 : list Z) : Prop :=
  match r with
  | Ready (Ok n) => l2 = buffer ++ l1 /\ counted limit 0 n l2
  | _ => l2 `prefix_of` buffer ++ l1
  end.

Lemma leaves_error {T} st0 t (R : polled (result T Error.t) -> list Z -> list Z -> Prop) e st now l1 l2 :
  over st -> R (Ready (Err e)) l1 l2 ->
  leaves st0 t R (Ready (Err e), st) (closed (Metrics.Failed e) now (shared st0) (put l2 (got l1 t))).
Proof. intros Hs HR. exists l1, l2. split; [done|]. split; [done|]. by exists now. Qed.

Lemma leaves_error_now {T} st0 t (R : polled (result T Error.t) -> list Z -> list Z -> Prop) e st now l :
  over st -> R (Ready (Err e)) [] l ->
  leaves st0 t R (Ready (Err e), st) (closed (Metrics.Failed e) now (shared st0) (put l t)).
Proof. intros Hs HR. rewrite <- (got_nil t) at 2. by apply leaves_error. Qed.

(** The copy once what was buffered has been written. *)
Lemma wp_copy_rest chunks polls frames writer limit buffer n st st0 t :
  still_open st0 -> moved st0 st -> 0 <= n -> counted limit 0 n buffer ->
  wp ('(r, st) ← copy_loop chunks polls frames writer limit n st;
      match r with
      | Ready (Ok copied) =>
        '(w, st) ← write_with_deadline (async_flush writer) [] st;
        match w with
        | Ready (Ok _) => st ← complete_success st; mret (Ready (Ok copied), st)
        | Ready (Err error) => mret (Ready (Err error), st)
        | Dropped => mret (Dropped, st)
        end
      | other => mret (other, st)
      end) (put buffer t) (leaves st0 t (copy_result limit buffer)).
Proof.
  intros Ho Hm Hn Hcount. apply wp_bind, wp_async_copy_loop; [by eapply moved_open|done| | |].
  - intros l st1 m Hm1 Hm1'. rewrite got_put, put_app.
    assert (moved st0 st1) as Hm2 by by eapply moved_trans.
    apply wp_bind, (wp_async_write _ _ _ st0); [done|done| | |].
    + rewrite put_nil. apply (wp_complete_with _ _ _ st0); [done|done|]. intros st2 now Hs.
      exists l, (buffer ++ l). split; [split; [done|by eapply counted_trans]|]. split; [done|]. by exists now.
    + apply wp_ret. exists l, (buffer ++ l). split; [simpl; reflexivity|done].
    + intros e st2 now l' Hs ->%prefix_nil_inv. rewrite put_nil. apply wp_ret, leaves_error; [done|simpl; reflexivity].
  - intros e st1 now l1 l2 Hs Hpre. rewrite got_put, put_app, (closed_advanced _ _ _ _ _ _ _ _ Hm).
    apply wp_ret, leaves_error; [done|]. by apply prefix_app.
  - intros st1 l1 l2 Hm1 Hpre. rewrite got_put, put_app. apply wp_ret. exists l1, (buffer ++ l2).
    split; [by apply prefix_app|]. split; [by eapply moved_trans|done].
Qed.

Lemma wp_copy_body chunks polls frames writer limit st t :
  still_open st ->
  wp (copy_body chunks polls frames writer limit st) t (leaves st t (copy_result limit (read_buffer st))).
Proof.
  intros Ho. apply wp_bind, wp_bind, wp_take_pending_chunk.
  - intros Hb. apply wp_ret, wp_bind, wp_ret. rewrite Hb, <- (put_nil t) at 1. apply wp_copy_rest; [done|done|done|].
    split; [simpl; lia|done].
  - intros e. apply (wp_complete_with _ _ _ st); [done|done|]. intros st' now Hs. apply wp_ret.
    rewrite <- (put_nil t) at 2. apply leaves_error_now; [done|apply prefix_nil].
  - intros _. apply wp_ret, wp_bind, (wp_copy_chunk _ _ _ _ _ st); [done|done|done| | |].
    + intros n Hn Hcount. by apply wp_copy_rest.
    + apply wp_bind, wp_ret, wp_ret. exists [], []. split; [apply prefix_nil|]. split; [done|]. by rewrite put_nil, got_nil.
    + intros e st' now l Hs Hpre. apply wp_bind, wp_ret, wp_ret, leaves_error_now; [done|].
      simpl. by rewrite app_nil_r.
Qed.

(** ** Buffering *)
Lemma wp_async_collect_loop chunks polls frames max_bytes collected st t
    (Q : polled (result (list Z) Error.t) * Strm -> tally -> Prop) :
  (forall l st', moved st st' ->
     (max_bytes < usize_max -> Z.of_nat (length collected) <= max_bytes -> Z.of_nat (length (collected ++ l)) <= max_bytes) ->
     Q (Ready (Ok (collected ++ l)), st') (got l t)) ->
  (forall r st' l, moved st st' -> r = Dropped \/ (exists e, r = Ready (Err e)) -> Q (r, st') (got l t)) ->
  wp (collect_loop chunks polls frames max_bytes collected st) t Q.
Proof.
  revert collected st t. induction chunks as [|chunks IH]; intros collected st t Hok Hend; [by intros s a s' _|].
  simpl. apply wp_bind. eapply wp_mono; [apply wp_next_chunk|]. intros [r st1] t1 (Hm & _ & ->). simpl in Hm.
  destruct r as [[[chunk|]|e]|]; simpl; [|apply wp_ret..].
  - unfold collect_chunk. destruct (max_bytes <? _) eqn:Hlim; [apply wp_ret, Hend; [done|eauto]|].
    apply IH.
    + intros l st2 Hm2 Hlen. rewrite got_app, <- app_assoc. apply Hok; [by eapply moved_trans|].
      intros Hmax _. rewrite app_assoc. apply Hlen; [done|]. unfold sat_add in Hlim. rewrite length_app. zbool. lia.
    + intros r st2 l Hm2 Hr. rewrite got_app. apply Hend; [by eapply moved_trans|done].
  - rewrite <- (app_nil_r collected) at 1. apply Hok; [done|]. by rewrite app_nil_r.
  - apply Hend; [done|eauto].
  - apply Hend; [done|eauto].
Qed.

Lemma wp_read_raw_bytes chunks polls frames max_bytes st t (Q : polled (result (list Z) Error.t) * Strm -> tally -> Prop) :
  (forall l st', moved st st' ->
     (0 <= max_bytes < usize_max -> Z.of_nat (length (read_buffer st ++ l)) <= max_bytes) ->
     Q (Ready (Ok (read_buffer st ++ l)), st') (got l t)) ->
  (forall r st' l, moved st st' -> r = Dropped \/ (exists e, r = Ready (Err e)) -> Q (r, st') (got l t)) ->
  wp (read_raw_bytes_limited chunks polls frames max_bytes st) t Q.
Proof.
  intros Hok Hend. assert (forall r st', moved st st' -> r = Dropped \/ (exists e, r = Ready (Err e)) -> Q (r, st') t) as Hend0.
  { intros r st' Hm Hr. rewrite <- (got_nil t). by apply Hend. }
  apply wp_bind, wp_take_pending_chunk.
  - intros Hb. rewrite Hb in Hok. apply wp_async_collect_loop; [|exact Hend].
    intros l st' Hm Hlen. apply Hok; [done|]. intros Hmax. apply Hlen; simpl; lia.
  - intros e. apply wp_ret, Hend0; [done|eauto].
  - intros _. unfold collect_chunk. destruct (max_bytes <? _) eqn:Hlim; [apply wp_ret, Hend0; [done|eauto]|].
    rewrite app_nil_l. apply wp_async_collect_loop; [|exact Hend]. intros l st' Hm Hlen. apply Hok; [done|].
    intros Hmax. unfold sat_add in Hlim. simpl in Hlim. zbool. apply Hlen; lia.
Qed.

(** The failures of a read settle the stream, unless it was dropped. *)
Lemma wp_settle_failure {T} (R : polled (result T Error.t) -> list Z -> list Z -> Prop) (r : polled (result (list Z) Error.t))
    (k : list Z -> Prog (polled (result T Error.t) * Strm)) st st0 t l :
  still_open st0 -> moved st0 st -> r = Dropped \/ (exists e, r = Ready (Err e)) ->
  R Dropped l [] -> (forall e, R (Ready (Err e)) l []) ->
  wp match r with
     | Dropped => mret (Dropped, st)
     | Ready (Err error) => st ← complete_error error st; mret (Ready (Err error), st)
     | Ready (Ok body) => k body
     end (got l t) (leaves st0 t R).
Proof.
  intros Ho Hm [->|[e ->]] Hd He.
  - apply wp_ret. exists l, []. split; [done|]. by rewrite put_nil.
  - apply (wp_complete_with _ _ _ st0); [done|done|]. intros st' now Hs. rewrite <- (put_nil (got l t)). by apply leaves_error.
Qed.

Definition bytes_result (max_bytes : Z) (buffer : list Z) (r : polled (result (list Z) Error.t)) (l1 l2 : list Z) : Prop :=
  l2 = [] /\
  match r with
  | Ready (Ok bytes) => bytes = buffer ++ l1 /\ (0 <= max_bytes < usize_max -> Z.of_nat (length bytes) <= max_bytes)
  | _ => True
  end.

Lemma wp_async_into_bytes chunks polls frames max_bytes st t :
  still_open st ->
  wp (into_bytes_limited chunks polls frames max_bytes st) t (consumed_as st t (bytes_result max_bytes (read_buffer st))).
Proof.
  intros Ho. apply wp_consuming; [done|]. apply wp_bind, wp_read_raw_bytes.
  - intros l st' Hm Hlen. apply (wp_complete_with _ _ _ st); [done|done|]. intros st2 now Hs.
    exists l, []. rewrite put_nil. split; [done|]. split; [done|]. by exists now.
  - intros r st' l Hm Hr.
    pose proof (wp_settle_failure (bytes_result max_bytes (read_buffer st)) r
      (fun body => st' ← complete_success st'; mret (Ready (Ok body), st')) st' st t l Ho Hm Hr) as Hw.
    destruct Hr as [->|[e ->]]; by apply Hw.
Qed.

(** A buffered response is what the wire bytes decode to. *)
Definition response_result (f : Features) (max_bytes : Z) (st : Strm) (r : polled (result Response Error.t)) (l1 l2 : list Z)
    : Prop :=
  l2 = [] /\
  match r with
  | Ready (Ok response) =>
    let wire := read_buffer st ++ l1 in
    if should_decode_content_encoded_body (stream_method (shared st)) (stream_status (shared st)) (Z.of_nat (length wire))
    then decode_content_encoded_body_limited f wire (stream_headers (shared st)) max_bytes = Ok (body response)
    else body response = wire
  | _ => True
  end.

Lemma wp_decode_body f max_bytes wire st t (Q : result Response Error.t -> tally -> Prop) :
  (forall e, Q (Err e) t) ->
  (forall response,
     (if should_decode_content_encoded_body (stream_method (shared st)) (stream_status (shared st)) (Z.of_nat (length wire))
      then decode_content_encoded_body_limited f wire (stream_headers (shared st)) max_bytes = Ok (body response)
      else body response = wire) -> Q (Ok response) t) ->
  wp (decode_body f max_bytes wire st) t Q.
Proof.
  intros Herr Hok. apply wp_bind, wp_ensure_within_deadline. intros [u|e]; [|by apply wp_ret].
  cbv zeta. destruct (if should_decode_content_encoded_body _ _ _ then decode_content_encoded_body_limited _ _ _ _ else _)
    as [decoded|e] eqn:Hdec; [|by apply wp_ret].
  apply wp_bind, wp_ensure_within_deadline. intros [u'|e]; apply wp_ret; [|apply Herr]. apply Hok. simpl.
  destruct (should_decode_content_encoded_body _ _ _); [done|congruence].
Qed.

Lemma wp_async_into_response f chunks polls frames max_bytes st t :
  still_open st ->
  wp (into_response_limited f chunks polls frames max_bytes st) t (consumed_as st t (response_result f max_bytes st)).
Proof.
  intros Ho. apply wp_consuming; [done|]. apply wp_bind, wp_read_raw_bytes.
  2: { intros r st' l Hm Hr. by apply wp_settle_failure. }
  intros l st' Hm _. apply wp_bind, wp_decode_body.
  - intros e. apply (wp_complete_with _ _ _ st); [done|done|]. intros st2 now Hs. rewrite <- (put_nil (got l t)).
    by apply leaves_error.
  - intros response Hr. apply (wp_complete_with _ _ _ st); [done|done|]. intros st2 now Hs. exists l, []. rewrite put_nil.
    split; [|split; [done|by exists now]]. split; [done|].
    by rewrite (adv_method _ _ Hm), (adv_status _ _ Hm), (adv_headers _ _ Hm) in Hr.
Qed.

(** ** Reading through [AsyncRead] *)

(** One poll of an open stream. *)
Definition read_post (remaining : Z) (st : Strm) (t : tally) (ps : poll (result (list Z) StreamIoError) * Strm) (t' : tally)
    : Prop :=
  exists l,
  match ps.1 with
  | PollPending => moved st ps.2 /\ t' = got l t /\ read_buffer ps.2 = read_buffer st ++ l
  | PollReady (Ok bytes) =>
    Z.of_nat (length bytes) <= remaining /\ bytes ++ read_buffer ps.2 = read_buffer st ++ l /\
    (moved st ps.2 /\ t' = got l t \/ over ps.2 /\ exists now, t' = closed (Metrics.Succeeded 0) now (shared st) (got l t))
  | PollReady (Err e) => over ps.2 /\ exists now, t' = closed (Metrics.Failed (io_inner e)) now (shared st) (got l t)
  end.

(** What is buffered is served, up to the room there is. *)
Lemma wp_read_buffered turns frames remaining st st0 t l :
  still_open st0 -> moved st0 st -> 0 <= remaining -> read_buffer st <> [] -> read_buffer st = read_buffer st0 ++ l ->
  wp (read_turns (S turns) frames remaining st) (got l t) (read_post remaining st0 t).
Proof.
  intros Ho Hm Hrem Hne Hb. simpl. destruct (read_buffer st) as [|b buffer] eqn:Hbuf; [done|].
  apply wp_bind, wp_ensure_within_deadline. intros [u|e].
  - apply wp_ret. set (n := Z.to_nat _). exists l. unfold read_post. simpl. split_and!.
    + rewrite length_firstn. lia.
    + by rewrite take_drop, Hb.
    + by left.
  - apply (wp_complete_with _ _ _ st0); [done|done|]. intros st' now Hs. exists l. split; [done|]. by exists now.
Qed.

Lemma read_turns_fetch turns frames remaining st :
  read_buffer st = [] ->
  read_turns (S turns) frames remaining st =
    ('(p, st) ← poll_next_chunk frames st;
     match p with
     | PollReady (Some (Ok chunk)) => read_turns turns frames remaining (set_buffer chunk st)
     | PollReady (Some (Err error)) =>
       st ← complete_error error st;
       mret (PollReady (Err (into_stream_read_io_error (async_stream_error_kind as_hyper) error)), st)
     | PollReady None => st ← complete_success st; mret (PollReady (Ok []), st)
     | PollPending => mret (PollPending, st)
     end).
Proof. intros Hb. simpl. by rewrite Hb. Qed.

Lemma wp_poll_read frames remaining st t :
  still_open st -> 0 <= remaining -> wp (poll_read frames remaining st) t (read_post remaining st t).
Proof.
  intros Ho Hrem. apply wp_if; intros _.
  { apply wp_ret. exists []. rewrite app_nil_r, got_nil. simpl. split_and!; [lia|done|by left]. }
  destruct (read_buffer st) as [|b buffer] eqn:Hb.
  2: { rewrite <- (got_nil t) at 1. apply wp_read_buffered; [done|done|done|by rewrite Hb|by rewrite app_nil_r]. }
  rewrite read_turns_fetch by done. apply wp_bind. eapply wp_mono; [apply wp_poll_next_chunk|].
  intros [p st1] t1 (Hm & Hb1 & Hp). cbn [fst snd] in *. destruct p as [[[chunk|e]|]|].
  - destruct Hp as [Hne ->]. apply wp_read_buffered; [done|done|done|done|]. simpl. by rewrite Hb.
  - subst t1. apply (wp_complete_with _ _ _ st); [done|done|]. intros st2 now Hs. exists []. rewrite got_nil.
    split; [done|]. by exists now.
  - subst t1. apply (wp_complete_with _ _ _ st); [done|done|]. intros st2 now [Hs Hb2]. exists []. rewrite got_nil. simpl.
    rewrite Hb2, Hb. split_and!; [done|done|]. right. split; [done|]. by exists now.
  - subst t1. apply wp_ret. exists []. rewrite got_nil. simpl. by rewrite Hb1, Hb.
Qed.

(** A completed stream is at its end. *)
Lemma wp_poll_read_over frames remaining st t (Q : poll (result (list Z) StreamIoError) * Strm -> tally -> Prop) :
  over st -> (forall st', over st' -> Q (PollReady (Ok []), st') t) -> wp (poll_read frames remaining st) t Q.
Proof.
  intros Hs HQ. apply wp_if; intros _; [by apply wp_ret, HQ|]. rewrite read_turns_fetch by apply Hs. apply wp_bind. destruct frames as [|frames]; [by intros s a s' _|]. simpl. rewrite (spent_body _ (proj1 Hs)). apply wp_ret.
  apply wp_bind, wp_complete_over; [done|]. intros st' Hs'. by apply wp_ret, HQ.
Qed.

(** A reader polls with room for as many bytes as it likes. *)
Fixpoint poll_reads (sizes : list Z) (frames : nat) (st : Strm) : Prog (list (poll (result (list Z) StreamIoError)) * Strm) :=
  match sizes with
  | [] => mret ([], st)
  | size :: sizes =>
    '(p, st) ← poll_read frames size st;
    '(ps, st) ← poll_reads sizes frames st;
    mret (p :: ps, st)
  end.

Definition delivered_bytes (ps : list (poll (result (list Z) StreamIoError))) : list Z :=
  concat (omap (fun p => match p with PollReady (Ok bytes) => Some bytes | _ => None end) ps).

Lemma delivered_bytes_cons p ps :
  delivered_bytes (p :: ps) = match p with PollReady (Ok bytes) => bytes | _ => [] end ++ delivered_bytes ps.
Proof. by destruct p as [[]|]. Qed.

Definition read_failed (p : poll (result (list Z) StreamIoError)) : bool :=
  match p with PollReady (Err _) => true | _ => false end.

(** All polls so far: what was delivered comes from the buffer and the transport. *)
Definition reads_post (st : Strm) (t : tally) (ps : list (poll (result (list Z) StreamIoError)) * Strm) (t' : tally) : Prop :=
  exists l,
  delivered_bytes ps.1 `prefix_of` read_buffer st ++ l /\
  (existsb read_failed ps.1 = false -> delivered_bytes ps.1 ++ read_buffer ps.2 = read_buffer st ++ l) /\
  (moved st ps.2 /\ t' = got l t \/
   over ps.2 /\ exists o now, t' = closed o now (shared st) (got l t)).

Lemma wp_poll_reads_over sizes frames st t (Q : list (poll (result (list Z) StreamIoError)) * Strm -> tally -> Prop) :
  over st -> (forall ps st', over st' -> delivered_bytes ps = [] -> existsb read_failed ps = false -> Q (ps, st') t) ->
  wp (poll_reads sizes frames st) t Q.
Proof.
  revert st Q. induction sizes as [|size sizes IH]; intros st Q Hs HQ; [by apply wp_ret, HQ|]. simpl.
  apply wp_bind, wp_poll_read_over; [done|]. intros st1 Hs1. apply wp_bind, IH; [done|]. intros ps st2 Hs2 Hd Hf.
  by apply wp_ret, HQ.
Qed.

Lemma wp_poll_reads sizes frames st t :
  still_open st -> Forall (Z.le 0) sizes -> wp (poll_reads sizes frames st) t (reads_post st t).
Proof.
  intros Ho Hsizes. revert st t Ho. induction Hsizes as [|size sizes Hsize _ IH]; intros st t Ho.
  { apply wp_ret. exists []. rewrite app_nil_r, got_nil. split_and!; [apply prefix_nil|done|by left]. }
  simpl. apply wp_bind. eapply wp_mono; [by apply wp_poll_read|]. intros [p st1] t1 (l & Hp).
  assert (forall q, moved st st1 -> t1 = got l t -> read_failed q = false ->
    match q with PollReady (Ok bytes) => bytes | _ => [] end ++ read_buffer st1 = read_buffer st ++ l ->
    wp ('(ps, st2) ← poll_reads sizes frames st1; mret (q :: ps, st2)) t1 (reads_post st t)) as Hgo.
  { intros q Hm -> Hq Hb. apply wp_bind. eapply wp_mono; [apply IH; by eapply moved_open|].
    intros [ps st2] t2 (l2 & Hpre & Heq & Hend). apply wp_ret. exists (l ++ l2). simpl in *.
    rewrite delivered_bytes_cons, Hq, app_assoc, <- Hb, <- !app_assoc. split_and!.
    - by apply prefix_app.
    - intros Hf. f_equal. by apply Heq.
    - rewrite <- got_app. destruct Hend as [[Hm2 ->]|(Hs & o & now & ->)]; [left|right].
      + split; [by eapply moved_trans|done].
      + split; [done|]. exists o, now. by rewrite (closed_advanced _ _ _ _ _ _ _ _ Hm). }
  simpl in Hp. destruct p as [[bytes|e]|].
  - destruct Hp as (_ & Hb & [[Hm ->]|(Hs & now & ->)]).
    + by apply (Hgo (PollReady (Ok bytes))).
    + apply wp_bind, wp_poll_reads_over; [done|]. intros ps st2 Hs2 Hd Hf. apply wp_ret. exists l.
      destruct Hs as [_ Hb1]. destruct Hs2 as [Hs2 Hb2].
      cbn [fst snd] in *. rewrite Hb1, app_nil_r in Hb. rewrite delivered_bytes_cons, Hd, Hb2, !app_nil_r, Hb. split_and!; [done|done|right].
      split; [done|]. by exists (Metrics.Succeeded 0), now.
  - destruct Hp as (Hs & now & ->). apply wp_bind, wp_poll_reads_over; [done|]. intros ps st2 Hs2 Hd Hf. apply wp_ret.
    exists l. cbn [fst snd]. rewrite delivered_bytes_cons, Hd. split_and!; [apply prefix_nil|done|right].
    split; [done|]. by exists (Metrics.Failed (io_inner e)), now.
  - destruct Hp as (Hm & -> & Hb). by apply (Hgo PollPending).
Qed.

(** ** Everything a caller may do with a stream *)
Inductive async_use :=
| AsyncCopyTo (writer : AsyncWriter E)
| AsyncCopyToLimited (writer : AsyncWriter E) (max_bytes : Z)
| AsyncIntoBytes (max_bytes : Z)
| AsyncIntoResponse (f : Features) (max_bytes : Z)
| PollThenDrop (sizes : list Z).

Definition consume_async (u : async_use) (chunks polls frames : nat) (st : Strm) : Prog unit :=
  match u with
  | AsyncCopyTo writer => _ ← copy_to_writer chunks polls frames writer st; mret tt
  | AsyncCopyToLimited writer max_bytes => _ ← copy_to_writer_limited chunks polls frames writer max_bytes st; mret tt
  | AsyncIntoBytes max_bytes => _ ← into_bytes_limited chunks polls frames max_bytes st; mret tt
  | AsyncIntoResponse f max_bytes => _ ← into_response_limited f chunks polls frames max_bytes st; mret tt
  | PollThenDrop sizes => '(_, st) ← poll_reads sizes frames st; drop st
  end.

Definition sizes_ok (u : async_use) : Prop :=
  match u with PollThenDrop sizes => Forall (Z.le 0) sizes | _ => True end.

Lemma wp_consume_async u chunks polls frames st t :
  still_open st -> sizes_ok u ->
  wp (consume_async u chunks polls frames st) t
    (fun _ t' => exists o now l1 l2, t' = closed o now (shared st) (put l2 (got l1 t))).
Proof.
  intros Ho Hsizes.
  assert (forall {T} (m : Prog (polled (result T Error.t))) R, wp m t (consumed_as st t R) ->
    wp (_ ← m; mret tt) t (fun _ t' => exists o now l1 l2, t' = closed o now (shared st) (put l2 (got l1 t)))) as Hgo.
  { intros T m R Hm. apply wp_bind. eapply wp_mono; [exact Hm|]. intros r t' (now & l1 & l2 & _ & ->). apply wp_ret. eauto. }
  destruct u as [w|w m|m|f m|sizes]; simpl.
  - by eapply Hgo, wp_consuming, wp_copy_body.
  - by eapply Hgo, wp_consuming, wp_copy_body.
  - by eapply Hgo, wp_async_into_bytes.
  - by eapply Hgo, wp_async_into_response.
  - apply wp_bind. eapply wp_mono; [by apply wp_poll_reads|]. intros [ps st1] t1 (l & _ & _ & Hend). simpl in Hend.
    destruct Hend as [[Hm ->]|(Hs & o & now & ->)].
    + apply wp_drop_open; [exact (moved_open _ _ Hm Ho)|]. intros now. exists Metrics.Canceled, now, l, [].
      by rewrite (closed_advanced _ _ _ _ _ _ _ _ Hm), put_nil.
    + apply wp_drop_spent; [apply Hs|]. exists o, now, l, []. by rewrite put_nil.
Qed.

End Facts.

(** ** The guarantees *)
Section Theorems.
Context `{Http} `{UrlCrate} `{HttpDate} `{Codecs} `{!ProxyCrates}.
Context {E C A P Stream Timer Body : Type} `{!Surroundings E C A P} `{!Tokio E A P Stream Body}.
Context `{!HyperBody E Timer Body}.
Context `{!EqDecision C} `{!EqDecision A} `{!EqDecision P}.
Import AsyncStream.
Abbreviation Strm := (AsyncStream.t (C := C) (A := A) (P := P) (Timer := Timer) (Body := Body)).
Implicit Types (st : Strm) (s : state E C A P).

(** C15: Consuming an async stream is faithful: a copy that succeeds gave the writer
    exactly what the stream had buffered followed by the bytes read from the
    transport, in order, within the limit, and returns their number; buffering
    returns those bytes, within the limit; a copy that fails or is dropped gave the
    writer a prefix of them. The metrics record the outcome that is reported, or a
    cancellation when the future is dropped, once. *)
Theorem async_stream_consumed_faithfully chunks polls frames (writer : AsyncWriter E) limit max_bytes st s s' :
  still_open st ->
  (forall r, consuming (copy_body chunks polls frames writer limit st) s = Some (r, s') ->
     exists l1 l2 now,
       bytes_read (log s') = bytes_read (log s) ++ l1 /\ bytes_written (log s') = bytes_written (log s) ++ l2 /\
       metrics s' = stream_metrics (stream_outcome r) now (shared st) (metrics s) /\
       match r with
       | Ready (Ok n) => l2 = read_buffer st ++ l1 /\ (Z.of_nat (length l2) <= u64_max -> n = Z.of_nat (length l2)) /\
                         (within limit 0 -> within limit n)
       | _ => l2 `prefix_of` read_buffer st ++ l1
       end) /\
  (forall r, into_bytes_limited chunks polls frames max_bytes st s = Some (r, s') ->
     exists l1 now,
       bytes_read (log s') = bytes_read (log s) ++ l1 /\
       metrics s' = stream_metrics (stream_outcome r) now (shared st) (metrics s) /\
       match r with
       | Ready (Ok bytes) => bytes = read_buffer st ++ l1 /\
                             (0 <= max_bytes < usize_max -> Z.of_nat (length bytes) <= max_bytes)
       | _ => True
       end).
Proof.
  intros Ho. split; intros r Hs.
  - destruct (wp_consuming None None None _ st _ _ Ho
      (wp_copy_body None None None chunks polls frames writer limit st _ Ho) s r s' eq_refl Hs) as (now & l1 & l2 & HR & Ht).
    apply closed_log in Ht as (HB & HW & HM). exists l1, l2, now. split_and!; [done..|].
    destruct r as [[n|e]|]; [|done|done]. destruct HR as (Hl & Hn & Hlim). split_and!; [done| |done]. intros Hle. rewrite Hn; lia.
  - destruct (wp_async_into_bytes None None None chunks polls frames max_bytes st _ Ho s r s' eq_refl Hs)
      as (now & l1 & l2 & [-> HR] & Ht).
    apply closed_log in Ht as (HB & _ & HM). exists l1, now. split_and!; [done..|]. exact HR.
Qed.

(** C16: Reading a stream by polls, with room for any number of bytes each time,
    delivers what it had buffered followed by the bytes of the transport, in order
    and without loss: what was delivered is a prefix of them, and as long as no poll
    failed the rest of what was read is in the buffer. *)
Theorem async_reads_faithful sizes frames st s ps st' s' :
  still_open st -> Forall (Z.le 0) sizes ->
  poll_reads sizes frames st s = Some ((ps, st'), s') ->
  exists l,
    bytes_read (log s') = bytes_read (log s) ++ l /\
    delivered_bytes ps `prefix_of` read_buffer st ++ l /\
    (existsb read_failed ps = false -> delivered_bytes ps ++ read_buffer st' = read_buffer st ++ l).
Proof.
  intros Ho Hsizes Hs.
  destruct (wp_poll_reads None None None sizes frames st _ Ho Hsizes s (ps, st') s' eq_refl Hs) as (l & Hpre & Heq & Hend).
  exists l. split_and!; [|done|done].
  destruct (tally_bytes None None None s) as [R _]. destruct (tally_bytes None None None s') as [R' _].
  destruct Hend as [[_ Ht]|(_ & o & now & Ht)]; rewrite Ht in R'; simpl in R'; by rewrite <- R', R.
Qed.

(** ** A streamed request and the use of its stream *)
Section Session.
Context (client : Client (E := E)) (fuel rate_fuel chunks polls frames : nat) (method : Method) (path : str).
Context (headers : HeaderMap) (body : option (RequestBody Stream)) (overrides : RequestExecutionOverrides).
Context (u : async_use (E := E)).

Definition async_stream_session : M E C A P unit :=
  r ← Async.send_request_stream client fuel rate_fuel method path headers body overrides;
  match r with Ready (Ok st) => consume_async u chunks polls frames (new st) | _ => mret tt end.

Lemma wp_async_stream_session c0 a0 p0 ps cs t :
  sizes_ok u ->
  wp c0 a0 p0 async_stream_session t (fun _ t' =>
    rtc Metrics.step (ledger (accounts t) ps cs) (ledger (accounts t') ps cs) /\
    circuits t' = circuits t /\ adaptives t' = adaptives t /\ permits t' = permits t).
Proof.
  intros Hsizes. apply wp_bind.
  eapply wp_mono; [apply (wp_async_send_request_stream client fuel rate_fuel _ _ _ _ _ c0 a0 p0 t ps cs)|].
  intros [[st|e]|] t1 [Hl Ho Hc Ha Hp]; simpl in *.
  - destruct Ho as [Ho Hcomp]. eapply wp_mono; [by apply wp_consume_async|]. intros _ t' (o & now & l1 & l2 & ->).
    change (closed c0 a0 p0 o now (shared (new st))) with (closed c0 a0 p0 o now st). simpl. split; [|lia].
    destruct (StreamLifecycle.completion (stream_lifecycle st)) as [c|]; [|done].
    etransitivity; [exact Hl|]. apply (ledger_complete o now c).
  - apply wp_ret. unfold held_circuit, held_adaptive in *. simpl in *. split; [done|lia].
  - apply wp_ret. unfold held_circuit, held_adaptive in *. simpl in *. split; [done|lia].
Qed.

Lemma session_settles s s' c a p ps cs :
  sizes_ok u -> async_stream_session s = Some (tt, s') ->
  rtc Metrics.step (ledger (metrics s) ps cs) (ledger (metrics s') ps cs) /\
  added (circuit_began c) s s' = added (circuit_ended c) s s' /\
  added (adaptive_began a) s s' = added (adaptive_ended a) s s' /\
  added (permit_taken p) s s' = added (permit_dropped p) s s'.
Proof.
  intros Hsizes Hs.
  destruct (wp_async_stream_session (Some c) (Some a) (Some p) ps cs _ Hsizes s tt s' eq_refl Hs) as (Hl & Hc & Ha & Hp).
  rewrite !tally_accounts in Hl. rewrite !tally_circuits in Hc. rewrite !tally_adaptives in Ha.
  rewrite !tally_permits in Hp. unfold added. split; [done|lia].
Qed.

(** C13: Streaming with the async client leaves nothing behind: whatever becomes of
    the request (an error, a stream, a drop at any await) and whatever the caller
    does with its stream (copies it, buffers it, polls it and drops it, or drops the
    future of any of these), in the end every circuit attempt, adaptive permit and
    limiter permit has been given back and the metrics ledger has no entry left. *)
Theorem async_session_settles s s' c a p ps cs :
  sizes_ok u -> async_stream_session s = Some (tt, s') ->
  rtc Metrics.step (ledger (metrics s) ps cs) (ledger (metrics s') ps cs) /\
  added (circuit_began c) s s' = added (circuit_ended c) s s' /\
  added (adaptive_began a) s s' = added (adaptive_ended a) s s' /\
  added (permit_taken p) s s' = added (permit_dropped p) s s'.
Proof. apply session_settles. Qed.

End Session.
End Theorems.
