(* ===== verification/AsyncProxy.v ===== *)
(** * Connections of the async client (async_client/proxy.rs, async_client/dns.rs)

    Where a connection goes: to the origin, through a tunnel of the HTTP proxy, or to
    the proxy itself, which then forwards the request.  The connectors that open it
    (hyper-util) are outside; a call is the connection it asks them for.  The last
    section shows that the proxy's credentials go where the proxy is. *)
From Stdlib Require Import Ascii String.
From S2P Require Import Prelude Float64 Text HttpApi UriText Errors Redaction UriResolve Redirect Proxy Dns.
From S2P Require Import Headers ContentEncoding Timing Responses Retry RetryBudget RateLimit Execution Limiters.
From S2P Require Import Metrics Lifecycle Program Blocking Async AsyncStream.

(** The parts of a [Uri]: another authority, when the text is one and the parts make
    up a URI. *)
Class UriParts `{Http} := { uri_with_authority : Uri -> str -> option Uri }.

Module ProxyConnector.
Section Connector.
Context `{Http} `{UrlCrate} `{!ProxyCrates} `{!UriParts} `{!Dns.HostCrate} {SocketAddr : Type}.
Abbreviation DnsOverrides := (Dns.DnsOverrides (SocketAddr := SocketAddr)).

Record ProxyRuntime := {
  tunnel_authorization : option HeaderValue;
  runtime_proxy_uri : Uri;
  runtime_no_proxy_rules : list NoProxyRule;
}.

Record t := {
  connect_timeout : Duration;
  dns_overrides : DnsOverrides;
  proxy : option ProxyRuntime;
}.

Definition new (proxy_config : option ProxyConfig) (connect_timeout : Duration) (overrides : DnsOverrides) : t :=
  {| connect_timeout := connect_timeout; dns_overrides := overrides;
     proxy := (fun config => {| tunnel_authorization := authorization _ config;
                                runtime_proxy_uri := proxy_uri _ config;
                                runtime_no_proxy_rules := no_proxy_rules _ config |}) <$> proxy_config |}.

Definition should_bypass_proxy (uri : Uri) (r : ProxyRuntime) : bool :=
  should_bypass_proxy_uri (runtime_no_proxy_rules r) uri.

(** A bracketed or plain host with its default port. *)
Definition normalize_tunnel_target_uri (dst : Uri) : Uri :=
  if is_some (uri_port_u16 dst) then dst
  else match uri_scheme_str dst with
  | None => dst
  | Some scheme =>
    let default_port :=
      if eq_ignore_ascii_case scheme (lit "https") then Some "443"%string
      else if eq_ignore_ascii_case scheme (lit "http") then Some "80"%string
      else None in
    match default_port, uri_host dst with
    | Some port, Some host =>
      let authority_text :=
        if existsb (Z.eqb (chr ":"%char)) host && negb (starts_with (lit "[") host)
        then lit "[" ++ host ++ lit "]:" ++ lit port
        else host ++ lit ":" ++ lit port in
      default dst (uri_with_authority dst authority_text)
    | _, _ => dst
    end
  end.

(** What a call connects to: [proxied] marks a connection whose requests the proxy
    forwards. *)
Inductive connecting :=
| Direct (dst : Uri) (proxied : bool)
| Tunnelled (proxy_uri : Uri) (authorization : option HeaderValue) (target : Uri).

Definition call (c : t) (dst : Uri) : connecting :=
  match proxy c with
  | None => Direct dst false
  | Some r =>
    if should_bypass_proxy dst r then Direct dst false
    else if eq_ignore_ascii_case (default [] (uri_scheme_str dst)) (lit "https")
    then Tunnelled (runtime_proxy_uri r) (tunnel_authorization r) (normalize_tunnel_target_uri dst)
    else Direct (runtime_proxy_uri r) true
  end.

(** [Connection::connected]. *)
Definition is_proxied (c : connecting) : bool := match c with Direct _ proxied => proxied | Tunnelled _ _ _ => false end.

(** Both connectors are polled; an error of the first is answered at once. *)
Definition poll_ready {E} (c : t) (direct tunnel : E -> poll (result unit BoxError) * E) (e : E)
    : poll (result unit BoxError) * E :=
  match proxy c with
  | None => direct e
  | Some _ =>
    let '(d, e) := direct e in
    match d with
    | PollReady (Err error) => (PollReady (Err error), e)
    | _ =>
      let '(u, e) := tunnel e in
      match u with
      | PollReady (Err error) => (PollReady (Err error), e)
      | PollReady (Ok _) => (match d with PollReady _ => PollReady (Ok tt) | PollPending => PollPending end, e)
      | PollPending => (PollPending, e)
      end
    end
  end.

(** [OverrideResolver::call]: an override answers at once, without the resolver of the
    system. *)
Definition resolve {E} (c : t) (fallback : str -> aop E (result (list SocketAddr) BoxError)) (name : str)
    : aop E (result (list SocketAddr) BoxError) :=
  match Dns.lookup (dns_overrides c) name with
  | Some addresses => fun e => (Some (Ok addresses), e)
  | None => fallback name
  end.

End Connector.
End ProxyConnector.

(** ** The credentials of the proxy *)
Section Credentials.
#[local] Arguments lit : simpl never.
Context `{HttpLaws} `{UrlCrate} `{HttpDate} `{Codecs} `{!ProxyCrates} `{!UriParts} `{!Dns.HostCrate} {SocketAddr : Type}.
Context {E : Type} (client : Client (E := E)).
Context (connect_timeout : Duration) (overrides : Dns.DnsOverrides (SocketAddr := SocketAddr)).
Abbreviation connection uri :=
  (ProxyConnector.call (ProxyConnector.new (proxy_config client) connect_timeout overrides) uri).
Abbreviation PROXY_AUTHORIZATION := (header_name "proxy-authorization").

Lemma should_apply_forwards uri :
  Async.should_apply_http_proxy_auth_header client uri = true ->
  exists config, proxy_config client = Some config /\ connection uri = ProxyConnector.Direct (proxy_uri _ config) true.
Proof.
  unfold Async.should_apply_http_proxy_auth_header, ProxyConnector.call, ProxyConnector.new. simpl.
  destruct (proxy_config client) as [config|]; simpl; [|discriminate].
  destruct (uri_scheme_str uri) as [scheme|]; simpl; [|discriminate].
  destruct (eq_ignore_ascii_case scheme (lit "http")) eqn:Hhttp; simpl; [|discriminate]. intros Hb%negb_true_iff.
  exists config. split; [done|]. unfold ProxyConnector.should_bypass_proxy. simpl. rewrite Hb.
  destruct (eq_ignore_ascii_case scheme (lit "https")) eqn:Hhttps; [|done]. exfalso.
  unfold eq_ignore_ascii_case in *. apply bool_decide_eq_true in Hhttp, Hhttps. rewrite Hhttp in Hhttps. by vm_compute in Hhttps.
Qed.

(** A Proxy-Authorization header is sent when the connection leads to the proxy, and only
    then. *)
Lemma credentials_follow_connection uri headers :
  let sent := hm_get_all (Async.wire_headers client uri headers) PROXY_AUTHORIZATION in
  (forall value, value ∈ sent -> exists config,
     proxy_config client = Some config /\ authorization _ config = Some value /\
     connection uri = ProxyConnector.Direct (proxy_uri _ config) true) /\
  (ProxyConnector.is_proxied (connection uri) = true ->
   (uri_scheme_str uri ≫= fun scheme => if eq_ignore_ascii_case scheme (lit "http") then Some tt else None) = Some tt ->
   sent = option_list (proxy_config client ≫= authorization _)).
Proof.
  unfold Async.wire_headers, Async.apply_http_proxy_auth_header, hm_contains_key.
  rewrite hm_get_all_remove, decide_True by done. rewrite orb_false_r. split.
  - intros value Hv. destruct (Async.should_apply_http_proxy_auth_header client uri) eqn:Happly; simpl in Hv;
      [|rewrite hm_get_all_remove, decide_True in Hv by done; by apply not_elem_of_nil in Hv].
    destruct (should_apply_forwards uri Happly) as (config & Hc & Hd). rewrite Hc in Hv. exists config. split; [done|].
    destruct (authorization _ config) as [auth|] eqn:Ha.
    + rewrite hm_get_all_insert, decide_True in Hv by done. apply list_elem_of_singleton in Hv as ->. done.
    + rewrite hm_get_all_remove, decide_True in Hv by done. by apply not_elem_of_nil in Hv.
  - intros Hp Hs. unfold ProxyConnector.call, ProxyConnector.new in Hp.
    unfold Async.should_apply_http_proxy_auth_header. simpl in Hp. destruct (proxy_config client) as [config|]; [|done].
    simpl in *. unfold ProxyConnector.should_bypass_proxy in Hp. simpl in Hp.
    destruct (uri_scheme_str uri) as [scheme|]; [|done]. simpl in *.
    destruct (eq_ignore_ascii_case scheme (lit "http")); [simpl|done].
    destruct (should_bypass_proxy_uri _ uri); [done|]. simpl.
    destruct (authorization _ config); [by rewrite hm_get_all_insert, decide_True by done|].
    by rewrite hm_get_all_remove, decide_True by done.
Qed.

End Credentials.
