(* ===== verification/AsyncTls.v ===== *)
(** * The transport of the async client (async_client/transport.rs)

    The trust stores, protocol versions, identities and protocols of the two TLS stacks
    the async client can be built with.  rustls, native-tls and hyper are the class
    [AsyncTlsCrates]; a transport is the settings it is built from.  The last section
    shows that a transport that builds has the settings that were asked for. *)
From stdpp Require Import pretty.
From Stdlib Require Import Ascii String.
From S2P Require Import Prelude Float64 Text HttpApi UriText Errors Redaction UriResolve Tls Redirect Proxy Dns.
From S2P Require Import Headers ContentEncoding Timing Responses Retry RetryBudget RateLimit Execution Limiters.
From S2P Require Import Metrics Lifecycle Program Blocking Async AsyncStream AsyncProxy.

(** Certificates are their DER bytes; a trust anchor is what a store keeps of one. *)
Class AsyncTlsCrates `{TlsCrates} := {
  TrustAnchor : Type;
  PrivateKeyDer : Type;
  certificate_der_from_pem : list Z -> result (list Z) str;
  private_key_der_from_pem : list Z -> result PrivateKeyDer str;
  (** [RootCertStore::add] *)
  trust_anchor : list Z -> result TrustAnchor str;
  TLS_SERVER_ROOTS : list TrustAnchor;
  (** the certificates of [rustls_native_certs::load_native_certs] *)
  loaded_native_certs : list (list Z);
  rejects_versions : CryptoProvider -> list TlsVersion -> option str;
  rejects_client_auth : CryptoProvider -> list (list Z) -> PrivateKeyDer -> option str;
  NativeCertificate : Type;
  NativeIdentity : Type;
  native_certificate_from_pem : list Z -> result NativeCertificate str;
  native_certificate_from_der : list Z -> result NativeCertificate str;
  identity_from_pkcs8 : list Z -> list Z -> result NativeIdentity str;
  identity_from_pkcs12 : list Z -> str -> result NativeIdentity str;
}.

Module AsyncTls.

Definition default_tls_backend (f : TlsCargoFeatures) : TlsBackend :=
  if tls_rustls_ring f then RustlsRing
  else if tls_rustls_aws_lc_rs f then RustlsAwsLcRs
  else if tls_native f then NativeTls
  else if tls_rustls_graviola f then RustlsGraviola
  else if tls_rustls_no_provider f then RustlsNoProvider
  else RustlsRing.

Section Roots.
Context `{Http} (backend : TlsBackend) {X : Type} (from_pem from_der : list Z -> result X Error.t).

(** The loops over the custom roots: each block of a bundle, and each certificate in
    DER, is parsed and added; the first failure ends them. *)
Fixpoint add_blocks (blocks : list (list Z)) (store : list X) : result (list X) Error.t :=
  match blocks with
  | [] => Ok store
  | block :: blocks => let? certificate := from_pem block in add_blocks blocks (store ++ [certificate])
  end.

Fixpoint add_roots (certificates : list TlsRootCertificate) (store : list X) : result (list X) Error.t :=
  match certificates with
  | [] => Ok store
  | RootPem pem :: rest =>
    let? blocks := parse_pem_certificate_blocks backend pem (lit "root certificate") in
    let? store := add_blocks blocks store in add_roots rest store
  | RootDer der :: rest => let? certificate := from_der der in add_roots rest (store ++ [certificate])
  end.

Lemma add_blocks_Ok blocks store store' :
  add_blocks blocks store = Ok store' ->
  exists added, store' = store ++ added /\ Forall2 (fun block certificate => from_pem block = Ok certificate) blocks added.
Proof.
  revert store. induction blocks as [|b blocks IH]; simpl; intros store.
  - intros [= <-]. exists []. by rewrite app_nil_r.
  - intros (c & Hc & (added & -> & HF)%IH)%result_bind_Ok_inv. exists (c :: added).
    rewrite <- app_assoc. split; [done|]. by constructor.
Qed.

Lemma add_roots_Ok entries store store' :
  add_roots entries store = Ok store' ->
  exists added, store' = store ++ added /\ custom_certificates from_pem from_der entries added.
Proof.
  revert store. induction entries as [|[pem|der] entries IH]; simpl; intros store.
  - intros [= <-]. exists []. rewrite app_nil_r. split; [done|]. by exists [].
  - intros (blocks & [Ht Hne]%parsed_blocks_text & Hr)%result_bind_Ok_inv.
    apply result_bind_Ok_inv in Hr as (s & (added & -> & HF)%add_blocks_Ok & (rest & -> & Hrest)%IH).
    exists (added ++ rest). rewrite <- app_assoc. split; [done|]. apply custom_certificates_cons; [by exists blocks|done].
  - intros (c & Hc & (rest & -> & Hrest)%IH)%result_bind_Ok_inv. exists ([c] ++ rest).
    rewrite <- app_assoc. split; [done|]. apply custom_certificates_cons; [by exists c|done].
Qed.

End Roots.

(** ** The two TLS stacks *)
Section Stacks.
Context `{Http} `{!TlsCrates} `{!AsyncTlsCrates}.

(** [rustls::ClientConfig]. *)
Record ClientConfig := {
  cc_provider : CryptoProvider;
  cc_protocol_versions : list TlsVersion;
  cc_roots : list TrustAnchor;
  cc_client_auth : option (list (list Z) * PrivateKeyDer);
}.

Section Rustls.
Context (tls_backend : TlsBackend).
Abbreviation error message := (tls_config_error tls_backend message).

Definition with_context {T} (context : string) (r : result T str) : result T Error.t :=
  match r with Ok v => Ok v | Err source => Err (error (lit context ++ source)) end.

Definition root_from_pem (block : list Z) : result TrustAnchor Error.t :=
  let? certificate := with_context "failed to parse PEM root certificate: " (certificate_der_from_pem block) in
  with_context "failed to add PEM root certificate: " (trust_anchor certificate).
Definition root_from_der (der : list Z) : result TrustAnchor Error.t :=
  with_context "failed to add DER root certificate: " (trust_anchor der).

(** The store, and how many certificates were added to it. *)
Definition add_custom_rustls_root_certificates (o : TlsOptions) (store : list TrustAnchor)
    : result (list TrustAnchor * Z) Error.t :=
  let? store' := add_roots tls_backend root_from_pem root_from_der (root_certificates o) store in
  Ok (store', Z.min usize_max (Z.of_nat (length store') - Z.of_nat (length store))).

(** [RootCertStore::add_parsable_certificates]. *)
Definition parsable_certificates (certificates : list (list Z)) : list TrustAnchor :=
  omap (fun der => match trust_anchor der with Ok anchor => Some anchor | Err _ => None end) certificates.

Definition takes_custom_roots (store : TlsRootStore) : bool :=
  match store with WebPki | System | Specific => true | BackendDefault => false end.

Definition build_rustls_root_store (o : TlsOptions) : result (list TrustAnchor) Error.t :=
  let has_custom := negb (bool_decide (length (root_certificates o) = O)) in
  if has_custom && negb (takes_custom_roots (root_store o)) then
    Err (error (lit "custom root CAs require tls_root_store(TlsRootStore::WebPki), tls_root_store(TlsRootStore::System), or tls_root_store(TlsRootStore::Specific)"))
  else
    let store := match root_store o with BackendDefault | WebPki => TLS_SERVER_ROOTS | System | Specific => [] end in
    if bool_decide (root_store o = Specific) && negb has_custom then
      Err (error (lit "tls_root_store(TlsRootStore::Specific) requires at least one root CA"))
    else
      let system := if bool_decide (root_store o = System) then parsable_certificates loaded_native_certs else [] in
      let system_added := Z.of_nat (length system) in
      let store := store ++ system in
      let? (store, custom_added) :=
        if takes_custom_roots (root_store o) && has_custom
        then add_custom_rustls_root_certificates o store else Ok (store, 0) in
      if bool_decide (root_store o = System) && (system_added + custom_added =? 0)
      then Err (error (lit "failed to load system root certificates"))
      else Ok store.

Definition configured_rustls_protocol_versions (o : TlsOptions) : result (list TlsVersion) Error.t :=
  let? bounds := tls_version_bounds tls_backend o in
  Ok (List.filter (fun version => bounds_contains version bounds) [V1_3; V1_2]).

Fixpoint client_chain (blocks : list (list Z)) : result (list (list Z)) Error.t :=
  match blocks with
  | [] => Ok []
  | block :: blocks =>
    let? certificate := with_context "failed to parse mTLS certificate chain PEM: " (certificate_der_from_pem block) in
    let? chain := client_chain blocks in Ok (certificate :: chain)
  end.

Definition build_rustls_tls_config (provider : CryptoProvider) (o : TlsOptions) : result ClientConfig Error.t :=
  let? roots := build_rustls_root_store o in
  let? protocol_versions := configured_rustls_protocol_versions o in
  match rejects_versions provider protocol_versions with
  | Some message => Err (Error.TlsBackendInit (backend_as_str tls_backend) message)
  | None =>
    let config client_auth :=
      {| cc_provider := provider; cc_protocol_versions := protocol_versions; cc_roots := roots;
         cc_client_auth := client_auth |} in
    match client_identity o with
    | None => Ok (config None)
    | Some (IdentityPem cert_chain_pem private_key_pem) =>
      let? blocks := parse_pem_certificate_blocks tls_backend cert_chain_pem (lit "mTLS certificate chain") in
      let? cert_chain := client_chain blocks in
      let? private_key := with_context "failed to parse mTLS private key PEM: " (private_key_der_from_pem private_key_pem) in
      match rejects_client_auth provider cert_chain private_key with
      | Some source => Err (error (lit "failed to configure mTLS identity: " ++ source))
      | None => Ok (config (Some (cert_chain, private_key)))
      end
    | Some (IdentityPkcs12 identity_der password) =>
      Err (error (lit "PKCS#12 identity is unsupported for rustls backends; use PEM cert+key (pkcs12_bytes="
        ++ lit (pretty (Z.of_nat (length identity_der))) ++ lit ", password_len="
        ++ lit (pretty (str_len password)) ++ lit ")"))
    end
  end.

End Rustls.

Inductive NativeProtocol := Tlsv12 | Tlsv13.

(** [native_tls::TlsConnectorBuilder]; a version is [None] while it is the crate's
    default. *)
Record TlsConnectorBuilder := {
  nt_alpns : list string;
  nt_disable_built_in_roots : bool;
  nt_root_certificates : list NativeCertificate;
  nt_identity : option NativeIdentity;
  nt_min_protocol : option NativeProtocol;
  nt_max_protocol : option NativeProtocol;
}.

Definition native_tls_protocol (version : TlsVersion) : NativeProtocol :=
  match version with V1_2 => Tlsv12 | V1_3 => Tlsv13 end.

(** The versions it sets. *)
Definition apply_native_tls_protocol_versions (o : TlsOptions)
    : result (option NativeProtocol * option NativeProtocol) Error.t :=
  let? bounds := tls_version_bounds NativeTls o in
  Ok (native_tls_protocol <$> bound_min bounds, native_tls_protocol <$> bound_max bounds).

Definition native_root_from_pem (block : list Z) : result NativeCertificate Error.t :=
  with_context NativeTls "failed to parse PEM root certificate: " (native_certificate_from_pem block).
Definition native_root_from_der (der : list Z) : result NativeCertificate Error.t :=
  with_context NativeTls "failed to parse DER root certificate: " (native_certificate_from_der der).

Definition native_identity (identity : option TlsClientIdentity) : result (option NativeIdentity) Error.t :=
  match identity with
  | None => Ok None
  | Some (IdentityPem cert_chain_pem private_key_pem) =>
    let? i := with_context NativeTls "failed to parse PKCS#8 mTLS identity: "
      (identity_from_pkcs8 cert_chain_pem private_key_pem) in Ok (Some i)
  | Some (IdentityPkcs12 identity_der password) =>
    let? i := with_context NativeTls "failed to parse PKCS#12 mTLS identity: "
      (identity_from_pkcs12 identity_der password) in Ok (Some i)
  end.

(** [rejects] is the error of [TlsConnectorBuilder::build]. *)
Definition build_native_tls_connector (rejects : TlsConnectorBuilder -> option str) (o : TlsOptions) (http2_only : bool)
    : result TlsConnectorBuilder Error.t :=
  let alpns := if http2_only then ["h2"%string] else ["h2"%string; "http/1.1"%string] in
  let has_custom := negb (bool_decide (length (root_certificates o) = O)) in
  let error message := tls_config_error NativeTls (lit message) in
  if has_custom && negb (takes_custom_roots (root_store o)) then
    Err (error "custom root CAs require tls_root_store(TlsRootStore::WebPki), tls_root_store(TlsRootStore::System), or tls_root_store(TlsRootStore::Specific)")
  else
    let? disable_built_in_roots :=
      match root_store o with
      | BackendDefault | System => Ok false
      | Specific =>
        if has_custom then Ok true
        else Err (error "tls_root_store(TlsRootStore::Specific) requires at least one root CA")
      | WebPki => Err (error "tls_root_store(TlsRootStore::WebPki) is unsupported for native-tls backend; use System or Specific")
      end in
    let? roots := add_roots NativeTls native_root_from_pem native_root_from_der (root_certificates o) [] in
    let? identity := native_identity (client_identity o) in
    let? (min_protocol, max_protocol) := apply_native_tls_protocol_versions o in
    let connector :=
      {| nt_alpns := alpns; nt_disable_built_in_roots := disable_built_in_roots; nt_root_certificates := roots;
         nt_identity := identity; nt_min_protocol := min_protocol; nt_max_protocol := max_protocol |} in
    match rejects connector with
    | Some message => Err (Error.TlsBackendInit (backend_as_str NativeTls) message)
    | None => Ok connector
    end.

(** ** Transports *)
Context `{UrlCrate} `{!ProxyCrates} `{!UriParts} `{!Dns.HostCrate} {SocketAddr : Type}.
Abbreviation Connector := (ProxyConnector.t (SocketAddr := SocketAddr)).

(** The hyper client: the pool and the protocols it speaks. *)
Record HyperClient := {
  hc_connector : Connector;
  hc_pool_idle_timeout : Duration;
  hc_pool_max_idle_per_host : Z;
  hc_http2_only : bool;
}.

(** The HTTPS connector of hyper-rustls takes the protocols that are enabled. *)
Inductive TransportClient :=
| Rustls (tls_config : ClientConfig) (enable_http1 enable_http2 : bool) (client : HyperClient)
| Native (tls_connector : TlsConnectorBuilder) (client : HyperClient).

Section Transport.
Context (f : TlsCargoFeatures) (rejects : TlsConnectorBuilder -> option str).
Context (connector : Connector) (pool_idle_timeout : Duration) (pool_max_idle_per_host : Z) (http2_only : bool).

Definition hyper_client : HyperClient :=
  {| hc_connector := connector; hc_pool_idle_timeout := pool_idle_timeout;
     hc_pool_max_idle_per_host := pool_max_idle_per_host; hc_http2_only := http2_only |}.

Definition build_rustls_transport (tls_config : ClientConfig) : TransportClient :=
  if http2_only then Rustls tls_config false true hyper_client else Rustls tls_config true true hyper_client.

Definition build_native_tls_transport (o : TlsOptions) : result TransportClient Error.t :=
  let? tls_connector := build_native_tls_connector rejects o http2_only in
  Ok (Native tls_connector hyper_client).

Definition build_transport_client (tls_backend : TlsBackend) (o : TlsOptions) : result TransportClient Error.t :=
  if negb (backend_is_available f tls_backend) then Err (Error.TlsBackendUnavailable (backend_as_str tls_backend))
  else match tls_backend with
  | NativeTls => build_native_tls_transport o
  | _ =>
    let? provider := rustls_crypto_provider f tls_backend in
    let? tls_config := build_rustls_tls_config tls_backend provider o in
    Ok (build_rustls_transport tls_config)
  end.

End Transport.

(** ** What a transport that builds has *)

(** A version within the bounds of the options. *)
Definition allowed (o : TlsOptions) (version : TlsVersion) : Prop :=
  (forall min, min_protocol_version o = Some min -> version_leb min version = true) /\
  (forall max, max_protocol_version o = Some max -> version_leb version max = true).

(** The protocols between those that native-tls is limited to. *)
Definition native_leb (p q : NativeProtocol) : bool := match p, q with Tlsv13, Tlsv12 => false | _, _ => true end.
Definition native_allows (settings : TlsConnectorBuilder) (version : TlsVersion) : Prop :=
  (forall min, nt_min_protocol settings = Some min -> native_leb min (native_tls_protocol version) = true) /\
  (forall max, nt_max_protocol settings = Some max -> native_leb (native_tls_protocol version) max = true).

(** The identity that was set, with its whole chain, and no other. *)
Definition rustls_identity (identity : option TlsClientIdentity) (used : option (list (list Z) * PrivateKeyDer)) : Prop :=
  match identity, used with
  | None, None => True
  | Some (IdentityPem cert_chain_pem private_key_pem), Some (chain, key) =>
    bundle_holds certificate_der_from_pem cert_chain_pem chain /\ private_key_der_from_pem private_key_pem = Ok key
  | _, _ => False
  end.
Definition native_identity_used (identity : option TlsClientIdentity) (used : option NativeIdentity) : Prop :=
  match identity, used with
  | None, None => True
  | Some (IdentityPem cert_chain_pem private_key_pem), Some i => identity_from_pkcs8 cert_chain_pem private_key_pem = Ok i
  | Some (IdentityPkcs12 identity_der password), Some i => identity_from_pkcs12 identity_der password = Ok i
  | _, _ => False
  end.

(** The roots that the options name, with the custom ones [customs]. *)
Definition rustls_trusts (o : TlsOptions) (customs roots : list TrustAnchor) : Prop :=
  match root_store o with
  | BackendDefault => customs = [] /\ roots = TLS_SERVER_ROOTS
  | WebPki => roots = TLS_SERVER_ROOTS ++ customs
  | System => roots = parsable_certificates loaded_native_certs ++ customs /\ roots <> []
  | Specific => roots = customs /\ roots <> []
  end.

Lemma tls_version_bounds_Ok backend o bounds :
  tls_version_bounds backend o = Ok bounds ->
  bound_min bounds = min_protocol_version o /\ bound_max bounds = max_protocol_version o /\
  exists version, bounds_contains version bounds = true.
Proof.
  unfold tls_version_bounds, bounds_contains. cbn [bound_min bound_max].
  destruct (min_protocol_version o) as [[]|], (max_protocol_version o) as [[]|]; simpl; intros [= <-];
    (split; [done|]; split; [done|]); first [by exists V1_2|by exists V1_3].
Qed.

Lemma bounds_contains_allowed o bounds version :
  bound_min bounds = min_protocol_version o -> bound_max bounds = max_protocol_version o ->
  bounds_contains version bounds = true <-> allowed o version.
Proof.
  intros Hmin Hmax. unfold bounds_contains, allowed. rewrite Hmin, Hmax, andb_true_iff.
  destruct (min_protocol_version o), (max_protocol_version o); naive_solver.
Qed.

Lemma native_versions_Ok o settings bounds :
  tls_version_bounds NativeTls o = Ok bounds ->
  nt_min_protocol settings = native_tls_protocol <$> bound_min bounds ->
  nt_max_protocol settings = native_tls_protocol <$> bound_max bounds ->
  (exists version, native_allows settings version) /\ forall version, native_allows settings version <-> allowed o version.
Proof.
  intros (Hmin & Hmax & version & Hv)%tls_version_bounds_Ok Hlo Hhi.
  assert (forall v w, native_leb (native_tls_protocol v) (native_tls_protocol w) = version_leb v w) as Hleb by by intros [] [].
  assert (forall w, native_allows settings w <-> allowed o w) as Hall.
  { intros w. unfold native_allows, allowed. rewrite Hlo, Hhi, Hmin, Hmax.
    destruct (min_protocol_version o), (max_protocol_version o); simpl; setoid_rewrite <- Hleb; naive_solver. }
  split; [|done]. exists version. apply Hall. by apply (bounds_contains_allowed o bounds).
Qed.

Lemma client_chain_Ok backend blocks chain :
  client_chain backend blocks = Ok chain ->
  Forall2 (fun block certificate => certificate_der_from_pem block = Ok certificate) blocks chain.
Proof.
  revert chain. induction blocks as [|b blocks IH]; simpl; intros chain; [by intros [= <-]|].
  intros (c & Hc & (rest & Hr & [= <-])%result_bind_Ok_inv)%result_bind_Ok_inv. constructor; [|by apply IH].
  unfold with_context in Hc. destruct (certificate_der_from_pem b); by simplify_eq.
Qed.

Lemma with_context_Ok {T} backend context (r : result T str) v : with_context backend context r = Ok v -> r = Ok v.
Proof. unfold with_context. destruct r; by intros [= ->]. Qed.

Lemma configured_versions_Ok backend o versions :
  configured_rustls_protocol_versions backend o = Ok versions ->
  versions <> [] /\ forall version, version ∈ versions <-> allowed o version.
Proof.
  intros (bounds & (Hmin & Hmax & version & Hv)%tls_version_bounds_Ok & Hvs)%result_bind_Ok_inv.
  assert (versions = List.filter (fun w => bounds_contains w bounds) [V1_3; V1_2]) as -> by by injection Hvs.
  assert (forall w, w ∈ List.filter (fun w => bounds_contains w bounds) [V1_3; V1_2] <-> allowed o w) as Hin.
  { intros w. rewrite list_elem_of_In, filter_In, <- (bounds_contains_allowed o bounds) by done.
    destruct w; simpl; naive_solver. }
  split; [|done]. intros Hnil. specialize (Hin version). rewrite Hnil in Hin.
  rewrite <- (bounds_contains_allowed o bounds) in Hin by done. apply Hin in Hv. by apply not_elem_of_nil in Hv.
Qed.

Lemma build_rustls_root_store_Ok backend o roots :
  build_rustls_root_store backend o = Ok roots ->
  exists customs, custom_certificates (root_from_pem backend) (root_from_der backend) (root_certificates o) customs /\
    rustls_trusts o customs roots.
Proof.
  unfold build_rustls_root_store. destruct (_ && negb _) eqn:H1'; [done|].
  destruct (_ && negb _) eqn:H2' in |- *; [done|]. intros ([store added] & Hs & Hr)%result_bind_Ok_inv.
  destruct (_ && (_ =? _)) eqn:H3' in Hr; [done|]. injection Hr as <-.
  assert (exists customs,
    custom_certificates (root_from_pem backend) (root_from_der backend) (root_certificates o) customs /\
    (root_store o = BackendDefault -> customs = []) /\ added = Z.min usize_max (Z.of_nat (length customs)) /\
    store = (match root_store o with BackendDefault | WebPki => TLS_SERVER_ROOTS | System | Specific => [] end
      ++ if bool_decide (root_store o = System) then parsable_certificates loaded_native_certs else []) ++ customs)
    as (customs & Hcustom & Hd & -> & ->).
  { destruct (root_certificates o) as [|entry entries] eqn:He; simpl in *.
    - rewrite andb_false_r in Hs. injection Hs as <- <-. exists []. rewrite app_nil_r. split; [by exists []|done].
    - rewrite andb_true_r in Hs. apply negb_false_iff in H1'. rewrite H1' in Hs.
      apply result_bind_Ok_inv in Hs as (s & Hs & [= <- <-]). rewrite He in Hs.
      apply add_roots_Ok in Hs as (customs & -> & Hc). exists customs. split; [done|]. split; [|split; [|done]].
      + intros Hb. by rewrite Hb in H1'.
      + rewrite length_app. f_equal. lia. }
  exists customs. split; [done|]. unfold rustls_trusts. apply custom_certificates_nonempty in Hcustom.
  destruct (root_store o) eqn:Hstore; simpl in *; rewrite ?app_nil_r.
  - rewrite Hd by done. by rewrite app_nil_r.
  - done.
  - split; [done|]. intros [Hn1 Hn2]%app_nil. rewrite Hn1, Hn2 in H3'. done.
  - split; [done|]. intros ->. destruct (root_certificates o); [done|]. discriminate (proj2 Hcustom eq_refl).
Qed.

Lemma build_rustls_tls_config_Ok backend provider o config :
  build_rustls_tls_config backend provider o = Ok config ->
  cc_provider config = provider /\
  configured_rustls_protocol_versions backend o = Ok (cc_protocol_versions config) /\
  build_rustls_root_store backend o = Ok (cc_roots config) /\
  rustls_identity (client_identity o) (cc_client_auth config).
Proof.
  intros (roots & Hroots & Hr)%result_bind_Ok_inv. apply result_bind_Ok_inv in Hr as (versions & Hv & Hr).
  destruct (rejects_versions provider versions); [done|].
  destruct (client_identity o) as [[chain key|]|]; [|done|by injection Hr as <-].
  apply result_bind_Ok_inv in Hr as (blocks & [Ht Hne]%parsed_blocks_text & Hr).
  apply result_bind_Ok_inv in Hr as (ders & Hd%client_chain_Ok & Hr).
  apply result_bind_Ok_inv in Hr as (k & Hk%with_context_Ok & Hr). destruct (rejects_client_auth _ _ _); [done|].
  injection Hr as <-. do 3 (split; [done|]). split; [by exists blocks|done].
Qed.

Lemma build_native_Ok rejects o http2_only connector :
  build_native_tls_connector rejects o http2_only = Ok connector ->
  nt_alpns connector = (if http2_only then ["h2"] else ["h2"; "http/1.1"])%string /\
  custom_certificates native_root_from_pem native_root_from_der (root_certificates o) (nt_root_certificates connector) /\
  nt_disable_built_in_roots connector = bool_decide (root_store o = Specific) /\
  root_store o <> WebPki /\
  (root_store o = Specific -> nt_root_certificates connector <> []) /\
  nt_min_protocol connector = native_tls_protocol <$> min_protocol_version o /\
  nt_max_protocol connector = native_tls_protocol <$> max_protocol_version o /\
  ((exists version, native_allows connector version) /\ forall version, native_allows connector version <-> allowed o version) /\
  native_identity_used (client_identity o) (nt_identity connector).
Proof.
  unfold build_native_tls_connector. destruct (_ && negb _); [done|].
  intros (disable & Hd & Hr)%result_bind_Ok_inv.
  apply result_bind_Ok_inv in Hr as (roots & (added & -> & Hroots)%add_roots_Ok & Hr).
  apply result_bind_Ok_inv in Hr as (identity & Hi & Hr). apply result_bind_Ok_inv in Hr as ([lo hi] & Hv & Hr).
  destruct (rejects _); [done|]. injection Hr as <-. simpl.
  apply result_bind_Ok_inv in Hv as (bounds & Hb & [= <- <-]).
  pose proof (custom_certificates_nonempty _ _ _ _ Hroots) as Hne.
  split; [done|]. split; [done|]. split; [by destruct (root_store o); repeat case_match; simplify_eq|].
  split; [by intros Hw; rewrite Hw in Hd|]. split; [|pose proof Hb as (Hmin & Hmax & _)%tls_version_bounds_Ok; rewrite <- Hmin, <- Hmax;
    split; [done|split; [done|split; [by eapply native_versions_Ok|]]]].
  - intros Hs Hnil. rewrite Hs, (proj2 Hne Hnil) in Hd. done.
  - unfold native_identity in Hi. destruct (client_identity o) as [[]|]; [| |by injection Hi as <-];
      apply result_bind_Ok_inv in Hi as (i & Hw & [= <-]); apply with_context_Ok in Hw; done.
Qed.

(** The pool and the connector are those given. *)
Lemma transport_client_of f rejects connector idle per_host http2_only backend o transport :
  build_transport_client f rejects connector idle per_host http2_only backend o = Ok transport ->
  match transport with Rustls _ _ _ client | Native _ client => client end
    = hyper_client connector idle per_host http2_only.
Proof.
  unfold build_transport_client, build_native_tls_transport, build_rustls_transport. destruct (negb _); [done|].
  destruct backend; intros (p & _ & Hr)%result_bind_Ok_inv; try (by injection Hr as <-);
    apply result_bind_Ok_inv in Hr as (config & _ & [= <-]); by destruct http2_only.
Qed.

(** C38: An async transport that builds is the one that was asked for: its TLS stack
    is the chosen backend's, which is compiled in; it accepts exactly the protocol
    versions within the bounds, at least one, be it rustls, which is given the
    versions, or native-tls, which is given the least and the greatest; it trusts
    the store that is named, with every custom root, of a bundle all its blocks,
    parsed and added, and never an empty store of its own making; the identity that
    was set, and no other, is used, with its whole certificate chain; it offers
    HTTP/1.1 exactly when the client may speak it; and the connector and the pool
    settings are those given. *)
Theorem async_transport_as_configured f rejects connector pool_idle_timeout pool_max_idle_per_host http2_only
    backend o transport :
  build_transport_client f rejects connector pool_idle_timeout pool_max_idle_per_host http2_only backend o = Ok transport ->
  backend_is_available f backend = true /\
  match transport with
  | Rustls config enable_http1 enable_http2 client =>
    backend <> NativeTls /\ rustls_crypto_provider f backend = Ok (cc_provider config) /\
    client = hyper_client connector pool_idle_timeout pool_max_idle_per_host http2_only /\
    enable_http1 = negb http2_only /\ enable_http2 = true /\
    cc_protocol_versions config <> [] /\
    (forall version, version ∈ cc_protocol_versions config <-> allowed o version) /\
    rustls_identity (client_identity o) (cc_client_auth config) /\
    exists customs,
      custom_certificates (root_from_pem backend) (root_from_der backend) (root_certificates o) customs /\
      rustls_trusts o customs (cc_roots config)
  | Native settings client =>
    backend = NativeTls /\
    client = hyper_client connector pool_idle_timeout pool_max_idle_per_host http2_only /\
    nt_alpns settings = (if http2_only then ["h2"] else ["h2"; "http/1.1"])%string /\
    nt_min_protocol settings = native_tls_protocol <$> min_protocol_version o /\
    nt_max_protocol settings = native_tls_protocol <$> max_protocol_version o /\
    (exists version, native_allows settings version) /\
    (forall version, native_allows settings version <-> allowed o version) /\
    native_identity_used (client_identity o) (nt_identity settings) /\
    root_store o <> WebPki /\
    nt_disable_built_in_roots settings = bool_decide (root_store o = Specific) /\
    (root_store o = Specific -> nt_root_certificates settings <> []) /\
    custom_certificates native_root_from_pem native_root_from_der (root_certificates o) (nt_root_certificates settings)
  end.
Proof.
  unfold build_transport_client. destruct (backend_is_available f backend); [cbn [negb]|done]. intros Hr. split; [done|].
  destruct (decide (backend = NativeTls)) as [->|Hb].
  - apply result_bind_Ok_inv in Hr as (settings & Hn & [= <-]). apply build_native_Ok in Hn as (? & ? & ? & ? & ? & ? & ? & [? ?] & ?). split_and!; done.
  - assert ((let? provider := rustls_crypto_provider f backend in
             let? config := build_rustls_tls_config backend provider o in
             Ok (build_rustls_transport connector pool_idle_timeout pool_max_idle_per_host http2_only config)) = Ok transport)
      as (provider & Hp & Hr')%result_bind_Ok_inv by by destruct backend.
    apply result_bind_Ok_inv in Hr' as (config & (Hprov & Hv & Hroots & Hauth)%build_rustls_tls_config_Ok & [= <-]).
    apply configured_versions_Ok in Hv as [Hne Hv]. apply build_rustls_root_store_Ok in Hroots as (customs & Hc & Ht).
    unfold build_rustls_transport. destruct http2_only; rewrite Hprov; (split_and!; try done; by exists customs).
Qed.

End Stacks.
End AsyncTls.

(** ** Witness

    TLS 1.3 only, with one custom root beside those of the system. *)
Module AsyncTlsDemo.
#[export] Existing Instance ref_http.
#[export] Existing Instance ref_url.
#[export] Existing Instance ProxyDemo.crates.
#[export] Existing Instance DnsDemo.plain_hosts.
#[export] Existing Instance TlsDemo.crates.
Import AsyncTls.

#[export] Instance async_crates : AsyncTlsCrates := {
  TrustAnchor := list Z; PrivateKeyDer := list Z; certificate_der_from_pem := Ok; private_key_der_from_pem := Ok;
  trust_anchor der := match der with [] => Err (lit "empty") | _ => Ok der end;
  TLS_SERVER_ROOTS := [[9]]; loaded_native_certs := [[]; [7]];
  rejects_versions _ versions := if bool_decide (length versions = O) then Some (lit "no version") else None;
  rejects_client_auth _ _ _ := None;
  NativeCertificate := list Z; NativeIdentity := list Z;
  native_certificate_from_pem := Ok; native_certificate_from_der := Ok;
  identity_from_pkcs8 _ key := Ok key; identity_from_pkcs12 der _ := Ok der;
}.

Definition async_options : TlsOptions :=
  {| root_store := System; root_certificates := [RootDer [1; 2]]; client_identity := None;
     min_protocol_version := Some V1_3; max_protocol_version := None |}.
Definition connector : ProxyConnector.t (SocketAddr := Z) :=
  ProxyConnector.new None (duration_from_secs 1) {| Dns.overrides := ∅ |}.
Abbreviation transport_built :=
  (build_transport_client TlsDemo.features (fun _ => None) connector (duration_from_secs 90) 8 true RustlsRing async_options).
End AsyncTlsDemo.
Import AsyncTlsDemo.

Lemma async_transport_as_configured_witness :
  match transport_built with
  | Ok (AsyncTls.Rustls config enable_http1 _ _) =>
    enable_http1 = false /\ (forall version, version ∈ AsyncTls.cc_protocol_versions config <-> AsyncTls.allowed async_options version) /\
    AsyncTls.cc_roots config = [[7]; [1; 2]]
  | _ => False
  end.
Proof.
  assert (match transport_built with
          | Ok (AsyncTls.Rustls config _ _ _) => Some (AsyncTls.cc_roots config)
          | _ => None
          end = Some [[7]; [1; 2]]) as Hroots by (vm_compute; reflexivity).
  destruct transport_built as [[config h1 h2 client|]|e] eqn:Hb; try discriminate Hroots. injection Hroots as Hroots.
  destruct (AsyncTls.async_transport_as_configured _ _ _ _ _ _ _ _ _ Hb) as (_ & _ & _ & _ & Hh1 & _ & _ & Hv & _).
  split; [exact Hh1|]. split; [exact Hv|exact Hroots].
Defined.
