(* ===== verification/AsyncBuilder.v ===== *)
(** * Building an async client (async_client/builder.rs)

    The settings that only the async client has, and its [build]: the shared validation,
    the checks of its own, the transport and the controls.  [MAX_PERMITS] is the
    constant of tokio's semaphore.  The client of the request loop is the record of
    [Blocking]; its fields for the ureq agents are not read by the async loop. *)
From coqutil Require Import Datatypes.RecordSetters.
From Stdlib Require Import Ascii String.
From S2P Require Import Prelude Float64 Text HttpApi UriText Errors Redaction UriResolve Extensions Tls Redirect Proxy Dns.
From S2P Require Import Headers ContentEncoding Timing Responses Retry RetryBudget CircuitBreaker Adaptive.
From S2P Require Import RateLimit Execution Limiters Metrics Otel Lifecycle Program Blocking BlockingFacts BlockingTheorems.
From S2P Require Import ClientBuilder Async AsyncStream AsyncProxy AsyncTls AsyncLimiters.
Import DoubleBraceUpdate.

Record AsyncTransportOptions `{Http} := {
  http2_only_ : bool;
  proxy_authorization_ : option HeaderValue;
}.

Module AsyncBuilder.
Section AsyncBuilder.
Context `{Http} `{UrlCrate} `{HttpDate} `{!ProxyCrates} `{!Dns.HostCrate} {SocketAddr : Type} `{!EqDecision SocketAddr}.
Context `{!TlsCrates} `{!AsyncTlsCrates} `{!TokioSemaphore} {E : Type}.
Abbreviation Builder := (ClientBuilder.t (SocketAddr := SocketAddr) (E := E) (T := AsyncTransportOptions)).
Import ClientBuilder.

Definition async_transport_default : AsyncTransportOptions :=
  {| http2_only_ := false; proxy_authorization_ := None |}.

(** ** Setters *)
Definition http2_only (v : bool) (b : Builder) : Builder := b{{b_transport_options -> http2_only_ := v}}.

Definition proxy_authorization (v : HeaderValue) (b : Builder) : Builder :=
  b{{b_transport_options -> proxy_authorization_ := Some (set_sensitive v)}}.

Definition try_proxy_authorization (source : BoxError) (v : str) (b : Builder) : result Builder Error.t :=
  let? v := parse_header_value source (lit "proxy-authorization") v in Ok (proxy_authorization v b).

Definition tls_version (v : TlsVersion) (b : Builder) : Builder :=
  b{{b_tls_options -> min_protocol_version := Some v}}{{b_tls_options -> max_protocol_version := Some v}}.
Definition tls_min_version (v : TlsVersion) (b : Builder) : Builder :=
  b{{b_tls_options -> min_protocol_version := Some v}}.
Definition tls_max_version (v : TlsVersion) (b : Builder) : Builder :=
  b{{b_tls_options -> max_protocol_version := Some v}}.
Definition clear_tls_version_bounds (b : Builder) : Builder :=
  b{{b_tls_options -> min_protocol_version := None}}{{b_tls_options -> max_protocol_version := None}}.
Definition tls_client_identity_pkcs12 (identity_der : list Z) (password : str) (b : Builder) : Builder :=
  b{{b_tls_options -> client_identity := Some (IdentityPkcs12 identity_der password)}}.

(** ** The client *)
Record BuiltClient := {
  built_client : Client (E := E);
  built_retry_budget : option RetryBudget.RetryBudgetPolicy;
  built_circuit_breaker : option CircuitBreaker.CircuitBreakerPolicy;
  built_adaptive_concurrency : option Adaptive.AdaptiveConcurrencyPolicy;
  built_rate_limiter : option RateLimit.RateLimiter;
  built_request_limiters : option AsyncLimiters.world;
  built_client_name : str;
  built_tls_backend : TlsBackend;
  built_transport : AsyncTls.TransportClient (SocketAddr := SocketAddr);
  built_metrics : Metrics.ClientMetrics;
  built_otel : Otel.OtelTelemetry;
}.

(** The user name and password of a URI are in its authority. *)
Definition has_credentials (uri : Uri) : bool :=
  match uri_authority uri with Some authority => existsb (Z.eqb (chr "@"%char)) authority | None => false end.

Definition exceeds (max : Z) (limit : option Z) : bool := match limit with Some limit => max <? limit | None => false end.

Definition check_proxy (b : Builder) : result unit Error.t :=
  match b_http_proxy b with
  | Some uri =>
    if has_credentials uri then
      Err (Error.InvalidProxyConfig (redact_uri_for_logs (uri_to_string uri))
        (lit "async http_proxy URI must not include credentials; use proxy_authorization(...) for HTTP proxy authentication"))
    else Ok tt
  | None =>
    if is_some (proxy_authorization_ (b_transport_options b)) then Err Error.ProxyAuthorizationRequiresHttpProxy else Ok tt
  end.

(** [rejects] is the error of building a native-tls connector. *)
Definition build (f : TlsCargoFeatures) (compression : Features) (otel_feature : bool)
    (rejects : AsyncTls.TlsConnectorBuilder -> option str) (MAX_PERMITS : Z) (now : Instant) (b : Builder)
    : result BuiltClient Error.t :=
  let? (dns_overrides, b) := validate b in
  let? _ := check_proxy b in
  let? _ :=
    if exceeds MAX_PERMITS (b_max_in_flight b) || exceeds MAX_PERMITS (b_max_in_flight_per_host b)
    then Err (Error.InvalidConcurrencyLimitConfig (b_max_in_flight b) (b_max_in_flight_per_host b)
      "concurrency limits must not exceed tokio::sync::Semaphore::MAX_PERMITS")
    else Ok tt in
  let? otel := try_enable_otel otel_feature (b_otel_enabled b) (b_client_name b) (b_otel_path_normalizer b) in
  let proxy_config :=
    (fun uri => {| proxy_uri := uri; authorization := proxy_authorization_ (b_transport_options b);
                   no_proxy_rules := b_no_proxy_rules b |}) <$> b_http_proxy b in
  let? transport :=
    AsyncTls.build_transport_client f rejects (ProxyConnector.new proxy_config (b_connect_timeout b) dns_overrides)
      (b_pool_idle_timeout b) (b_pool_max_idle_per_host b) (http2_only_ (b_transport_options b))
      (b_tls_backend b) (b_tls_options b) in
  let rate_limiter := RateLimit.new (b_global_rate_limit_policy b) (b_per_host_rate_limit_policy b) now in
  let request_limiters := AsyncLimiters.new (b_max_in_flight b) (b_max_in_flight_per_host b) in
  Ok {|
    built_client := {|
      Blocking.features := compression;
      tls_features := {| blocking_tls_rustls := false; blocking_tls_native := false |};
      Blocking.endpoint_selector := b_endpoint_selector b; Blocking.base_url := b_base_url b;
      Blocking.default_headers := b_default_headers b;
      Blocking.request_defaults := {|
        Execution.request_timeout := b_request_timeout b; Execution.total_timeout := b_total_timeout b;
        Execution.retry_policy := b_retry_policy b;
        Execution.max_response_body_bytes := b_max_response_body_bytes b;
        Execution.redirect_policy := b_redirect_policy b; Execution.status_policy := b_default_status_policy b |};
      Blocking.buffered_auto_accept_encoding := b_buffered_auto_accept_encoding b;
      Blocking.stream_auto_accept_encoding := b_stream_auto_accept_encoding b;
      Blocking.interceptors := b_interceptors b; Blocking.observers := b_observers b;
      has_rate_limiter := is_some rate_limiter; has_request_limiters := is_some request_limiters;
      has_circuit_breaker := is_some (b_circuit_breaker_policy b);
      has_adaptive_concurrency := is_some (b_adaptive_concurrency_policy b);
      has_retry_budget := is_some (b_retry_budget_policy b);
      Blocking.server_throttle_scope := b_server_throttle_scope b;
      Blocking.retry_eligibility := b_retry_eligibility b; Blocking.backoff_source := b_backoff_source b;
      proxy_config := proxy_config; has_proxy_agent := false;
      Blocking.connect_timeout := b_connect_timeout b;
      Blocking.stream_deadline_slack := b_stream_deadline_slack b |};
    built_retry_budget := b_retry_budget_policy b;
    built_circuit_breaker := b_circuit_breaker_policy b;
    built_adaptive_concurrency := b_adaptive_concurrency_policy b;
    built_rate_limiter := rate_limiter; built_request_limiters := request_limiters;
    built_client_name := b_client_name b; built_tls_backend := b_tls_backend b; built_transport := transport;
    built_metrics := Metrics.with_options (b_metrics_enabled b); built_otel := otel |}.

(** ** What [build] guarantees *)

(** The connector of a transport. *)
Definition connector_of (t : AsyncTls.TransportClient (SocketAddr := SocketAddr)) : ProxyConnector.t :=
  match t with AsyncTls.Rustls _ _ _ client | AsyncTls.Native _ client => AsyncTls.hc_connector client end.

Lemma build_transport_connector f rejects connector idle per_host h2 backend o t :
  AsyncTls.build_transport_client f rejects connector idle per_host h2 backend o = Ok t -> connector_of t = connector.
Proof.
  intros Ht. apply AsyncTls.transport_client_of in Ht. by destruct t; simpl in *; subst.
Qed.

(** The steps of a build that succeeds. *)
Lemma build_Ok f compression otel_feature rejects MAX_PERMITS now (b : Builder) c :
  build f compression otel_feature rejects MAX_PERMITS now b = Ok c ->
  exists dns headers,
    validated b /\ Dns.build (b_dns_overrides b) (is_some (b_http_proxy b)) = Ok dns /\
    default_headers_with_user_agent (b_client_name b) (b_default_headers b) = Ok headers /\
    check_proxy b = Ok tt /\
    exceeds MAX_PERMITS (b_max_in_flight b) = false /\ exceeds MAX_PERMITS (b_max_in_flight_per_host b) = false /\
    Blocking.request_defaults (built_client c) = request_defaults_of b /\
    Blocking.default_headers (built_client c) = headers /\
    proxy_config (built_client c) =
      (fun uri => {| proxy_uri := uri; authorization := proxy_authorization_ (b_transport_options b);
                     no_proxy_rules := b_no_proxy_rules b |}) <$> b_http_proxy b /\
    AsyncTls.build_transport_client f rejects
      (ProxyConnector.new (proxy_config (built_client c)) (b_connect_timeout b) dns) (b_pool_idle_timeout b)
      (b_pool_max_idle_per_host b) (http2_only_ (b_transport_options b)) (b_tls_backend b) (b_tls_options b)
      = Ok (built_transport c) /\
    built_request_limiters c = AsyncLimiters.new (b_max_in_flight b) (b_max_in_flight_per_host b) /\
    has_request_limiters (built_client c) = is_some (built_request_limiters c) /\
    built_rate_limiter c = RateLimit.new (b_global_rate_limit_policy b) (b_per_host_rate_limit_policy b) now /\
    has_rate_limiter (built_client c) = is_some (built_rate_limiter c) /\
    built_circuit_breaker c = b_circuit_breaker_policy b /\ built_retry_budget c = b_retry_budget_policy b /\
    built_adaptive_concurrency c = b_adaptive_concurrency_policy b /\
    has_circuit_breaker (built_client c) = is_some (built_circuit_breaker c) /\
    has_retry_budget (built_client c) = is_some (built_retry_budget c) /\
    has_adaptive_concurrency (built_client c) = is_some (built_adaptive_concurrency c).
Proof.
  intros ([dns b'] & Hv & Hb)%result_bind_Ok_inv. apply validate_Ok in Hv as (Hv & Hdns & headers & Hh & ->).
  apply result_bind_Ok_inv in Hb as ([] & Hproxy & Hb). apply result_bind_Ok_inv in Hb as ([] & Hlim & Hb).
  apply result_bind_Ok_inv in Hb as ([] & _ & Hb). apply result_bind_Ok_inv in Hb as (transport & Ht & Hb).
  injection Hb as <-. exists dns, headers. destruct (_ || _) eqn:Hex in Hlim; [done|].
  apply orb_false_iff in Hex as [Hex1 Hex2]. destruct b. simpl in *. split_and!; done.
Qed.

End AsyncBuilder.
End AsyncBuilder.

(** ** Properties *)
Section BuiltProperties.
Context `{HttpLaws} `{UrlCrate} `{HttpDate} `{Codecs} `{!ProxyCrates} `{!UriParts} `{!Dns.HostCrate}.
Context {SocketAddr : Type} `{!EqDecision SocketAddr} `{!TlsCrates} `{!AsyncTlsCrates} `{!TokioSemaphore} {E : Type}.
Import ClientBuilder AsyncBuilder.
Abbreviation Builder := (ClientBuilder.t (SocketAddr := SocketAddr) (E := E) (T := AsyncTransportOptions)).

(** The policies a rate limiter works by. *)
Definition rate_policies (limiter : option RateLimit.RateLimiter) : option RateLimit.RateLimitPolicy * option RateLimit.RateLimitPolicy :=
  match limiter with
  | Some rl => (RateLimit.policy <$> RateLimit.global rl, RateLimit.per_host_policy rl)
  | None => (None, None)
  end.

Lemma rate_policies_new global per_host now :
  rate_policies (RateLimit.new global per_host now) = (global, per_host).
Proof. by destruct global, per_host. Qed.

(** C18: What [build] guarantees of an async client: request limits are positive and
    within what tokio's semaphores hold; the request limiters, the rate limiter, the
    retry budget, the circuit breaker and the adaptive controller are those that
    were configured, the client uses each exactly when it was configured, and the
    policy of each was validated; credentials are set only with a proxy and are not
    part of its URI; the transport connects by the proxy rules of the client, never
    mixing a proxy with DNS overrides; and every request that is prepared carries a
    user agent and has options for which the guarantees of the request loop hold. *)
Theorem async_built_client_sound f compression otel_feature rejects MAX_PERMITS now (b : Builder) c :
  build f compression otel_feature rejects MAX_PERMITS now b = Ok c ->
  (forall n, b_max_in_flight b = Some n \/ b_max_in_flight_per_host b = Some n -> n <> 0 /\ n <= MAX_PERMITS) /\
  built_request_limiters c = AsyncLimiters.new (b_max_in_flight b) (b_max_in_flight_per_host b) /\
  has_request_limiters (built_client c) = is_some (built_request_limiters c) /\
  (rate_policies (built_rate_limiter c) = (b_global_rate_limit_policy b, b_per_host_rate_limit_policy b) /\
   has_rate_limiter (built_client c) = is_some (built_rate_limiter c) /\
   validate_opt RateLimit.validate (rate_policies (built_rate_limiter c)).1 = Ok tt /\
   validate_opt RateLimit.validate (rate_policies (built_rate_limiter c)).2 = Ok tt) /\
  (built_retry_budget c = b_retry_budget_policy b /\ validate_opt RetryBudget.validate (built_retry_budget c) = Ok tt) /\
  (built_circuit_breaker c = b_circuit_breaker_policy b /\ validate_opt CircuitBreaker.validate (built_circuit_breaker c) = Ok tt) /\
  (built_adaptive_concurrency c = b_adaptive_concurrency_policy b /\ validate_opt Adaptive.validate (built_adaptive_concurrency c) = Ok tt) /\
  has_retry_budget (built_client c) = is_some (built_retry_budget c) /\
  has_circuit_breaker (built_client c) = is_some (built_circuit_breaker c) /\
  has_adaptive_concurrency (built_client c) = is_some (built_adaptive_concurrency c) /\
  hm_contains_key (Blocking.default_headers (built_client c)) (header_name "user-agent") = true /\
  (is_some (proxy_authorization_ (b_transport_options b)) = true -> is_some (proxy_config (built_client c)) = true) /\
  (forall config, proxy_config (built_client c) = Some config -> has_credentials (proxy_uri _ config) = false) /\
  (exists dns, connector_of (built_transport c) =
     ProxyConnector.new (proxy_config (built_client c)) (b_connect_timeout b) dns /\
     (is_some (proxy_config (built_client c)) = true -> Dns.overrides dns = ∅)) /\
  (forall Stream method path headers (body : option (RequestBody Stream)) overrides auto_accept input,
     typed_retry (default (b_retry_policy b) (o_retry_policy overrides)) ->
     typed_redirects (default (b_redirect_policy b) (o_redirect_policy overrides)) ->
     prepare (built_client c) method path headers body overrides auto_accept = Ok input ->
     hm_contains_key (in_merged_headers _ input) (header_name "user-agent") = true /\
     options_ok (in_execution_options _ input) /\
     Execution.request_timeout (in_execution_options _ input) <> 0 /\
     Execution.total_timeout (in_execution_options _ input) <> Some 0).
Proof.
  intros (dns & hs & Hv & Hdns & Hh & Hcheck & Hex1 & Hex2 & Hdef & Hdh & Hpc & Ht & Hrl & Hhrl & Hrate & Hhrate & Hcb & Hrb
    & Had & Hhcb & Hhrb & Hhad)%build_Ok. rewrite Hrb, Hcb, Had, Hrate, rate_policies_new in *.
  assert (is_some (proxy_config (built_client c)) = is_some (b_http_proxy b)) as Hsome by by rewrite Hpc, is_some_fmap.
  pose proof (new_user_agent _ _ _ Hh _) as Hua. unfold check_proxy in Hcheck. pose proof Hv as Hvalid.
  destruct Hv as [_ _ _ [Hm1 Hm2] _ Hbudget Hcirc Hadapt [Hglobal Hhost]]. rewrite Hsome, Hdh. split_and!; try done.
  - unfold exceeds in *. intros n [Hn|Hn]; rewrite Hn in *; zbool; split; congruence || lia.
  - intros Ha. destruct (b_http_proxy b); [done|]. by rewrite Ha in Hcheck.
  - intros config Hc. rewrite Hpc in Hc. apply fmap_Some in Hc as (uri & Hu & ->). simpl. rewrite Hu in Hcheck.
    by destruct (has_credentials uri).
  - exists dns. split; [by apply build_transport_connector in Ht|]. intros Hs.
    by apply (overrides_exclude_proxy _ _ _ Hdns).
  - intros Stream method path headers body overrides auto_accept input Ht3 Ht4 Hp.
    split; [|by eapply (prepared_options_valid b)].
    destruct (prepared_header _ _ _ _ _ _ _ _ _ _ _ _ (header_name "user-agent") Hp) as [Hget _];
      [by apply header_names_distinct..|]. rewrite Hdh in Hget. unfold hm_contains_key in Hua |- *. rewrite Hget.
    by destruct (hm_get_all headers _).
Qed.

(** C35: The proxy's credentials go to the proxy and to nothing else: whatever
    headers the caller and the interceptors set, a request of a built async client
    carries a Proxy-Authorization header only when its connection leads to the
    configured proxy, which forwards it, and then exactly the configured one; it
    carries none when the connection leads to the origin, directly or through a
    tunnel. A plain http request that the proxy forwards does carry it. *)
Theorem proxy_credentials_reach_only_proxy f compression otel_feature rejects MAX_PERMITS now (b : Builder) c uri headers :
  build f compression otel_feature rejects MAX_PERMITS now b = Ok c ->
  let sent := hm_get_all (Async.wire_headers (built_client c) uri headers) (header_name "proxy-authorization") in
  let connection := ProxyConnector.call (connector_of (built_transport c)) uri in
  (forall value, value ∈ sent -> exists config,
     proxy_config (built_client c) = Some config /\ authorization _ config = Some value /\
     connection = ProxyConnector.Direct (proxy_uri _ config) true) /\
  (ProxyConnector.is_proxied connection = true ->
   (uri_scheme_str uri ≫= fun scheme => if eq_ignore_ascii_case scheme (lit "http") then Some tt else None) = Some tt ->
   sent = option_list (proxy_authorization_ (b_transport_options b))).
Proof.
  intros (dns & hs & _ & _ & _ & _ & _ & _ & _ & _ & Hpc & Ht & _)%build_Ok.
  apply build_transport_connector in Ht. cbn zeta. rewrite Ht.
  destruct (credentials_follow_connection (built_client c) (b_connect_timeout b) dns uri headers) as [H1' H2'].
  split; [exact H1'|]. intros Hp Hs. rewrite (H2' Hp Hs).
  rewrite Hpc in Hp |- *. by destruct (b_http_proxy b).
Qed.

End BuiltProperties.

(** ** A client with a proxy *)
Module AsyncBuilderDemo.
#[export] Existing Instance ref_http.
#[export] Existing Instance ref_http_laws.
#[export] Existing Instance ref_url.
#[export] Existing Instance ExecutionDemo.no_dates.
#[export] Existing Instance EncodingDemo.codecs.
#[export] Existing Instance ProxyDemo.crates.
#[export] Existing Instance DnsDemo.plain_hosts.
#[export] Existing Instance TlsDemo.crates.
#[export] Existing Instance AsyncTlsDemo.async_crates.
#[export] Existing Instance SemaphoreDemo.fifo.
#[export] Instance uri_parts : UriParts := { uri_with_authority u _ := Some u }.
Import ClientBuilder AsyncBuilder.

Definition a_uri (s host : string) : Uri := default (ExecutionDemo.demo_uri s host) (uri_parse (lit s)).
Definition secret : HeaderValue := {| RefHttp.text := lit "Basic c2VjcmV0"; RefHttp.sensitive := false |}.

Definition proxied_builder : t (SocketAddr := Z) (E := unit) (T := AsyncTransportOptions) :=
  proxy_authorization secret
    (http_proxy (a_uri "http://proxy.example:8080" "proxy.example")
      (max_in_flight (Some 4)
        (new (lit "http://a.example") async_transport_default RustlsRing))).

Abbreviation async_built :=
  (build TlsDemo.features EncodingDemo.features false (fun _ => None) (2 ^ 61 - 1) 0 proxied_builder).
Abbreviation origin := (a_uri "http://b.example/" "b.example").
Definition set_by_caller : HeaderMap :=
  [(lit "proxy-authorization", {| RefHttp.text := lit "mine"; RefHttp.sensitive := false |})].

Definition builds : bool := match async_built with Ok _ => true | Err _ => false end.
Definition forwarded : bool :=
  match async_built with
  | Ok c => ProxyConnector.is_proxied (ProxyConnector.call (connector_of (built_transport c)) origin)
  | Err _ => false
  end.
End AsyncBuilderDemo.
Import AsyncBuilderDemo.

Lemma async_built_client_sound_witness :
  match async_built with
  | Ok c => hm_contains_key (Blocking.default_headers (AsyncBuilder.built_client c)) (header_name "user-agent") = true
  | Err _ => False
  end.
Proof.
  assert (builds = true) as Hok by (vm_compute; reflexivity). unfold builds in Hok.
  destruct async_built as [c|e] eqn:Hb; [|discriminate Hok].
  destruct (async_built_client_sound _ _ _ _ _ _ _ c Hb) as (_ & _ & _ & _ & _ & _ & _ & _ & _ & _ & Hua & _).
  exact Hua.
Defined.

(** The credentials a caller set are replaced by those of the proxy that forwards. *)
Lemma proxy_credentials_reach_only_proxy_witness :
  match async_built with
  | Ok c =>
    hm_get_all (Async.wire_headers (AsyncBuilder.built_client c) origin set_by_caller) (header_name "proxy-authorization")
      = [set_sensitive secret]
  | Err _ => False
  end.
Proof.
  assert (forwarded = true) as Hok by (vm_compute; reflexivity). unfold forwarded in Hok.
  destruct async_built as [c|e] eqn:Hb; [|discriminate Hok].
  refine (proj2 (proxy_credentials_reach_only_proxy _ _ _ _ _ _ _ c origin set_by_caller Hb) Hok _).
  vm_compute. reflexivity.
Defined.
