(* ===== verification/AsyncRequest.v ===== *)
(** * Building an async request (async_client/request.rs)

    The builder of a request of the async client.  Its state is the record of
    [RequestBuilder]; a body may also be a stream of chunks, and a reader is sent as the
    stream that tokio-util makes of it ([reader_stream]).  The methods that send are
    futures. *)
From coqutil Require Import Datatypes.RecordSetters.
From Stdlib Require Import Ascii String.
From S2P Require Import Prelude Float64 Text HttpApi UriText Errors Redaction UriResolve Redirect Proxy.
From S2P Require Import Headers ContentEncoding Timing Responses Retry RetryBudget RateLimit Execution Limiters.
From S2P Require Import Metrics Lifecycle Program Blocking BlockingFacts BlockingTheorems BlockingStream.
From S2P Require Import BlockingDemo RequestBuilder Async AsyncFacts AsyncTheorems AsyncStream AsyncStreamTheorems.
Import DoubleBraceUpdate.

Module AsyncRequestBuilder.
Section AsyncRequestBuilder.
Context `{Http} `{UrlCrate} `{HttpDate} `{Codecs} `{!ProxyCrates} `{!HeaderValues} `{!FormUrlencoded}.
Context {E C A P Reader Stream Timer Body : Type} `{!Surroundings E C A P} `{!Tokio E A P Stream Body}.
Context `{!HyperBody E Timer Body} (reader_stream : Reader -> Stream).
Abbreviation Prog := (M E C A P).
Abbreviation t := (RequestBuilder.t (E := E) (Stream := Stream)).
Abbreviation CONTENT_LENGTH := RequestBuilder.CONTENT_LENGTH.
Import RequestBuilder(r_client, r_method, r_path, r_query, r_headers, r_body, helper_content_length, execution_overrides).

Definition new (client : Client) (method : Method) (path : str) : t :=
  {| r_client := client; r_method := method; r_path := path; r_query := []; r_headers := hm_new;
     r_body := None; helper_content_length := false; execution_overrides := RequestBuilder.no_overrides |}.

Definition header (name : HeaderName) (value : HeaderValue) (b : t) : t :=
  let value := mark_sensitive_header_value name value in
  let b := if bool_decide (name = CONTENT_LENGTH) then b{{helper_content_length := false}} else b in
  b{{r_headers := hm_insert (r_headers b) name value}}.

Definition try_header (source : BoxError) (name value : str) (b : t) : result t Error.t :=
  let? name := parse_header_name source name in
  let? value := parse_header_value source (header_name_as_str name) value in
  Ok (header name value b).

Definition idempotency_key (source : BoxError) (key : str) (b : t) : result t Error.t :=
  try_header source (lit IDEMPOTENCY_KEY_HEADER) key b.

Definition query_pair (name value : str) (b : t) : t := b{{r_query := append_pair (r_query b) name value}}.

Definition query_pairs (pairs : list (str * str)) (b : t) : t :=
  b{{r_query := fold_left (fun query '(name, value) => append_pair query name value) pairs (r_query b)}}.

Definition query {T} `{!Serialize T} (params : T) (b : t) : result t Error.t :=
  let? query := result_map_err Error.SerializeQuery (serialize_query params (r_query b)) in
  Ok b{{r_query := query}}.

Definition clear_content_length (b : t) : t :=
  b{{r_headers := hm_remove (r_headers b) CONTENT_LENGTH; helper_content_length := false}}.

Definition body (bytes : list Z) (b : t) : t := (clear_content_length b){{r_body := Some (Buffered bytes)}}.

Definition body_stream (stream : Stream) (b : t) : t :=
  let b := if helper_content_length b then clear_content_length b else b in
  b{{r_body := Some (Streaming stream)}}.

Definition body_reader (reader : Reader) (b : t) : t := body_stream (reader_stream reader) b.

Definition body_reader_with_length (reader : Reader) (content_length : Z) (b : t) : t :=
  let b := body_reader reader b in
  b{{r_headers := hm_insert (r_headers b) CONTENT_LENGTH (header_value_from_u64 content_length);
     helper_content_length := true}}.

Definition json {T} `{!Serialize T} (payload : T) (b : t) : result t Error.t :=
  let? bytes := result_map_err Error.SerializeJson (to_vec payload) in
  Ok (header (header_name "content-type") (header_value_from_static "application/json") (body bytes b)).

Definition form {T} `{!Serialize T} (payload : T) (b : t) : result t Error.t :=
  let? encoded := result_map_err Error.SerializeForm (urlencoded_to_string payload) in
  Ok (header (header_name "content-type") (header_value_from_static "application/x-www-form-urlencoded")
        (body (encode_utf8 encoded) b)).

(** ** Overrides *)
Definition request_timeout (v : Duration) (b : t) : t := b{{execution_overrides -> o_request_timeout := Some v}}.
Definition total_timeout (v : option Duration) (b : t) : t := b{{execution_overrides -> o_total_timeout := Some v}}.
Definition max_response_body_bytes (v : Z) (b : t) : t :=
  b{{execution_overrides -> o_max_response_body_bytes := Some v}}.
Definition retry_policy (v : RetryPolicy) (b : t) : t := b{{execution_overrides -> o_retry_policy := Some v}}.
Definition redirect_policy (v : RedirectPolicy) (b : t) : t := b{{execution_overrides -> o_redirect_policy := Some v}}.
Definition status_policy (v : StatusPolicy) (b : t) : t := b{{execution_overrides -> o_status_policy := Some v}}.
Definition auto_accept_encoding (v : bool) (b : t) : t := b{{execution_overrides -> o_auto_accept_encoding := Some v}}.

(** ** Sending *)
Definition send (fuel rate_fuel : nat) (b : t) : Prog (polled (result Response Error.t)) :=
  Async.send_request (r_client b) fuel rate_fuel (r_method b) (append_query (r_path b) (r_query b))
    (r_headers b) (r_body b) (execution_overrides b).

Definition send_stream (fuel rate_fuel : nat) (b : t)
    : Prog (polled (result (AsyncStream.t (C := C) (A := A) (P := P) (Timer := Timer) (Body := Body)) Error.t)) :=
  Async.and_then
    (Async.send_request_stream (r_client b) fuel rate_fuel (r_method b) (append_query (r_path b) (r_query b))
       (r_headers b) (r_body b) (execution_overrides b))
    (fun r => Async.ready match r with Ok response => Ok (AsyncStream.new response) | Err error => Err error end).

Definition download_with (use : AsyncStream.t -> Prog (polled (result Z Error.t))) (fuel rate_fuel : nat) (b : t)
    : Prog (polled (result Z Error.t)) :=
  Async.and_then (send_stream fuel rate_fuel b)
    (fun r => match r with Ok stream => use stream | Err error => Async.ready (Err error) end).

Definition download_to_writer (fuel rate_fuel chunks polls frames : nat) (writer : AsyncWriter E) (b : t)
    : Prog (polled (result Z Error.t)) :=
  download_with (AsyncStream.copy_to_writer chunks polls frames writer) fuel rate_fuel b.

Definition download_to_writer_limited (fuel rate_fuel chunks polls frames : nat) (writer : AsyncWriter E) (max_bytes : Z)
    (b : t) : Prog (polled (result Z Error.t)) :=
  download_with (AsyncStream.copy_to_writer_limited chunks polls frames writer max_bytes) fuel rate_fuel b.

Definition send_json {T} `{!Serde T} (fuel rate_fuel : nat) (b : t) : Prog (polled (result T Error.t)) :=
  AsyncStream.and_then Responses.json (send fuel rate_fuel b).

(** ** Sequences of calls *)
Inductive call :=
| CallHeader (name : HeaderName) (value : HeaderValue)
| CallTryHeader (source : BoxError) (name value : str)
| CallIdempotencyKey (source : BoxError) (key : str)
| CallQueryPair (name value : str)
| CallQueryPairs (pairs : list (str * str))
| CallQuery (T : Type) (ser : Serialize T) (params : T)
| CallBody (bytes : list Z)
| CallBodyStream (stream : Stream)
| CallBodyReader (reader : Reader)
| CallBodyReaderWithLength (reader : Reader) (content_length : Z)
| CallJson (T : Type) (ser : Serialize T) (payload : T)
| CallForm (T : Type) (ser : Serialize T) (payload : T)
| CallOverride (set : RequestExecutionOverrides -> RequestExecutionOverrides).

Definition apply_call (c : call) (b : t) : result t Error.t :=
  match c with
  | CallHeader name value => Ok (header name value b)
  | CallTryHeader source name value => try_header source name value b
  | CallIdempotencyKey source key => idempotency_key source key b
  | CallQueryPair name value => Ok (query_pair name value b)
  | CallQueryPairs pairs => Ok (query_pairs pairs b)
  | CallQuery _ ser params => query params b
  | CallBody bytes => Ok (body bytes b)
  | CallBodyStream stream => Ok (body_stream stream b)
  | CallBodyReader reader => Ok (body_reader reader b)
  | CallBodyReaderWithLength reader n => Ok (body_reader_with_length reader n b)
  | CallJson _ ser payload => json payload b
  | CallForm _ ser payload => form payload b
  | CallOverride set => Ok b{{execution_overrides := set (execution_overrides b)}}
  end.

Fixpoint apply_calls (calls : list call) (b : t) : result t Error.t :=
  match calls with
  | [] => Ok b
  | c :: calls => let? b := apply_call c b in apply_calls calls b
  end.

(** The call of the blocking builder with the same effect. *)
Definition as_blocking (c : call) : RequestBuilder.call (Stream := Stream) :=
  match c with
  | CallHeader name value => RequestBuilder.CallHeader name value
  | CallTryHeader source name value => RequestBuilder.CallTryHeader source name value
  | CallIdempotencyKey source key => RequestBuilder.CallIdempotencyKey source key
  | CallQueryPair name value => RequestBuilder.CallQueryPair name value
  | CallQueryPairs pairs => RequestBuilder.CallQueryPairs pairs
  | CallQuery T ser params => RequestBuilder.CallQuery T ser params
  | CallBody bytes => RequestBuilder.CallBody bytes
  | CallBodyStream stream => RequestBuilder.CallBodyReader stream
  | CallBodyReader reader => RequestBuilder.CallBodyReader (reader_stream reader)
  | CallBodyReaderWithLength reader n => RequestBuilder.CallBodyReaderWithLength (reader_stream reader) n
  | CallJson T ser payload => RequestBuilder.CallJson T ser payload
  | CallForm T ser payload => RequestBuilder.CallForm T ser payload
  | CallOverride set => RequestBuilder.CallOverride set
  end.

(** Both builders make the same request of the same calls, a stream of chunks in the
    place of a reader. *)
Lemma async_builder_agrees calls client method path :
  apply_calls calls (new client method path) =
  RequestBuilder.apply_calls (as_blocking <$> calls) (RequestBuilder.new client method path).
Proof.
  change (new client method path) with (RequestBuilder.new (Stream := Stream) client method path).
  generalize (RequestBuilder.new (Stream := Stream) client method path). induction calls as [|c calls IH]; intros b; [done|].
  simpl. assert (apply_call c b = RequestBuilder.apply_call (as_blocking c) b) as -> by by destruct c.
  destruct (RequestBuilder.apply_call (as_blocking c) b); [apply IH|done].
Qed.

End AsyncRequestBuilder.
End AsyncRequestBuilder.

(** ** Requests of the async builder *)
Section AsyncRequests.
Context `{HttpLaws} `{UrlCrate} `{HttpDate} `{Codecs} `{!ProxyCrates} `{!HeaderValues} `{!HeaderValuesLaws} `{!FormUrlencoded}.
Context {E C A P Reader Stream Timer Body : Type} `{!Surroundings E C A P} `{!Tokio E A P Stream Body}.
Context `{!HyperBody E Timer Body} `{!EqDecision C} `{!EqDecision A} `{!EqDecision P} (reader_stream : Reader -> Stream).
Import AsyncRequestBuilder.
Import RequestBuilder(r_client, r_method, r_path, r_query, r_headers, r_body, execution_overrides, declared_length,
  framing_left_alone, length_in_range, CONTENT_LENGTH).
Abbreviation t := (RequestBuilder.t (E := E) (Stream := Stream)).

(** The guarantee of [RequestBuilder] for the async builder. *)
Lemma async_framing_sound (client : Client (E := E)) method path calls (b : t) auto input method' uri :
  apply_calls reader_stream calls (new client method path) = Ok b ->
  framing_left_alone (as_blocking reader_stream <$> calls) = true ->
  Forall length_in_range (as_blocking reader_stream <$> calls) ->
  hm_get_all (Blocking.default_headers client) (header_name "transfer-encoding") = [] ->
  prepare client (r_method b) (append_query (r_path b) (r_query b)) (r_headers b) (r_body b)
    (execution_overrides b) auto = Ok input ->
  hm_get_all (in_merged_headers _ input) CONTENT_LENGTH =
    option_list (header_value_from_u64 <$> declared_length (as_blocking reader_stream <$> calls)) /\
  validate_request_framing_headers (in_merged_headers _ input) (known_length (in_body _ input)) method' uri = Ok tt.
Proof.
  rewrite async_builder_agrees. intros Hb Hh Hr Hd Hp.
  apply (framed_request_sound client (declared_length (as_blocking reader_stream <$> calls)) b auto); [|..|exact Hd|exact Hp].
  - by eapply (apply_calls_framed _ None _ _ Hh (new_framed _ _ _)).
  - intros n. by apply (declared_in_range _ None n).
Qed.

(** A download is a streamed request whose stream is copied. *)
Lemma download_is_session u fuel rate_fuel chunks polls frames (b : t) s r s' use :
  (forall st, consume_async u chunks polls frames st = (_ ← use st; mret tt)) ->
  download_with (Timer := Timer) (Body := Body) use fuel rate_fuel b s = Some (r, s') ->
  async_stream_session (r_client b) fuel rate_fuel chunks polls frames (r_method b) (append_query (r_path b) (r_query b))
    (r_headers b) (r_body b) (execution_overrides b) u s = Some (tt, s').
Proof.
  unfold download_with, send_stream, Async.and_then, async_stream_session, mbind, program_bind. intros Huse.
  destruct (Async.send_request_stream _ _ _ _ _ _ _ _ s) as [[[[st|e]|] s1]|]; simpl; try done; try (by intros [= <- <-]).
  rewrite Huse. unfold mbind, program_bind. intros ->. done.
Qed.

(** Downloads leave nothing behind: whatever becomes of the request and of the copy,
    errors and drops included, its attempts and permits have been given back and it is
    accounted for. *)
Lemma async_download_settles fuel rate_fuel chunks polls frames (writer : AsyncWriter E) max_bytes (b : t) s r s' c a p ps cs :
  (download_to_writer (Timer := Timer) (Body := Body) fuel rate_fuel chunks polls frames writer b s = Some (r, s') \/
   download_to_writer_limited (Timer := Timer) (Body := Body) fuel rate_fuel chunks polls frames writer max_bytes b s
     = Some (r, s')) ->
  rtc Metrics.step (ledger (metrics s) ps cs) (ledger (metrics s') ps cs) /\
  added (circuit_began c) s s' = added (circuit_ended c) s s' /\
  added (adaptive_began a) s s' = added (adaptive_ended a) s s' /\
  added (permit_taken p) s s' = added (permit_dropped p) s s'.
Proof.
  intros [Hd|Hd].
  - apply (download_is_session (AsyncCopyTo writer) _ _ chunks polls frames) in Hd; [|done].
    eapply session_settles; [|exact Hd]. done.
  - apply (download_is_session (AsyncCopyToLimited writer max_bytes) _ _ chunks polls frames) in Hd; [|done].
    eapply session_settles; [|exact Hd]. done.
Qed.

End AsyncRequests.
