(* ===== verification/AsyncUpload.v ===== *)
(** * Resumable uploads with an async backend (upload/asynchronous.rs, and
    [read_chunk_async] of upload/session.rs)

    The async driver awaits its source, its backend and its pauses, and can be dropped
    at each of them; the session is that of [Upload].  A source yields what it has ready
    and may stall, at which the caller gives up.  The theorem is a simulation: an async
    upload that is not dropped is an upload of the blocking driver, with the same
    answers of the backend. *)
From S2P Require Import Prelude Float64 Text HttpApi Errors Timing Retry Upload Async.

Module AsyncUpload.
Import Upload.

(** An event that arrives, or a wait during which the future is dropped. *)
Inductive source_event := Arrives (e : read_event) | Stalls.

Class AsyncUploadBackend (W E : Type) := {
  create_upload_async : aop W (result str E);
  upload_part_async : str -> Z -> list Z -> aop W (result UploadedPart E);
  complete_upload_async : str -> list UploadedPart -> aop W (result unit E);
  abort_upload_async : str -> aop W (result unit E);
}.

Class AsyncRuntime (W : Type) := {
  async_random_range : W -> sampler;
  tokio_sleep_for : Duration -> aop W unit;
}.

(** [take(limit)] and its [read_to_end]: the answer, the buffer, what is left of the
    limit and the reader. *)
Fixpoint read_to_end (reader : list source_event) (limit : Z) (buffer : list Z)
    : polled (result unit BoxError) * list Z * Z * list source_event :=
  if limit <=? 0 then (Ready (Ok tt), buffer, limit, reader)
  else match reader with
  | [] => (Ready (Ok tt), buffer, limit, [])
  | Arrives (Byte b) :: reader => read_to_end reader (limit - 1) (buffer ++ [b])
  | Arrives (Fault e) :: reader => (Ready (Err e), buffer, limit, reader)
  | Stalls :: reader => (Dropped, buffer, limit, reader)
  end.

(** The loop around it; each turn but the last consumes a failure. *)
Fixpoint read_turns (fuel : nat) (reader : list source_event) (limit : Z) (buffer : list Z)
    : option (polled (result (list Z) BoxError) * list source_event) :=
  match fuel with
  | O => None
  | S fuel =>
    let '(answer, buffer, limit, reader) := read_to_end reader limit buffer in
    match answer with
    | Dropped => Some (Dropped, reader)
    | Ready (Ok _) => Some (Ready (Ok buffer), reader)
    | Ready (Err error) =>
      if is_interrupted error then read_turns fuel reader limit buffer else Some (Ready (Err error), reader)
    end
  end.

Definition read_chunk_async (reader : list source_event) (part_size : Z)
    : option (polled (result (list Z) BoxError) * list source_event) :=
  read_turns (S (length reader)) reader part_size [].

Section Driver.
Context `{Digests} {W E : Type} `{!AsyncUploadBackend W E} `{!AsyncRuntime W}.

(** An await: the rest of the future, or its end. *)
Definition await_then {T U} (op : aop W T) (w : W) (k : T -> W -> option (polled U * W)) : option (polled U * W) :=
  match op w with (Some a, w) => k a w | (None, w) => Some (Dropped, w) end.

Fixpoint part_attempts_async (fuel : nat) (s : ResumableUploadSession) (plan : UploadPartPlan) (attempt : Z) (w : W)
    : option (polled (result UploadedPart (ResumableUploadError E)) * W) :=
  match fuel with
  | O => None
  | S fuel =>
    await_then (upload_part_async (upload_id (checkpoint s)) (plan_part_number plan) (chunk plan)) w (fun r w =>
      match r with
      | Ok part => Some (Ready (Ok part), w)
      | Err source =>
        match record_failure (async_random_range w) s plan source attempt with
        | (Err e, _) => Some (Ready (Err e), w)
        | (Ok delay, attempt) =>
          if duration_is_zero delay then part_attempts_async fuel s plan attempt w
          else await_then (tokio_sleep_for delay) w (fun _ w => part_attempts_async fuel s plan attempt w)
        end
      end)
  end.

Definition upload_part_with_retries_async (s : ResumableUploadSession) (plan : UploadPartPlan) (w : W)
    : option (polled (result UploadedPart (ResumableUploadError E)) * W) :=
  part_attempts_async (Z.to_nat (Z.max 1 (max_attempts (options s)))) s plan 1 w.

(** The loop of the inner future, with the session it leaves. *)
Fixpoint upload_loop_async (fuel : nat) (s : ResumableUploadSession) (reader : list source_event) (w : W)
    : option (polled (result unit (ResumableUploadError E) * ResumableUploadSession) * W) :=
  match fuel with
  | O => None
  | S fuel =>
    match read_chunk_async reader (part_size (options s)) with
    | None => None
    | Some (Dropped, _) => Some (Dropped, w)
    | Some (Ready (Err source), _) => Some (Ready (Err (source_read_error s source), s), w)
    | Some (Ready (Ok bytes), reader) =>
      match next_chunk bytes s with
      | (Err e, s) => Some (Ready (Err e, s), w)
      | (Ok Finish, s) => Some (Ready (Ok tt, s), w)
      | (Ok Skip, s) => upload_loop_async fuel s reader w
      | (Ok (Upload plan), s) =>
        match upload_part_with_retries_async s plan w with
        | None => None
        | Some (Dropped, w) => Some (Dropped, w)
        | Some (Ready (Err e), w) => Some (Ready (Err e, s), w)
        | Some (Ready (Ok uploaded), w) =>
          match accept_uploaded_part plan uploaded s with
          | (Err e, s) => Some (Ready (Err e, s), w)
          | (Ok _, s) => upload_loop_async fuel s reader w
          end
        end
      end
    end
  end.

Definition abort_error_if_configured_async (o : ResumableUploadOptions) (id : str) (error : ResumableUploadError E)
    (w : W) : option (polled (ResumableUploadError E) * W) :=
  if abort_on_error o
  then await_then (abort_upload_async id) w (fun r w =>
         Some (Ready match r with Err source => AbortFailed id error source | Ok _ => error end, w))
  else Some (Ready error, w).

(** The end of the inner future: completing the upload. *)
Definition complete_session_async (s : ResumableUploadSession) (w : W)
    : option (polled (result (list UploadedPart) (ResumableUploadError E)) * W) :=
  match ordered_completed_parts s with
  | Err e => Some (Ready (Err e), w)
  | Ok parts =>
    await_then (complete_upload_async (upload_id (checkpoint s)) parts) w (fun r w =>
      Some (Ready (let? _ := result_map_err (complete_upload_failed s) r in Ok parts), w))
  end.

Definition conclude_async (o : ResumableUploadOptions) (s : ResumableUploadSession)
    (result : result (list UploadedPart) (ResumableUploadError E)) (w : W)
    : option (polled (Prelude.result ResumableUploadResult (ResumableUploadError E)) * W) :=
  match result with
  | Ok parts => Some (Ready (Ok (finish s parts)), w)
  | Err error =>
    match abort_error_if_configured_async o (upload_id (checkpoint s)) error w with
    | None => None
    | Some (Dropped, w) => Some (Dropped, w)
    | Some (Ready error, w) => Some (Ready (Err error), w)
    end
  end.

Definition upload_with_checkpoint_async (o : ResumableUploadOptions) (reader : list source_event)
    (c : ResumableUploadCheckpoint) (resumed : bool) (w : W)
    : option (polled (result ResumableUploadResult (ResumableUploadError E)) * W) :=
  match session_new o c resumed with
  | Err e => Some (Ready (Err e), w)
  | Ok s =>
    match upload_loop_async (S (length reader)) s reader w with
    | None => None
    | Some (Dropped, w) => Some (Dropped, w)
    | Some (Ready (Err e, s), w) => conclude_async o s (Err e) w
    | Some (Ready (Ok _, s), w) =>
      match complete_session_async s w with
      | None => None
      | Some (Dropped, w) => Some (Dropped, w)
      | Some (Ready r, w) => conclude_async o s r w
      end
    end
  end.

Definition upload_async (o : ResumableUploadOptions) (reader : list source_event) (w : W)
    : option (polled (result ResumableUploadResult (ResumableUploadError E)) * W) :=
  match validate o with
  | Err e => Some (Ready (Err e), w)
  | Ok _ =>
    await_then create_upload_async w (fun r w =>
      match r with
      | Err source => Some (Ready (Err (CreateFailed source)), w)
      | Ok id =>
        upload_with_checkpoint_async o reader
          (set_algorithm (checkpoint_new id (part_size o)) (part_checksum_algorithm o)) false w
      end)
  end.

Definition resume_async (o : ResumableUploadOptions) (reader : list source_event) (c : ResumableUploadCheckpoint) (w : W)
    : option (polled (result ResumableUploadResult (ResumableUploadError E)) * W) :=
  match validate o with
  | Err e => Some (Ready (Err e), w)
  | Ok _ => upload_with_checkpoint_async o reader c true w
  end.

End Driver.
End AsyncUpload.

(** ** The blocking driver simulates the async one *)
Section Simulation.
Import Upload AsyncUpload.

(** What a source yields, without the waits. *)
Definition events (reader : list source_event) : list read_event :=
  omap (fun x => match x with Arrives e => Some e | Stalls => None end) reader.

Lemma events_length reader : (length (events reader) <= length reader)%nat.
Proof. induction reader as [|[e|] reader IH]; cbn; [done| |]; fold (events reader); lia. Qed.

(** The rest of a chunk, after [bs]. *)
Definition after_bytes (bs : list Z) (r : result (list Z) BoxError * list read_event)
    : result (list Z) BoxError * list read_event := (let? rest := r.1 in Ok (bs ++ rest), r.2).

Lemma after_bytes_nil r : after_bytes [] r = r.
Proof. by destruct r as [[]]. Qed.

Lemma after_bytes_app bs bs' r : after_bytes (bs ++ bs') r = after_bytes bs (after_bytes bs' r).
Proof. destruct r as [[]]; unfold after_bytes; simpl; by rewrite <- ?app_assoc. Qed.

Lemma read_chunk_byte b reader limit :
  0 < limit -> read_chunk (Byte b :: reader) limit = after_bytes [b] (read_chunk reader (limit - 1)).
Proof.
  intros Hl. simpl. destruct (Z.leb_spec limit 0); [lia|]. destruct (read_chunk reader (limit - 1)) as [[]]; done.
Qed.

(** One turn reads as [read_chunk] does, up to a failure. *)
Lemma read_to_end_sim reader limit buffer :
  let '(answer, buffer', limit', reader') := read_to_end reader limit buffer in
  exists bs, buffer' = buffer ++ bs /\
  match answer with
  | Dropped => True
  | Ready (Ok _) => read_chunk (events reader) limit = (Ok bs, events reader') /\
      (length reader' <= length reader)%nat /\ (bs <> [] -> length reader' < length reader)%nat
  | Ready (Err error) =>
    read_chunk (events reader) limit =
      after_bytes bs (read_chunk (Fault error :: events reader') limit') /\
    0 < limit' /\ (length reader' < length reader)%nat
  end.
Proof.
  revert limit buffer. induction reader as [|x reader IH]; intros limit buffer; cbn [read_to_end].
  - destruct (Z.leb_spec limit 0); exists []; rewrite app_nil_r; simpl;
      (destruct (Z.leb_spec limit 0); [|try lia]); (split; [done|]; split; [done|]; split; [done|congruence]).
  - destruct (Z.leb_spec limit 0).
    { exists []. rewrite app_nil_r. split; [done|]. split; [|split; [done|congruence]].
      destruct (events (x :: reader)); simpl; by destruct (Z.leb_spec limit 0); [|lia]. }
    destruct x as [[b|error]|].
    + specialize (IH (limit - 1) (buffer ++ [b])).
      destruct (read_to_end reader (limit - 1) (buffer ++ [b])) as [[[[[[]|e]|] buffer'] limit'] reader'];
        destruct IH as (bs & -> & IH); exists (b :: bs); rewrite <- app_assoc; (split; [done|]); [| |done].
      * change (events (Arrives (Byte b) :: reader)) with (Byte b :: events reader). rewrite read_chunk_byte by done.
        destruct IH as (-> & Hlen & _). simpl. split; [done|]. split; [lia|]. intros _. lia.
      * change (events (Arrives (Byte b) :: reader)) with (Byte b :: events reader). rewrite read_chunk_byte by done.
        destruct IH as (-> & Hl & Hlen). split; [|simpl; lia]. by rewrite <- (after_bytes_app [b] bs).
    + exists []. rewrite app_nil_r, after_bytes_nil. split; [done|]. split; [done|]. simpl. lia.
    + exists []. by rewrite app_nil_r.
Qed.

Lemma read_turns_sim fuel reader limit buffer :
  (length reader < fuel)%nat ->
  exists answer reader', read_turns fuel reader limit buffer = Some (answer, reader') /\
  match answer with
  | Dropped => True
  | Ready r => after_bytes buffer (read_chunk (events reader) limit) = (r, events reader') /\
      match r with
      | Ok bytes => (length reader' <= length reader)%nat /\
          (length buffer < length bytes -> length reader' < length reader)%nat
      | Err _ => True
      end
  end.
Proof.
  revert reader limit buffer. induction fuel as [|fuel IH]; intros reader limit buffer Hf; [lia|]. cbn [read_turns].
  pose proof (read_to_end_sim reader limit buffer) as Hr.
  destruct (read_to_end reader limit buffer) as [[[[[[]|error]|] buffer'] limit'] reader'];
    destruct Hr as (bs & -> & Hr).
  - exists (Ready (Ok (buffer ++ bs))), reader'. split; [done|]. destruct Hr as (Hr & Hlen & Hlt). rewrite Hr.
    split; [done|]. split; [done|]. rewrite length_app. destruct bs; simpl; [lia|]. intros _. by apply Hlt.
  - destruct Hr as (Hr & Hl & Hlen). rewrite Hr, <- after_bytes_app. simpl. destruct (Z.leb_spec limit' 0); [lia|].
    destruct (is_interrupted error).
    + destruct (IH reader' limit' (buffer ++ bs)) as (answer & rest & -> & Ha); [lia|]. exists answer, rest. split; [done|].
      destruct answer as [[bytes|e]|]; [|done|done]. destruct Ha as (-> & Hle & _). split; [done|]. lia.
    + by exists (Ready (Err error)), reader'.
  - by exists Dropped, reader'.
Qed.

Lemma read_chunk_async_sim reader limit :
  exists answer reader', read_chunk_async reader limit = Some (answer, reader') /\
  match answer with
  | Dropped => True
  | Ready r => read_chunk (events reader) limit = (r, events reader') /\
      match r with
      | Ok bytes => bytes <> [] -> (length reader' < length reader)%nat
      | Err _ => True
      end
  end.
Proof.
  destruct (read_turns_sim (S (length reader)) reader limit []) as (answer & reader' & He & Ha); [lia|].
  exists answer, reader'. split; [done|]. destruct answer as [[bytes|e]|]; [| |done]; rewrite after_bytes_nil in Ha.
  - destruct Ha as (Hr & Hle & Hlt). split; [done|]. intros Hne. apply Hlt. simpl. destruct bytes; [done|simpl; lia].
  - done.
Qed.

Context `{Digests} {W E : Type} `{!AsyncUploadBackend W E} `{!AsyncRuntime W} `{!UploadBackend W E} `{!Runtime W}.

(** A blocking backend and runtime that do what the async ones do when they answer. *)
Record answers_alike : Prop := {
  alike_create w a w' : create_upload_async w = (Some a, w') -> create_upload w = (a, w');
  alike_upload id n bs w a w' : upload_part_async id n bs w = (Some a, w') -> upload_part id n bs w = (a, w');
  alike_complete id ps w a w' : complete_upload_async id ps w = (Some a, w') -> complete_upload id ps w = (a, w');
  alike_abort id w a w' : abort_upload_async id w = (Some a, w') -> abort_upload id w = (a, w');
  alike_random w : random_range w = async_random_range w;
  alike_sleep d w w' : tokio_sleep_for d w = (Some tt, w') -> sleep d w = w';
}.
Context (Halike : answers_alike).

(** The async computation returns, and what it is ready with the blocking one has. *)
Definition simulated {T} (m : option (polled T * W)) (m' : option (T * W)) : Prop :=
  exists answer w', m = Some (answer, w') /\ forall r, answer = Ready r -> m' = Some (r, w').

Lemma simulated_ready {T} (r : T) w : simulated (Some (Ready r, w)) (Some (r, w)).
Proof. exists (Ready r), w. split; [done|]. by intros ? [= ->]. Qed.

Lemma simulated_dropped {T} w (m' : option (T * W)) : simulated (Some (Dropped, w)) m'.
Proof. by exists Dropped, w. Qed.

Lemma simulated_await {T U} (op : aop W T) w (k : T -> W -> option (polled U * W)) m' :
  (forall a w', op w = (Some a, w') -> simulated (k a w') m') -> simulated (await_then op w k) m'.
Proof.
  intros Hk. unfold await_then. destruct (op w) as [[a|] w'] eqn:Hop; [by apply Hk|]. by exists Dropped, w'.
Qed.

Lemma part_attempts_sim fuel s plan attempt w :
  1 <= Z.of_nat fuel -> max_attempts (options s) - attempt < Z.of_nat fuel ->
  simulated (part_attempts_async fuel s plan attempt w) (part_attempts fuel s plan attempt w).
Proof.
  revert attempt w. induction fuel as [|fuel IH]; intros attempt w Hf Ha; [lia|]. simpl.
  apply simulated_await. intros [part|source] w' Hu%(alike_upload Halike); rewrite Hu; [apply simulated_ready|].
  unfold record_failure. rewrite (alike_random Halike).
  destruct (Z.leb_spec (max_attempts (options s)) attempt); [apply simulated_ready|].
  destruct (duration_is_zero _); [apply IH; lia|].
  apply simulated_await. intros [] w2 Hs%(alike_sleep Halike). rewrite Hs. apply IH; lia.
Qed.

Lemma upload_loop_sim fuel s reader w :
  (length reader < fuel)%nat ->
  exists answer w', upload_loop_async fuel s reader w = Some (answer, w') /\
    forall r s', answer = Ready (r, s') -> upload_loop fuel s (events reader) w = Some (r, s', w').
Proof.
  revert s reader w. induction fuel as [|fuel IH]; intros s reader w Hf; [lia|]. simpl.
  destruct (read_chunk_async_sim reader (part_size (options s))) as (answer & reader' & -> & Hr).
  destruct answer as [[bytes|e]|]; [| |by exists Dropped, w]; destruct Hr as [-> Hlen];
    [|eexists _, w; split; [done|]; by intros ?? [= <- <-]].
  destruct (next_chunk bytes s) as [[[| |plan]|e] s'] eqn:Hn;
    try (eexists _, w; split; [done|]; by intros ?? [= <- <-]).
  - apply IH. apply (proj1 (next_chunk_consumes _ _ _)), Hlen in Hn. lia.
  - destruct (part_attempts_sim (Z.to_nat (Z.max 1 (max_attempts (options s')))) s' plan 1 w)
      as (answer & w1 & Hu & Hub); [lia|lia|]. unfold upload_part_with_retries_async, upload_part_with_retries_blocking.
    rewrite Hu. destruct answer as [[uploaded|e]|]; [| |by exists Dropped, w1]; rewrite (Hub _ eq_refl);
      [|eexists _, w1; split; [done|]; by intros ?? [= <- <-]].
    destruct (accept_uploaded_part plan uploaded s') as [[|e] s''];
      [|eexists _, w1; split; [done|]; by intros ?? [= <- <-]].
    apply IH. apply (proj2 (next_chunk_consumes _ _ _) plan), Hlen in Hn. lia.
Qed.

Lemma conclude_sim o s (r : result (list UploadedPart) (ResumableUploadError E)) w :
  simulated (conclude_async o s r w)
    (Some match r with
          | Ok parts => (Ok (finish s parts), w)
          | Err e => let '(e, w) := abort_error_if_configured_blocking o (upload_id (checkpoint s)) e w in (Err e, w)
          end).
Proof.
  unfold conclude_async, abort_error_if_configured_async, abort_error_if_configured_blocking.
  destruct r as [parts|e]; [apply simulated_ready|]. destruct (abort_on_error o); [|apply simulated_ready].
  unfold await_then. destruct (abort_upload_async (upload_id (checkpoint s)) w) as [[a|] w'] eqn:Ha; [|apply simulated_dropped].
  apply (alike_abort Halike) in Ha. rewrite Ha. destruct a; apply simulated_ready.
Qed.

Lemma upload_with_checkpoint_sim o reader c resumed w :
  simulated (upload_with_checkpoint_async o reader c resumed w)
    (upload_with_checkpoint_blocking o (events reader) c resumed w).
Proof.
  unfold upload_with_checkpoint_async, upload_with_checkpoint_blocking.
  destruct (session_new o c resumed) as [s|e]; [|apply simulated_ready].
  destruct (upload_loop_sim (S (length reader)) s reader w) as (answer & w1 & -> & Hl); [lia|].
  destruct answer as [[r s']|]; [|apply simulated_dropped]. specialize (Hl _ _ eq_refl).
  assert (upload_loop (S (length (events reader))) s (events reader) w = Some (r, s', w1)) as Hloop.
  { destruct (upload_loop_total (S (length (events reader))) s (events reader) w) as [res Hres]; [lia|].
    rewrite Hres. eapply upload_loop_fuel in Hres; [by rewrite Hl in Hres|].
    pose proof (events_length reader). lia. }
  rewrite Hloop. cbn [fmap option_fmap option_map conclude]. destruct r as [[]|e]; [|apply (conclude_sim o s' (Err e))].
  unfold complete_session_async, complete_session. destruct (ordered_completed_parts s') as [parts|e];
    [|apply (conclude_sim o s' (Err e))].
  unfold await_then.
  destruct (complete_upload_async (upload_id (checkpoint s')) parts w1) as [[a|] w2] eqn:Hc; [|apply simulated_dropped].
  apply (alike_complete Halike) in Hc. rewrite Hc. apply (conclude_sim o s').
Qed.

(** C28: The async upload driver implements the blocking one: however its source
    stalls and wherever it is dropped, an async upload, fresh or resumed, comes to
    an end, and one that is not dropped has the result and the effects on the
    backend of the blocking driver with the same source and the same answers, so
    that the guarantees of blocking uploads are guarantees of async ones. *)
Theorem async_upload_refines_blocking o reader c w :
  simulated (upload_async o reader w) (upload_blocking o (events reader) w) /\
  simulated (resume_async o reader c w) (resume_blocking o (events reader) c w).
Proof.
  unfold upload_async, upload_blocking, resume_async, resume_blocking.
  destruct (validate o); [|split; apply simulated_ready]. split; [|apply upload_with_checkpoint_sim].
  apply simulated_await. intros [id|source] w' Hc%(alike_create Halike); rewrite Hc;
    [apply upload_with_checkpoint_sim|apply simulated_ready].
Qed.

End Simulation.

(** ** Witness

    The backend of [UploadDemo] behind awaits; an interrupted read; a part that fails
    once. *)
Module AsyncUploadDemo.
Import Upload AsyncUpload.

#[export] Instance awaited_backend : AsyncUploadBackend (list bool) unit := {|
  create_upload_async w := let '(r, w) := create_upload w in (Some r, w);
  upload_part_async id n bs w := let '(r, w) := upload_part id n bs w in (Some r, w);
  complete_upload_async id ps w := let '(r, w) := complete_upload id ps w in (Some r, w);
  abort_upload_async id w := let '(r, w) := abort_upload id w in (Some r, w);
|}.
#[export] Instance awaited_runtime : AsyncRuntime (list bool) :=
  {| async_random_range := fun _ low _ => low; tokio_sleep_for := fun _ w => (Some tt, w) |}.

Lemma scripted_alike : answers_alike (W := list bool) (E := unit).
Proof.
  split; cbn.
  - congruence.
  - intros id n bs [|[] w] a w'; cbn; congruence.
  - congruence.
  - congruence.
  - done.
  - congruence.
Qed.

Definition interrupted : BoxError := Dyn (IoError IoErrorKind.Interrupted) [] None None.
Definition reader : list source_event := Arrives <$> [Byte 1; Fault interrupted; Byte 2; Byte 3; Byte 4; Byte 5].
End AsyncUploadDemo.
Import AsyncUploadDemo.

Lemma async_upload_refines_blocking_witness :
  Upload.upload_blocking UploadDemo.demo_options (events AsyncUploadDemo.reader) [true; false; true] =
  Some (Ok UploadDemo.demo_result, []).
Proof.
  destruct (proj1 (async_upload_refines_blocking scripted_alike UploadDemo.demo_options AsyncUploadDemo.reader
    UploadDemo.fresh [true; false; true])) as (answer & w' & Ha & Hb).
  assert (AsyncUpload.upload_async UploadDemo.demo_options AsyncUploadDemo.reader [true; false; true]
    = Some (Ready (Ok UploadDemo.demo_result), [])) as He by (vm_compute; reflexivity).
  rewrite He in Ha. injection Ha as <- <-. exact (Hb _ eq_refl).
Defined.
