(* ===== verification/AsyncDemo.v ===== *)
(** * Runs of the async client

    The surroundings of [BlockingDemo] with a scripted hyper: a request whose script
    is used up is dropped while it waits for the transport.  A body hands out two bytes
    a frame, and is pending at every odd time. *)
From Stdlib Require Import Ascii String.
From S2P Require Import Prelude Float64 Text HttpApi UriText Errors Redaction UriResolve Redirect Proxy.
From S2P Require Import Headers ContentEncoding Timing Responses Retry RetryBudget RateLimit Execution Limiters.
From S2P Require Import Metrics Lifecycle Program Blocking BlockingFacts BlockingTheorems BlockingStream BlockingStreamTheorems.
From S2P Require Import BlockingDemo Walk Returns Async AsyncFacts AsyncTheorems AsyncReturns AsyncStream AsyncStreamTheorems Dns AsyncProxy.

Module AsyncDemo.
Export BlockingDemo.

Definition awaited {T} (op : aop world T) (deadline : Z) : aop world (waited T) := fun w =>
  let '(a, w) := op w in
  (match a with Some a => Some (if deadline <=? time w then Elapsed else Finished a) | None => None end, w).

#[export] Instance tokio : Tokio world Z Z unit (list Z) := {
  timeout_at T deadline op := awaited op deadline;
  timeout T d op w := awaited op (time w + d) w;
  tokio_sleep d w := (Some tt, tick (Z.max 0 d) w);
  limiters_acquire_global w := let '(n, w) := take w in (Some (Ok (Some n)), w);
  limiters_acquire_host _ w := let '(n, w) := take w in (Some (Ok (Some n)), w);
  controller_acquire w := let '(n, w) := take w in (Some n, w);
  transport_request _ _ _ _ w :=
    match script w with
    | [] => (None, w)
    | answer :: script =>
      (Some match answer with Ok r => Ok r | Err _ => Err (Dyn OtherError (lit "connection refused") None None) end,
       {| time := time w + 1; token := token w; script := script |})
    end;
  body_frames body w := (Some [Ok (Some body)], tick 1 w);
  as_hyper _ := None;
  is_connect _ := true;
}.

#[export] Instance hyper_body : HyperBody world Z (list Z) := {
  poll_frame body w :=
    (if Z.odd (time w) then (PollPending, body)
     else (PollReady match body with [] => None | _ => Some (Ok (Some (firstn 2 body))) end, skipn 2 body), tick 1 w);
  timer_new d w := (time w + d, w);
  timer_poll deadline w := (deadline <=? time w, w);
  park w := (Some tt, tick 1 w);
}.

Abbreviation async_run answers mode :=
  (Async.send_request_with_retry_mode client 13 2 (ExecutionDemo.input (Buffered [])) mode (Some (-1)) 0 (start answers)).
Abbreviation async_buffered_run answers :=
  (Async.send_request client 13 2 GET (lit "/") [] None no_overrides (start answers)).

(** A failed connection and a redirect; the third exchange is never answered. *)
Definition unanswered := firstn 2 answers.
(** Connections that are all refused. *)
Definition refused : list (result (HttpResponse (list Z)) UreqErrorKind) := replicate 13 (Err UreqConnectionFailed).

Definition demo_async_stream : AsyncStream.t (C := Z) (A := Z) (P := Z) (Timer := Z) (Body := list Z) :=
  AsyncStream.set_buffer [5; 6] (AsyncStream.new demo_stream).
Definition async_sink : AsyncWriter world :=
  {| async_write_all _ w := (Some (Ok tt), tick 1 w); async_flush w := (Some (Ok tt), w) |}.
Abbreviation async_copied :=
  (AsyncStream.consuming (AsyncStream.copy_body 4 9 3 async_sink (Some 10) demo_async_stream) (start [])).
Abbreviation async_polled := (poll_reads [1; 3; 3; 3; 3; 3] 3 demo_async_stream (start [])).
Abbreviation async_session :=
  (async_stream_session client 13 2 4 9 3 GET (lit "/") [] None no_overrides (PollThenDrop [1]) (start answers)).

(** The runtime keeps time. *)
Lemma awaited_passes {T} (op : aop world T) deadline : carries (no_earlier time) op -> carries (no_earlier time) (awaited op deadline).
Proof. intros Hop w. unfold awaited. pose proof (Hop w) as Hle. by destruct (op w). Qed.

Lemma hurried_tokio_flows : tokio_flows (C := Z) (A := Z) (P := Z) (Stream := unit) (Body := list Z) hurried time.
Proof.
  split; [exact hurried_passes| | |..]; try (intros; unfold carries, no_earlier; intros; simpl; lia).
  - intros T deadline op Hop. by apply awaited_passes.
  - intros T d op Hop w. by apply awaited_passes.
  - intros method uri headers body w. unfold no_earlier. simpl. case_match; simpl; lia.
Qed.

End AsyncDemo.
Import AsyncDemo.

(** The third attempt (circuit 7) is dropped with its request, and the global permit too. *)
Lemma async_request_settles_witness :
  match async_run unanswered BufferedMode with
  | Some (Dropped, s') =>
    added (circuit_began 7) (start unanswered) s' = added (circuit_ended 7) (start unanswered) s' /\
    added (circuit_began 7) (start unanswered) s' = 1 /\
    added (permit_dropped (-1)) (start unanswered) s' = 1 + added (permit_taken (-1)) (start unanswered) s'
  | _ => False
  end.
Proof.
  assert (match async_run unanswered BufferedMode with
          | Some (Dropped, s') => added (circuit_began 7) (start unanswered) s'
          | _ => -1
          end = 1) as H1 by (vm_compute; reflexivity).
  destruct (async_run unanswered BufferedMode) as [[[r|] s']|] eqn:Hrun; try discriminate H1.
  destruct (async_request_settles client 13 2 (ExecutionDemo.input (Buffered [])) BufferedMode (Some (-1)) 0
    (start unanswered) Dropped s' 7 8 (-1) Hrun) as (Hc & _ & Hp & _).
  simpl in Hc, Hp. unfold held_circuit in Hc. simpl in Hc. rewrite Z.add_0_r in Hc, Hp.
  split_and!; [exact Hc|exact H1|]. rewrite <- Hp. reflexivity.
Defined.

(** A dropped request shows no error, one that fails shows the error it answers with. *)
Lemma async_errors_reported_once_witness :
  match async_run unanswered BufferedMode with Some (Dropped, s') => errors_seen (log s') = [] | _ => False end /\
  match async_buffered_run refused with Some (Ready (Err e), s') => errors_seen (log s') = [e] | _ => False end.
Proof.
  split.
  - assert (match async_run unanswered BufferedMode with Some (Dropped, _) => true | _ => false end = true) as H1
      by (vm_compute; reflexivity).
    destruct (async_run unanswered BufferedMode) as [[[r|] s']|] eqn:Hrun; try discriminate H1.
    exact (proj1 (async_errors_reported_once client 13 2 GET (lit "/") [] None no_overrides (start unanswered) s')
      (ExecutionDemo.input (Buffered [])) BufferedMode (Some (-1)) 0 Dropped Hrun).
  - assert (match async_buffered_run refused with Some (Ready (Err _), _) => true | _ => false end = true) as H1
      by (vm_compute; reflexivity).
    assert (async_admitted client (prepare (Stream := unit) client GET (lit "/") [] None no_overrides
      (buffered_auto_accept_encoding client)) (start refused) = true) as Had by (vm_compute; reflexivity).
    destruct (async_buffered_run refused) as [[[[r|e]|] s']|] eqn:Hrun; try discriminate H1.
    exact (async_reported_admitted client _ (Ready (Err e)) (start refused) s'
      (proj1 (proj2 (async_errors_reported_once client 13 2 GET (lit "/") [] None no_overrides (start refused) s'))
        (Ready (Err e)) Hrun) Had).
Defined.

Lemma async_request_accounted_witness :
  match async_buffered_run unanswered with
  | Some (Dropped, s') =>
    added (permit_taken 0) (start unanswered) s' = added (permit_dropped 0) (start unanswered) s' /\
    added (permit_dropped 0) (start unanswered) s' = 1
  | _ => False
  end.
Proof.
  assert (match async_buffered_run unanswered with
          | Some (Dropped, s') => added (permit_dropped 0) (start unanswered) s'
          | _ => -1
          end = 1) as H1 by (vm_compute; reflexivity).
  destruct (async_buffered_run unanswered) as [[[r|] s']|] eqn:Hrun; try discriminate H1.
  assert (is_ok (prepare (Stream := unit) client GET (lit "/") [] None no_overrides true) = true) as Hok
    by (vm_compute; reflexivity).
  destruct (prepare (Stream := unit) client GET (lit "/") [] None no_overrides true) as [input|e] eqn:Hin;
    [|discriminate Hok].
  destruct (async_request_accounted client 13 2 GET (lit "/") [] None no_overrides (start unanswered) Dropped s' input
    1 2 0 Hin Hrun) as (_ & _ & _ & Hp).
  split; [exact Hp|exact H1].
Defined.

(** What the stream had buffered, then what the transport had. *)
Lemma async_stream_consumed_faithfully_witness :
  match async_copied with
  | Some (Ready (Ok n), s') => bytes_written (log s') = [5; 6] ++ bytes_read (log s') /\ n = 5
  | _ => False
  end.
Proof.
  assert (match async_copied with Some (Ready (Ok n), _) => n | _ => 0 end = 5) as Hn by (vm_compute; reflexivity).
  destruct async_copied as [[[[n|e]|] s']|] eqn:Hrun; try discriminate Hn.
  destruct (proj1 (async_stream_consumed_faithfully 4 9 3 async_sink (Some 10) 10 demo_async_stream (start []) s' eq_refl)
    (Ready (Ok n)) Hrun) as (l1 & l2 & now & HR & HW & _ & Heq & _).
  split; [|exact Hn]. rewrite HR, HW, Heq. reflexivity.
Defined.

Lemma async_reads_faithful_witness :
  match async_polled with
  | Some ((ps, st'), s') =>
    delivered_bytes ps ++ AsyncStream.read_buffer st' = [5; 6] ++ bytes_read (log s') /\
    delivered_bytes ps = [5; 6; 7; 8; 9]
  | None => False
  end.
Proof.
  assert (match async_polled with Some ((ps, _), _) => Some (delivered_bytes ps, existsb read_failed ps) | None => None end
    = Some ([5; 6; 7; 8; 9], false)) as H1 by (vm_compute; reflexivity).
  destruct async_polled as [[[ps st'] s']|] eqn:Hrun; [|discriminate H1]. injection H1 as H1 H2.
  assert (Forall (Z.le 0) [1; 3; 3; 3; 3; 3]) as Hsizes by (repeat constructor; lia).
  destruct (async_reads_faithful [1; 3; 3; 3; 3; 3] 3 demo_async_stream (start []) ps st' s' eq_refl Hsizes Hrun)
    as (l & HR & _ & Heq).
  split; [|exact H1]. rewrite (Heq H2), HR. reflexivity.
Defined.

Lemma async_session_settles_witness :
  match async_session with
  | Some (_, s') =>
    added (permit_taken 0) (start answers) s' = added (permit_dropped 0) (start answers) s' /\
    added (permit_dropped 0) (start answers) s' = 1
  | None => False
  end.
Proof.
  assert (measured async_session (added (permit_dropped 0) (start answers)) = Some 1) as H1 by (vm_compute; reflexivity).
  destruct async_session as [[[] s']|] eqn:Hrun; [|discriminate H1]. injection H1 as H1.
  assert (Forall (Z.le 0) [1]) as Hsizes by (repeat constructor; lia).
  destruct (async_session_settles client 13 2 4 9 3 GET (lit "/") [] None no_overrides (PollThenDrop [1]) (start answers) s'
    1 2 0 [] [] Hsizes Hrun) as (_ & _ & _ & Hp).
  split; [exact Hp|exact H1].
Defined.

Lemma async_requests_return_witness :
  exists r s', Async.send_request hurried 13 41 GET (lit "/") [] None no_overrides (start answers) = Some (r, s').
Proof.
  exact (proj1 (async_requests_return hurried time hurried_tokio_flows 13 41 GET (lit "/") [] None no_overrides
    (start answers)) (hurried_bounded _)).
Defined.
