(* ===== verification/SystemDemo.v ===== *)
(** * Clients wired to all their controls

    The surroundings of [BlockingDemo] and [AsyncDemo] with a breaker of [CircuitBreaker],
    a controller of [Adaptive], limiters that allow one request at a time, a budget of
    [RetryBudget] and a rate limiter of [RateLimit] in them, shared with a request that
    holds an attempt and two permits when the run starts and settles them while the client
    waits: the runs the theorems of [System] and [AsyncSystem] are applied to. *)
From Stdlib Require Import Ascii String.
From S2P Require Import Prelude Float64 Text HttpApi UriText Errors Redaction UriResolve Redirect Proxy.
From S2P Require Import Headers ContentEncoding Timing Responses Retry RetryBudget CircuitBreaker Adaptive RateLimit.
From S2P Require Import Execution Limiters Metrics Lifecycle Program Blocking BlockingFacts BlockingTheorems Walk System.
From S2P Require Import BlockingDemo Async AsyncFacts AsyncTheorems AsyncLimiters AsyncSystem AsyncDemo.
Import AsyncDemo.

Module SystemDemo.
#[export] Existing Instance SemaphoreDemo.fifo.

(** ** Desks

    The attempts of a control, each with the one who holds it. *)
Record desk (B K : Type) := { core : B; held : list (option Z * K); tokens : list Z; lost : nat }.
Arguments core {B K} _.
Arguments held {B K} _.
Arguments tokens {B K} _.
Arguments lost {B K} _.

Section Desk.
Context {B W K K' : Type} `{!Control W K'} (build : B -> list K -> W).

Definition at_desk (d : desk B K) : office W Z :=
  {| control := build (core d) (held d).*2; owners := (held d).*1; issued := tokens d; strays := lost d |}.

Definition fresh (l : list Z) : Z := 1 + foldr Z.max 0 l.

Lemma fresh_new l : fresh l ∉ l.
Proof.
  assert (forall x, x ∈ l -> x <= foldr Z.max 0 l) as Hmax.
  { induction l as [|y l IH]; intros x Hx; [set_solver|]. simpl. apply elem_of_cons in Hx as [->|Hx]; [lia|].
    specialize (IH x Hx). lia. }
  intros Hin%Hmax. unfold fresh in Hin. lia.
Qed.

Definition hand_out (b : B) (k : K) (d : desk B K) : Z * desk B K :=
  let c := fresh (tokens d) in
  (c, {| core := b; held := (Some c, k) :: held d; tokens := c :: tokens d; lost := lost d |}).

(** The first attempt held by [who], and the desk without it. *)
Definition hand_in (who : option Z) (finish : K -> B -> B) (d : desk B K) : option (desk B K) :=
  match list_find (fun h => h.1 = who) (held d) with
  | Some (i, (_, k)) =>
    Some {| core := finish k (core d); held := firstn i (held d) ++ skipn (S i) (held d); tokens := tokens d; lost := lost d |}
  | None => None
  end.

Definition give_back (c : Z) (finish : K -> B -> B) (d : desk B K) : desk B K :=
  default {| core := core d; held := held d; tokens := c :: tokens d; lost := S (lost d) |} (hand_in (Some c) finish d).

(** The control may take quiet steps before it hands something out. *)
Lemma hand_out_moves b k d w k' :
  rtc (does Quiet) (build (core d) (held d).*2) w -> does (Begins 0 k') w (build b (k :: (held d).*2)) ->
  moves (at_desk d) [Took (hand_out b k d).1] (at_desk (hand_out b k d).2).
Proof.
  intros Hq Hd. eapply moves_own.
  - apply (moves_quiets (at_desk d) [] (at_desk d) w); [apply moves_refl|exact Hq].
  - exact (own_begins (set_control w (held d).*1 (at_desk d)) [] (held d).*1 _ k' _ (fresh_new (tokens d)) eq_refl Hd).
Qed.

Lemma hand_in_split who finish d d' :
  hand_in who finish d = Some d' ->
  exists h1 k h2, held d = h1 ++ (who, k) :: h2 /\
    d' = {| core := finish k (core d); held := h1 ++ h2; tokens := tokens d; lost := lost d |}.
Proof.
  unfold hand_in. destruct (list_find _ _) as [[i [o k]]|] eqn:Hf; [|done]. intros [= <-].
  apply list_find_Some in Hf as (Hi & Ho & _). simpl in Ho. subst o.
  exists (firstn i (held d)), k, (skipn (S i) (held d)). split; [by rewrite take_drop_middle|done].
Qed.

Context (how : Program.ending) (finish : K -> B -> B).
Context (Hfinish : forall b l1 k l2, exists w,
  does (Ends how (length l1)) (build b (l1 ++ k :: l2)) w /\ rtc (does Quiet) w (build (finish k b) (l1 ++ l2))).

Lemma give_back_moves c d : moves (at_desk d) [Gave how c] (at_desk (give_back c finish d)).
Proof.
  unfold give_back. destruct (hand_in (Some c) finish d) as [d'|] eqn:Hd; simpl.
  - apply hand_in_split in Hd as (h1 & k & h2 & Hh & ->). destruct (Hfinish (core d) h1.*2 k h2.*2) as (w & Hw & Hq).
    unfold at_desk at 2. simpl. rewrite !fmap_app. rewrite length_fmap in Hw.
    apply (moves_quiets _ _ (set_control w (h1.*1 ++ h2.*1) (at_desk d))); [|exact Hq].
    eapply moves_own; [apply moves_refl|].
    eapply (own_ends (at_desk d) h1.*1 c h2.*1 how); simpl; [by rewrite Hh, fmap_app|].
    by rewrite length_fmap, Hh, fmap_app.
  - eapply moves_own; [apply moves_refl|]. apply (own_stray (at_desk d)).
    intros (o & Ho & Hc)%list_elem_of_omap. simpl in Hc. subst o.
    apply list_elem_of_fmap in Ho as ([o k] & Ho & Hin). simpl in Ho. subst o.
    unfold hand_in in Hd. destruct (list_find _ _) as [[i [? ?]]|] eqn:Hf; [done|].
    apply list_find_None, Forall_forall with (x := (Some c, k)) in Hf; [by apply Hf|done].
Qed.

(** Another request hands in what it holds. *)
Lemma other_hand_in d d' : hand_in None finish d = Some d' -> moves (at_desk d) [] (at_desk d').
Proof.
  intros (h1 & k & h2 & Hh & ->)%hand_in_split. destruct (Hfinish (core d) h1.*2 k h2.*2) as (w & Hw & Hq).
  unfold at_desk at 2. simpl. rewrite !fmap_app. rewrite length_fmap in Hw.
  apply (moves_quiets _ _ (set_control w (h1.*1 ++ h2.*1) (at_desk d))); [|exact Hq].
  eapply moves_other; [apply moves_refl|].
  eapply (other_ends (at_desk d) h1.*1 h2.*1 how); simpl; [by rewrite Hh, fmap_app|].
  by rewrite length_fmap, Hh, fmap_app.
Qed.

Lemma settle_moves d : moves (at_desk d) [] (at_desk (default d (hand_in None finish d))).
Proof. destruct (hand_in None finish d) as [d'|] eqn:Hd; [by apply other_hand_in|apply moves_refl]. Qed.

End Desk.

(** ** Limiters with one global limit *)
Definition one_limit : Limiters.RequestLimiters :=
  {| Limiters.global := Some 0%nat; Limiters.per_host_limit := None; Limiters.per_host := ∅ |}.

Definition global_permit (u : unit) : Limiters.permit :=
  {| Limiters.permit_scope := Limiters.Global; Limiters.permit_semaphore := 0; Limiters.permit_is := Limiters.Held |}.

Definition globals (l : list unit) : list Limiters.permit := global_permit <$> l.
Lemma globals_middle l1 u l2 : globals (l1 ++ u :: l2) = globals l1 ++ global_permit u :: globals l2.
Proof. unfold globals. by rewrite fmap_app. Qed.
Lemma globals_app l1 l2 : globals (l1 ++ l2) = globals l1 ++ globals l2.
Proof. apply (fmap_app global_permit). Qed.
Lemma globals_length l : length (globals l) = length l.
Proof. apply length_fmap. Qed.

Definition limited (n : Z) (l : list unit) : Limiters.world :=
  {| Limiters.limiters := one_limit; Limiters.semaphores := {[ 0%nat := n ]}; Limiters.next_semaphore := 1;
     Limiters.permits := globals l; Limiters.callers := [] |}.

Lemma limited_held n l : held_permits (limited n l) = globals l.
Proof. unfold held_permits, limited, globals. cbn. induction l as [|u l IH]; [done|]. cbn. by rewrite IH. Qed.

Lemma limited_takes n l : 0 < n -> exists w,
  rtc (does Quiet) (limited n l) w /\ does (Begins 0 (global_permit tt)) w (limited (n - 1) (tt :: l)).
Proof.
  intros Hn. set (w := limited n l). exists (Limiters.acquire_global None w).2. split.
  - apply rtc_once, limiter_waits; [by eapply Limiters.step_acquire_global|done].
  - apply limiter_begins; [|done].
    pose proof (Limiters.step_acquired (Limiters.acquire_global None w).2 []
      {| Limiters.caller_scope := Limiters.Global; Limiters.caller_semaphore := 0; Limiters.caller_deadline_at := None;
         Limiters.caller_is := Limiters.Testing |} [] n (n - 1) 0 eq_refl eq_refl (lookup_singleton_eq _ _)) as Hs.
    cbn [Limiters.caller_deadline_at] in Hs. unfold Limiters.acquire_turn in Hs. rewrite (proj2 (Z.ltb_lt 0 n)) in Hs by done.
    specialize (Hs eq_refl). unfold Limiters.add_permit, Limiters.put_semaphore, Limiters.set_parties in Hs. cbn in Hs.
    rewrite insert_singleton_eq in Hs. exact Hs.
Qed.

Lemma limited_gives how n l1 u l2 : exists w,
  does (Ends how (length l1)) (limited n (l1 ++ u :: l2)) w /\
  rtc (does Quiet) w (limited (Limiters.release n) (l1 ++ l2)).
Proof.
  set (p := {| Limiters.permit_scope := Limiters.Global; Limiters.permit_semaphore := 0; Limiters.permit_is := Limiters.Released |}).
  set (w := {| Limiters.limiters := one_limit; Limiters.semaphores := {[ 0%nat := Limiters.release n ]}; Limiters.next_semaphore := 1;
     Limiters.permits := globals l1 ++ p :: globals l2; Limiters.callers := [] |}).
  assert (Limiters.step (limited n (l1 ++ u :: l2)) w) as Hrel.
  { pose proof (Limiters.step_release (limited n (l1 ++ u :: l2)) (globals l1) (global_permit u) (globals l2) n []
      (globals_middle _ _ _) eq_refl (lookup_singleton_eq _ _) (Limiters.notify_none _ [] (Forall_nil_2 _))) as Hs.
    unfold Limiters.put_semaphore, Limiters.set_parties in Hs. cbn in Hs. rewrite insert_singleton_eq in Hs. exact Hs. }
  assert (held_permits w = globals l1 ++ globals l2) as Hw.
  { unfold held_permits. cbn. rewrite List.filter_app. cbn.
    pose proof (limited_held n l1) as H1. pose proof (limited_held n l2) as H2. unfold held_permits in H1, H2. cbn in H1, H2.
    by rewrite H1, H2. }
  exists w. split.
  - rewrite <- (globals_length l1). eapply limiter_ends; [exact Hrel| |exact Hw].
    by rewrite limited_held, globals_middle.
  - apply rtc_once, limiter_waits; [|by rewrite limited_held, Hw, globals_app].
    pose proof (Limiters.step_drop_handle w (globals l1) p (globals l2) eq_refl eq_refl) as Hs.
    unfold limited. by rewrite globals_app.
Qed.

(** The same with the limiters of the async client; the second number counts the futures. *)
Definition global_party (u : unit) : AsyncLimiters.party :=
  {| AsyncLimiters.party_scope := Limiters.Global; AsyncLimiters.party_semaphore := 0;
     AsyncLimiters.party_is := AsyncLimiters.Holding |}.
Definition global_parties (l : list unit) : list AsyncLimiters.party := global_party <$> l.

Definition async_limited (b : nat * nat) (l : list unit) : AsyncLimiters.world :=
  {| AsyncLimiters.limiters := one_limit;
     AsyncLimiters.semaphores := {[ 0%nat := {| SemaphoreDemo.free := b.1; SemaphoreDemo.queue := [] |} ]};
     AsyncLimiters.next_semaphore := 1; AsyncLimiters.next_waiter := b.2; AsyncLimiters.parties := global_parties l |}.

Lemma async_filter l : List.filter is_holding (global_parties l) = global_parties l.
Proof. unfold global_parties. induction l as [|u l IH]; [done|]. cbn. by rewrite IH. Qed.

Lemma async_limited_takes n k l : exists w,
  rtc (does Quiet) (async_limited (S n, k) l) w /\ does (Begins 0 (global_party tt)) w (async_limited (n, S k) (tt :: l)).
Proof.
  set (w := async_limited (S n, k) l). exists (AsyncLimiters.acquire_global w).2.
  assert (held_parties (AsyncLimiters.acquire_global w).2 = global_parties l) as Hw by apply async_filter.
  split.
  - apply rtc_once, async_limiter_waits; [by eapply AsyncLimiters.step_acquire_global|].
    rewrite Hw. symmetry. apply async_filter.
  - apply (async_limiter_begins _ _ [] _ (global_parties l)); [|exact Hw|apply (async_filter (tt :: l))].
    pose proof (AsyncLimiters.step_party (AsyncLimiters.acquire_global w).2 []
      {| AsyncLimiters.party_scope := Limiters.Global; AsyncLimiters.party_semaphore := 0;
         AsyncLimiters.party_is := AsyncLimiters.WaitingFor k |} (global_parties l)
      {| SemaphoreDemo.free := S n; SemaphoreDemo.queue := [] |} AsyncLimiters.Holding
      {| SemaphoreDemo.free := n; SemaphoreDemo.queue := [] |} eq_refl (lookup_singleton_eq _ _)
      (AsyncLimiters.poll_ready k {| SemaphoreDemo.free := S n; SemaphoreDemo.queue := [] |}
        {| SemaphoreDemo.free := n; SemaphoreDemo.queue := [] |} eq_refl)) as Hs.
    unfold AsyncLimiters.update in Hs. cbn in Hs. rewrite insert_singleton_eq in Hs. exact Hs.
Qed.

Lemma async_limited_gives how b l1 u l2 : exists w,
  does (Ends how (length l1)) (async_limited b (l1 ++ u :: l2)) w /\
  rtc (does Quiet) w (async_limited (S b.1, b.2) (l1 ++ l2)).
Proof.
  set (p := {| AsyncLimiters.party_scope := Limiters.Global; AsyncLimiters.party_semaphore := 0;
               AsyncLimiters.party_is := AsyncLimiters.Closing |}).
  set (w := {| AsyncLimiters.limiters := one_limit;
     AsyncLimiters.semaphores := {[ 0%nat := {| SemaphoreDemo.free := S b.1; SemaphoreDemo.queue := [] |} ]};
     AsyncLimiters.next_semaphore := 1; AsyncLimiters.next_waiter := b.2;
     AsyncLimiters.parties := global_parties l1 ++ p :: global_parties l2 |}).
  assert (global_parties (l1 ++ u :: l2) = global_parties l1 ++ global_party u :: global_parties l2) as Hmid
    by (unfold global_parties; by rewrite fmap_app).
  assert (AsyncLimiters.step (async_limited b (l1 ++ u :: l2)) w) as Hrel.
  { pose proof (AsyncLimiters.step_party (async_limited b (l1 ++ u :: l2)) (global_parties l1) (global_party u) (global_parties l2)
      {| SemaphoreDemo.free := b.1; SemaphoreDemo.queue := [] |} AsyncLimiters.Closing
      {| SemaphoreDemo.free := S b.1; SemaphoreDemo.queue := [] |} Hmid (lookup_singleton_eq _ _)
      (AsyncLimiters.drop_permit {| SemaphoreDemo.free := b.1; SemaphoreDemo.queue := [] |})) as Hs.
    unfold AsyncLimiters.update in Hs. cbn in Hs. rewrite insert_singleton_eq in Hs. exact Hs. }
  assert (held_parties w = global_parties l1 ++ global_parties l2) as Hw.
  { unfold held_parties. cbn. rewrite List.filter_app. cbn. by rewrite !async_filter. }
  assert (global_parties (l1 ++ l2) = global_parties l1 ++ global_parties l2) as Happ by apply fmap_app.
  exists w. split.
  - assert (length (global_parties l1) = length l1) as <- by apply length_fmap.
    apply (async_limiter_ends _ _ _ _ (global_party u) (global_parties l2)); [exact Hrel| |exact Hw].
    rewrite <- Hmid. apply async_filter.
  - apply rtc_once, async_limiter_waits; [|rewrite Hw, <- Happ; apply async_filter].
    pose proof (AsyncLimiters.step_drop_handle w (global_parties l1) p (global_parties l2) eq_refl eq_refl) as Hs.
    unfold async_limited. rewrite Happ. exact Hs.
Qed.

(** ** The plant *)
Import CircuitBreaker Adaptive.

Definition pc := BreakerDemo.policy.
Definition pa := AdaptiveDemo.policy.
Definition pb := RetryBudget.standard.

Record plant := {
  base : world;
  breaker_desk : desk CircuitBreaker.t CircuitAttempt;
  controller_desk : desk AdaptiveConcurrencyState AdaptiveConcurrencyPermit;
  limiter_desk : desk Z unit;
  async_desk : desk (nat * nat) unit;
  budget : RetryBudget.RetryBudgetState;
  rates : RateLimit.RateLimiter;
}.

Definition with_base (w : world) (pl : plant) : plant :=
  {| base := w; breaker_desk := breaker_desk pl; controller_desk := controller_desk pl; limiter_desk := limiter_desk pl;
     async_desk := async_desk pl; budget := budget pl; rates := rates pl |}.
Definition with_breaker (d : desk CircuitBreaker.t CircuitAttempt) (pl : plant) : plant :=
  {| base := base pl; breaker_desk := d; controller_desk := controller_desk pl; limiter_desk := limiter_desk pl;
     async_desk := async_desk pl; budget := budget pl; rates := rates pl |}.
Definition with_controller (d : desk AdaptiveConcurrencyState AdaptiveConcurrencyPermit) (pl : plant) : plant :=
  {| base := base pl; breaker_desk := breaker_desk pl; controller_desk := d; limiter_desk := limiter_desk pl;
     async_desk := async_desk pl; budget := budget pl; rates := rates pl |}.
Definition with_limiters (d : desk Z unit) (a : desk (nat * nat) unit) (pl : plant) : plant :=
  {| base := base pl; breaker_desk := breaker_desk pl; controller_desk := controller_desk pl; limiter_desk := d;
     async_desk := a; budget := budget pl; rates := rates pl |}.
Definition with_budget (b : RetryBudget.RetryBudgetState) (pl : plant) : plant :=
  {| base := base pl; breaker_desk := breaker_desk pl; controller_desk := controller_desk pl; limiter_desk := limiter_desk pl;
     async_desk := async_desk pl; budget := b; rates := rates pl |}.
Definition with_rates (r : RateLimit.RateLimiter) (pl : plant) : plant :=
  {| base := base pl; breaker_desk := breaker_desk pl; controller_desk := controller_desk pl; limiter_desk := limiter_desk pl;
     async_desk := async_desk pl; budget := budget pl; rates := r |}.

Definition circuits (pl : plant) : office CircuitBreaker.system Z :=
  at_desk (fun b l => {| breaker := b; live := l |}) (breaker_desk pl).
Definition permits_of (pl : plant) : office controller Z :=
  at_desk (fun st ps => {| limits := st; permits := ps; callers := [] |}) (controller_desk pl).
Definition async_permits_of (pl : plant) : office async_controller Z :=
  at_desk (fun st ps => {| async_limits := st; async_permits := ps; tasks := [] |}) (controller_desk pl).
Definition limits_of (pl : plant) : office Limiters.world Z := at_desk limited (limiter_desk pl).
Definition async_limits_of (pl : plant) : office AsyncLimiters.world Z := at_desk async_limited (async_desk pl).

Definition on_base {U} (f : world -> U * world) (pl : plant) : U * plant :=
  let '(a, w) := f (base pl) in (a, with_base w pl).
Definition on_base_ (f : world -> world) (pl : plant) : plant := with_base (f (base pl)) pl.
Definition now_of (pl : plant) : Instant := time (base pl).

(** The other request settles: its attempt succeeds, and its permits go. *)
Definition others_settle (pl : plant) : plant :=
  {| base := base pl;
     breaker_desk := default (breaker_desk pl) (hand_in None (end_circuit pc EndSuccess (now_of pl)) (breaker_desk pl));
     controller_desk := default (controller_desk pl)
       (hand_in None (finish pa (end_permit EndSuccess (now_of pl))) (controller_desk pl));
     limiter_desk := default (limiter_desk pl) (hand_in None (fun _ => Limiters.release) (limiter_desk pl));
     async_desk := default (async_desk pl) (hand_in None (fun _ b => (S b.1, b.2)) (async_desk pl));
     budget := budget pl; rates := rates pl |}.

Definition begin_circuit (pl : plant) : result Z Duration * plant :=
  match begin pc (now_of pl) (core (breaker_desk pl)) with
  | (Ok a, b) => let '(c, d) := hand_out b a (breaker_desk pl) in (Ok c, with_breaker d pl)
  | (Err d, b) =>
    (Err d, with_breaker {| core := b; held := held (breaker_desk pl); tokens := tokens (breaker_desk pl);
                            lost := lost (breaker_desk pl) |} pl)
  end.
Definition end_circuit_of (how : Program.ending) (c : Z) (pl : plant) : plant :=
  with_breaker (give_back c (end_circuit pc how (now_of pl)) (breaker_desk pl)) pl.

(** A caller waits until the other request has settled. *)
Definition acquire_permit (pl : plant) : option Z * plant :=
  let pl := others_settle pl in
  match try_acquire (core (controller_desk pl)) with
  | (true, st) =>
    let '(a, d) := hand_out st {| started_at := now_of pl; completed := false |} (controller_desk pl) in
    (Some a, with_controller d pl)
  | (false, _) => (None, pl)
  end.
Definition end_permit_of (how : Program.ending) (a : Z) (pl : plant) : plant :=
  with_controller (give_back a (finish pa (end_permit how (now_of pl))) (controller_desk pl)) pl.

Definition acquire_limit (pl : plant) : result (option Z) Limiters.AcquirePermitError * plant :=
  let pl := others_settle pl in
  if 0 <? core (limiter_desk pl) then
    let '(p, d) := hand_out (core (limiter_desk pl) - 1) tt (limiter_desk pl) in
    (Ok (Some p), with_limiters d (async_desk pl) pl)
  else (Err Limiters.Timeout, pl).
Definition acquire_async_limit (pl : plant) : option (result (option Z) Error.t) * plant :=
  let pl := others_settle pl in
  match core (async_desk pl) with
  | (S n, k) =>
    let '(p, d) := hand_out (n, S k) tt (async_desk pl) in
    (Some (Ok (Some p)), with_limiters (limiter_desk pl) d pl)
  | (O, _) => (None, pl)
  end.
Definition drop_limit (p : Z) (pl : plant) : plant :=
  with_limiters (give_back p (fun _ => Limiters.release) (limiter_desk pl))
    (give_back p (fun _ b => (S b.1, b.2)) (async_desk pl)) pl.

Definition rate_delay (host : option str) (pl : plant) : Duration * plant :=
  let '(d, r) := RateLimit.acquire_delay host (now_of pl) (rates pl) in (d, on_base_ (tick 1) (with_rates r pl)).
Definition rate_throttle (host : option str) (d : Duration) (scope : RateLimit.ServerThrottleScope)
    (hint : option RateLimit.ServerThrottleScope) (pl : plant) : RateLimit.ServerThrottleScope * plant :=
  let '(s, r) := RateLimit.observe_server_throttle host d scope hint (now_of pl) (rates pl) in (s, with_rates r pl).
Definition ask_budget (pl : plant) : bool * plant :=
  let '(granted, b) := RetryBudget.step pb (RetryBudget.Retry (now_of pl)) (budget pl) in (granted, with_budget b pl).
Definition credit_budget (pl : plant) : plant :=
  with_budget (RetryBudget.step pb (RetryBudget.Success (now_of pl)) (budget pl)).2 pl.

#[export] Instance plant_surroundings : Surroundings plant Z Z Z := {
  env_now := on_base env_now;
  env_now_system := on_base env_now_system;
  env_sampler := on_base env_sampler;
  env_sleep d pl := others_settle (on_base_ (env_sleep d) pl);
  env_rate_delay := rate_delay;
  env_rate_throttle := rate_throttle;
  env_acquire_global _ := acquire_limit;
  env_acquire_host _ _ pl := (Ok None, pl);
  env_drop_permit := drop_limit;
  env_circuit_begin := begin_circuit;
  env_circuit_end := end_circuit_of;
  env_adaptive_acquire _ := acquire_permit;
  env_adaptive_end := end_permit_of;
  env_budget_consume := ask_budget;
  env_budget_success := credit_budget;
}.

#[export] Instance plant_transport : Ureq plant unit (list Z) := {
  ureq_build method uri headers := ureq_build (E := world) method uri headers;
  ureq_run proxy method uri headers body d1 d2 := on_base (ureq_run proxy method uri headers body d1 d2);
  ureq_read body := on_base (ureq_read body);
  ureq_read_chunk n body := on_base (ureq_read_chunk n body);
  wraps_ureq_timeout := wraps_ureq_timeout (E := world);
}.

(** A timeout that is long enough. *)
#[export] Instance plant_tokio : Tokio plant Z Z unit (list Z) := {
  timeout_at T deadline op pl := let '(a, pl) := op pl in (Finished <$> a, pl);
  timeout T d op pl := let '(a, pl) := op pl in (Finished <$> a, pl);
  tokio_sleep d pl := (Some tt, others_settle (on_base_ (env_sleep d) pl));
  limiters_acquire_global := acquire_async_limit;
  limiters_acquire_host _ pl := (Some (Ok None), pl);
  controller_acquire := acquire_permit;
  transport_request method uri headers body := on_base (transport_request method uri headers body);
  body_frames body := on_base (body_frames body);
  as_hyper := as_hyper (E := world);
  is_connect := is_connect (E := world);
}.

(** ** The client, and a start with the other request under way *)
Definition plant_client : Client (E := plant) := {|
  features := EncodingDemo.features; tls_features := {| blocking_tls_rustls := true; blocking_tls_native := false |};
  endpoint_selector := None; base_url := lit "http://a.example"; default_headers := [];
  request_defaults := ExecutionDemo.demo_options; buffered_auto_accept_encoding := true;
  stream_auto_accept_encoding := false;
  interceptors := [{| on_request _ h pl := (h, on_base_ (tick 1) pl); on_response _ _ _ := on_base_ (tick 1);
                      on_error _ _ := on_base_ (tick 1) |}];
  observers := []; has_rate_limiter := true; has_request_limiters := true;
  has_circuit_breaker := true; has_adaptive_concurrency := true; has_retry_budget := true;
  server_throttle_scope := RateLimit.Auto; retry_eligibility := PermissiveRetryEligibility;
  backoff_source := None; proxy_config := None; has_proxy_agent := false;
  connect_timeout := duration_from_secs 1; stream_deadline_slack := 0;
|}.

Definition plant_start (answers : list (result (HttpResponse (list Z)) UreqErrorKind)) : Program.state plant Z Z Z := {|
  env := {| base := {| time := 0; token := 0; script := answers |};
            breaker_desk := {| core := CircuitBreaker.new; held := [(None, BreakerDemo.first)]; tokens := []; lost := 0 |};
            controller_desk := {| core := AdaptiveDemo.busy; held := [(None, AdaptiveDemo.permit)]; tokens := []; lost := 0 |};
            limiter_desk := {| core := 0; held := [(None, tt)]; tokens := []; lost := 0 |};
            async_desk := {| core := (0%nat, 1%nat); held := [(None, tt)]; tokens := []; lost := 0 |};
            budget := RetryBudget.new 0; rates := RateDemo.limiter |};
  metrics := Metrics.with_options true; log := [] |}.

#[export] Instance demo_breaker : Control CircuitBreaker.system CircuitAttempt := breaker_control pc.
#[export] Instance demo_controller : Control controller AdaptiveConcurrencyPermit := controller_control pa.
#[export] Instance demo_async_controller : Control async_controller AdaptiveConcurrencyPermit := async_control pa.

(** ** What a view of the plant has to show *)
Section Views.
Context {W K T : Type} `{!Control W K} (view : plant -> office W T) (marks : event Z Z Z -> option (mark T)).

Record watched : Prop := {
  watch_base : forall pl w, view (with_base w pl) = view pl;
  watch_marks : forall ev, of_control ev = false -> marks ev = None;
  watch_settle : carries_ (apart view) others_settle;
  watch_rate_delay : forall host, carries (apart view) (rate_delay host);
  watch_rate_throttle : forall host d scope hint, carries (apart view) (rate_throttle host d scope hint);
  watch_ask : carries (apart view) ask_budget;
  watch_credit : carries_ (apart view) credit_budget;
  watch_begin : agrees view marks begin_circuit (fun r => match r with Ok c => [CircuitBegan c] | Err _ => [] end);
  watch_end : forall how c, agrees_ view marks (end_circuit_of how c) [CircuitEnded how c];
  watch_acquire : agrees view marks acquire_permit (fun r => match r with Some a => [AdaptiveBegan a] | None => [] end);
  watch_adaptive_end : forall how a, agrees_ view marks (end_permit_of how a) [AdaptiveEnded how a];
  watch_drop : forall p, agrees_ view marks (drop_limit p) [PermitDropped p];
}.

Context (Hw : watched).

Lemma on_base_apart {U} (f : world -> U * world) : carries (apart view) (on_base f).
Proof.
  intros pl. unfold on_base. destruct (f (base pl)) as [a w]. unfold apart. simpl. rewrite (watch_base Hw). apply moves_refl.
Qed.
Lemma on_base_apart_ (f : world -> world) : carries_ (apart view) (on_base_ f).
Proof. intros pl. unfold apart, on_base_. rewrite (watch_base Hw). apply moves_refl. Qed.
Lemma settle_after (f : world -> world) : carries_ (apart view) (fun pl => others_settle (on_base_ f pl)).
Proof. intros pl. etransitivity; [apply (on_base_apart_ f)|apply (watch_settle Hw)]. Qed.

Lemma watched_connected : connected plant_client view marks.
Proof.
  destruct Hw. split; try done; intros; try apply on_base_apart; try apply on_base_apart_.
  split; [|constructor]. apply Forall_singleton. split_and!; intros; [|apply on_base_apart_..].
  intros pl. apply on_base_apart_.
Qed.

Lemma watched_blocking :
  agrees view marks acquire_limit taken ->
  blocking_connected (Stream := unit) (Body := list Z) plant_client view marks.
Proof.
  intros Hl. split; intros; try apply on_base_apart.
  - apply watched_connected.
  - apply settle_after.
  - exact Hl.
  - intros pl. apply moves_refl.
  - apply (watch_acquire Hw).
Qed.

Lemma watched_async :
  agrees view marks acquire_async_limit (when_ready taken) ->
  async_connected (Stream := unit) (Body := list Z) plant_client view marks.
Proof.
  intros Hl. split; intros; try apply on_base_apart.
  - apply watched_connected.
  - intros pl. match goal with Hop : agrees view marks op _ |- _ => pose proof (Hop pl) as Hmv end. simpl. by destruct (op pl) as [[a|] pl'].
  - intros pl. match goal with Hop : carries (apart view) op |- _ => pose proof (Hop pl) as Hmv end. simpl. by destruct (op pl).
  - intros pl. apply settle_after.
  - exact Hl.
  - intros pl. apply moves_refl.
  - intros pl. pose proof (watch_acquire Hw pl) as Hmv. simpl. by destruct (acquire_permit pl) as [[a|] pl'].
Qed.

End Views.

(** What concerns another control leaves a view as it was. *)
Ltac elsewhere :=
  intros; intros ?pl; cbv [rate_delay rate_throttle ask_budget credit_budget begin_circuit end_circuit_of end_permit_of drop_limit];
  repeat match goal with |- context [match ?x with _ => _ end] => destruct x end; apply moves_refl.
Ltac after_settle Hsettle :=
  intros pl; pose proof (Hsettle pl) as Hs; cbv [acquire_permit acquire_limit acquire_async_limit]; revert Hs;
  generalize (others_settle pl); intros pl' Hs;
  repeat match goal with |- context [match ?x with _ => _ end] => destruct x end; exact Hs.

(** ** The breaker *)
Lemma circuits_settle : carries_ (apart circuits) others_settle.
Proof.
  intros pl. apply (settle_moves (fun b l => {| breaker := b; live := l |}) EndSuccess). intros b l1 k l2.
  eexists. split; [apply breaker_ends|reflexivity].
Qed.
Lemma circuits_begin :
  agrees circuits circuit_marks begin_circuit (fun r => match r with Ok c => [CircuitBegan c] | Err _ => [] end) (P := Z) (A := Z).
Proof.
  intros pl. unfold begin_circuit. destruct (begin _ _ _) as [[a|d] b] eqn:Hb; simpl.
  - eapply (hand_out_moves (fun b l => {| breaker := b; live := l |}) b a); [reflexivity|]. by eapply breaker_begins.
  - eapply moves_other; [apply moves_refl|]. eapply (other_quiet (circuits pl)). by eapply breaker_rejects.
Qed.
Lemma circuits_end how c : agrees_ circuits circuit_marks (end_circuit_of how c) [CircuitEnded how c] (P := Z) (A := Z).
Proof. intros pl. apply give_back_moves. intros b l1 k l2. eexists. split; [apply breaker_ends|reflexivity]. Qed.

Lemma circuits_watched : watched circuits circuit_marks.
Proof.
  split; [done|by intros []|apply circuits_settle|elsewhere|elsewhere|elsewhere|elsewhere|apply circuits_begin|apply circuits_end
    |after_settle circuits_settle|elsewhere|elsewhere].
Qed.

(** ** The controllers *)
Lemma permits_settle : carries_ (apart permits_of) others_settle.
Proof.
  intros pl. apply (settle_moves (fun st ps => {| limits := st; permits := ps; callers := [] |}) EndSuccess). intros st ps1 k ps2.
  eexists. split; [apply (controller_ends pa EndSuccess)|reflexivity].
Qed.
Lemma async_permits_settle : carries_ (apart async_permits_of) others_settle.
Proof.
  intros pl. apply (settle_moves (fun st ps => {| async_limits := st; async_permits := ps; tasks := [] |}) EndSuccess). intros st ps1 k ps2.
  eexists. split; [apply (async_ends pa EndSuccess)|reflexivity].
Qed.

(** After the other request has settled, a caller arrives and leaves with a permit. *)
Lemma permits_acquire : agrees permits_of adaptive_marks acquire_permit
  (fun r => match r with Some a => [AdaptiveBegan a] | None => [] end) (P := Z) (C := Z).
Proof.
  intros pl. unfold acquire_permit. pose proof (permits_settle pl) as Hsettle. revert Hsettle.
  generalize (others_settle pl). intros pl' Hsettle. destruct (try_acquire _) as [[] st] eqn:Ht; [|exact Hsettle].
  apply (moves_trans _ [] (permits_of pl') [_]); [exact Hsettle|].
  eapply (hand_out_moves (fun st ps => {| limits := st; permits := ps; callers := [] |}) st).
  - apply rtc_once. exact (controller_waits pa _ _ (step_call pa _ _ _ None) eq_refl).
  - exact (controller_begins pa _ _ _ (step_acquired pa _ _ _ [] [] None _ Ht) eq_refl).
Qed.
Lemma async_permits_acquire : agrees async_permits_of adaptive_marks acquire_permit
  (fun r => match r with Some a => [AdaptiveBegan a] | None => [] end) (P := Z) (C := Z).
Proof.
  intros pl. unfold acquire_permit. pose proof (async_permits_settle pl) as Hsettle. revert Hsettle.
  generalize (others_settle pl). intros pl' Hsettle. destruct (try_acquire _) as [[] st] eqn:Ht; [|exact Hsettle].
  apply (moves_trans _ [] (async_permits_of pl') [_]); [exact Hsettle|].
  eapply (hand_out_moves (fun st ps => {| async_limits := st; async_permits := ps; tasks := [] |}) st).
  - apply rtc_once. exact (async_waits pa _ _ (async_call pa _ _ _) eq_refl).
  - exact (async_begins pa _ _ _ (async_acquired pa _ _ _ [] [] false _ Ht) eq_refl).
Qed.

Lemma permits_watched : watched permits_of adaptive_marks.
Proof.
  split; [done|by intros []|apply permits_settle|elsewhere|elsewhere|elsewhere|elsewhere|elsewhere|elsewhere
    |apply permits_acquire| |elsewhere].
  intros how a pl. apply give_back_moves. intros st ps1 k ps2. eexists. split; [apply (controller_ends pa how)|reflexivity].
Qed.
Lemma async_permits_watched : watched async_permits_of adaptive_marks.
Proof.
  split; [done|by intros []|apply async_permits_settle|elsewhere|elsewhere|elsewhere|elsewhere|elsewhere|elsewhere
    |apply async_permits_acquire| |elsewhere].
  intros how a pl. apply give_back_moves. intros st ps1 k ps2. eexists. split; [apply (async_ends pa how)|reflexivity].
Qed.

(** ** The limiters *)
Lemma limits_settle : carries_ (apart limits_of) others_settle.
Proof. intros pl. apply (settle_moves limited EndDrop). intros n l1 u l2. apply limited_gives. Qed.
Lemma async_limits_settle : carries_ (apart async_limits_of) others_settle.
Proof. intros pl. apply (settle_moves async_limited EndDrop). intros b l1 u l2. apply async_limited_gives. Qed.

Lemma limits_watched : watched limits_of permit_marks.
Proof.
  split; [done|by intros []|apply limits_settle|elsewhere|elsewhere|elsewhere|elsewhere|elsewhere|elsewhere
    |after_settle limits_settle|elsewhere|].
  intros p pl. apply (give_back_moves limited EndDrop). intros n l1 u l2. apply limited_gives.
Qed.
Lemma async_limits_watched : watched async_limits_of permit_marks.
Proof.
  split; [done|by intros []|apply async_limits_settle|elsewhere|elsewhere|elsewhere|elsewhere|elsewhere|elsewhere
    |after_settle async_limits_settle|elsewhere|].
  intros p pl. apply (give_back_moves async_limited EndDrop). intros b l1 u l2. apply async_limited_gives.
Qed.

Lemma limits_acquire : agrees limits_of permit_marks acquire_limit taken (C := Z) (A := Z).
Proof.
  intros pl. unfold acquire_limit. pose proof (limits_settle pl) as Hsettle. revert Hsettle.
  generalize (others_settle pl). intros pl' Hsettle. destruct (Z.ltb_spec 0 (core (limiter_desk pl'))) as [Hn|Hn]; [|exact Hsettle].
  apply (moves_trans _ [] (limits_of pl') [_]); [exact Hsettle|].
  destruct (limited_takes _ (held (limiter_desk pl')).*2 Hn) as (w & Hq & Hb).
  exact (hand_out_moves limited _ tt (limiter_desk pl') w _ Hq Hb).
Qed.
Lemma async_limits_acquire : agrees async_limits_of permit_marks acquire_async_limit (when_ready taken) (C := Z) (A := Z).
Proof.
  intros pl. unfold acquire_async_limit. pose proof (async_limits_settle pl) as Hsettle. revert Hsettle.
  generalize (others_settle pl). intros pl' Hsettle. destruct (core (async_desk pl')) as [[|n] k] eqn:Hc; [exact Hsettle|].
  apply (moves_trans _ [] (async_limits_of pl') [_]); [exact Hsettle|].
  destruct (async_limited_takes n k (held (async_desk pl')).*2) as (w & Hq & Hb). rewrite <- Hc in Hq.
  exact (hand_out_moves async_limited _ tt (async_desk pl') w _ Hq Hb).
Qed.

(** ** The retry budget and the rate limiter *)
Ltac quietly R :=
  intros; intros ?pl; cbv [rate_delay rate_throttle ask_budget credit_budget begin_circuit end_circuit_of end_permit_of drop_limit
    acquire_permit acquire_limit acquire_async_limit];
  repeat match goal with |- context [match ?x with _ => _ end] => destruct x end; apply (moves_refl (Control0 := passive R)).

Lemma budget_steps pl o : moves (Control0 := passive (budget_does pb)) (passive_office (budget pl)) []
  (passive_office (RetryBudget.step pb o (budget pl)).2).
Proof. apply passive_moves, rtc_once. by exists o. Qed.
Lemma rates_steps pl o : moves (Control0 := passive rate_does) (passive_office (rates pl)) []
  (passive_office (RateLimit.run_op o (rates pl))).
Proof. apply passive_moves, rtc_once. by exists o. Qed.

Lemma budget_watched : watched (Control0 := passive (budget_does pb)) (fun pl => passive_office (budget pl)) no_marks.
Proof.
  split; try done; try quietly (budget_does pb).
  - intros pl. pose proof (budget_steps pl (RetryBudget.Retry (now_of pl))) as Hs. unfold ask_budget.
    by destruct (RetryBudget.step _ _ _) as [g b].
  - intros pl. exact (budget_steps pl (RetryBudget.Success (now_of pl))).
Qed.
Lemma rates_watched : watched (Control0 := passive rate_does) (fun pl => passive_office (rates pl)) no_marks.
Proof.
  split; try done; try quietly rate_does.
  - intros host pl. pose proof (rates_steps pl (RateLimit.Acquire host (now_of pl))) as Hs. unfold rate_delay. cbn [RateLimit.run_op] in Hs.
    by destruct (RateLimit.acquire_delay _ _ _) as [d r].
  - intros host d scope hint pl. pose proof (rates_steps pl (RateLimit.Observe host d scope hint (now_of pl))) as Hs. unfold rate_throttle.
    cbn [RateLimit.run_op] in Hs. by destruct (RateLimit.observe_server_throttle _ _ _ _ _ _) as [sc r].
Qed.

(** ** The wiring of the plant *)
Definition plant_wires : wiring plant Z Z Z CircuitBreaker.system controller Limiters.world
    RetryBudget.RetryBudgetState RateLimit.RateLimiter :=
  {| wire_circuits := circuits; wire_adaptives := permits_of; wire_limits := limits_of; wire_budget := budget; wire_rates := rates |}.
Definition plant_async_wires : wiring plant Z Z Z CircuitBreaker.system async_controller AsyncLimiters.world
    RetryBudget.RetryBudgetState RateLimit.RateLimiter :=
  {| wire_circuits := circuits; wire_adaptives := async_permits_of; wire_limits := async_limits_of; wire_budget := budget;
     wire_rates := rates |}.

Lemma plant_controls : controls_connected (Stream := unit) (Body := list Z) plant_client pc pa pb plant_wires.
Proof.
  split_and!.
  - apply watched_blocking; [apply circuits_watched|after_settle circuits_settle].
  - apply watched_blocking; [apply permits_watched|after_settle permits_settle].
  - apply watched_blocking; [apply limits_watched|apply limits_acquire].
  - apply watched_blocking; [apply budget_watched|quietly (budget_does pb)].
  - apply watched_blocking; [apply rates_watched|quietly rate_does].
Qed.

Lemma plant_async_controls : async_controls_connected (Stream := unit) (Body := list Z) plant_client pc pa pb plant_async_wires.
Proof.
  split_and!.
  - apply watched_async; [apply circuits_watched|after_settle circuits_settle].
  - apply watched_async; [apply async_permits_watched|after_settle async_permits_settle].
  - apply watched_async; [apply async_limits_watched|apply async_limits_acquire].
  - apply watched_async; [apply budget_watched|quietly (budget_does pb)].
  - apply watched_async; [apply rates_watched|quietly rate_does].
Qed.

Lemma plant_idle answers : wired_idle plant_wires (env (plant_start answers)).
Proof. by split_and!. Qed.
Lemma plant_async_idle answers : wired_idle plant_async_wires (env (plant_start answers)).
Proof. by split_and!. Qed.

Abbreviation plant_run answers :=
  (send_request plant_client 13 9 GET (lit "/") [] None no_overrides (plant_start answers)).
Abbreviation plant_stream_run answers :=
  (send_request_stream plant_client 13 9 GET (lit "/") [] None no_overrides (plant_start answers)).
Abbreviation plant_async_run answers :=
  (Async.send_request plant_client 13 9 GET (lit "/") [] None no_overrides (plant_start answers)).

End SystemDemo.
Import SystemDemo.

(** The first exchange fails and opens the breaker, the second is its probe and closes
    it again; the stream of the third carries its attempt and the one permit of the
    limiter, and the other request is done. *)
Lemma blocking_requests_keep_controls_witness :
  match plant_stream_run answers with
  | Some (r, s') =>
    controls_sound pc pa pb plant_wires (result_guards (as_response r)) (result_held (as_response r))
      (env (plant_start answers)) (env s') /\
    (owners (circuits (env s')), owners (limits_of (env s'))) = ([Some 3], [Some 1])
  | None => False
  end.
Proof.
  assert (match plant_stream_run answers with
    | Some (_, s') => (owners (circuits (env s')), owners (limits_of (env s'))) | None => ([], []) end = ([Some 3], [Some 1])) as H1
    by (vm_compute; reflexivity).
  destruct (plant_stream_run answers) as [[r s']|] eqn:Hrun; [|discriminate H1]. split; [|exact H1].
  exact (proj2 (blocking_requests_keep_controls plant_client pc pa pb plant_wires plant_controls 13 9 GET (lit "/") []
    None no_overrides (plant_start answers) s' (plant_idle answers)) r Hrun).
Defined.

(** The third exchange is never answered; with the dropped request its attempt goes, and
    its permits. *)
Lemma async_requests_keep_controls_witness :
  match plant_async_run unanswered with
  | Some (Dropped, s') =>
    async_controls_sound pc pa pb plant_async_wires no_guards [] (env (plant_start unanswered)) (env s') /\
    (issued (circuits (env s')), issued (async_limits_of (env s')), owners (async_limits_of (env s'))) = ([3; 2; 1], [1], [])
  | _ => False
  end.
Proof.
  assert (match plant_async_run unanswered with
    | Some (Dropped, s') => (issued (circuits (env s')), issued (async_limits_of (env s')), owners (async_limits_of (env s')))
    | _ => ([], [], []) end = ([3; 2; 1], [1], [])) as H1 by (vm_compute; reflexivity).
  destruct (plant_async_run unanswered) as [[[r|] s']|] eqn:Hrun; try discriminate H1. split; [|exact H1].
  exact (proj1 (async_requests_keep_controls plant_client pc pa pb plant_async_wires plant_async_controls 13 9 GET (lit "/") []
    None no_overrides (plant_start unanswered) s' (plant_async_idle unanswered)) Dropped Hrun).
Defined.
